(* ===== verification/_CoqProject ===== *)
-Q . S2P
Prelude.v
RustStd.v
Proto.v
Key.v
Model.v
Policy.v
Metrics.v
Workflow.v
Coordinator.v
CoordinatorProps.v
Snooze.v
Timers.v
PublishEngine.v
Ingress.v
Hydration.v
Redis.v
Grpc.v
System.v
SystemProps.v
Service.v
ServiceProps.v
Convergence.v
Intents.v
Quiet.v
Reports.v
Startup.v
Topic.v
Restart.v
Filing.v
Answers.v
Superseded.v
EndToEnd.v
Scenarios.v
