(* ===== verification/Prelude.v ===== *)
(** * A verification development for the Acorn alarms service

    The service keeps the state of the accelerator's alarms.  Alarm sources report
    statuses through a Redis stream, operators send commands by gRPC, and every
    change is published to a Kafka topic, from which part of the state is restored at
    the next start.  Inside, four tasks exchange messages over channels:

    - the _coordinator_ decides what the state of each alarm should be.  It keeps the
      last confirmed status of every key, and the latest intent while a job for it is
      under way (speculative state);
    - the _workflow handler_ drives each job through its two effects, first the snooze
      timer, then the publication, and reports it as committed or failed;
    - the _snooze scheduler_ keeps one timer per bypassed alarm and wakes it;
    - the _publish engine_ hands messages to the broker, retries once, and reports.

    In front of the coordinator, the _ingress_ coalesces automated updates when the
    coordinator is overloaded and rejects operator commands when its queue is full.

    ** The files and the code they model

    - [Prelude] (this file): results, panics, the effect monad [Eff] in which every
      handler is written, channels, sums and counts over lists, and the tactics and
      hint databases of the development.
    - [RustStd]: strings, integers, atomics and durations of the Rust library.
    - [Proto]: the generated message types, as far as the code names them.
    - [Key]: [model/key.rs].  [Model]: the other files of [model/] and
      [engine/messages.rs].  [Policy]: [engine/policy.rs].  [Metrics]: [metrics.rs].
    - [Coordinator]: [engine/coordinator.rs]; [CoordinatorProps]: its theorems.
    - [Workflow]: [engine/workflow.rs].  [Snooze]: [effects/snooze.rs]; [Timers]: its
      loop, and the map of deadlines that it refines.
      [PublishEngine]: [effects/publish.rs].  [Ingress]: [engine/ingress.rs].
    - [Hydration]: [runtime/hydration.rs] and the two hydration adapters.
      [Redis], [Grpc]: [adapters/redis.rs], [adapters/grpc.rs].
    - [System]: the four tasks and unbounded queues between them, from [runtime.rs];
      [SystemProps]: the token invariant and the theorems about every run.
    - [Service]: [runtime.rs] as it is, with the ports of the tasks, channels of the
      configured capacities, tasks that wait for room, and the ingress in front;
      it refines [System].  [ServiceProps]: deadlocks.
    - [Convergence]: the measure by which [System] comes to rest.  [Intents]: what
      becomes of an intent.  [Quiet]: alarms that no operator commands.  [Reports]: the
      way of a report from the ingress to the confirmed state.
    - [Startup]: [main.rs] and the connection of [adapters/redis.rs]: configuration,
      start-up, and the reader task on top of [Service].
    - [Topic]: histories with the messages the broker has stored; confirmed state and
      restart.  [Restart]: the restart through [main].  [Filing]: statuses and their keys.
      [Answers]: what the answer to an operator means, up to the reply of [Grpc].
      [EndToEnd]: the course of a command through the four tasks.
      [Superseded]: commands that are never answered.
      [Scenarios]: what else the code does against its documentation.

    A message goes from [Redis] (or [Grpc]) through [Ingress] to the coordinator, as a
    [Job] to the workflow handler, as a [SnoozeInput] to the scheduler, as a [Publish] to
    the engine, and the outcomes come back the same way.  The theorems about one task are
    stated for any messages; [System] composes the tasks with any interleaving;
    [Service] adds capacities, waiting and the ingress, and its runs are mapped to those
    of [System] by [service_system] (states) and [sys_events] (steps); [Startup] adds the
    environment and the stream.

    Definitions keep the names of the code, except where a name is used twice; the
    comment of each definition names its function.  A method that changes [self] is an
    [Eff] over the record of the task's state: it returns the new state and the list
    of its outputs (messages, answers, metric calls) in the order of the code, or a
    panic with the message of the [expect] that failed.  A [send] whose error the code
    inspects takes the liveness of the receiver as a parameter of the Section.  The
    loop of a task is an [.._iteration] on what its [select!] yields; [.._select]
    models the biased choice itself.

    ** Third-party code

    What is not in the repository is a type class of operations, with a second class
    of documented laws where theorems need them, and an instance that satisfies them:
    non-ASCII case mapping and trimming ([UnicodeTables]), the generated enums
    ([ProtoEnums]), serde_json ([StatusJson]), chrono ([Chrono]), tokio-util's
    [DelayQueue], ringmap's [RingMap], and rust-env-var-lib ([EnvVar]).  The broker, the
    AEOLUS proxy, the Redis stream and the clocks appear as the events and arguments they
    deliver.  Of tokio, [Service] and [Ingress] use the documented behaviour of
    [mpsc] channels: first in first out, a capacity between 1 and [MAX_PERMITS], and a
    [send] that waits for room.

    ** What is shown

    - Durability ([Topic], [Restart]): the confirmed status of a settled key is its last
      message on the topic, and [main] restores the EPICS bypasses from it.
    - From the stream to the confirmed state ([Startup], [Reports]): when the service
      that [main] started has come to rest, an alarm that no operator commands is
      confirmed with the severity of its last entry in the stream, through overload,
      refusals, retries and any order of the tasks.
    - Answers ([Answers]): an operator whose command is answered with success, through
      gRPC and the bounded service, finds its message on the topic.
    - Bounded channels ([Service], [ServiceProps]): refinement of [System]; capacities
      that exclude a deadlock of the tasks, and a deadlock when they are too small.
    - Progress ([Convergence], [Intents]): without new messages the service comes to rest
      after a bounded number of steps, but for failures that never end, and then the
      latest intents are confirmed.
    - Whole service ([SystemProps], [EndToEnd], [Filing]): it never stops by itself; per
      key there is at most one job anywhere between the tasks, with exactly the traffic
      of its step; work in progress is bounded by the number of alarms with an intent;
      a command given at rest is carried out and answered; every status is under the key
      that it names itself.
    - Start-up ([Startup]): when it returns an error, when it panics, and what runs
      otherwise.
    - Coordinator: confirmed state advances only by commits; stale outcomes do not
      displace newer intent; one job per event; answers are conserved; identifiers;
      rollback of failed operator requests; commands accepted and refused; snapshots;
      wake-ups; shutdown; the priority of its loop.
    - Workflow handler: refinement of a per-key automaton ([phase_step]); batches;
      exactly when it panics.
    - Publish engine: accounting of every request over any history; bounds on attempts,
      messages and batches; termination of retries; every request is reported.
    - Snooze scheduler: agreement of registry and delay queue; its loop is a run of a map
      from keys to deadlines, and no timer is forgotten; conversion of wake times.
    - Ingress: order and coalescing per key over all interleavings of the handles and
      the drain task; overload mode is never stuck, whoever sends what; the drain empties
      the backlog.
    - Data: printing and parsing of keys, publication and replay as a round trip,
      hydration, translation of stream entries and of commands, policy, histograms and
      the gauges of the metrics.
    - [Superseded], [Scenarios] and [Snooze.present_wake_accepted]: where the code and its intention
      differ.

    ** Bounds

    No definition needs fuel: loops of the code are iterations that the theorems
    quantify over, or recursion on a list.  [service_settles] bounds the steps of the
    whole service by the measure [settle_work]; [publish_terminates], [drain_flushes] and
    [command_carried_out] give the numbers of iterations explicitly.  The counters are
    [u64]s that wrap; the theorems that need fresh identifiers are about runs with fewer
    than 2^64 events, and the gauges are exact modulo their width.

    ** What is not modelled, and what is next

    The logging set-up, the gRPC transport, and the libraries that connect to Redis and
    Kafka.  The relaxed ordering of the atomics.  The end of the process: [main] returns
    on a signal and the runtime drops the tasks where they are, which a history of
    [Topic] that stops anywhere covers; the loops' own reactions to channels that are
    closed are modelled for each task alone.  In [Answers] the handlers of [Grpc] are tied to
    a run of [Service] by the answers they await and the commands they queue; next, their
    own steps interleaved with those of [Service]. *)

From Stdlib Require Export Strings.Ascii.
From stdpp Require Export base tactics option numbers gmap strings relations list.

(** ** Results, panics and effects *)

Declare Scope alarms_scope.
Delimit Scope alarms_scope with alarms.
#[global] Open Scope alarms_scope.

(** Rust's [Result]. *)
Inductive result (A E : Type) : Type :=
| Ok (a : A)
| Err (e : E).
Arguments Ok {A E} a.
Arguments Err {A E} e.

#[export] Instance result_eq_dec {A E} `{EqDecision A, EqDecision E} :
  EqDecision (result A E).
Proof. solve_decision. Defined.

Definition result_is_ok {A E} (r : result A E) : bool :=
  match r with Ok _ => true | Err _ => false end.

(** What running a handler can do besides returning a value: panic (an
    [expect] on [None], an out-of-range index, a panicking library call). *)
Inductive outcome (A : Type) : Type :=
| Ret (a : A)
| Panic (msg : string).
Arguments Ret {A} a.
Arguments Panic {A} msg.

(** A handler of a task: it reads and writes the task's own state [S], emits
    messages and observations [O] in order, and returns an [A] or panics. *)
Definition Eff (S O A : Type) : Type := S → outcome (A * S * list O).

#[export] Instance eff_ret {S O} : MRet (Eff S O) :=
  λ A a s, Ret (a, s, []).

#[export] Instance eff_bind {S O} : MBind (Eff S O) :=
  λ A B f m s,
    match m s with
    | Ret (a, s1, o1) =>
        match f a s1 with
        | Ret (b, s2, o2) => Ret (b, s2, o1 ++ o2)
        | Panic msg => Panic msg
        end
    | Panic msg => Panic msg
    end.

Definition get {S O} : Eff S O S := λ s, Ret (s, s, []).
Definition modify {S O} (f : S → S) : Eff S O unit := λ s, Ret (tt, f s, []).
Definition emit {S O} (o : O) : Eff S O unit := λ s, Ret (tt, s, [o]).
Definition panic {S O A} (msg : string) : Eff S O A := λ _, Panic msg.

(** [Option::expect]. *)
Definition expect {S O A} (o : option A) (msg : string) : Eff S O A :=
  match o with Some a => mret a | None => panic msg end.

(** [mpsc::Sender::send(..).await] on a channel whose receiver is alive or has
    been dropped: the message is delivered, or an error is returned. *)
Definition channel_send {S O} (receiver_alive : bool) (o : O) : Eff S O (result unit unit) :=
  if receiver_alive then emit o ;; mret (Ok tt) else mret (Err tt).

(** The [?] operator on a handler that returns a [Result]. *)
Definition try_bind {S O A B E} (m : Eff S O (result A E))
    (f : A → Eff S O (result B E)) : Eff S O (result B E) :=
  r ← m;
  match r with
  | Ok a => f a
  | Err e => mret (Err e)
  end.
Notation "x ?← m ; k" := (try_bind m (λ x, k))
  (at level 20, m at level 100, k at level 200, right associativity) : alarms_scope.

(** A loop over a list inside a handler: [for x in l { body(x) }]. *)
Fixpoint for_each {S O A} (body : A → Eff S O unit) (l : list A) : Eff S O unit :=
  match l with
  | [] => mret tt
  | x :: l' => body x ;; for_each body l'
  end.

(** A loop whose body only emits. *)
Lemma for_each_emits {S O A} (body : A → Eff S O unit) (f : A → list O) l s :
  (∀ x s', body x s' = Ret (tt, s', f x)) → for_each body l s = Ret (tt, s, l ≫= f).
Proof.
  intros Hbody. induction l as [|x l IH]; [done|]. cbn [for_each].
  unfold mbind at 1, eff_bind. by rewrite Hbody, IH.
Qed.

(** ** Receiving *)

(** The receiving half of an [mpsc] channel: the buffered messages, oldest
    first, and whether a sender is alive. *)
Record chan (A : Type) := mkChan {
  buffer : list A;
  sender_alive : bool;
}.
Arguments mkChan {A} buffer sender_alive.
Arguments buffer {A} c.
Arguments sender_alive {A} c.

(** Polling [recv()]: a message is ready, none is yet, or the channel is closed
    and drained, which disables the [Some(..)] branch of a [select!]. *)
Inductive poll (A : Type) :=
| Ready (a : A)
| Pending
| Disabled.
Arguments Ready {A} a.
Arguments Pending {A}.
Arguments Disabled {A}.

Definition poll_recv {A} (c : chan A) : poll (A * chan A) :=
  match buffer c with
  | a :: rest => Ready (a, mkChan rest (sender_alive c))
  | [] => if sender_alive c then Pending else Disabled
  end.

Definition poll_map {A B} (f : A → B) (p : poll A) : poll B :=
  match p with Ready a => Ready (f a) | Pending => Pending | Disabled => Disabled end.

(** A [biased] [select!] over branches polled in order: the first ready branch
    wins; with none ready the task waits while some branch may still become
    ready, and takes the [else] branch when all are disabled. *)
Definition poll_first {A} (p q : poll A) : poll A :=
  match p with
  | Ready a => Ready a
  | Pending => match q with Ready a => Ready a | _ => Pending end
  | Disabled => q
  end.

(** The sending half of a bounded channel: the messages in the queue, its capacity,
    and whether the receiver is alive. *)
Record bchan (A : Type) := mkBchan {
  queued : list A;
  capacity : nat;
  receiver_alive : bool;
}.
Arguments mkBchan {A} queued capacity receiver_alive.
Arguments queued {A} b.
Arguments capacity {A} b.
Arguments receiver_alive {A} b.

Inductive TrySendError := TrySendClosed | TrySendFull.

(** [mpsc::Sender::try_send]. *)
Definition try_send {A} (c : bchan A) (a : A) : result (bchan A) TrySendError :=
  if receiver_alive c then
    if (length (queued c) <? capacity c)%nat
    then Ok (mkBchan (queued c ++ [a]) (capacity c) true)
    else Err TrySendFull
  else Err TrySendClosed.

(** ** Machine integers *)

Definition u64_max : Z := 18446744073709551615%Z.
Definition u64_modulus : Z := 18446744073709551616%Z.
Definition i64_min : Z := (-9223372036854775808)%Z.
Definition i64_max : Z := 9223372036854775807%Z.
Definition u8_max : Z := 255%Z.

(** [u64] addition as the release profile compiles it (no overflow checks):
    wrap-around. *)
Definition u64_wrapping_add (a b : Z) : Z := ((a + b) mod u64_modulus)%Z.
Definition u64_wrapping_sub (a b : Z) : Z := ((a - b) mod u64_modulus)%Z.
Definition u64_saturating_add (a b : Z) : Z := Z.min (a + b) u64_max.
Definition u8_saturating_add (a b : Z) : Z := Z.min (a + b) u8_max.

Lemma u64_wrapping_add_small a b :
  (0 ≤ a + b < u64_modulus)%Z → u64_wrapping_add a b = (a + b)%Z.
Proof. intros. unfold u64_wrapping_add. by apply Z.mod_small. Qed.

Lemma u64_wrapping_add_range a b : (0 ≤ u64_wrapping_add a b < u64_modulus)%Z.
Proof. apply Z.mod_pos_bound. done. Qed.

(** ** Counting *)

(** How many elements of a list satisfy a boolean test; the workhorse of the
    accounting invariants. *)
Fixpoint count_by {A} (f : A → bool) (l : list A) : nat :=
  match l with
  | [] => 0
  | a :: l' => Nat.b2n (f a) + count_by f l'
  end.

(** Sum of a measure over a list. *)
Fixpoint sum_by {A} (f : A → nat) (l : list A) : nat :=
  match l with
  | [] => 0
  | a :: l' => f a + sum_by f l'
  end.

Section counting.
Context {A : Type}.
Implicit Types l : list A.

Lemma count_by_app (f : A → bool) l1 l2 :
  count_by f (l1 ++ l2) = count_by f l1 + count_by f l2.
Proof. induction l1; simpl; lia. Qed.

Lemma sum_by_app (f : A → nat) l1 l2 :
  sum_by f (l1 ++ l2) = sum_by f l1 + sum_by f l2.
Proof. induction l1; simpl; lia. Qed.

Lemma count_by_pos (f : A → bool) l a : a ∈ l → f a = true → 0 < count_by f l.
Proof.
  induction l as [|b l IH]; simpl; intros Hin Hf; [by apply not_elem_of_nil in Hin|].
  apply elem_of_cons in Hin as [->|Hin].
  - rewrite Hf. simpl. lia.
  - specialize (IH Hin Hf). lia.
Qed.

Lemma count_by_zero (f : A → bool) l a : count_by f l = 0 → a ∈ l → f a = false.
Proof.
  intros Hz Hin. destruct (f a) eqn:E; [|done].
  pose proof (count_by_pos f l a Hin E). lia.
Qed.

Lemma count_by_exists (f : A → bool) l : 0 < count_by f l → ∃ a, a ∈ l ∧ f a = true.
Proof.
  induction l as [|a l IH]; simpl; [lia|].
  destruct (f a) eqn:E; simpl.
  - intros _. exists a. split; [left|done].
  - intros Hpos. destruct (IH Hpos) as (b & Hb & Hf). exists b. split; [by right|done].
Qed.

Lemma count_by_permutation (f : A → bool) l1 l2 :
  l1 ≡ₚ l2 → count_by f l1 = count_by f l2.
Proof. induction 1; simpl; lia. Qed.

Lemma sum_by_permutation (f : A → nat) l1 l2 :
  l1 ≡ₚ l2 → sum_by f l1 = sum_by f l2.
Proof. induction 1; simpl; lia. Qed.

Lemma count_by_map {B} (f : B → bool) (g : A → B) l :
  count_by f (map g l) = count_by (λ a, f (g a)) l.
Proof. induction l; simpl; lia. Qed.

Lemma count_by_ext (f g : A → bool) l :
  (∀ a, a ∈ l → f a = g a) → count_by f l = count_by g l.
Proof.
  induction l as [|a l IH]; intros H; simpl; [done|].
  rewrite H by left. rewrite IH; [done|]. intros b Hb. apply H. by right.
Qed.
End counting.

Lemma count_by_bind {A B} (f : B → bool) (g : A → list B) l :
  count_by f (l ≫= g) = sum_by (λ a, count_by f (g a)) l.
Proof. induction l as [|a l IH]; [done|]. cbn. by rewrite count_by_app, <- IH. Qed.

#[export] Instance count_by_proper {A} (f : A → bool) :
  Proper ((≡ₚ) ==> (=)) (count_by f).
Proof. intros l1 l2. apply count_by_permutation. Qed.

#[export] Instance sum_by_proper {A} (f : A → nat) :
  Proper ((≡ₚ) ==> (=)) (sum_by f).
Proof. intros l1 l2. apply sum_by_permutation. Qed.

(** ** Automation *)

Create HintDb alarms.

Create Rewrite HintDb counting.
#[export] Hint Rewrite @count_by_app @sum_by_app @length_app : counting.

(** Run a handler symbolically: unfold the effect combinators. *)
Ltac eff_unfold :=
  cbv [mbind mret eff_bind eff_ret get modify emit panic expect try_bind channel_send] in *.

Ltac eff_simpl :=
  repeat (first [progress eff_unfold | progress cbn beta iota zeta in *]).

(** Case analysis on the scrutinee of a [match] in the goal or a hypothesis. *)
Ltac case_split :=
  repeat (case_match; simplify_eq/=; try done).
