(* ===== verification/RustStd.v ===== *)
(** * The parts of the Rust standard library the service uses

    Strings are Rust's UTF-8 byte strings as [string].  On ASCII strings
    [to_uppercase] and [trim] are defined here; what they do to a string with a
    non-ASCII character is Unicode data, a parameter ([UnicodeTables]) with the
    documented facts about it that the service relies on ([UnicodeLaws]). *)

From S2P Require Export Prelude.


Local Open Scope string_scope.

(** ** Characters *)

Definition is_ascii_char (c : ascii) : bool := (nat_of_ascii c <? 128)%nat.

(** [u8::to_ascii_uppercase]. *)
Definition ascii_upper (c : ascii) : ascii :=
  let n := nat_of_ascii c in
  if ((97 <=? n) && (n <=? 122))%nat then ascii_of_nat (n - 32) else c.

(** ASCII characters with the [White_Space] property: tab, line feed, vertical
    tab, form feed, carriage return and space. *)
Definition ascii_whitespace (c : ascii) : bool :=
  let n := nat_of_ascii c in
  (((9 <=? n) && (n <=? 13)) || (n =? 32))%nat.

(** ** Strings *)

Fixpoint string_map (f : ascii → ascii) (s : string) : string :=
  match s with
  | EmptyString => EmptyString
  | String c s' => String (f c) (string_map f s')
  end.

Fixpoint string_forallb (f : ascii → bool) (s : string) : bool :=
  match s with
  | EmptyString => true
  | String c s' => f c && string_forallb f s'
  end.

Definition is_ascii (s : string) : bool := string_forallb is_ascii_char s.

Definition string_is_empty (s : string) : bool :=
  match s with EmptyString => true | _ => false end.

Fixpoint ascii_trim_start (s : string) : string :=
  match s with
  | EmptyString => EmptyString
  | String c s' => if ascii_whitespace c then ascii_trim_start s' else s
  end.

Fixpoint ascii_trim_end (s : string) : string :=
  match s with
  | EmptyString => EmptyString
  | String c s' =>
      let r := ascii_trim_end s' in
      if string_is_empty r && ascii_whitespace c then EmptyString else String c r
  end.

Definition ascii_trim (s : string) : string := ascii_trim_start (ascii_trim_end s).

(** [str::contains] of a character. *)
Fixpoint contains_char (c : ascii) (s : string) : bool :=
  match s with
  | EmptyString => false
  | String a s' => Ascii.eqb a c || contains_char c s'
  end.

(** [str::split_once] on a character. *)
Fixpoint split_once (sep : ascii) (s : string) : option (string * string) :=
  match s with
  | EmptyString => None
  | String c s' =>
      if Ascii.eqb c sep then Some ("", s')
      else match split_once sep s' with
           | Some (l, r) => Some (String c l, r)
           | None => None
           end
  end.

(** [[String]::join]. *)
Fixpoint join (sep : string) (l : list string) : string :=
  match l with
  | [] => ""
  | [s] => s
  | s :: l' => s +:+ sep +:+ join sep l'
  end.

(** [str::eq_ignore_ascii_case]. *)
Definition eq_ignore_ascii_case (a b : string) : bool :=
  bool_decide (string_map ascii_upper a = string_map ascii_upper b).

(** ** Unicode data *)

Class UnicodeTables := {
  uc_upper : string → string;  (** [to_uppercase] on a string with a non-ASCII character *)
  uc_trim : string → string;   (** [trim] on a string with a non-ASCII character *)
}.

Section unicode.
Context `{UnicodeTables}.

(** [str::to_uppercase]. *)
Definition to_uppercase (s : string) : string :=
  if is_ascii s then string_map ascii_upper s else uc_upper s.

(** [str::trim]. *)
Definition trim (s : string) : string :=
  if is_ascii s then ascii_trim s else uc_trim s.
End unicode.

(** Documented facts about the Unicode tables: upper-casing and trimming are
    idempotent, case mapping neither creates nor removes white space, and
    neither operation creates a ['#'] or makes it disappear. *)
Class UnicodeLaws `{UnicodeTables} := {
  uc_upper_idem s : is_ascii s = false → to_uppercase (uc_upper s) = uc_upper s;
  uc_trim_idem s : is_ascii s = false → trim (uc_trim s) = uc_trim s;
  uc_trim_upper s : is_ascii s = false → trim (uc_upper s) = to_uppercase (uc_trim s);
  uc_upper_hash s :
    is_ascii s = false → contains_char "#" (uc_upper s) = contains_char "#" s;
  uc_trim_hash s :
    is_ascii s = false → contains_char "#" (uc_trim s) = contains_char "#" s;
  (** trimming keeps a leading character that is not white space *)
  uc_trim_head c s :
    is_ascii (String c s) = false → is_ascii_char c = true → ascii_whitespace c = false →
    ∃ s', uc_trim (String c s) = String c s';
}.

(** ** Integer parsing *)

Definition digit_value (c : ascii) : option Z :=
  let n := nat_of_ascii c in
  if ((48 <=? n) && (n <=? 57))%nat then Some (Z.of_nat n - 48)%Z else None.

Fixpoint parse_digits (acc : Z) (s : string) : option Z :=
  match s with
  | EmptyString => Some acc
  | String c s' =>
      match digit_value c with
      | Some d => parse_digits (acc * 10 + d)%Z s'
      | None => None
      end
  end.

Definition parse_magnitude (s : string) : option Z :=
  if string_is_empty s then None else parse_digits 0 s.

(** [str::parse::<i64>]: an optional sign, at least one decimal digit, nothing
    else, and a value in range. *)
Definition parse_i64 (s : string) : option Z :=
  let signed :=
    match s with
    | String "-" s' => Z.opp <$> parse_magnitude s'
    | String "+" s' => parse_magnitude s'
    | _ => parse_magnitude s
    end in
  match signed with
  | Some z => if ((i64_min <=? z) && (z <=? i64_max))%Z then Some z else None
  | None => None
  end.

(** ** Facts *)

Lemma ascii_upper_idem c : ascii_upper (ascii_upper c) = ascii_upper c.
Proof. destruct c as [[] [] [] [] [] [] [] []]; reflexivity. Qed.

Lemma ascii_upper_is_ascii c : is_ascii_char (ascii_upper c) = is_ascii_char c.
Proof. destruct c as [[] [] [] [] [] [] [] []]; reflexivity. Qed.

Lemma ascii_upper_whitespace c : ascii_whitespace (ascii_upper c) = ascii_whitespace c.
Proof. destruct c as [[] [] [] [] [] [] [] []]; reflexivity. Qed.

Lemma ascii_upper_hash c : Ascii.eqb (ascii_upper c) "#" = Ascii.eqb c "#".
Proof. destruct c as [[] [] [] [] [] [] [] []]; reflexivity. Qed.

Lemma string_map_upper_idem s :
  string_map ascii_upper (string_map ascii_upper s) = string_map ascii_upper s.
Proof. induction s as [|c s IH]; simpl; [done|]. by rewrite ascii_upper_idem, IH. Qed.

Lemma is_ascii_map_upper s : is_ascii (string_map ascii_upper s) = is_ascii s.
Proof.
  unfold is_ascii. induction s as [|c s IH]; simpl; [done|].
  by rewrite ascii_upper_is_ascii, IH.
Qed.

Lemma is_ascii_trim_start s : is_ascii s = true → is_ascii (ascii_trim_start s) = true.
Proof.
  unfold is_ascii. induction s as [|c s IH]; simpl; [done|].
  intros [Hc Hs]%andb_true_iff. case_match; [auto|]. simpl. by rewrite Hc, Hs.
Qed.

Lemma is_ascii_trim_end s : is_ascii s = true → is_ascii (ascii_trim_end s) = true.
Proof.
  unfold is_ascii. induction s as [|c s IH]; simpl; [done|].
  intros [Hc Hs]%andb_true_iff. case_match; [done|]. simpl. by rewrite Hc, IH.
Qed.

Lemma is_ascii_ascii_trim s : is_ascii s = true → is_ascii (ascii_trim s) = true.
Proof. intros. by apply is_ascii_trim_start, is_ascii_trim_end. Qed.

Lemma ascii_trim_start_idem s : ascii_trim_start (ascii_trim_start s) = ascii_trim_start s.
Proof. induction s as [|c s IH]; simpl; [done|]. case_match eqn:E; simpl; [done|by rewrite E]. Qed.

Lemma ascii_trim_end_idem s : ascii_trim_end (ascii_trim_end s) = ascii_trim_end s.
Proof. induction s as [|c s IH]; simpl; [done|]. case_match eqn:E; simpl; [done|by rewrite IH, E]. Qed.

Lemma ascii_trim_start_end s :
  ascii_trim_end (ascii_trim_start s) = ascii_trim_start (ascii_trim_end s).
Proof.
  induction s as [|c s IH]; simpl; [done|].
  destruct (ascii_whitespace c) eqn:Ec; simpl.
  - rewrite IH. destruct (ascii_trim_end s) eqn:E; simpl; [done|by rewrite Ec].
  - rewrite Ec, andb_false_r. simpl. by rewrite Ec.
Qed.

Lemma ascii_trim_idem s : ascii_trim (ascii_trim s) = ascii_trim s.
Proof.
  unfold ascii_trim.
  by rewrite ascii_trim_start_end, ascii_trim_end_idem, ascii_trim_start_idem.
Qed.

Lemma ascii_trim_start_upper s :
  ascii_trim_start (string_map ascii_upper s) = string_map ascii_upper (ascii_trim_start s).
Proof.
  induction s as [|c s IH]; simpl; [done|].
  rewrite ascii_upper_whitespace. by case_match.
Qed.

Lemma string_map_is_empty f s : string_is_empty (string_map f s) = string_is_empty s.
Proof. by destruct s. Qed.

Lemma ascii_trim_end_upper s :
  ascii_trim_end (string_map ascii_upper s) = string_map ascii_upper (ascii_trim_end s).
Proof.
  induction s as [|c s IH]; simpl; [done|].
  rewrite IH, string_map_is_empty, ascii_upper_whitespace. by case_match.
Qed.

Lemma ascii_trim_upper s :
  ascii_trim (string_map ascii_upper s) = string_map ascii_upper (ascii_trim s).
Proof. unfold ascii_trim. by rewrite ascii_trim_end_upper, ascii_trim_start_upper. Qed.

Lemma contains_char_upper s :
  contains_char "#" (string_map ascii_upper s) = contains_char "#" s.
Proof.
  induction s as [|c s IH]; cbn [string_map contains_char]; [done|].
  by rewrite ascii_upper_hash, IH.
Qed.

Lemma contains_char_trim_start c s :
  ascii_whitespace c = false → contains_char c (ascii_trim_start s) = contains_char c s.
Proof.
  intros Hc. induction s as [|a s IH]; simpl; [done|]. destruct (ascii_whitespace a) eqn:Ha; [|done].
  destruct (Ascii.eqb_spec a c); [congruence|done].
Qed.

Lemma contains_char_trim_end c s :
  ascii_whitespace c = false → contains_char c (ascii_trim_end s) = contains_char c s.
Proof.
  intros Hc. induction s as [|a s IH]; simpl; [done|]. rewrite <- IH.
  destruct (ascii_trim_end s); simpl; [|done]. destruct (ascii_whitespace a) eqn:Ha; [|done].
  destruct (Ascii.eqb_spec a c); [congruence|done].
Qed.

Lemma contains_char_app c s t : contains_char c (s +:+ t) = contains_char c s || contains_char c t.
Proof. induction s as [|a s IH]; simpl; [done|]. by rewrite IH, orb_assoc. Qed.

Lemma split_once_app sep l r :
  contains_char sep l = false → split_once sep (l +:+ String sep r) = Some (l, r).
Proof.
  induction l as [|c l IH]; simpl.
  - by rewrite Ascii.eqb_refl.
  - intros [Hc Hl]%orb_false_iff. rewrite Hc. by rewrite IH.
Qed.

Lemma split_once_sep sep l r :
  contains_char sep l = false → split_once sep (l +:+ String sep "" +:+ r) = Some (l, r).
Proof. apply split_once_app. Qed.

Lemma split_once_Some sep s l r :
  split_once sep s = Some (l, r) → s = l +:+ String sep r ∧ contains_char sep l = false.
Proof.
  revert l. induction s as [|c s IH]; simpl; intros l Hs; [done|].
  destruct (Ascii.eqb_spec c sep) as [->|Hne].
  - by simplify_eq/=.
  - destruct (split_once sep s) as [[l' r']|] eqn:E; simplify_eq/=.
    destruct (IH _ eq_refl) as [-> Hl']. split; [done|].
    rewrite Hl'. by rewrite (proj2 (Ascii.eqb_neq _ _) Hne).
Qed.

(** A separator in the first part leaves one in the rest. *)
Lemma split_once_twice sep l r d t :
  contains_char sep l = true → split_once sep (l +:+ String sep r) = Some (d, t) →
  contains_char sep t = true.
Proof.
  revert d. induction l as [|c l IH]; simpl; intros d Hl Hs; [done|].
  destruct (Ascii.eqb c sep); simpl in Hl.
  - simplify_eq/=. by rewrite contains_char_app; simpl; rewrite Ascii.eqb_refl, orb_true_r.
  - destruct (split_once sep (l +:+ _)) as [[d' t']|]; simplify_eq/=. by eapply IH.
Qed.

Lemma split_once_None sep s : split_once sep s = None ↔ contains_char sep s = false.
Proof.
  induction s as [|c s IH]; simpl; [done|].
  destruct (Ascii.eqb c sep); simpl; [done|].
  rewrite <-IH. destruct (split_once sep s) as [[l r]|]; [|done].
  split; intros Hn; discriminate Hn.
Qed.

Section unicode_facts.
Context `{UnicodeLaws}.

Lemma to_uppercase_idem s : to_uppercase (to_uppercase s) = to_uppercase s.
Proof.
  unfold to_uppercase at 2 3. destruct (is_ascii s) eqn:E; [|by apply uc_upper_idem].
  unfold to_uppercase. by rewrite is_ascii_map_upper, E, string_map_upper_idem.
Qed.

Lemma trim_idem s : trim (trim s) = trim s.
Proof.
  unfold trim at 2 3. destruct (is_ascii s) eqn:E; [|by apply uc_trim_idem].
  unfold trim. by rewrite is_ascii_ascii_trim, ascii_trim_idem.
Qed.

Lemma trim_to_uppercase s : trim (to_uppercase s) = to_uppercase (trim s).
Proof.
  unfold trim at 2, to_uppercase at 1.
  destruct (is_ascii s) eqn:E; [|by apply uc_trim_upper].
  unfold trim, to_uppercase.
  by rewrite is_ascii_map_upper, E, is_ascii_ascii_trim, ascii_trim_upper.
Qed.

Lemma to_uppercase_hash s : contains_char "#" (to_uppercase s) = contains_char "#" s.
Proof.
  unfold to_uppercase. destruct (is_ascii s) eqn:E;
    [apply contains_char_upper|by apply uc_upper_hash].
Qed.

Lemma trim_hash s : contains_char "#" (trim s) = contains_char "#" s.
Proof.
  unfold trim. destruct (is_ascii s) eqn:E; [|by apply uc_trim_hash].
  unfold ascii_trim. by rewrite contains_char_trim_start, contains_char_trim_end.
Qed.

Lemma trim_head c s :
  is_ascii_char c = true → ascii_whitespace c = false →
  ∃ s', trim (String c s) = String c s'.
Proof.
  intros Hc Hw. unfold trim. destruct (is_ascii (String c s)) eqn:E; [|by apply uc_trim_head].
  exists (ascii_trim_end s). unfold ascii_trim. simpl. rewrite Hw, andb_false_r. simpl.
  by rewrite Hw.
Qed.
End unicode_facts.

(** A concrete reading of the tables, for evaluation: non-ASCII strings are
    left as they are. *)
Definition ascii_only_tables : UnicodeTables :=
  {| uc_upper s := s; uc_trim s := s |}.

Lemma ascii_only_laws : @UnicodeLaws ascii_only_tables.
Proof.
  constructor; unfold to_uppercase, trim; simpl; try (intros s E; rewrite ?E; done).
  intros c s _ _ _. by exists s.
Qed.
