(* ===== verification/Proto.v ===== *)
(** * The generated protobuf types

    [build.rs] generates [Status], [Timestamp] and the three status enums; the
    generated file is not part of the repository.  The records below have the
    fields that the full struct literals of the service name, the enums the
    variants the service and its documentation name.  Enum fields of a message
    are [i32] wire numbers: the numbers of the variants, and what the accessors
    [status.state()] and so on return for a number, are a parameter
    ([ProtoEnums]); [ProtoLaws] is what prost documents about them. *)

From S2P Require Export RustStd.

Module State.
Inductive t := Unknown | Ok | Alarmed | Latched | Acknowledged | Bypassed | Unbypassed.

#[global] Instance eq_dec : EqDecision t.
Proof. solve_decision. Defined.

(** [{:?}] of a variant is its identifier. *)
Definition debug (s : t) : string :=
  match s with
  | Unknown => "Unknown"
  | Ok => "Ok"
  | Alarmed => "Alarmed"
  | Latched => "Latched"
  | Acknowledged => "Acknowledged"
  | Bypassed => "Bypassed"
  | Unbypassed => "Unbypassed"
  end.
End State.

Module Source.
Inductive t := Unknown | Analog | Digital | Epics.

#[global] Instance eq_dec : EqDecision t.
Proof. solve_decision. Defined.

Definition index (s : t) : nat :=
  match s with Unknown => 0 | Analog => 1 | Digital => 2 | Epics => 3 end.
Definition of_index (n : nat) : option t :=
  match n with
  | 0 => Some Unknown | 1 => Some Analog | 2 => Some Digital | 3 => Some Epics
  | _ => None
  end.
#[global] Program Instance countable : Countable t :=
  inj_countable index of_index _.
Next Obligation. by intros []. Qed.

Definition debug (s : t) : string :=
  match s with
  | Unknown => "Unknown"
  | Analog => "Analog"
  | Digital => "Digital"
  | Epics => "Epics"
  end.
End Source.

Module Severity.
Inductive t := Unknown | Low | High.

#[global] Instance eq_dec : EqDecision t.
Proof. solve_decision. Defined.
End Severity.

Record Timestamp := mkTimestamp {
  seconds : Z;  (** [i64] *)
  nanos : Z;    (** [i32] *)
}.

#[export] Instance timestamp_eq_dec : EqDecision Timestamp.
Proof. solve_decision. Defined.

(** [common.alarm.Status]. *)
Record Status := mkStatus {
  device : string;
  severity_raw : Z;
  state_raw : Z;
  source_raw : Z;
  acknowledgeable : bool;
  time : option Timestamp;
  epics_type : string;
  user : string;
  wake : option Timestamp;
}.

#[export] Instance status_eq_dec : EqDecision Status.
Proof. solve_decision. Defined.

(** [Status::default()]: prost's default of every field. *)
Definition status_default : Status :=
  {| device := ""; severity_raw := 0; state_raw := 0; source_raw := 0;
     acknowledgeable := false; time := None; epics_type := ""; user := "";
     wake := None |}.

Class ProtoEnums := {
  state_to_i32 : State.t → Z;
  state_of_i32 : Z → State.t;        (** the accessor: an unknown number gives the default variant *)
  source_to_i32 : Source.t → Z;
  source_of_i32 : Z → Source.t;
  severity_to_i32 : Severity.t → Z;
  severity_of_i32 : Z → Severity.t;
}.

Class ProtoLaws `{ProtoEnums} := {
  state_roundtrip s : state_of_i32 (state_to_i32 s) = s;
  source_roundtrip s : source_of_i32 (source_to_i32 s) = s;
  severity_roundtrip s : severity_of_i32 (severity_to_i32 s) = s;
}.

Create Rewrite HintDb proto.
#[export] Hint Rewrite @state_roundtrip @source_roundtrip @severity_roundtrip
  using typeclasses eauto : proto.

Section accessors.
Context `{ProtoEnums}.

(** The accessor methods [status.state()], [status.source()] and
    [status.severity()]. *)
Definition state (s : Status) : State.t := state_of_i32 (state_raw s).
Definition source_of (s : Status) : Source.t := source_of_i32 (source_raw s).
Definition severity (s : Status) : Severity.t := severity_of_i32 (severity_raw s).
End accessors.

(** A concrete numbering, for evaluation: declaration order from zero. *)
Definition sample_enums : ProtoEnums := {|
  state_to_i32 s :=
    match s with
    | State.Unknown => 0 | State.Ok => 1 | State.Alarmed => 2 | State.Latched => 3
    | State.Acknowledged => 4 | State.Bypassed => 5 | State.Unbypassed => 6
    end%Z;
  state_of_i32 z :=
    match z with
    | 1 => State.Ok | 2 => State.Alarmed | 3 => State.Latched
    | 4 => State.Acknowledged | 5 => State.Bypassed | 6 => State.Unbypassed
    | _ => State.Unknown
    end%Z;
  source_to_i32 s :=
    match s with
    | Source.Unknown => 0 | Source.Analog => 1 | Source.Digital => 2 | Source.Epics => 3
    end%Z;
  source_of_i32 z :=
    match z with
    | 1 => Source.Analog | 2 => Source.Digital | 3 => Source.Epics | _ => Source.Unknown
    end%Z;
  severity_to_i32 s :=
    match s with Severity.Unknown => 0 | Severity.Low => 1 | Severity.High => 2 end%Z;
  severity_of_i32 z :=
    match z with 1 => Severity.Low | 2 => Severity.High | _ => Severity.Unknown end%Z;
|}.

Lemma sample_laws : @ProtoLaws sample_enums.
Proof. by constructor; intros []. Qed.

(** ** JSON

    The generated [Serialize] and [Deserialize] of [Status], as used through
    [serde_json::to_string] and [serde_json::from_str]; the error values are only
    logged. *)
Class StatusJson := {
  json_to_string : Status → option string;
  json_from_str : string → option Status;
}.

(** A struct of strings, numbers and nested structs always serializes, as a JSON
    object, and the object deserializes to the same value. *)
Class StatusJsonLaws `{StatusJson} := {
  json_to_string_total s : is_Some (json_to_string s);
  json_to_string_object s d : json_to_string s = Some d → ∃ rest, d = String "{" rest;
  json_roundtrip s d : json_to_string s = Some d → json_from_str d = Some s;
}.

(** *** A concrete codec, for evaluation: an object holding a binary code. *)

#[export] Program Instance timestamp_countable : Countable Timestamp :=
  inj_countable (λ t, (seconds t, nanos t)) (λ '(s, n), Some (mkTimestamp s n)) _.
Next Obligation. by intros []. Qed.

#[export] Program Instance status_countable : Countable Status :=
  inj_countable
    (λ s, (device s, (severity_raw s, (state_raw s, (source_raw s, (acknowledgeable s,
          (time s, (epics_type s, (user s, wake s)))))))))
    (λ '(d, (sv, (st, (so, (a, (t, (e, (u, w)))))))), Some (mkStatus d sv st so a t e u w)) _.
Next Obligation. by intros []. Qed.

Fixpoint write_bits (p : positive) : string :=
  match p with
  | xH => "}"
  | xO p' => String "0" (write_bits p')
  | xI p' => String "1" (write_bits p')
  end.

Fixpoint read_bits (s : string) : option positive :=
  match s with
  | String "}" EmptyString => Some xH
  | String "0" s' => xO <$> read_bits s'
  | String "1" s' => xI <$> read_bits s'
  | _ => None
  end.

Lemma read_write_bits p : read_bits (write_bits p) = Some p.
Proof. induction p as [p IH|p IH|]; simpl; rewrite ?IH; done. Qed.

Definition sample_json : StatusJson := {|
  json_to_string s := Some (String "{" (write_bits (encode s)));
  json_from_str d :=
    match d with
    | String "{" rest => match read_bits rest with Some p => decode p | None => None end
    | _ => None
    end;
|}.

Lemma sample_json_laws : @StatusJsonLaws sample_json.
Proof.
  constructor.
  - intros s. by eexists.
  - intros s d [= <-]. by eexists.
  - intros s d [= <-]. simpl. by rewrite read_write_bits, decode_encode.
Qed.
