(* ===== verification/Key.v ===== *)
(** * Alarm identity ([model/key.rs])

    A [Key] is a normalised device name and a source.  It is built from a
    status or parsed from ["DEVICE#Source"], and printed in the same form. *)

From S2P Require Export Proto.

Local Open Scope string_scope.

Record Key := mkKey {
  key_device : string;
  key_source : Source.t;
}.

#[export] Instance key_eq_dec : EqDecision Key.
Proof. solve_decision. Defined.

#[export] Program Instance key_countable : Countable Key :=
  inj_countable (λ k, (key_device k, key_source k)) (λ '(d, s), Some (mkKey d s)) _.
Next Obligation. by intros []. Qed.

Section key.
Context `{UnicodeTables} `{ProtoEnums}.

(** [trim().to_uppercase()], the normalisation of a device name. *)
Definition normalize_device (d : string) : string := to_uppercase (trim d).

(** [impl From<&Status> for Key]. *)
Definition key_from_status (status : Status) : Key :=
  {| key_device := normalize_device (device status);
     key_source := source_of status |}.

(** The source part of the text form, matched without regard to case. *)
Definition parse_source (source_str : string) : option Source.t :=
  let s := to_uppercase (trim source_str) in
  if bool_decide (s = "ANALOG") then Some Source.Analog
  else if bool_decide (s = "DIGITAL") then Some Source.Digital
  else if bool_decide (s = "EPICS") then Some Source.Epics
  else None.

(** [impl TryFrom<&str> for Key]. *)
Definition key_try_from (s : string) : result Key string :=
  match split_once "#" s with
  | Some (dev, source_str) =>
      match parse_source source_str with
      | Some src =>
          let dev' := normalize_device dev in
          if string_is_empty dev'
          then Err (s +:+ " is missing a device name.")
          else Ok {| key_device := dev'; key_source := src |}
      | None => Err (s +:+ " does not contain a known alarms source.")
      end
  | None =>
      Err (s +:+ " does not contain the expected '#' delimiter for separating device name from alarm source.")
  end.
End key.

(** [impl Display for Key]. *)
Definition key_display (k : Key) : string :=
  key_device k +:+ "#" +:+ Source.debug (key_source k).

(** What every key the service builds satisfies: its device name is its own
    normal form. *)
Definition key_wf `{UnicodeTables} (k : Key) : Prop :=
  normalize_device (key_device k) = key_device k.

#[export] Instance key_wf_decision `{UnicodeTables} k : Decision (key_wf k).
Proof. unfold key_wf. apply _. Defined.

(** A key that a command or a record can name. *)
Definition nameable `{UnicodeTables} (k : Key) : Prop :=
  key_wf k ∧ key_device k ≠ "" ∧ contains_char "#" (key_device k) = false ∧
  key_source k ≠ Source.Unknown.

#[export] Instance nameable_decision `{UnicodeTables} k : Decision (nameable k).
Proof. unfold nameable. apply _. Defined.

Section key_facts.
Context `{UnicodeLaws} `{ProtoLaws}.

Lemma normalize_device_idem d :
  normalize_device (normalize_device d) = normalize_device d.
Proof.
  unfold normalize_device.
  by rewrite trim_to_uppercase, trim_idem, to_uppercase_idem.
Qed.

Lemma normalize_device_hash d :
  contains_char "#" (normalize_device d) = contains_char "#" d.
Proof. unfold normalize_device. by rewrite to_uppercase_hash, trim_hash. Qed.

Lemma key_from_status_wf status : key_wf (key_from_status status).
Proof. apply normalize_device_idem. Qed.

Lemma key_try_from_Ok s k :
  key_try_from s = Ok k → nameable k.
Proof.
  unfold key_try_from, parse_source, nameable.
  destruct (split_once "#" s) as [[d src]|] eqn:Hs; [|done].
  apply split_once_Some in Hs as [_ Hd]. intros Hk.
  repeat case_match; simplify_eq/=; (split; [apply normalize_device_idem|]);
    (split; [by intros E; rewrite E in *|]); (split; [by rewrite normalize_device_hash|done]).
Qed.

Lemma parse_source_debug src :
  src ≠ Source.Unknown → parse_source (Source.debug src) = Some src.
Proof. by destruct src. Qed.
End key_facts.

#[export] Hint Resolve key_from_status_wf : alarms.

Section key_properties.
Context `{UnicodeLaws} `{ProtoLaws}.

Lemma key_display_try_from k :
  nameable k → key_try_from (key_display k) = Ok k.
Proof.
  intros (Hwf & Hne & Hhash & Hsrc). unfold key_try_from, key_display.
  rewrite split_once_sep by done. rewrite parse_source_debug by done.
  destruct k as [dev src]; unfold key_wf in Hwf; simpl in *. rewrite Hwf.
  by destruct dev.
Qed.

(** No source name contains a ['#']. *)
Lemma parse_source_hash src : contains_char "#" src = true → parse_source src = None.
Proof.
  intros Hsrc. unfold parse_source. rewrite <- trim_hash, <- to_uppercase_hash in Hsrc.
  repeat case_bool_decide; try done;
    match goal with E : to_uppercase _ = _ |- _ => by rewrite E in Hsrc end.
Qed.

(** What a printed key parses to, if anything, is that key: the text of one alarm is
    never taken for another. *)
Lemma key_display_unambiguous k k' :
  key_wf k → key_try_from (key_display k) = Ok k' → k' = k ∧ nameable k.
Proof.
  intros Hwf Hparse. assert (Hname : nameable k).
  { pose proof (key_try_from_Ok _ _ Hparse) as (_ & Hne' & _ & Hsrc').
    unfold key_try_from in Hparse. unfold nameable.
    destruct (contains_char "#" (key_device k)) eqn:Hhash.
    - destruct (split_once "#" (key_display k)) as [[d src]|] eqn:Hs; [|done].
      apply split_once_twice in Hs; [|done]. by rewrite parse_source_hash in Hparse.
    - unfold key_display in Hparse. rewrite split_once_sep in Hparse by done.
      split_and!; [done| | |].
      + intros E. rewrite E in Hparse. by repeat case_match.
      + done.
      + intros E. rewrite E in Hparse. done. }
  split; [|done]. rewrite key_display_try_from in Hparse by done. by simplify_eq.
Qed.

(** C31 Round trip of the alarm identity: a key parsed from any text prints to
    a text that parses back to the same key, so the Kafka message key written
    for an alarm identifies exactly that alarm. *)
Theorem key_parse_print_parse s k :
  key_try_from s = Ok k → key_try_from (key_display k) = Ok k.
Proof. by intros ?%key_try_from_Ok%key_display_try_from. Qed.

(** Parsing the text form: it succeeds exactly on a device part that does
    not normalise to the empty string followed by a ['#'] and one of the three
    source names in any case, and then yields the normalised device and that
    source. *)
Theorem key_try_from_spec s k :
  key_try_from s = Ok k ↔
  ∃ dev src, s = dev +:+ "#" +:+ src ∧ contains_char "#" dev = false ∧
    normalize_device dev = key_device k ∧ key_device k ≠ "" ∧
    normalize_device src = to_uppercase (Source.debug (key_source k)) ∧
    key_source k ≠ Source.Unknown.
Proof.
  unfold key_try_from, parse_source. split.
  - destruct (split_once "#" s) as [[d src]|] eqn:Hs; [|done].
    apply split_once_Some in Hs as [-> Hd]. intros Hk. exists d, src.
    unfold normalize_device in *.
    repeat case_match; simplify_eq/=; repeat split; try done;
      try (by case_bool_decide); by intros E; rewrite E in *.
  - intros (d & src & -> & Hd & Hdev & Hne & Hsrc & Hknown).
    rewrite split_once_sep by done.
    unfold normalize_device at 1 in Hsrc. unfold normalize_device in *.
    rewrite Hsrc. destruct k as [kd ks]; simpl in *. rewrite Hdev.
    destruct ks; [done|..]; by destruct kd.
Qed.

(** The same alarm described by a status and by its text form has one key. *)
Lemma key_from_status_try_from status :
  let k := key_from_status status in
  key_device k ≠ "" → contains_char "#" (device status) = false →
  key_source k ≠ Source.Unknown → key_try_from (key_display k) = Ok k.
Proof.
  intros k Hne Hhash Hsrc.
  apply key_display_try_from. split; [apply key_from_status_wf|]. split; [done|]. split; [|done].
  transitivity (contains_char "#" (device status)); [apply normalize_device_hash|done].
Qed.
End key_properties.

(** ** Witnesses *)

Lemma key_parse_print_parse_witness :
  let key_try_from := @key_try_from ascii_only_tables in
  key_try_from "  m:beam #epICS" = Ok (mkKey "M:BEAM" Source.Epics) ∧
  key_try_from (key_display (mkKey "M:BEAM" Source.Epics)) = Ok (mkKey "M:BEAM" Source.Epics).
Proof.
  assert (H : @key_try_from ascii_only_tables "  m:beam #epICS" = Ok (mkKey "M:BEAM" Source.Epics))
    by by vm_compute.
  split; [exact H|].
  exact (@key_parse_print_parse ascii_only_tables ascii_only_laws _ _ H).
Defined.
