(* ===== verification/Model.v ===== *)
(** * The domain model ([model/errors.rs], [model/publish.rs],
      [model/snooze.rs], [model/user_action.rs], [engine/messages.rs])

    The messages that travel between the tasks and the errors a user sees. *)

From S2P Require Export Key.

Local Open Scope string_scope.

(** ** [model/errors.rs] *)

Record StateTransition := mkStateTransition {
  st_key : Key;
  st_current : State.t;
  st_requested : State.t;
}.

#[export] Instance state_transition_eq_dec : EqDecision StateTransition.
Proof. solve_decision. Defined.

Definition state_transition_display (t : StateTransition) : string :=
  "for " +:+ key_display (st_key t) +:+ " from " +:+ State.debug (st_current t)
    +:+ " into " +:+ State.debug (st_requested t).

Inductive UpdateError :=
| Internal (k : Key)
| StateNotAllowed (t : StateTransition).

#[export] Instance update_error_eq_dec : EqDecision UpdateError.
Proof. solve_decision. Defined.

Definition update_error_display (e : UpdateError) : string :=
  match e with
  | Internal key =>
      "Internal error. The update for " +:+ key_display key +:+ " has not been persisted."
  | StateNotAllowed t =>
      "Invalid state transition " +:+ state_transition_display t +:+ " requested."
  end.

Inductive SymmetricalResult (T : Type) :=
| SymOk (v : T)
| SymErr (v : T).
Arguments SymOk {T} v.
Arguments SymErr {T} v.

#[export] Instance symmetrical_result_eq_dec {T} `{EqDecision T} :
  EqDecision (SymmetricalResult T).
Proof. solve_decision. Defined.

(** [inner_ref] and [into_inner] differ in ownership only. *)
Definition inner_ref {T} (r : SymmetricalResult T) : T :=
  match r with SymErr v => v | SymOk v => v end.

Definition into_inner {T} (r : SymmetricalResult T) : T :=
  match r with SymErr v => v | SymOk v => v end.

Definition sym_map {T U} (r : SymmetricalResult T) (func : T → U) : SymmetricalResult U :=
  match r with SymErr v => SymErr (func v) | SymOk v => SymOk (func v) end.

Definition is_ok {T} (r : SymmetricalResult T) : bool :=
  match r with SymOk _ => true | SymErr _ => false end.

(** ** [model/user_action.rs] *)

Inductive UserAction :=
| Acknowledge
| Activate
| Bypass (wake : option Timestamp).

#[export] Instance user_action_eq_dec : EqDecision UserAction.
Proof. solve_decision. Defined.

Definition as_state (a : UserAction) : State.t :=
  match a with
  | Acknowledge => State.Acknowledged
  | Activate => State.Unbypassed
  | Bypass _ => State.Bypassed
  end.

Definition get_wake (a : UserAction) : option Timestamp :=
  match a with Bypass wake => wake | _ => None end.

(** ** [model/snooze.rs] *)

Record SnoozeInput := mkSnoozeInput {
  si_key : Key;
  si_wake : option Timestamp;
}.

#[export] Instance snooze_input_eq_dec : EqDecision SnoozeInput.
Proof. solve_decision. Defined.

Inductive Snooze :=
| SnoozeSet (key : Key) (wake : Timestamp)
| SnoozeCancel (key : Key).

(** [impl From<SnoozeInput> for Snooze]. *)
Definition snooze_from (value : SnoozeInput) : Snooze :=
  match si_wake value with
  | Some timestamp => SnoozeSet (si_key value) timestamp
  | None => SnoozeCancel (si_key value)
  end.

Inductive SnoozeOutcome :=
| Expired (key : Key)
| InvalidWake (key : Key)
| Accepted (key : Key).

#[export] Instance snooze_outcome_eq_dec : EqDecision SnoozeOutcome.
Proof. solve_decision. Defined.

(** ** [model/publish.rs] *)

Record PublishDetails := mkPublishDetails {
  pd_key : Key;
  pd_status : Status;
}.

#[export] Instance publish_details_eq_dec : EqDecision PublishDetails.
Proof. solve_decision. Defined.

Inductive Publish :=
| PubAutomated (details : PublishDetails)
| PubUser (details : PublishDetails).

#[export] Instance publish_eq_dec : EqDecision Publish.
Proof. solve_decision. Defined.

Definition details_ref (p : Publish) : PublishDetails :=
  match p with PubAutomated details => details | PubUser details => details end.

Definition into_details (p : Publish) : PublishDetails :=
  match p with PubAutomated details => details | PubUser details => details end.

Definition is_user_initiated (p : Publish) : bool :=
  match p with PubUser _ => true | PubAutomated _ => false end.

Record PublishAttempt := mkPublishAttempt {
  request : Publish;
  attempt_count : Z;  (** [u8] *)
}.

#[export] Instance publish_attempt_eq_dec : EqDecision PublishAttempt.
Proof. solve_decision. Defined.

Definition publish_attempt_new (request : Publish) : PublishAttempt :=
  {| request := request; attempt_count := 1 |}.

Definition attempt_details_ref (a : PublishAttempt) : PublishDetails :=
  details_ref (request a).

Definition increment_attempt (a : PublishAttempt) : PublishAttempt :=
  {| request := request a; attempt_count := u8_saturating_add (attempt_count a) 1 |}.

Definition PublishResult : Type := SymmetricalResult Key.

Inductive PublishOutcome :=
| PubBatch (batch : list PublishResult)
| PubSingle (single : PublishResult).

(** ** [engine/messages.rs] *)

(** A [oneshot::Sender] is a capability to answer one waiting request: it is
    identified by a number, and using it is an effect of the handler. *)
Definition Confirmation : Type := nat.
Definition SnapshotSender : Type := nat.

Definition AlarmsSnapshot : Type := list Status.

Inductive DomainInput :=
| SnapshotRequest (sender : SnapshotSender)
| AutomatedUpdate (status : Status)
| UserUpdate (key : Key) (action : UserAction) (user : string) (confirmation : Confirmation).
