(* ===== verification/Policy.v ===== *)
(** * Transition policy ([engine/policy.rs])

    Which automated updates are published and which user actions are allowed. *)

From S2P Require Export Model.

(** [transition_allowed]: automated transitions meaningful enough to publish. *)
Definition transition_allowed (prev next : State.t) : bool :=
  match prev, next with
  | State.Ok, State.Alarmed
  | State.Alarmed, State.Latched
  | State.Alarmed, State.Ok
  | State.Acknowledged, State.Ok
  | State.Acknowledged, State.Alarmed
  | State.Bypassed, _
  | State.Unknown, _ => true
  | _, _ => false
  end.

(** [user_action_allowed]. *)
Definition user_action_allowed (latest_state : State.t) (latest_wake : option Timestamp)
    (action : UserAction) : bool :=
  match action with
  | Acknowledge =>
      match latest_state with State.Alarmed | State.Latched => true | _ => false end
  | Activate => bool_decide (latest_state = State.Bypassed)
  | Bypass user_wake =>
      bool_decide (latest_state ≠ State.Bypassed) || bool_decide (latest_wake ≠ user_wake)
  end.

Section policy.
Context `{ProtoEnums}.

(** [is_bypassed]. *)
Definition is_bypassed (prev : option Status) : bool :=
  match prev with
  | Some prev_status => bool_decide (state prev_status = State.Bypassed)
  | None => false
  end.

(** [should_publish]; the [key] is used for logging only. *)
Definition should_publish (prev : option Status) (key : Key) (alarm : Status) : bool :=
  let next_state := state alarm in
  if is_bypassed prev && bool_decide (source_of alarm = Source.Epics)
       && bool_decide (next_state ≠ State.Unbypassed)
  then false
  else
    let next_severity := severity alarm in
    match prev with
    | None => true
    | Some prev_status =>
        transition_allowed (state prev_status) next_state
        || bool_decide (severity prev_status ≠ next_severity)
    end.
End policy.

(** ** Properties *)

Lemma transition_allowed_spec prev next :
  transition_allowed prev next = true ↔
  prev = State.Unknown ∨ prev = State.Bypassed ∨
  (prev, next) ∈
    [(State.Ok, State.Alarmed); (State.Alarmed, State.Latched); (State.Alarmed, State.Ok);
     (State.Acknowledged, State.Ok); (State.Acknowledged, State.Alarmed)].
Proof.
  rewrite !elem_of_cons, elem_of_nil.
  destruct prev, next; simpl; (split; [by auto 10|intuition congruence]).
Qed.

Section policy_properties.
Context `{ProtoEnums}.

Lemma should_publish_Some p key alarm :
  should_publish (Some p) key alarm =
  negb (bool_decide (state p = State.Bypassed) && bool_decide (source_of alarm = Source.Epics)
          && bool_decide (state alarm ≠ State.Unbypassed)) &&
  (transition_allowed (state p) (state alarm) ||
     bool_decide (severity p ≠ severity alarm)).
Proof. unfold should_publish, is_bypassed. by destruct (_ && _ && _). Qed.

(** Suppression while bypassed: an automated EPICS update for an alarm whose
    latest state is [Bypassed] is published exactly when it is the synthesised
    [Unbypassed] wake-up. *)
Theorem bypassed_epics_only_unbypassed prev key alarm :
  state prev = State.Bypassed → source_of alarm = Source.Epics →
  should_publish (Some prev) key alarm = bool_decide (state alarm = State.Unbypassed).
Proof.
  intros Hp Hs. unfold should_publish, is_bypassed. rewrite Hp, Hs.
  repeat case_bool_decide; try done; by destruct (state alarm).
Qed.

(** C33 Complete specification of the automated policy: an update is published
    iff the EPICS bypass rule does not suppress it and the alarm is new, or the
    state pair is one of the listed transitions, or the severity changed. *)
Theorem should_publish_spec prev key alarm :
  should_publish prev key alarm = true ↔
  ¬ (∃ p, prev = Some p ∧ state p = State.Bypassed ∧ source_of alarm = Source.Epics ∧
          state alarm ≠ State.Unbypassed) ∧
  (∀ p, prev = Some p →
     state p = State.Unknown ∨ state p = State.Bypassed ∨
     (state p, state alarm) ∈
       [(State.Ok, State.Alarmed); (State.Alarmed, State.Latched); (State.Alarmed, State.Ok);
        (State.Acknowledged, State.Ok); (State.Acknowledged, State.Alarmed)] ∨
     severity p ≠ severity alarm).
Proof.
  destruct prev as [p|]; [|split; [intros _; split; [intros (p & ? & _)|]|]; done].
  rewrite should_publish_Some, andb_true_iff, orb_true_iff, transition_allowed_spec.
  rewrite negb_true_iff, <-not_true_iff_false, !andb_true_iff, !bool_decide_eq_true.
  split.
  - intros [Hn Ht]. split; [intros (? & [= <-] & ?); tauto|intros ? [= <-]; tauto].
  - intros [Hn Ht]. specialize (Ht p eq_refl).
    split; [intros ([? ?] & ?); apply Hn; by exists p|tauto].
Qed.

(** Repeating the state and severity that is already the latest is not
    published, except from a state that any automated update leaves. *)
Lemma duplicate_suppressed prev key alarm :
  state alarm = state prev → severity alarm = severity prev →
  state prev ≠ State.Bypassed → state prev ≠ State.Unknown →
  should_publish (Some prev) key alarm = false.
Proof.
  intros Hs Hv Hb Hu. rewrite should_publish_Some, Hs, Hv.
  by repeat case_bool_decide; destruct (state prev).
Qed.
End policy_properties.

(** A user action is never allowed twice in a row: once the state an action
    asks for, with the wake time it asks for, is the latest known state, the same
    action is rejected. *)
Theorem user_action_not_repeatable action :
  user_action_allowed (as_state action) (get_wake action) action = false.
Proof. destruct action; simpl; [done|done|]. by repeat case_bool_decide. Qed.

(** Complete specification of the user policy, action by action. *)
Theorem user_action_allowed_spec latest_state latest_wake action :
  user_action_allowed latest_state latest_wake action = true ↔
  match action with
  | Acknowledge => latest_state = State.Alarmed ∨ latest_state = State.Latched
  | Activate => latest_state = State.Bypassed
  | Bypass w => latest_state = State.Bypassed → latest_wake ≠ w
  end.
Proof.
  destruct action; simpl.
  - destruct latest_state; intuition congruence.
  - by rewrite bool_decide_eq_true.
  - rewrite orb_true_iff, !bool_decide_eq_true.
    destruct (decide (latest_state = State.Bypassed)); tauto.
Qed.

(** ** Witnesses *)

Definition sample_status (dev : string) (src : Source.t) (st : State.t) (sev : Severity.t) : Status :=
  {| device := dev; severity_raw := @severity_to_i32 sample_enums sev;
     state_raw := @state_to_i32 sample_enums st; source_raw := @source_to_i32 sample_enums src;
     acknowledgeable := false; time := Some (mkTimestamp 0 0); epics_type := ""; user := "";
     wake := None |}.

Lemma bypassed_epics_only_unbypassed_witness :
  let prev := sample_status "M:BEAM" Source.Epics State.Bypassed Severity.Unknown in
  let alarm := sample_status "M:BEAM" Source.Epics State.Alarmed Severity.High in
  @should_publish sample_enums (Some prev) (mkKey "M:BEAM" Source.Epics) alarm = false.
Proof.
  intros prev alarm.
  rewrite (@bypassed_epics_only_unbypassed sample_enums prev (mkKey "M:BEAM" Source.Epics) alarm).
  - by vm_compute.
  - by vm_compute.
  - by vm_compute.
Defined.
