(* ===== verification/Metrics.v ===== *)
(** * In-process metrics ([metrics.rs])

    The atomics of [MetricsInner] are indexed by the name of the field, the
    histograms by theirs.  Every [record_*] method is a function on this state;
    the tasks emit [MetricCall]s in the order in which they call the methods,
    and [run_metric_call] interprets them. *)

From S2P Require Export RustStd.
From Stdlib Require Import Sorted.
From stdpp Require Import functions list.

Local Open Scope Z_scope.

(** ** Configuration ([runtime.rs]) *)

Record QueueCapacityConfig := mkQueueCapacityConfig {
  cfg_automated : Z;
  cfg_user : Z;
  cfg_job : Z;
  cfg_publish : Z;
  cfg_snooze : Z;
}.

Record QueueCapacityMetrics := mkQueueCapacityMetrics {
  cap_automated : Z;
  cap_user : Z;
  cap_job : Z;
  cap_publish : Z;
  cap_snooze : Z;
}.

Definition queue_capacity_metrics_from (value : QueueCapacityConfig) : QueueCapacityMetrics :=
  {| cap_automated := cfg_automated value;
     cap_user := cfg_user value;
     cap_job := cfg_job value;
     cap_publish := cfg_publish value;
     cap_snooze := cfg_snooze value |}.

(** ** Histograms *)

Definition CONFIRMATION_LATENCY_BUCKETS_MS : list Z := [10; 50; 100; 250; 500; 1000; 2000].
Definition PUBLISH_LATENCY_BUCKETS_MS : list Z := [5; 10; 25; 50; 100; 250; 500; 1000].
Definition OVERLOAD_DURATION_BUCKETS_MS : list Z := [10; 50; 100; 250; 500; 1000; 5000].

Record Histogram := mkHistogram {
  buckets_ms : list Z;
  counts : list Z;
  overflow : Z;
  samples : Z;
  total_ms : Z;
}.

Definition histogram_new (buckets : list Z) : Histogram :=
  {| buckets_ms := buckets; counts := replicate (length buckets) 0;
     overflow := 0; samples := 0; total_ms := 0 |}.

(** A [Duration] in nanoseconds, as the [u64] of milliseconds that is recorded. *)
Definition duration_millis (duration : Z) : Z := Z.min (duration / 1000000) u64_max.

(** [iter().position(|bucket| millis <= *bucket)]. *)
Fixpoint bucket_position (millis : Z) (buckets : list Z) : option nat :=
  match buckets with
  | [] => None
  | b :: bs => if millis <=? b then Some 0%nat else S <$> bucket_position millis bs
  end.

Definition histogram_observe (duration : Z) (h : Histogram) : Histogram :=
  let millis := duration_millis duration in
  let samples' := u64_wrapping_add (samples h) 1 in
  let total' := u64_saturating_add (total_ms h) millis in
  match bucket_position millis (buckets_ms h) with
  | Some index =>
      {| buckets_ms := buckets_ms h;
         counts := alter (λ c, u64_wrapping_add c 1) index (counts h);
         overflow := overflow h; samples := samples'; total_ms := total' |}
  | None =>
      {| buckets_ms := buckets_ms h; counts := counts h;
         overflow := u64_wrapping_add (overflow h) 1;
         samples := samples'; total_ms := total' |}
  end.

Record HistogramSnapshot := mkHistogramSnapshot {
  hs_buckets_ms : list Z;
  hs_counts : list Z;
  hs_overflow : Z;
  hs_samples : Z;
  hs_total_ms : Z;
}.

Definition histogram_snapshot (h : Histogram) : HistogramSnapshot :=
  {| hs_buckets_ms := buckets_ms h; hs_counts := counts h; hs_overflow := overflow h;
     hs_samples := samples h; hs_total_ms := total_ms h |}.

(** ** The shared state *)

Inductive PublishOutcomeKind := Success | Failure.

(** The [AtomicU64] and [AtomicUsize] fields of [MetricsInner]. *)
Inductive Atomic :=
| overload_entries | overload_exits | automated_queue_full | user_queue_full_rejections
| publish_attempts | publish_retries | publish_failures
| jobs_dispatched | jobs_committed | jobs_failed | snooze_wakes
| snooze_sets | snooze_cancels | snooze_invalid_wakes | snooze_expirations
| retained_automated_keys | in_flight_publish_attempts | in_flight_snooze_timers.

#[export] Instance atomic_eq_dec : EqDecision Atomic.
Proof. solve_decision. Defined.

Record MetricsInner := mkMetricsInner {
  atomics : Atomic → Z;
  queue_configured_capacity : QueueCapacityMetrics;
  confirmation_latency_ms : Histogram;
  publish_latency_ms : Histogram;
  overload_duration_ms : Histogram;
}.

(** [Metrics::new]. *)
Definition metrics_new (queue_config : QueueCapacityConfig) : MetricsInner :=
  {| atomics := λ _, 0;
     queue_configured_capacity := queue_capacity_metrics_from queue_config;
     confirmation_latency_ms := histogram_new CONFIRMATION_LATENCY_BUCKETS_MS;
     publish_latency_ms := histogram_new PUBLISH_LATENCY_BUCKETS_MS;
     overload_duration_ms := histogram_new OVERLOAD_DURATION_BUCKETS_MS |}.

Definition set_atomic (a : Atomic) (v : Z) (m : MetricsInner) : MetricsInner :=
  {| atomics := <[a := v]> (atomics m);
     queue_configured_capacity := queue_configured_capacity m;
     confirmation_latency_ms := confirmation_latency_ms m;
     publish_latency_ms := publish_latency_ms m;
     overload_duration_ms := overload_duration_ms m |}.

(** [fetch_add(1)], [fetch_sub(1)] and [store] on an atomic: 64-bit wrap-around. *)
Definition fetch_add_1 (a : Atomic) (m : MetricsInner) : MetricsInner :=
  set_atomic a (u64_wrapping_add (atomics m a) 1) m.
Definition fetch_sub_1 (a : Atomic) (m : MetricsInner) : MetricsInner :=
  set_atomic a (u64_wrapping_sub (atomics m a) 1) m.
Definition store (a : Atomic) (v : Z) (m : MetricsInner) : MetricsInner := set_atomic a v m.

Definition on_confirmation_latency (f : Histogram → Histogram) (m : MetricsInner) :=
  {| atomics := atomics m;
     queue_configured_capacity := queue_configured_capacity m;
     confirmation_latency_ms := f (confirmation_latency_ms m);
     publish_latency_ms := publish_latency_ms m;
     overload_duration_ms := overload_duration_ms m |}.
Definition on_publish_latency (f : Histogram → Histogram) (m : MetricsInner) :=
  {| atomics := atomics m;
     queue_configured_capacity := queue_configured_capacity m;
     confirmation_latency_ms := confirmation_latency_ms m;
     publish_latency_ms := f (publish_latency_ms m);
     overload_duration_ms := overload_duration_ms m |}.
Definition on_overload_duration (f : Histogram → Histogram) (m : MetricsInner) :=
  {| atomics := atomics m;
     queue_configured_capacity := queue_configured_capacity m;
     confirmation_latency_ms := confirmation_latency_ms m;
     publish_latency_ms := publish_latency_ms m;
     overload_duration_ms := f (overload_duration_ms m) |}.

(** ** The recording methods *)

Definition record_automated_queue_full : MetricsInner → MetricsInner :=
  fetch_add_1 automated_queue_full.

Definition record_user_queue_full_rejection : MetricsInner → MetricsInner :=
  fetch_add_1 user_queue_full_rejections.

Definition record_overload_entry (retained_keys : Z) (m : MetricsInner) : MetricsInner :=
  store retained_automated_keys retained_keys (fetch_add_1 overload_entries m).

Definition record_retained_automated_keys (retained_keys : Z) : MetricsInner → MetricsInner :=
  store retained_automated_keys retained_keys.

Definition record_overload_exit (duration : Z) (m : MetricsInner) : MetricsInner :=
  on_overload_duration (histogram_observe duration)
    (store retained_automated_keys 0 (fetch_add_1 overload_exits m)).

Definition record_publish_attempt_started (m : MetricsInner) : MetricsInner :=
  fetch_add_1 in_flight_publish_attempts (fetch_add_1 publish_attempts m).

Definition record_publish_retry : MetricsInner → MetricsInner := fetch_add_1 publish_retries.

Definition record_publish_completion (kind : PublishOutcomeKind) (latency : Z)
    (m : MetricsInner) : MetricsInner :=
  let m1 := on_publish_latency (histogram_observe latency)
              (fetch_sub_1 in_flight_publish_attempts m) in
  match kind with
  | Success => m1
  | Failure => fetch_add_1 publish_failures m1
  end.

Definition record_confirmation_latency (latency : Z) : MetricsInner → MetricsInner :=
  on_confirmation_latency (histogram_observe latency).

Definition record_job_dispatched : MetricsInner → MetricsInner := fetch_add_1 jobs_dispatched.
Definition record_job_committed : MetricsInner → MetricsInner := fetch_add_1 jobs_committed.
Definition record_job_failed : MetricsInner → MetricsInner := fetch_add_1 jobs_failed.
Definition record_snooze_wake : MetricsInner → MetricsInner := fetch_add_1 snooze_wakes.

Definition record_snooze_set (m : MetricsInner) : MetricsInner :=
  fetch_add_1 in_flight_snooze_timers (fetch_add_1 snooze_sets m).

Definition record_snooze_cancel (m : MetricsInner) : MetricsInner :=
  fetch_sub_1 in_flight_snooze_timers (fetch_add_1 snooze_cancels m).

Definition record_snooze_invalid_wake : MetricsInner → MetricsInner :=
  fetch_add_1 snooze_invalid_wakes.

Definition record_snooze_expiration (m : MetricsInner) : MetricsInner :=
  fetch_sub_1 in_flight_snooze_timers (fetch_add_1 snooze_expirations m).

(** A call of a recording method, as the tasks emit it. *)
Inductive MetricCall :=
| RecAutomatedQueueFull
| RecUserQueueFullRejection
| RecOverloadEntry (retained_keys : Z)
| RecRetainedAutomatedKeys (retained_keys : Z)
| RecOverloadExit (duration : Z)
| RecPublishAttemptStarted
| RecPublishRetry
| RecPublishCompletion (kind : PublishOutcomeKind) (latency : Z)
| RecConfirmationLatency (latency : Z)
| RecJobDispatched
| RecJobCommitted
| RecJobFailed
| RecSnoozeWake
| RecSnoozeSet
| RecSnoozeCancel
| RecSnoozeInvalidWake
| RecSnoozeExpiration.

Definition run_metric_call (m : MetricsInner) (c : MetricCall) : MetricsInner :=
  match c with
  | RecAutomatedQueueFull => record_automated_queue_full m
  | RecUserQueueFullRejection => record_user_queue_full_rejection m
  | RecOverloadEntry n => record_overload_entry n m
  | RecRetainedAutomatedKeys n => record_retained_automated_keys n m
  | RecOverloadExit d => record_overload_exit d m
  | RecPublishAttemptStarted => record_publish_attempt_started m
  | RecPublishRetry => record_publish_retry m
  | RecPublishCompletion k l => record_publish_completion k l m
  | RecConfirmationLatency l => record_confirmation_latency l m
  | RecJobDispatched => record_job_dispatched m
  | RecJobCommitted => record_job_committed m
  | RecJobFailed => record_job_failed m
  | RecSnoozeWake => record_snooze_wake m
  | RecSnoozeSet => record_snooze_set m
  | RecSnoozeCancel => record_snooze_cancel m
  | RecSnoozeInvalidWake => record_snooze_invalid_wake m
  | RecSnoozeExpiration => record_snooze_expiration m
  end.

Definition run_metric_calls (m : MetricsInner) (cs : list MetricCall) : MetricsInner :=
  foldl run_metric_call m cs.

(** ** Snapshots *)

Record MetricsSnapshot := mkMetricsSnapshot {
  ms_overload_entries : Z;
  ms_overload_exits : Z;
  ms_automated_queue_full : Z;
  ms_user_queue_full_rejections : Z;
  ms_publish_attempts : Z;
  ms_publish_retries : Z;
  ms_publish_failures : Z;
  ms_jobs_dispatched : Z;
  ms_jobs_committed : Z;
  ms_jobs_failed : Z;
  ms_snooze_wakes : Z;
  ms_snooze_sets : Z;
  ms_snooze_cancels : Z;
  ms_snooze_invalid_wakes : Z;
  ms_snooze_expirations : Z;
  ms_automated_queue_capacity : Z;
  ms_user_queue_capacity : Z;
  ms_job_queue_capacity : Z;
  ms_publish_queue_capacity : Z;
  ms_snooze_queue_capacity : Z;
  ms_retained_automated_keys : Z;
  ms_in_flight_publish_attempts : Z;
  ms_in_flight_snooze_timers : Z;
  ms_confirmation_latency_ms : HistogramSnapshot;
  ms_publish_latency_ms : HistogramSnapshot;
  ms_overload_duration_ms : HistogramSnapshot;
}.

Definition metrics_snapshot (m : MetricsInner) : MetricsSnapshot :=
  let load a := atomics m a in
  let cap := queue_configured_capacity m in
  {| ms_overload_entries := load overload_entries;
     ms_overload_exits := load overload_exits;
     ms_automated_queue_full := load automated_queue_full;
     ms_user_queue_full_rejections := load user_queue_full_rejections;
     ms_publish_attempts := load publish_attempts;
     ms_publish_retries := load publish_retries;
     ms_publish_failures := load publish_failures;
     ms_jobs_dispatched := load jobs_dispatched;
     ms_jobs_committed := load jobs_committed;
     ms_jobs_failed := load jobs_failed;
     ms_snooze_wakes := load snooze_wakes;
     ms_snooze_sets := load snooze_sets;
     ms_snooze_cancels := load snooze_cancels;
     ms_snooze_invalid_wakes := load snooze_invalid_wakes;
     ms_snooze_expirations := load snooze_expirations;
     ms_automated_queue_capacity := cap_automated cap;
     ms_user_queue_capacity := cap_user cap;
     ms_job_queue_capacity := cap_job cap;
     ms_publish_queue_capacity := cap_publish cap;
     ms_snooze_queue_capacity := cap_snooze cap;
     ms_retained_automated_keys := load retained_automated_keys;
     ms_in_flight_publish_attempts := load in_flight_publish_attempts;
     ms_in_flight_snooze_timers := load in_flight_snooze_timers;
     ms_confirmation_latency_ms := histogram_snapshot (confirmation_latency_ms m);
     ms_publish_latency_ms := histogram_snapshot (publish_latency_ms m);
     ms_overload_duration_ms := histogram_snapshot (overload_duration_ms m) |}.

(** ** Properties *)

Lemma u64_wrapping_add_mod_l a b :
  u64_wrapping_add (a mod u64_modulus) b = (a + b) mod u64_modulus.
Proof. unfold u64_wrapping_add. by rewrite Zplus_mod_idemp_l. Qed.

Lemma u64_wrapping_sub_mod_l a b :
  u64_wrapping_sub (a mod u64_modulus) b = (a - b) mod u64_modulus.
Proof. unfold u64_wrapping_sub. by rewrite Zminus_mod_idemp_l. Qed.

Lemma bucket_position_Some millis buckets i :
  bucket_position millis buckets = Some i ↔
  (∃ b, buckets !! i = Some b ∧ millis <= b) ∧
  (∀ j b, (j < i)%nat → buckets !! j = Some b → b < millis).
Proof.
  revert i. induction buckets as [|b bs IH]; intros i; simpl.
  { split; [done|]. intros [(b & Hb & _) _]. by rewrite lookup_nil in Hb. }
  destruct (Z.leb_spec millis b) as [Hle|Hlt].
  - split.
    + intros [= <-]. split; [by exists b|]. intros; lia.
    + intros [_ Hj]. destruct i as [|i]; [done|]. specialize (Hj 0%nat b). simpl in Hj.
      exfalso. assert (b < millis) by (apply Hj; [lia|done]). lia.
  - destruct i as [|i]; simpl.
    + split; [by destruct (bucket_position millis bs)|].
      intros [(b' & [= <-] & ?) _]. lia.
    + rewrite fmap_Some. setoid_rewrite IH. split.
      * intros (i' & [Hb Hj] & [= <-]). split; [done|].
        intros [|j] b'; simpl; [by intros _ [= <-]|]. intros. apply (Hj j); [lia|done].
      * intros [Hb Hj]. exists i. split; [|done]. split; [done|].
        intros j b' Hji Hb'. apply (Hj (S j)); [lia|done].
Qed.

Lemma bucket_position_lt millis buckets i :
  bucket_position millis buckets = Some i → (i < length buckets)%nat.
Proof. intros [(b & Hb & _) _]%bucket_position_Some. by eapply lookup_lt_Some. Qed.

(** *** What a histogram means

    A duration, in nanoseconds, is within a bound when its whole milliseconds do not
    exceed it; it belongs to the bucket whose bound it is within while it is not within
    the bound before.  A bound holds up to the last nanosecond of its millisecond. *)
Definition within (bound d : Z) : bool := d <? (bound + 1) * 1000000.

Definition belongs (buckets : list Z) (i : nat) (d : Z) : bool :=
  match buckets !! i with
  | Some b =>
      within b d &&
      match i with
      | O => true
      | S j => match buckets !! j with Some b' => negb (within b' d) | None => false end
      end
  | None => false
  end.

(** What is reported after observing [ds], said without the histogram: how many of them
    belong to each bucket and how many are beyond the last bound, modulo the width of the
    counters, and the saturated sum of their whole milliseconds. *)
Definition histogram_reference (buckets : list Z) (ds : list Z) : HistogramSnapshot :=
  {| hs_buckets_ms := buckets;
     hs_counts := (λ i, Z.of_nat (count_by (belongs buckets i) ds) mod u64_modulus)
                    <$> seq 0 (length buckets);
     hs_overflow :=
       Z.of_nat (count_by (λ d, forallb (λ b, negb (within b d)) buckets) ds) mod u64_modulus;
     hs_samples := Z.of_nat (length ds) mod u64_modulus;
     hs_total_ms := Z.min (foldr Z.add 0 ((λ d, d / 1000000) <$> ds)) u64_max |}.

Definition histogram_observe_all (h : Histogram) (ds : list Z) : Histogram :=
  foldr histogram_observe h ds.

(** Bounds as the constants have them: ascending, and below the counters' width. *)
Definition buckets_ok (buckets : list Z) : Prop :=
  StronglySorted Z.lt buckets ∧ Forall (λ b, b < u64_max) buckets.

Lemma within_millis b d : b < u64_max → within b d = (duration_millis d <=? b).
Proof.
  intros Hb. unfold within, duration_millis. apply eq_bool_prop_intro.
  rewrite !Is_true_true, Z.ltb_lt, Z.leb_le. Z.to_euclidean_division_equations. lia.
Qed.

Lemma sorted_lookup buckets i j b b' :
  StronglySorted Z.lt buckets → (i < j)%nat → buckets !! i = Some b → buckets !! j = Some b' → b < b'.
Proof.
  intros Hs. revert i j. induction Hs as [|x l Hs IH Hx]; intros i j Hij Hi Hj; [done|].
  destruct i as [|i], j as [|j]; try lia; cbn in *; [|by apply (IH i j); [lia|..]].
  simplify_eq. rewrite list.Forall_forall in Hx. apply Hx. by eapply list_elem_of_lookup_2.
Qed.

(** The first bound that a duration is within is that of the bucket it belongs to. *)
Lemma bucket_position_belongs buckets i d :
  buckets_ok buckets →
  bucket_position (duration_millis d) buckets = Some i ↔ belongs buckets i d = true.
Proof.
  intros [Hs Hb]. rewrite Forall_lookup in Hb. rewrite bucket_position_Some. unfold belongs.
  destruct (buckets !! i) as [b|] eqn:Hi; [|split; [by intros [(? & ? & _) _]|done]].
  rewrite within_millis by eauto. rewrite andb_true_iff, Z.leb_le. split.
  - intros [(b' & [= <-] & Hle) Hlt]. split; [done|]. destruct i as [|j]; [done|].
    destruct (lookup_lt_is_Some_2 buckets j) as [b' Hj]; [apply lookup_lt_Some in Hi; lia|].
    rewrite Hj, within_millis, negb_true_iff, Z.leb_gt by eauto. apply (Hlt j); [lia|done].
  - intros [Hle Hprev]. split; [by exists b|]. intros j b' Hji Hj.
    destruct i as [|i]; [lia|]. destruct (buckets !! i) as [b''|] eqn:Hi'; [|done].
    rewrite within_millis, negb_true_iff, Z.leb_gt in Hprev by eauto.
    destruct (decide (j = i)) as [->|]; [congruence|].
    pose proof (sorted_lookup _ j i b' b'' Hs). assert (b' < b'') by (auto with lia). lia.
Qed.

Lemma bucket_position_beyond buckets d :
  buckets_ok buckets →
  bucket_position (duration_millis d) buckets = None ↔
  forallb (λ b, negb (within b d)) buckets = true.
Proof.
  intros [_ Hb]. induction Hb as [|b bs Hb _ IH]; cbn; [done|].
  rewrite within_millis by done. destruct (Z.leb_spec (duration_millis d) b); cbn; [done|].
  rewrite <- IH. by destruct (bucket_position _ _).
Qed.

Lemma millis_sum_nonneg ds :
  Forall (λ d, 0 <= d) ds → 0 <= foldr Z.add 0 ((λ d, d / 1000000) <$> ds).
Proof.
  induction 1 as [|x l Hx _ IH]; cbn in *; [done|]. pose proof (Z.div_pos x 1000000). lia.
Qed.

(** A histogram that shows the reference of [ds] shows that of [d :: ds] after [d]. *)
Lemma histogram_reference_cons buckets d ds h :
  buckets_ok buckets → 0 <= d → Forall (λ d, 0 <= d) ds →
  histogram_snapshot h = histogram_reference buckets ds →
  histogram_snapshot (histogram_observe d h) = histogram_reference buckets (d :: ds).
Proof.
  intros Hok Hd Hds. destruct h as [bs cs ov sm tot]. unfold histogram_snapshot at 1. cbn -[histogram_reference].
  unfold histogram_reference at 1. intros [= -> -> -> -> ->].
  set (sum := foldr Z.add 0 ((λ d, d / 1000000) <$> ds)).
  assert (Htotal : u64_saturating_add (Z.min sum u64_max) (duration_millis d) =
                   Z.min (d / 1000000 + sum) u64_max).
  { unfold u64_saturating_add, duration_millis. pose proof (Z.div_pos d 1000000).
    pose proof (millis_sum_nonneg ds Hds). unfold u64_max in *. lia. }
  unfold histogram_observe, histogram_snapshot. cbn -[histogram_reference].
  rewrite Htotal, !u64_wrapping_add_mod_l.
  unfold histogram_reference. cbn -[Z.of_nat]. fold sum.
  rewrite Nat2Z.inj_succ, <- Z.add_1_r.
  pose proof (bucket_position_beyond buckets d Hok) as Hbeyond.
  destruct (bucket_position (duration_millis d) buckets) as [i|] eqn:Hp; cbn -[Z.of_nat].
  - assert (Hno : forallb (λ b, negb (within b d)) buckets = false).
    { destruct (forallb _ _); [|done]. by destruct Hbeyond as [_ Hb]; specialize (Hb eq_refl). }
    rewrite Hno. f_equal. apply list_eq. intros j. rewrite list_lookup_alter, !list_lookup_fmap.
    destruct (decide (j < length buckets)%nat) as [Hj|];
      [|case_decide; subst; by rewrite !lookup_ge_None_2 by (rewrite length_seq; lia)].
    pose proof (bucket_position_belongs buckets j d Hok) as Hpos. rewrite Hp in Hpos.
    case_decide as Hij; [subst j|]; rewrite lookup_seq_lt by done; cbn -[Z.of_nat].
    + rewrite (proj1 Hpos eq_refl), u64_wrapping_add_mod_l. do 2 f_equal. cbn. lia.
    + destruct (belongs buckets j d); [|done]. destruct Hij. by injection (proj2 Hpos eq_refl).
  - rewrite (proj1 Hbeyond eq_refl). f_equal.
    + apply list_fmap_ext. intros j k [-> Hk]%lookup_seq. cbn -[Z.of_nat].
      destruct (belongs buckets j d) eqn:Hbel; [|done].
      apply bucket_position_belongs in Hbel; [congruence|done].
    + f_equal. cbn. lia.
Qed.

(** The bounds of the three histograms. *)
Lemma bucket_constants_ok :
  buckets_ok CONFIRMATION_LATENCY_BUCKETS_MS ∧ buckets_ok PUBLISH_LATENCY_BUCKETS_MS ∧
  buckets_ok OVERLOAD_DURATION_BUCKETS_MS.
Proof. split_and!; split; repeat constructor. Qed.

(** C35 The snapshot of a histogram is the reference: after any sequence of durations,
    each count is the number of durations, in nanoseconds, above the bound before (a
    bound of [b] milliseconds holds up to the last nanosecond before [b + 1]) and within
    the bucket's own, overflow the number beyond the last bound, samples the number of
    all and the total the sum of their whole milliseconds, counters wrapping and the
    total saturating at 64 bits.  The bounds are to ascend, as in the three constants. *)
Theorem histogram_observe_all_correct buckets ds :
  buckets_ok buckets → Forall (λ d, 0 <= d) ds →
  histogram_snapshot (histogram_observe_all (histogram_new buckets) ds) =
    histogram_reference buckets ds.
Proof.
  intros Hok Hds. induction Hds as [|d ds Hd Hds IH].
  - unfold histogram_reference, histogram_snapshot. cbn. f_equal.
    apply list_eq. intros i. rewrite list_lookup_fmap.
    destruct (decide (i < length buckets)%nat).
    + by rewrite lookup_replicate_2, lookup_seq_lt.
    + by rewrite !lookup_ge_None_2 by (rewrite ?length_seq, ?length_replicate; lia).
  - by apply histogram_reference_cons.
Qed.

Lemma histogram_observe_all_correct_witness :
  histogram_snapshot (histogram_observe_all (histogram_new CONFIRMATION_LATENCY_BUCKETS_MS)
      [10999999; 11000000; 70000000; 9000000000]) =
  {| hs_buckets_ms := CONFIRMATION_LATENCY_BUCKETS_MS; hs_counts := [1; 1; 1; 0; 0; 0; 0];
     hs_overflow := 1; hs_samples := 4; hs_total_ms := 9091 |}.
Proof.
  rewrite (histogram_observe_all_correct CONFIRMATION_LATENCY_BUCKETS_MS).
  - vm_compute. reflexivity.
  - apply bucket_constants_ok.
  - repeat constructor; discriminate.
Defined.

Lemma atomics_set_atomic a v m b :
  atomics (set_atomic a v m) b = if decide (a = b) then v else atomics m b.
Proof. simpl. unfold insert, fn_insert. by repeat case_decide; simplify_eq. Qed.

(** The gauge of live snooze timers against the counters of the same module. *)
Definition snooze_gauge_ok (m : MetricsInner) : Prop :=
  atomics m in_flight_snooze_timers =
  (atomics m snooze_sets - atomics m snooze_cancels - atomics m snooze_expirations)
    mod u64_modulus.

Lemma snooze_gauge_set_atomic a v m :
  a ≠ in_flight_snooze_timers → a ≠ snooze_sets → a ≠ snooze_cancels →
  a ≠ snooze_expirations → snooze_gauge_ok m → snooze_gauge_ok (set_atomic a v m).
Proof.
  intros ???? Hm. unfold snooze_gauge_ok. rewrite !atomics_set_atomic.
  by rewrite !decide_False by done.
Qed.

Lemma run_metric_call_snooze_gauge m c :
  snooze_gauge_ok m → snooze_gauge_ok (run_metric_call m c).
Proof.
  intros Hm. destruct c; try (destruct kind); simpl;
    try (by repeat apply snooze_gauge_set_atomic).
  all: unfold snooze_gauge_ok, record_snooze_set, record_snooze_cancel,
         record_snooze_expiration, fetch_add_1, fetch_sub_1 in *;
    rewrite !atomics_set_atomic; simpl; rewrite Hm;
    unfold u64_wrapping_add, u64_wrapping_sub, u64_modulus;
    Z.to_euclidean_division_equations; lia.
Qed.

(** Whatever the interleaving of the calls of the four tasks, the gauge of
    in-flight snooze timers equals timers set minus timers cancelled minus timers
    expired, modulo the width of the counters. *)
Theorem snooze_gauge_invariant queue_config calls :
  snooze_gauge_ok (run_metric_calls (metrics_new queue_config) calls).
Proof.
  unfold run_metric_calls. assert (H : snooze_gauge_ok (metrics_new queue_config)) by done.
  revert H. generalize (metrics_new queue_config) as m.
  induction calls as [|c calls IH]; intros m Hm; simpl; [done|].
  by apply IH, run_metric_call_snooze_gauge.
Qed.
