(* ===== verification/Workflow.v ===== *)
(** * Workflow handler ([engine/workflow.rs])

    The handler keeps one tracked job per key and drives it through
    [WORKFLOW_ORDER]: first the snooze effect, then the publish effect, then one
    outcome to the coordinator.  A handler run emits [WfOut]s in order; an
    [expect] on a missing job is a panic of the task. *)

From S2P Require Export Model Metrics.


(** ** Data *)

Record Job := mkJob {
  job_id : Z;           (** [u64] *)
  job_key : Key;
  job_status : Status;
  user_initiated : bool;
}.

#[export] Instance job_eq_dec : EqDecision Job.
Proof. solve_decision. Defined.

(** [impl From<&Job> for PublishDetails]. *)
Definition publish_details_from (job : Job) : PublishDetails :=
  {| pd_key := job_key job; pd_status := job_status job |}.

Inductive JobOutcome :=
| Committed (job : Job)
| Failed (job : Job)
| Wake (key : Key).

#[export] Instance job_outcome_eq_dec : EqDecision JobOutcome.
Proof. solve_decision. Defined.

Inductive Effect := EffPublish | EffSnooze.

Definition WORKFLOW_ORDER : list Effect := [EffSnooze; EffPublish].

Record TrackedJob := mkTrackedJob {
  tracked : Job;
  step : nat;
}.

#[export] Instance tracked_job_eq_dec : EqDecision TrackedJob.
Proof. solve_decision. Defined.

Definition tracked_job_from (value : Job) : TrackedJob :=
  {| tracked := value; step := 0 |}.

(** The state of [WorkflowHandler] besides its ports. *)
Record WorkflowHandler := mkWorkflowHandler {
  jobs : gmap Key TrackedJob;
}.

(** What a run sends on the ports and records. *)
Inductive WfOut :=
| WfPublish (publish : Publish)
| WfSnooze (input : SnoozeInput)
| WfOutcome (outcome : JobOutcome)
| WfMetric (call : MetricCall).

(** Which receivers at the other end of the ports are alive. *)
Record WfPorts := mkWfPorts {
  publish_alive : bool;
  snooze_alive : bool;
  coordinator_alive : bool;
}.

Definition all_alive : WfPorts :=
  {| publish_alive := true; snooze_alive := true; coordinator_alive := true |}.

Definition workflow_new : WorkflowHandler := {| jobs := ∅ |}.

(** ** Operations *)

Definition WfM : Type → Type := Eff WorkflowHandler WfOut.

Definition record (c : MetricCall) : Eff WorkflowHandler WfOut unit := emit (WfMetric c).

Definition set_jobs (f : gmap Key TrackedJob → gmap Key TrackedJob) :
    Eff WorkflowHandler WfOut unit :=
  modify (λ w, {| jobs := f (jobs w) |}).

Definition no_job_msg : string := "Every key must have an associated job".

Definition add_work (key : Key) (job : Job) : Eff WorkflowHandler WfOut unit :=
  set_jobs (insert key (tracked_job_from job)).

Definition remove_work (key : Key) : Eff WorkflowHandler WfOut Job :=
  w ← get;
  t ← expect (jobs w !! key) no_job_msg;
  set_jobs (delete key) ;;
  mret (tracked t).

Definition lookup_job (key : Key) : Eff WorkflowHandler WfOut Job :=
  w ← get;
  t ← expect (jobs w !! key) no_job_msg;
  mret (tracked t).

Section workflow.
Context (ports : WfPorts).

(** [let _ = self.coordinator_port.send(outcome).await]. *)
Definition send_outcome (outcome : JobOutcome) : Eff WorkflowHandler WfOut unit :=
  channel_send (coordinator_alive ports) (WfOutcome outcome) ;; mret tt.

Definition send_failed (key : Key) : Eff WorkflowHandler WfOut unit :=
  record RecJobFailed ;;
  job ← remove_work key;
  send_outcome (Failed job).

Definition snooze (key : Key) : Eff WorkflowHandler WfOut (result unit unit) :=
  job ← lookup_job key;
  let snooze_input := {| si_key := key; si_wake := wake (job_status job) |} in
  channel_send (snooze_alive ports) (WfSnooze snooze_input).

Definition publish (key : Key) : Eff WorkflowHandler WfOut (result unit unit) :=
  job ← lookup_job key;
  let details := publish_details_from job in
  let publish := if user_initiated job then PubUser details else PubAutomated details in
  channel_send (publish_alive ports) (WfPublish publish).

Definition dispatch_effect (effect : Effect) (key : Key) :
    Eff WorkflowHandler WfOut (result unit unit) :=
  match effect with
  | EffSnooze => snooze key
  | EffPublish => publish key
  end.

Definition advance_workflow (key : Key) : Eff WorkflowHandler WfOut unit :=
  w ← get;
  t ← expect (jobs w !! key) "All workflow jobs have a step counter";
  let next := step t in
  set_jobs (insert key {| tracked := tracked t; step := S (step t) |}) ;;
  match WORKFLOW_ORDER !! next with
  | Some effect =>
      r ← dispatch_effect effect key;
      match r with
      | Ok _ => mret tt
      | Err _ => send_failed key
      end
  | None => send_failed key
  end.

Definition handle_new_job (job : Job) : Eff WorkflowHandler WfOut unit :=
  record RecJobDispatched ;;
  let key := job_key job in
  add_work key job ;;
  advance_workflow key.

Definition handle_snooze_result (r : SnoozeOutcome) : Eff WorkflowHandler WfOut unit :=
  match r with
  | Accepted key => advance_workflow key
  | Expired key => record RecSnoozeWake ;; send_outcome (Wake key)
  | InvalidWake key => send_failed key
  end.

Definition dispatch_publish_result (r : PublishResult) : Eff WorkflowHandler WfOut unit :=
  let succeeded := is_ok r in
  let key := into_inner r in
  job ← remove_work key;
  outcome ← (if succeeded
             then record RecJobCommitted ;; mret (Committed job)
             else record RecJobFailed ;; mret (Failed job));
  send_outcome outcome.

Definition handle_publish_outcome (o : PublishOutcome) : Eff WorkflowHandler WfOut unit :=
  match o with
  | PubBatch batch => for_each dispatch_publish_result batch
  | PubSingle single => dispatch_publish_result single
  end.

(** What the [select!] loop of [start] can receive. *)
Inductive WfEvent :=
| WePublishOutcome (o : PublishOutcome)
| WeSnoozeOutcome (r : SnoozeOutcome)
| WeNewJob (job : Job).

(** One iteration of the loop. *)
Definition workflow_dispatch (e : WfEvent) : Eff WorkflowHandler WfOut unit :=
  match e with
  | WePublishOutcome o => handle_publish_outcome o
  | WeSnoozeOutcome r => handle_snooze_result r
  | WeNewJob job => handle_new_job job
  end.
End workflow.

(** The receiving ends of the handler and one poll of the [biased] [select!] of
    [start]: publish outcomes first, then snooze outcomes, then new jobs. *)
Record WfInbox := mkWfInbox {
  publish_outcome_rx : chan PublishOutcome;
  snooze_outcome_rx : chan SnoozeOutcome;
  job_rx : chan Job;
}.

Definition workflow_select (i : WfInbox) : poll (WfEvent * WfInbox) :=
  poll_first
    (poll_map (λ '(o, c), (WePublishOutcome o, mkWfInbox c (snooze_outcome_rx i) (job_rx i)))
       (poll_recv (publish_outcome_rx i)))
    (poll_first
       (poll_map (λ '(r, c), (WeSnoozeOutcome r, mkWfInbox (publish_outcome_rx i) c (job_rx i)))
          (poll_recv (snooze_outcome_rx i)))
       (poll_map (λ '(j, c), (WeNewJob j, mkWfInbox (publish_outcome_rx i) (snooze_outcome_rx i) c))
          (poll_recv (job_rx i)))).

(** ** Runs of the operations *)

Section runs.
Context (ports : WfPorts).
Implicit Types w : WorkflowHandler.

Definition outcome_out (o : JobOutcome) : list WfOut :=
  if coordinator_alive ports then [WfOutcome o] else [].

Lemma send_outcome_run o w : send_outcome ports o w = Ret (tt, w, outcome_out o).
Proof. unfold send_outcome, outcome_out. eff_unfold. by destruct (coordinator_alive ports). Qed.

Lemma send_failed_run k t w :
  jobs w !! k = Some t →
  send_failed ports k w =
  Ret (tt, {| jobs := delete k (jobs w) |},
       WfMetric RecJobFailed :: outcome_out (Failed (tracked t))).
Proof.
  intros Hk. unfold send_failed, record, remove_work, set_jobs. eff_unfold.
  rewrite Hk, send_outcome_run. done.
Qed.

Lemma send_failed_panic k w :
  jobs w !! k = None → send_failed ports k w = Panic no_job_msg.
Proof.
  intros Hk. unfold send_failed, record, remove_work, set_jobs. eff_unfold. by rewrite Hk.
Qed.

(** [advance_workflow] from the first step: the snooze command goes out. *)
Lemma advance_first_run k j w :
  jobs w !! k = Some {| tracked := j; step := 0 |} →
  advance_workflow ports k w =
  if snooze_alive ports
  then Ret (tt, {| jobs := <[k := {| tracked := j; step := 1 |}]> (jobs w) |},
            [WfSnooze {| si_key := k; si_wake := wake (job_status j) |}])
  else Ret (tt, {| jobs := delete k (jobs w) |},
            WfMetric RecJobFailed :: outcome_out (Failed j)).
Proof.
  intros Hk. unfold advance_workflow, set_jobs. eff_unfold. rewrite Hk.
  cbn -[send_failed]. unfold snooze, lookup_job. eff_unfold. cbn -[send_failed].
  rewrite lookup_insert_eq. destruct (snooze_alive ports); cbn -[send_failed]; [done|].
  erewrite send_failed_run by apply lookup_insert_eq. cbn.
  by rewrite delete_insert_eq.
Qed.

Definition publish_of (j : Job) : Publish :=
  if user_initiated j then PubUser (publish_details_from j)
  else PubAutomated (publish_details_from j).

(** From the second step: the publish request goes out. *)
Lemma advance_second_run k j w :
  jobs w !! k = Some {| tracked := j; step := 1 |} →
  advance_workflow ports k w =
  if publish_alive ports
  then Ret (tt, {| jobs := <[k := {| tracked := j; step := 2 |}]> (jobs w) |},
            [WfPublish (publish_of j)])
  else Ret (tt, {| jobs := delete k (jobs w) |},
            WfMetric RecJobFailed :: outcome_out (Failed j)).
Proof.
  intros Hk. unfold advance_workflow, set_jobs. eff_unfold. rewrite Hk.
  cbn -[send_failed]. unfold publish, lookup_job. eff_unfold. cbn -[send_failed].
  rewrite lookup_insert_eq. destruct (publish_alive ports); cbn -[send_failed]; [done|].
  erewrite send_failed_run by apply lookup_insert_eq. cbn.
  by rewrite delete_insert_eq.
Qed.

(** Past the last step the job fails ("overran"). *)
Lemma advance_overrun_run k j n w :
  jobs w !! k = Some {| tracked := j; step := S (S n) |} →
  advance_workflow ports k w =
  Ret (tt, {| jobs := delete k (jobs w) |},
       WfMetric RecJobFailed :: outcome_out (Failed j)).
Proof.
  intros Hk. assert (Hn : WORKFLOW_ORDER !! S (S n) = None) by by destruct n.
  unfold advance_workflow, set_jobs. eff_unfold. rewrite Hk. cbn [step tracked]. rewrite Hn.
  erewrite send_failed_run by apply lookup_insert_eq. cbn.
  by rewrite delete_insert_eq.
Qed.

Lemma advance_panic k w :
  jobs w !! k = None →
  advance_workflow ports k w = Panic "All workflow jobs have a step counter".
Proof. intros Hk. unfold advance_workflow. eff_unfold. by rewrite Hk. Qed.

Lemma handle_new_job_run j w :
  handle_new_job ports j w =
  let k := job_key j in
  if snooze_alive ports
  then Ret (tt, {| jobs := <[k := {| tracked := j; step := 1 |}]> (jobs w) |},
            [WfMetric RecJobDispatched;
             WfSnooze {| si_key := k; si_wake := wake (job_status j) |}])
  else Ret (tt, {| jobs := delete k (jobs w) |},
            WfMetric RecJobDispatched :: WfMetric RecJobFailed :: outcome_out (Failed j)).
Proof.
  unfold handle_new_job, record, add_work, set_jobs, tracked_job_from. eff_unfold.
  erewrite advance_first_run by (cbn; apply lookup_insert_eq). cbn zeta.
  destruct (snooze_alive ports); cbn; by rewrite ?insert_insert_eq, ?delete_insert_eq.
Qed.

Definition result_outs (r : PublishResult) (j : Job) : list WfOut :=
  if is_ok r then WfMetric RecJobCommitted :: outcome_out (Committed j)
  else WfMetric RecJobFailed :: outcome_out (Failed j).

Lemma dispatch_publish_result_run r t w :
  jobs w !! into_inner r = Some t →
  dispatch_publish_result ports r w =
  Ret (tt, {| jobs := delete (into_inner r) (jobs w) |}, result_outs r (tracked t)).
Proof.
  intros Hk. unfold dispatch_publish_result, remove_work, set_jobs, record, result_outs.
  eff_unfold. rewrite Hk. by destruct (is_ok r); cbn -[send_outcome]; rewrite send_outcome_run.
Qed.

Lemma dispatch_publish_result_panic r w :
  jobs w !! into_inner r = None →
  dispatch_publish_result ports r w = Panic no_job_msg.
Proof.
  intros Hk. unfold dispatch_publish_result, remove_work. eff_unfold. by rewrite Hk.
Qed.
End runs.

(** ** The per-key protocol

    What the handler promises for one key, as a small automaton. *)

Inductive phase :=
| Idle
| Snoozing (job : Job)
| Publishing (job : Job).

Inductive phase_label :=
| LNewJob (job : Job)
| LAccepted
| LInvalidWake
| LPublished (succeeded : bool).

Inductive phase_message :=
| MsgSnooze (input : SnoozeInput)
| MsgPublish (publish : Publish)
| MsgOutcome (outcome : JobOutcome).

Inductive phase_step : phase → phase_label → phase → phase_message → Prop :=
| ps_new_job p j :
    phase_step p (LNewJob j) (Snoozing j)
      (MsgSnooze {| si_key := job_key j; si_wake := wake (job_status j) |})
| ps_accepted j : phase_step (Snoozing j) LAccepted (Publishing j) (MsgPublish (publish_of j))
| ps_invalid_wake j : phase_step (Snoozing j) LInvalidWake Idle (MsgOutcome (Failed j))
| ps_committed j : phase_step (Publishing j) (LPublished true) Idle (MsgOutcome (Committed j))
| ps_failed j : phase_step (Publishing j) (LPublished false) Idle (MsgOutcome (Failed j)).

Definition phase_of_tracked (t : TrackedJob) : phase :=
  match step t with
  | 0 | 1 => Snoozing (tracked t)
  | _ => Publishing (tracked t)
  end.

(** The phase a handler state represents for a key. *)
Definition phase_of (w : WorkflowHandler) (k : Key) : phase :=
  match jobs w !! k with
  | None => Idle
  | Some t => phase_of_tracked t
  end.

(** Between events every tracked job is waiting for the outcome of its first or
    second effect and is filed under its own key. *)
Definition workflow_ok (w : WorkflowHandler) : Prop :=
  ∀ k t, jobs w !! k = Some t → job_key (tracked t) = k ∧ (step t = 1 ∨ step t = 2).

(** The key an event is about, and its label. *)
Definition event_label (e : WfEvent) : option (Key * phase_label) :=
  match e with
  | WeNewJob j => Some (job_key j, LNewJob j)
  | WeSnoozeOutcome (Accepted k) => Some (k, LAccepted)
  | WeSnoozeOutcome (InvalidWake k) => Some (k, LInvalidWake)
  | WeSnoozeOutcome (Expired _) => None
  | WePublishOutcome (PubSingle r) => Some (into_inner r, LPublished (is_ok r))
  | WePublishOutcome (PubBatch _) => None
  end.

(** The messages of a run, metrics left aside. *)
Definition message_of (o : WfOut) : option phase_message :=
  match o with
  | WfPublish p => Some (MsgPublish p)
  | WfSnooze i => Some (MsgSnooze i)
  | WfOutcome o => Some (MsgOutcome o)
  | WfMetric _ => None
  end.

Lemma workflow_ok_new : workflow_ok workflow_new.
Proof. intros k t Hk. cbn in Hk. by rewrite lookup_empty in Hk. Qed.

Lemma workflow_ok_insert w k j n :
  workflow_ok w → job_key j = k → n = 1 ∨ n = 2 →
  workflow_ok {| jobs := <[k := {| tracked := j; step := n |}]> (jobs w) |}.
Proof.
  intros Hw Hj Hn k' t. cbn. rewrite lookup_insert. case_decide; [|by apply Hw].
  by intros [= <-]; subst.
Qed.

Lemma workflow_ok_delete w k :
  workflow_ok w → workflow_ok {| jobs := delete k (jobs w) |}.
Proof.
  intros Hw k' t. cbn. rewrite lookup_delete. case_decide; [done|]. apply Hw.
Qed.

Lemma phase_of_Snoozing w k j :
  workflow_ok w → phase_of w k = Snoozing j →
  jobs w !! k = Some {| tracked := j; step := 1 |} ∧ job_key j = k.
Proof.
  intros Hw. unfold phase_of, phase_of_tracked.
  destruct (jobs w !! k) as [[j' n]|] eqn:Hk; [|done].
  destruct (Hw _ _ Hk) as [Hkey [Hn|Hn]]; simpl in *; subst; by intros [= <-].
Qed.

Lemma phase_of_Publishing w k j :
  workflow_ok w → phase_of w k = Publishing j →
  jobs w !! k = Some {| tracked := j; step := 2 |} ∧ job_key j = k.
Proof.
  intros Hw. unfold phase_of, phase_of_tracked.
  destruct (jobs w !! k) as [[j' n]|] eqn:Hk; [|done].
  destruct (Hw _ _ Hk) as [Hkey [Hn|Hn]]; simpl in *; subst; by intros [= <-].
Qed.

#[export] Hint Resolve workflow_ok_new workflow_ok_insert workflow_ok_delete : alarms.

(** The result of one event, as the refinement theorem states it. *)
Definition refines_phase (w : WorkflowHandler) (e : WfEvent) (k : Key) (p : phase)
    (m : phase_message) : Prop :=
  ∃ w' outs,
    workflow_dispatch all_alive e w = Ret (tt, w', outs) ∧
    omap message_of outs = [m] ∧ workflow_ok w' ∧ phase_of w' k = p ∧
    (∀ k', k' ≠ k → jobs w' !! k' = jobs w !! k').

Ltac refine_phase w' :=
  eexists w', _; split; [reflexivity|]; split; [reflexivity|];
  split; [auto with alarms|];
  split; [unfold phase_of; cbn; by rewrite ?lookup_insert_eq, ?lookup_delete_eq|];
  intros ? ?; cbn; by rewrite ?lookup_insert_ne, ?lookup_delete_ne.

(** C21 Refinement: with live workers, the handler implements the per-key
    protocol.  For every event that the automaton of its key allows, the run does
    not panic, sends exactly the message of the automaton, moves that key to the
    automaton's next phase and leaves every other key alone. *)
Theorem workflow_refines_phases w e k l p m :
  workflow_ok w → event_label e = Some (k, l) → phase_step (phase_of w k) l p m →
  refines_phase w e k p m.
Proof.
  intros Hw He Hstep. unfold refines_phase. inversion Hstep as [p0 j|j Hp|j Hp|j Hp|j Hp]; subst;
    destruct e as [[b|r]|[]|j']; simplify_eq/=;
    try (symmetry in Hp; first [apply phase_of_Snoozing in Hp as [Hk Hkey]
                               |apply phase_of_Publishing in Hp as [Hk Hkey]]; [|done]).
  - rewrite handle_new_job_run. cbn.
    refine_phase {| jobs := <[job_key j := {| tracked := j; step := 1 |}]> (jobs w) |}.
  - erewrite advance_second_run by done. cbn.
    refine_phase {| jobs := <[k := {| tracked := j; step := 2 |}]> (jobs w) |}.
  - erewrite send_failed_run by done. cbn.
    refine_phase {| jobs := delete k (jobs w) |}.
  - erewrite dispatch_publish_result_run by done. unfold result_outs.
    match goal with H : is_ok r = true |- _ => rewrite H end.
    refine_phase {| jobs := delete (into_inner r) (jobs w) |}.
  - erewrite dispatch_publish_result_run by done. unfold result_outs.
    match goal with H : is_ok r = false |- _ => rewrite H end.
    refine_phase {| jobs := delete (into_inner r) (jobs w) |}.
Qed.

(** ** Batches and panics *)

Definition batch_keys (b : list PublishResult) : list Key := into_inner <$> b.

(** What committing a batch sends, result by result. *)
Definition batch_outs (ports : WfPorts) (w : WorkflowHandler) (b : list PublishResult) :
    list WfOut :=
  b ≫= λ r, match jobs w !! into_inner r with
            | Some t => result_outs ports r (tracked t)
            | None => []
            end.

(** The results of a batch name distinct keys that all have a job. *)
Definition batch_tracked (w : WorkflowHandler) (b : list PublishResult) : Prop :=
  NoDup (batch_keys b) ∧ ∀ k, k ∈ batch_keys b → is_Some (jobs w !! k).

Lemma batch_outs_delete ports w k b :
  k ∉ batch_keys b → batch_outs ports {| jobs := delete k (jobs w) |} b = batch_outs ports w b.
Proof.
  unfold batch_outs, batch_keys. induction b as [|r b IH]; [done|]. rewrite fmap_cons.
  intros [Hne Hk]%not_elem_of_cons. cbn. rewrite lookup_delete_ne by done. f_equal. by apply IH.
Qed.

Lemma batch_outs_cons ports w r b t :
  jobs w !! into_inner r = Some t →
  batch_outs ports w (r :: b) = result_outs ports r (tracked t) ++ batch_outs ports w b.
Proof. intros Ht. unfold batch_outs. rewrite bind_cons. by rewrite Ht. Qed.

Lemma batch_run ports w b :
  batch_tracked w b →
  handle_publish_outcome ports (PubBatch b) w =
  Ret (tt, {| jobs := foldl (λ m k, delete k m) (jobs w) (batch_keys b) |},
       batch_outs ports w b).
Proof.
  cbn. revert w. induction b as [|r b IH]; intros w [Hnd Hin].
  { by destruct w. }
  unfold batch_keys in Hnd, Hin. rewrite fmap_cons in Hnd, Hin.
  apply NoDup_cons in Hnd as [Hr Hnd].
  destruct (Hin (into_inner r)) as [t Ht]; [left|].
  cbn [for_each]. eff_unfold. erewrite dispatch_publish_result_run by done.
  rewrite IH.
  - rewrite batch_outs_delete by done. by erewrite batch_outs_cons.
  - split; [done|]. intros k Hk. cbn. rewrite lookup_delete_ne by (intros E; by subst k).
    apply Hin. by right.
Qed.

Lemma batch_panic ports w b :
  ¬ batch_tracked w b → ∃ msg, handle_publish_outcome ports (PubBatch b) w = Panic msg.
Proof.
  cbn. revert w. induction b as [|r b IH]; intros w Hb.
  { exfalso. apply Hb. split; [constructor|]. by intros k Hk%not_elem_of_nil. }
  cbn [for_each]. eff_unfold. destruct (jobs w !! into_inner r) as [t|] eqn:Ht.
  - erewrite dispatch_publish_result_run by done.
    destruct (IH {| jobs := delete (into_inner r) (jobs w) |}) as [msg ->]; [|by eexists].
    intros [Hnd Hin]. apply Hb. split.
    + constructor; [|done]. intros Hr. destruct (Hin _ Hr) as [t' Ht'].
      cbn in Ht'. by rewrite lookup_delete_eq in Ht'.
    + intros k Hk. unfold batch_keys in Hk. rewrite fmap_cons, elem_of_cons in Hk.
      destruct Hk as [->|Hk]; [by eexists|].
      destruct (Hin _ Hk) as [t' Ht']. cbn in Ht'. apply lookup_delete_Some in Ht' as [_ ?].
      by eexists.
  - rewrite dispatch_publish_result_panic by done. by eexists.
Qed.

#[export] Instance batch_tracked_decision w b : Decision (batch_tracked w b).
Proof.
  apply and_dec; [apply _|].
  refine (cast_if (decide (Forall (λ k, is_Some (jobs w !! k)) (batch_keys b))));
    by rewrite <-Forall_forall.
Defined.

(** Whether an event names only keys the handler has a job for, once each. *)
Definition event_tracked (w : WorkflowHandler) (e : WfEvent) : Prop :=
  match e with
  | WeNewJob _ | WeSnoozeOutcome (Expired _) => True
  | WeSnoozeOutcome (Accepted k) | WeSnoozeOutcome (InvalidWake k) => is_Some (jobs w !! k)
  | WePublishOutcome (PubSingle r) => is_Some (jobs w !! into_inner r)
  | WePublishOutcome (PubBatch b) => batch_tracked w b
  end.

Lemma advance_no_panic ports k w :
  is_Some (jobs w !! k) → ∃ r, advance_workflow ports k w = Ret r.
Proof.
  intros [[j [|[|n]]] Hk].
  - rewrite (advance_first_run _ _ _ _ Hk). destruct (snooze_alive ports); by eexists.
  - rewrite (advance_second_run _ _ _ _ Hk). destruct (publish_alive ports); by eexists.
  - rewrite (advance_overrun_run _ _ _ _ _ Hk). by eexists.
Qed.

(** C30 The task panics exactly when an outcome names a key without a tracked job
    (or a batch names one twice): whatever the state of its peers, every other
    event is handled to completion. *)
Theorem workflow_panics_iff ports e w :
  (∃ msg, workflow_dispatch ports e w = Panic msg) ↔ ¬ event_tracked w e.
Proof.
  assert (Hsplit : ∀ (P : Prop) (m : outcome (unit * WorkflowHandler * list WfOut)),
    Decision P → (P → ∃ r, m = Ret r) → (¬ P → ∃ msg, m = Panic msg) →
    (∃ msg, m = Panic msg) ↔ ¬ P).
  { intros P m Hdec H1 H2. split; [|done]. intros [msg Hm] HP.
    destruct (H1 HP) as [r Hr]. congruence. }
  destruct e as [[b|r]|[k|k|k]|j]; cbn -[handle_publish_outcome handle_snooze_result].
  - apply Hsplit; [apply _| |apply batch_panic].
    intros Hb. rewrite batch_run by done. by eexists.
  - cbn. apply Hsplit; [apply _| |].
    + intros [t Ht]. erewrite dispatch_publish_result_run by done. by eexists.
    + intros Hn%eq_None_not_Some. rewrite dispatch_publish_result_panic by done. by eexists.
  - cbn. apply Hsplit; [apply _| |done]. intros _. unfold record. eff_unfold.
    rewrite send_outcome_run. by eexists.
  - cbn. apply Hsplit; [apply _| |].
    + intros [t Ht]. erewrite send_failed_run by done. by eexists.
    + intros Hn%eq_None_not_Some. rewrite send_failed_panic by done. by eexists.
  - cbn. apply Hsplit; [apply _|apply advance_no_panic|].
    intros Hn%eq_None_not_Some. rewrite advance_panic by done. by eexists.
  - apply Hsplit; [apply _| |done]. intros _. rewrite handle_new_job_run. cbn zeta.
    destruct (snooze_alive ports); by eexists.
Qed.

(** A batch of publish results is settled result by result: every named job
    is removed and reported to the coordinator in batch order, as committed or
    failed according to its result, and no other job is touched. *)
Theorem handle_batch_spec ports w b :
  batch_tracked w b →
  ∃ w', handle_publish_outcome ports (PubBatch b) w = Ret (tt, w', batch_outs ports w b) ∧
    ∀ k, jobs w' !! k = if decide (k ∈ batch_keys b) then None else jobs w !! k.
Proof.
  intros Hb. eexists. split; [by apply batch_run|]. intros k. cbn.
  generalize (jobs w) as m. induction (batch_keys b) as [|k' ks IH]; intros m; cbn; [done|].
  rewrite IH. repeat case_decide; rewrite ?elem_of_cons in *; try tauto.
  - destruct (decide (k = k')) as [->|]; [apply lookup_delete_eq|tauto].
  - apply lookup_delete_ne. naive_solver.
Qed.

(** Priority of the handler's loop: a new job is taken only when no publish
    outcome and no snooze outcome is waiting, a snooze outcome only when no
    publish outcome is, and the loop stops exactly when all three channels are
    closed and drained. *)
Theorem workflow_select_priority i :
  (∀ j i', workflow_select i = Ready (WeNewJob j, i') →
     buffer (publish_outcome_rx i) = [] ∧ buffer (snooze_outcome_rx i) = []) ∧
  (∀ r i', workflow_select i = Ready (WeSnoozeOutcome r, i') →
     buffer (publish_outcome_rx i) = []) ∧
  (workflow_select i = Disabled ↔
     publish_outcome_rx i = mkChan [] false ∧ snooze_outcome_rx i = mkChan [] false ∧
     job_rx i = mkChan [] false).
Proof.
  destruct i as [[[|o p] pa] [[|r s] sa] [[|j q] qa]]; destruct pa, sa, qa;
    cbn; intuition congruence.
Qed.

(** ** Witnesses *)

Definition sample_key : Key := mkKey "M:BEAM" Source.Epics.

Definition sample_job : Job :=
  {| job_id := 1; job_key := sample_key; job_status := status_default; user_initiated := true |}.

Definition sample_handler (n : nat) : WorkflowHandler :=
  {| jobs := {[ sample_key := {| tracked := sample_job; step := n |} ]} |}.

Lemma workflow_refines_phases_witness :
  refines_phase (sample_handler 1) (WeSnoozeOutcome (Accepted sample_key)) sample_key
    (Publishing sample_job) (MsgPublish (publish_of sample_job)).
Proof.
  apply (workflow_refines_phases (sample_handler 1) (WeSnoozeOutcome (Accepted sample_key))
           sample_key LAccepted).
  - intros k t Hk. cbn in Hk. apply lookup_singleton_Some in Hk as [<- <-]. split; [done|by left].
  - done.
  - vm_compute. constructor.
Defined.

Lemma handle_batch_spec_witness :
  ∃ w', handle_publish_outcome all_alive (PubBatch [SymOk sample_key]) (sample_handler 2) =
        Ret (tt, w', [WfMetric RecJobCommitted; WfOutcome (Committed sample_job)]) ∧
        jobs w' !! sample_key = None.
Proof.
  destruct (handle_batch_spec all_alive (sample_handler 2) [SymOk sample_key]) as (w' & Hr & Hk).
  - split.
    + apply NoDup_singleton.
    + intros k ->%list_elem_of_singleton. by eexists.
  - exists w'. split; [exact Hr|]. rewrite Hk. by vm_compute.
Defined.
