(* ===== verification/Coordinator.v ===== *)
(** * Alarm-state coordinator ([engine/coordinator.rs])

    The single writer of domain state.  Handlers read and write
    [AlarmStateCoordinator] and emit [CoOut]s: jobs to the workflow handler and
    answers on one-shot channels.  [job_rx_alive] says whether the workflow
    handler still holds its end of the job channel; [now] is the wall-clock
    second that [Utc::now().timestamp()] returns during the call. *)

From S2P Require Export Policy Workflow.

(** ** Data *)

(** [AlarmsCache] of [engine/messages.rs]. *)
Abbreviation AlarmsCache := (gmap Key (Status * Z)).

Record AlarmStateCoordinator := mkCoordinator {
  confirmed_state : AlarmsCache;
  speculative_state : AlarmsCache;
  pending_confirmations : gmap Z Confirmation;
  id_counter : Z;  (** [u64] *)
}.

Definition DEFAULT_HYDRATED_ID : Z := 0.
Definition INITIAL_PUBLISH_ID : Z := 1.
Definition WORKFLOW_HANDLER_STOPPED : string := "Workflow handler stopped running!".

Inductive CoOut :=
| CoJob (job : Job)
| CoConfirm (confirmation : Confirmation) (r : result unit UpdateError)
| CoSnapshot (sender : SnapshotSender) (snapshot : AlarmsSnapshot).

(** [AlarmStateCoordinator::new]. *)
Definition coordinator_new (hydrated_statuses : gmap Key Status) : AlarmStateCoordinator :=
  {| confirmed_state := (λ status, (status, DEFAULT_HYDRATED_ID)) <$> hydrated_statuses;
     speculative_state := ∅;
     pending_confirmations := ∅;
     id_counter := INITIAL_PUBLISH_ID |}.

Definition set_confirmed (f : AlarmsCache → AlarmsCache) (c : AlarmStateCoordinator) :=
  {| confirmed_state := f (confirmed_state c); speculative_state := speculative_state c;
     pending_confirmations := pending_confirmations c; id_counter := id_counter c |}.
Definition set_speculative (f : AlarmsCache → AlarmsCache) (c : AlarmStateCoordinator) :=
  {| confirmed_state := confirmed_state c; speculative_state := f (speculative_state c);
     pending_confirmations := pending_confirmations c; id_counter := id_counter c |}.
Definition set_pending (f : gmap Z Confirmation → gmap Z Confirmation)
    (c : AlarmStateCoordinator) :=
  {| confirmed_state := confirmed_state c; speculative_state := speculative_state c;
     pending_confirmations := f (pending_confirmations c); id_counter := id_counter c |}.
Definition set_id_counter (f : Z → Z) (c : AlarmStateCoordinator) :=
  {| confirmed_state := confirmed_state c; speculative_state := speculative_state c;
     pending_confirmations := pending_confirmations c; id_counter := f (id_counter c) |}.

(** ** Operations *)

(** [get_latest_status]: speculative state shadows confirmed state. *)
Definition get_latest_status (c : AlarmStateCoordinator) (key : Key) : option Status :=
  let entry :=
    match speculative_state c !! key with
    | Some e => Some e
    | None => confirmed_state c !! key
    end in
  match entry with Some (status, _) => Some status | None => None end.

(** [get_next_id]; [+= 1] wraps in the release profile. *)
Definition get_next_id : Eff AlarmStateCoordinator CoOut Z :=
  c ← get;
  modify (set_id_counter (λ n, u64_wrapping_add n 1)) ;;
  mret (id_counter c).

Section coordinator.
Context `{UnicodeTables} `{ProtoEnums}.
Context (job_rx_alive : bool).

(** [build_user_status]. *)
Definition build_user_status (now : Z) (key : Key) (action : UserAction) (user : string) :
    Status :=
  {| device := key_device key;
     severity_raw := severity_raw status_default;
     state_raw := state_to_i32 (as_state action);
     source_raw := source_to_i32 (key_source key);
     acknowledgeable := acknowledgeable status_default;
     time := Some {| seconds := now; nanos := 0 |};
     epics_type := epics_type status_default;
     user := user;
     wake := get_wake action |}.

(** Whether [handle_snapshot] shows a confirmed status. *)
Definition in_snapshot (status : Status) : bool :=
  match state status with State.Ok | State.Unbypassed => false | _ => true end.

(** [handle_snapshot].  The order of [HashMap::values] is unspecified; the model
    fixes one, and no theorem depends on it. *)
Definition handle_snapshot (sender : SnapshotSender) : Eff AlarmStateCoordinator CoOut (result unit string) :=
  c ← get;
  let snapshot :=
    omap (λ e, let status := fst (snd e) in if in_snapshot status then Some status else None)
      (map_to_list (confirmed_state c)) in
  emit (CoSnapshot sender snapshot) ;;
  mret (Ok tt).

(** [send_next_for]. *)
Definition send_next_for (key : Key) : Eff AlarmStateCoordinator CoOut (result unit string) :=
  c ← get;
  match speculative_state c !! key with
  | Some (status, id) =>
      r ← channel_send job_rx_alive
            (CoJob {| job_id := id; job_key := key; job_status := status;
                      user_initiated := bool_decide (is_Some (pending_confirmations c !! id)) |});
      match r with
      | Ok _ => mret (Ok tt)
      | Err _ => mret (Err WORKFLOW_HANDLER_STOPPED)
      end
  | None => mret (Ok tt)
  end.

(** Inserts into [speculative_state] and returns the previous entry. *)
Definition insert_speculative (key : Key) (entry : Status * Z) : Eff AlarmStateCoordinator CoOut (option (Status * Z)) :=
  c ← get;
  modify (set_speculative (insert key entry)) ;;
  mret (speculative_state c !! key).

(** [handle_automated_update]. *)
Definition handle_automated_update (status : Status) : Eff AlarmStateCoordinator CoOut (result unit string) :=
  let key := key_from_status status in
  c ← get;
  let prev := get_latest_status c key in
  if should_publish prev key status
  then
    id ← get_next_id;
    in_flight ← insert_speculative key (status, id);
    match in_flight with
    | None => _ ?← send_next_for key; mret (Ok tt)
    | Some _ => mret (Ok tt)
    end
  else mret (Ok tt).

(** [handle_user_update]. *)
Definition handle_user_update (now : Z) (key : Key) (action : UserAction) (user : string)
    (confirmation : Confirmation) : Eff AlarmStateCoordinator CoOut (result unit string) :=
  c ← get;
  let latest_status := get_latest_status c key in
  let latest_state := default State.Unknown (state <$> latest_status) in
  let latest_wake := latest_status ≫= wake in
  if user_action_allowed latest_state latest_wake action
  then
    let updated_status := build_user_status now key action user in
    id ← get_next_id;
    modify (set_pending (insert id confirmation)) ;;
    in_flight ← insert_speculative key (updated_status, id);
    match in_flight with
    | None => _ ?← send_next_for key; mret (Ok tt)
    | Some _ => mret (Ok tt)
    end
  else
    emit (CoConfirm confirmation
            (Err (StateNotAllowed {| st_key := key; st_current := latest_state;
                                     st_requested := as_state action |}))) ;;
    mret (Ok tt).

(** [handle_message]. *)
Definition handle_message (now : Z) (message : DomainInput) : Eff AlarmStateCoordinator CoOut (result unit string) :=
  match message with
  | SnapshotRequest sender => handle_snapshot sender
  | AutomatedUpdate status => handle_automated_update status
  | UserUpdate key action user confirmation =>
      handle_user_update now key action user confirmation
  end.

(** [speculative_state.iter().find_map(..)]: a key whose entry carries [id]. *)
Definition speculative_key_of (spec : AlarmsCache) (id : Z) : option Key :=
  match list_find (λ e : Key * (Status * Z), snd (snd e) = id) (map_to_list spec) with
  | Some (_, (key, _)) => Some key
  | None => None
  end.

(** [fail_all_confirmations]; [drain()] empties the map. *)
Definition fail_all_confirmations : Eff AlarmStateCoordinator CoOut unit :=
  c ← get;
  modify (set_pending (λ _, ∅)) ;;
  for_each
    (λ e : Z * Confirmation,
       match speculative_key_of (speculative_state c) (fst e) with
       | Some key => emit (CoConfirm (snd e) (Err (Internal key)))
       | None => mret tt
       end)
    (map_to_list (pending_confirmations c)).

(** [dispatch_automated_wake]. *)
Definition wake_status (now : Z) (key : Key) : Status :=
  {| device := key_device key;
     severity_raw := severity_raw status_default;
     state_raw := state_to_i32 State.Unbypassed;
     source_raw := source_to_i32 (key_source key);
     acknowledgeable := acknowledgeable status_default;
     time := Some {| seconds := now; nanos := 0 |};
     epics_type := epics_type status_default;
     user := user status_default;
     wake := wake status_default |}.

Definition dispatch_automated_wake (now : Z) (key : Key) :
    Eff AlarmStateCoordinator CoOut (result unit string) :=
  handle_automated_update (wake_status now key).

(** The status used when a failed job has no confirmed predecessor. *)
Definition unconfirmed_status (key : Key) : Status :=
  {| device := key_device key;
     severity_raw := severity_raw status_default;
     state_raw := state_raw status_default;
     source_raw := source_to_i32 (key_source key);
     acknowledgeable := acknowledgeable status_default;
     time := time status_default;
     epics_type := epics_type status_default;
     user := user status_default;
     wake := wake status_default |}.

(** [converge_to_last_confirmed]. *)
Definition converge_to_last_confirmed (key : Key) : Eff AlarmStateCoordinator CoOut unit :=
  c ← get;
  let confirmed_entry :=
    default (unconfirmed_status key, DEFAULT_HYDRATED_ID) (confirmed_state c !! key) in
  modify (set_speculative (insert key confirmed_entry)).

(** Takes the confirmation of a job out of [pending_confirmations] and answers it. *)
Definition resolve_confirmation (id : Z) (r : result unit UpdateError) :
    Eff AlarmStateCoordinator CoOut unit :=
  c ← get;
  modify (set_pending (delete id)) ;;
  match pending_confirmations c !! id with
  | Some confirmation => emit (CoConfirm confirmation r)
  | None => mret tt
  end.

(** [reconcile_failure]. *)
Definition reconcile_failure (job : Job) :
    Eff AlarmStateCoordinator CoOut (result unit string) :=
  let key := job_key job in
  resolve_confirmation (job_id job) (Err (Internal key)) ;;
  c ← get;
  match speculative_state c !! key with
  | None => mret (Err "Lost state for job")
  | Some (_, spec_id) =>
      (if bool_decide (spec_id = job_id job) && user_initiated job
       then converge_to_last_confirmed key
       else mret tt) ;;
      send_next_for key
  end.

(** [reconcile_success]. *)
Definition reconcile_success (success : Job) :
    Eff AlarmStateCoordinator CoOut (result unit string) :=
  let key := job_key success in
  resolve_confirmation (job_id success) (Ok tt) ;;
  c ← get;
  _ ?← (match speculative_state c !! key with
        | Some (_, spec_id) =>
            if bool_decide (spec_id = job_id success)
            then modify (set_speculative (delete key)) ;; mret (Ok tt)
            else send_next_for key
        | None => mret (Ok tt)
        end);
  modify (set_confirmed (insert key (job_status success, job_id success))) ;;
  mret (Ok tt).

(** [reconcile_job_outcome]. *)
Definition reconcile_job_outcome (now : Z) (o : JobOutcome) :
    Eff AlarmStateCoordinator CoOut (result unit string) :=
  match o with
  | Committed job => reconcile_success job
  | Failed job => reconcile_failure job
  | Wake key => dispatch_automated_wake now key
  end.

(** What one iteration of the [start] loop receives. *)
Inductive CoEvent :=
| CeOutcome (o : JobOutcome)
| CeUser (message : DomainInput)
| CeAutomated (message : DomainInput)
| CeAllClosed.

(** One iteration of the loop: [true] means that the loop goes on; on an error
    the pending confirmations are failed and the task ends. *)
Definition coordinator_handle (now : Z) (e : CoEvent) :
    Eff AlarmStateCoordinator CoOut (result unit string) :=
  match e with
  | CeOutcome o => reconcile_job_outcome now o
  | CeUser message => handle_message now message
  | CeAutomated message => handle_message now message
  | CeAllClosed => mret (Err "All channels dropped")
  end.

Definition coordinator_iteration (now : Z) (e : CoEvent) :
    Eff AlarmStateCoordinator CoOut bool :=
  r ← coordinator_handle now e;
  match r with
  | Ok _ => mret true
  | Err _ => fail_all_confirmations ;; mret false
  end.
End coordinator.

(** The receiving ends of the coordinator and one poll of the [biased]
    [select!] of [start]. *)
Record CoInbox := mkCoInbox {
  job_outcome_rx : chan JobOutcome;
  user_rx : chan DomainInput;
  automated_rx : chan DomainInput;
}.

Definition coordinator_select (i : CoInbox) : poll (CoEvent * CoInbox) :=
  let branches :=
    poll_first
      (poll_map (λ '(o, c), (CeOutcome o, mkCoInbox c (user_rx i) (automated_rx i)))
         (poll_recv (job_outcome_rx i)))
      (poll_first
         (poll_map (λ '(m, c), (CeUser m, mkCoInbox (job_outcome_rx i) c (automated_rx i)))
            (poll_recv (user_rx i)))
         (poll_map (λ '(m, c), (CeAutomated m, mkCoInbox (job_outcome_rx i) (user_rx i) c))
            (poll_recv (automated_rx i)))) in
  match branches with
  | Disabled => Ready (CeAllClosed, i)
  | p => p
  end.

(** ** Runs of the operations *)

(** The job that [send_next_for] builds from a speculative entry. *)
Definition job_of (pending : gmap Z Confirmation) (key : Key) (entry : Status * Z) : Job :=
  {| job_id := snd entry; job_key := key; job_status := fst entry;
     user_initiated := bool_decide (is_Some (pending !! snd entry)) |}.

(** The answer sent when the confirmation with a given id is resolved. *)
Definition confirm_outs (pending : gmap Z Confirmation) (id : Z)
    (r : result unit UpdateError) : list CoOut :=
  match pending !! id with Some conf => [CoConfirm conf r] | None => [] end.

Section runs.
Context `{UnicodeTables} `{ProtoEnums}.
Context (alive : bool).
Implicit Types c : AlarmStateCoordinator.

(** What sending a job gives, the state of the task being [c]. *)
Definition job_sent (job : Job) (c : AlarmStateCoordinator) (outs : list CoOut) :
    outcome (result unit string * AlarmStateCoordinator * list CoOut) :=
  if alive then Ret (Ok tt, c, outs ++ [CoJob job])
  else Ret (Err WORKFLOW_HANDLER_STOPPED, c, outs).

Lemma send_next_for_run k c :
  send_next_for alive k c =
  match speculative_state c !! k with
  | Some e => job_sent (job_of (pending_confirmations c) k e) c []
  | None => Ret (Ok tt, c, [])
  end.
Proof.
  unfold send_next_for, job_sent, job_of. eff_unfold.
  destruct (speculative_state c !! k) as [[st id]|]; [|done]. by destruct alive.
Qed.

Lemma resolve_confirmation_run id r c :
  resolve_confirmation id r c =
  Ret (tt, set_pending (delete id) c, confirm_outs (pending_confirmations c) id r).
Proof.
  unfold resolve_confirmation, confirm_outs. eff_unfold.
  by destruct (pending_confirmations c !! id).
Qed.

(** The state after an update was recorded under the next id. *)
Definition recorded (k : Key) (status : Status) (c : AlarmStateCoordinator) :=
  {| confirmed_state := confirmed_state c;
     speculative_state := <[k := (status, id_counter c)]> (speculative_state c);
     pending_confirmations := pending_confirmations c;
     id_counter := u64_wrapping_add (id_counter c) 1 |}.

Lemma handle_automated_update_run status c :
  handle_automated_update alive status c =
  let k := key_from_status status in
  if should_publish (get_latest_status c k) k status
  then
    match speculative_state c !! k with
    | Some _ => Ret (Ok tt, recorded k status c, [])
    | None => job_sent (job_of (pending_confirmations c) k (status, id_counter c))
                (recorded k status c) []
    end
  else Ret (Ok tt, c, []).
Proof.
  unfold handle_automated_update, get_next_id, insert_speculative. cbn zeta. eff_unfold.
  destruct (should_publish _ _ _); [|done]. cbn [set_id_counter speculative_state].
  destruct (speculative_state c !! _) eqn:E; [done|].
  rewrite send_next_for_run. cbn. rewrite lookup_insert_eq. unfold job_sent.
  by destruct alive.
Qed.

Definition latest_state_of (c : AlarmStateCoordinator) (k : Key) : State.t :=
  default State.Unknown (state <$> get_latest_status c k).

Definition latest_wake_of (c : AlarmStateCoordinator) (k : Key) : option Timestamp :=
  get_latest_status c k ≫= wake.

Lemma handle_user_update_run now k action u conf c :
  handle_user_update alive now k action u conf c =
  if user_action_allowed (latest_state_of c k) (latest_wake_of c k) action
  then
    let status := build_user_status now k action u in
    let c' := set_pending (insert (id_counter c) conf) (recorded k status c) in
    match speculative_state c !! k with
    | Some _ => Ret (Ok tt, c', [])
    | None => job_sent {| job_id := id_counter c; job_key := k; job_status := status;
                          user_initiated := true |} c' []
    end
  else
    Ret (Ok tt, c,
         [CoConfirm conf (Err (StateNotAllowed
            {| st_key := k; st_current := latest_state_of c k;
               st_requested := as_state action |}))]).
Proof.
  unfold handle_user_update, get_next_id, insert_speculative, latest_state_of, latest_wake_of.
  cbn zeta. eff_unfold.
  destruct (user_action_allowed _ _ _); [|done].
  cbn [set_id_counter set_pending speculative_state].
  destruct (speculative_state c !! _) eqn:E; [done|].
  rewrite send_next_for_run. cbn. rewrite lookup_insert_eq. unfold job_of, job_sent. cbn.
  rewrite lookup_insert_eq, bool_decide_eq_true_2 by by eexists. by destruct alive.
Qed.

Lemma reconcile_success_run j c :
  reconcile_success alive j c =
  let c1 := set_pending (delete (job_id j)) c in
  let outs := confirm_outs (pending_confirmations c) (job_id j) (Ok tt) in
  let commit := set_confirmed (insert (job_key j) (job_status j, job_id j)) in
  match speculative_state c !! job_key j with
  | Some (st, spec_id) =>
      if bool_decide (spec_id = job_id j)
      then Ret (Ok tt, commit (set_speculative (delete (job_key j)) c1), outs)
      else if alive
           then Ret (Ok tt, commit c1,
                     outs ++ [CoJob (job_of (pending_confirmations c1) (job_key j) (st, spec_id))])
           else Ret (Err WORKFLOW_HANDLER_STOPPED, c1, outs)
  | None => Ret (Ok tt, commit c1, outs)
  end.
Proof.
  unfold reconcile_success. cbn zeta. eff_unfold. rewrite resolve_confirmation_run.
  cbn [set_pending speculative_state].
  destruct (speculative_state c !! job_key j) as [[st sid]|] eqn:E;
    [|cbn; by rewrite ?app_nil_r].
  case_bool_decide; [cbn; by rewrite ?app_nil_r|].
  rewrite send_next_for_run. cbn. rewrite E. unfold job_sent.
  destruct alive; cbn; by rewrite ?app_nil_r.
Qed.

Definition rollback_entry (c : AlarmStateCoordinator) (k : Key) : Status * Z :=
  default (unconfirmed_status k, DEFAULT_HYDRATED_ID) (confirmed_state c !! k).

Lemma reconcile_failure_run j c :
  reconcile_failure alive j c =
  let c1 := set_pending (delete (job_id j)) c in
  let outs := confirm_outs (pending_confirmations c) (job_id j) (Err (Internal (job_key j))) in
  match speculative_state c !! job_key j with
  | Some (st, spec_id) =>
      if bool_decide (spec_id = job_id j) && user_initiated j
      then
        job_sent (job_of (pending_confirmations c1) (job_key j) (rollback_entry c (job_key j)))
          (set_speculative (insert (job_key j) (rollback_entry c (job_key j))) c1) outs
      else job_sent (job_of (pending_confirmations c1) (job_key j) (st, spec_id)) c1 outs
  | None => Ret (Err "Lost state for job", c1, outs)
  end.
Proof.
  unfold reconcile_failure. cbn zeta. eff_unfold. rewrite resolve_confirmation_run.
  cbn [set_pending speculative_state].
  destruct (speculative_state c !! job_key j) as [[st sid]|] eqn:E;
    [|cbn; by rewrite ?app_nil_r].
  destruct (bool_decide _ && _).
  - unfold converge_to_last_confirmed. eff_unfold. rewrite send_next_for_run. cbn.
    rewrite lookup_insert_eq. unfold job_sent. destruct alive; cbn; by rewrite ?app_nil_r.
  - rewrite send_next_for_run. cbn. rewrite E. unfold job_sent.
    destruct alive; cbn; by rewrite ?app_nil_r.
Qed.
End runs.

(** ** Identifiers *)

(** Every identifier in use was allocated by this coordinator (or is the
    hydration id), so the next one is fresh. *)
Record coordinator_ok (c : AlarmStateCoordinator) : Prop := {
  ok_counter : (1 ≤ id_counter c < u64_modulus)%Z;
  ok_speculative k st id : speculative_state c !! k = Some (st, id) → (0 ≤ id < id_counter c)%Z;
  ok_confirmed k st id : confirmed_state c !! k = Some (st, id) → (0 ≤ id < id_counter c)%Z;
  ok_pending id conf : pending_confirmations c !! id = Some conf → (1 ≤ id < id_counter c)%Z;
}.

(** The identifiers in the outcomes the coordinator is sent are its own. *)
Definition event_ids_ok (c : AlarmStateCoordinator) (e : CoEvent) : Prop :=
  match e with
  | CeOutcome (Committed j) | CeOutcome (Failed j) => (0 ≤ job_id j < id_counter c)%Z
  | _ => True
  end.

Section identifiers.
Context `{UnicodeTables} `{ProtoEnums}.
Implicit Types c : AlarmStateCoordinator.

Lemma coordinator_new_ok hydrated : coordinator_ok (coordinator_new hydrated).
Proof.
  split; cbn.
  - done.
  - intros k st id Hk. by rewrite lookup_empty in Hk.
  - intros k st id. rewrite lookup_fmap. unfold DEFAULT_HYDRATED_ID, INITIAL_PUBLISH_ID.
    destruct (hydrated !! k); intros [=]. lia.
  - intros id conf Hk. by rewrite lookup_empty in Hk.
Qed.

Lemma recorded_counter k status c :
  coordinator_ok c → (id_counter c < u64_max)%Z →
  id_counter (recorded k status c) = (id_counter c + 1)%Z.
Proof.
  intros Hok Hlt. cbn. apply u64_wrapping_add_small.
  pose proof (ok_counter c Hok). unfold u64_max, u64_modulus in *. lia.
Qed.

Lemma recorded_ok k status c :
  coordinator_ok c → (id_counter c < u64_max)%Z → coordinator_ok (recorded k status c).
Proof.
  intros Hok Hlt. pose proof (recorded_counter k status c Hok Hlt) as Hc.
  pose proof (ok_counter c Hok) as Hrange. unfold u64_max, u64_modulus in *.
  split; rewrite ?Hc; cbn.
  - unfold u64_modulus. lia.
  - intros k' st id. rewrite lookup_insert. case_decide.
    + intros [=]; subst. lia.
    + intros Hk. apply ok_speculative in Hk; [lia|done].
  - intros k' st id Hk. apply ok_confirmed in Hk; [lia|done].
  - intros id conf Hk. apply ok_pending in Hk; [lia|done].
Qed.

Lemma set_pending_insert_ok id conf c :
  coordinator_ok c → (1 ≤ id < id_counter c)%Z →
  coordinator_ok (set_pending (insert id conf) c).
Proof.
  intros [] Hid. split; cbn; [done..|]. intros id' conf'. rewrite lookup_insert.
  case_decide; [intros [=]; subst; lia|eauto].
Qed.

Lemma set_pending_delete_ok id c :
  coordinator_ok c → coordinator_ok (set_pending (delete id) c).
Proof.
  intros []. split; cbn; [done..|]. intros id' conf'. rewrite lookup_delete.
  case_decide; [done|eauto].
Qed.

Lemma set_pending_empty_ok c : coordinator_ok c → coordinator_ok (set_pending (λ _, ∅) c).
Proof. intros []. split; cbn; [done..|]. intros id conf. by rewrite lookup_empty. Qed.

Lemma set_speculative_delete_ok k c :
  coordinator_ok c → coordinator_ok (set_speculative (delete k) c).
Proof.
  intros []. split; cbn; [done| |done|done]. intros k' st id. rewrite lookup_delete.
  case_decide; [done|eauto].
Qed.

Lemma set_speculative_insert_ok k e c :
  coordinator_ok c → (0 ≤ snd e < id_counter c)%Z →
  coordinator_ok (set_speculative (insert k e) c).
Proof.
  intros [] He. split; cbn; [done| |done|done]. intros k' st id. rewrite lookup_insert.
  case_decide; [intros [=]; subst; done|eauto].
Qed.

Lemma set_confirmed_insert_ok k e c :
  coordinator_ok c → (0 ≤ snd e < id_counter c)%Z →
  coordinator_ok (set_confirmed (insert k e) c).
Proof.
  intros [] He. split; cbn; [done|done| |done]. intros k' st id. rewrite lookup_insert.
  case_decide; [intros [=]; subst; done|eauto].
Qed.

Lemma rollback_entry_id c k : coordinator_ok c → (0 ≤ snd (rollback_entry c k) < id_counter c)%Z.
Proof.
  intros Hok. unfold rollback_entry. destruct (confirmed_state c !! k) as [[st id]|] eqn:E; cbn.
  - by eapply ok_confirmed.
  - pose proof (ok_counter c Hok). unfold DEFAULT_HYDRATED_ID. lia.
Qed.

Lemma rolled_back_ok k id c :
  coordinator_ok c →
  coordinator_ok (set_speculative (insert k (rollback_entry c k)) (set_pending (delete id) c)).
Proof.
  intros Hok. apply set_speculative_insert_ok; [by apply set_pending_delete_ok|].
  exact (rollback_entry_id c k Hok).
Qed.

Lemma user_recorded_ok k status conf c :
  coordinator_ok c → (id_counter c < u64_max)%Z →
  coordinator_ok (set_pending (insert (id_counter c) conf) (recorded k status c)).
Proof.
  intros Hok Hlt. apply set_pending_insert_ok; [by apply recorded_ok|].
  rewrite recorded_counter by done. pose proof (ok_counter c Hok). lia.
Qed.
End identifiers.

#[export] Hint Resolve rolled_back_ok user_recorded_ok : alarms.
#[export] Hint Resolve recorded_ok set_pending_insert_ok set_pending_delete_ok
  set_pending_empty_ok set_speculative_delete_ok set_speculative_insert_ok
  set_confirmed_insert_ok rollback_entry_id coordinator_new_ok : alarms.

(** ** Properties *)

Section properties.
Context `{UnicodeTables} `{ProtoEnums}.
Implicit Types c : AlarmStateCoordinator.

(** The answers [fail_all_confirmations] sends. *)
Definition shutdown_answer (c : AlarmStateCoordinator) (e : Z * Confirmation) : list CoOut :=
  match speculative_key_of (speculative_state c) (fst e) with
  | Some key => [CoConfirm (snd e) (Err (Internal key))]
  | None => []
  end.
Definition shutdown_outs (c : AlarmStateCoordinator) : list CoOut :=
  map_to_list (pending_confirmations c) ≫= shutdown_answer c.

Lemma fail_all_confirmations_run c :
  fail_all_confirmations c = Ret (tt, set_pending (λ _, ∅) c, shutdown_outs c).
Proof.
  unfold fail_all_confirmations. cbv [mbind eff_bind get modify].
  rewrite (for_each_emits _ (shutdown_answer c)); [reflexivity|].
  intros e s'. unfold shutdown_answer. by destruct (speculative_key_of _ _).
Qed.

Lemma handle_snapshot_run sender c :
  handle_snapshot sender c =
  Ret (Ok tt, c,
       [CoSnapshot sender
          (omap (λ e, let status := fst (snd e) in
                      if in_snapshot status then Some status else None)
             (map_to_list (confirmed_state c)))]).
Proof. done. Qed.

Lemma coordinator_iteration_run alive now e c r c' outs :
  coordinator_handle alive now e c = Ret (r, c', outs) →
  coordinator_iteration alive now e c =
  match r with
  | Ok _ => Ret (true, c', outs)
  | Err _ => Ret (false, set_pending (λ _, ∅) c', outs ++ shutdown_outs c')
  end.
Proof.
  intros Hr. unfold coordinator_iteration. cbv [mbind eff_bind mret eff_ret]. rewrite Hr.
  destruct r; [by rewrite app_nil_r|].
  rewrite fail_all_confirmations_run. by rewrite app_nil_r.
Qed.
End properties.

(** Rewrite a handler applied to a state into the explicit result of its run. *)
Ltac co_run :=
  repeat first
    [ progress cbn [coordinator_handle reconcile_job_outcome handle_message] in *
    | progress unfold dispatch_automated_wake in *
    | rewrite handle_automated_update_run in *
    | rewrite handle_user_update_run in *
    | rewrite reconcile_success_run in *
    | rewrite reconcile_failure_run in *
    | rewrite handle_snapshot_run in * ];
  unfold mret, eff_ret in *; cbn zeta in *.

(** Enumerate the runs of a handler. *)
Ltac co_cases :=
  co_run; unfold job_sent in *; repeat (case_match; simplify_eq/=); simplify_eq/=.

Section invariants.
Context `{UnicodeTables} `{ProtoEnums}.
Implicit Types c : AlarmStateCoordinator.

(** Every event is handled to completion. *)
Lemma coordinator_handle_total alive now e c :
  ∃ r c' outs, coordinator_handle alive now e c = Ret (r, c', outs).
Proof.
  destruct e as [[j|j|k]|[s|st|k a u cf]|[s|st|k a u cf]|]; co_run; unfold job_sent;
    repeat case_match; eauto.
Qed.

Lemma coordinator_handle_ok alive now e c r c' outs :
  coordinator_ok c → (id_counter c < u64_max)%Z → event_ids_ok c e →
  coordinator_handle alive now e c = Ret (r, c', outs) → coordinator_ok c'.
Proof.
  intros Hok Hlt Hids Hrun.
  destruct e as [[j|j|k]|[s|st|k a u cf]|[s|st|k a u cf]|]; co_cases;
    eauto 10 with alarms.
Qed.
End invariants.

(** ** What the outputs say *)

Definition out_job (o : CoOut) : option Job :=
  match o with CoJob j => Some j | _ => None end.
Definition out_confirm (o : CoOut) : option (Confirmation * result unit UpdateError) :=
  match o with CoConfirm cf r => Some (cf, r) | _ => None end.

Definition jobs_in (outs : list CoOut) : list Job := omap out_job outs.
Definition confirms_in (outs : list CoOut) : list (Confirmation * result unit UpdateError) :=
  omap out_confirm outs.

Lemma jobs_in_app o1 o2 : jobs_in (o1 ++ o2) = jobs_in o1 ++ jobs_in o2.
Proof. apply omap_app. Qed.
Lemma confirms_in_app o1 o2 : confirms_in (o1 ++ o2) = confirms_in o1 ++ confirms_in o2.
Proof. apply omap_app. Qed.
Lemma jobs_in_confirm_outs p id r : jobs_in (confirm_outs p id r) = [].
Proof. unfold confirm_outs. by destruct (p !! id). Qed.
Lemma confirms_in_confirm_outs p id r :
  confirms_in (confirm_outs p id r) = match p !! id with Some cf => [(cf, r)] | None => [] end.
Proof. unfold confirm_outs. by destruct (p !! id). Qed.

Lemma elem_of_jobs_in j outs : j ∈ jobs_in outs ↔ CoJob j ∈ outs.
Proof.
  unfold jobs_in. rewrite list_elem_of_omap. split.
  - intros (o & Ho & Hj). by destruct o; simplify_eq/=.
  - intros Hj. by exists (CoJob j).
Qed.

Create Rewrite HintDb outs.
#[export] Hint Rewrite jobs_in_app confirms_in_app jobs_in_confirm_outs
  confirms_in_confirm_outs @app_nil_r : outs.

(** The confirmations still owed an answer, and the one an event brings in. *)
Definition owed (c : AlarmStateCoordinator) : list Confirmation :=
  snd <$> map_to_list (pending_confirmations c).

Definition message_confirmation (m : DomainInput) : list Confirmation :=
  match m with UserUpdate _ _ _ cf => [cf] | _ => [] end.

Definition event_confirmation (e : CoEvent) : list Confirmation :=
  match e with CeUser m | CeAutomated m => message_confirmation m | _ => [] end.

Lemma owed_set_confirmed f c : owed (set_confirmed f c) = owed c.
Proof. done. Qed.
Lemma owed_set_speculative f c : owed (set_speculative f c) = owed c.
Proof. done. Qed.
Lemma owed_recorded k status c : owed (recorded k status c) = owed c.
Proof. done. Qed.
#[export] Hint Rewrite owed_set_confirmed owed_set_speculative owed_recorded : outs.

Lemma owed_insert id cf c :
  pending_confirmations c !! id = None → owed (set_pending (insert id cf) c) ≡ₚ cf :: owed c.
Proof. intros Hid. unfold owed. cbn. by rewrite map_to_list_insert. Qed.

Lemma owed_delete id r c :
  owed c ≡ₚ (fst <$> confirms_in (confirm_outs (pending_confirmations c) id r))
              ++ owed (set_pending (delete id) c).
Proof.
  unfold owed, confirm_outs. cbn. destruct (pending_confirmations c !! id) as [cf|] eqn:E; cbn.
  - by rewrite <-(map_to_list_delete _ id cf) by done.
  - by rewrite delete_id.
Qed.
