(* ===== verification/CoordinatorProps.v ===== *)
(** * What the coordinator guarantees

    The theorems about the handlers of [Coordinator]: conservation of answers,
    the identifier discipline, single flight per key, treatment of stale results,
    rollback, snapshots, wake-ups and shutdown; with their witnesses. *)

From S2P Require Export Coordinator.

Definition job_id_of_event (e : CoEvent) : Z :=
  match e with
  | CeOutcome (Committed j) | CeOutcome (Failed j) => job_id j
  | _ => 0
  end.

Section coordinator_theorems.
Context `{UnicodeTables} `{ProtoEnums}.
Implicit Types c : AlarmStateCoordinator.

Lemma coordinator_handle_counter alive now e c r c' outs :
  coordinator_ok c → (id_counter c < u64_max)%Z →
  coordinator_handle alive now e c = Ret (r, c', outs) → (id_counter c ≤ id_counter c')%Z.
Proof.
  intros Hok Hlt Hrun.
  assert (u64_wrapping_add (id_counter c) 1 = id_counter c + 1)%Z.
  { pose proof (recorded_counter (mkKey "" Source.Unknown) status_default c Hok Hlt). done. }
  destruct e as [[j|j|k]|[s|st|k a us cf]|[s|st|k a us cf]|]; co_cases; cbn; lia.
Qed.

Lemma coordinator_handle_job_ids alive now e c r c' outs j :
  coordinator_ok c → (id_counter c < u64_max)%Z →
  coordinator_handle alive now e c = Ret (r, c', outs) →
  j ∈ jobs_in outs → (0 ≤ job_id j < id_counter c')%Z.
Proof.
  intros Hok Hlt Hrun.
  assert (u64_wrapping_add (id_counter c) 1 = id_counter c + 1)%Z.
  { pose proof (recorded_counter (mkKey "" Source.Unknown) status_default c Hok Hlt). done. }
  pose proof (ok_counter c Hok). pose proof (rollback_entry_id c) as Hroll.
  destruct e as [[j'|j'|k]|[s|st|k a us cf]|[s|st|k a us cf]|]; co_cases;
    autorewrite with outs; cbn; rewrite ?list_elem_of_singleton, ?elem_of_nil;
    intros Hj; try done; subst j; cbn;
    first [lia | by apply Hroll | by eapply ok_speculative].
Qed.

(** C19 Answers are conserved: whatever the event, as long as the loop goes on,
    the confirmations owed before it together with the one it brings in are
    exactly those answered during it together with those owed after it; so no
    user request is answered twice, and none is forgotten by a handler. *)
Theorem confirmations_conserved alive now e c c' outs :
  coordinator_ok c →
  coordinator_iteration alive now e c = Ret (true, c', outs) →
  owed c ++ event_confirmation e ≡ₚ (fst <$> confirms_in outs) ++ owed c'.
Proof.
  intros Hok Hrun.
  destruct (coordinator_handle_total alive now e c) as (r & c1 & o1 & Hh).
  rewrite (coordinator_iteration_run _ _ _ _ _ _ _ Hh) in Hrun.
  destruct r as [u|]; simplify_eq.
  assert (Hfresh : pending_confirmations c !! id_counter c = None).
  { destruct (pending_confirmations c !! id_counter c) as [cf|] eqn:E; [|done].
    apply ok_pending in E; [lia|done]. }
  assert (Hdel := λ r, owed_delete (job_id_of_event e) r c).
  destruct e as [[j|j|k]|[s|st|k a us cf]|[s|st|k a us cf]|]; co_cases;
    cbn [event_confirmation message_confirmation fmap list_fmap app];
    autorewrite with outs; try done.
  all: try (rewrite Permutation_app_comm, ?owed_insert by done; done).
  all: cbn in Hdel;
    first [rewrite (Hdel (Ok tt)); autorewrite with outs; done
          |rewrite (Hdel (Err (Internal (job_key j)))); autorewrite with outs; done].
Qed.

(** The identifier discipline: handling any event keeps every identifier in
    the caches and in the pending confirmations below the counter, never moves
    the counter back, and gives every dispatched job an identifier that was
    allocated, as long as the counter has not reached the end of its range. *)
Theorem coordinator_ids_invariant alive now e c go c' outs :
  coordinator_ok c → (id_counter c < u64_max)%Z → event_ids_ok c e →
  coordinator_iteration alive now e c = Ret (go, c', outs) →
  coordinator_ok c' ∧ (id_counter c ≤ id_counter c')%Z ∧
  ∀ j, CoJob j ∈ outs → (0 ≤ job_id j < id_counter c')%Z.
Proof.
  intros Hok Hlt Hids Hrun.
  destruct (coordinator_handle_total alive now e c) as (r & c1 & o1 & Hh).
  rewrite (coordinator_iteration_run _ _ _ _ _ _ _ Hh) in Hrun.
  assert (Hok1 : coordinator_ok c1) by by eapply coordinator_handle_ok.
  assert (Hjobs : (id_counter c ≤ id_counter c1)%Z ∧
                  ∀ j, CoJob j ∈ o1 → (0 ≤ job_id j < id_counter c1)%Z).
  { clear Hrun Hok1. split.
    - eapply coordinator_handle_counter; done.
    - intros j Hj%elem_of_jobs_in. eapply coordinator_handle_job_ids; done. }
  destruct r as [u|]; simplify_eq; [done|]. split; [by apply set_pending_empty_ok|].
  destruct Hjobs as [Hle Hjobs]. split; [done|].
  intros j [Hj|Hj]%elem_of_app; [by apply Hjobs|].
  apply list_elem_of_bind in Hj as (p & Hp & _). unfold shutdown_answer in Hp.
  case_match; [by apply list_elem_of_singleton in Hp|by apply not_elem_of_nil in Hp].
Qed.

(** C18 Single flight: an event makes the coordinator dispatch at most one job.
    The job carries the latest intent recorded for its key, is flagged as
    user-initiated exactly when a confirmation waits for it, and is for a key
    that had no job in flight or whose job has just come back. *)
Theorem one_job_per_event alive now e c r c' outs :
  coordinator_handle alive now e c = Ret (r, c', outs) →
  jobs_in outs = [] ∨
  ∃ k entry, jobs_in outs = [job_of (pending_confirmations c') k entry] ∧
    speculative_state c' !! k = Some entry ∧
    (speculative_state c !! k = None ∨
     ∃ j, (e = CeOutcome (Committed j) ∨ e = CeOutcome (Failed j)) ∧ job_key j = k).
Proof.
  intros Hrun.
  assert (Huser : ∀ k st id cf, {| job_id := id; job_key := k; job_status := st;
      user_initiated := true |} =
      job_of (<[id := cf]> (pending_confirmations c)) k (st, id)).
  { intros. unfold job_of. cbn. by rewrite lookup_insert_eq, bool_decide_eq_true_2 by by eexists. }
  destruct e as [[j|j|k]|[s|st|k a us cf]|[s|st|k a us cf]|]; co_cases;
    autorewrite with outs; try (by left); right; eexists _, _;
    (split; [first [reflexivity|by f_equal; apply Huser]|]); cbn;
    (split; [first [done|apply lookup_insert_eq]|]);
    first [by left | right; eexists; split; [eauto|done]].
Qed.

(** C17 A stale result never displaces newer intent: when a job comes back,
    committed or failed, and newer intent was recorded for its key in the
    meantime, the speculative entry stays as it is, remains the latest known
    status, and exactly the job for it is dispatched next. *)
Theorem stale_outcome_keeps_newer_intent now o j c st id :
  o = Committed j ∨ o = Failed j →
  speculative_state c !! job_key j = Some (st, id) → id ≠ job_id j →
  ∃ c' outs, coordinator_handle true now (CeOutcome o) c = Ret (Ok tt, c', outs) ∧
    speculative_state c' = speculative_state c ∧
    get_latest_status c' (job_key j) = Some st ∧
    jobs_in outs = [job_of (delete (job_id j) (pending_confirmations c)) (job_key j) (st, id)].
Proof.
  intros Ho Hspec Hid. assert (Hbd : bool_decide (id = job_id j) = false).
  { by apply bool_decide_eq_false_2. }
  destruct Ho as [-> | ->]; co_run; rewrite Hspec, Hbd; cbn [andb];
    eexists _, _; (split; [reflexivity|]); (split; [done|]);
    (split; [unfold get_latest_status; cbn; by rewrite Hspec|]); by autorewrite with outs.
Qed.

(** C16 Confirmed state advances only by commits: an event changes
    [confirmed_state] only if it is the commit of a job, and then exactly the
    entry of that job's key, to the status and identifier that were committed. *)
Theorem confirmed_only_by_commit alive now e c r c' outs :
  coordinator_handle alive now e c = Ret (r, c', outs) →
  confirmed_state c' =
  match e, r with
  | CeOutcome (Committed j), Ok _ =>
      <[job_key j := (job_status j, job_id j)]> (confirmed_state c)
  | _, _ => confirmed_state c
  end.
Proof.
  intros Hrun.
  destruct e as [[j|j|k]|[s|st|k a us cf]|[s|st|k a us cf]|]; co_cases; done.
Qed.

(** C20 Rollback: when the failed job is the latest user intent for its key, the
    user is told of an internal error, the last confirmed status (or, with
    none, an empty status for the key) becomes the latest known status again,
    and it is what is dispatched next. *)
Theorem failed_user_job_rolls_back now j c st conf :
  speculative_state c !! job_key j = Some (st, job_id j) → user_initiated j = true →
  pending_confirmations c !! job_id j = Some conf →
  let back := rollback_entry c (job_key j) in
  ∃ c' outs, coordinator_handle true now (CeOutcome (Failed j)) c = Ret (Ok tt, c', outs) ∧
    confirms_in outs = [(conf, Err (Internal (job_key j)))] ∧
    confirmed_state c' = confirmed_state c ∧
    get_latest_status c' (job_key j) = Some (fst back) ∧
    pending_confirmations c' = delete (job_id j) (pending_confirmations c) ∧
    jobs_in outs = [job_of (pending_confirmations c') (job_key j) back].
Proof.
  intros Hspec Hu Hconf back. co_run. rewrite Hspec, Hu, bool_decide_eq_true_2 by done.
  cbn [andb]. eexists _, _. split; [reflexivity|]. autorewrite with outs. cbn.
  rewrite Hconf. unfold get_latest_status. cbn. rewrite lookup_insert_eq.
  unfold back. by destruct (rollback_entry c (job_key j)).
Qed.

(** The snapshot shows confirmed state only: it contains a status exactly
    when some key is confirmed with that status and the status is neither [Ok]
    nor [Unbypassed]; speculative intent is never shown, and answering changes
    nothing. *)
Theorem snapshot_spec sender c :
  ∃ snap, handle_snapshot sender c = Ret (Ok tt, c, [CoSnapshot sender snap]) ∧
    ∀ st, st ∈ snap ↔ (∃ k id, confirmed_state c !! k = Some (st, id)) ∧
                       state st ≠ State.Ok ∧ state st ≠ State.Unbypassed.
Proof.
  eexists. split; [apply handle_snapshot_run|]. intros st. rewrite list_elem_of_omap.
  assert (Hin : ∀ st', in_snapshot st' = true ↔
                   state st' ≠ State.Ok ∧ state st' ≠ State.Unbypassed).
  { intros st'. unfold in_snapshot. destruct (state st'); intuition congruence. }
  rewrite <-Hin. split.
  - intros ([k [st' id]] & Hk%elem_of_map_to_list & Hs). cbn in *.
    case_match; simplify_eq. eauto.
  - intros [(k & id & Hk) Hs]. exists (k, (st, id)). cbn. rewrite Hs.
    by rewrite elem_of_map_to_list.
Qed.

(** Shutdown: when the loop stops, the answer [Err(Internal)] goes to a
    pending confirmation exactly when some speculative entry still carries its
    identifier; all the others are dropped without an answer. *)
Theorem shutdown_answers conf c :
  (∃ k, CoConfirm conf (Err (Internal k)) ∈ shutdown_outs c) ↔
  ∃ id k st, pending_confirmations c !! id = Some conf ∧
             speculative_state c !! k = Some (st, id).
Proof.
  unfold shutdown_outs. setoid_rewrite list_elem_of_bind. split.
  - intros (k & [id conf'] & Ha & Hp%elem_of_map_to_list).
    unfold shutdown_answer, speculative_key_of in Ha. cbn in Ha.
    destruct (list_find _ _) as [[i [k' [st id']]]|] eqn:E; [|by apply not_elem_of_nil in Ha].
    apply list_elem_of_singleton in Ha. simplify_eq.
    apply list_find_Some in E as (Hi & Hid & _). cbn in Hid. subst id'.
    apply list_elem_of_lookup_2, elem_of_map_to_list in Hi. eauto.
  - intros (id & k & st & Hp & Hs). unfold shutdown_answer, speculative_key_of.
    destruct (list_find (λ e : Key * (Status * Z), snd (snd e) = id)
                (map_to_list (speculative_state c))) as [[i [k' e]]|] eqn:E.
    + exists k', (id, conf). cbn. rewrite E.
      split; [by apply list_elem_of_singleton|by apply elem_of_map_to_list].
    + apply list_find_None in E. rewrite list.Forall_forall in E.
      exfalso. apply (E (k, (st, id))); [by apply elem_of_map_to_list|done].
Qed.
End coordinator_theorems.

Section coordinator_user_and_wake.
Context `{UnicodeLaws} `{ProtoLaws}.
Implicit Types c : AlarmStateCoordinator.

Lemma state_build_user_status now k a u : state (build_user_status now k a u) = as_state a.
Proof. unfold state. cbn. apply state_roundtrip. Qed.

Lemma state_wake_status now k : state (wake_status now k) = State.Unbypassed.
Proof. unfold state. cbn. apply state_roundtrip. Qed.

(** The statuses the coordinator builds for a key belong to that key. *)
Lemma key_from_user_status now k a u :
  key_wf k → key_from_status (build_user_status now k a u) = k.
Proof.
  intros Hk. unfold key_from_status, source_of. cbn. rewrite source_roundtrip, Hk. by destruct k.
Qed.

Lemma key_from_wake_status now k : key_wf k → key_from_status (wake_status now k) = k.
Proof.
  intros Hk. unfold key_from_status, source_of. cbn. rewrite source_roundtrip, Hk. by destruct k.
Qed.

Lemma key_from_unconfirmed_status k : key_wf k → key_from_status (unconfirmed_status k) = k.
Proof.
  intros Hk. unfold key_from_status, source_of. cbn. rewrite source_roundtrip, Hk. by destruct k.
Qed.

(** A user command is either refused on the spot, with the current and the
    requested state in the error and nothing else changed, or accepted: then no
    answer is sent yet, the confirmation waits under the fresh identifier, and
    the requested state, wake time and user are the latest known status. *)
Theorem user_update_outcomes now k a u conf c :
  ∃ c' outs,
    handle_user_update true now k a u conf c = Ret (Ok tt, c', outs) ∧
    if user_action_allowed (latest_state_of c k) (latest_wake_of c k) a
    then confirms_in outs = [] ∧ pending_confirmations c' !! id_counter c = Some conf ∧
         latest_state_of c' k = as_state a ∧ latest_wake_of c' k = get_wake a ∧
         user <$> get_latest_status c' k = Some u ∧
         confirmed_state c' = confirmed_state c ∧
         (∀ k', k' ≠ k → get_latest_status c' k' = get_latest_status c k')
    else c' = c ∧ jobs_in outs = [] ∧
         confirms_in outs =
           [(conf, Err (StateNotAllowed {| st_key := k; st_current := latest_state_of c k;
                                            st_requested := as_state a |}))].
Proof.
  rewrite handle_user_update_run. destruct (user_action_allowed _ _ _).
  - assert (Hlatest : ∀ outs : list CoOut, confirms_in outs = [] →
      let c' := set_pending (insert (id_counter c) conf)
                  (recorded k (build_user_status now k a u) c) in
      confirms_in outs = [] ∧ pending_confirmations c' !! id_counter c = Some conf ∧
      latest_state_of c' k = as_state a ∧ latest_wake_of c' k = get_wake a ∧
      user <$> get_latest_status c' k = Some u ∧
      confirmed_state c' = confirmed_state c ∧
      (∀ k', k' ≠ k → get_latest_status c' k' = get_latest_status c k')).
    { intros outs Houts. unfold latest_state_of, latest_wake_of, get_latest_status. cbn.
      rewrite !lookup_insert_eq. cbn. rewrite state_build_user_status.
      repeat split; try done. intros k' Hk. by rewrite lookup_insert_ne. }
    cbn zeta. unfold job_sent.
    destruct (speculative_state c !! k); eexists _, _; (split; [reflexivity|]);
      by apply Hlatest.
  - by eexists _, _.
Qed.

(** A timer expiry unbypasses: for an alarm whose latest status is bypassed,
    the synthesised wake-up is always accepted, whatever the source; the alarm's
    latest state becomes [Unbypassed] with no wake time, no other alarm is
    affected, and if no job was in flight the job is dispatched at once. *)
Theorem wake_unbypasses now k c prev :
  key_wf k → get_latest_status c k = Some prev → state prev = State.Bypassed →
  ∃ c' outs,
    reconcile_job_outcome true now (Wake k) c = Ret (Ok tt, c', outs) ∧
    latest_state_of c' k = State.Unbypassed ∧ latest_wake_of c' k = None ∧
    (∀ k', k' ≠ k → get_latest_status c' k' = get_latest_status c k') ∧
    (speculative_state c !! k = None → ∃ j, jobs_in outs = [j] ∧ job_key j = k ∧
       job_status j = wake_status now k).
Proof.
  intros Hk Hprev Hb. co_run. rewrite (key_from_wake_status _ _ Hk), Hprev.
  assert (Hpub : should_publish (Some prev) k (wake_status now k) = true).
  { rewrite should_publish_Some, Hb, state_wake_status.
    by rewrite (bool_decide_eq_false_2 (State.Unbypassed ≠ _)), andb_false_r by auto. }
  rewrite Hpub.
  assert (Hlatest : let c' := recorded k (wake_status now k) c in
    latest_state_of c' k = State.Unbypassed ∧ latest_wake_of c' k = None ∧
    (∀ k', k' ≠ k → get_latest_status c' k' = get_latest_status c k')).
  { unfold latest_state_of, latest_wake_of, get_latest_status. cbn.
    rewrite !lookup_insert_eq. cbn. rewrite state_wake_status.
    repeat split; try done. intros k' Hne. by rewrite lookup_insert_ne. }
  destruct Hlatest as (H1' & H2' & H3').
  unfold job_sent. destruct (speculative_state c !! k); eexists _, _;
    (split; [reflexivity|]); repeat split; try done.
  intros _. by eexists.
Qed.
End coordinator_user_and_wake.

(** Priority of the coordinator's loop: automated input is taken only when no
    job outcome and no user input is waiting, user input only when no job outcome
    is, and the loop stops exactly when its three channels are closed and
    drained. *)
Theorem coordinator_select_priority i :
  (∀ m i', coordinator_select i = Ready (CeAutomated m, i') →
     buffer (job_outcome_rx i) = [] ∧ buffer (user_rx i) = []) ∧
  (∀ m i', coordinator_select i = Ready (CeUser m, i') → buffer (job_outcome_rx i) = []) ∧
  ((∃ i', coordinator_select i = Ready (CeAllClosed, i')) ↔
     job_outcome_rx i = mkChan [] false ∧ user_rx i = mkChan [] false ∧
     automated_rx i = mkChan [] false).
Proof.
  destruct i as [[[|o p] pa] [[|r s] sa] [[|j q] qa]]; destruct pa, sa, qa;
    cbn; (split; [|split]); intuition (try congruence); destruct_and?; try congruence;
    try (by eexists); by destruct H as [? [=]].
Qed.

(** ** Witnesses *)

(** An alarm confirmed as [Alarmed], with a user's bypass in flight and the
    confirmation of that user, number 7, pending. *)
Definition sample_coordinator : AlarmStateCoordinator :=
  {| confirmed_state := {[ sample_key :=
       (sample_status "M:BEAM" Source.Epics State.Alarmed Severity.High, 1%Z) ]};
     speculative_state := {[ sample_key :=
       (sample_status "M:BEAM" Source.Epics State.Bypassed Severity.Unknown, 2%Z) ]};
     pending_confirmations := {[ 2%Z := 7 ]};
     id_counter := 3 |}.

(** The job of that bypass, and the job of a predecessor. *)
Definition sample_inflight (id : Z) : Job :=
  {| job_id := id; job_key := sample_key;
     job_status := sample_status "M:BEAM" Source.Epics State.Bypassed Severity.Unknown;
     user_initiated := true |}.

Lemma sample_coordinator_ok : coordinator_ok sample_coordinator.
Proof.
  split.
  - done.
  - intros k st id Hk. cbn in Hk. apply lookup_singleton_Some in Hk as [_ [=]]. subst. done.
  - intros k st id Hk. cbn in Hk. apply lookup_singleton_Some in Hk as [_ [=]]. subst. done.
  - intros id conf Hk. cbn in Hk. apply lookup_singleton_Some in Hk as [<- [=]]. done.
Qed.

#[local] Existing Instance ascii_only_tables.
#[local] Existing Instance ascii_only_laws.
#[local] Existing Instance sample_enums.
#[local] Existing Instance sample_laws.

Lemma confirmations_conserved_witness :
  ∃ c' outs,
    coordinator_iteration true 0 (CeOutcome (Committed (sample_inflight 2))) sample_coordinator
      = Ret (true, c', outs) ∧
    confirms_in outs = [(7, Ok tt)] ∧ [7] ++ [] ≡ₚ [7] ++ owed c'.
Proof.
  eexists _, _. split; [vm_compute; reflexivity|]. split; [reflexivity|].
  apply (confirmations_conserved true 0 (CeOutcome (Committed (sample_inflight 2)))
           sample_coordinator _ [CoConfirm 7 (Ok tt)]).
  - exact sample_coordinator_ok.
  - vm_compute. reflexivity.
Defined.

Lemma coordinator_ids_invariant_witness :
  ∃ c' outs,
    coordinator_iteration true 0 (CeOutcome (Failed (sample_inflight 2))) sample_coordinator
      = Ret (true, c', outs) ∧ coordinator_ok c' ∧ (3 ≤ id_counter c')%Z.
Proof.
  eexists _, _. split; [vm_compute; reflexivity|].
  match goal with |- coordinator_ok ?c' ∧ _ =>
    destruct (coordinator_ids_invariant true 0 (CeOutcome (Failed (sample_inflight 2)))
                sample_coordinator true c'
                [CoConfirm 7 (Err (Internal sample_key));
                 CoJob {| job_id := 1; job_key := sample_key;
                          job_status := sample_status "M:BEAM" Source.Epics State.Alarmed Severity.High;
                          user_initiated := false |}]) as (Hok & Hle & _) end.
  - exact sample_coordinator_ok.
  - done.
  - done.
  - vm_compute. reflexivity.
  - split; [exact Hok|exact Hle].
Defined.

Lemma one_job_per_event_witness :
  ∃ c' outs,
    coordinator_handle true 0 (CeOutcome (Failed (sample_inflight 1))) sample_coordinator
      = Ret (Ok tt, c', outs) ∧
    (jobs_in outs = [] ∨ ∃ k entry, jobs_in outs = [job_of (pending_confirmations c') k entry] ∧
       speculative_state c' !! k = Some entry ∧
       (speculative_state sample_coordinator !! k = None ∨
        ∃ j, (CeOutcome (Failed (sample_inflight 1)) = CeOutcome (Committed j) ∨
              CeOutcome (Failed (sample_inflight 1)) = CeOutcome (Failed j)) ∧ job_key j = k)).
Proof.
  eexists _, _. split; [vm_compute; reflexivity|].
  apply (one_job_per_event true 0 (CeOutcome (Failed (sample_inflight 1))) sample_coordinator (Ok tt)).
  vm_compute. reflexivity.
Defined.

Lemma stale_outcome_keeps_newer_intent_witness :
  ∃ c' outs,
    coordinator_handle true 0 (CeOutcome (Committed (sample_inflight 1))) sample_coordinator
      = Ret (Ok tt, c', outs) ∧
    speculative_state c' = speculative_state sample_coordinator.
Proof.
  destruct (stale_outcome_keeps_newer_intent 0 (Committed (sample_inflight 1)) (sample_inflight 1)
              sample_coordinator (job_status (sample_inflight 2)) 2) as (c' & outs & Hr & Hs & _).
  - by left.
  - by vm_compute.
  - done.
  - by exists c', outs.
Defined.

Lemma confirmed_only_by_commit_witness :
  ∃ c' outs,
    coordinator_handle true 0 (CeOutcome (Committed (sample_inflight 2))) sample_coordinator
      = Ret (Ok tt, c', outs) ∧
    confirmed_state c' !! sample_key = Some (job_status (sample_inflight 2), 2%Z).
Proof.
  eexists _, _. split; [vm_compute; reflexivity|].
  match goal with |- confirmed_state ?c' !! _ = _ =>
    rewrite (confirmed_only_by_commit true 0 (CeOutcome (Committed (sample_inflight 2)))
               sample_coordinator (Ok tt) c' [CoConfirm 7 (Ok tt)]) end.
  - by vm_compute.
  - vm_compute. reflexivity.
Defined.

Lemma failed_user_job_rolls_back_witness :
  ∃ c' outs,
    coordinator_handle true 0 (CeOutcome (Failed (sample_inflight 2))) sample_coordinator
      = Ret (Ok tt, c', outs) ∧
    confirms_in outs = [(7, Err (Internal sample_key))] ∧
    latest_state_of c' sample_key = State.Alarmed.
Proof.
  destruct (failed_user_job_rolls_back 0 (sample_inflight 2) sample_coordinator
              (job_status (sample_inflight 2)) 7) as (c' & outs & Hr & Hc & _ & Hl & _).
  - by vm_compute.
  - done.
  - by vm_compute.
  - exists c', outs. split; [exact Hr|]. split; [exact Hc|].
    unfold latest_state_of. change (job_key (sample_inflight 2)) with sample_key in Hl.
    rewrite Hl. by vm_compute.
Defined.

Lemma user_update_outcomes_witness :
  ∃ c' outs,
    handle_user_update true 0 sample_key Activate "operator" 8 sample_coordinator
      = Ret (Ok tt, c', outs) ∧ latest_state_of c' sample_key = State.Unbypassed.
Proof.
  destruct (user_update_outcomes 0 sample_key Activate "operator" 8 sample_coordinator)
    as (c' & outs & Hr & Hc).
  exists c', outs. split; [exact Hr|].
  change (user_action_allowed _ _ _) with true in Hc. destruct Hc as (_ & _ & Hs & _). exact Hs.
Defined.

Lemma wake_unbypasses_witness :
  ∃ c' outs,
    reconcile_job_outcome true 0 (Wake sample_key) sample_coordinator = Ret (Ok tt, c', outs) ∧
    latest_state_of c' sample_key = State.Unbypassed.
Proof.
  destruct (wake_unbypasses 0 sample_key sample_coordinator (job_status (sample_inflight 2)))
    as (c' & outs & Hr & Hs & _).
  - by vm_compute.
  - by vm_compute.
  - by vm_compute.
  - exists c', outs. split; [exact Hr|exact Hs].
Defined.
