(* ===== verification/Snooze.v ===== *)
(** * Snooze scheduler ([effects/snooze.rs])

    One timer per alarm key on a [DelayQueue].  chrono's calendar functions and
    tokio-util's [DelayQueue] are parameters with their documented behaviour
    ([ChronoLaws], [DelayQueueLaws]).  Times and durations are nanoseconds; the
    wall clock [utc_now] and the monotonic clock [inst_now] are arguments. *)

From S2P Require Export Model Metrics.

(** ** Third-party interfaces *)

Class Chrono := {
  (** [DateTime::<Utc>::from_timestamp_secs], as nanoseconds since the epoch *)
  datetime_from_secs : Z → option Z;
  (** [TimeDelta::to_std] *)
  timedelta_to_std : Z → option Z;
}.

Class ChronoLaws `{Chrono} := {
  datetime_from_secs_value s d : datetime_from_secs s = Some d → d = (s * 1000000000)%Z;
  (** every second within 250,000 years of the epoch is representable *)
  datetime_from_secs_range s :
    (-7889238000000 ≤ s ≤ 7889238000000)%Z → is_Some (datetime_from_secs s);
  (** [to_std] fails exactly on negative durations *)
  timedelta_to_std_spec d : timedelta_to_std d = if (d <? 0)%Z then None else Some d;
}.

(** [DelayQueue<Key>] with its opaque keys [DK]; [None] from [dq_reset_at] or
    [dq_remove] stands for the panic on a key that is not in the queue. *)
Class DelayQueue (DQ DK : Type) `{Countable DK} := {
  dq_new : DQ;
  dq_insert_at : Key → Z → DQ → DK * DQ;
  dq_reset_at : DK → Z → DQ → option DQ;
  dq_remove : DK → DQ → option DQ;
  dq_is_empty : DQ → bool;
  (** an expired entry at an instant, if there is one *)
  dq_next : Z → DQ → option (Key * DQ);
  (** the live entries: value and deadline *)
  dq_entries : DQ → gmap DK (Key * Z);
}.

Class DelayQueueLaws (DQ DK : Type) `{DelayQueue DQ DK} := {
  dq_new_entries : dq_entries dq_new = ∅;
  dq_insert_entries k t q :
    let '(dk, q') := dq_insert_at k t q in
    dq_entries q !! dk = None ∧ dq_entries q' = <[dk := (k, t)]> (dq_entries q);
  dq_reset_entries dk k t0 t q :
    dq_entries q !! dk = Some (k, t0) →
    ∃ q', dq_reset_at dk t q = Some q' ∧ dq_entries q' = <[dk := (k, t)]> (dq_entries q);
  dq_remove_entries dk e q :
    dq_entries q !! dk = Some e →
    ∃ q', dq_remove dk q = Some q' ∧ dq_entries q' = delete dk (dq_entries q);
  dq_is_empty_entries q : dq_is_empty q = true ↔ dq_entries q = ∅;
  dq_next_Some now q k q' :
    dq_next now q = Some (k, q') →
    ∃ dk t, dq_entries q !! dk = Some (k, t) ∧ (t ≤ now)%Z ∧
            dq_entries q' = delete dk (dq_entries q);
  (** sooner or later some entry of a queue expires; how late is up to the timer *)
  dq_next_eventually q :
    dq_entries q ≠ ∅ → ∃ t, ∀ now, (t ≤ now)%Z → is_Some (dq_next now q);
}.

(** *** Instances, which show that the laws can hold *)

#[export] Instance sample_chrono : Chrono := {
  datetime_from_secs s :=
    if (Z.abs s <=? 7889238000000)%Z then Some (s * 1000000000)%Z else None;
  timedelta_to_std d := if (d <? 0)%Z then None else Some d;
}.

#[export] Instance sample_chrono_laws : ChronoLaws.
Proof.
  split; cbn.
  - intros s d. case_match; naive_solver.
  - intros s Hs. rewrite (proj2 (Z.leb_le _ _)) by lia. done.
  - done.
Qed.

(** A queue without a timer wheel: a map from fresh keys to entries. *)
#[export] Instance sample_queue : DelayQueue (gmap nat (Key * Z)) nat := {
  dq_new := ∅;
  dq_insert_at k t q := let dk := fresh (dom q) in (dk, <[dk := (k, t)]> q);
  dq_reset_at dk t q := match q !! dk with Some e => Some (<[dk := (e.1, t)]> q) | None => None end;
  dq_remove dk q := match q !! dk with Some _ => Some (delete dk q) | None => None end;
  dq_is_empty q := bool_decide (q = ∅);
  dq_next now q :=
    match list_find (λ e : nat * (Key * Z), (e.2.2 ≤ now)%Z) (map_to_list q) with
    | Some (_, (dk, (k, _))) => Some (k, delete dk q)
    | None => None
    end;
  dq_entries q := q;
}.

#[export] Instance sample_queue_laws : DelayQueueLaws (gmap nat (Key * Z)) nat.
Proof.
  split; cbn -[fresh].
  - done.
  - intros k t q. split; [|done]. apply not_elem_of_dom, is_fresh.
  - intros dk k t0 t q ->. by eexists.
  - intros dk e q ->. by eexists.
  - intros q. apply bool_decide_eq_true.
  - intros now q k q' Hnext. case_match eqn:Hf; [|done].
    destruct p as [i [dk [k' t]]]. simplify_eq.
    apply list_find_Some in Hf as (Hi & Hle & _).
    exists dk, t. split; [|done].
    apply elem_of_map_to_list. by eapply list_elem_of_lookup_2.
  - intros q (dk & [k t] & Hdk%elem_of_map_to_list)%map_choose. exists t. intros now Hle.
    destruct (list_find _ _) as [[i [dk' [k' t']]]|] eqn:Hf; [by eexists|].
    apply list_find_None in Hf. rewrite Forall_forall in Hf. by destruct (Hf _ Hdk).
Qed.

(** ** The scheduler *)

(** [Duration::from_hours(365 * 24)]. *)
Definition MAX_DELAY : Z := 365 * 24 * 3600 * 1000000000.

(** [timestamp_secs_to_instant]. *)
Definition timestamp_secs_to_instant `{Chrono} (utc_now inst_now : Z) (wake : Timestamp) :
    option Z :=
  match datetime_from_secs (seconds wake) with
  | Some target_time =>
      match timedelta_to_std (target_time - utc_now) with
      | Some duration => Some (inst_now + Z.min duration MAX_DELAY)%Z
      | None => None
      end
  | None => None
  end.

Inductive SzOut :=
| SzOutcome (o : SnoozeOutcome)
| SzMetric (call : MetricCall).

(** The local variables of [run_snooze_scheduler]. *)
Record Scheduler (DQ DK : Type) `{Countable DK} := mkScheduler {
  registry : gmap Key DK;
  delay_queue : DQ;
}.
Arguments mkScheduler {DQ DK _ _} registry delay_queue.
Arguments registry {DQ DK _ _} s.
Arguments delay_queue {DQ DK _ _} s.

(** What the [select!] of the loop yields. *)
Inductive SzEvent :=
| SzInput (input : SnoozeInput)
| SzTimer
| SzElse.

Section scheduler.
Context {DQ DK : Type} `{Countable DK} `{!DelayQueue DQ DK} `{Chrono}.
Context (outcome_rx_alive : bool).

Definition scheduler_new : Scheduler DQ DK := mkScheduler ∅ dq_new.

(** [handle_snooze_input]. *)
Definition handle_snooze_input (utc_now inst_now : Z) (snooze_input : SnoozeInput) :
    Eff (Scheduler DQ DK) SzOut (result unit unit) :=
  s ← get;
  outcome ←
    match snooze_from snooze_input with
    | SnoozeSet key wake =>
        match timestamp_secs_to_instant utc_now inst_now wake with
        | Some instant =>
            match registry s !! key with
            | Some queue_key =>
                q ← expect (dq_reset_at queue_key instant (delay_queue s)) "invalid key";
                modify (λ s, mkScheduler (registry s) q) ;;
                mret (Accepted key)
            | None =>
                let '(queue_key, q) := dq_insert_at key instant (delay_queue s) in
                modify (λ s, mkScheduler (<[key := queue_key]> (registry s)) q) ;;
                emit (SzMetric RecSnoozeSet) ;;
                mret (Accepted key)
            end
        | None =>
            emit (SzMetric RecSnoozeInvalidWake) ;;
            mret (InvalidWake key)
        end
    | SnoozeCancel key =>
        match registry s !! key with
        | Some queue_key =>
            q ← expect (dq_remove queue_key (delay_queue s)) "invalid key";
            modify (λ s, mkScheduler (delete key (registry s)) q) ;;
            emit (SzMetric RecSnoozeCancel) ;;
            mret (Accepted key)
        | None => mret (Accepted key)
        end
    end;
  channel_send outcome_rx_alive (SzOutcome outcome).

(** One iteration of the loop of [run_snooze_scheduler]: [true] to go on, [false]
    to break.  The timer branch is ready only when an entry has expired. *)
Definition scheduler_iteration (utc_now inst_now : Z) (e : SzEvent) :
    Eff (Scheduler DQ DK) SzOut bool :=
  match e with
  | SzInput snooze_input =>
      r ← handle_snooze_input utc_now inst_now snooze_input;
      mret (result_is_ok r)
  | SzTimer =>
      s ← get;
      if dq_is_empty (delay_queue s) then mret true
      else
        match dq_next inst_now (delay_queue s) with
        | Some (key, q) =>
            modify (λ s, mkScheduler (delete key (registry s)) q) ;;
            emit (SzMetric RecSnoozeExpiration) ;;
            r ← channel_send outcome_rx_alive (SzOutcome (Expired key));
            mret (result_is_ok r)
        | None => mret true
        end
  | SzElse => mret false
  end.
End scheduler.

(** ** The registry and the queue agree *)

Section scheduler_facts.
Context {DQ DK : Type} `{Countable DK} `{!DelayQueue DQ DK} `{!DelayQueueLaws DQ DK}.
Context `{ChronoLaws}.
Implicit Types s : Scheduler DQ DK.

(** The registry maps a key to the one queue entry that will fire for it. *)
Definition scheduler_ok s : Prop :=
  ∀ k dk, registry s !! k = Some dk ↔ ∃ t, dq_entries (delay_queue s) !! dk = Some (k, t).

(** The deadline of the timer of a key: what the scheduler is for. *)
Definition timer s (k : Key) : option Z :=
  match registry s !! k with
  | Some dk => snd <$> dq_entries (delay_queue s) !! dk
  | None => None
  end.

Lemma scheduler_new_ok : scheduler_ok scheduler_new.
Proof.
  intros k dk. cbn. rewrite dq_new_entries, !lookup_empty.
  split; [done|]. by intros [t Ht].
Qed.

Lemma timer_new k : timer scheduler_new k = None.
Proof. unfold timer. cbn. by rewrite lookup_empty. Qed.

Lemma timer_registry s k : scheduler_ok s → is_Some (timer s k) ↔ is_Some (registry s !! k).
Proof.
  intros Hok. unfold timer. destruct (registry s !! k) as [dk|] eqn:E; [|done].
  apply Hok in E as [t Ht]. rewrite Ht. cbn. split; eauto.
Qed.

Lemma scheduler_ok_fresh s k dk :
  scheduler_ok s → dq_entries (delay_queue s) !! dk = None → registry s !! k ≠ Some dk.
Proof. intros Hok Hdk Hk. apply Hok in Hk as [t Ht]. congruence. Qed.

(** A new entry for a key without one. *)
Lemma scheduler_insert s k dk t q :
  scheduler_ok s → registry s !! k = None → dq_entries (delay_queue s) !! dk = None →
  dq_entries q = <[dk := (k, t)]> (dq_entries (delay_queue s)) →
  let s' := mkScheduler (<[k := dk]> (registry s)) q in
  scheduler_ok s' ∧ ∀ k', timer s' k' = if decide (k' = k) then Some t else timer s k'.
Proof.
  intros Hok Hk Hdk Hq s'. split.
  - intros k' dk'. cbn. rewrite Hq, !lookup_insert. repeat case_decide; subst.
    + split; [eauto|done].
    + split; [intros [=]; done|]. intros [t' Ht'].
      assert (registry s !! k' = Some dk') by (apply Hok; eauto). congruence.
    + split; [|intros [t' [=]]; done]. intros Hk'. by apply scheduler_ok_fresh in Hk'.
    + apply Hok.
  - intros k'. unfold timer. cbn. rewrite Hq. rewrite lookup_insert.
    destruct (decide (k = k')) as [->|Hne].
    + rewrite lookup_insert_eq. by rewrite decide_True.
    + rewrite decide_False by done. destruct (registry s !! k') as [dk'|] eqn:E; [|done].
      rewrite lookup_insert_ne; [done|]. intros ->. by apply scheduler_ok_fresh in E.
Qed.

(** A new deadline for the entry of a key. *)
Lemma scheduler_reset s k dk t q :
  scheduler_ok s → registry s !! k = Some dk →
  dq_entries q = <[dk := (k, t)]> (dq_entries (delay_queue s)) →
  let s' := mkScheduler (registry s) q in
  scheduler_ok s' ∧ ∀ k', timer s' k' = if decide (k' = k) then Some t else timer s k'.
Proof.
  intros Hok Hk Hq s'. split.
  - intros k' dk'. cbn. rewrite Hq, lookup_insert. case_decide; subst; [|apply Hok].
    split.
    + intros Hk'. apply Hok in Hk as [t0 Ht0]. apply Hok in Hk' as [t1 Ht1].
      rewrite Ht0 in Ht1. simplify_eq. eauto.
    + by intros [t' [=]]; subst.
  - intros k'. unfold timer. cbn. rewrite Hq. destruct (decide (k' = k)) as [->|Hne].
    + rewrite Hk. by rewrite lookup_insert_eq.
    + destruct (registry s !! k') as [dk'|] eqn:E; [|done].
      rewrite lookup_insert_ne; [done|]. intros ->.
      apply Hok in Hk as [t0 Ht0]. apply Hok in E as [t1 Ht1]. congruence.
Qed.

(** The entry of a key removed. *)
Lemma scheduler_delete s k dk q :
  scheduler_ok s → registry s !! k = Some dk →
  dq_entries q = delete dk (dq_entries (delay_queue s)) →
  let s' := mkScheduler (delete k (registry s)) q in
  scheduler_ok s' ∧ ∀ k', timer s' k' = if decide (k' = k) then None else timer s k'.
Proof.
  intros Hok Hk Hq s'.
  assert (Hinj : ∀ k', registry s !! k' = Some dk → k' = k).
  { intros k' Hk'. apply Hok in Hk as [t0 Ht0]. apply Hok in Hk' as [t1 Ht1]. congruence. }
  split.
  - intros k' dk'. cbn. rewrite Hq, !lookup_delete. repeat case_decide; subst.
    + split; [done|by intros [? ?]].
    + split; [done|]. intros [t' Ht'].
      assert (registry s !! k' = Some dk') by (apply Hok; eauto). congruence.
    + split; [intros Hk'; by apply Hinj in Hk'|by intros [? ?]].
    + apply Hok.
  - intros k'. unfold timer. cbn. rewrite Hq, lookup_delete.
    destruct (decide (k = k')) as [->|Hne]; [by rewrite decide_True|].
    rewrite decide_False by done. destruct (registry s !! k') as [dk'|] eqn:E; [|done].
    rewrite lookup_delete_ne; [done|]. intros ->. by apply Hinj in E.
Qed.
End scheduler_facts.

(** ** Properties *)

(** What one iteration promises, on the map from keys to deadlines. *)
Definition sets_timer {DQ DK} `{Countable DK} `{!DelayQueue DQ DK}
    (s s' : Scheduler DQ DK) (k : Key) (t : option Z) : Prop :=
  ∀ k', timer s' k' = if decide (k' = k) then t else timer s k'.

Section scheduler_theorems.
Context {DQ DK : Type} `{Countable DK} `{!DelayQueue DQ DK} `{!DelayQueueLaws DQ DK}.
Context `{ChronoLaws}.
Implicit Types s : Scheduler DQ DK.

(** The run on an input, case by case. *)
Lemma handle_snooze_input_run alive utc_now inst_now input s :
  scheduler_ok s →
  ∃ s' calls o,
    handle_snooze_input alive utc_now inst_now input s =
      Ret (if alive then Ok tt else Err tt, s',
           calls ++ if alive then [SzOutcome o] else []) ∧
    scheduler_ok s' ∧
    match si_wake input with
    | None =>
        o = Accepted (si_key input) ∧ sets_timer s s' (si_key input) None ∧
        match timer s (si_key input) with
        | Some _ => calls = [SzMetric RecSnoozeCancel] ∧
                    size (registry s) = S (size (registry s'))
        | None => calls = [] ∧ size (registry s') = size (registry s)
        end
    | Some wake =>
        match timestamp_secs_to_instant utc_now inst_now wake with
        | None => o = InvalidWake (si_key input) ∧ s' = s ∧
                  calls = [SzMetric RecSnoozeInvalidWake]
        | Some t =>
            o = Accepted (si_key input) ∧ sets_timer s s' (si_key input) (Some t) ∧
            match timer s (si_key input) with
            | Some _ => calls = [] ∧ size (registry s') = size (registry s)
            | None => calls = [SzMetric RecSnoozeSet] ∧
                      size (registry s') = S (size (registry s))
            end
        end
    end.
Proof.
  intros Hok. destruct input as [k w]. unfold handle_snooze_input, snooze_from. cbn.
  pose proof (timer_registry s k Hok) as Htimer.
  destruct w as [w|]; cbn; [destruct (timestamp_secs_to_instant utc_now inst_now w) as [t|]|].
  - destruct (registry s !! k) as [dk|] eqn:Hk.
    + pose proof Hk as Hk'. apply Hok in Hk' as [t0 Ht0].
      destruct (dq_reset_entries dk k t0 t _ Ht0) as (q & Hq & Hqe).
      destruct (scheduler_reset s k dk t q Hok Hk Hqe) as [Hok' Ht'].
      destruct (proj2 Htimer) as [t1 Ht1]; [by eexists|].
      exists (mkScheduler (registry s) q), [], (Accepted k). rewrite Ht1.
      split; [|by auto]. eff_unfold. rewrite Hk, Hq. by destruct alive.
    + pose proof (dq_insert_entries k t (delay_queue s)) as Hins.
      destruct (dq_insert_at k t (delay_queue s)) as [dk q] eqn:Hq.
      destruct Hins as [Hfresh Hqe].
      destruct (scheduler_insert s k dk t q Hok Hk Hfresh Hqe) as [Hok' Ht'].
      assert (Hn : timer s k = None).
      { apply eq_None_not_Some. intros [? ?]%Htimer. done. }
      exists (mkScheduler (<[k := dk]> (registry s)) q), [SzMetric RecSnoozeSet], (Accepted k).
      rewrite Hn. split; [eff_unfold; rewrite Hk, Hq; by destruct alive|].
      split; [done|]. split; [done|]. split; [done|]. split; [done|].
      cbn. by rewrite map_size_insert_None.
  - exists s, [SzMetric RecSnoozeInvalidWake], (InvalidWake k).
    split; [eff_unfold; by destruct alive|auto].
  - destruct (registry s !! k) as [dk|] eqn:Hk.
    + pose proof Hk as Hk'. apply Hok in Hk' as [t0 Ht0].
      destruct (dq_remove_entries dk _ _ Ht0) as (q & Hq & Hqe).
      destruct (scheduler_delete s k dk q Hok Hk Hqe) as [Hok' Ht'].
      destruct (proj2 Htimer) as [t1 Ht1]; [by eexists|].
      exists (mkScheduler (delete k (registry s)) q), [SzMetric RecSnoozeCancel], (Accepted k).
      rewrite Ht1. split; [eff_unfold; rewrite Hk, Hq; by destruct alive|].
      split; [done|]. split; [done|]. split; [done|]. split; [done|].
      cbn. rewrite map_size_delete_Some by by eexists.
      assert (size (registry s) ≠ 0); [|lia]. apply map_size_non_empty_iff.
      intros E. by rewrite E, lookup_empty in Hk.
    + assert (Hn : timer s k = None).
      { apply eq_None_not_Some. intros [? ?]%Htimer. done. }
      exists s, [], (Accepted k). rewrite Hn.
      split; [eff_unfold; rewrite Hk; by destruct alive|].
      split; [done|]. split; [done|]. split; [|auto].
      intros k'. case_decide; [by subst|done].
Qed.

(** The run of the timer branch. *)
Lemma timer_iteration_run alive utc_now inst_now s :
  scheduler_ok s →
  (∃ k t s', timer s k = Some t ∧ (t ≤ inst_now)%Z ∧
     scheduler_iteration alive utc_now inst_now SzTimer s =
       Ret (alive, s', SzMetric RecSnoozeExpiration ::
                       if alive then [SzOutcome (Expired k)] else []) ∧
     scheduler_ok s' ∧ sets_timer s s' k None ∧
     size (registry s) = S (size (registry s'))) ∨
  ((dq_next inst_now (delay_queue s) = None ∨ registry s = ∅) ∧
   scheduler_iteration alive utc_now inst_now SzTimer s = Ret (true, s, [])).
Proof.
  intros Hok. unfold scheduler_iteration. eff_unfold.
  destruct (dq_is_empty (delay_queue s)) eqn:Hempty.
  { right. split; [right|done]. apply dq_is_empty_entries in Hempty. apply map_empty. intros k.
    apply eq_None_not_Some. intros [dk Hdk]. apply Hok in Hdk as [t Ht].
    by rewrite Hempty, lookup_empty in Ht. }
  destruct (dq_next inst_now (delay_queue s)) as [[k q]|] eqn:Hnext; [left|by right; split; [left|]].
  apply dq_next_Some in Hnext as (dk & t & Hdk & Hle & Hq).
  assert (Hk : registry s !! k = Some dk) by (apply Hok; eauto).
  destruct (scheduler_delete s k dk q Hok Hk Hq) as [Hok' Ht'].
  exists k, t, (mkScheduler (delete k (registry s)) q). split.
  { unfold timer. by rewrite Hk, Hdk. }
  split; [done|]. split; [by destruct alive|]. split; [done|]. split; [done|].
  cbn. rewrite map_size_delete_Some by by eexists.
  assert (size (registry s) ≠ 0); [|lia]. apply map_size_non_empty_iff.
  intros E. by rewrite E, lookup_empty in Hk.
Qed.

(** The scheduler never panics and never loses track of a timer: in every
    iteration the agreement between registry and delay queue is kept, so the queue
    is only ever asked about entries that it holds. *)
Theorem scheduler_never_panics alive utc_now inst_now e s :
  scheduler_ok s →
  ∃ go s' outs, scheduler_iteration alive utc_now inst_now e s = Ret (go, s', outs) ∧
    scheduler_ok s'.
Proof.
  intros Hok. destruct e as [input| |].
  - destruct (handle_snooze_input_run alive utc_now inst_now input s Hok)
      as (s' & calls & o & Hr & Hok' & _).
    cbn. eff_unfold. rewrite Hr. eauto.
  - destruct (timer_iteration_run alive utc_now inst_now s Hok)
      as [(k & t & s' & _ & _ & Hr & Hok' & _)|[_ Hr]]; eauto.
  - by eexists _, _, _.
Qed.

(** C26 Functional correctness of the commands, as a map from keys to deadlines: a
    valid wake time sets or replaces the timer of its key and is accepted, an
    invalid one is rejected and changes nothing, no wake time removes the timer
    and is accepted; no other key's timer is affected and exactly one outcome is
    sent. *)
Theorem snooze_command_spec utc_now inst_now k w s :
  scheduler_ok s →
  ∃ s' calls o,
    scheduler_iteration true utc_now inst_now
        (SzInput {| si_key := k; si_wake := w |}) s =
      Ret (true, s', map SzMetric calls ++ [SzOutcome o]) ∧
    match w ≫= timestamp_secs_to_instant utc_now inst_now, w with
    | Some t, _ => o = Accepted k ∧ sets_timer s s' k (Some t)
    | None, Some _ => o = InvalidWake k ∧ s' = s
    | None, None => o = Accepted k ∧ sets_timer s s' k None
    end.
Proof.
  intros Hok.
  destruct (handle_snooze_input_run true utc_now inst_now {| si_key := k; si_wake := w |} s Hok)
    as (s' & calls & o & Hr & _ & Hcases).
  cbn in Hcases. exists s'.
  assert (Hcalls : ∃ cs, calls = map SzMetric cs).
  { destruct w as [w|]; [destruct (timestamp_secs_to_instant _ _ w)|]; destruct_and!;
      repeat case_match; destruct_and?; subst; first [by exists []|by eexists [_]]. }
  destruct Hcalls as [cs ->]. exists cs, o. split.
  - cbn. eff_unfold. rewrite Hr. cbn. by rewrite app_nil_r.
  - destruct w as [w|]; cbn; [destruct (timestamp_secs_to_instant _ _ w)|]; tauto.
Qed.

(** Validity of a wake time: it is rejected exactly when chrono cannot represent
    it or it lies before the current wall-clock time; an accepted one becomes a
    deadline not before the current instant and at most [MAX_DELAY] ahead, exactly
    as far ahead as the wake time when that is within the cap. *)
Theorem wake_conversion_spec utc_now inst_now w :
  match timestamp_secs_to_instant utc_now inst_now w with
  | None => datetime_from_secs (seconds w) = None ∨ (seconds w * 1000000000 < utc_now)%Z
  | Some t =>
      (utc_now ≤ seconds w * 1000000000)%Z ∧ (inst_now ≤ t ≤ inst_now + MAX_DELAY)%Z ∧
      ((seconds w * 1000000000 - utc_now ≤ MAX_DELAY)%Z →
       (t - inst_now = seconds w * 1000000000 - utc_now)%Z)
  end.
Proof.
  unfold timestamp_secs_to_instant.
  destruct (datetime_from_secs (seconds w)) as [d|] eqn:Hd; [|by left].
  apply datetime_from_secs_value in Hd. rewrite timedelta_to_std_spec.
  destruct (Z.ltb_spec (d - utc_now) 0); unfold MAX_DELAY.
  - right. lia.
  - split; [lia|]. split; lia.
Qed.

(** A wake time equal to the current time is accepted and its timer is due at
    once: only strictly past times are rejected. *)
Theorem present_wake_accepted now_secs inst_now n :
  (-7889238000000 ≤ now_secs ≤ 7889238000000)%Z →
  timestamp_secs_to_instant (now_secs * 1000000000) inst_now
    {| seconds := now_secs; nanos := n |} = Some inst_now.
Proof.
  intros Hrange. unfold timestamp_secs_to_instant. cbn.
  destruct (datetime_from_secs_range now_secs Hrange) as [d Hd]. rewrite Hd.
  apply datetime_from_secs_value in Hd. rewrite timedelta_to_std_spec, Hd, Z.sub_diag. cbn.
  unfold MAX_DELAY. f_equal. lia.
Qed.

(** The metric calls among the outputs. *)
Definition sz_metrics (outs : list SzOut) : list MetricCall :=
  omap (λ o, match o with SzMetric c => Some c | _ => None end) outs.

(** What the metric calls of one iteration do to the gauge. *)
Lemma snooze_metrics_delta m calls (d : Z) :
  (d = 1 ∧ calls = [SzMetric RecSnoozeSet] ∨
   d = -1 ∧ (calls = [SzMetric RecSnoozeCancel] ∨ calls = [SzMetric RecSnoozeExpiration]) ∨
   d = 0 ∧ (calls = [] ∨ calls = [SzMetric RecSnoozeInvalidWake]))%Z →
  atomics (run_metric_calls m (sz_metrics calls)) in_flight_snooze_timers =
    if decide (d = 0)%Z then atomics m in_flight_snooze_timers
    else u64_wrapping_add (atomics m in_flight_snooze_timers) d.
Proof.
  intros [[-> ->]|[[-> [-> | ->]]|[-> [-> | ->]]]]; done.
Qed.

(** The gauge of in-flight timers is exact: if it equals the number of live
    timers before an iteration, it does so after the iteration's metric calls,
    modulo the width of the counter. *)
Theorem snooze_gauge_exact alive utc_now inst_now e s go s' outs m :
  scheduler_ok s →
  scheduler_iteration alive utc_now inst_now e s = Ret (go, s', outs) →
  atomics m in_flight_snooze_timers = (Z.of_nat (size (registry s)) mod u64_modulus)%Z →
  atomics (run_metric_calls m (sz_metrics outs)) in_flight_snooze_timers =
    (Z.of_nat (size (registry s')) mod u64_modulus)%Z.
Proof.
  intros Hok Hrun Hm.
  assert (Hcall : ∀ calls (d : Z),
    (Z.of_nat (size (registry s')) = Z.of_nat (size (registry s)) + d)%Z →
    (d = 1 ∧ calls = [SzMetric RecSnoozeSet] ∨
     d = -1 ∧ (calls = [SzMetric RecSnoozeCancel] ∨ calls = [SzMetric RecSnoozeExpiration]) ∨
     d = 0 ∧ (calls = [] ∨ calls = [SzMetric RecSnoozeInvalidWake]))%Z →
    ∀ os, sz_metrics os = [] →
    atomics (run_metric_calls m (sz_metrics (calls ++ os))) in_flight_snooze_timers =
    (Z.of_nat (size (registry s')) mod u64_modulus)%Z).
  { intros calls d Hd Hcalls os Hos. unfold sz_metrics in *. rewrite omap_app, Hos, app_nil_r, Hd.
    change (omap _ calls) with (sz_metrics calls).
    rewrite (snooze_metrics_delta m _ d), Hm by done.
    case_decide as Hz; [by rewrite Hz, Z.add_0_r|]. apply u64_wrapping_add_mod_l. }
  destruct e as [input| |].
  - destruct (handle_snooze_input_run alive utc_now inst_now input s Hok)
      as (s1 & calls & o & Hr & _ & Hcases).
    cbn in Hrun. eff_unfold. rewrite Hr in Hrun. simplify_eq. rewrite app_nil_r.
    apply (Hcall _ (Z.of_nat (size (registry s')) - Z.of_nat (size (registry s)))%Z);
      [lia| |by destruct alive].
    destruct (si_wake input); [destruct (timestamp_secs_to_instant _ _ _)|];
      repeat case_match; destruct_and!; subst; simplify_eq; auto 10 with lia.
  - destruct (timer_iteration_run alive utc_now inst_now s Hok)
      as [(k & t & s1 & _ & _ & Hr & _ & _ & Hsize)|[_ Hr]]; rewrite Hr in Hrun; simplify_eq.
    + apply (Hcall [SzMetric RecSnoozeExpiration] (-1)%Z); [lia|auto|by destruct go].
    + by apply (Hcall [] 0%Z); [lia|auto|].
  - cbn in Hrun. eff_unfold. simplify_eq. by apply (Hcall [] 0%Z); [lia|auto|].
Qed.
End scheduler_theorems.

(** ** Witnesses *)

Definition sz_key : Key := {| key_device := "G:DEV"; key_source := Source.Epics |}.

Definition sample_scheduler : Scheduler (gmap nat (Key * Z)) nat :=
  mkScheduler {[ sz_key := 7 ]} {[ 7 := (sz_key, 5000000000%Z) ]}.

Lemma sample_scheduler_ok : scheduler_ok sample_scheduler.
Proof.
  intros k dk. cbn [registry delay_queue sample_scheduler dq_entries sample_queue].
  rewrite lookup_singleton_Some. split.
  - intros [<- <-]. eexists. by rewrite lookup_singleton_eq.
  - intros [t [<- [= <- <-]]%lookup_singleton_Some]. done.
Qed.

Lemma scheduler_never_panics_witness :
  ∃ go s' outs,
    scheduler_iteration true 0 0 (SzInput {| si_key := sz_key; si_wake := None |})
      sample_scheduler = Ret (go, s', outs) ∧ scheduler_ok s'.
Proof.
  apply (scheduler_never_panics true 0 0 _ sample_scheduler), sample_scheduler_ok.
Defined.

Definition wake_at (s : Z) : Timestamp := {| seconds := s; nanos := 0 |}.

Lemma snooze_command_spec_witness :
  ∃ s' calls o,
    scheduler_iteration true 0 0 (SzInput {| si_key := sz_key; si_wake := Some (wake_at 9) |})
      sample_scheduler = Ret (true, s', map SzMetric calls ++ [SzOutcome o]) ∧
    match Some (wake_at 9) ≫= timestamp_secs_to_instant 0 0, Some (wake_at 9) with
    | Some t, _ => o = Accepted sz_key ∧ sets_timer sample_scheduler s' sz_key (Some t)
    | None, Some _ => o = InvalidWake sz_key ∧ s' = sample_scheduler
    | None, None => o = Accepted sz_key ∧ sets_timer sample_scheduler s' sz_key None
    end.
Proof.
  apply (snooze_command_spec 0 0 sz_key (Some (wake_at 9)) sample_scheduler),
    sample_scheduler_ok.
Defined.

Lemma wake_conversion_spec_witness :
  match timestamp_secs_to_instant 1000 50 (wake_at 2) with
  | None => datetime_from_secs (seconds (wake_at 2)) = None ∨
            (seconds (wake_at 2) * 1000000000 < 1000)%Z
  | Some t =>
      (1000 ≤ seconds (wake_at 2) * 1000000000)%Z ∧ (50 ≤ t ≤ 50 + MAX_DELAY)%Z ∧
      ((seconds (wake_at 2) * 1000000000 - 1000 ≤ MAX_DELAY)%Z →
       (t - 50 = seconds (wake_at 2) * 1000000000 - 1000)%Z)
  end.
Proof. apply (wake_conversion_spec 1000 50 (wake_at 2)). Defined.

Lemma present_wake_accepted_witness :
  timestamp_secs_to_instant (1700000000 * 1000000000) 42
    {| seconds := 1700000000; nanos := 0 |} = Some 42%Z.
Proof. apply (present_wake_accepted 1700000000 42 0). lia. Defined.

Lemma snooze_gauge_exact_witness :
  ∃ s' outs,
    scheduler_iteration true 0 0 (SzInput {| si_key := sz_key; si_wake := None |})
      sample_scheduler = Ret (true, s', outs) ∧
    atomics (run_metric_calls (set_atomic in_flight_snooze_timers 1
               (metrics_new (mkQueueCapacityConfig 1 1 1 1 1)))
               (sz_metrics outs)) in_flight_snooze_timers =
      (Z.of_nat (size (registry s')) mod u64_modulus)%Z.
Proof.
  eexists _, _. split; [reflexivity|].
  eapply (snooze_gauge_exact true 0 0 (SzInput {| si_key := sz_key; si_wake := None |})
            sample_scheduler true);
    [apply sample_scheduler_ok|reflexivity|vm_compute; reflexivity].
Defined.
