(* ===== verification/Timers.v ===== *)
(** * The snooze scheduler as a map of deadlines

    A specification of [run_snooze_scheduler] that knows neither the registry nor the
    delay queue, only which key is to be woken when; the loop refines it, and every timer
    it holds fires once the clock is far enough. *)

From S2P Require Export Snooze.

(** ** The specification *)

Section specification.
Context `{Chrono}.

(** The deadline of a usable wake time: as far ahead on the monotonic clock as the wake
    time is on the wall clock, at most a year. *)
Definition wakes_at (utc_now inst_now : Z) (w : Timestamp) (t : Z) : Prop :=
  is_Some (datetime_from_secs (seconds w)) ∧ (utc_now ≤ seconds w * 1000000000)%Z ∧
  t = (inst_now + Z.min (seconds w * 1000000000 - utc_now) (365 * 24 * 3600 * 1000000000))%Z.

Definition rejected_wake (utc_now : Z) (w : Timestamp) : Prop :=
  datetime_from_secs (seconds w) = None ∨ (seconds w * 1000000000 < utc_now)%Z.

(** What an event does to the deadlines, and what is sent and counted. *)
Inductive timers_step (utc_now inst_now : Z) (T : gmap Key Z) :
    SzEvent → gmap Key Z → list SzOut → Prop :=
| ts_set k w t :
    wakes_at utc_now inst_now w t → T !! k = None →
    timers_step utc_now inst_now T (SzInput {| si_key := k; si_wake := Some w |})
      (<[k := t]> T) [SzMetric RecSnoozeSet; SzOutcome (Accepted k)]
| ts_replace k w t t0 :
    wakes_at utc_now inst_now w t → T !! k = Some t0 →
    timers_step utc_now inst_now T (SzInput {| si_key := k; si_wake := Some w |})
      (<[k := t]> T) [SzOutcome (Accepted k)]
| ts_refuse k w :
    rejected_wake utc_now w →
    timers_step utc_now inst_now T (SzInput {| si_key := k; si_wake := Some w |})
      T [SzMetric RecSnoozeInvalidWake; SzOutcome (InvalidWake k)]
| ts_cancel k t :
    T !! k = Some t →
    timers_step utc_now inst_now T (SzInput {| si_key := k; si_wake := None |})
      (delete k T) [SzMetric RecSnoozeCancel; SzOutcome (Accepted k)]
| ts_nothing k :
    T !! k = None →
    timers_step utc_now inst_now T (SzInput {| si_key := k; si_wake := None |})
      T [SzOutcome (Accepted k)]
| ts_expire k t :
    T !! k = Some t → (t ≤ inst_now)%Z →
    timers_step utc_now inst_now T SzTimer
      (delete k T) [SzMetric RecSnoozeExpiration; SzOutcome (Expired k)]
| ts_wait : timers_step utc_now inst_now T SzTimer T [].

(** What the loop yields, with what the two clocks show. *)
Definition SzPoll : Type := Z * Z * SzEvent.

Inductive timers_run : gmap Key Z → list SzPoll → gmap Key Z → list SzOut → Prop :=
| tr_nil T : timers_run T [] T []
| tr_else T u i es : timers_run T ((u, i, SzElse) :: es) T []
| tr_cons T u i e es T1 o1 T2 o2 :
    timers_step u i T e T1 o1 → timers_run T1 es T2 o2 →
    timers_run T ((u, i, e) :: es) T2 (o1 ++ o2).
End specification.

(** ** The loop *)

Section loop.
Context {DQ DK : Type} `{Countable DK} `{!DelayQueue DQ DK} `{Chrono}.

(** The [loop] of [run_snooze_scheduler], for the events of its [select!]. *)
Fixpoint run_snooze_scheduler (outcome_rx_alive : bool) (es : list SzPoll) :
    Eff (Scheduler DQ DK) SzOut unit :=
  match es with
  | [] => mret tt
  | (utc_now, inst_now, e) :: es' =>
      go ← scheduler_iteration outcome_rx_alive utc_now inst_now e;
      if go : bool then run_snooze_scheduler outcome_rx_alive es' else mret tt
  end.

(** The keys reported as expired. *)
Definition expired (outs : list SzOut) : list Key :=
  omap (λ o, match o with SzOutcome (Expired k) => Some k | _ => None end) outs.

(** Polls of the delay queue at successive times of a clock. *)
Fixpoint timer_polls (utc_now : Z) (clock : nat → Z) (n : nat) : list SzPoll :=
  match n with
  | O => []
  | S n' => (utc_now, clock O, SzTimer) :: timer_polls utc_now (λ i, clock (S i)) n'
  end.
End loop.

(** ** The loop refines the specification *)

Section refinement.
Context {DQ DK : Type} `{Countable DK} `{!DelayQueue DQ DK} `{!DelayQueueLaws DQ DK}.
Context `{ChronoLaws}.
Implicit Types (s : Scheduler DQ DK) (T : gmap Key Z).

(** The scheduler holds exactly these timers. *)
Definition holds s T : Prop := scheduler_ok s ∧ ∀ k, timer s k = T !! k.

Lemma holds_insert s s' T k t :
  holds s T → scheduler_ok s' → sets_timer s s' k (Some t) → holds s' (<[k := t]> T).
Proof.
  intros [_ HT] Hok' Hset. split; [done|]. intros k'. rewrite Hset, lookup_insert, HT.
  by repeat case_decide.
Qed.

Lemma holds_delete s s' T k :
  holds s T → scheduler_ok s' → sets_timer s s' k None → holds s' (delete k T).
Proof.
  intros [_ HT] Hok' Hset. split; [done|]. intros k'. rewrite Hset, lookup_delete, HT.
  by repeat case_decide.
Qed.

Lemma holds_dom s T : holds s T → dom (registry s) = dom T.
Proof.
  intros [Hok HT]. apply set_eq. intros k. rewrite !elem_of_dom, <- HT. symmetry. by apply timer_registry.
Qed.

Lemma conversion_spec utc_now inst_now w :
  match timestamp_secs_to_instant utc_now inst_now w with
  | Some t => wakes_at utc_now inst_now w t
  | None => rejected_wake utc_now w
  end.
Proof.
  unfold timestamp_secs_to_instant, wakes_at, rejected_wake.
  destruct (datetime_from_secs (seconds w)) as [d|] eqn:Hd; [|by left].
  apply datetime_from_secs_value in Hd as ->. rewrite timedelta_to_std_spec.
  destruct (Z.ltb_spec (seconds w * 1000000000 - utc_now) 0); [right; lia|].
  split; [by eexists|]. split; [lia|done].
Qed.

(** One iteration on what the queue or a client yields. *)
Lemma iteration_refines utc_now inst_now e s T :
  holds s T → e ≠ SzElse →
  ∃ s' outs T', scheduler_iteration true utc_now inst_now e s = Ret (true, s', outs) ∧
    timers_step utc_now inst_now T e T' outs ∧ holds s' T'.
Proof.
  intros HT He. pose proof HT as [Hok Htimer]. destruct e as [[k w]| |]; [| |done].
  - destruct (handle_snooze_input_run true utc_now inst_now {| si_key := k; si_wake := w |} s Hok)
      as (s' & calls & o & Hr & Hok' & Hcases).
    cbn [si_key si_wake] in Hcases. rewrite Htimer in Hcases.
    cbn [scheduler_iteration]. eff_unfold. rewrite Hr. cbn. rewrite app_nil_r.
    destruct w as [w|]; [pose proof (conversion_spec utc_now inst_now w) as Hw;
      destruct (timestamp_secs_to_instant utc_now inst_now w) as [t|]|].
    + destruct Hcases as (-> & Hset & Hcalls). exists s', (calls ++ [SzOutcome (Accepted k)]), (<[k := t]> T).
      split; [done|]. split; [|by eapply holds_insert].
      destruct (T !! k) eqn:E; destruct Hcalls as [-> _]; by econstructor.
    + destruct Hcases as (-> & -> & ->). eexists s, _, T. split; [done|]. split; [by constructor|done].
    + destruct Hcases as (-> & Hset & Hcalls).
      exists s', (calls ++ [SzOutcome (Accepted k)]), (delete k T).
      split; [done|]. split; [|by eapply holds_delete].
      destruct (T !! k) eqn:E; destruct Hcalls as [-> _]; [by econstructor|].
      rewrite delete_id by done. by econstructor.
  - destruct (timer_iteration_run true utc_now inst_now s Hok)
      as [(k & t & s' & Ht & Hle & Hr & Hok' & Hset & _)|[_ Hr]]; rewrite Hr.
    + rewrite Htimer in Ht. eexists s', _, (delete k T). split; [done|].
      split; [by econstructor|by eapply holds_delete].
    + eexists s, _, T. split; [done|]. split; [constructor|done].
Qed.

Lemma loop_refines es s T :
  holds s T →
  ∃ s' outs T', run_snooze_scheduler true es s = Ret (tt, s', outs) ∧
    timers_run T es T' outs ∧ holds s' T'.
Proof.
  revert s T. induction es as [|[[u i] e] es IH]; intros s T HT.
  { eexists s, _, T. split; [done|]. split; [constructor|done]. }
  cbn [run_snooze_scheduler]. eff_unfold. assert (He : e = SzElse ∨ e ≠ SzElse) by (destruct e; auto).
  destruct He as [->|He].
  { eexists s, _, T. split; [done|]. split; [constructor|done]. }
  destruct (iteration_refines u i e s T HT He) as (s1 & o1 & T1 & Hr & Hstep & HT1). rewrite Hr.
  destruct (IH s1 T1 HT1) as (s2 & o2 & T2 & Hrun & Hspec & HT2). rewrite Hrun.
  eexists s2, _, T2. split; [done|]. split; [by econstructor|done].
Qed.
End refinement.

(** ** Every timer fires *)

Section liveness.
Context {DQ DK : Type} `{Countable DK} `{!DelayQueue DQ DK} `{!DelayQueueLaws DQ DK}.
Context `{ChronoLaws}.
Implicit Types (s : Scheduler DQ DK) (T : gmap Key Z).

(** A clock that passes every time for good. *)
Definition advances (clock : nat → Z) : Prop := ∀ t, ∃ n, ∀ m, n ≤ m → (t ≤ clock m)%Z.

Lemma advances_tail clock : advances clock → advances (λ i, clock (S i)).
Proof. intros Hc t. destruct (Hc t) as [n Hn]. exists n. intros m Hm. apply Hn. lia. Qed.

(** With a timer left, some poll late enough is sure to fire one. *)
Lemma some_timer_due s T :
  holds s T → T ≠ ∅ → ∃ t0, ∀ now, (t0 ≤ now)%Z → dq_next now (delay_queue s) ≠ None ∧ registry s ≠ ∅.
Proof.
  intros HT Hne. pose proof HT as [Hok _]. apply map_choose in Hne as (k & t & Hk).
  assert (Hr : is_Some (registry s !! k)).
  { apply elem_of_dom. rewrite (holds_dom s T HT). apply elem_of_dom. eauto. }
  destruct Hr as [dk Hdk]. pose proof Hdk as Hreg. apply Hok in Hdk as [t' Ht'].
  destruct (dq_next_eventually (delay_queue s)) as [t0 Ht0].
  { intros E. by rewrite E, lookup_empty in Ht'. }
  exists t0. intros now Hnow. split; [by apply not_eq_None_Some, Ht0|].
  intros E. by rewrite E, lookup_empty in Hreg.
Qed.

(** A poll fires one of the timers, or it changes nothing and the queue had none due. *)
Lemma poll_cases utc_now inst_now s T :
  holds s T →
  (∃ k s', T !! k ≠ None ∧ holds s' (delete k T) ∧
     scheduler_iteration true utc_now inst_now SzTimer s =
       Ret (true, s', [SzMetric RecSnoozeExpiration; SzOutcome (Expired k)])) ∨
  ((dq_next inst_now (delay_queue s) = None ∨ registry s = ∅) ∧
   scheduler_iteration true utc_now inst_now SzTimer s = Ret (true, s, [])).
Proof.
  intros HT. pose proof HT as [Hok Htimer].
  destruct (timer_iteration_run true utc_now inst_now s Hok)
    as [(k & t & s' & Ht & _ & Hr & Hok' & Hset & _)|Hwait]; [left|by right].
  exists k, s'. rewrite <- Htimer, Ht. split; [done|]. split; [by eapply holds_delete|done].
Qed.

Lemma expired_keys_delete T k (l : list Key) :
  T !! k ≠ None → l ≡ₚ elements (dom (delete k T)) → k :: l ≡ₚ elements (dom T).
Proof.
  intros [t Hk]%not_eq_None_Some ->. rewrite dom_delete_L.
  rewrite <- elements_union_singleton by set_solver. f_equiv.
  intros k'. destruct (decide (k' = k)) as [->|]; [|set_solver].
  rewrite elem_of_union, elem_of_singleton, elem_of_dom. split; eauto.
Qed.

Lemma polls_fire_all utc_now clock s T :
  holds s T → advances clock →
  ∃ n s' outs, run_snooze_scheduler true (timer_polls utc_now clock n) s = Ret (tt, s', outs) ∧
    holds s' ∅ ∧ expired outs ≡ₚ elements (dom T).
Proof.
  intros HT Hclock. remember (size T) as sz eqn:Hsz.
  revert s T clock HT Hclock Hsz. induction sz as [|sz IHsz]; intros s T clock HT Hclock Hsz.
  { symmetry in Hsz. apply map_size_empty_iff in Hsz. subst T. by exists 0, s, []. }
  assert (Hne : T ≠ ∅) by (intros ->; by rewrite map_size_empty in Hsz).
  destruct (some_timer_due s T HT Hne) as [t0 Hdue]. destruct (Hclock t0) as [n0 Hn0].
  revert clock Hclock Hn0. induction n0 as [|n0 IHn]; intros clock Hclock Hn0.
  all: destruct (poll_cases utc_now (clock 0) s T HT) as [(k & s1 & Hk & HT1 & Hr)|[Hno Hr]].
  1,3: destruct (IHsz s1 (delete k T) (λ i, clock (S i)) HT1 (advances_tail _ Hclock))
         as (n & s' & outs & Hrun & HT' & Hexp);
       [apply not_eq_None_Some in Hk; rewrite map_size_delete_Some by done; lia|];
       exists (S n), s', ([SzMetric RecSnoozeExpiration; SzOutcome (Expired k)] ++ outs);
       (split; [cbn [timer_polls run_snooze_scheduler]; eff_unfold; by rewrite Hr, Hrun|]);
       (split; [done|]); by apply (expired_keys_delete T k (expired outs)).
  - exfalso. destruct (Hdue (clock 0)) as [Hn Hreg]; [apply Hn0; lia|]. by destruct Hno.
  - destruct (IHn (λ i, clock (S i)) (advances_tail _ Hclock)) as (n & s' & outs & Hrun & HT' & Hexp).
    { intros m Hm. apply Hn0. lia. }
    exists (S n), s', outs. split; [|done].
    cbn [timer_polls run_snooze_scheduler]. eff_unfold. by rewrite Hr, Hrun.
Qed.

Lemma holds_new : holds scheduler_new ∅.
Proof. split; [apply scheduler_new_ok|]. intros k. by rewrite timer_new, lookup_empty. Qed.

(** C27 The scheduler is a map of deadlines: whatever commands and polls of the delay queue
    its loop sees from its start, it never panics, and what it sends and counts is a run
    of the specification: a timer expires only after its deadline, at most once and only
    while it has been neither cancelled nor replaced by a later one, and the registry
    holds exactly the keys with a timer.  And none is forgotten: afterwards, on any clock
    that advances, finitely many polls report every key that has a timer, exactly once,
    and leave none. *)
Theorem scheduler_refines_timers es :
  ∃ s outs T, run_snooze_scheduler (DQ := DQ) (DK := DK) true es scheduler_new = Ret (tt, s, outs) ∧
    timers_run ∅ es T outs ∧ (∀ k, timer s k = T !! k) ∧ dom (registry s) = dom T ∧
    ∀ utc_now clock, advances clock →
    ∃ n s' outs', run_snooze_scheduler true (timer_polls utc_now clock n) s = Ret (tt, s', outs') ∧
      registry s' = ∅ ∧ expired outs' ≡ₚ elements (dom T).
Proof.
  destruct (loop_refines es scheduler_new ∅ holds_new) as (s & outs & T & Hrun & Hspec & HT).
  exists s, outs, T. split; [done|]. split; [done|]. split; [apply HT|].
  split; [by apply holds_dom|]. intros utc_now clock Hclock.
  destruct (polls_fire_all utc_now clock s T HT Hclock) as (n & s' & outs' & Hpolls & HT' & Hexp).
  exists n, s', outs'. split; [done|]. split; [|done].
  apply dom_empty_inv_L. rewrite (holds_dom s' ∅ HT'). apply dom_empty_L.
Qed.
End liveness.

(** ** A sample *)

(** A timer is set, fires, and is set again for the same key. *)
Definition sample_polls : list SzPoll :=
  [(0%Z, 0%Z, SzInput {| si_key := sz_key; si_wake := Some (wake_at 9) |});
   (9000000000%Z, 9000000000%Z, SzTimer);
   (9000000000%Z, 9000000000%Z, SzInput {| si_key := sz_key; si_wake := Some (wake_at 12) |})].

Definition sample_after : Scheduler (gmap nat (Key * Z)) nat :=
  match run_snooze_scheduler true sample_polls scheduler_new with
  | Ret (_, s, _) => s
  | Panic _ => scheduler_new
  end.

Lemma nanoseconds_advance : advances Z.of_nat.
Proof. intros t. exists (Z.to_nat t). lia. Qed.

(** The second timer fires, once. *)
Lemma scheduler_refines_timers_witness :
  timer sample_after sz_key = Some 12000000000%Z ∧
  ∃ n s' outs',
    run_snooze_scheduler true (timer_polls 0 Z.of_nat n) sample_after = Ret (tt, s', outs') ∧
    registry s' = ∅ ∧ expired outs' = [sz_key].
Proof.
  destruct (scheduler_refines_timers (DQ := gmap nat (Key * Z)) (DK := nat) sample_polls)
    as (s & outs & T & Hrun & _ & _ & Hdom & Hall).
  assert (Hs : s = sample_after) by (unfold sample_after; by rewrite Hrun).
  rewrite Hs in *. split; [by vm_compute|].
  destruct (Hall 0%Z Z.of_nat nanoseconds_advance) as (n & s' & outs' & Hpolls & Hnil & Hexp).
  exists n, s', outs'. split; [exact Hpolls|]. split; [exact Hnil|].
  rewrite <- Hdom in Hexp. apply Permutation_singleton_r. rewrite Hexp. vm_compute. reflexivity.
Defined.
