(* ===== verification/PublishEngine.v ===== *)
(** * Publish engine ([effects/publish.rs])

    Requests become attempts in flight; a completed attempt is reported, at once
    for a user request and in batches for automated ones, or retried.  The
    [FuturesUnordered] is the list of attempts in flight, of which any started one
    may complete next; an [async] attempt starts when it is first polled.  The
    broker ([Publisher]) decides when and how an attempt completes. *)

From S2P Require Export Model Metrics.

Definition BATCH_SIZE : nat := 50.
Definition MAX_DELIVERY_ATTEMPTS : Z := 2.

(** A call of [deliver_attempt] in flight. *)
Record Delivery := mkDelivery {
  attempt : PublishAttempt;
  started : bool;
}.

(** The local variables of [run_publish_engine]. *)
Record PublishEngine := mkPublishEngine {
  in_flight : list Delivery;
  completed_batch : list PublishResult;
}.

Inductive PeOut :=
| PeOutcome (outcome : PublishOutcome)
| PeMessage (key body : string)
| PeMetric (call : MetricCall).

(** What the [select!] of the loop yields, and the polling of a new attempt that
    precedes any wait. *)
Inductive PeEvent :=
| PeStart (i : nat)
| PeComplete (i : nat) (delivered : bool) (latency : Z)
| PeTick
| PeRecv (publish : Publish)
| PeElse.

Definition engine_new : PublishEngine := mkPublishEngine [] [].

(** [alarm_to_message]: the key and the body of the [StringMessage]. *)
Definition alarm_to_message `{StatusJson} {S} (key : Key) (payload : Status) :
    Eff S PeOut (string * string) :=
  message_body ← expect (json_to_string payload) "Status should be JSON serializable";
  mret (key_display key, message_body).

Definition set_in_flight (f : list Delivery → list Delivery) : Eff PublishEngine PeOut unit :=
  modify (λ s, mkPublishEngine (f (in_flight s)) (completed_batch s)).
Definition set_batch (f : list PublishResult → list PublishResult) :
    Eff PublishEngine PeOut unit :=
  modify (λ s, mkPublishEngine (in_flight s) (f (completed_batch s))).

(** [in_flight.push(deliver_attempt(..))]. *)
Definition push_attempt (a : PublishAttempt) : Eff PublishEngine PeOut unit :=
  set_in_flight (λ l, l ++ [mkDelivery a false]).

(** The part of [deliver_attempt] before its [await]. *)
Definition deliver_attempt `{StatusJson} (i : nat) (a : PublishAttempt) :
    Eff PublishEngine PeOut unit :=
  emit (PeMetric RecPublishAttemptStarted) ;;
  let details := attempt_details_ref a in
  record ← alarm_to_message (pd_key details) (pd_status details);
  emit (PeMessage record.1 record.2) ;;
  set_in_flight (λ l, <[i := mkDelivery a true]> l).

Section engine.
Context `{StatusJson} (port_alive : bool).

Definition port_send (o : PublishOutcome) : Eff PublishEngine PeOut unit :=
  channel_send port_alive (PeOutcome o) ;; mret tt.

Definition flush_completed_batch : Eff PublishEngine PeOut unit :=
  s ← get;
  let batch := completed_batch s in
  set_batch (λ _, []) ;;
  port_send (PubBatch batch).

Definition handle_completed_work (completed_work : SymmetricalResult PublishAttempt) :
    Eff PublishEngine PeOut unit :=
  let is_user := is_user_initiated (request (inner_ref completed_work)) in
  let response := sym_map completed_work (λ inner, pd_key (into_details (request inner))) in
  if is_user then port_send (PubSingle response)
  else
    set_batch (λ b, b ++ [response]) ;;
    s ← get;
    if (BATCH_SIZE <=? length (completed_batch s))%nat then flush_completed_batch
    else mret tt.

(** The branch of the [select!] for a completed attempt. *)
Definition handle_completion (r : SymmetricalResult PublishAttempt) (latency : Z) :
    Eff PublishEngine PeOut unit :=
  match r with
  | SymOk a =>
      emit (PeMetric (RecPublishCompletion Success latency)) ;;
      handle_completed_work (SymOk a)
  | SymErr a =>
      if (attempt_count a <? MAX_DELIVERY_ATTEMPTS)%Z then
        emit (PeMetric (RecPublishCompletion Failure latency)) ;;
        emit (PeMetric RecPublishRetry) ;;
        push_attempt (increment_attempt a)
      else
        emit (PeMetric (RecPublishCompletion Failure latency)) ;;
        handle_completed_work (SymErr a)
  end.

(** One iteration of the loop: [true] to go on, [false] to break. *)
Definition engine_iteration (e : PeEvent) : Eff PublishEngine PeOut bool :=
  match e with
  | PeStart i =>
      s ← get;
      match in_flight s !! i with
      | Some d => deliver_attempt i (attempt d) ;; mret true
      | None => mret true
      end
  | PeComplete i delivered latency =>
      s ← get;
      match in_flight s !! i with
      | Some d =>
          set_in_flight (delete i) ;;
          handle_completion (if delivered then SymOk (attempt d) else SymErr (attempt d))
            latency ;;
          mret true
      | None => mret true
      end
  | PeTick =>
      s ← get;
      if bool_decide (completed_batch s = []) then mret true
      else flush_completed_batch ;; mret true
  | PeRecv publish =>
      push_attempt (publish_attempt_new publish) ;;
      mret true
  | PeElse => mret false
  end.
End engine.

(** Which events can occur in a state: an attempt starts once and completes after
    it has started.  The ticking interval is always armed, so the [else] branch is
    never taken. *)
Definition engine_ready (s : PublishEngine) (e : PeEvent) : bool :=
  match e with
  | PeStart i => match in_flight s !! i with Some d => negb (started d) | None => false end
  | PeComplete i _ _ => match in_flight s !! i with Some d => started d | None => false end
  | PeTick | PeRecv _ => true
  | PeElse => false
  end.

(** Histories of the loop from its start: the requests received, the state, and
    the outputs so far. *)
Inductive engine_history `{StatusJson} (port_alive : bool) :
    list Publish → PublishEngine → list PeOut → Prop :=
| engine_history_new : engine_history port_alive [] engine_new []
| engine_history_step received s outs e go s' outs' :
    engine_history port_alive received s outs →
    engine_ready s e = true →
    engine_iteration port_alive e s = Ret (go, s', outs') →
    engine_history port_alive
      (received ++ match e with PeRecv p => [p] | _ => [] end) s' (outs ++ outs').

(** ** Runs of the branches *)

Definition keep_as {T U} (r : SymmetricalResult T) (u : U) : SymmetricalResult U :=
  sym_map r (λ _, u).

Definition request_key (p : Publish) : Key := pd_key (details_ref p).

(** The outputs of a reported completion: [None] when it stays in the batch. *)
Definition report (alive : bool) (o : PublishOutcome) : list PeOut :=
  if alive then [PeOutcome o] else [].

Section runs.
Context `{StatusJsonLaws} (alive : bool).
Implicit Types s : PublishEngine.

Lemma port_send_run o s : port_send alive o s = Ret (tt, s, report alive o).
Proof. unfold port_send, report. eff_unfold. by destruct alive. Qed.

Lemma flush_run s :
  flush_completed_batch alive s =
  Ret (tt, mkPublishEngine (in_flight s) [], report alive (PubBatch (completed_batch s))).
Proof. unfold flush_completed_batch, set_batch. eff_unfold. by rewrite port_send_run. Qed.

(** A final result is reported at once, batched, or the batch's last one. *)
Lemma handle_completed_work_run r s :
  handle_completed_work alive r s =
  let a := inner_ref r in
  let res := keep_as r (request_key (request a)) in
  let batch := completed_batch s ++ [res] in
  if is_user_initiated (request a) then Ret (tt, s, report alive (PubSingle res))
  else if (BATCH_SIZE <=? length batch)%nat
       then Ret (tt, mkPublishEngine (in_flight s) [], report alive (PubBatch batch))
       else Ret (tt, mkPublishEngine (in_flight s) batch, []).
Proof.
  assert (Hres : sym_map r (λ inner, pd_key (into_details (request inner))) =
                 keep_as r (request_key (request (inner_ref r)))).
  { by destruct r as [[[] ?]|[[] ?]]. }
  unfold handle_completed_work. rewrite Hres. cbn zeta.
  destruct (is_user_initiated _); [by rewrite port_send_run|].
  unfold set_batch. eff_unfold. cbn [completed_batch in_flight].
  destruct (BATCH_SIZE <=? _)%nat; [|done]. by rewrite flush_run.
Qed.

Lemma start_run i a s :
  in_flight s !! i = Some (mkDelivery a false) →
  ∃ body, json_to_string (pd_status (details_ref (request a))) = Some body ∧
  engine_iteration alive (PeStart i) s =
  Ret (true, mkPublishEngine (<[i := mkDelivery a true]> (in_flight s)) (completed_batch s),
       [PeMetric RecPublishAttemptStarted;
        PeMessage (key_display (request_key (request a))) body]).
Proof.
  intros Hi. destruct (json_to_string_total (pd_status (details_ref (request a)))) as [body Hb].
  exists body. split; [done|]. cbn [engine_iteration].
  unfold deliver_attempt, alarm_to_message, set_in_flight, attempt_details_ref. eff_unfold.
  rewrite Hi. cbn [attempt]. by rewrite Hb.
Qed.

Lemma retry_run i a latency s :
  in_flight s !! i = Some (mkDelivery a true) → (attempt_count a < MAX_DELIVERY_ATTEMPTS)%Z →
  engine_iteration alive (PeComplete i false latency) s =
  Ret (true, mkPublishEngine (delete i (in_flight s) ++ [mkDelivery (increment_attempt a) false])
               (completed_batch s),
       [PeMetric (RecPublishCompletion Failure latency); PeMetric RecPublishRetry]).
Proof.
  intros Hi Hlt. cbn [engine_iteration].
  unfold handle_completion, push_attempt, set_in_flight. eff_unfold. rewrite Hi. cbn [attempt].
  by rewrite (proj2 (Z.ltb_lt _ _) Hlt).
Qed.

(** The final completion of an attempt. *)
Definition final_result (delivered : bool) (a : PublishAttempt) : SymmetricalResult Key :=
  if delivered then SymOk (request_key (request a)) else SymErr (request_key (request a)).

Definition final_metric (delivered : bool) (latency : Z) : PeOut :=
  PeMetric (RecPublishCompletion (if delivered then Success else Failure) latency).

Lemma final_run i a delivered latency s :
  in_flight s !! i = Some (mkDelivery a true) →
  delivered = true ∨ (MAX_DELIVERY_ATTEMPTS ≤ attempt_count a)%Z →
  let res := final_result delivered a in
  let batch := completed_batch s ++ [res] in
  let rest := delete i (in_flight s) in
  engine_iteration alive (PeComplete i delivered latency) s =
  if is_user_initiated (request a)
  then Ret (true, mkPublishEngine rest (completed_batch s),
            final_metric delivered latency :: report alive (PubSingle res))
  else if (BATCH_SIZE <=? length batch)%nat
       then Ret (true, mkPublishEngine rest [],
                 final_metric delivered latency :: report alive (PubBatch batch))
       else Ret (true, mkPublishEngine rest batch, [final_metric delivered latency]).
Proof.
  intros Hi Hfin. cbn [engine_iteration]. cbn zeta.
  unfold handle_completion, set_in_flight. eff_unfold. rewrite Hi. cbn [attempt].
  destruct delivered; [|destruct Hfin as [|Hge]; [done|]; rewrite (proj2 (Z.ltb_ge _ _) Hge)];
    rewrite handle_completed_work_run; cbn -[length app BATCH_SIZE];
    destruct (is_user_initiated (request a)); [|destruct (BATCH_SIZE <=? _)%nat| |destruct (BATCH_SIZE <=? _)%nat];
    by rewrite ?app_nil_r.
Qed.

Lemma tick_run s :
  engine_iteration alive PeTick s =
  match completed_batch s with
  | [] => Ret (true, s, [])
  | b => Ret (true, mkPublishEngine (in_flight s) [], report alive (PubBatch b))
  end.
Proof.
  cbn [engine_iteration]. eff_unfold. destruct (completed_batch s) as [|r b] eqn:E.
  - by rewrite bool_decide_eq_true_2.
  - rewrite bool_decide_eq_false_2 by done. rewrite flush_run, E. by rewrite !app_nil_r.
Qed.

Lemma recv_run p s :
  engine_iteration alive (PeRecv p) s =
  Ret (true, mkPublishEngine (in_flight s ++ [mkDelivery (publish_attempt_new p) false])
               (completed_batch s), []).
Proof. done. Qed.
End runs.

(** ** The branches as a transition relation *)

Inductive engine_step `{StatusJson} (alive : bool) (s : PublishEngine) :
    PeEvent → PublishEngine → list PeOut → Prop :=
| step_start i a body :
    in_flight s !! i = Some (mkDelivery a false) →
    json_to_string (pd_status (details_ref (request a))) = Some body →
    engine_step alive s (PeStart i)
      (mkPublishEngine (<[i := mkDelivery a true]> (in_flight s)) (completed_batch s))
      [PeMetric RecPublishAttemptStarted; PeMessage (key_display (request_key (request a))) body]
| step_retry i a latency :
    in_flight s !! i = Some (mkDelivery a true) →
    (attempt_count a < MAX_DELIVERY_ATTEMPTS)%Z →
    engine_step alive s (PeComplete i false latency)
      (mkPublishEngine (delete i (in_flight s) ++ [mkDelivery (increment_attempt a) false])
         (completed_batch s))
      [PeMetric (RecPublishCompletion Failure latency); PeMetric RecPublishRetry]
| step_user i a delivered latency :
    in_flight s !! i = Some (mkDelivery a true) →
    delivered = true ∨ (MAX_DELIVERY_ATTEMPTS ≤ attempt_count a)%Z →
    is_user_initiated (request a) = true →
    engine_step alive s (PeComplete i delivered latency)
      (mkPublishEngine (delete i (in_flight s)) (completed_batch s))
      (final_metric delivered latency :: report alive (PubSingle (final_result delivered a)))
| step_batched i a delivered latency :
    in_flight s !! i = Some (mkDelivery a true) →
    delivered = true ∨ (MAX_DELIVERY_ATTEMPTS ≤ attempt_count a)%Z →
    is_user_initiated (request a) = false →
    S (length (completed_batch s)) < BATCH_SIZE →
    engine_step alive s (PeComplete i delivered latency)
      (mkPublishEngine (delete i (in_flight s))
         (completed_batch s ++ [final_result delivered a]))
      [final_metric delivered latency]
| step_batch_full i a delivered latency :
    in_flight s !! i = Some (mkDelivery a true) →
    delivered = true ∨ (MAX_DELIVERY_ATTEMPTS ≤ attempt_count a)%Z →
    is_user_initiated (request a) = false →
    BATCH_SIZE ≤ S (length (completed_batch s)) →
    engine_step alive s (PeComplete i delivered latency)
      (mkPublishEngine (delete i (in_flight s)) [])
      (final_metric delivered latency ::
       report alive (PubBatch (completed_batch s ++ [final_result delivered a])))
| step_tick_idle :
    completed_batch s = [] → engine_step alive s PeTick s []
| step_tick_flush :
    completed_batch s ≠ [] →
    engine_step alive s PeTick (mkPublishEngine (in_flight s) [])
      (report alive (PubBatch (completed_batch s)))
| step_recv p :
    engine_step alive s (PeRecv p)
      (mkPublishEngine (in_flight s ++ [mkDelivery (publish_attempt_new p) false])
         (completed_batch s)) [].

(** Every ready event has exactly the outcome the relation gives it: no panic, and
    the loop goes on. *)
Lemma engine_step_total `{StatusJsonLaws} alive e s :
  engine_ready s e = true →
  ∃ s' outs, engine_iteration alive e s = Ret (true, s', outs) ∧ engine_step alive s e s' outs.
Proof.
  intros Hready. destruct e as [i|i delivered latency| |p|]; cbn in Hready.
  - destruct (in_flight s !! i) as [[a []]|] eqn:Hi; try done.
    destruct (start_run alive i a s Hi) as (body & Hb & Hrun).
    rewrite Hrun. eexists _, _. split; [done|]. by constructor.
  - destruct (in_flight s !! i) as [[a []]|] eqn:Hi; try done.
    destruct (decide (delivered = true ∨ (MAX_DELIVERY_ATTEMPTS ≤ attempt_count a)%Z))
      as [Hfin|Hretry].
    + rewrite (final_run alive i a delivered latency s Hi Hfin). cbn zeta.
      rewrite length_app. destruct (is_user_initiated (request a)) eqn:Hu.
      { eexists _, _. split; [done|]. by econstructor. }
      cbn [length]. rewrite Nat.add_1_r.
      destruct (Nat.leb_spec BATCH_SIZE (S (length (completed_batch s))));
        eexists _, _; (split; [done|]); by econstructor.
    + destruct delivered; [by destruct Hretry; left|].
      assert (attempt_count a < MAX_DELIVERY_ATTEMPTS)%Z.
      { apply Z.nle_gt. intros ?. apply Hretry. by right. }
      rewrite retry_run with (a := a) by done. eexists _, _. split; [done|]. by constructor.
  - rewrite tick_run. destruct (completed_batch s) eqn:E; eexists _, _; (split; [done|]).
    + by constructor.
    + rewrite <- E. constructor. by rewrite E.
  - eexists _, _. split; [done|]. constructor.
  - done.
Qed.

Lemma engine_history_step_inv `{StatusJsonLaws} alive s e go s' outs :
  engine_ready s e = true → engine_iteration alive e s = Ret (go, s', outs) →
  engine_step alive s e s' outs.
Proof.
  intros Hready Hrun. destruct (engine_step_total alive e s Hready) as (s1 & o1 & Hr & Hstep).
  rewrite Hr in Hrun. by simplify_eq.
Qed.

(** ** Accounting *)

Definition keys_of (user : bool) (ps : list Publish) : list Key :=
  request_key <$> filter (λ p, is_user_initiated p = user) ps.

Definition requests_in_flight (s : PublishEngine) : list Publish :=
  (λ d, request (attempt d)) <$> in_flight s.

Definition batch_keys (user : bool) (s : PublishEngine) : list Key :=
  if user then [] else inner_ref <$> completed_batch s.

(** The keys whose results were reported on the two paths. *)
Definition reported (user : bool) (outs : list PeOut) : list Key :=
  outs ≫= λ o,
    match o, user with
    | PeOutcome (PubSingle r), true => [inner_ref r]
    | PeOutcome (PubBatch b), false => inner_ref <$> b
    | _, _ => []
    end.

Definition received_by (e : PeEvent) : list Publish :=
  match e with PeRecv p => [p] | _ => [] end.

Lemma keys_of_app user l1 l2 : keys_of user (l1 ++ l2) = keys_of user l1 ++ keys_of user l2.
Proof. unfold keys_of. by rewrite filter_app, fmap_app. Qed.

#[export] Instance keys_of_proper user : Proper ((≡ₚ) ==> (≡ₚ)) (keys_of user).
Proof. intros l1 l2 Hl. unfold keys_of. by rewrite Hl. Qed.

Lemma keys_of_one user p :
  keys_of user [p] = if decide (is_user_initiated p = user) then [request_key p] else [].
Proof. unfold keys_of. rewrite filter_cons, filter_nil. by case_decide. Qed.

Lemma reported_app user o1 o2 : reported user (o1 ++ o2) = reported user o1 ++ reported user o2.
Proof. unfold reported. by rewrite bind_app. Qed.

Lemma inner_final delivered a : inner_ref (final_result delivered a) = request_key (request a).
Proof. by destruct delivered. Qed.

Lemma requests_take s i a b :
  in_flight s !! i = Some (mkDelivery a b) →
  requests_in_flight s ≡ₚ
  request a :: ((λ d, request (attempt d)) <$> delete i (in_flight s)).
Proof.
  intros Hi. unfold requests_in_flight. by rewrite (delete_Permutation _ _ _ Hi) at 1.
Qed.

Lemma requests_start s i a batch :
  in_flight s !! i = Some (mkDelivery a false) →
  requests_in_flight (mkPublishEngine (<[i := mkDelivery a true]> (in_flight s)) batch) =
  requests_in_flight s.
Proof.
  intros Hi. unfold requests_in_flight. cbn. rewrite list_fmap_insert. cbn.
  apply list_insert_id. by rewrite list_lookup_fmap, Hi.
Qed.

Lemma requests_push l a batch :
  requests_in_flight (mkPublishEngine (l ++ [mkDelivery a false]) batch) =
  ((λ d, request (attempt d)) <$> l) ++ [request a].
Proof. unfold requests_in_flight. cbn. by rewrite fmap_app. Qed.

Lemma keys_of_cons user p l : keys_of user (p :: l) = keys_of user [p] ++ keys_of user l.
Proof. apply (keys_of_app user [p] l). Qed.

(** One step moves requests between the places where they are accounted for. *)
Lemma engine_step_accounting `{StatusJson} user s e s' outs :
  engine_step true s e s' outs →
  keys_of user (requests_in_flight s) ++ batch_keys user s ++ keys_of user (received_by e) ≡ₚ
  keys_of user (requests_in_flight s') ++ batch_keys user s' ++ reported user outs.
Proof.
  assert (Hnil : keys_of user [] = []) by done.
  intros Hstep. destruct Hstep as [i a body Hi _|i a latency Hi Hlt|i a d latency Hi _ Hu
    |i a d latency Hi _ Hu _|i a d latency Hi _ Hu _|Hb|Hb|p];
    cbn [received_by]; rewrite ?Hnil, ?app_nil_r.
  - rewrite requests_start by done. done.
  - rewrite (requests_take s i a true Hi), requests_push, keys_of_app, keys_of_cons.
    unfold batch_keys. cbn. rewrite ?app_nil_r. solve_Permutation.
  - rewrite (requests_take s i a true Hi), keys_of_cons, keys_of_one, Hu.
    destruct user; cbn; rewrite ?inner_final, ?app_nil_r; [|done]. solve_Permutation.
  - rewrite (requests_take s i a true Hi), keys_of_cons, keys_of_one, Hu.
    destruct user; cbn; rewrite ?fmap_app; cbn; rewrite ?inner_final, ?app_nil_r; [done|].
    solve_Permutation.
  - rewrite (requests_take s i a true Hi), keys_of_cons, keys_of_one, Hu.
    destruct user; cbn; rewrite ?fmap_app; cbn; rewrite ?inner_final, ?app_nil_r; [done|].
    solve_Permutation.
  - done.
  - destruct user; cbn; by rewrite ?app_nil_r.
  - rewrite requests_push, keys_of_app. cbn. solve_Permutation.
Qed.

(** ** Properties *)

Section properties.
Context `{StatusJsonLaws}.
Implicit Types s : PublishEngine.

Lemma history_accounting user received s outs :
  engine_history true received s outs →
  keys_of user received ≡ₚ
    keys_of user (requests_in_flight s) ++ batch_keys user s ++ reported user outs.
Proof.
  intros Hh. induction Hh as [|received s outs e go s' outs' Hh IH Hready Hrun].
  - by destruct user.
  - apply engine_history_step_inv, (engine_step_accounting user) in Hrun; [|done].
    change (match e with PeRecv p => [p] | _ => [] end) with (received_by e).
    rewrite keys_of_app, IH, reported_app.
    trans (reported user outs ++ keys_of user (requests_in_flight s) ++ batch_keys user s ++
           keys_of user (received_by e)); [solve_Permutation|].
    rewrite Hrun. solve_Permutation.
Qed.

(** C22 Accounting: with the workflow handler listening, at every point of every
    history each request received has been reported exactly once or is still in
    flight or, when automated, batched; user requests are only reported singly and
    automated ones only in batches. *)
Theorem publish_accounting received s outs :
  engine_history true received s outs →
  keys_of true received ≡ₚ keys_of true (requests_in_flight s) ++ reported true outs ∧
  keys_of false received ≡ₚ
    keys_of false (requests_in_flight s) ++ (inner_ref <$> completed_batch s) ++
    reported false outs.
Proof.
  intros Hh. split; [apply (history_accounting true _ _ _ Hh)|].
  apply (history_accounting false _ _ _ Hh).
Qed.

(** What the loop keeps bounded. *)
Definition engine_bounded s : Prop :=
  Forall (λ d, 1 ≤ attempt_count (attempt d) ≤ MAX_DELIVERY_ATTEMPTS)%Z (in_flight s) ∧
  length (completed_batch s) < BATCH_SIZE.

(** Messages handed to the broker. *)
Definition is_message (o : PeOut) : bool := match o with PeMessage _ _ => true | _ => false end.

(** The messages an attempt in flight can still cause, retries included. *)
Definition messages_left (d : Delivery) : nat :=
  Z.to_nat (MAX_DELIVERY_ATTEMPTS - attempt_count (attempt d)) + Nat.b2n (negb (started d)).

Definition batch_size_ok (o : PeOut) : Prop :=
  match o with PeOutcome (PubBatch b) => 0 < length b ≤ BATCH_SIZE | _ => True end.

Lemma sum_by_delete (f : Delivery → nat) l i d :
  l !! i = Some d → sum_by f l = f d + sum_by f (delete i l).
Proof.
  intros Hi%delete_Permutation. by apply (sum_by_permutation f) in Hi.
Qed.

Lemma sum_by_insert (f : Delivery → nat) l i d d' :
  l !! i = Some d → sum_by f (<[i := d']> l) + f d = sum_by f l + f d'.
Proof.
  intros Hi. pose proof (lookup_lt_Some _ _ _ Hi) as Hlt.
  rewrite (sum_by_delete f (<[i := d']> l) i d') by by apply list_lookup_insert_eq.
  rewrite (sum_by_delete f l i d Hi).
  assert (delete i (<[i := d']> l) = delete i l) as ->; [|lia].
  clear. revert i. induction l as [|x l IH]; intros [|i]; [done..|]. cbn. f_equal. apply IH.
Qed.

Lemma messages_left_start a :
  messages_left (mkDelivery a false) = S (messages_left (mkDelivery a true)).
Proof. unfold messages_left. cbn. lia. Qed.

Lemma messages_left_retry a :
  (1 ≤ attempt_count a)%Z → (attempt_count a < MAX_DELIVERY_ATTEMPTS)%Z →
  messages_left (mkDelivery (increment_attempt a) false) = messages_left (mkDelivery a true) ∧
  attempt_count (increment_attempt a) = MAX_DELIVERY_ATTEMPTS.
Proof.
  unfold MAX_DELIVERY_ATTEMPTS. intros ??. assert (attempt_count a = 1)%Z as Ha by lia.
  unfold messages_left, increment_attempt, u8_saturating_add, u8_max. cbn. by rewrite Ha.
Qed.

(** Bounds through one step; the messages sent are paid for by the budget. *)
Lemma engine_step_bounded s e s' outs :
  engine_bounded s → engine_step true s e s' outs →
  engine_bounded s' ∧ Forall batch_size_ok outs ∧
  count_by is_message outs + sum_by messages_left (in_flight s') ≤
    sum_by messages_left (in_flight s) + 2 * length (received_by e).
Proof.
  intros [Hcount Hbatch] Hstep. unfold engine_bounded.
  assert (Htake : ∀ i d, in_flight s !! i = Some d →
    (1 ≤ attempt_count (attempt d) ≤ 2)%Z ∧
    Forall (λ d, 1 ≤ attempt_count (attempt d) ≤ MAX_DELIVERY_ATTEMPTS)%Z
      (delete i (in_flight s)) ∧
    sum_by messages_left (in_flight s) =
      messages_left d + sum_by messages_left (delete i (in_flight s))).
  { intros i d Hi. split; [by apply (Forall_lookup_1 _ _ _ _ Hcount Hi)|].
    split; [by apply Forall_delete|]. by apply sum_by_delete. }
  destruct Hstep as [i a body Hi _|i a latency Hi Hlt|i a d latency Hi _ Hu
    |i a d latency Hi _ Hu Hlen|i a d latency Hi _ Hu Hlen|Hb|Hb|p];
    try (destruct (Htake _ _ Hi) as (Ha & Hrest & Hsum)); cbn -[BATCH_SIZE insert];
    rewrite ?Forall_app, ?Forall_cons, ?Forall_nil, ?length_app, ?sum_by_app.
  - split; [split; [by apply Forall_insert|done]|].
    pose proof (sum_by_insert messages_left _ _ _ (mkDelivery a true) Hi) as Hins.
    rewrite messages_left_start in Hins. split; [done|]. lia.
  - destruct (messages_left_retry a) as [Hleft Hinc]; [apply Ha|done|].
    cbn [sum_by]. split; [|split; [done|lia]]. split; [|done]. split; [done|].
    split; [|done]. cbn [attempt]. rewrite Hinc. done.
  - split; [done|]. split; [done|]. lia.
  - split; [split; [done|cbn -[BATCH_SIZE]; lia]|]. split; [done|]. lia.
  - split; [split; [done|unfold BATCH_SIZE; cbn; lia]|].
    split; [|lia]. split; [done|]. split; [|done].
    cbn -[BATCH_SIZE length app]. rewrite length_app. cbn -[BATCH_SIZE]. lia.
  - split; [done|]. split; [done|]. lia.
  - split; [split; [done|unfold BATCH_SIZE; cbn; lia]|]. split; [|cbn; lia].
    split; [|done]. cbn -[BATCH_SIZE length]. split; [|lia].
    destruct (completed_batch s); [done|cbn; lia].
  - change (sum_by messages_left [mkDelivery (publish_attempt_new p) false]) with 2.
    split; [|split; [done|lia]]. split; [|done]. split; [done|]. split; [|done]. done.
Qed.

(** C29 Bounds: in every history an attempt in flight is the first or the second one
    of its request, at most two messages go to the broker per request received, the
    pending batch stays below [BATCH_SIZE] and every batch reported is non-empty
    and at most [BATCH_SIZE] long. *)
Theorem publish_bounds received s outs :
  engine_history true received s outs →
  engine_bounded s ∧ Forall batch_size_ok outs ∧
  count_by is_message outs ≤ 2 * length received.
Proof.
  intros Hh.
  assert (Hgen : engine_bounded s ∧ Forall batch_size_ok outs ∧
    count_by is_message outs + sum_by messages_left (in_flight s) ≤ 2 * length received).
  { induction Hh as [|received s outs e go s' outs' Hh (Hb & Ho & Hm) Hready Hrun].
    - split; [|by split; [|cbn; lia]]. split; [done|unfold BATCH_SIZE; cbn; lia].
    - apply engine_history_step_inv, (engine_step_bounded _ _ _ _ Hb) in Hrun
        as (Hb' & Ho' & Hm'); [|done].
      change (match e with PeRecv p => [p] | _ => [] end) with (received_by e).
      rewrite Forall_app, count_by_app, length_app. split_and!; try done. lia. }
  destruct Hgen as (? & ? & ?). split_and!; try done. lia.
Qed.

(** The decision on a completed attempt: a failed first attempt is retried with
    its count raised, and reports nothing; a success or a failed last attempt of a
    user request is reported at once; that of an automated one joins the batch,
    which is sent as soon as it is full. *)
Theorem completion_spec i a delivered latency s :
  in_flight s !! i = Some (mkDelivery a true) →
  let rest := delete i (in_flight s) in
  let result := final_result delivered a in
  let batch := completed_batch s ++ [result] in
  ∃ s' outs, engine_iteration true (PeComplete i delivered latency) s = Ret (true, s', outs) ∧
    if negb delivered && (attempt_count a <? MAX_DELIVERY_ATTEMPTS)%Z then
      s' = mkPublishEngine (rest ++ [mkDelivery (increment_attempt a) false])
             (completed_batch s) ∧
      outs = [PeMetric (RecPublishCompletion Failure latency); PeMetric RecPublishRetry]
    else if is_user_initiated (request a) then
      s' = mkPublishEngine rest (completed_batch s) ∧
      outs = [final_metric delivered latency; PeOutcome (PubSingle result)]
    else if (length batch <? BATCH_SIZE)%nat then
      s' = mkPublishEngine rest batch ∧ outs = [final_metric delivered latency]
    else
      s' = mkPublishEngine rest [] ∧
      outs = [final_metric delivered latency; PeOutcome (PubBatch batch)].
Proof.
  intros Hi rest result batch.
  destruct (negb delivered && _) eqn:Hretry.
  - apply andb_true_iff in Hretry as [Hd Hlt%Z.ltb_lt]. destruct delivered; [done|].
    rewrite retry_run with (a := a) by done. by eexists _, _.
  - rewrite (final_run true i a delivered latency s Hi).
    2:{ destruct delivered; [by left|right]. cbn in Hretry. by apply Z.ltb_ge. }
    cbn zeta. destruct (is_user_initiated (request a)); [by eexists _, _|].
    rewrite Nat.ltb_antisym. subst batch result.
    destruct (BATCH_SIZE <=? _)%nat; by eexists _, _.
Qed.
(** *** Termination *)

Definition attempt_event (e : PeEvent) : bool :=
  match e with PeStart _ | PeComplete _ _ _ => true | _ => false end.

(** The start or the completion of one attempt. *)
Definition attempt_step s s' : Prop :=
  ∃ e outs, attempt_event e = true ∧ engine_ready s e = true ∧
            engine_iteration true e s = Ret (true, s', outs).

(** The attempt events a delivery can still cause. *)
Definition delivery_work (d : Delivery) : nat :=
  2 * Z.to_nat (MAX_DELIVERY_ATTEMPTS - attempt_count (attempt d)) +
  if started d then 1 else 2.

Definition work s : nat := sum_by delivery_work (in_flight s).

Lemma delivery_work_start a :
  delivery_work (mkDelivery a false) = S (delivery_work (mkDelivery a true)).
Proof. unfold delivery_work. cbn. lia. Qed.

Lemma delivery_work_retry a :
  (1 ≤ attempt_count a)%Z → (attempt_count a < MAX_DELIVERY_ATTEMPTS)%Z →
  delivery_work (mkDelivery (increment_attempt a) false) < delivery_work (mkDelivery a true).
Proof.
  unfold MAX_DELIVERY_ATTEMPTS. intros ??. assert (attempt_count a = 1)%Z as Ha by lia.
  unfold delivery_work, increment_attempt, u8_saturating_add, u8_max. cbn [attempt attempt_count started]. rewrite Ha. vm_compute. lia.
Qed.

Lemma delivery_work_pos d : 0 < delivery_work d.
Proof. unfold delivery_work. destruct (started d); lia. Qed.

Lemma engine_step_work s e s' outs :
  engine_bounded s → attempt_event e = true → engine_step true s e s' outs →
  work s' < work s.
Proof.
  intros [Hcount _] He Hstep. unfold work.
  destruct Hstep as [i a body Hi _|i a latency Hi Hlt|i a d latency Hi _ Hu
    |i a d latency Hi _ Hu Hlen|i a d latency Hi _ Hu Hlen|Hb|Hb|p]; try done;
    pose proof (Forall_lookup_1 _ _ _ _ Hcount Hi) as [Ha _]; cbn -[insert];
    pose proof (delivery_work_pos (mkDelivery a true)) as Hpos;
    pose proof (sum_by_delete delivery_work _ _ _ Hi) as Hsum; try lia.
  - pose proof (sum_by_insert delivery_work _ _ _ (mkDelivery a true) Hi) as Hins.
    pose proof (delivery_work_start a). lia.
  - rewrite sum_by_app. cbn [sum_by]. pose proof (delivery_work_retry a Ha Hlt). lia.
Qed.

Lemma attempt_step_bounded s s' :
  engine_bounded s → attempt_step s s' → engine_bounded s' ∧ work s' < work s.
Proof.
  intros Hb (e & outs & He & Hready & Hrun).
  apply engine_history_step_inv in Hrun; [|done]. split.
  - by apply (engine_step_bounded _ _ _ _ Hb) in Hrun as [? _].
  - by eapply engine_step_work.
Qed.

Lemma attempt_step_enabled s : in_flight s ≠ [] → ∃ s', attempt_step s s'.
Proof.
  intros Hne. destruct (in_flight s) as [|d l] eqn:E; [done|].
  set (e := if started d then PeComplete 0 true 0 else PeStart 0).
  assert (Hready : engine_ready s e = true).
  { unfold e. destruct d as [a []]; cbn; by rewrite E. }
  destruct (engine_step_total true e s Hready) as (s' & outs & Hrun & _).
  exists s', e, outs. split; [|done]. unfold e. by destruct (started d).
Qed.

(** Retries terminate: from any bounded state (those of [publish_bounds]) at most
    [work] starts and completions of attempts can follow one another, whatever the
    broker answers, and when none is possible any more nothing is in flight. *)
Theorem publish_terminates s s' n :
  engine_bounded s → nsteps attempt_step n s s' →
  n ≤ work s ∧ (nf attempt_step s' → in_flight s' = []).
Proof.
  intros Hb Hn. split.
  - assert (Hle : n + work s' ≤ work s); [|lia].
    induction Hn as [s|n s1 s2 s3 Hstep Hn IH]; [done|].
    destruct (attempt_step_bounded _ _ Hb Hstep) as [Hb2 Hlt]. specialize (IH Hb2). lia.
  - intros Hnf. destruct (decide (in_flight s' = [])) as [|Hne]; [done|].
    destruct Hnf. by apply attempt_step_enabled.
Qed.

(** C28 Once nothing is in flight, the next tick of the flush interval completes the
    reports: every request received has been reported exactly once. *)
Theorem publish_all_reported received s outs :
  engine_history true received s outs → in_flight s = [] →
  ∃ s' outs', engine_iteration true PeTick s = Ret (true, s', outs') ∧
    ∀ user, keys_of user received ≡ₚ reported user (outs ++ outs').
Proof.
  intros Hh Hempty. destruct (engine_step_total true PeTick s eq_refl) as (s' & outs' & Hrun & _).
  exists s', outs'. split; [done|]. intros user.
  assert (Hh' : engine_history true (received ++ []) s' (outs ++ outs')).
  { by apply (engine_history_step true received s outs PeTick true). }
  rewrite app_nil_r in Hh'. rewrite (history_accounting user _ _ _ Hh').
  rewrite tick_run in Hrun. unfold batch_keys, requests_in_flight.
  destruct (completed_batch s) eqn:E; injection Hrun as <- <-; cbn [in_flight completed_batch];
    rewrite Hempty, ?E; by destruct user.
Qed.

(** *** The gauge of attempts in flight *)

Definition pe_metrics (outs : list PeOut) : list MetricCall :=
  omap (λ o, match o with PeMetric c => Some c | _ => None end) outs.

Definition gauge_value (n : nat) : Z := (Z.of_nat n mod u64_modulus)%Z.

Lemma gauge_value_S n : u64_wrapping_add (gauge_value n) 1 = gauge_value (S n).
Proof. unfold gauge_value. rewrite u64_wrapping_add_mod_l. f_equal. lia. Qed.

Lemma gauge_value_pred n : u64_wrapping_sub (gauge_value (S n)) 1 = gauge_value n.
Proof. unfold gauge_value. rewrite u64_wrapping_sub_mod_l. f_equal. lia. Qed.

Lemma completion_gauge m kind latency :
  atomics (record_publish_completion kind latency m) in_flight_publish_attempts =
  u64_wrapping_sub (atomics m in_flight_publish_attempts) 1.
Proof. by destruct kind. Qed.

Lemma report_metrics alive o : pe_metrics (report alive o) = [].
Proof. by destruct alive. Qed.

Lemma count_started_take s i a :
  in_flight s !! i = Some (mkDelivery a true) →
  count_by started (in_flight s) = S (count_by started (delete i (in_flight s))).
Proof. intros Hi%delete_Permutation. by apply (count_by_permutation started) in Hi. Qed.

Lemma count_started_start s i a :
  in_flight s !! i = Some (mkDelivery a false) →
  count_by started (<[i := mkDelivery a true]> (in_flight s)) =
  S (count_by started (in_flight s)).
Proof.
  intros Hi.
  assert (Hsum : ∀ l, count_by started l = sum_by (λ d, Nat.b2n (started d)) l).
  { induction l; cbn; congruence. }
  rewrite !Hsum. pose proof (sum_by_insert (λ d, Nat.b2n (started d)) _ _ _
    (mkDelivery a true) Hi) as Hins. cbn -[insert] in Hins. lia.
Qed.

Lemma engine_step_gauge alive s e s' outs m :
  engine_step alive s e s' outs →
  atomics m in_flight_publish_attempts = gauge_value (count_by started (in_flight s)) →
  atomics (run_metric_calls m (pe_metrics outs)) in_flight_publish_attempts =
  gauge_value (count_by started (in_flight s')).
Proof.
  intros Hstep Hm.
  assert (Hfinal : ∀ i a delivered latency os, in_flight s !! i = Some (mkDelivery a true) →
    pe_metrics os = [] ∨ pe_metrics os = [RecPublishRetry] →
    atomics (run_metric_calls m (pe_metrics (final_metric delivered latency :: os)))
      in_flight_publish_attempts = gauge_value (count_by started (delete i (in_flight s)))).
  { intros i a delivered latency os Hi Hos.
    change (pe_metrics (final_metric delivered latency :: os)) with
      (RecPublishCompletion (if delivered then Success else Failure) latency :: pe_metrics os).
    assert (Hretry : ∀ m, atomics (record_publish_retry m) in_flight_publish_attempts =
                         atomics m in_flight_publish_attempts) by done.
    destruct Hos as [-> | ->]; cbn -[record_publish_completion record_publish_retry];
      rewrite ?Hretry, completion_gauge, Hm, (count_started_take s i a Hi); apply gauge_value_pred. }
  destruct Hstep as [i a body Hi _|i a latency Hi Hlt|i a d latency Hi _ Hu
    |i a d latency Hi _ Hu Hlen|i a d latency Hi _ Hu Hlen|Hb|Hb|p]; cbn [in_flight];
    try (by eapply Hfinal; [|left; first [apply report_metrics|done]]).
  - rewrite (count_started_start s i a Hi), <- gauge_value_S, <- Hm. done.
  - rewrite count_by_app. cbn [count_by started Nat.b2n]. rewrite Nat.add_0_r.
    apply (Hfinal i a false latency [PeMetric RecPublishRetry] Hi). by right.
  - done.
  - by rewrite report_metrics.
  - rewrite count_by_app. cbn. by rewrite Nat.add_0_r.
Qed.

(** The gauge of in-flight publish attempts is exact in every history: it equals
    the number of attempts handed to the broker and not yet completed, modulo the
    width of the counter. *)
Theorem publish_gauge_exact alive queue_config received s outs :
  engine_history alive received s outs →
  atomics (run_metric_calls (metrics_new queue_config) (pe_metrics outs))
    in_flight_publish_attempts =
  (Z.of_nat (count_by started (in_flight s)) mod u64_modulus)%Z.
Proof.
  intros Hh. induction Hh as [|received s outs e go s' outs' Hh IH Hready Hrun]; [done|].
  apply engine_history_step_inv in Hrun; [|done].
  unfold pe_metrics, run_metric_calls. rewrite omap_app, foldl_app.
  by apply (engine_step_gauge _ _ _ _ _ _ Hrun).
Qed.
End properties.

(** ** Witnesses *)

#[local] Existing Instance sample_json.
#[local] Existing Instance sample_json_laws.

Definition pe_key : Key := {| key_device := "G:DEV"; key_source := Source.Epics |}.
Definition pe_user : Publish := PubUser {| pd_key := pe_key; pd_status := status_default |}.
Definition pe_auto : Publish := PubAutomated {| pd_key := pe_key; pd_status := status_default |}.

(** The body of the messages. *)
Definition pe_body : string := String "{" (write_bits (encode status_default)).

Definition pe_user_state : PublishEngine :=
  mkPublishEngine [mkDelivery {| request := pe_user; attempt_count := 2 |} false] [].
Definition pe_user_outs : list PeOut :=
  [PeMetric RecPublishAttemptStarted; PeMessage "G:DEV#Epics" pe_body;
   PeMetric (RecPublishCompletion Failure 5); PeMetric RecPublishRetry].

(** A user request whose first attempt failed. *)
Lemma sample_history : engine_history true [pe_user] pe_user_state pe_user_outs.
Proof.
  apply (engine_history_step true [pe_user]
           (mkPublishEngine [mkDelivery (publish_attempt_new pe_user) true] [])
           [PeMetric RecPublishAttemptStarted; PeMessage "G:DEV#Epics" pe_body]
           (PeComplete 0 false 5) true _
           [PeMetric (RecPublishCompletion Failure 5); PeMetric RecPublishRetry]);
    [|reflexivity..].
  apply (engine_history_step true [pe_user]
           (mkPublishEngine [mkDelivery (publish_attempt_new pe_user) false] []) []
           (PeStart 0) true _
           [PeMetric RecPublishAttemptStarted; PeMessage "G:DEV#Epics" pe_body]); [|reflexivity..].
  apply (engine_history_step true [] engine_new [] (PeRecv pe_user) true _ []);
    [constructor|reflexivity..].
Qed.

Lemma publish_accounting_witness :
  keys_of true [pe_user] ≡ₚ
    keys_of true (requests_in_flight pe_user_state) ++ reported true pe_user_outs ∧
  keys_of false [pe_user] ≡ₚ
    keys_of false (requests_in_flight pe_user_state) ++
    (inner_ref <$> completed_batch pe_user_state) ++ reported false pe_user_outs.
Proof. apply (publish_accounting [pe_user]), sample_history. Defined.

Lemma publish_bounds_witness :
  engine_bounded pe_user_state ∧ Forall batch_size_ok pe_user_outs ∧
  count_by is_message pe_user_outs ≤ 2 * length [pe_user].
Proof. apply publish_bounds, sample_history. Defined.

Definition pe_auto_state : PublishEngine :=
  mkPublishEngine [mkDelivery {| request := pe_auto; attempt_count := 2 |} true]
    (replicate 49 (SymOk pe_key)).

Lemma completion_spec_witness :
  in_flight pe_auto_state !! 0 = Some (mkDelivery {| request := pe_auto; attempt_count := 2 |} true) ∧
  engine_iteration true (PeComplete 0 false 3) pe_auto_state =
    Ret (true, engine_new,
         [final_metric false 3; PeOutcome (PubBatch (replicate 49 (SymOk pe_key) ++ [SymErr pe_key]))]).
Proof.
  split; [reflexivity|].
  destruct (completion_spec 0 {| request := pe_auto; attempt_count := 2 |} false 3 pe_auto_state
              eq_refl) as (s' & outs & -> & Hcases).
  cbn in Hcases. by destruct Hcases as [-> ->].
Defined.

Lemma publish_terminates_witness :
  attempt_step pe_user_state
    (mkPublishEngine [mkDelivery {| request := pe_user; attempt_count := 2 |} true] []) ∧
  1 ≤ work pe_user_state.
Proof.
  assert (Hstep : attempt_step pe_user_state
    (mkPublishEngine [mkDelivery {| request := pe_user; attempt_count := 2 |} true] [])).
  { exists (PeStart 0). eexists. split; [reflexivity|]. split; reflexivity. }
  split; [exact Hstep|].
  eapply (publish_terminates pe_user_state _ 1).
  - split; [by repeat constructor|]. unfold BATCH_SIZE. cbn. lia.
  - by eapply nsteps_once.
Defined.

(** An automated request, delivered and waiting in the batch. *)
Lemma sample_batched_history :
  engine_history true [pe_auto] (mkPublishEngine [] [SymOk pe_key])
    [PeMetric RecPublishAttemptStarted; PeMessage "G:DEV#Epics" pe_body;
     PeMetric (RecPublishCompletion Success 5)].
Proof.
  apply (engine_history_step true [pe_auto]
           (mkPublishEngine [mkDelivery (publish_attempt_new pe_auto) true] [])
           [PeMetric RecPublishAttemptStarted; PeMessage "G:DEV#Epics" pe_body]
           (PeComplete 0 true 5) true _ [PeMetric (RecPublishCompletion Success 5)]);
    [|reflexivity..].
  apply (engine_history_step true [pe_auto]
           (mkPublishEngine [mkDelivery (publish_attempt_new pe_auto) false] []) []
           (PeStart 0) true _
           [PeMetric RecPublishAttemptStarted; PeMessage "G:DEV#Epics" pe_body]); [|reflexivity..].
  apply (engine_history_step true [] engine_new [] (PeRecv pe_auto) true _ []);
    [constructor|reflexivity..].
Qed.

Lemma publish_all_reported_witness :
  ∃ s' outs', engine_iteration true PeTick (mkPublishEngine [] [SymOk pe_key]) =
      Ret (true, s', outs') ∧
    ∀ user, keys_of user [pe_auto] ≡ₚ
      reported user ([PeMetric RecPublishAttemptStarted; PeMessage "G:DEV#Epics" pe_body;
                      PeMetric (RecPublishCompletion Success 5)] ++ outs').
Proof. apply (publish_all_reported [pe_auto]); [apply sample_batched_history|reflexivity]. Defined.

Lemma publish_gauge_exact_witness :
  atomics (run_metric_calls (metrics_new (mkQueueCapacityConfig 1 1 1 1 1))
             (pe_metrics pe_user_outs)) in_flight_publish_attempts =
  (Z.of_nat (count_by started (in_flight pe_user_state)) mod u64_modulus)%Z.
Proof.
  apply (publish_gauge_exact true (mkQueueCapacityConfig 1 1 1 1 1) [pe_user]), sample_history.
Defined.
