(* ===== verification/Ingress.v ===== *)
(** * Ingress ([engine/ingress.rs])

    Automated updates go straight to the coordinator's queue while it has room;
    when it is full the handle enters overload mode, keeps the latest status per key
    in an insertion-ordered map, and one drain task forwards them.  Several clones
    of the handle and the drain task interleave: a step is what runs between two
    points where another task may run (the lock is released, a queue is polled).
    The [ringmap] crate is a parameter with its documented behaviour. *)

From stdpp Require Import functions.
From S2P Require Export Model Metrics.
From stdpp Require Import list.

(** ** The insertion-ordered map *)

(** [insert]: a present key keeps its place and gets the new value. *)
Fixpoint assoc_insert (k : Key) (v : Status) (l : list (Key * Status)) : list (Key * Status) :=
  match l with
  | [] => [(k, v)]
  | (k', v') :: l' =>
      if decide (k' = k) then (k, v) :: l' else (k', v') :: assoc_insert k v l'
  end.

Class RingMap (M : Type) := {
  rm_new : M;
  rm_insert : Key → Status → M → M;
  rm_pop_front : M → option (Key * Status * M);
  rm_len : M → nat;
  (** the entries in order *)
  rm_entries : M → list (Key * Status);
}.

Class RingMapLaws (M : Type) `{RingMap M} := {
  rm_new_entries : rm_entries rm_new = [];
  rm_insert_entries k v m : rm_entries (rm_insert k v m) = assoc_insert k v (rm_entries m);
  rm_pop_front_entries m :
    match rm_pop_front m with
    | Some (k, v, m') => rm_entries m = (k, v) :: rm_entries m'
    | None => rm_entries m = []
    end;
  rm_len_entries m : rm_len m = length (rm_entries m);
  rm_keys_NoDup m : NoDup (rm_entries m).*1;
}.

(** ** The handle and the drain task *)

Record OverloadState (M : Type) := mkOverloadState {
  overload_mode : bool;
  entered_at : option Z;
  pending : M;
}.
Arguments mkOverloadState {M} overload_mode entered_at pending.
Arguments overload_mode {M} o.
Arguments entered_at {M} o.
Arguments pending {M} o.

(** Where a task inside [send_automated_update] is: before it, past the check of
    the mode, or past a [try_send] that found the queue full. *)
Inductive SendPc :=
| SendIdle
| SendChecked (key : Key) (status : Status)
| SendFull (key : Key) (status : Status).

(** Where [run_overload_drain_loop] is: waiting for the notification, at the top of
    its inner loop, awaiting queue capacity for a status, or returned. *)
Inductive DrainPc :=
| DrainWaiting
| DrainLoop
| DrainSending (status : Status)
| DrainStopped.

Record Ingress (M : Type) := mkIngress {
  overload_state : OverloadState M;
  notify_permit : bool;
  coordinator_tx : bchan DomainInput;
  senders : nat → SendPc;
  drain : DrainPc;
}.
Arguments mkIngress {M} overload_state notify_permit coordinator_tx senders drain.
Arguments overload_state {M} i.
Arguments notify_permit {M} i.
Arguments coordinator_tx {M} i.
Arguments senders {M} i.
Arguments drain {M} i.

(** What the tasks do outside the shared state: put a message in the coordinator's
    queue, return from [send_automated_update], and record metrics. *)
Inductive InOut :=
| InQueued (message : DomainInput)
| InReturn (r : result unit Status)
| InMetric (call : MetricCall).

Inductive IngressEvent :=
| InCheck (i : nat) (status : Status)
| InTry (i : nat)
| InRetain (i : nat) (now : Z)
| InNotified
| InPop (now : Z)
| InDrainSend
| InReceive.

Section ingress.
Context `{UnicodeTables} `{ProtoEnums} {M : Type} `{!RingMap M}.

Definition ingress_new (tx : bchan DomainInput) : Ingress M :=
  mkIngress (mkOverloadState false None rm_new) false tx (λ _, SendIdle) DrainWaiting.

Definition set_overload (f : OverloadState M → OverloadState M) : Eff (Ingress M) InOut unit :=
  modify (λ s, mkIngress (f (overload_state s)) (notify_permit s) (coordinator_tx s)
                 (senders s) (drain s)).
Definition set_permit (b : bool) : Eff (Ingress M) InOut unit :=
  modify (λ s, mkIngress (overload_state s) b (coordinator_tx s) (senders s) (drain s)).
Definition set_tx (c : bchan DomainInput) : Eff (Ingress M) InOut unit :=
  modify (λ s, mkIngress (overload_state s) (notify_permit s) c (senders s) (drain s)).
Definition set_sender (i : nat) (pc : SendPc) : Eff (Ingress M) InOut unit :=
  modify (λ s, mkIngress (overload_state s) (notify_permit s) (coordinator_tx s)
                 (<[i := pc]> (senders s)) (drain s)).
Definition set_drain (pc : DrainPc) : Eff (Ingress M) InOut unit :=
  modify (λ s, mkIngress (overload_state s) (notify_permit s) (coordinator_tx s)
                 (senders s) pc).

Definition retain (key : Key) (status : Status) : Eff (Ingress M) InOut unit :=
  set_overload (λ o, mkOverloadState (overload_mode o) (entered_at o)
                       (rm_insert key status (pending o))).

Definition pending_len (s : Ingress M) : Z := Z.of_nat (rm_len (pending (overload_state s))).

(** [send_automated_update] up to [drop(overload_state)]: the update is merged into
    the backlog, or the task goes on to offer it directly. *)
Definition send_check (i : nat) (status : Status) : Eff (Ingress M) InOut unit :=
  let key := key_from_status status in
  s ← get;
  if overload_mode (overload_state s) then
    retain key status ;;
    s ← get;
    emit (InMetric (RecRetainedAutomatedKeys (pending_len s))) ;;
    emit (InReturn (Ok tt))
  else set_sender i (SendChecked key status).

(** The direct offer. *)
Definition send_try (i : nat) (key : Key) (status : Status) : Eff (Ingress M) InOut unit :=
  s ← get;
  let message := AutomatedUpdate status in
  match try_send (coordinator_tx s) message with
  | Ok tx =>
      set_tx tx ;; emit (InQueued message) ;;
      set_sender i SendIdle ;; emit (InReturn (Ok tt))
  | Err TrySendClosed => set_sender i SendIdle ;; emit (InReturn (Err status))
  | Err TrySendFull => emit (InMetric RecAutomatedQueueFull) ;; set_sender i (SendFull key status)
  end.

(** The second critical section, after a full queue. *)
Definition send_retain (i : nat) (key : Key) (status : Status) (now : Z) :
    Eff (Ingress M) InOut unit :=
  retain key status ;;
  set_overload (λ o, mkOverloadState true (Some now) (pending o)) ;;
  s ← get;
  emit (InMetric (RecOverloadEntry (pending_len s))) ;;
  set_permit true ;;
  set_sender i SendIdle ;; emit (InReturn (Ok tt)).

(** One iteration of the inner loop of [run_overload_drain_loop] up to its [await]. *)
Definition drain_pop (now : Z) : Eff (Ingress M) InOut unit :=
  s ← get;
  match rm_pop_front (pending (overload_state s)) with
  | Some (_, status, rest) =>
      set_overload (λ o, mkOverloadState (overload_mode o) (entered_at o) rest) ;;
      s ← get;
      emit (InMetric (RecRetainedAutomatedKeys (pending_len s))) ;;
      set_drain (DrainSending status)
  | None =>
      emit (InMetric (RecRetainedAutomatedKeys (pending_len s))) ;;
      set_overload (λ o, mkOverloadState false None (pending o)) ;;
      match entered_at (overload_state s) with
      | Some t => emit (InMetric (RecOverloadExit (now - t)))
      | None => mret tt
      end ;;
      set_drain DrainWaiting
  end.

(** The completion of the [send] of the drain task. *)
Definition drain_send (status : Status) : Eff (Ingress M) InOut unit :=
  s ← get;
  let message := AutomatedUpdate status in
  match try_send (coordinator_tx s) message with
  | Ok tx => set_tx tx ;; emit (InQueued message) ;; set_drain DrainLoop
  | Err TrySendClosed => set_drain DrainStopped
  | Err TrySendFull => mret tt
  end.

(** The coordinator takes the oldest message. *)
Definition queue_receive : Eff (Ingress M) InOut unit :=
  s ← get;
  set_tx (mkBchan (tail (queued (coordinator_tx s))) (capacity (coordinator_tx s))
            (receiver_alive (coordinator_tx s))).

(** One step of one task; a step that cannot happen changes nothing. *)
Definition ingress_step (e : IngressEvent) : Eff (Ingress M) InOut unit :=
  s ← get;
  match e with
  | InCheck i status =>
      match senders s i with SendIdle => send_check i status | _ => mret tt end
  | InTry i =>
      match senders s i with SendChecked key status => send_try i key status | _ => mret tt end
  | InRetain i now =>
      match senders s i with
      | SendFull key status => send_retain i key status now
      | _ => mret tt
      end
  | InNotified =>
      match drain s with
      | DrainWaiting =>
          if notify_permit s then set_permit false ;; set_drain DrainLoop else mret tt
      | _ => mret tt
      end
  | InPop now => match drain s with DrainLoop => drain_pop now | _ => mret tt end
  | InDrainSend => match drain s with DrainSending status => drain_send status | _ => mret tt end
  | InReceive => queue_receive
  end.

(** [send_automated_update] undisturbed by other tasks. *)
Definition send_automated_update (i : nat) (status : Status) (now : Z) :
    Eff (Ingress M) InOut unit :=
  ingress_step (InCheck i status) ;; ingress_step (InTry i) ;; ingress_step (InRetain i now).

Fixpoint ingress_run (es : list IngressEvent) : Eff (Ingress M) InOut unit :=
  match es with
  | [] => mret tt
  | e :: es' => ingress_step e ;; ingress_run es'
  end.
End ingress.

(** ** User commands *)

Inductive ChannelSendError := ChanClosed | ChanFull.

(** [UserIngressHandle::try_send]: the state is the queue it sends to. *)
Definition user_try_send (message : DomainInput) :
    Eff (bchan DomainInput) InOut (result unit ChannelSendError) :=
  tx ← get;
  match try_send tx message with
  | Ok tx' => modify (λ _, tx') ;; emit (InQueued message) ;; mret (Ok tt)
  | Err TrySendClosed => mret (Err ChanClosed)
  | Err TrySendFull => emit (InMetric RecUserQueueFullRejection) ;; mret (Err ChanFull)
  end.

(** ** The steps as a transition relation *)

Section relation.
Context `{UnicodeTables} `{ProtoEnums} {M : Type} `{!RingMap M}.
Implicit Types s : Ingress M.

Definition with_sender s i pc (o : OverloadState M) (permit : bool) (tx : bchan DomainInput) :
    Ingress M := mkIngress o permit tx (<[i := pc]> (senders s)) (drain s).

Definition with_pending s (m : M) : OverloadState M :=
  mkOverloadState (overload_mode (overload_state s)) (entered_at (overload_state s)) m.

Definition push_tx (tx : bchan DomainInput) (st : Status) : bchan DomainInput :=
  mkBchan (queued tx ++ [AutomatedUpdate st]) (capacity tx) true.

Definition has_room (tx : bchan DomainInput) : Prop :=
  receiver_alive tx = true ∧ length (queued tx) < capacity tx.

Inductive IngressStep s : IngressEvent → Ingress M → list InOut → Prop :=
| is_merge i st m :
    senders s i = SendIdle → overload_mode (overload_state s) = true →
    m = rm_insert (key_from_status st) st (pending (overload_state s)) →
    IngressStep s (InCheck i st)
      (mkIngress (with_pending s m) (notify_permit s) (coordinator_tx s) (senders s) (drain s))
      [InMetric (RecRetainedAutomatedKeys (Z.of_nat (rm_len m))); InReturn (Ok tt)]
| is_check i st :
    senders s i = SendIdle → overload_mode (overload_state s) = false →
    IngressStep s (InCheck i st)
      (with_sender s i (SendChecked (key_from_status st) st) (overload_state s)
         (notify_permit s) (coordinator_tx s)) []
| is_try_ok i k st :
    senders s i = SendChecked k st → has_room (coordinator_tx s) →
    IngressStep s (InTry i)
      (with_sender s i SendIdle (overload_state s) (notify_permit s)
         (push_tx (coordinator_tx s) st))
      [InQueued (AutomatedUpdate st); InReturn (Ok tt)]
| is_try_closed i k st :
    senders s i = SendChecked k st → receiver_alive (coordinator_tx s) = false →
    IngressStep s (InTry i)
      (with_sender s i SendIdle (overload_state s) (notify_permit s) (coordinator_tx s))
      [InReturn (Err st)]
| is_try_full i k st :
    senders s i = SendChecked k st → receiver_alive (coordinator_tx s) = true →
    ¬ has_room (coordinator_tx s) →
    IngressStep s (InTry i)
      (with_sender s i (SendFull k st) (overload_state s) (notify_permit s) (coordinator_tx s))
      [InMetric RecAutomatedQueueFull]
| is_retain i k st now m :
    senders s i = SendFull k st →
    m = rm_insert k st (pending (overload_state s)) →
    IngressStep s (InRetain i now)
      (with_sender s i SendIdle (mkOverloadState true (Some now) m) true (coordinator_tx s))
      [InMetric (RecOverloadEntry (Z.of_nat (rm_len m))); InReturn (Ok tt)]
| is_notified :
    drain s = DrainWaiting → notify_permit s = true →
    IngressStep s InNotified
      (mkIngress (overload_state s) false (coordinator_tx s) (senders s) DrainLoop) []
| is_pop now k st m :
    drain s = DrainLoop → rm_pop_front (pending (overload_state s)) = Some (k, st, m) →
    IngressStep s (InPop now)
      (mkIngress (with_pending s m) (notify_permit s) (coordinator_tx s) (senders s)
         (DrainSending st))
      [InMetric (RecRetainedAutomatedKeys (Z.of_nat (rm_len m)))]
| is_pop_none now :
    drain s = DrainLoop → rm_pop_front (pending (overload_state s)) = None →
    IngressStep s (InPop now)
      (mkIngress (mkOverloadState false None (pending (overload_state s))) (notify_permit s)
         (coordinator_tx s) (senders s) DrainWaiting)
      (InMetric (RecRetainedAutomatedKeys (pending_len s)) ::
       match entered_at (overload_state s) with
       | Some t => [InMetric (RecOverloadExit (now - t))]
       | None => []
       end)
| is_drain_send st :
    drain s = DrainSending st → has_room (coordinator_tx s) →
    IngressStep s InDrainSend
      (mkIngress (overload_state s) (notify_permit s) (push_tx (coordinator_tx s) st)
         (senders s) DrainLoop)
      [InQueued (AutomatedUpdate st)]
| is_drain_closed st :
    drain s = DrainSending st → receiver_alive (coordinator_tx s) = false →
    IngressStep s InDrainSend
      (mkIngress (overload_state s) (notify_permit s) (coordinator_tx s) (senders s)
         DrainStopped) []
| is_receive :
    IngressStep s InReceive
      (mkIngress (overload_state s) (notify_permit s)
         (mkBchan (tail (queued (coordinator_tx s))) (capacity (coordinator_tx s))
            (receiver_alive (coordinator_tx s))) (senders s) (drain s)) []
| is_blocked e :
    (∀ i st, e = InCheck i st → senders s i ≠ SendIdle) →
    IngressStep s e s [].

Lemma try_send_cases (tx : bchan DomainInput) st :
  (has_room tx ∧ try_send tx (AutomatedUpdate st) = Ok (push_tx tx st)) ∨
  (receiver_alive tx = false ∧ try_send tx (AutomatedUpdate st) = Err TrySendClosed) ∨
  (receiver_alive tx = true ∧ ¬ has_room tx ∧ try_send tx (AutomatedUpdate st) = Err TrySendFull).
Proof.
  unfold try_send, has_room. destruct (receiver_alive tx) eqn:Ha; [|by right; left].
  destruct (Nat.ltb_spec (length (queued tx)) (capacity tx)); [by left|].
  right; right. split_and!; try done. intros [_ ?]. lia.
Qed.

(** No step panics, and every step is one of the relation's. *)
Lemma ingress_step_total e s :
  ∃ s' outs, ingress_step e s = Ret (tt, s', outs) ∧ IngressStep s e s' outs.
Proof.
  assert (Hblocked : ∀ e, (∀ i st, e = InCheck i st → senders s i ≠ SendIdle) → ∃ s' outs,
    Ret (tt, s, []) = Ret (tt, s', outs) ∧ IngressStep s e s' outs).
  { intros e' He'. eexists _, _. split; [done|]. by apply is_blocked. }
  destruct e as [i st|i|i now| |now| |]; unfold ingress_step.
  - eff_unfold. destruct (senders s i) eqn:Hi; try (apply Hblocked; congruence).
    unfold send_check, retain, set_overload, set_sender. eff_unfold.
    destruct (overload_mode (overload_state s)) eqn:Hm; eexists _, _; (split; [done|]).
    + by apply (is_merge s i st).
    + by apply (is_check s i st).
  - eff_unfold. destruct (senders s i) as [|k st|] eqn:Hi; try (apply Hblocked; congruence).
    unfold send_try, set_tx, set_sender. eff_unfold.
    destruct (try_send_cases (coordinator_tx s) st) as [(Hr & ->)|[(Hr & ->)|(Ha & Hr & ->)]];
      eexists _, _; (split; [done|]).
    + by apply (is_try_ok s i k st).
    + by apply (is_try_closed s i k st).
    + by apply (is_try_full s i k st).
  - eff_unfold. destruct (senders s i) as [| |k st] eqn:Hi; try (apply Hblocked; congruence).
    eexists _, _. split; [done|]. by apply (is_retain s i k st).
  - eff_unfold. destruct (drain s) eqn:Hd; try (apply Hblocked; congruence).
    destruct (notify_permit s) eqn:Hp; [|apply Hblocked; congruence].
    eexists _, _. split; [done|]. by apply (is_notified s).
  - eff_unfold. destruct (drain s) eqn:Hd; try (apply Hblocked; congruence).
    unfold drain_pop, set_overload, set_drain. eff_unfold.
    destruct (rm_pop_front _) as [[[k st] m]|] eqn:Hpop.
    + eexists _, _. split; [done|]. by apply (is_pop s now k st).
    + eexists _, _. split; [|by apply (is_pop_none s now)]. by destruct (entered_at _).
  - eff_unfold. destruct (drain s) as [| |st|] eqn:Hd; try (apply Hblocked; congruence).
    unfold drain_send, set_tx, set_drain. eff_unfold.
    destruct (try_send_cases (coordinator_tx s) st) as [(Hr & ->)|[(Hr & ->)|(Ha & Hr & ->)]].
    + eexists _, _. split; [done|]. by apply (is_drain_send s st).
    + eexists _, _. split; [done|]. by apply (is_drain_closed s st).
    + apply Hblocked; congruence.
  - eexists _, _. split; [done|]. apply (is_receive s).
Qed.

Lemma ingress_step_inv e s s' outs :
  ingress_step e s = Ret (tt, s', outs) → IngressStep s e s' outs.
Proof.
  intros Hrun. destruct (ingress_step_total e s) as (s1 & o1 & Hr & Hstep).
  rewrite Hr in Hrun. by simplify_eq.
Qed.
End relation.

(** ** The overload protocol *)

Section protocol.
Context `{UnicodeTables} `{ProtoEnums} {M : Type} `{!RingMap M, !RingMapLaws M}.
Implicit Types s : Ingress M.

Definition backlog s : list (Key * Status) := rm_entries (pending (overload_state s)).

(** Overload mode and the drain task agree: a backlog only exists in overload mode,
    and in overload mode the drain task is at work or has been notified, unless the
    coordinator is gone. *)
Definition overload_ok s : Prop :=
  (overload_mode (overload_state s) = false → backlog s = []) ∧
  (overload_mode (overload_state s) = true →
     notify_permit s = true ∨ drain s ≠ DrainWaiting) ∧
  (∀ st, drain s = DrainSending st → overload_mode (overload_state s) = true) ∧
  (drain s = DrainStopped → receiver_alive (coordinator_tx s) = false) ∧
  (overload_mode (overload_state s) = true ↔ is_Some (entered_at (overload_state s))) ∧
  length (queued (coordinator_tx s)) ≤ capacity (coordinator_tx s).

Lemma assoc_insert_not_nil k v l : assoc_insert k v l ≠ [].
Proof. destruct l as [|[k' v'] l]; cbn; [done|]. by case_decide. Qed.

Lemma rm_pop_front_None m : rm_pop_front m = None → rm_entries m = [].
Proof. intros Hm. pose proof (rm_pop_front_entries m) as E. by rewrite Hm in E. Qed.

Lemma rm_pop_front_Some m k v m' :
  rm_pop_front m = Some (k, v, m') → rm_entries m = (k, v) :: rm_entries m'.
Proof. intros Hm. pose proof (rm_pop_front_entries m) as E. by rewrite Hm in E. Qed.

Lemma overload_ok_new cap : overload_ok (ingress_new (M:=M) (mkBchan [] cap true)).
Proof.
  unfold overload_ok, backlog. cbn. rewrite rm_new_entries.
  split_and!; try done; try lia.
Qed.

Lemma overload_ok_step s e s' outs :
  overload_ok s → IngressStep s e s' outs → overload_ok s'.
Proof.
  intros (Hback & Hact & Hsend & Hstop & Hent & Hcap) Hstep. unfold overload_ok, backlog in *.
  destruct Hstep as [i st m Hi Hm ->|i st Hi Hm|i k st Hi [Ha Hroom]|i k st Hi Ha
    |i k st Hi Ha Hfull|i k st now m Hi ->|Hd Hp|now k st m Hd Hpop|now Hd Hpop
    |st Hd [Ha Hroom]|st Hd Ha| |e]; cbn;
    split_and!; try done; try (intros; congruence); try (rewrite ?length_app; cbn; lia).
  - intros Hst. apply Hstop in Hst. congruence.
  - intros _. by right.
  - intros Hm. rewrite (rm_pop_front_Some _ _ _ _ Hpop) in Hback. by specialize (Hback Hm).
  - intros _. by right.
  - intros st' _. destruct (overload_mode (overload_state s)) eqn:Hm; [done|].
    rewrite (rm_pop_front_Some _ _ _ _ Hpop) in Hback. by specialize (Hback eq_refl).
  - intros _. by apply rm_pop_front_None.
  - intros _. by right.
  - intros _. by right.
  - destruct (queued (coordinator_tx s)); cbn in *; lia.
Qed.

(** *** Order per key *)

Definition on_key (k : Key) (l : list Status) : list Status :=
  filter (λ st, key_from_status st = k) l.
#[local] Arguments on_key : simpl never.

(** What was put in the coordinator's queue, in order. *)
Definition delivered (outs : list InOut) : list Status :=
  omap (λ o, match o with InQueued (AutomatedUpdate st) => Some st | _ => None end) outs.

Definition sending s : list Status :=
  match drain s with DrainSending st => [st] | _ => [] end.

Definition progress (pc : SendPc) : list Status :=
  match pc with SendIdle => [] | SendChecked _ st | SendFull _ st => [st] end.

Definition sent_by (e : IngressEvent) : list Status :=
  match e with InCheck _ st => [st] | _ => [] end.

(** Histories of the handles and the drain task: the updates passed to
    [send_automated_update], the state and the outputs.  The updates of a key come
    from one task, its [owner], which awaits each call. *)
Inductive ingress_history (owner : Key → nat) (cap : nat) :
    list Status → Ingress M → list InOut → Prop :=
| ingress_history_new :
    ingress_history owner cap [] (ingress_new (mkBchan [] cap true)) []
| ingress_history_step sent s outs e s' outs' :
    ingress_history owner cap sent s outs →
    (∀ i st, e = InCheck i st →
       senders s i = SendIdle ∧ owner (key_from_status st) = i) →
    ingress_step e s = Ret (tt, s', outs') →
    ingress_history owner cap (sent ++ sent_by e) s' (outs ++ outs').

(** A list that follows another: some elements are left out, never the last. *)
Definition follows (t u : list Status) : Prop := sublist t u ∧ last t = last u.

Lemma follows_snoc t u x : follows t u → follows (t ++ [x]) (u ++ [x]).
Proof. intros [Hs _]. split; [by apply sublist_app|by rewrite !last_snoc]. Qed.

Lemma follows_replace t u x y : follows (t ++ [x]) u → follows (t ++ [y]) (u ++ [y]).
Proof.
  intros [Hs _]. split; [|by rewrite !last_snoc]. apply sublist_app; [|done].
  trans (t ++ [x]); [by apply sublist_inserts_r|done].
Qed.

Lemma on_key_app k l1 l2 : on_key k (l1 ++ l2) = on_key k l1 ++ on_key k l2.
Proof. apply filter_app. Qed.

Lemma on_key_cons k st l :
  on_key k (st :: l) = if decide (key_from_status st = k) then st :: on_key k l else on_key k l.
Proof. unfold on_key. rewrite filter_cons. by case_decide. Qed.

(** An entry of the backlog carries the status its key was computed from. *)
Definition keyed (l : list (Key * Status)) : Prop :=
  Forall (λ e, e.1 = key_from_status e.2) l.

Lemma keyed_absent k l : keyed l → k ∉ l.*1 → on_key k l.*2 = [].
Proof.
  induction 1 as [|[k' v] l Hk Hl IH]; [done|]. cbn in *. rewrite not_elem_of_cons.
  intros [Hne Hin]. rewrite on_key_cons, decide_False by congruence. by apply IH.
Qed.

Lemma keyed_assoc_insert v l : keyed l → keyed (assoc_insert (key_from_status v) v l).
Proof.
  unfold keyed. induction 1 as [|[k' v'] l Hk Hl IH]; cbn; [by repeat constructor|].
  case_decide; by constructor.
Qed.

Lemma on_key_assoc_insert_ne k v l :
  keyed l → key_from_status v ≠ k →
  on_key k (assoc_insert (key_from_status v) v l).*2 = on_key k l.*2.
Proof.
  intros Hl Hne. induction Hl as [|[k' v'] l Hk Hl IH]; cbn.
  { by rewrite on_key_cons, decide_False. }
  cbn in Hk. subst k'. case_decide as Hd; cbn; rewrite !on_key_cons.
  - by rewrite !decide_False by congruence.
  - case_decide; by rewrite IH.
Qed.

Lemma on_key_assoc_insert_eq v l :
  keyed l → NoDup l.*1 →
  on_key (key_from_status v) (assoc_insert (key_from_status v) v l).*2 = [v].
Proof.
  intros Hl. induction Hl as [|[k' v'] l Hk Hl IH]; cbn; intros Hnd.
  { by rewrite on_key_cons, decide_True. }
  apply NoDup_cons in Hnd as [Hin Hnd]. cbn in Hk. subst k'. case_decide as Hd; cbn.
  - rewrite on_key_cons, decide_True by done.
    rewrite keyed_absent; [done|done|]. by rewrite <- Hd.
  - rewrite on_key_cons, decide_False by done. by apply IH.
Qed.

(** A key has at most one retained status. *)
Lemma on_key_backlog k l :
  keyed l → NoDup l.*1 → on_key k l.*2 = [] ∨ ∃ x, on_key k l.*2 = [x].
Proof.
  induction 1 as [|[k' v] l Hk Hl IH]; cbn; [by left|]. cbn in Hk. subst k'.
  rewrite NoDup_cons. intros [Hin Hnd]. rewrite on_key_cons. case_decide as Hd; [|by apply IH].
  right. exists v. rewrite keyed_absent; [done|done|]. by rewrite <- Hd.
Qed.

(** The updates the drain task holds or has yet to take, oldest first. *)
Definition parked s : list Status := sending s ++ (backlog s).*2.

(** The updates of a key on their way, oldest first. *)
Definition trail (owner : Key → nat) k s outs : list Status :=
  on_key k (delivered outs) ++ on_key k (parked s) ++ on_key k (progress (senders s (owner k))).

(** What the order of one key rests on: a task past the check of the mode has the
    only update of its key outside the queue. *)
Definition pcs_ok (owner : Key → nat) (pcs : nat → SendPc) (held : list Status) : Prop :=
  ∀ i k st, pcs i = SendChecked k st ∨ pcs i = SendFull k st →
    k = key_from_status st ∧ owner k = i ∧ on_key k held = [].

Definition order_ok (owner : Key → nat) s : Prop :=
  keyed (backlog s) ∧ pcs_ok owner (senders s) (parked s).

Definition well_sent (owner : Key → nat) s e : Prop :=
  ∀ i st, e = InCheck i st → senders s i = SendIdle ∧ owner (key_from_status st) = i.

Lemma senders_update (pcs : nat → SendPc) i pc j :
  (<[i := pc]> pcs) j = if decide (i = j) then pc else pcs j.
Proof. unfold insert, fn_insert. by repeat case_decide. Qed.

Lemma pcs_ok_update owner s i pc held :
  pcs_ok owner (senders s) held →
  (∀ k st, pc = SendChecked k st ∨ pc = SendFull k st →
     k = key_from_status st ∧ owner k = i ∧ on_key k held = []) →
  pcs_ok owner (<[i := pc]> (senders s)) held.
Proof.
  intros Hok Hpc j k st. rewrite senders_update. case_decide; [subst; apply Hpc|apply Hok].
Qed.

Lemma pcs_ok_sub owner pcs held held' :
  (∀ k, on_key k held = [] → on_key k held' = []) →
  pcs_ok owner pcs held → pcs_ok owner pcs held'.
Proof. intros Hsub Hok i k st Hi. destruct (Hok i k st Hi) as (? & ? & ?). eauto. Qed.

Lemma pcs_ok_insert owner pcs f b st :
  keyed b → pcs (owner (key_from_status st)) = SendIdle →
  pcs_ok owner pcs (f ++ b.*2) →
  pcs_ok owner pcs (f ++ (assoc_insert (key_from_status st) st b).*2).
Proof.
  intros Hb Hidle Hok i k st' Hi. destruct (Hok i k st' Hi) as (Hk & Ho & Hheld).
  split_and!; [done..|]. rewrite on_key_app in *. rewrite on_key_assoc_insert_ne; [done..|].
  intros Hst. rewrite Hst, Ho in Hidle. rewrite Hidle in Hi. by destruct Hi.
Qed.

Lemma order_ok_step owner s e s' outs :
  overload_ok s → order_ok owner s → well_sent owner s e → IngressStep s e s' outs →
  order_ok owner s'.
Proof.
  intros (Hback & _ & Hsend & _) [Hkeyed Hpc] Hwell Hstep.
  assert (Hempty : overload_mode (overload_state s) = false → parked s = []).
  { intros Hm. unfold parked. rewrite (Hback Hm). unfold sending.
    destruct (drain s) eqn:Hd; try done. specialize (Hsend _ eq_refl). congruence. }
  unfold order_ok, parked, backlog in *.
  destruct Hstep as [i st m Hi Hm ->|i st Hi Hm|i k st Hi _|i k st Hi _
    |i k st Hi _ _|i k st now m Hi ->|Hd Hp|now k st m Hd Hpop|now Hd Hpop
    |st Hd _|st Hd _| |e]; cbn -[sending] in *; rewrite ?rm_insert_entries;
    try (destruct (Hpc i k st) as (Hk & Ho & Hheld); [rewrite Hi; auto|]);
    (split; [try done|try done]).
  - by apply keyed_assoc_insert.
  - destruct (Hwell i st eq_refl) as [_ Ho]. apply pcs_ok_insert; [done| |done]. congruence.
  - apply pcs_ok_update; [done|]. intros k st' [[= <- <-]|]; [|done].
    destruct (Hwell i st eq_refl) as [_ Ho]. split_and!; [done..|].
    change (sending (with_sender _ _ _ _ _ _)) with (sending s). by rewrite (Hempty Hm).
  - apply pcs_ok_update; [done|]. by intros ?? [|].
  - apply pcs_ok_update; [done|]. by intros ?? [|].
  - apply pcs_ok_update; [done|]. intros k' st' [|[= <- <-]]; [done|]. done.
  - rewrite Hk. by apply keyed_assoc_insert.
  - rewrite Hk. apply (pcs_ok_insert owner (<[i:=SendIdle]> (senders s)) (sending s)); [done| |].
    + rewrite senders_update, decide_True; [done|]. congruence.
    + apply pcs_ok_update; [done|]. by intros ?? [|].
  - unfold sending in Hpc. by rewrite Hd in Hpc.
  - rewrite (rm_pop_front_Some _ _ _ _ Hpop) in Hkeyed. by apply Forall_cons in Hkeyed as [_ ?].
  - unfold sending in *. rewrite Hd, (rm_pop_front_Some _ _ _ _ Hpop) in Hpc. done.
  - unfold sending in *. by rewrite Hd in Hpc.
  - eapply pcs_ok_sub; [|done]. intros k. rewrite !on_key_app. by intros [_ ?]%app_nil.
  - eapply pcs_ok_sub; [|done]. intros k. rewrite !on_key_app. by intros [_ ?]%app_nil.
Qed.

Lemma delivered_app o1 o2 : delivered (o1 ++ o2) = delivered o1 ++ delivered o2.
Proof. apply omap_app. Qed.

Lemma on_key_one k st :
  on_key k [st] = if decide (key_from_status st = k) then [st] else [].
Proof. by rewrite on_key_cons. Qed.

(** What one step does to the trail of a key. *)
Definition trail_grows (t t' new : list Status) : Prop :=
  t' = t ++ new ∨ ∃ t0 x y, t = t0 ++ [x] ∧ new = [y] ∧ t' = t0 ++ [y].

Lemma trail_grows_same t : trail_grows t t [].
Proof. left. by rewrite app_nil_r. Qed.

Lemma parked_sending s st : drain s = DrainSending st → parked s = st :: (backlog s).*2.
Proof. intros Hd. unfold parked, sending. by rewrite Hd. Qed.

Lemma parked_not_sending s : (∀ st, drain s ≠ DrainSending st) → parked s = (backlog s).*2.
Proof. intros Hd. unfold parked, sending. destruct (drain s); naive_solver. Qed.

(** The three kinds of events: the check of the mode, what a sender does after it, and
    the drain task with the receiver. *)
Definition event_kind (e : IngressEvent) : nat :=
  match e with InCheck _ _ => 0 | InTry _ | InRetain _ _ => 1 | _ => 2 end.

Lemma trail_idle owner k s e outs :
  well_sent owner s e → (∀ i st, e = InCheck i st → senders s i ≠ SendIdle) →
  trail_grows (trail owner k s outs) (trail owner k s (outs ++ [])) (on_key k (sent_by e)).
Proof.
  intros Hwell Hblk. rewrite app_nil_r. assert (sent_by e = []) as ->.
  { destruct e as [i st| | | | | |]; try done. destruct (Hblk i st eq_refl).
    by destruct (Hwell i st eq_refl). }
  apply trail_grows_same.
Qed.

Ltac trail_cases Hstep :=
  destruct Hstep as [i st m Hi Hm ->|i st Hi Hm|i k0 st Hi _|i k0 st Hi Hcl
    |i k0 st Hi _ _|i k0 st now m Hi ->|Hd Hp|now k0 st m Hd Hpop|now Hd Hpop
    |st Hd _|st Hd Hcl| |e Hblk]; try done; try congruence; try (by apply trail_idle);
  unfold trail; rewrite delivered_app, on_key_app;
  cbn [sent_by delivered omap list_omap senders with_sender].

Lemma trail_check owner k s e s' outs outs' :
  order_ok owner s → well_sent owner s e → IngressStep s e s' outs' →
  receiver_alive (coordinator_tx s) = true → event_kind e = 0 →
  trail_grows (trail owner k s outs) (trail owner k s' (outs ++ outs')) (on_key k (sent_by e)).
Proof.
  intros [Hkeyed Hpc] Hwell Hstep Halive He. trail_cases Hstep.
  - destruct (Hwell i st eq_refl) as [_ Ho].
    assert (Hpar : ∀ o p tx, parked (mkIngress o p tx (senders s) (drain s)) =
                     sending s ++ (rm_entries (pending o)).*2) by done.
    rewrite Hpar. cbn [with_pending pending]. rewrite rm_insert_entries.
    unfold parked. rewrite !on_key_app, on_key_one, app_nil_r.
    destruct (decide (key_from_status st = k)) as [<-|Hne].
    + rewrite Ho, Hi. change (on_key _ (progress SendIdle)) with (@nil Status).
      rewrite on_key_assoc_insert_eq by (done || apply rm_keys_NoDup).
      destruct (on_key_backlog (key_from_status st) (backlog s) Hkeyed (rm_keys_NoDup _))
        as [E|[x E]]; rewrite E, !app_nil_r, ?app_assoc.
      * by left.
      * right. by eexists _, x, st.
    + rewrite on_key_assoc_insert_ne by done. apply trail_grows_same.
  - destruct (Hwell i st eq_refl) as [_ Ho].
    change (parked (with_sender _ _ _ _ _ _)) with (parked s).
    rewrite senders_update, on_key_one, app_nil_r. left.
    destruct (decide (key_from_status st = k)) as [<-|Hne].
    + rewrite decide_True, Ho, Hi by done. cbn [progress]. rewrite on_key_one, decide_True by done.
      change (on_key _ (progress SendIdle)) with (@nil Status). by rewrite app_nil_r, <- app_assoc.
    + rewrite app_nil_r. do 2 f_equal. case_decide as Hd; [|done].
      rewrite <- Hd, Hi. cbn [progress]. by rewrite on_key_one, decide_False.
Qed.

Lemma trail_send owner k s e s' outs outs' :
  order_ok owner s → well_sent owner s e → IngressStep s e s' outs' →
  receiver_alive (coordinator_tx s) = true → event_kind e = 1 →
  trail_grows (trail owner k s outs) (trail owner k s' (outs ++ outs')) (on_key k (sent_by e)).
Proof.
  intros [Hkeyed Hpc] Hwell Hstep Halive He. trail_cases Hstep.
  - destruct (Hpc i k0 st) as (-> & Ho & Hheld); [rewrite Hi; auto|].
    change (parked (with_sender _ _ _ _ _ _)) with (parked s).
    rewrite senders_update, on_key_one.
    destruct (decide (key_from_status st = k)) as [<-|Hne].
    + rewrite decide_True, Hheld, Ho, Hi by done. cbn [progress]. rewrite on_key_one, decide_True by done.
      change (on_key _ []) with (@nil Status). rewrite !app_nil_r. apply trail_grows_same.
    + rewrite app_nil_r. case_decide as Hd; [|apply trail_grows_same].
      rewrite <- Hd, Hi. cbn [progress]. rewrite on_key_one, decide_False by done.
      apply trail_grows_same.
  - change (parked (with_sender _ _ _ _ _ _)) with (parked s).
    rewrite senders_update. change (on_key k []) with (@nil Status). rewrite app_nil_r.
    case_decide as Hd; [|apply trail_grows_same]. rewrite <- Hd, Hi. apply trail_grows_same.
  - destruct (Hpc i k0 st) as (-> & Ho & Hheld); [rewrite Hi; auto|].
    assert (Hpar : ∀ o p tx pcs, parked (mkIngress o p tx pcs (drain s)) =
                     sending s ++ (rm_entries (pending o)).*2) by done.
    unfold with_sender. rewrite Hpar. cbn [pending]. rewrite rm_insert_entries, senders_update.
    unfold parked in *. rewrite !on_key_app in *. change (on_key k []) with (@nil Status).
    rewrite app_nil_r. destruct (decide (key_from_status st = k)) as [<-|Hne].
    + apply app_nil in Hheld as [Hs Hb].
      rewrite on_key_assoc_insert_eq by (done || apply rm_keys_NoDup).
      rewrite decide_True, Hs, Hb, Ho, Hi by done. cbn [progress].
      rewrite on_key_one, decide_True by done. apply trail_grows_same.
    + rewrite on_key_assoc_insert_ne by done. case_decide as Hd; [|apply trail_grows_same].
      rewrite <- Hd, Hi. cbn [progress]. rewrite on_key_one, decide_False by done.
      apply trail_grows_same.
Qed.

Lemma trail_drain owner k s e s' outs outs' :
  order_ok owner s → well_sent owner s e → IngressStep s e s' outs' →
  receiver_alive (coordinator_tx s) = true → event_kind e = 2 →
  trail_grows (trail owner k s outs) (trail owner k s' (outs ++ outs')) (on_key k (sent_by e)).
Proof.
  intros [Hkeyed Hpc] Hwell Hstep Halive He. trail_cases Hstep.
  - change (on_key k []) with (@nil Status). rewrite app_nil_r.
    rewrite (parked_not_sending s) by (intros ?; congruence). apply trail_grows_same.
  - change (on_key k []) with (@nil Status). rewrite app_nil_r.
    rewrite (parked_not_sending s) by (intros ?; congruence).
    unfold backlog. rewrite (rm_pop_front_Some _ _ _ _ Hpop). apply trail_grows_same.
  - rewrite (parked_not_sending s) by (intros ?; congruence).
    assert (Hdel : delivered (InMetric (RecRetainedAutomatedKeys (pending_len s)) ::
       match entered_at (overload_state s) with
       | Some t => [InMetric (RecOverloadExit (now - t))]
       | None => []
       end) = []) by (by destruct (entered_at _)).
    unfold delivered in Hdel. cbn [omap list_omap] in Hdel. rewrite Hdel.
    change (on_key k []) with (@nil Status). rewrite app_nil_r. apply trail_grows_same.
  - rewrite (parked_sending s st Hd). change (st :: (backlog s).*2) with ([st] ++ (backlog s).*2).
    rewrite on_key_app, <- !app_assoc. apply trail_grows_same.
  - change (on_key k []) with (@nil Status). rewrite app_nil_r. apply trail_grows_same.
Qed.

Lemma trail_step owner k s e s' outs outs' :
  order_ok owner s → well_sent owner s e → IngressStep s e s' outs' →
  receiver_alive (coordinator_tx s) = true →
  trail_grows (trail owner k s outs) (trail owner k s' (outs ++ outs')) (on_key k (sent_by e)).
Proof.
  intros. destruct (event_kind e) as [|[|n]] eqn:He;
    [by apply trail_check|by apply trail_send|apply trail_drain; [done..|]]. by destruct e.
Qed.

Lemma step_alive s e s' outs :
  IngressStep s e s' outs →
  receiver_alive (coordinator_tx s) = true → receiver_alive (coordinator_tx s') = true.
Proof. by destruct 1. Qed.

Lemma follows_grows t t' u new :
  follows t u → trail_grows t t' new → follows t' (u ++ new) ∨ (length new ≠ 1 ∧ new ≠ []).
Proof.
  intros Hf [->|(t0 & x & y & -> & -> & ->)].
  - destruct new as [|y [|z new]].
    + left. by rewrite !app_nil_r.
    + left. by apply follows_snoc.
    + by right.
  - left. by eapply follows_replace.
Qed.

Lemma on_key_sent_by k e : on_key k (sent_by e) = [] ∨ ∃ y, on_key k (sent_by e) = [y].
Proof.
  destruct e as [i st| | | | | |]; try by left. cbn [sent_by]. rewrite on_key_one.
  case_decide; [right; by eexists|by left].
Qed.

(** All the invariants of a history. *)
Lemma history_invariants owner cap sent s outs :
  ingress_history owner cap sent s outs →
  overload_ok s ∧ order_ok owner s ∧ receiver_alive (coordinator_tx s) = true ∧
  ∀ k, follows (trail owner k s outs) (on_key k sent).
Proof.
  induction 1 as [|sent s outs e s' outs' Hh (Hov & Hor & Ha & Hf) Hwell Hrun%ingress_step_inv].
  - split; [apply overload_ok_new|]. split; [|split; [done|]].
    + split; [unfold keyed, backlog; cbn; by rewrite rm_new_entries|].
      by intros i k st [|].
    + intros k. unfold trail, parked, backlog. cbn. rewrite rm_new_entries. done.
  - split; [by eapply overload_ok_step|]. split; [by eapply order_ok_step|].
    split; [by eapply step_alive|]. intros k. rewrite on_key_app.
    pose proof (trail_step owner k s e s' outs outs' Hor Hwell Hrun Ha) as Hgrow.
    destruct (follows_grows _ _ _ _ (Hf k) Hgrow) as [|[Hlen Hnil]]; [done|].
    by destruct (on_key_sent_by k e) as [E|[y E]]; rewrite E in *.
Qed.

(** C23 Order and coalescing per key: when the updates of each key come from one
    task, what has reached the coordinator's queue for a key, followed by what is
    retained or on its way for it, is a subsequence of the updates sent for it that
    ends with the latest one.  Updates of one key are never reordered and the latest
    is never lost; only intermediate ones are dropped. *)
Theorem per_key_order owner cap sent s outs k :
  ingress_history owner cap sent s outs →
  let t := on_key k (delivered outs) ++ on_key k (sending s ++ (backlog s).*2) ++
           on_key k (progress (senders s (owner k))) in
  sublist t (on_key k sent) ∧ last t = last (on_key k sent).
Proof.
  intros Hh. destruct (history_invariants _ _ _ _ _ Hh) as (_ & _ & _ & Hf). apply (Hf k).
Qed.

(** *** The gauge of retained keys *)

Definition in_metrics (outs : list InOut) : list MetricCall :=
  omap (λ o, match o with InMetric c => Some c | _ => None end) outs.

Lemma step_retained_gauge s e s' outs m :
  IngressStep s e s' outs →
  atomics m retained_automated_keys = Z.of_nat (length (backlog s)) →
  atomics (run_metric_calls m (in_metrics outs)) retained_automated_keys =
    Z.of_nat (length (backlog s')).
Proof.
  unfold backlog. intros Hstep Hm.
  destruct Hstep as [i st m' Hi Hmode ->|i st Hi Hmode|i k st Hi [Ha Hroom]|i k st Hi Ha
    |i k st Hi Ha Hfull|i k st now m' Hi ->|Hd Hp|now k st m' Hd Hpop|now Hd Hpop
    |st Hd [Ha Hroom]|st Hd Ha| |e]; cbn; rewrite ?rm_len_entries; try done.
  destruct (entered_at _); cbn; unfold pending_len; rewrite ?rm_len_entries; [|done].
  by rewrite (rm_pop_front_None _ Hpop).
Qed.

(** The gauge of retained keys is exact in every history: it equals the size of
    the backlog at every step of every task. *)
Theorem retained_gauge_exact owner cap queue_config sent s outs :
  ingress_history owner cap sent s outs →
  atomics (run_metric_calls (metrics_new queue_config) (in_metrics outs))
    retained_automated_keys = Z.of_nat (rm_len (pending (overload_state s))).
Proof.
  intros Hh. rewrite rm_len_entries.
  induction Hh as [|sent s outs e s' outs' Hh IH Hwell Hrun%ingress_step_inv].
  - cbn. by rewrite rm_new_entries.
  - unfold in_metrics, run_metric_calls. rewrite omap_app, foldl_app.
    by eapply step_retained_gauge.
Qed.

(** *** The drain task empties the backlog *)

(** The drain task alone: an entry at a time, then the exit from overload mode. *)
Fixpoint drain_events (n : nat) (now : Z) : list IngressEvent :=
  match n with
  | O => [InPop now]
  | S n' => InPop now :: InDrainSend :: drain_events n' now
  end.

Lemma try_send_room (tx : bchan DomainInput) st :
  has_room tx → try_send tx (AutomatedUpdate st) = Ok (push_tx tx st).
Proof.
  intros Hr. destruct (try_send_cases tx st) as [[_ ?]|[[Ha _]|(? & ? & _)]]; [done| |done].
  destruct Hr. congruence.
Qed.

Lemma ingress_run_cons e es s s1 s2 o1 o2 :
  ingress_step e s = Ret (tt, s1, o1) → ingress_run es s1 = Ret (tt, s2, o2) →
  ingress_run (e :: es) s = Ret (tt, s2, o1 ++ o2).
Proof. intros H1 H2. cbn [ingress_run]. eff_unfold. by rewrite H1, H2. Qed.

Lemma pop_run now s k v m :
  drain s = DrainLoop → rm_pop_front (pending (overload_state s)) = Some (k, v, m) →
  ingress_step (InPop now) s =
  Ret (tt, mkIngress (with_pending s m) (notify_permit s) (coordinator_tx s) (senders s)
             (DrainSending v),
       [InMetric (RecRetainedAutomatedKeys (Z.of_nat (rm_len m)))]).
Proof.
  intros Hd Hpop. unfold ingress_step, drain_pop, set_overload, set_drain.
  eff_unfold. by rewrite Hd, Hpop.
Qed.

Lemma send_run s o p tx pcs v :
  s = mkIngress o p tx pcs (DrainSending v) → has_room tx →
  ingress_step InDrainSend s =
  Ret (tt, mkIngress o p (push_tx tx v) pcs DrainLoop, [InQueued (AutomatedUpdate v)]).
Proof.
  intros -> Hroom. unfold ingress_step, drain_send, set_tx, set_drain. eff_unfold. cbn.
  by rewrite (try_send_room _ _ Hroom).
Qed.

Lemma drain_run n now s :
  length (backlog s) = n → drain s = DrainLoop →
  receiver_alive (coordinator_tx s) = true →
  length (queued (coordinator_tx s)) + n ≤ capacity (coordinator_tx s) →
  ∃ s' outs, ingress_run (drain_events n now) s = Ret (tt, s', outs) ∧
    delivered outs = (backlog s).*2 ∧
    queued (coordinator_tx s') = queued (coordinator_tx s) ++ map AutomatedUpdate (backlog s).*2 ∧
    overload_mode (overload_state s') = false ∧ entered_at (overload_state s') = None ∧
    backlog s' = [] ∧ drain s' = DrainWaiting.
Proof.
  revert s. induction n as [|n IH]; intros s Hlen Hd Ha Hcap.
  - apply nil_length_inv in Hlen.
    assert (Hpop : rm_pop_front (pending (overload_state s)) = None).
    { pose proof (rm_pop_front_entries (pending (overload_state s))) as E.
      destruct (rm_pop_front _) as [[[k v] m]|]; [|done]. unfold backlog in Hlen. congruence. }
    cbn [drain_events ingress_run]. unfold ingress_step, drain_pop, set_overload, set_drain.
    eff_unfold. rewrite Hd, Hpop. cbn.
    destruct (entered_at (overload_state s)); cbn; eexists _, _; (split; [done|]);
      unfold backlog in *; cbn; rewrite Hlen; by rewrite app_nil_r.
  - destruct (rm_pop_front (pending (overload_state s))) as [[[k v] m]|] eqn:Hpop.
    2:{ apply rm_pop_front_None in Hpop. unfold backlog in Hlen. by rewrite Hpop in Hlen. }
    pose proof (rm_pop_front_Some _ _ _ _ Hpop) as Hent.
    set (s2 := mkIngress (with_pending s m) (notify_permit s) (push_tx (coordinator_tx s) v)
                 (senders s) DrainLoop).
    assert (Hlen2 : length (backlog s2) = n).
    { unfold backlog in *. rewrite Hent in Hlen. cbn in *. lia. }
    destruct (IH s2) as (s' & outs & Hrun & Hdel & Hq & Hrest); [done..|cbn; rewrite length_app; cbn; lia|].
    assert (Hroom : has_room (coordinator_tx s)) by (split; [done|lia]).
    eexists s', _. split.
    + cbn [drain_events].
      eapply ingress_run_cons; [by eapply pop_run|].
      eapply ingress_run_cons; [by apply send_run|exact Hrun].
    + unfold backlog in *. rewrite Hent. cbn in *. split_and!; try apply Hrest.
      * cbn. by rewrite <- Hdel.
      * rewrite Hq. cbn. by rewrite <- app_assoc.
Qed.

(** The drain task empties the backlog: left alone with room in the coordinator's
    queue, it forwards every retained status once, oldest entry first, leaves
    overload mode and waits for the next notification. *)
Theorem drain_flushes now s :
  drain s = DrainLoop → receiver_alive (coordinator_tx s) = true →
  length (queued (coordinator_tx s)) + length (backlog s) ≤ capacity (coordinator_tx s) →
  ∃ s' outs, ingress_run (drain_events (length (backlog s)) now) s = Ret (tt, s', outs) ∧
    delivered outs = (backlog s).*2 ∧
    queued (coordinator_tx s') = queued (coordinator_tx s) ++ map AutomatedUpdate (backlog s).*2 ∧
    overload_mode (overload_state s') = false ∧ entered_at (overload_state s') = None ∧
    backlog s' = [] ∧ drain s' = DrainWaiting.
Proof. intros. by apply drain_run. Qed.

(** *** Overload mode is never stuck *)

(** Any sequence of steps, of any handles and with any statuses. *)
Lemma ingress_run_ok es s s' outs :
  overload_ok s → receiver_alive (coordinator_tx s) = true →
  ingress_run es s = Ret (tt, s', outs) →
  overload_ok s' ∧ receiver_alive (coordinator_tx s') = true.
Proof.
  revert s outs. induction es as [|e es IH]; intros s outs Hok Ha Hrun.
  { cbn in Hrun. unfold mret, eff_ret in Hrun. by simplify_eq. }
  destruct (ingress_step_total e s) as (s1 & o1 & Hstep & Hrel).
  cbn [ingress_run] in Hrun. eff_unfold. rewrite Hstep in Hrun.
  destruct (ingress_run es s1) as [[[[] s2] o2]|] eqn:Hrest; [|done]. simplify_eq.
  apply (IH s1 o2); [by eapply overload_ok_step|by eapply step_alive|done].
Qed.

Lemma ingress_run_total es s : ∃ s' outs, ingress_run es s = Ret (tt, s', outs).
Proof.
  revert s. induction es as [|e es IH]; intros s; [by eexists _, _|].
  destruct (ingress_step_total e s) as (s1 & o1 & Hstep & _). destruct (IH s1) as (s2 & o2 & Hrest).
  eexists _, _. by eapply ingress_run_cons.
Qed.

(** The steps of the drain task. *)
Definition drain_step (e : IngressEvent) : bool :=
  match e with InNotified | InPop _ | InDrainSend => true | _ => false end.

Lemma drain_events_steps n now : Forall drain_step (drain_events n now).
Proof. induction n; by repeat constructor. Qed.

(** In overload mode the drain task can always go on, and with room for what is
    retained it gets to the end on its own. *)
Lemma drain_gets_out (now : Z) s :
  overload_ok s → receiver_alive (coordinator_tx s) = true →
  overload_mode (overload_state s) = true →
  length (queued (coordinator_tx s)) + length (sending s ++ (backlog s).*2)
    ≤ capacity (coordinator_tx s) →
  ∃ es s' outs, Forall drain_step es ∧ ingress_run es s = Ret (tt, s', outs) ∧
    delivered outs = sending s ++ (backlog s).*2 ∧
    overload_mode (overload_state s') = false ∧ backlog s' = [] ∧ drain s' = DrainWaiting.
Proof.
  intros (_ & Hact & _ & Hstop & _) Ha Hm Hcap. specialize (Hact Hm).
  pose proof (drain_events_steps (length (backlog s)) now) as Hsteps.
  rewrite length_app, length_fmap in Hcap.
  destruct s as [o p tx pcs d]. unfold sending, backlog in *. cbn in *. destruct d as [| |st|]; cbn in *.
  - destruct Hact as [->|?]; [|done].
    destruct (drain_run _ now (mkIngress o false tx pcs DrainLoop) eq_refl)
      as (s' & outs & Hrun & ? & _ & ? & _ & ? & ?); [done..|].
    exists (InNotified :: drain_events (length (rm_entries (pending o))) now), s', ([] ++ outs).
    split; [by constructor|]. split; [|done]. by eapply ingress_run_cons; [|exact Hrun].
  - destruct (drain_run _ now (mkIngress o p tx pcs DrainLoop) eq_refl)
      as (s' & outs & Hrun & ? & _ & ? & _ & ? & ?); [done..|]. by eexists _, s', outs.
  - assert (Hroom : has_room tx) by (split; [done|lia]).
    destruct (drain_run _ now (mkIngress o p (push_tx tx st) pcs DrainLoop) eq_refl)
      as (s' & outs & Hrun & Hdel & _ & ? & _ & ? & ?);
      [done|done|unfold backlog; cbn; rewrite length_app; cbn; lia|].
    exists (InDrainSend :: drain_events (length (rm_entries (pending o))) now), s',
      ([InQueued (AutomatedUpdate st)] ++ outs).
    split; [by constructor|]. split; [|unfold delivered, backlog in *; cbn; by rewrite Hdel].
    by eapply ingress_run_cons; [apply send_run|exact Hrun].
  - specialize (Hstop eq_refl). congruence.
Qed.

(** C24 Overload mode is never stuck: after any sequence of steps of any number of
    handles, whichever statuses they send, the drain task and the coordinator, a backlog
    exists only in overload mode; in overload mode the drain task is running or has been
    notified; it only forwards in overload mode; the entry time is kept exactly while
    the mode lasts; the coordinator's queue never exceeds its capacity; and once that
    queue has room for them, the drain task by itself forwards all retained updates and
    leaves overload mode. *)
Theorem overload_never_stuck cap es :
  ∃ s outs, ingress_run es (ingress_new (mkBchan [] cap true)) = Ret (tt, s, outs) ∧
    (backlog s ≠ [] → overload_mode (overload_state s) = true) ∧
    (overload_mode (overload_state s) = true →
       (drain s = DrainWaiting ∧ notify_permit s = true) ∨ drain s = DrainLoop ∨
       ∃ st, drain s = DrainSending st) ∧
    (∀ st, drain s = DrainSending st → overload_mode (overload_state s) = true) ∧
    (overload_mode (overload_state s) = true ↔ is_Some (entered_at (overload_state s))) ∧
    length (queued (coordinator_tx s)) ≤ capacity (coordinator_tx s) ∧
    (overload_mode (overload_state s) = true →
     length (queued (coordinator_tx s)) + length (sending s ++ (backlog s).*2)
       ≤ capacity (coordinator_tx s) →
     ∃ es' s' outs', Forall drain_step es' ∧ ingress_run es' s = Ret (tt, s', outs') ∧
       delivered outs' = sending s ++ (backlog s).*2 ∧
       overload_mode (overload_state s') = false ∧ backlog s' = [] ∧ drain s' = DrainWaiting).
Proof.
  destruct (ingress_run_total es (ingress_new (mkBchan [] cap true))) as (s & outs & Hrun).
  destruct (ingress_run_ok es _ s outs (overload_ok_new cap) eq_refl Hrun) as [Hok Ha].
  exists s, outs. split; [done|]. pose proof Hok as (Hback & Hact & Hsend & Hstop & Hent & Hcap).
  split_and!; try done.
  - intros Hne. destruct (overload_mode (overload_state s)) eqn:Hm; [done|]. by destruct Hne, Hback.
  - intros Hm. destruct (Hact Hm) as [Hp|Hd]; destruct (drain s) eqn:E; eauto;
      specialize (Hstop eq_refl); congruence.
  - by apply (drain_gets_out 0%Z).
Qed.

(** *** One undisturbed call *)

Definition returns (outs : list InOut) : list (result unit Status) :=
  omap (λ o, match o with InReturn r => Some r | _ => None end) outs.

(** [send_automated_update] without interference: in overload mode the update
    replaces or joins the backlog and nothing is queued; otherwise it is queued when
    there is room, handed back when the coordinator is gone, and when the queue is
    full it starts overload mode and notifies the drain task.  The call returns
    exactly once. *)
Theorem send_automated_update_spec i st now s :
  senders s i = SendIdle →
  ∃ s' outs, send_automated_update i st now s = Ret (tt, s', outs) ∧
    senders s' i = SendIdle ∧ drain s' = drain s ∧
    if overload_mode (overload_state s) then
      returns outs = [Ok tt] ∧ delivered outs = [] ∧ coordinator_tx s' = coordinator_tx s ∧
      overload_mode (overload_state s') = true ∧
      backlog s' = assoc_insert (key_from_status st) st (backlog s)
    else
      match try_send (coordinator_tx s) (AutomatedUpdate st) with
      | Ok tx =>
          returns outs = [Ok tt] ∧ delivered outs = [st] ∧ coordinator_tx s' = tx ∧
          overload_state s' = overload_state s
      | Err TrySendClosed =>
          returns outs = [Err st] ∧ delivered outs = [] ∧
          coordinator_tx s' = coordinator_tx s ∧ overload_state s' = overload_state s
      | Err TrySendFull =>
          returns outs = [Ok tt] ∧ delivered outs = [] ∧
          coordinator_tx s' = coordinator_tx s ∧ notify_permit s' = true ∧
          overload_mode (overload_state s') = true ∧
          backlog s' = assoc_insert (key_from_status st) st (backlog s)
      end.
Proof.
  intros Hi. unfold send_automated_update, ingress_step, send_check, retain, set_overload,
    set_sender, backlog. eff_unfold. rewrite Hi.
  destruct (overload_mode (overload_state s)) eqn:Hm; cbn.
  - rewrite Hi. cbn. rewrite Hi. eexists _, _. split; [done|]. cbn.
    by rewrite rm_insert_entries.
  - rewrite senders_update, decide_True by done. unfold send_try, set_tx, set_sender.
    eff_unfold. cbn. destruct (try_send _ _) as [tx|[]]; cbn;
      rewrite senders_update, decide_True by done; cbn;
      eexists _, _; (split; [done|]); cbn; rewrite ?senders_update, ?decide_True by done;
      rewrite ?rm_insert_entries; by split_and!.
Qed.
End protocol.

(** User commands are bounded and rejected, never coalesced: [try_send] queues
    the command behind those already there when there is room, and otherwise queues
    nothing and reports a full or a closed queue; only a full one is counted. *)
Theorem user_try_send_spec message tx :
  user_try_send message tx =
  if receiver_alive tx then
    if (length (queued tx) <? capacity tx)%nat
    then Ret (Ok tt, mkBchan (queued tx ++ [message]) (capacity tx) true, [InQueued message])
    else Ret (Err ChanFull, tx, [InMetric RecUserQueueFullRejection])
  else Ret (Err ChanClosed, tx, []).
Proof.
  unfold user_try_send, try_send. eff_unfold.
  destruct (receiver_alive tx); [|done]. by destruct (_ <? _)%nat.
Qed.

(** ** An instance, and witnesses *)

Record ListMap := mkListMap {
  lm_entries : list (Key * Status);
  lm_NoDup : NoDup lm_entries.*1;
}.

Lemma assoc_insert_elem k v l x : x ∈ (assoc_insert k v l).*1 ↔ x = k ∨ x ∈ l.*1.
Proof.
  induction l as [|[k' v'] l IH]; cbn.
  - rewrite elem_of_cons. tauto.
  - destruct (decide (k' = k)) as [->|Hne]; cbn; rewrite !elem_of_cons; tauto.
Qed.

Lemma assoc_insert_NoDup k v l : NoDup l.*1 → NoDup (assoc_insert k v l).*1.
Proof.
  induction l as [|[k' v'] l IH]; cbn; [intros _; apply NoDup_singleton|].
  intros [Hin Hnd]%NoDup_cons. destruct (decide (k' = k)) as [->|Hne]; cbn.
  - by apply NoDup_cons.
  - apply NoDup_cons. split; [|by apply IH]. rewrite assoc_insert_elem. by intros [|].
Qed.

Lemma tail_NoDup (l : list (Key * Status)) : NoDup l.*1 → NoDup (tail l).*1.
Proof. destruct l; [done|]. by intros [_ ?]%NoDup_cons. Qed.

#[export] Instance list_ring_map : RingMap ListMap := {
  rm_new := mkListMap [] (NoDup_nil_2 (A:=Key));
  rm_insert k v m := mkListMap _ (assoc_insert_NoDup k v _ (lm_NoDup m));
  rm_pop_front m :=
    match lm_entries m with
    | [] => None
    | (k, v) :: _ => Some (k, v, mkListMap _ (tail_NoDup _ (lm_NoDup m)))
    end;
  rm_len m := length (lm_entries m);
  rm_entries := lm_entries;
}.

#[export] Instance list_ring_map_laws : RingMapLaws ListMap.
Proof.
  split; try done.
  - intros m. cbn. destruct m as [[|[k v] l] Hl]; done.
  - apply lm_NoDup.
Qed.

#[local] Existing Instance ascii_only_tables.
#[local] Existing Instance sample_enums.

Definition in_status (sev : Z) : Status :=
  {| device := "G:DEV"; severity_raw := sev; state_raw := 2; source_raw := 3;
     acknowledgeable := false; time := None; epics_type := ""; user := ""; wake := None |}.

Definition in_key : Key := {| key_device := "G:DEV"; key_source := Source.Epics |}.

Lemma in_status_key sev : key_from_status (in_status sev) = in_key.
Proof. reflexivity. Qed.

Definition ingress_started : Ingress ListMap := ingress_new (mkBchan [] 1 true).

(** The state and the outputs after a list of steps. *)
Definition run_state (es : list IngressEvent) : Ingress ListMap :=
  match ingress_run es ingress_started with Ret (_, s, _) => s | Panic _ => ingress_started end.

Definition run_outs (es : list IngressEvent) : list InOut :=
  match ingress_run es ingress_started with Ret (_, _, outs) => outs | Panic _ => [] end.

(** The calls are made by idle tasks, and every key belongs to task 0. *)
Fixpoint calls_ok (es : list IngressEvent) (s : Ingress ListMap) : bool :=
  match es with
  | [] => true
  | e :: es' =>
      match e with
      | InCheck i _ => match i, senders s i with O, SendIdle => true | _, _ => false end
      | _ => true
      end &&
      match ingress_step e s with Ret (_, s', _) => calls_ok es' s' | Panic _ => false end
  end.

Lemma run_history es s sent outs :
  ingress_history (λ _, 0) 1 sent s outs → calls_ok es s = true →
  ∃ s' outs', ingress_run es s = Ret (tt, s', outs') ∧
    ingress_history (λ _, 0) 1 (sent ++ (es ≫= sent_by)) s' (outs ++ outs').
Proof.
  revert s sent outs. induction es as [|e es IH]; intros s sent outs Hh.
  { intros _. exists s, []. by rewrite !app_nil_r. }
  cbn [calls_ok]. intros [Hcall Hrest]%andb_true_iff.
  destruct (ingress_step_total e s) as (s1 & o1 & Hrun & _). rewrite Hrun in Hrest.
  eapply (ingress_history_step _ _ _ _ _ e) in Hh; [|intros i st ->|done].
  - destruct (IH _ _ _ Hh Hrest) as (s' & o2 & Hrun2 & Hh2). exists s', (o1 ++ o2).
    split; [by eapply ingress_run_cons|]. by rewrite bind_cons, !app_assoc.
  - destruct i; [|done]. by destruct (senders s 0).
Qed.

(** Two updates of one device against a queue of one slot: the second one is
    retained. *)
Definition overload_events : list IngressEvent :=
  [InCheck 0 (in_status 1); InTry 0; InCheck 0 (in_status 2); InTry 0; InRetain 0 7].

Definition ingress_overloaded : Ingress ListMap := run_state overload_events.
Definition overload_outs : list InOut := run_outs overload_events.

Lemma overload_history :
  ingress_history (λ _, 0) 1 [in_status 1; in_status 2] ingress_overloaded overload_outs.
Proof.
  destruct (run_history overload_events ingress_started [] [] (ingress_history_new _ _))
    as (s' & outs' & Hrun & Hh); [reflexivity|].
  unfold ingress_overloaded, overload_outs, run_state, run_outs. rewrite Hrun. exact Hh.
Qed.

(** With the coordinator having taken the first one, the drain task forwards it. *)
Lemma overload_never_stuck_witness :
  ∃ s outs es' s' outs',
    ingress_run (overload_events ++ [InReceive]) ingress_started = Ret (tt, s, outs) ∧
    (backlog s).*2 = [in_status 2] ∧
    ingress_run es' s = Ret (tt, s', outs') ∧ delivered outs' = [in_status 2] ∧ backlog s' = [].
Proof.
  destruct (overload_never_stuck (M := ListMap) 1 (overload_events ++ [InReceive]))
    as (s & outs & Hrun & _ & _ & _ & _ & _ & Hout).
  assert (Hs : s = run_state (overload_events ++ [InReceive]))
    by (unfold run_state, ingress_started; by rewrite Hrun).
  destruct Hout as (es' & s' & outs' & _ & Hrun' & Hdel & _ & Hnil & _);
    [by rewrite Hs|rewrite Hs; by vm_compute; lia|].
  exists s, outs, es', s', outs'. split; [exact Hrun|]. split; [by rewrite Hs|].
  split; [exact Hrun'|]. split; [by rewrite Hdel, Hs|exact Hnil].
Defined.

Lemma per_key_order_witness :
  let t := on_key in_key (delivered overload_outs) ++
           on_key in_key (sending ingress_overloaded ++ (backlog ingress_overloaded).*2) ++
           on_key in_key (progress (senders ingress_overloaded 0)) in
  sublist t (on_key in_key [in_status 1; in_status 2]) ∧
  last t = last (on_key in_key [in_status 1; in_status 2]).
Proof. apply (per_key_order (λ _, 0) 1 _ _ _ in_key overload_history). Defined.

Lemma retained_gauge_exact_witness :
  atomics (run_metric_calls (metrics_new (mkQueueCapacityConfig 1 1 1 1 1))
             (in_metrics overload_outs)) retained_automated_keys =
  Z.of_nat (rm_len (pending (overload_state ingress_overloaded))).
Proof. apply (retained_gauge_exact (λ _, 0) 1 _ _ _ _ overload_history). Defined.

Definition ingress_draining : Ingress ListMap :=
  mkIngress (mkOverloadState true (Some 7%Z) (rm_insert in_key (in_status 2) rm_new)) false
    (mkBchan [] 1 true) (λ _, SendIdle) DrainLoop.

Lemma drain_flushes_witness :
  backlog ingress_draining = [(in_key, in_status 2)] ∧
  ∃ s' outs,
    ingress_run (drain_events (length (backlog ingress_draining)) 9) ingress_draining =
      Ret (tt, s', outs) ∧
    delivered outs = (backlog ingress_draining).*2 ∧
    queued (coordinator_tx s') = queued (coordinator_tx ingress_draining) ++
      map AutomatedUpdate (backlog ingress_draining).*2 ∧
    overload_mode (overload_state s') = false ∧ entered_at (overload_state s') = None ∧
    backlog s' = [] ∧ drain s' = DrainWaiting.
Proof.
  split; [reflexivity|]. apply (drain_flushes 9 ingress_draining); [reflexivity..|cbn; lia].
Defined.

Definition tx_after : bchan DomainInput := mkBchan [AutomatedUpdate (in_status 1)] 1 true.

Lemma send_automated_update_spec_witness :
  try_send (coordinator_tx ingress_started) (AutomatedUpdate (in_status 1)) = Ok tx_after ∧
  ∃ s' outs, send_automated_update 0 (in_status 1) 3 ingress_started = Ret (tt, s', outs) ∧
    returns outs = [Ok tt] ∧ delivered outs = [in_status 1] ∧ coordinator_tx s' = tx_after.
Proof.
  split; [reflexivity|].
  destruct (send_automated_update_spec 0 (in_status 1) 3 ingress_started eq_refl)
    as (s' & outs & Hrun & _ & _ & Hr & Hd & Htx & _).
  by exists s', outs.
Defined.
