(* ===== verification/Hydration.v ===== *)
(** * Startup hydration ([runtime/hydration.rs], [adapters/epics_hydration.rs],
    [adapters/acnet_hydration.rs])

    The confirmed state the coordinator starts from: the ACNET snapshot of the
    AEOLUS proxy merged with the EPICS bypasses replayed from the Kafka topic.  The
    proxy, the snapshot backend and serde are parameters. *)

From S2P Require Export Model.
From S2P Require Import PublishEngine.

Abbreviation HydratedStatuses := (gmap Key Status).

(** The [Display] text of a foreign error stands for the error. *)
Inductive HydrationError :=
| AcnetSnapshotReadFailed (status : string)
| AeolusProxyConnectionFailed (source : string)
| EpicsSnapshotReadFailed (source : string)
| KeyInMultipleSources (key : Key).

Definition hydration_error_display (e : HydrationError) : string :=
  match e with
  | AcnetSnapshotReadFailed status => "Failed reading ACNET snapshot. Cause: " +:+ status
  | AeolusProxyConnectionFailed source => "Failed contacting AEOLUS proxy. Cause: " +:+ source
  | KeyInMultipleSources key =>
      "Encountered identical key from more than one hydration source: " +:+ key_display key
  | EpicsSnapshotReadFailed source => "Failed reading EPICS snapshot. Cause: " +:+ source
  end.

Section hydration.
Context `{UnicodeTables} `{ProtoEnums} `{StatusJson}.

(** ** EPICS *)

(** The key and the value of a [StringMessage]. *)
Definition SnapshotRecord : Type := option string * string.

(** The body of the loop of [reduce_snapshot]. *)
Definition reduce_record (hydrated : HydratedStatuses) (record : SnapshotRecord) : HydratedStatuses :=
  let '(key, value) := record in
  match key with
  | None => hydrated
  | Some key_text =>
      match key_try_from key_text with
      | Err _ => hydrated
      | Ok key =>
          if bool_decide (key_source key ≠ Source.Epics) then hydrated
          else if string_is_empty (trim value) || eq_ignore_ascii_case (trim value) "null"
          then delete key hydrated
          else
            match json_from_str value with
            | None => hydrated
            | Some status =>
                if bool_decide (source_of status ≠ Source.Epics) then hydrated
                else if bool_decide (state status = State.Bypassed)
                then <[key := status]> hydrated
                else delete key hydrated
            end
      end
  end.

Definition reduce_snapshot (records : list SnapshotRecord) : HydratedStatuses :=
  foldl reduce_record ∅ records.

(** [load_epics_hydration], given what the snapshot backend returned. *)
Definition load_epics_hydration (records : result (list SnapshotRecord) string) :
    result HydratedStatuses HydrationError :=
  match records with
  | Ok records => Ok (reduce_snapshot records)
  | Err e => Err (EpicsSnapshotReadFailed e)
  end.

(** ** ACNET *)

(** [load_acnet_hydration], given the connection and the response of the proxy;
    collecting pairs into a [HashMap] keeps the last value of a key. *)
Definition load_acnet_hydration (proxy : result (result (list Status) string) string) :
    result HydratedStatuses HydrationError :=
  match proxy with
  | Err e => Err (AeolusProxyConnectionFailed e)
  | Ok (Err e) => Err (AcnetSnapshotReadFailed e)
  | Ok (Ok snapshot) =>
      Ok (foldl (λ m status, <[key_from_status status := status]> m) ∅ snapshot)
  end.

(** ** The merge *)

(** [merge_hydrated_statuses]: the incoming map is a list of its entries in the
    unspecified order in which it is iterated. *)
Fixpoint merge_hydrated_statuses (accumulated : HydratedStatuses)
    (incoming : list (Key * Status)) : result HydratedStatuses HydrationError :=
  match incoming with
  | [] => Ok accumulated
  | (key, status) :: incoming' =>
      match accumulated !! key with
      | Some _ => Err (KeyInMultipleSources key)
      | None => merge_hydrated_statuses (<[key := status]> accumulated) incoming'
      end
  end.

(** [load_startup_hydration]: [try_join!] reports the error that occurs first. *)
Definition load_startup_hydration (acnet epics : result HydratedStatuses HydrationError)
    (acnet_first : bool) (order : HydratedStatuses → list (Key * Status)) :
    result HydratedStatuses HydrationError :=
  match acnet, epics with
  | Ok acnet_statuses, Ok epics_statuses =>
      merge_hydrated_statuses acnet_statuses (order epics_statuses)
  | Err e, Ok _ => Err e
  | Ok _, Err e => Err e
  | Err e1, Err e2 => Err (if acnet_first then e1 else e2)
  end.
End hydration.

(** ** What a replay keeps *)

Section facts.
Context `{UnicodeTables} `{ProtoEnums} `{StatusJson}.

(** What one record says about a key: nothing, or the status it now has, if any. *)
Definition record_effect (record : SnapshotRecord) : option (Key * option Status) :=
  match record.1 with
  | Some key_text =>
      match key_try_from key_text with
      | Ok key =>
          if bool_decide (key_source key = Source.Epics) then
            if string_is_empty (trim record.2) || eq_ignore_ascii_case (trim record.2) "null"
            then Some (key, None)
            else
              match json_from_str record.2 with
              | Some status =>
                  if bool_decide (source_of status = Source.Epics)
                  then Some (key, if bool_decide (state status = State.Bypassed)
                                  then Some status else None)
                  else None
              | None => None
              end
          else None
      | Err _ => None
      end
  | None => None
  end.

Definition effect_on (k : Key) (record : SnapshotRecord) : option (option Status) :=
  match record_effect record with
  | Some (k', v) => if bool_decide (k' = k) then Some v else None
  | None => None
  end.

Lemma reduce_record_effect h r :
  reduce_record h r =
  match record_effect r with
  | Some (k, Some status) => <[k := status]> h
  | Some (k, None) => delete k h
  | None => h
  end.
Proof.
  destruct r as [[key_text|] value]; [|done]. unfold reduce_record, record_effect. cbn.
  destruct (key_try_from key_text) as [key|]; [|done].
  destruct (_ || _), (json_from_str value) as [status|];
    repeat case_bool_decide; tauto.
Qed.

Lemma reduce_record_lookup h r k :
  reduce_record h r !! k =
  match effect_on k r with Some v => v | None => h !! k end.
Proof.
  rewrite reduce_record_effect. unfold effect_on.
  destruct (record_effect r) as [[k' [v|]]|]; [| |done]; rewrite ?lookup_insert, ?lookup_delete;
    (destruct (decide (k' = k)); [by rewrite bool_decide_eq_true_2|by rewrite bool_decide_eq_false_2]).
Qed.

Lemma reduce_snapshot_snoc records r :
  reduce_snapshot (records ++ [r]) = reduce_record (reduce_snapshot records) r.
Proof. unfold reduce_snapshot. by rewrite foldl_snoc. Qed.

Lemma reduce_snapshot_lookup records k :
  reduce_snapshot records !! k =
  match last (omap (effect_on k) records) with Some v => v | None => None end.
Proof.
  induction records as [|r records IH] using rev_ind; [done|].
  rewrite reduce_snapshot_snoc, reduce_record_lookup, IH, omap_app. cbn.
  destruct (effect_on k r); [by rewrite last_snoc|by rewrite app_nil_r].
Qed.

Lemma effect_on_Some k r status :
  effect_on k r = Some (Some status) →
  key_source k = Source.Epics ∧ source_of status = Source.Epics ∧
  state status = State.Bypassed ∧ ∃ t, r.1 = Some t ∧ key_try_from t = Ok k.
Proof.
  unfold effect_on, record_effect. intros He.
  repeat (case_match; simplify_eq/=); repeat case_bool_decide; simplify_eq; eauto 10.
Qed.

Lemma last_omap_Some {A B} (f : A → option B) l b :
  last (omap f l) = Some b → ∃ a, a ∈ l ∧ f a = Some b.
Proof.
  intros Hl. apply last_Some_elem_of in Hl. by apply list_elem_of_omap in Hl.
Qed.
End facts.

(** ** Properties *)

Section properties.
Context `{UnicodeLaws} `{ProtoLaws} `{StatusJsonLaws}.

(** Replay, record by record: a key is hydrated exactly with the status of the
    last record that says something about it, and is absent when that record is a
    tombstone or not a bypass, or when there is none; what is hydrated is an EPICS
    bypass under a key that commands can name. *)
Theorem reduce_snapshot_spec records k :
  match last (omap (effect_on k) records) with
  | Some (Some status) =>
      reduce_snapshot records !! k = Some status ∧
      key_source k = Source.Epics ∧ source_of status = Source.Epics ∧
      state status = State.Bypassed ∧ key_try_from (key_display k) = Ok k
  | _ => reduce_snapshot records !! k = None
  end.
Proof.
  rewrite reduce_snapshot_lookup.
  destruct (last (omap (effect_on k) records)) as [[status|]|] eqn:E; [|done..].
  apply last_omap_Some in E as (r & _ & (? & ? & ? & t & _ & Ht)%effect_on_Some).
  split_and!; try done. by apply key_try_from_Ok, key_display_try_from in Ht.
Qed.

Lemma json_not_tombstone status body :
  json_to_string status = Some body →
  string_is_empty (trim body) || eq_ignore_ascii_case (trim body) "null" = false.
Proof.
  intros [rest ->]%json_to_string_object.
  destruct (trim_head "{" rest) as [rest' ->]; [done..|]. cbn.
  unfold eq_ignore_ascii_case. rewrite bool_decide_eq_false_2; [done|]. cbn. intros [=].
Qed.

(** A published message and the record the topic returns for it. *)
Definition published (p : Key * Status) (r : SnapshotRecord) : Prop :=
  alarm_to_message p.1 p.2 tt = Ret ((default "" r.1, r.2), tt, []) ∧ is_Some r.1.

Lemma published_text p r :
  published p r → ∃ body, json_to_string p.2 = Some body ∧ r = (Some (key_display p.1), body).
Proof.
  destruct p as [k status], r as [key body]. unfold published. cbn. intros [Hmsg [text ->]].
  destruct (json_to_string_total status) as [body' Hb]. exists body'.
  unfold alarm_to_message in Hmsg. eff_unfold. rewrite Hb in Hmsg. by simplify_eq/=.
Qed.

Lemma effect_on_published k p r :
  published p r → key_wf p.1 → key_source p.1 = source_of p.2 →
  effect_on k r =
  if decide (p.1 = k ∧ nameable k ∧ key_source k = Source.Epics)
  then Some (if decide (state p.2 = State.Bypassed) then Some p.2 else None) else None.
Proof.
  intros (body & Hb & ->)%published_text Hwf Hsrc. unfold effect_on, record_effect. cbn.
  rewrite (json_not_tombstone _ _ Hb), (json_roundtrip _ _ Hb).
  destruct (key_try_from (key_display p.1)) as [k'|] eqn:Hk.
  - apply key_display_unambiguous in Hk as [-> Hname]; [|done]. rewrite <- Hsrc.
    destruct (decide (key_source p.1 = Source.Epics)) as [E|E].
    + rewrite !(bool_decide_eq_true_2 (_ = Source.Epics)) by done.
      destruct (decide (p.1 = k)) as [<-|Hne].
      * rewrite decide_True, bool_decide_eq_true_2 by done. by repeat case_bool_decide; case_decide.
      * by rewrite decide_False, bool_decide_eq_false_2 by tauto.
    + rewrite (bool_decide_eq_false_2 (_ = Source.Epics)), decide_False; [done|naive_solver|done].
  - rewrite decide_False; [done|]. intros (<- & Hname & _).
    by rewrite key_display_try_from in Hk.
Qed.

Definition kept (status : Status) : option Status :=
  if decide (state status = State.Bypassed) then Some status else None.

Lemma effects_published history records k :
  Forall2 published history records →
  Forall (λ p, key_wf p.1 ∧ key_source p.1 = source_of p.2) history →
  omap (effect_on k) records =
  if decide (nameable k ∧ key_source k = Source.Epics)
  then (λ p, kept p.2) <$> filter (λ p, p.1 = k) history else [].
Proof.
  induction 1 as [|p r history records Hp Hpub IH].
  { intros _. by destruct (decide _). }
  intros [[Hname Hsrc] Hok]%Forall_cons. cbn [omap list_omap].
  rewrite (effect_on_published k p r Hp Hname Hsrc), IH, filter_cons by done.
  destruct (decide (p.1 = k)) as [Hk|Hk], (decide (nameable k ∧ key_source k = Source.Epics)) as [E|E];
    (rewrite decide_True by tauto) || (rewrite decide_False by tauto); done.
Qed.

(** Round trip through the topic: replaying the messages the publish engine sent
    restores, for every EPICS alarm, the status published last when that was a
    bypass, and nothing else. *)
Theorem publish_hydrate_roundtrip history records k :
  Forall2 published history records →
  Forall (λ p, key_wf p.1 ∧ key_source p.1 = source_of p.2) history →
  nameable k →
  reduce_snapshot records !! k =
  match last (filter (λ p, p.1 = k) history) with
  | Some (_, status) =>
      if decide (key_source k = Source.Epics ∧ state status = State.Bypassed)
      then Some status else None
  | None => None
  end.
Proof.
  intros Hpub Hok Hname. rewrite reduce_snapshot_lookup, (effects_published history) by done.
  destruct (decide (nameable k ∧ key_source k = Source.Epics)) as [E|E].
  - rewrite fmap_last. destruct (last _) as [[k' status]|]; [|done]. cbn. unfold kept.
    destruct (decide (state status = State.Bypassed));
      [by rewrite decide_True by tauto|by rewrite decide_False by tauto].
  - cbn. destruct (last _) as [[k' status]|]; [|done]. by rewrite decide_False by tauto.
Qed.

(** *** ACNET and the merge *)

(** The ACNET snapshot keeps, for each alarm, the last status the proxy reports
    for it, under the key computed from that status. *)
Theorem acnet_hydration_spec snapshot k :
  ∃ m, load_acnet_hydration (Ok (Ok snapshot)) = Ok m ∧
    m !! k = last (filter (λ status, key_from_status status = k) snapshot).
Proof.
  eexists. split; [done|].
  induction snapshot as [|status snapshot IH] using rev_ind; [done|].
  rewrite foldl_snoc, filter_app, filter_cons, filter_nil, lookup_insert.
  case_decide; [by rewrite last_snoc|by rewrite app_nil_r].
Qed.

Lemma merge_spec l : ∀ m1 : HydratedStatuses,
  NoDup l.*1 →
  if decide (Forall (λ e, m1 !! e.1 = None) l)
  then merge_hydrated_statuses m1 l = Ok (m1 ∪ list_to_map l)
  else ∃ k, merge_hydrated_statuses m1 l = Err (KeyInMultipleSources k) ∧
            is_Some (m1 !! k) ∧ k ∈ l.*1.
Proof.
  induction l as [|[k v] l IH]; intros m1 Hnd; cbn [merge_hydrated_statuses].
  { rewrite decide_True by done. cbn. by rewrite (right_id_L ∅ (∪)). }
  apply NoDup_cons in Hnd as [Hin Hnd].
  destruct (m1 !! k) as [v'|] eqn:Hk.
  { rewrite decide_False by (intros [? _]%Forall_cons; cbn in *; congruence).
    exists k. split; [done|]. split; [by eexists|by left]. }
  specialize (IH (<[k:=v]> m1) Hnd).
  assert (Hiff : Forall (λ e, <[k:=v]> m1 !! e.1 = None) l ↔
                 Forall (λ e, m1 !! e.1 = None) ((k, v) :: l)).
  { rewrite Forall_cons, !Forall_forall. split.
    - intros Hf. split; [done|]. intros e He. specialize (Hf e He).
      by apply lookup_insert_None in Hf as [? _].
    - intros [_ Hf] e He. rewrite lookup_insert_ne; [by apply Hf|].
      intros ->. apply Hin. apply list_elem_of_fmap. by exists e. }
  destruct (decide (Forall (λ e, <[k:=v]> m1 !! e.1 = None) l)) as [Hf|Hf].
  - rewrite decide_True by by apply Hiff. rewrite IH. f_equal. cbn.
    rewrite <- insert_union_l, <- insert_union_r by done. done.
  - rewrite decide_False by by rewrite <- Hiff.
    destruct IH as (k' & -> & Hk' & Hin'). exists k'. split; [done|].
    split; [|by right]. rewrite lookup_insert_ne in Hk'; [done|]. by intros ->.
Qed.

(** Start-up hydration: in whatever order the map is iterated, two disjoint
    sources are united, and a key that both own is reported and stops the start-up;
    an error of either source stops it too. *)
Theorem startup_hydration_spec acnet epics acnet_first order :
  (∀ m, order m ≡ₚ map_to_list m) →
  match load_startup_hydration acnet epics acnet_first order, acnet, epics with
  | Ok m, Ok m1, Ok m2 => m1 ##ₘ m2 ∧ m = m1 ∪ m2
  | Err e, Ok m1, Ok m2 =>
      ∃ k, e = KeyInMultipleSources k ∧ is_Some (m1 !! k) ∧ is_Some (m2 !! k)
  | Err e, Err e1, Err e2 => e = if acnet_first then e1 else e2
  | Err e, Err e1, Ok _ => e = e1
  | Err e, Ok _, Err e2 => e = e2
  | Ok _, _, _ => False
  end.
Proof.
  intros Horder. destruct acnet as [m1|e1], epics as [m2|e2]; cbn; try done.
  assert (Hnd : NoDup (order m2).*1) by (rewrite Horder; apply NoDup_fst_map_to_list).
  pose proof (merge_spec (order m2) m1 Hnd) as Hmerge.
  destruct (decide (Forall _ _)) as [Hf|Hf].
  - rewrite Hmerge. rewrite Horder, Forall_forall in Hf. split.
    + apply map_disjoint_spec. intros k v1 v2 Hv1 Hv2%elem_of_map_to_list.
      specialize (Hf _ Hv2). cbn in Hf. congruence.
    + f_equal. trans (list_to_map (map_to_list m2) : gmap Key Status);
        [by apply list_to_map_proper|apply list_to_map_to_list].
  - destruct Hmerge as (k & -> & Hk & Hin). exists k. split; [done|]. split; [done|].
    rewrite Horder in Hin. apply list_elem_of_fmap in Hin as ([k' v] & -> & Hv).
    apply elem_of_map_to_list in Hv. by eexists.
Qed.
End properties.

(** ** Witnesses *)

#[local] Existing Instance ascii_only_tables.
#[local] Existing Instance ascii_only_laws.
#[local] Existing Instance sample_enums.
#[local] Existing Instance sample_laws.
#[local] Existing Instance sample_json.
#[local] Existing Instance sample_json_laws.

Definition hy_key : Key := {| key_device := "G:DEV"; key_source := Source.Epics |}.

Definition hy_status (st : State.t) : Status :=
  {| device := "G:DEV"; severity_raw := 0; state_raw := state_to_i32 st;
     source_raw := source_to_i32 Source.Epics; acknowledgeable := false; time := None;
     epics_type := ""; user := "ops"; wake := None |}.

Definition hy_record (st : State.t) : SnapshotRecord :=
  (Some "G:DEV#Epics", String "{" (write_bits (encode (hy_status st)))).

Lemma reduce_snapshot_spec_witness :
  match last (omap (effect_on hy_key) [hy_record State.Alarmed; hy_record State.Bypassed]) with
  | Some (Some status) =>
      reduce_snapshot [hy_record State.Alarmed; hy_record State.Bypassed] !! hy_key = Some status ∧
      key_source hy_key = Source.Epics ∧ source_of status = Source.Epics ∧
      state status = State.Bypassed ∧ key_try_from (key_display hy_key) = Ok hy_key
  | _ => reduce_snapshot [hy_record State.Alarmed; hy_record State.Bypassed] !! hy_key = None
  end.
Proof.
  apply (reduce_snapshot_spec [hy_record State.Alarmed; hy_record State.Bypassed] hy_key).
Defined.

Lemma hy_nameable : nameable hy_key.
Proof. by split_and!. Qed.

Lemma publish_hydrate_roundtrip_witness :
  reduce_snapshot [hy_record State.Alarmed; hy_record State.Bypassed] !! hy_key =
  Some (hy_status State.Bypassed).
Proof.
  assert (Hpub : Forall2 published
    [(hy_key, hy_status State.Alarmed); (hy_key, hy_status State.Bypassed)]
    [hy_record State.Alarmed; hy_record State.Bypassed]).
  { repeat constructor; by eexists. }
  rewrite (publish_hydrate_roundtrip
    [(hy_key, hy_status State.Alarmed); (hy_key, hy_status State.Bypassed)] _ hy_key Hpub).
  - reflexivity.
  - repeat constructor; by apply hy_nameable.
  - apply hy_nameable.
Defined.

Lemma startup_hydration_spec_witness :
  {[ hy_key := hy_status State.Ok ]} ##ₘ (∅ : HydratedStatuses) ∧
  load_startup_hydration (Ok {[ hy_key := hy_status State.Ok ]}) (Ok ∅) true map_to_list =
    Ok {[ hy_key := hy_status State.Ok ]}.
Proof.
  pose proof (startup_hydration_spec (Ok {[ hy_key := hy_status State.Ok ]}) (Ok ∅) true
    map_to_list (λ _, reflexivity _)) as Hspec.
  destruct Hspec as [Hdisj _]. split; [exact Hdisj|reflexivity].
Defined.
