(* ===== verification/Redis.v ===== *)
(** * Redis stream reader ([adapters/redis.rs])

    An entry of the stream is a map of text fields; it becomes a [Status] that goes
    to the automated ingress.  The stream and its connection are [rust-pubsub-lib]'s;
    a history of the reader is the list of entries it yields with the wall-clock
    second at which each is handled. *)

From S2P Require Export Model.

Local Open Scope string_scope.

Section redis.
Context `{UnicodeTables} `{ProtoEnums}.

(** [redis_entries.remove(field)]. *)
Definition remove (field : string) (entries : gmap string string) :
    option string * gmap string string := (entries !! field, delete field entries).

Definition parse_severity (severity_str : string) : Severity.t * State.t :=
  if bool_decide (severity_str = "NO_ALARM") then (Severity.Unknown, State.Ok)
  else if bool_decide (severity_str = "LOW") || bool_decide (severity_str = "MINOR")
  then (Severity.Low, State.Alarmed)
  else if bool_decide (severity_str = "HIGH") || bool_decide (severity_str = "MAJOR")
  then (Severity.High, State.Alarmed)
  else (Severity.Unknown, State.Unknown).

Definition parse_stream_source (source_str : string) : Source.t :=
  if bool_decide (source_str = "ANALOG") then Source.Analog
  else if bool_decide (source_str = "DIGITAL") then Source.Digital
  else if bool_decide (source_str = "EPICS") then Source.Epics
  else Source.Unknown.

(** [build_status_from_redis]. *)
Definition build_status_from_redis (utc_now : Z) (redis_entries : gmap string string) : Status :=
  let '(device_str, redis_entries) := remove "device" redis_entries in
  let dev := to_uppercase (default "" device_str) in
  let '(severity_opt, redis_entries) := remove "severity" redis_entries in
  let severity_str := to_uppercase (default "" severity_opt) in
  let '(severity_enum, state_enum) := parse_severity severity_str in
  let '(source_str, redis_entries) := remove "source" redis_entries in
  let source_enum := parse_stream_source (to_uppercase (default "" source_str)) in
  let '(timestamp_str, redis_entries) := remove "timestamp" redis_entries in
  let time_secs :=
    match timestamp_str with
    | Some time_str => match parse_i64 (trim time_str) with Some t => t | None => utc_now end
    | None => utc_now
    end in
  {| device := dev;
     severity_raw := severity_to_i32 severity_enum;
     state_raw := state_to_i32 state_enum;
     source_raw := source_to_i32 source_enum;
     acknowledgeable := false;
     time := Some {| seconds := time_secs; nanos := 0 |};
     epics_type := "";
     user := "";
     wake := None |}.

(** [run_alarm_stream]: the statuses passed to [send_automated_update], in order; an
    error of a send is only logged. *)
Fixpoint run_alarm_stream (stream : list (Z * gmap string string)) : list Status :=
  match stream with
  | [] => []
  | (utc_now, payload) :: stream' =>
      let status := build_status_from_redis utc_now payload in
      if string_is_empty (device status) then run_alarm_stream stream'
      else status :: run_alarm_stream stream'
  end.
End redis.

(** ** Properties *)

(** The text of a field, in upper case. *)
Definition field `{UnicodeTables} (entries : gmap string string) (name : string) : string :=
  to_uppercase (default "" (entries !! name)).

Section properties.
Context `{UnicodeLaws} `{ProtoLaws}.

Lemma build_status_fields utc_now entries :
  let status := build_status_from_redis utc_now entries in
  device status = field entries "device" ∧
  (severity_raw status, state_raw status) =
    (let '(sv, st) := parse_severity (field entries "severity") in
     (severity_to_i32 sv, state_to_i32 st)) ∧
  source_raw status = source_to_i32 (parse_stream_source (field entries "source")) ∧
  time status = Some {| seconds := match entries !! "timestamp" with
                                   | Some t => default utc_now (parse_i64 (trim t))
                                   | None => utc_now end; nanos := 0 |}.
Proof.
  unfold build_status_from_redis, remove, field. cbn zeta iota.
  rewrite !lookup_delete_ne by done.
  destruct (parse_severity _) as [sv st]. cbn. by split_and!.
Qed.

Lemma parse_stream_source_spec src :
  (parse_stream_source src = Source.Analog ↔ src = "ANALOG") ∧
  (parse_stream_source src = Source.Digital ↔ src = "DIGITAL") ∧
  (parse_stream_source src = Source.Epics ↔ src = "EPICS") ∧
  (parse_stream_source src = Source.Unknown ↔ src ∉ ["ANALOG"; "DIGITAL"; "EPICS"]).
Proof.
  rewrite !not_elem_of_cons. unfold parse_stream_source. repeat case_bool_decide; subst;
    split_and!; (split; [try done|intuition congruence]).
  intros _. split_and!; [done..|]. apply not_elem_of_nil.
Qed.

Lemma parse_severity_spec sev :
  ((parse_severity sev).2 = State.Alarmed ↔
     (parse_severity sev).1 = Severity.Low ∨ (parse_severity sev).1 = Severity.High) ∧
  ((parse_severity sev).1 = Severity.Low ↔ sev = "LOW" ∨ sev = "MINOR") ∧
  ((parse_severity sev).1 = Severity.High ↔ sev = "HIGH" ∨ sev = "MAJOR") ∧
  ((parse_severity sev).2 = State.Ok ↔ sev = "NO_ALARM") ∧
  ((parse_severity sev).2 = State.Ok ∨ (parse_severity sev).2 = State.Alarmed ∨
   (parse_severity sev).2 = State.Unknown).
Proof. unfold parse_severity. repeat case_bool_decide; cbn; intuition congruence. Qed.

(** C34 The status of a stream entry, field by field: the device and the source are
    those of the entry in any letter case, an unknown or missing source being Unknown;
    severity and state agree (alarmed exactly with a low or high severity, otherwise OK
    or unknown); the time is the entry's timestamp when that is a number, and the
    current time exactly when it is missing or is none; nothing of a user action is
    ever set. *)
Theorem redis_status_spec utc_now entries :
  let status := build_status_from_redis utc_now entries in
  let sev := field entries "severity" in
  let src := field entries "source" in
  device status = field entries "device" ∧
  (source_of status = Source.Analog ↔ src = "ANALOG") ∧
  (source_of status = Source.Digital ↔ src = "DIGITAL") ∧
  (source_of status = Source.Epics ↔ src = "EPICS") ∧
  (source_of status = Source.Unknown ↔ src ∉ ["ANALOG"; "DIGITAL"; "EPICS"]) ∧
  (state status = State.Alarmed ↔ severity status = Severity.Low ∨ severity status = Severity.High) ∧
  (severity status = Severity.Low ↔ sev = "LOW" ∨ sev = "MINOR") ∧
  (severity status = Severity.High ↔ sev = "HIGH" ∨ sev = "MAJOR") ∧
  (state status = State.Ok ↔ sev = "NO_ALARM") ∧
  (state status = State.Ok ∨ state status = State.Alarmed ∨ state status = State.Unknown) ∧
  (∃ secs, time status = Some {| seconds := secs; nanos := 0 |} ∧
     (∀ text z, entries !! "timestamp" = Some text → parse_i64 (trim text) = Some z → secs = z) ∧
     (∀ text, entries !! "timestamp" = Some text → parse_i64 (trim text) = None → secs = utc_now) ∧
     (entries !! "timestamp" = None → secs = utc_now)) ∧
  (acknowledgeable status, epics_type status, user status, wake status) =
    (false, "", "", None).
Proof.
  intros status sev src.
  destruct (build_status_fields utc_now entries) as (Hd & Hsev & Hsrc & Ht).
  fold status in Hd, Hsev, Hsrc, Ht. fold sev in Hsev. fold src in Hsrc.
  destruct (parse_severity sev) as [sv st] eqn:Hp. injection Hsev as Hsv Hst.
  assert (Hsv' : severity status = sv) by (unfold severity; rewrite Hsv; apply severity_roundtrip).
  assert (Hst' : state status = st) by (unfold state; rewrite Hst; apply state_roundtrip).
  assert (Hsrc' : source_of status = parse_stream_source src)
    by (unfold source_of; rewrite Hsrc; apply source_roundtrip).
  assert (Hrest : (acknowledgeable status, epics_type status, user status, wake status) =
    (false, "", "", None)).
  { clear. unfold status, build_status_from_redis, remove. cbn zeta iota.
    by destruct (parse_severity (to_uppercase _)). }
  rewrite Hsv', Hst', Hsrc', Ht. split; [done|].
  destruct (parse_stream_source_spec src) as (? & ? & ? & ?). do 4 (split; [done|]).
  destruct (parse_severity_spec sev) as (? & ? & ? & ? & ?).
  rewrite Hp in *. do 5 (split; [done|]). split; [|done].
  eexists. split; [reflexivity|]. by split_and!; intros *; [intros -> ->|intros -> ->|intros ->].
Qed.

(** A source the stream reader knows is the one a command's text names. *)
Lemma parse_source_stream src :
  parse_stream_source (to_uppercase src) ≠ Source.Unknown →
  parse_source src = Some (parse_stream_source (to_uppercase src)).
Proof.
  unfold parse_source. rewrite <- trim_to_uppercase. intros Hknown.
  destruct (decide (to_uppercase src = "ANALOG")) as [->|?]; [done|].
  destruct (decide (to_uppercase src = "DIGITAL")) as [->|?]; [done|].
  destruct (decide (to_uppercase src = "EPICS")) as [->|?]; [done|].
  destruct Hknown. unfold parse_stream_source. by rewrite !bool_decide_eq_false_2.
Qed.

Lemma normalize_device_upper d : normalize_device (to_uppercase d) = normalize_device d.
Proof. unfold normalize_device. by rewrite trim_to_uppercase, to_uppercase_idem. Qed.

(** Streams and commands name the same alarm: for a known source and a device name
    without ['#'] that is not blank, the key computed from a stream entry is the one
    a command with the text "device#source" parses to. *)
Theorem redis_key_agrees_with_commands utc_now entries dev src :
  entries !! "device" = Some dev → entries !! "source" = Some src →
  contains_char "#" dev = false → normalize_device dev ≠ "" →
  parse_stream_source (to_uppercase src) ≠ Source.Unknown →
  key_try_from (dev +:+ "#" +:+ src) = Ok (key_from_status (build_status_from_redis utc_now entries)).
Proof.
  intros Hdev Hsource Hhash Hblank Hknown.
  destruct (build_status_fields utc_now entries) as (Hd & _ & Hs & _).
  unfold key_try_from. rewrite split_once_sep by done.
  unfold key_from_status, source_of. rewrite Hd, Hs, source_roundtrip.
  unfold field in *. rewrite Hdev, Hsource in *. cbn [default option_map from_option id].
  rewrite parse_source_stream, normalize_device_upper by done.
  by destruct (normalize_device dev).
Qed.

(** The stream loop forwards, in order, exactly the entries with a device. *)
Lemma run_alarm_stream_filter stream :
  run_alarm_stream stream =
  filter (λ status, device status ≠ "") ((λ e, build_status_from_redis e.1 e.2) <$> stream).
Proof.
  induction stream as [|[now p] stream IH]; [done|].
  rewrite fmap_cons, filter_cons. cbn [run_alarm_stream fst snd]. rewrite IH.
  destruct (device (build_status_from_redis now p)) eqn:E; cbn.
  - rewrite decide_False; [done|]. by intros [].
  - by rewrite decide_True.
Qed.
End properties.

(** ** Witnesses *)

#[local] Existing Instance ascii_only_tables.
#[local] Existing Instance ascii_only_laws.
#[local] Existing Instance sample_enums.
#[local] Existing Instance sample_laws.

Definition sample_entry : gmap string string :=
  {[ "device" := " m:outtmp"; "severity" := "major"; "source" := "analog";
     "timestamp" := " 1700000000 " ]}.

Lemma redis_status_spec_witness :
  let status := build_status_from_redis 5 sample_entry in
  state status = State.Alarmed ∧ severity status = Severity.High ∧
  source_of status = Source.Analog ∧
  time status = Some {| seconds := 1700000000; nanos := 0 |}.
Proof.
  destruct (redis_status_spec 5 sample_entry)
    as (_ & Hsrc & _ & _ & _ & Hstate & _ & Hhigh & _ & _ & (secs & Htime & Hnum & _) & _).
  assert (Hsev : severity (build_status_from_redis 5 sample_entry) = Severity.High)
    by (apply Hhigh; right; reflexivity).
  split; [apply Hstate; by right|]. split; [exact Hsev|].
  split; [apply Hsrc; reflexivity|].
  rewrite <- (Hnum " 1700000000 " 1700000000%Z eq_refl eq_refl). exact Htime.
Defined.

Lemma redis_key_agrees_with_commands_witness :
  key_try_from (" m:outtmp" +:+ "#" +:+ "analog") =
  Ok (key_from_status (build_status_from_redis 5 sample_entry)).
Proof. by apply (redis_key_agrees_with_commands 5 sample_entry " m:outtmp" "analog"). Defined.
