(* ===== verification/Grpc.v ===== *)
(** * gRPC commands ([adapters/grpc.rs])

    A command names devices, becomes one [UserUpdate] per device on the bounded
    user queue, and waits for one confirmation each.  tonic and the [oneshot]
    channels are abstracted: a confirmation is the number of its channel, and what
    the other side eventually answers on it is an argument of the handler. *)

From S2P Require Export Model Ingress.
From stdpp Require Import list.

Inductive TonicCode := CodeInvalidArgument | CodeInternal | CodeResourceExhausted.

Record TonicStatus := mkTonicStatus {
  code : TonicCode;
  message : string;
}.

Definition invalid_argument (m : string) : TonicStatus := mkTonicStatus CodeInvalidArgument m.
Definition internal (m : string) : TonicStatus := mkTonicStatus CodeInternal m.
Definition resource_exhausted (m : string) : TonicStatus := mkTonicStatus CodeResourceExhausted m.

(** The user queue the service sends to, and the next unused [oneshot] channel. *)
Record GrpcState := mkGrpcState {
  user_channel : bchan DomainInput;
  next_oneshot : nat;
}.

(** What awaiting a [oneshot] receiver gives: [None] when the sender was dropped. *)
Definition Answer : Type := option (result unit UpdateError).

Definition on_user_channel {A} (m : Eff (bchan DomainInput) InOut A) : Eff GrpcState InOut A :=
  λ s, match m (user_channel s) with
       | Ret (a, c, o) => Ret (a, mkGrpcState c (next_oneshot s), o)
       | Panic msg => Panic msg
       end.

(** [oneshot::channel()]. *)
Definition oneshot_channel : Eff GrpcState InOut nat :=
  s ← get;
  modify (λ s, mkGrpcState (user_channel s) (S (next_oneshot s))) ;;
  mret (next_oneshot s).

Definition shut_down_msg : string := "The alarms state machine has shut down!".
Definition queue_full_msg : string :=
  "Alarm command queue is full; rejecting request instead of waiting behind backlog".

Definition map_user_send_error (error : ChannelSendError) : TonicStatus :=
  match error with
  | ChanFull => resource_exhausted queue_full_msg
  | ChanClosed => internal shut_down_msg
  end.

Section grpc.
Context `{UnicodeTables} `{ProtoEnums}.

(** The loop of [build_keys]. *)
Fixpoint build_keys_loop (devices : list string) (keys : list Key) (errs : list string) :
    list Key * list string :=
  match devices with
  | [] => (keys, errs)
  | device_source :: devices' =>
      match key_try_from device_source with
      | Ok key => build_keys_loop devices' (keys ++ [key]) errs
      | Err text => build_keys_loop devices' keys (errs ++ [text])
      end
  end.

Definition build_keys (devices : list string) : result (list Key) TonicStatus :=
  let '(keys, errs) := build_keys_loop devices [] [] in
  match errs with
  | [] => Ok keys
  | _ => Err (invalid_argument (RustStd.join "; " errs))
  end.

(** [submit_updates], with the receivers pushed so far. *)
Fixpoint submit_updates (keys : list Key) (action : UserAction) (user : string)
    (results_fut : list Confirmation) :
    Eff GrpcState InOut (result (list Confirmation) TonicStatus) :=
  match keys with
  | [] => mret (Ok results_fut)
  | key :: keys' =>
      confirmation ← oneshot_channel;
      r ← on_user_channel (user_try_send (UserUpdate key action user confirmation));
      match r with
      | Err e => mret (Err (map_user_send_error e))
      | Ok _ => submit_updates keys' action user (results_fut ++ [confirmation])
      end
  end.

Definition build_grpc_result (bad_requests internal_errs : list string) :
    result unit TonicStatus :=
  match bad_requests, internal_errs with
  | [], [] => Ok tt
  | _, [] => Err (invalid_argument (RustStd.join "; " bad_requests))
  | _, _ =>
      let bad_request_msg :=
        match bad_requests with
        | [] => EmptyString
        | _ => (String "010" " - " +:+ String "010" "Additionally, some requests were malformed: ")
                 +:+ RustStd.join "; " bad_requests
        end in
      Err (internal ("Failed processing requests: " +:+ RustStd.join ";" internal_errs +:+ bad_request_msg))
  end.

(** The loop of [handle_confirmation]; [keys[index]] panics out of range. *)
Fixpoint sort_answers {S} (index : nat) (answers : list Answer) (keys : list Key)
    (bad_requests internal_errs : list string) : Eff S InOut (list string * list string) :=
  match answers with
  | [] => mret (bad_requests, internal_errs)
  | answer :: answers' =>
      match answer with
      | None =>
          key ← expect (keys !! index) "index out of bounds";
          sort_answers (Datatypes.S index) answers' keys bad_requests
            (internal_errs ++
              ["State machine is down. Did not process " +:+ key_display key +:+ "."])
      | Some (Err (Internal k)) =>
          sort_answers (Datatypes.S index) answers' keys bad_requests
            (internal_errs ++ [update_error_display (Internal k)])
      | Some (Err (StateNotAllowed t)) =>
          sort_answers (Datatypes.S index) answers' keys
            (bad_requests ++ [update_error_display (StateNotAllowed t)]) internal_errs
      | Some (Ok _) => sort_answers (Datatypes.S index) answers' keys bad_requests internal_errs
      end
  end.

Definition handle_confirmation {S} (answers : list Answer) (keys : list Key) (latency : Z) :
    Eff S InOut (result unit TonicStatus) :=
  errs ← sort_answers 0 answers keys [] [];
  emit (InMetric (RecConfirmationLatency latency)) ;;
  mret (build_grpc_result errs.1 errs.2).

(** [submit_and_confirm_user_update]; [answers] is what is awaited. *)
Definition submit_and_confirm_user_update (answers : Confirmation → Answer) (latency : Z)
    (devices : list string) (action : UserAction) (user : string) :
    Eff GrpcState InOut (result unit TonicStatus) :=
  match build_keys devices with
  | Err e => mret (Err e)
  | Ok keys =>
      r ← submit_updates keys action user [];
      match r with
      | Err e => mret (Err e)
      | Ok results_fut => handle_confirmation (answers <$> results_fut) keys latency
      end
  end.

(** The methods of the service. *)
Definition acknowledge answers latency devices user :=
  submit_and_confirm_user_update answers latency devices Acknowledge user.

Definition activate answers latency devices user :=
  submit_and_confirm_user_update answers latency devices Activate user.

Definition bypass answers latency devices user :=
  submit_and_confirm_user_update answers latency devices (Bypass None) user.

Definition snooze answers latency devices (wake : option Timestamp) user :
    Eff GrpcState InOut (result unit TonicStatus) :=
  match wake with
  | None => mret (Err (invalid_argument "wake timestamp is required"))
  | Some _ => submit_and_confirm_user_update answers latency devices (Bypass wake) user
  end.

Definition get_snapshot (answers : SnapshotSender → option AlarmsSnapshot) :
    Eff GrpcState InOut (result AlarmsSnapshot TonicStatus) :=
  sender ← oneshot_channel;
  r ← on_user_channel (user_try_send (SnapshotRequest sender));
  match r with
  | Err e => mret (Err (map_user_send_error e))
  | Ok _ =>
      match answers sender with
      | Some snapshot => mret (Ok snapshot)
      | None => mret (Err (internal shut_down_msg))
      end
  end.
End grpc.

(** ** Facts *)

Section facts.
Context `{UnicodeTables} `{ProtoEnums}.

Definition parsed (d : string) : list Key := match key_try_from d with Ok k => [k] | Err _ => [] end.
Definition parse_error (d : string) : list string :=
  match key_try_from d with Ok _ => [] | Err t => [t] end.

Lemma build_keys_loop_run devices keys errs :
  build_keys_loop devices keys errs =
  (keys ++ (devices ≫= parsed), errs ++ (devices ≫= parse_error)).
Proof.
  revert keys errs. induction devices as [|d devices IH]; intros keys errs.
  { cbn. by rewrite !app_nil_r. }
  cbn [build_keys_loop]. rewrite !bind_cons. unfold parsed at 1, parse_error at 1.
  destruct (key_try_from d); rewrite IH; cbn; by rewrite <- !app_assoc.
Qed.

Lemma build_keys_run devices :
  build_keys devices =
  match devices ≫= parse_error with
  | [] => Ok (devices ≫= parsed)
  | errs => Err (invalid_argument (RustStd.join "; " errs))
  end.
Proof. unfold build_keys. rewrite build_keys_loop_run. cbn. by destruct (devices ≫= parse_error). Qed.

Lemma no_parse_errors devices :
  devices ≫= parse_error = [] →
  Forall2 (λ d k, key_try_from d = Ok k) devices (devices ≫= parsed).
Proof.
  induction devices as [|d devices IH]; [constructor|]. rewrite !bind_cons.
  intros [Hd Hrest]%app_nil. unfold parse_error in Hd. unfold parsed at 1.
  destruct (key_try_from d) eqn:E; [|done]. cbn. constructor; [done|by apply IH].
Qed.

(** The commands for a list of keys, with their confirmation channels. *)
Definition commands (keys : list Key) (action : UserAction) (user : string) (n : nat) :
    list DomainInput :=
  zip_with (λ key c, UserUpdate key action user c) keys (seq n (length keys)).

Definition room (tx : bchan DomainInput) : nat := capacity tx - length (queued tx).

Definition enqueue (tx : bchan DomainInput) (l : list DomainInput) : bchan DomainInput :=
  mkBchan (queued tx ++ l) (capacity tx) (receiver_alive tx).

Lemma try_send_one m s :
  receiver_alive (user_channel s) = true → 0 < room (user_channel s) →
  on_user_channel (user_try_send m) s =
  Ret (Ok tt, mkGrpcState (enqueue (user_channel s) [m]) (next_oneshot s), [InQueued m]).
Proof.
  unfold room, on_user_channel, user_try_send, try_send. intros Ha Hroom. eff_unfold.
  rewrite Ha. destruct (Nat.ltb_spec (length (queued (user_channel s))) (capacity (user_channel s)));
    [|lia]. unfold enqueue. by rewrite Ha.
Qed.

Lemma try_send_full m s :
  receiver_alive (user_channel s) = true → room (user_channel s) = 0 →
  on_user_channel (user_try_send m) s = Ret (Err ChanFull, s, [InMetric RecUserQueueFullRejection]).
Proof.
  unfold room, on_user_channel, user_try_send, try_send. intros Ha Hroom. eff_unfold.
  rewrite Ha. destruct (Nat.ltb_spec (length (queued (user_channel s))) (capacity (user_channel s)));
    [lia|]. by destruct s.
Qed.

Lemma room_enqueue tx m : 0 < room tx → room (enqueue tx [m]) = room tx - 1.
Proof. unfold room, enqueue. cbn. rewrite length_app. cbn. lia. Qed.

Lemma enqueue_enqueue tx l1 l2 : enqueue (enqueue tx l1) l2 = enqueue tx (l1 ++ l2).
Proof. unfold enqueue. cbn. by rewrite <- app_assoc. Qed.

Lemma commands_cons key keys action user n :
  commands (key :: keys) action user n =
  UserUpdate key action user n :: commands keys action user (S n).
Proof. done. Qed.

(** One command of [submit_updates] that finds room. *)
Lemma submit_updates_cons key keys action user acc s :
  receiver_alive (user_channel s) = true → 0 < room (user_channel s) →
  let m := UserUpdate key action user (next_oneshot s) in
  submit_updates (key :: keys) action user acc s =
  match submit_updates keys action user (acc ++ [next_oneshot s])
          (mkGrpcState (enqueue (user_channel s) [m]) (S (next_oneshot s))) with
  | Ret (r, s', o) => Ret (r, s', InQueued m :: o)
  | Panic msg => Panic msg
  end.
Proof.
  intros Ha Hroom m. cbn [submit_updates]. unfold oneshot_channel. eff_unfold. cbn.
  rewrite try_send_one by done. cbn. subst m. by destruct (submit_updates _ _ _ _ _) as [[[] ]|].
Qed.

(** Submission to a live queue: as many commands as there is room for. *)
Lemma submit_updates_run keys action user acc s :
  receiver_alive (user_channel s) = true →
  let n := next_oneshot s in
  let free := room (user_channel s) in
  let cs := commands keys action user n in
  submit_updates keys action user acc s =
  if (length keys <=? free)%nat then
    Ret (Ok (acc ++ seq n (length keys)),
         mkGrpcState (enqueue (user_channel s) cs) (n + length keys), map InQueued cs)
  else
    Ret (Err (resource_exhausted queue_full_msg),
         mkGrpcState (enqueue (user_channel s) (take free cs)) (S (n + free)),
         map InQueued (take free cs) ++ [InMetric RecUserQueueFullRejection]).
Proof.
  revert acc s. induction keys as [|key keys IH]; intros acc s Ha; cbn zeta.
  { cbn. eff_unfold. unfold enqueue. rewrite !app_nil_r, Nat.add_0_r.
    by destruct s as [[] ?]. }
  destruct (room (user_channel s)) as [|free] eqn:Hroom.
  - cbn [submit_updates]. unfold oneshot_channel. eff_unfold. cbn.
    rewrite try_send_full by done. cbn. unfold enqueue. rewrite app_nil_r, Nat.add_0_r.
    by destruct (user_channel s).
  - rewrite submit_updates_cons by (done || lia). rewrite IH by done. cbn [user_channel next_oneshot].
    rewrite room_enqueue by lia. rewrite Hroom. cbn [length Nat.leb Nat.sub].
    rewrite Nat.sub_0_r, commands_cons. cbn [take map seq].
    rewrite !enqueue_enqueue, !Nat.add_succ_r. cbn [app Nat.add].
    destruct (length keys <=? free)%nat; by rewrite <- ?app_assoc.
Qed.

Lemma submit_updates_closed key keys action user acc s :
  receiver_alive (user_channel s) = false →
  submit_updates (key :: keys) action user acc s =
  Ret (Err (internal shut_down_msg), mkGrpcState (user_channel s) (S (next_oneshot s)), []).
Proof.
  intros Ha. cbn [submit_updates]. unfold oneshot_channel, on_user_channel, user_try_send, try_send.
  eff_unfold. cbn. by rewrite Ha.
Qed.

(** The messages for the answers that are not a success. *)
Definition bad_request (a : Answer) : list string :=
  match a with Some (Err (StateNotAllowed t)) => [update_error_display (StateNotAllowed t)] | _ => [] end.

Definition internal_error (a : Answer) (key : Key) : list string :=
  match a with
  | None => ["State machine is down. Did not process " +:+ key_display key +:+ "."]
  | Some (Err (Internal k)) => [update_error_display (Internal k)]
  | _ => []
  end.

Lemma sort_answers_run {S} answers keys done bad int (s : S) :
  length answers = length keys →
  sort_answers (length done) answers (done ++ keys) bad int s =
  Ret ((bad ++ (answers ≫= bad_request),
        int ++ mjoin (zip_with internal_error answers keys)), s, []).
Proof.
  revert keys done bad int. induction answers as [|a answers IH]; intros [|key keys] d bad int Hlen;
    try done; [by cbn; rewrite !app_nil_r|].
  injection Hlen as Hlen. cbn [sort_answers].
  assert (Hstep : ∀ bad int, sort_answers (Datatypes.S (length d)) answers (d ++ key :: keys) bad int s =
    Ret ((bad ++ (answers ≫= bad_request),
          int ++ mjoin (zip_with internal_error answers keys)), s, [])).
  { intros bad' int'. specialize (IH keys (d ++ [key]) bad' int' Hlen).
    by rewrite length_app, Nat.add_1_r, <- app_assoc in IH. }
  destruct a as [[[]|[k|t]]|]; rewrite ?Hstep; cbn; rewrite <- ?app_assoc; try done.
  rewrite list_lookup_middle by done. eff_unfold. cbn. rewrite Hstep. cbn. by rewrite <- app_assoc.
Qed.
End facts.

(** ** Properties *)

Section properties.
Context `{UnicodeTables} `{ProtoEnums}.

(** Parsing the devices of a command: either every text names a key, and the keys
    come in the order of the request, or the command is rejected as an invalid
    argument that lists the problem of every bad text in order. *)
Theorem build_keys_spec devices :
  match build_keys devices with
  | Ok keys => Forall2 (λ d k, key_try_from d = Ok k) devices keys
  | Err e =>
      (∃ d t, d ∈ devices ∧ key_try_from d = Err t) ∧
      e = invalid_argument (RustStd.join "; " (devices ≫= parse_error))
  end.
Proof.
  rewrite build_keys_run. destruct (devices ≫= parse_error) as [|t errs] eqn:E.
  - by apply no_parse_errors.
  - split; [|done].
    assert (Ht : t ∈ devices ≫= parse_error) by (rewrite E; left).
    apply list_elem_of_bind in Ht as (d & Ht & Hd). exists d, t. split; [done|].
    unfold parse_error in Ht. destruct (key_try_from d); [by apply not_elem_of_nil in Ht|].
    by apply list_elem_of_singleton in Ht as ->.
Qed.

Lemma submit_and_confirm_run answers latency devices keys action user s :
  build_keys devices = Ok keys → receiver_alive (user_channel s) = true →
  length keys ≤ room (user_channel s) →
  let n := next_oneshot s in
  let cs := commands keys action user n in
  let got := answers <$> seq n (length keys) in
  submit_and_confirm_user_update answers latency devices action user s =
  Ret (build_grpc_result (got ≫= bad_request) (mjoin (zip_with internal_error got keys)),
       mkGrpcState (enqueue (user_channel s) cs) (n + length keys),
       map InQueued cs ++ [InMetric (RecConfirmationLatency latency)]).
Proof.
  intros Hk Ha Hroom n cs got. unfold submit_and_confirm_user_update. rewrite Hk. eff_unfold.
  rewrite submit_updates_run by done. rewrite (proj2 (Nat.leb_le _ _) Hroom). cbn [app].
  unfold handle_confirmation. eff_unfold.
  rewrite (sort_answers_run got keys [] [] []); [|by unfold got; rewrite length_fmap, length_seq].
  done.
Qed.

Lemma build_grpc_result_code bad int :
  match build_grpc_result bad int with
  | Ok _ => bad = [] ∧ int = []
  | Err e => code e = (if decide (int = []) then CodeInvalidArgument else CodeInternal) ∧
             (bad ≠ [] ∨ int ≠ [])
  end.
Proof. destruct bad, int; cbn; auto. Qed.

Lemma bad_requests_nil got t : got ≫= bad_request = [] → Some (Err (StateNotAllowed t)) ∉ got.
Proof.
  intros Hnil Hin.
  assert (Hx : update_error_display (StateNotAllowed t) ∈ got ≫= bad_request).
  { apply list_elem_of_bind. exists (Some (Err (StateNotAllowed t))). split; [by left|done]. }
  rewrite Hnil in Hx. by apply not_elem_of_nil in Hx.
Qed.

Lemma bad_requests_not_nil got :
  got ≫= bad_request ≠ [] → ∃ t, Some (Err (StateNotAllowed t)) ∈ got.
Proof.
  intros Hne. destruct (got ≫= bad_request) as [|x l] eqn:E; [done|].
  assert (Hx : x ∈ got ≫= bad_request) by (rewrite E; left).
  apply list_elem_of_bind in Hx as (a & Ha & Hin).
  destruct a as [[[]|[k|t]]|]; cbn in Ha; try (by apply not_elem_of_nil in Ha). by exists t.
Qed.

(** An answer that means the update may have been lost. *)
Definition internal_answer (a : Answer) : bool :=
  match a with None | Some (Err (Internal _)) => true | _ => false end.

Lemma internal_errors_nil got keys :
  length got = length keys →
  mjoin (zip_with internal_error got keys) = [] ↔ Forall (λ a, internal_answer a = false) got.
Proof.
  revert keys. induction got as [|a got IH]; intros [|key keys] Hlen; try done.
  injection Hlen as Hlen. cbn. rewrite app_nil, Forall_cons, IH by done.
  destruct a as [[[]|[k|t]]|]; cbn; intuition discriminate.
Qed.

(** A success means that every answer is one. *)
Lemma ok_reply_answers got keys :
  length got = length keys →
  build_grpc_result (got ≫= bad_request) (mjoin (zip_with internal_error got keys)) = Ok tt →
  Forall (λ a, a = Some (Ok tt)) got.
Proof.
  intros Hlen Hres.
  pose proof (build_grpc_result_code (got ≫= bad_request)
                (mjoin (zip_with internal_error got keys))) as Hcode.
  rewrite Hres in Hcode. destruct Hcode as [Hb Hi]. apply internal_errors_nil in Hi; [|done].
  rewrite Forall_forall in *. intros a Hin. specialize (Hi a Hin).
  destruct a as [[[]|[k|t]]|]; try done. by destruct (bad_requests_nil _ t Hb).
Qed.

(** All answers are successes exactly when there is nothing to report. *)
Lemma all_successes got keys :
  length got = length keys → Forall (λ a, a = Some (Ok tt)) got →
  build_grpc_result (got ≫= bad_request) (mjoin (zip_with internal_error got keys)) = Ok tt.
Proof.
  intros Hlen Hall.
  assert (Hb : got ≫= bad_request = []) by (clear Hlen; induction Hall as [|a l ->]; [done|]; by cbn).
  rewrite Hb, (proj2 (internal_errors_nil got keys Hlen)); [done|].
  eapply Forall_impl; [exact Hall|]. by intros a ->.
Qed.

(** What the answers that were awaited for the keys of a command make of its reply: a
    success exactly when all are successes; otherwise an invalid argument that lists
    every transition that was not allowed, unless some update may have been lost, when
    it is an internal error that lists every such update. *)
Definition reply_to (keys : list Key) (got : list Answer) (res : result unit TonicStatus) : Prop :=
  (res = Ok tt ↔ Forall (λ a, a = Some (Ok tt)) got) ∧
  ∀ e, res = Err e →
    if decide (Forall (λ a, internal_answer a = false) got)
    then e = invalid_argument (RustStd.join "; " (got ≫= bad_request))
    else code e = CodeInternal ∧
         ∃ rest, message e = "Failed processing requests: " +:+
                   RustStd.join ";" (mjoin (zip_with internal_error got keys)) +:+ rest.

Lemma reply_to_build keys got :
  length got = length keys →
  reply_to keys got
    (build_grpc_result (got ≫= bad_request) (mjoin (zip_with internal_error got keys))).
Proof.
  intros Hlen. split.
  - split; [by apply ok_reply_answers|by apply all_successes].
  - intros e. pose proof (internal_errors_nil got keys Hlen) as Hint. unfold build_grpc_result.
    case_decide as Hd.
    + rewrite (proj2 Hint Hd). by destruct (got ≫= bad_request); intros [= <-].
    + destruct (mjoin (zip_with internal_error got keys)) as [|x l]; [by destruct Hd; apply Hint|].
      destruct (got ≫= bad_request); intros [= <-]; cbn -[RustStd.join]; eauto.
Qed.


(** The reply to a command that was submitted in full: success exactly when every
    update was confirmed; an internal error exactly when some update may have been
    lost (its confirmation is an internal error or was dropped); an invalid argument
    when the only failures are transitions that are not allowed.  Collecting the
    answers never indexes out of range. *)
Theorem command_reply answers latency devices keys action user s :
  build_keys devices = Ok keys → receiver_alive (user_channel s) = true →
  length keys ≤ room (user_channel s) →
  let got := answers <$> seq (next_oneshot s) (length keys) in
  ∃ res s' outs,
    submit_and_confirm_user_update answers latency devices action user s = Ret (res, s', outs) ∧
    match res with
    | Ok _ => Forall (λ a, a = Some (Ok tt)) got
    | Err e =>
        (code e = CodeInternal ∧ ∃ a, a ∈ got ∧ internal_answer a = true) ∨
        (code e = CodeInvalidArgument ∧ Forall (λ a, internal_answer a = false) got ∧
         ∃ t, Some (Err (StateNotAllowed t)) ∈ got)
    end.
Proof.
  intros Hk Ha Hroom got. rewrite submit_and_confirm_run with (keys := keys) by done.
  eexists _, _, _. split; [done|]. fold got.
  assert (Hlen : length got = length keys) by (unfold got; by rewrite length_fmap, length_seq).
  pose proof (build_grpc_result_code (got ≫= bad_request)
                (mjoin (zip_with internal_error got keys))) as Hcode.
  pose proof (internal_errors_nil got keys Hlen) as Hint.
  destruct (build_grpc_result _ _) as [[]|e] eqn:Hres.
  - by apply (ok_reply_answers got keys).
  - destruct Hcode as [Hcode Hne]. destruct (decide (mjoin _ = [])) as [Hi|Hi].
    + right. split; [done|]. split; [by apply Hint|].
      destruct Hne as [Hb|]; [by apply bad_requests_not_nil|done].
    + left. split; [done|]. rewrite Hint in Hi.
      apply not_Forall_Exists in Hi; [|intros a; apply _].
      apply Exists_exists in Hi as (a & Hin & Hnot). exists a. split; [done|].
      by apply not_false_is_true.
Qed.

(** The four commands differ in the update they submit only; a snooze without a
    wake time is refused before anything is parsed or submitted, and a snapshot
    request is one message, answered with what the coordinator sends back. *)
Theorem commands_spec answers latency devices (wake : option Timestamp) user
    (snapshots : SnapshotSender → option AlarmsSnapshot) s :
  acknowledge answers latency devices user s =
    submit_and_confirm_user_update answers latency devices Acknowledge user s ∧
  snooze answers latency devices wake user s =
    match wake with
    | None => Ret (Err (invalid_argument "wake timestamp is required"), s, [])
    | Some w => submit_and_confirm_user_update answers latency devices (Bypass (Some w)) user s
    end ∧
  get_snapshot snapshots s =
    (let request := SnapshotRequest (next_oneshot s) in
     let next := S (next_oneshot s) in
     if receiver_alive (user_channel s) then
       if (length (queued (user_channel s)) <? capacity (user_channel s))%nat
       then Ret (match snapshots (next_oneshot s) with
                 | Some snapshot => Ok snapshot
                 | None => Err (internal shut_down_msg) end,
                 mkGrpcState (enqueue (user_channel s) [request]) next, [InQueued request])
       else Ret (Err (resource_exhausted queue_full_msg), mkGrpcState (user_channel s) next,
                 [InMetric RecUserQueueFullRejection])
     else Ret (Err (internal shut_down_msg), mkGrpcState (user_channel s) next, [])).
Proof.
  split; [done|]. split; [by destruct wake|]. cbn zeta.
  unfold get_snapshot, oneshot_channel, on_user_channel, user_try_send, try_send, enqueue.
  eff_unfold. cbn [user_channel next_oneshot]. destruct (receiver_alive (user_channel s)); [|done].
  destruct (length (queued (user_channel s)) <? capacity (user_channel s))%nat; [|done].
  cbn. by destruct (snapshots _).
Qed.
End properties.

(** ** Witnesses *)

#[local] Existing Instance ascii_only_tables.

Definition sample_grpc (cap : nat) : GrpcState := mkGrpcState (mkBchan [] cap true) 4.

Definition sample_answers (c : Confirmation) : Answer :=
  if (c =? 4)%nat then Some (Ok tt) else None.

Definition sample_devices : list string := ["M:OUTTMP#Analog"; "g:dev#epics"].
Definition sample_keys : list Key := [mkKey "M:OUTTMP" Source.Analog; mkKey "G:DEV" Source.Epics].


Lemma command_reply_witness :
  ∃ e s' outs,
    submit_and_confirm_user_update sample_answers 3 sample_devices Acknowledge "ops" (sample_grpc 9) =
      Ret (Err e, s', outs) ∧ code e = CodeInternal.
Proof.
  assert (Hroom : length sample_keys ≤ room (user_channel (sample_grpc 9))) by (cbn; lia).
  destruct (command_reply sample_answers 3 sample_devices sample_keys Acknowledge "ops"
    (sample_grpc 9) eq_refl eq_refl Hroom) as (res & s' & outs & Hrun & Hcase).
  destruct res as [[]|e].
  - apply Forall_cons in Hcase as [_ [? _]%Forall_cons]. discriminate.
  - exists e, s', outs. split; [exact Hrun|]. destruct Hcase as [[? _]|(_ & Hall & _)]; [done|].
    apply Forall_cons in Hall as [_ [? _]%Forall_cons]. discriminate.
Defined.
