(* ===== verification/System.v ===== *)
(** * The running service ([runtime.rs])

    The coordinator, the workflow handler, the snooze scheduler and the publish
    engine, connected by the channels that [runtime::start] creates.  A step is one
    iteration of one task on the oldest message of one of its channels, in any
    order, which covers what the biased [select!]s and the scheduler of the runtime
    allow.  The channels are unbounded queues here: a task never waits for room in
    a channel, and the state a task has between two of its sends is not observed.
    [Service] has the bounded channels, and shows that its runs are runs of this. *)

From S2P Require Export Coordinator Snooze PublishEngine.
From stdpp Require Import list.

Record System (DQ DK : Type) `{Countable DK} := mkSystem {
  sys_co : AlarmStateCoordinator;
  sys_wf : WorkflowHandler;
  sys_sz : Scheduler DQ DK;
  sys_pe : PublishEngine;
  q_job : list Job;                          (** coordinator to workflow handler *)
  q_job_outcome : list JobOutcome;           (** and back *)
  q_snooze : list SnoozeInput;               (** workflow handler to snooze scheduler *)
  q_snooze_outcome : list SnoozeOutcome;     (** and back *)
  q_publish : list Publish;                  (** workflow handler to publish engine *)
  q_publish_outcome : list PublishOutcome;   (** and back *)
}.
Arguments mkSystem {DQ DK _ _}.
Arguments sys_co {DQ DK _ _} s.
Arguments sys_wf {DQ DK _ _} s.
Arguments sys_sz {DQ DK _ _} s.
Arguments sys_pe {DQ DK _ _} s.
Arguments q_job {DQ DK _ _} s.
Arguments q_job_outcome {DQ DK _ _} s.
Arguments q_snooze {DQ DK _ _} s.
Arguments q_snooze_outcome {DQ DK _ _} s.
Arguments q_publish {DQ DK _ _} s.
Arguments q_publish_outcome {DQ DK _ _} s.

(** The outputs of the tasks, messages to each other included. *)
Inductive SysOut :=
| SoCo (o : CoOut)
| SoWf (o : WfOut)
| SoSz (o : SzOut)
| SoPe (o : PeOut).

(** The steps; the times are what the clocks show. *)
Inductive SysEvent :=
| SyUser (now : Z) (m : DomainInput)
| SyAutomated (now : Z) (m : DomainInput)
| SyJobOutcome (now : Z)
| SyJob
| SySnoozeOutcome
| SyPublishOutcome
| SySnooze (utc_now inst_now : Z)
| SyTimer (utc_now inst_now : Z)
| SyPublish
| SyAttempt (e : PeEvent).

(** The messages among the outputs of a task. *)
Definition wf_snooze (o : WfOut) : option SnoozeInput :=
  match o with WfSnooze i => Some i | _ => None end.
Definition wf_publish (o : WfOut) : option Publish :=
  match o with WfPublish p => Some p | _ => None end.
Definition wf_outcome (o : WfOut) : option JobOutcome :=
  match o with WfOutcome o => Some o | _ => None end.
Definition sz_outcome (o : SzOut) : option SnoozeOutcome :=
  match o with SzOutcome o => Some o | _ => None end.
Definition pe_outcome (o : PeOut) : option PublishOutcome :=
  match o with PeOutcome o => Some o | _ => None end.

Section system.
Context `{UnicodeTables} `{ProtoEnums} `{StatusJson} `{Chrono}.
Context {DQ DK : Type} `{Countable DK} `{!DelayQueue DQ DK}.
Implicit Types s : System DQ DK.

(** [runtime::start]. *)
Definition system_new (hydrated_statuses : gmap Key Status) : System DQ DK :=
  mkSystem (coordinator_new hydrated_statuses) workflow_new scheduler_new engine_new
    [] [] [] [] [] [].

Definition SysM : Type := outcome (unit * System DQ DK * list SysOut).

(** Run a task from a state in which the message was taken from its queue, and put
    what it sends into the queues.  The coordinator's error result ends it. *)
Definition run_co (m : Eff AlarmStateCoordinator CoOut (result unit string)) s : SysM :=
  match m (sys_co s) with
  | Ret (Ok _, c, outs) =>
      Ret (tt, mkSystem c (sys_wf s) (sys_sz s) (sys_pe s) (q_job s ++ jobs_in outs)
                 (q_job_outcome s) (q_snooze s) (q_snooze_outcome s) (q_publish s)
                 (q_publish_outcome s), SoCo <$> outs)
  | Ret (Err msg, _, _) => Panic msg
  | Panic msg => Panic msg
  end.

Definition run_wf (m : Eff WorkflowHandler WfOut unit) s : SysM :=
  match m (sys_wf s) with
  | Ret (_, w, outs) =>
      Ret (tt, mkSystem (sys_co s) w (sys_sz s) (sys_pe s) (q_job s)
                 (q_job_outcome s ++ omap wf_outcome outs) (q_snooze s ++ omap wf_snooze outs)
                 (q_snooze_outcome s) (q_publish s ++ omap wf_publish outs)
                 (q_publish_outcome s), SoWf <$> outs)
  | Panic msg => Panic msg
  end.

Definition run_sz (m : Eff (Scheduler DQ DK) SzOut bool) s : SysM :=
  match m (sys_sz s) with
  | Ret (_, z, outs) =>
      Ret (tt, mkSystem (sys_co s) (sys_wf s) z (sys_pe s) (q_job s) (q_job_outcome s)
                 (q_snooze s) (q_snooze_outcome s ++ omap sz_outcome outs) (q_publish s)
                 (q_publish_outcome s), SoSz <$> outs)
  | Panic msg => Panic msg
  end.

Definition run_pe (m : Eff PublishEngine PeOut bool) s : SysM :=
  match m (sys_pe s) with
  | Ret (_, e, outs) =>
      Ret (tt, mkSystem (sys_co s) (sys_wf s) (sys_sz s) e (q_job s) (q_job_outcome s)
                 (q_snooze s) (q_snooze_outcome s) (q_publish s)
                 (q_publish_outcome s ++ omap pe_outcome outs), SoPe <$> outs)
  | Panic msg => Panic msg
  end.

Definition set_q_job l s :=
  mkSystem (sys_co s) (sys_wf s) (sys_sz s) (sys_pe s) l (q_job_outcome s) (q_snooze s)
    (q_snooze_outcome s) (q_publish s) (q_publish_outcome s).
Definition set_q_job_outcome l s :=
  mkSystem (sys_co s) (sys_wf s) (sys_sz s) (sys_pe s) (q_job s) l (q_snooze s)
    (q_snooze_outcome s) (q_publish s) (q_publish_outcome s).
Definition set_q_snooze l s :=
  mkSystem (sys_co s) (sys_wf s) (sys_sz s) (sys_pe s) (q_job s) (q_job_outcome s) l
    (q_snooze_outcome s) (q_publish s) (q_publish_outcome s).
Definition set_q_snooze_outcome l s :=
  mkSystem (sys_co s) (sys_wf s) (sys_sz s) (sys_pe s) (q_job s) (q_job_outcome s) (q_snooze s)
    l (q_publish s) (q_publish_outcome s).
Definition set_q_publish l s :=
  mkSystem (sys_co s) (sys_wf s) (sys_sz s) (sys_pe s) (q_job s) (q_job_outcome s) (q_snooze s)
    (q_snooze_outcome s) l (q_publish_outcome s).
Definition set_q_publish_outcome l s :=
  mkSystem (sys_co s) (sys_wf s) (sys_sz s) (sys_pe s) (q_job s) (q_job_outcome s) (q_snooze s)
    (q_snooze_outcome s) (q_publish s) l.

(** One step; on an empty queue, or for an attempt that cannot make progress, it
    changes nothing. *)
Definition sys_step (e : SysEvent) s : SysM :=
  match e with
  | SyUser now m => run_co (coordinator_handle true now (CeUser m)) s
  | SyAutomated now m => run_co (coordinator_handle true now (CeAutomated m)) s
  | SyJobOutcome now =>
      match q_job_outcome s with
      | o :: rest =>
          run_co (coordinator_handle true now (CeOutcome o)) (set_q_job_outcome rest s)
      | [] => Ret (tt, s, [])
      end
  | SyJob =>
      match q_job s with
      | j :: rest => run_wf (workflow_dispatch all_alive (WeNewJob j)) (set_q_job rest s)
      | [] => Ret (tt, s, [])
      end
  | SySnoozeOutcome =>
      match q_snooze_outcome s with
      | r :: rest =>
          run_wf (workflow_dispatch all_alive (WeSnoozeOutcome r)) (set_q_snooze_outcome rest s)
      | [] => Ret (tt, s, [])
      end
  | SyPublishOutcome =>
      match q_publish_outcome s with
      | o :: rest =>
          run_wf (workflow_dispatch all_alive (WePublishOutcome o)) (set_q_publish_outcome rest s)
      | [] => Ret (tt, s, [])
      end
  | SySnooze utc_now inst_now =>
      match q_snooze s with
      | i :: rest =>
          run_sz (scheduler_iteration true utc_now inst_now (SzInput i)) (set_q_snooze rest s)
      | [] => Ret (tt, s, [])
      end
  | SyTimer utc_now inst_now => run_sz (scheduler_iteration true utc_now inst_now SzTimer) s
  | SyPublish =>
      match q_publish s with
      | p :: rest => run_pe (engine_iteration true (PeRecv p)) (set_q_publish rest s)
      | [] => Ret (tt, s, [])
      end
  | SyAttempt e =>
      match e with
      | PeRecv _ | PeElse => Ret (tt, s, [])
      | _ => if engine_ready (sys_pe s) e then run_pe (engine_iteration true e) s
             else Ret (tt, s, [])
      end
  end.

(** A run of the service. *)
Fixpoint sys_run (es : list SysEvent) s : SysM :=
  match es with
  | [] => Ret (tt, s, [])
  | e :: es' =>
      match sys_step e s with
      | Ret (_, s1, o1) =>
          match sys_run es' s1 with
          | Ret (_, s2, o2) => Ret (tt, s2, o1 ++ o2)
          | Panic msg => Panic msg
          end
      | Panic msg => Panic msg
      end
  end.

(** The states the service can reach from a start with hydrated statuses. *)
Inductive sys_reachable : System DQ DK → Prop :=
| reach_new hydrated : sys_reachable (system_new hydrated)
| reach_step s e s' outs :
    sys_reachable s → sys_step e s = Ret (tt, s', outs) → sys_reachable s'.
End system.
