(* ===== verification/SystemProps.v ===== *)
(** * What the running service guarantees

    The token invariant of [System]: for every key at most one job exists anywhere
    between the coordinator, the queues, the workflow handler and its workers, and
    the stage of that job agrees with the requests and replies on their way.  From
    it follow the safety theorems about whole runs. *)

From S2P Require Export System.
From stdpp Require Import list.

(** ** Counting *)

Definition is_key (k : Key) (k' : Key) : bool := bool_decide (k' = k).

Definition job_about (k : Key) (j : Job) : bool := is_key k (job_key j).

Definition outcome_about (k : Key) (o : JobOutcome) : bool :=
  match o with Committed j | Failed j => is_key k (job_key j) | Wake _ => false end.

Definition input_about (k : Key) (i : SnoozeInput) : bool := is_key k (si_key i).

Definition reply_about (k : Key) (r : SnoozeOutcome) : bool :=
  match r with Accepted k' | InvalidWake k' => is_key k k' | Expired _ => false end.

Definition request_about (k : Key) (p : Publish) : bool := is_key k (request_key p).

Definition delivery_about (k : Key) (d : Delivery) : bool := request_about k (request (attempt d)).

Definition result_about (k : Key) (r : PublishResult) : bool := is_key k (into_inner r).

Definition results (o : PublishOutcome) : list PublishResult :=
  match o with PubBatch b => b | PubSingle r => [r] end.

Definition results_about (k : Key) (o : PublishOutcome) : nat :=
  count_by (result_about k) (results o).

Definition present {A} (o : option A) : nat := match o with Some _ => 1 | None => 0 end.

Definition in_step (n : nat) (o : option TrackedJob) : nat :=
  match o with Some t => if (step t =? n)%nat then 1 else 0 | None => 0 end.

Lemma count_one {A} (f : A → bool) a : count_by f [a] = Nat.b2n (f a).
Proof. cbn. lia. Qed.

Lemma count_by_omap {A B} (f : B → bool) (g : A → option B) l :
  count_by f (omap g l) = count_by (λ a, match g a with Some b => f b | None => false end) l.
Proof. induction l as [|a l IH]; cbn; [done|]. destruct (g a); cbn; by rewrite IH. Qed.

Lemma is_key_eq k : is_key k k = true.
Proof. unfold is_key. by apply bool_decide_eq_true_2. Qed.

Lemma is_key_ne k k' : k' ≠ k → is_key k k' = false.
Proof. unfold is_key. by apply bool_decide_eq_false_2. Qed.

(** A list in which every key occurs as often as in a map has the size of the map. *)
Lemma keys_of_map {A} (l : list Key) (m : gmap Key A) :
  (∀ k, count_by (is_key k) l = present (m !! k)) → length l = size m.
Proof.
  intros Hcount.
  assert (Hin : ∀ k, k ∈ l ↔ is_Some (m !! k)).
  { intros k. specialize (Hcount k). split.
    - intros Hk%(count_by_pos (is_key k)); [|apply is_key_eq]. destruct (m !! k); [by eexists|cbn in *; lia].
    - intros [a Ha]. rewrite Ha in Hcount. cbn in Hcount.
      destruct (count_by_exists (is_key k) l) as (k' & Hk' & E); [lia|].
      apply bool_decide_eq_true in E. by subst. }
  assert (Hnodup : NoDup l).
  { assert (Hle : ∀ k, count_by (is_key k) l ≤ 1) by (intros k; rewrite Hcount; by destruct (m !! k); cbn; lia).
    clear Hin Hcount. induction l as [|k l IH]; constructor.
    - intros Hk%(count_by_pos (is_key k)); [|apply is_key_eq].
      specialize (Hle k). cbn in Hle. rewrite is_key_eq in Hle. cbn in Hle. lia.
    - apply IH. intros k'. specialize (Hle k'). cbn in Hle. lia. }
  rewrite <- length_map_to_list, <- (length_fmap fst). apply Permutation_length, NoDup_Permutation.
  - done.
  - apply NoDup_fst_map_to_list.
  - intros k. rewrite Hin, list_elem_of_fmap. split.
    + intros [a Ha]. exists (k, a). split; [done|]. by apply elem_of_map_to_list.
    + intros ([k' a] & -> & Ha%elem_of_map_to_list). by exists a.
Qed.

Lemma count_map_keys {A} k (m : gmap Key A) :
  count_by (is_key k) (map_to_list m).*1 = present (m !! k).
Proof.
  induction m as [|k' a m Hnone IH] using map_ind; [by rewrite lookup_empty|].
  rewrite (count_by_permutation _ _ (k' :: (map_to_list m).*1)) by by rewrite map_to_list_insert.
  cbn. rewrite IH, lookup_insert. unfold is_key, bool_decide.
  repeat case_decide; subst; rewrite ?Hnone; done.
Qed.

Ltac key_cases k k' :=
  let E := fresh "E" in
  destruct (decide (k' = k)) as [E|E];
  [rewrite ?E, ?is_key_eq in *|rewrite ?(is_key_ne _ _ E) in *].

(** ** The coordinator *)

Section coordinator.
Context `{UnicodeTables} `{ProtoEnums}.
Implicit Types c : AlarmStateCoordinator.

Definition settled (e : CoEvent) (k : Key) : nat :=
  match e with CeOutcome o => Nat.b2n (outcome_about k o) | _ => 0 end.

(** A job that comes back belongs to a key with speculative state. *)
Definition expected_by (c : AlarmStateCoordinator) (e : CoEvent) : Prop :=
  (∀ k, 0 < settled e k → is_Some (speculative_state c !! k)) ∧ e ≠ CeAllClosed.

(** The speculative entries follow the jobs: one for every job dispatched, until it
    is settled. *)
Lemma coordinator_tokens now e c :
  expected_by c e →
  ∃ c' outs, coordinator_handle true now e c = Ret (Ok tt, c', outs) ∧
    ∀ k, present (speculative_state c' !! k) + settled e k =
         present (speculative_state c !! k) + count_by (job_about k) (jobs_in outs).
Proof.
  intros [Hexp Hopen].
  destruct (coordinator_handle_total true now e c) as (r & c' & outs & Hrun).
  assert (Hj : ∀ j, e = CeOutcome (Committed j) ∨ e = CeOutcome (Failed j) →
            is_Some (speculative_state c !! job_key j)).
  { intros j [-> | ->]; apply (Hexp (job_key j)); cbn; rewrite is_key_eq; cbn; lia. }
  assert (Hr : r = Ok tt).
  { destruct e as [[j|j|k]|[s|st|k a u cf]|[s|st|k a u cf]|]; try done;
      try (destruct (Hj j) as [e He]; [by auto|]); co_cases; try done; congruence. }
  subst r. exists c', outs. split; [done|]. intros k.
  destruct e as [[j|j|k']|[s|st|k' a u cf]|[s|st|k' a u cf]|]; try done;
    try (destruct (Hj j) as [en Hen]; [by auto|]); co_cases;
    autorewrite with outs; cbn [settled outcome_about]; try done;
    unfold job_about, is_key, bool_decide; cbn [jobs_in omap list_omap out_job app count_by
      job_key job_of rollback_entry speculative_state];
    cbn; rewrite ?lookup_insert, ?lookup_delete; repeat case_decide; subst;
    repeat match goal with Hs : speculative_state _ !! _ = _ |- _ => rewrite Hs end; cbn; first [lia|congruence].
Qed.
End coordinator.

(** ** The workflow handler *)

Section workflow.
Implicit Types w : WorkflowHandler.

(** How one run moves the jobs of each key through the two steps: jobs and replies
    and results that came in against requests and outcomes that went out. *)
Definition wf_moves w w' (outs : list WfOut) (new replies settled : Key → nat) : Prop :=
  ∀ k,
    present (jobs w' !! k) + count_by (outcome_about k) (omap wf_outcome outs) =
      present (jobs w !! k) + new k ∧
    in_step 1 (jobs w' !! k) + replies k =
      in_step 1 (jobs w !! k) + count_by (input_about k) (omap wf_snooze outs) ∧
    in_step 2 (jobs w' !! k) + settled k =
      in_step 2 (jobs w !! k) + count_by (request_about k) (omap wf_publish outs).

(** What the handler can receive: a job for a key without one, a reply for a job
    that waits for its first effect, at most one result for each job that waits for
    its second. *)
Definition wf_expects w (e : WfEvent) : Prop :=
  match e with
  | WeNewJob j => jobs w !! job_key j = None
  | WeSnoozeOutcome (Accepted k) | WeSnoozeOutcome (InvalidWake k) =>
      in_step 1 (jobs w !! k) = 1
  | WeSnoozeOutcome (Expired _) => True
  | WePublishOutcome o => ∀ k, results_about k o ≤ in_step 2 (jobs w !! k)
  end.

Lemma in_step_1 w k n : in_step n (jobs w !! k) = 1 → ∃ j, jobs w !! k = Some {| tracked := j; step := n |}.
Proof.
  unfold in_step. destruct (jobs w !! k) as [[j m]|]; [|done]. cbn.
  destruct (Nat.eqb_spec m n) as [->|]; [by eexists|done].
Qed.

Lemma wf_moves_delete w k j n outs replies settled :
  jobs w !! k = Some {| tracked := j; step := n |} →
  omap wf_snooze outs = [] → omap wf_publish outs = [] →
  (∀ k', count_by (outcome_about k') (omap wf_outcome outs) = Nat.b2n (is_key k' k)) →
  (∀ k', replies k' = if (n =? 1)%nat then Nat.b2n (is_key k' k) else 0) →
  (∀ k', settled k' = if (n =? 2)%nat then Nat.b2n (is_key k' k) else 0) →
  wf_moves w {| jobs := delete k (jobs w) |} outs (λ _, 0) replies settled.
Proof.
  intros Hk Hs Hp Ho Hr Hset k'. cbn. rewrite Hs, Hp, Ho, Hr, Hset, lookup_delete. cbn.
  unfold is_key, bool_decide. repeat case_decide; subst; try congruence; rewrite ?Hk; cbn;
    repeat case_match; lia.
Qed.

Lemma wf_moves_insert w k j n outs new replies settled :
  jobs w !! k = Some {| tracked := j; step := n |} → 
  (∀ k', count_by (outcome_about k') (omap wf_outcome outs) = 0) →
  (∀ k', new k' = 0) → n = 1 →
  (∀ k', replies k' = Nat.b2n (is_key k' k)) → (∀ k', settled k' = 0) →
  omap wf_snooze outs = [] →
  (∀ k', count_by (request_about k') (omap wf_publish outs) = Nat.b2n (is_key k' k)) →
  wf_moves w {| jobs := <[k := {| tracked := j; step := 2 |}]> (jobs w) |} outs new replies settled.
Proof.
  intros Hk Ho Hn -> Hr Hset Hs Hp k'. cbn. rewrite Hs, Hp, Ho, Hr, Hset, Hn, lookup_insert. cbn.
  unfold is_key, bool_decide. repeat case_decide; subst; try congruence; rewrite ?Hk; cbn;
    repeat case_match; lia.
Qed.

Lemma request_key_publish_of j : request_key (publish_of j) = job_key j.
Proof. unfold publish_of. by destruct (user_initiated j). Qed.

Lemma result_outs_outcome r j k :
  count_by (outcome_about k) (omap wf_outcome (result_outs all_alive r j)) =
  Nat.b2n (is_key k (job_key j)).
Proof. unfold result_outs. destruct (is_ok r); cbn; lia. Qed.

Lemma result_outs_rest r j :
  omap wf_snooze (result_outs all_alive r j) = [] ∧ omap wf_publish (result_outs all_alive r j) = [].
Proof. unfold result_outs. by destruct (is_ok r). Qed.

(** One publish result. *)
Lemma dispatch_result_moves r w :
  workflow_ok w → in_step 2 (jobs w !! into_inner r) = 1 →
  ∃ outs, dispatch_publish_result all_alive r w =
            Ret (tt, {| jobs := delete (into_inner r) (jobs w) |}, outs) ∧
    omap wf_publish outs = [] ∧
    wf_moves w {| jobs := delete (into_inner r) (jobs w) |} outs (λ _, 0) (λ _, 0)
      (λ k, Nat.b2n (result_about k r)).
Proof.
  intros Hw [j Hj]%in_step_1. destruct (Hw _ _ Hj) as [Hkey _]. cbn in Hkey.
  eexists. split; [by erewrite dispatch_publish_result_run|]. cbn [tracked].
  destruct (result_outs_rest r j) as [Hs Hp]. split; [done|].
  eapply wf_moves_delete; [done|done|done| |done|done].
  intros k'. rewrite result_outs_outcome. by rewrite Hkey.
Qed.

Lemma wf_moves_app w1 w2 w3 o1 o2 n1 r1 s1 n2 r2 s2 :
  wf_moves w1 w2 o1 n1 r1 s1 → wf_moves w2 w3 o2 n2 r2 s2 →
  wf_moves w1 w3 (o1 ++ o2) (λ k, n1 k + n2 k) (λ k, r1 k + r2 k) (λ k, s1 k + s2 k).
Proof.
  intros H1 H2 k. destruct (H1 k) as (? & ? & ?), (H2 k) as (? & ? & ?).
  rewrite !omap_app, !count_by_app. lia.
Qed.

(** A list of results. *)
Lemma batch_moves b w :
  workflow_ok w → (∀ k, count_by (result_about k) b ≤ in_step 2 (jobs w !! k)) →
  ∃ w' outs, for_each (dispatch_publish_result all_alive) b w = Ret (tt, w', outs) ∧
    workflow_ok w' ∧
    wf_moves w w' outs (λ _, 0) (λ _, 0) (λ k, count_by (result_about k) b).
Proof.
  revert w. induction b as [|r b IH]; intros w Hw Hb.
  { exists w, []. split; [done|]. split; [done|]. intros k. cbn. lia. }
  assert (Hr : in_step 2 (jobs w !! into_inner r) = 1).
  { specialize (Hb (into_inner r)). cbn in Hb. unfold result_about at 1 in Hb.
    rewrite is_key_eq in Hb. cbn in Hb. unfold in_step in *.
    destruct (jobs w !! into_inner r) as [t|]; [|lia]. destruct (step t =? 2)%nat; lia. }
  destruct (dispatch_result_moves r w Hw Hr) as (o1 & Hrun & Hpub & Hmoves).
  destruct (IH {| jobs := delete (into_inner r) (jobs w) |}) as (w' & o2 & Hrun2 & Hok & Hmoves2).
  { by apply workflow_ok_delete. }
  { intros k. destruct (Hmoves k) as (_ & _ & Hk). specialize (Hb k).
    rewrite Hpub in Hk. cbn in Hb, Hk. cbn. lia. }
  exists w', (o1 ++ o2). split; [cbn; eff_unfold; by rewrite Hrun, Hrun2|]. split; [done|].
  apply (wf_moves_app _ _ _ _ _ _ _ _ _ _ _ Hmoves Hmoves2).
Qed.

(** Every expected event is handled, and moves the jobs as the protocol says. *)
Lemma workflow_tokens e w :
  workflow_ok w → wf_expects w e →
  ∃ w' outs, workflow_dispatch all_alive e w = Ret (tt, w', outs) ∧ workflow_ok w' ∧
    wf_moves w w' outs
      (λ k, match e with WeNewJob j => Nat.b2n (job_about k j) | _ => 0 end)
      (λ k, match e with WeSnoozeOutcome r => Nat.b2n (reply_about k r) | _ => 0 end)
      (λ k, match e with WePublishOutcome o => results_about k o | _ => 0 end).
Proof.
  intros Hw Hexp. destruct e as [o|r|j].
  - destruct (batch_moves (results o) w Hw Hexp) as (w' & outs & Hrun & Hok & Hmoves).
    exists w', outs. split; [|by split]. cbn. destruct o as [b|r]; cbn in *; [done|].
    revert Hrun. eff_unfold. destruct (dispatch_publish_result all_alive r w) as [[[[] w1] o1]|]; [|done].
    by rewrite app_nil_r.
  - destruct r as [k|k|k]; cbn in Hexp.
    + eexists w, _. split; [done|]. split; [done|]. intros k'. cbn. lia.
    + apply in_step_1 in Hexp as [j Hj]. destruct (Hw _ _ Hj) as [Hkey _].
      eexists _, _. split; [cbn; by erewrite send_failed_run|].
      split; [by apply workflow_ok_delete|]. cbn in Hkey.
      eapply wf_moves_delete; try done. intros k'. cbn. rewrite Hkey. lia.
    + apply in_step_1 in Hexp as [j Hj]. destruct (Hw _ _ Hj) as [Hkey _].
      eexists _, _. split; [cbn; by erewrite advance_second_run|].
      cbn in Hkey. split; [apply workflow_ok_insert; auto|].
      eapply wf_moves_insert; try done. intros k'. cbn. unfold request_about.
      rewrite request_key_publish_of, Hkey. lia.
  - cbn in Hexp. eexists _, _. split; [cbn -[handle_new_job]; by rewrite handle_new_job_run|].
    cbn. split; [apply workflow_ok_insert; auto|]. intros k. cbn. rewrite lookup_insert.
    unfold job_about, input_about, is_key, bool_decide. cbn.
    repeat case_decide; subst; try congruence; rewrite ?Hexp; cbn; lia.
Qed.
End workflow.

(** ** The workers *)

Section workers.
Context `{StatusJsonLaws} {DQ DK : Type} `{Countable DK} `{!DelayQueue DQ DK}.
Context `{!DelayQueueLaws DQ DK} `{ChronoLaws}.

(** A snooze request is answered with exactly one reply for its key. *)
Lemma scheduler_tokens utc_now inst_now e (z : Scheduler DQ DK) :
  scheduler_ok z → e ≠ SzElse →
  ∃ z' outs, scheduler_iteration true utc_now inst_now e z = Ret (true, z', outs) ∧
    scheduler_ok z' ∧
    ∀ k, count_by (reply_about k) (omap sz_outcome outs) =
         match e with SzInput i => Nat.b2n (input_about k i) | _ => 0 end.
Proof.
  intros Hz He. destruct e as [i| |]; [| |done].
  - destruct (handle_snooze_input_run true utc_now inst_now i z Hz)
      as (z' & calls & o & Hr & Hok & Hcases).
    exists z'. eexists. split; [cbn; eff_unfold; by rewrite Hr|]. split; [done|].
    intros k. rewrite app_nil_r, omap_app, count_by_app. cbn [omap list_omap sz_outcome].
    rewrite count_one.
    assert (Hcalls : omap sz_outcome calls = []).
    { destruct (si_wake i); repeat case_match; destruct_and?; by subst. }
    assert (Ho : reply_about k o = input_about k i).
    { destruct (si_wake i); repeat case_match; destruct_and?; by subst. }
    by rewrite Hcalls, Ho.
  - destruct (timer_iteration_run true utc_now inst_now z Hz)
      as [(k & t & z' & _ & _ & Hr & Hok & _)|[_ Hr]]; eexists _, _; (split; [exact Hr|]);
      (split; [done|]); intros k'; cbn; lia.
Qed.

Definition engine_count (k : Key) (s : PublishEngine) : nat :=
  count_by (delivery_about k) (in_flight s) + count_by (result_about k) (completed_batch s).

Lemma count_by_take (f : Delivery → bool) l i d :
  l !! i = Some d → count_by f l = Nat.b2n (f d) + count_by f (delete i l).
Proof. intros Hi%delete_Permutation. by apply (count_by_permutation f) in Hi. Qed.

Lemma count_by_same (f : Delivery → bool) l i d d' :
  l !! i = Some d → f d' = f d → count_by f (<[i := d']> l) = count_by f l.
Proof.
  revert i. induction l as [|x l IH]; intros [|i] Hi Hf; cbn in *; simplify_eq; [by rewrite Hf|].
  f_equal. by apply IH.
Qed.

(** A request received, in flight or waiting in the batch is reported in the end. *)
Lemma engine_tokens e (s : PublishEngine) :
  engine_ready s e = true →
  ∃ s' outs, engine_iteration true e s = Ret (true, s', outs) ∧
    ∀ k, engine_count k s' + sum_by (results_about k) (omap pe_outcome outs) =
         engine_count k s + count_by (request_about k) (received_by e).
Proof.
  intros Hready. destruct (engine_step_total true e s Hready) as (s' & outs & Hrun & Hstep).
  exists s', outs. split; [done|]. intros k. unfold engine_count.
  assert (Hfinal : ∀ d a, result_about k (final_result d a) =
                          delivery_about k (mkDelivery a true)) by (by intros []).
  destruct Hstep as [i a body Hi _|i a latency Hi Hlt|i a d latency Hi _ Hu
    |i a d latency Hi _ Hu _|i a d latency Hi _ Hu _|Hb|Hb|p];
    cbn -[insert]; unfold results_about; cbn -[insert]; rewrite ?count_by_app;
    cbn -[insert]; rewrite ?Hfinal.
  - erewrite count_by_same by done. lia.
  - rewrite (count_by_take _ _ _ _ Hi). unfold delivery_about. cbn. lia.
  - rewrite (count_by_take _ _ _ _ Hi). lia.
  - rewrite (count_by_take _ _ _ _ Hi). lia.
  - rewrite (count_by_take _ _ _ _ Hi). lia.
  - lia.
  - lia.
  - unfold delivery_about. cbn. lia.
Qed.
End workers.

(** ** The token invariant *)

Section invariant.
Context `{UnicodeTables} `{ProtoEnums} `{StatusJsonLaws} {DQ DK : Type} `{Countable DK}.
Context `{!DelayQueue DQ DK} `{!DelayQueueLaws DQ DK} `{ChronoLaws}.
Implicit Types s : System DQ DK.

(** Where the job of a key can be. *)
Definition jobs_queued s (k : Key) : nat := count_by (job_about k) (q_job s).
Definition jobs_tracked s (k : Key) : nat := present (jobs (sys_wf s) !! k).
Definition jobs_returning s (k : Key) : nat := count_by (outcome_about k) (q_job_outcome s).

(** The requests to the two workers and the replies on their way. *)
Definition snooze_traffic s (k : Key) : nat :=
  count_by (input_about k) (q_snooze s) + count_by (reply_about k) (q_snooze_outcome s).
Definition publish_traffic s (k : Key) : nat :=
  count_by (request_about k) (q_publish s) + engine_count k (sys_pe s) +
  sum_by (results_about k) (q_publish_outcome s).

(** One job per key with speculative state, whose traffic is that of its step. *)
Definition one_token s (k : Key) : Prop :=
  present (speculative_state (sys_co s) !! k) =
    jobs_queued s k + jobs_tracked s k + jobs_returning s k ∧
  snooze_traffic s k = in_step 1 (jobs (sys_wf s) !! k) ∧
  publish_traffic s k = in_step 2 (jobs (sys_wf s) !! k).

Definition system_ok s : Prop :=
  workflow_ok (sys_wf s) ∧ scheduler_ok (sys_sz s) ∧ ∀ k, one_token s k.

Lemma present_le {A} (o : option A) : present o ≤ 1.
Proof. destruct o; cbn; lia. Qed.

Lemma present_is_Some {A} (o : option A) : 0 < present o ↔ is_Some o.
Proof. destruct o; cbn; split; try lia; [by eexists|by intros [? ?]]. Qed.

Lemma system_new_ok hydrated : system_ok (system_new hydrated).
Proof.
  split; [apply workflow_ok_new|]. split; [apply scheduler_new_ok|].
  intros k. split; [|split]; cbn; by rewrite ?lookup_empty.
Qed.

Ltac counts := cbn [count_by sum_by app map]; rewrite ?count_by_app, ?sum_by_app;
  cbn [count_by sum_by].

(** The steps of each task, from a state of the invariant. *)
Lemma co_step_ok now e s0 s :
  system_ok s0 → expected_by (sys_co s) e →
  sys_co s = sys_co s0 → sys_wf s = sys_wf s0 → sys_sz s = sys_sz s0 → sys_pe s = sys_pe s0 →
  q_job s = q_job s0 → q_snooze s = q_snooze s0 → q_snooze_outcome s = q_snooze_outcome s0 →
  q_publish s = q_publish s0 → q_publish_outcome s = q_publish_outcome s0 →
  (∀ k, jobs_returning s k + settled e k = jobs_returning s0 k) →
  ∃ s' outs, run_co (coordinator_handle true now e) s = Ret (tt, s', outs) ∧ system_ok s'.
Proof.
  intros (Hw & Hz & Htok) Hexp Eco Ewf Esz Epe Ej Es Eso Ep Epo Hret.
  destruct (coordinator_tokens now e (sys_co s) Hexp) as (c' & outs & Hrun & Hco).
  unfold run_co. rewrite Hrun. eexists _, _. split; [done|].
  split; [by rewrite <- Ewf in Hw|]. split; [by rewrite <- Esz in Hz|].
  intros k. destruct (Htok k) as (H1' & H2' & H3').
  specialize (Hco k). specialize (Hret k).
  unfold one_token, jobs_queued, jobs_tracked, jobs_returning, snooze_traffic, publish_traffic in *.
  cbn. rewrite count_by_app, Ewf, Epe, Ej, Es, Eso, Ep, Epo. rewrite Eco in Hco. lia.
Qed.

Lemma wf_step_ok e s0 s :
  system_ok s0 → wf_expects (sys_wf s) e →
  sys_co s = sys_co s0 → sys_wf s = sys_wf s0 → sys_sz s = sys_sz s0 → sys_pe s = sys_pe s0 →
  q_job_outcome s = q_job_outcome s0 → q_snooze s = q_snooze s0 → q_publish s = q_publish s0 →
  (∀ k, jobs_queued s k + match e with WeNewJob j => Nat.b2n (job_about k j) | _ => 0 end =
        jobs_queued s0 k) →
  (∀ k, count_by (reply_about k) (q_snooze_outcome s) +
        match e with WeSnoozeOutcome r => Nat.b2n (reply_about k r) | _ => 0 end =
        count_by (reply_about k) (q_snooze_outcome s0)) →
  (∀ k, sum_by (results_about k) (q_publish_outcome s) +
        match e with WePublishOutcome o => results_about k o | _ => 0 end =
        sum_by (results_about k) (q_publish_outcome s0)) →
  ∃ s' outs, run_wf (workflow_dispatch all_alive e) s = Ret (tt, s', outs) ∧ system_ok s'.
Proof.
  intros (Hw & Hz & Htok) Hexp Eco Ewf Esz Epe Ejo Es Ep Hj Hr Hp.
  rewrite <- Ewf in Hw. destruct (workflow_tokens e (sys_wf s) Hw Hexp) as (w' & outs & Hrun & Hw' & Hmv).
  unfold run_wf. rewrite Hrun. eexists _, _. split; [done|].
  split; [done|]. split; [by rewrite <- Esz in Hz|].
  intros k. destruct (Htok k) as (H1' & H2' & H3'). destruct (Hmv k) as (Hm1 & Hm2 & Hm3).
  specialize (Hj k). specialize (Hr k). specialize (Hp k).
  unfold one_token, jobs_queued, jobs_tracked, jobs_returning, snooze_traffic, publish_traffic in *.
  cbn. rewrite !count_by_app, Eco, Epe, Ejo, Es, Ep. rewrite Ewf in *. lia.
Qed.

Lemma sz_step_ok utc_now inst_now e s0 s :
  system_ok s0 → e ≠ SzElse →
  sys_co s = sys_co s0 → sys_wf s = sys_wf s0 → sys_sz s = sys_sz s0 → sys_pe s = sys_pe s0 →
  q_job s = q_job s0 → q_job_outcome s = q_job_outcome s0 →
  q_snooze_outcome s = q_snooze_outcome s0 →
  q_publish s = q_publish s0 → q_publish_outcome s = q_publish_outcome s0 →
  (∀ k, count_by (input_about k) (q_snooze s) +
        match e with SzInput i => Nat.b2n (input_about k i) | _ => 0 end =
        count_by (input_about k) (q_snooze s0)) →
  ∃ s' outs, run_sz (scheduler_iteration true utc_now inst_now e) s = Ret (tt, s', outs) ∧
    system_ok s'.
Proof.
  intros (Hw & Hz & Htok) He Eco Ewf Esz Epe Ej Ejo Eso Ep Epo Hi. rewrite <- Esz in Hz.
  destruct (scheduler_tokens utc_now inst_now e (sys_sz s) Hz He) as (z' & outs & Hrun & Hz' & Hsz).
  unfold run_sz. rewrite Hrun. eexists _, _. split; [done|].
  split; [by rewrite <- Ewf in Hw|]. split; [done|].
  intros k. destruct (Htok k) as (H1' & H2' & H3'). specialize (Hsz k). specialize (Hi k).
  unfold one_token, jobs_queued, jobs_tracked, jobs_returning, snooze_traffic, publish_traffic in *.
  cbn. rewrite count_by_app, Eco, Ewf, Epe, Ej, Ejo, Eso, Ep, Epo. lia.
Qed.

Lemma pe_step_ok e s0 s :
  system_ok s0 → engine_ready (sys_pe s) e = true →
  sys_co s = sys_co s0 → sys_wf s = sys_wf s0 → sys_sz s = sys_sz s0 → sys_pe s = sys_pe s0 →
  q_job s = q_job s0 → q_job_outcome s = q_job_outcome s0 → q_snooze s = q_snooze s0 →
  q_snooze_outcome s = q_snooze_outcome s0 → q_publish_outcome s = q_publish_outcome s0 →
  (∀ k, count_by (request_about k) (q_publish s) + count_by (request_about k) (received_by e) =
        count_by (request_about k) (q_publish s0)) →
  ∃ s' outs, run_pe (engine_iteration true e) s = Ret (tt, s', outs) ∧ system_ok s'.
Proof.
  intros (Hw & Hz & Htok) He Eco Ewf Esz Epe Ej Ejo Es Eso Epo Hp.
  destruct (engine_tokens e (sys_pe s) He) as (e' & outs & Hrun & Hpe).
  unfold run_pe. rewrite Hrun. eexists _, _. split; [done|].
  split; [by rewrite <- Ewf in Hw|]. split; [by rewrite <- Esz in Hz|].
  intros k. destruct (Htok k) as (H1' & H2' & H3'). specialize (Hpe k). specialize (Hp k).
  unfold one_token, jobs_queued, jobs_tracked, jobs_returning, snooze_traffic, publish_traffic in *.
  cbn. rewrite sum_by_app, Eco, Ewf, Ej, Ejo, Es, Eso, Epo. rewrite Epe in Hpe. lia.
Qed.

(** *** What the invariant says about the next message of each queue *)

Lemma token_bound s k : one_token s k →
  jobs_queued s k + jobs_tracked s k + jobs_returning s k ≤ 1.
Proof. intros [<- _]. apply present_le. Qed.

Lemma in_step_le n o : in_step n o ≤ 1.
Proof. destruct o as [t|]; cbn; [|lia]. destruct (step t =? n)%nat; lia. Qed.

Lemma next_job s j rest :
  system_ok s → q_job s = j :: rest → jobs (sys_wf s) !! job_key j = None.
Proof.
  intros (_ & _ & Htok) Hq. pose proof (token_bound s (job_key j) (Htok _)) as Hb.
  unfold jobs_queued, jobs_tracked in Hb. rewrite Hq in Hb. cbn in Hb.
  unfold job_about at 1 in Hb. rewrite is_key_eq in Hb. cbn in Hb.
  destruct (jobs (sys_wf s) !! job_key j); [cbn in Hb; lia|done].
Qed.

Lemma next_reply s r rest k :
  system_ok s → q_snooze_outcome s = r :: rest → reply_about k r = true →
  in_step 1 (jobs (sys_wf s) !! k) = 1.
Proof.
  intros (_ & _ & Htok) Hq Hr. destruct (Htok k) as (_ & Hs & _).
  unfold snooze_traffic in Hs. rewrite Hq in Hs. cbn in Hs. rewrite Hr in Hs. cbn in Hs.
  pose proof (in_step_le 1 (jobs (sys_wf s) !! k)). lia.
Qed.

Lemma next_result s o rest k :
  system_ok s → q_publish_outcome s = o :: rest →
  results_about k o ≤ in_step 2 (jobs (sys_wf s) !! k).
Proof.
  intros (_ & _ & Htok) Hq. destruct (Htok k) as (_ & _ & Hp).
  unfold publish_traffic in Hp. rewrite Hq in Hp. cbn in Hp. lia.
Qed.

Lemma next_outcome s o rest k :
  system_ok s → q_job_outcome s = o :: rest → outcome_about k o = true →
  is_Some (speculative_state (sys_co s) !! k).
Proof.
  intros (_ & _ & Htok) Hq Ho. apply present_is_Some. destruct (Htok k) as [-> _].
  unfold jobs_returning. rewrite Hq. cbn. rewrite Ho. cbn. lia.
Qed.

(** Every step succeeds and keeps the invariant. *)
Lemma sys_step_ok e s :
  system_ok s → ∃ s' outs, sys_step e s = Ret (tt, s', outs) ∧ system_ok s'.
Proof.
  intros Hok.
  assert (Hidle : ∃ s' outs, @Ret (unit * System DQ DK * list SysOut) (tt, s, []) =
                    Ret (tt, s', outs) ∧ system_ok s') by eauto.
  destruct e as [now m|now m|now| | | |u i|u i| |e]; cbn [sys_step].
  - apply (co_step_ok now (CeUser m) s s); try done. split; [cbn; lia|done].
  - apply (co_step_ok now (CeAutomated m) s s); try done. split; [cbn; lia|done].
  - destruct (q_job_outcome s) as [|o rest] eqn:Hq; [done|].
    apply (co_step_ok now (CeOutcome o) s); try done.
    + split; [|done]. intros k Hk. cbn in *. eapply (next_outcome s); [done..|].
      by destruct (outcome_about k o); [|cbn in Hk; lia].
    + intros k. unfold jobs_returning. cbn. rewrite Hq. cbn. lia.
  - destruct (q_job s) as [|j rest] eqn:Hq; [done|].
    apply (wf_step_ok (WeNewJob j) s); try done; try (intros k; cbn; lia).
    + exact (next_job s j rest Hok Hq).
    + intros k. unfold jobs_queued. cbn. rewrite Hq. cbn. lia.
  - destruct (q_snooze_outcome s) as [|r rest] eqn:Hq; [done|].
    apply (wf_step_ok (WeSnoozeOutcome r) s); try done; try (intros k; cbn; lia).
    + destruct r as [k|k|k]; cbn; [done|..];
        (eapply (next_reply s); [done|done|cbn; apply is_key_eq]).
    + intros k. cbn. rewrite Hq. cbn. lia.
  - destruct (q_publish_outcome s) as [|o rest] eqn:Hq; [done|].
    apply (wf_step_ok (WePublishOutcome o) s); try done; try (intros k; cbn; lia).
    + intros k. exact (next_result s o rest k Hok Hq).
    + intros k. cbn. rewrite Hq. cbn. lia.
  - destruct (q_snooze s) as [|inp rest] eqn:Hq; [done|].
    apply (sz_step_ok u i (SzInput inp) s); try done. intros k. cbn. rewrite Hq. cbn. lia.
  - apply (sz_step_ok u i SzTimer s); try done; intros k; lia.
  - destruct (q_publish s) as [|p rest] eqn:Hq; [done|].
    apply (pe_step_ok (PeRecv p) s); try done. intros k. cbn. rewrite Hq. cbn. lia.
  - destruct e as [n|n d l| |p|]; try done;
      (destruct (engine_ready _ _) eqn:He; [|done]); apply (pe_step_ok _ s); try done;
      intros k; cbn; lia.
Qed.

Lemma sys_reachable_ok s : sys_reachable s → system_ok s.
Proof.
  induction 1 as [hydrated|s e s' outs Hr IH Hstep]; [apply system_new_ok|].
  destruct (sys_step_ok e s IH) as (s1 & o1 & Hrun & Hok). rewrite Hrun in Hstep.
  by simplify_eq.
Qed.
End invariant.

(** ** Theorems about whole runs *)

Section theorems.
Context `{UnicodeTables} `{ProtoEnums} `{StatusJsonLaws} {DQ DK : Type} `{Countable DK}.
Context `{!DelayQueue DQ DK} `{!DelayQueueLaws DQ DK} `{ChronoLaws}.
Implicit Types s : System DQ DK.

Lemma sys_run_ok es s :
  system_ok s → ∃ s' outs, sys_run es s = Ret (tt, s', outs) ∧ system_ok s'.
Proof.
  revert s. induction es as [|e es IH]; intros s Hok; [by exists s, []|].
  destruct (sys_step_ok e s Hok) as (s1 & o1 & Hstep & Hok1).
  destruct (IH s1 Hok1) as (s2 & o2 & Hrun & Hok2).
  exists s2, (o1 ++ o2). split; [|done]. cbn. by rewrite Hstep, Hrun.
Qed.

Lemma sys_run_app es1 es2 s s1 s2 o1 o2 :
  sys_run es1 s = Ret (tt, s1, o1) → sys_run es2 s1 = Ret (tt, s2, o2) →
  sys_run (es1 ++ es2) s = Ret (tt, s2, o1 ++ o2).
Proof.
  revert s o1. induction es1 as [|e es1 IH]; intros s o1 Hr1 Hr2; cbn in Hr1 |- *; [by simplify_eq|].
  destruct (sys_step e s) as [[[[] s'] o]|]; [|done].
  destruct (sys_run es1 s') as [[[[] s''] o']|] eqn:Hr; [|done]. simplify_eq.
  erewrite (IH s' o') by done. cbn. by rewrite app_assoc.
Qed.

Lemma sys_run_reachable es s s' outs :
  sys_reachable s → sys_run es s = Ret (tt, s', outs) → sys_reachable s'.
Proof.
  revert s outs. induction es as [|e es IH]; intros s outs Hr Hrun; cbn in Hrun; [by simplify_eq|].
  destruct (sys_step e s) as [[[[] s1] o1]|] eqn:Hstep; [|done].
  destruct (sys_run es s1) as [[[[] s2] o2]|] eqn:Hrest; [|done]. simplify_eq.
  eapply IH; [|done]. by eapply reach_step.
Qed.

(** C14 The service never stops on its own: whatever statuses it starts with and in
    whatever order its four tasks run, clients send updates, timers fire and the
    broker answers, no task panics and the coordinator never meets a job outcome
    whose state it has lost. *)
Theorem service_never_stops hydrated es :
  ∃ s outs, sys_run es (system_new hydrated) = Ret (tt, s, outs).
Proof.
  destruct (sys_run_ok es (system_new hydrated) (system_new_ok hydrated)) as (s & outs & ? & _).
  by exists s, outs.
Qed.

(** C11 Single flight across the whole service: in every reachable state a key has
    exactly one job when the coordinator holds speculative state for it, counting
    the queues, the workflow handler and the outcomes on their way back, and none
    otherwise; a job in its first step has exactly one snooze request or reply on
    its way, a job in its second step exactly one publish request, attempt, batched
    or reported result, and no other traffic exists. *)
Theorem single_flight s k :
  sys_reachable s →
  jobs_queued s k + jobs_tracked s k + jobs_returning s k =
    present (speculative_state (sys_co s) !! k) ∧
  snooze_traffic s k = in_step 1 (jobs (sys_wf s) !! k) ∧
  publish_traffic s k = in_step 2 (jobs (sys_wf s) !! k).
Proof.
  intros (_ & _ & Htok)%sys_reachable_ok. destruct (Htok k) as (? & ? & ?). by split.
Qed.

(** The key of a finished job, and of an answered snooze request. *)
Definition outcome_key (o : JobOutcome) : option Key :=
  match o with Committed j | Failed j => Some (job_key j) | Wake _ => None end.
Definition reply_key (r : SnoozeOutcome) : option Key :=
  match r with Accepted k | InvalidWake k => Some k | Expired _ => None end.

(** The keys of the jobs are those with speculative state, the keys of the traffic those
    of the tracked jobs. *)
Lemma system_counts s :
  system_ok s →
  length (q_job s) + size (jobs (sys_wf s)) + length (omap outcome_key (q_job_outcome s)) =
    size (speculative_state (sys_co s)) ∧
  length (q_snooze s) + length (omap reply_key (q_snooze_outcome s)) + length (q_publish s) +
    length (in_flight (sys_pe s)) + length (completed_batch (sys_pe s)) +
    length (q_publish_outcome s ≫= results) = size (jobs (sys_wf s)).
Proof.
  intros (Hw & _ & Htok). split.
  - rewrite <- (keys_of_map ((job_key <$> q_job s) ++ (map_to_list (jobs (sys_wf s))).*1 ++
      omap outcome_key (q_job_outcome s)) (speculative_state (sys_co s))).
    + rewrite !length_app, !length_fmap, length_map_to_list. lia.
    + intros k. destruct (Htok k) as [-> _]. unfold jobs_queued, jobs_tracked, jobs_returning.
      rewrite !count_by_app, count_map_keys, count_by_omap. unfold fmap. rewrite count_by_map.
      rewrite Nat.add_assoc. f_equal. apply count_by_ext. by intros [] _.
  - rewrite <- (keys_of_map ((si_key <$> q_snooze s) ++ omap reply_key (q_snooze_outcome s) ++
      (request_key <$> q_publish s) ++ (request_key ∘ request ∘ attempt <$> in_flight (sys_pe s)) ++
      (into_inner <$> completed_batch (sys_pe s)) ++
      (into_inner <$> (q_publish_outcome s ≫= results)))).
    + rewrite !length_app, !length_fmap. by rewrite <- !Nat.add_assoc.
    + intros k. destruct (Htok k) as (_ & Hs & Hp). unfold snooze_traffic, publish_traffic, engine_count in *.
      assert (Hstep : in_step 1 (jobs (sys_wf s) !! k) + in_step 2 (jobs (sys_wf s) !! k) =
                      present (jobs (sys_wf s) !! k)).
      { destruct (jobs (sys_wf s) !! k) as [t|] eqn:Ht; [|done].
        destruct (Hw _ _ Ht) as [_ [E|E]]; cbn; by rewrite E. }
      rewrite <- Hstep, <- Hs, <- Hp, !count_by_app, count_by_omap. unfold fmap. rewrite !count_by_map.
      rewrite count_by_bind.
      rewrite (count_by_ext (λ a, match reply_key a with Some b => is_key k b | None => false end)
                 (reply_about k) (q_snooze_outcome s)) by by intros [] _.
      unfold results_about, result_about, delivery_about, request_about, input_about. cbn. by rewrite !Nat.add_assoc.
Qed.


(** Nothing is queued, in flight or waiting in a batch. *)
Definition quiescent s : Prop :=
  q_job s = [] ∧ q_job_outcome s = [] ∧ q_snooze s = [] ∧ q_snooze_outcome s = [] ∧
  q_publish s = [] ∧ q_publish_outcome s = [] ∧
  in_flight (sys_pe s) = [] ∧ completed_batch (sys_pe s) = [].

Lemma quiescent_empty s :
  system_ok s → quiescent s → speculative_state (sys_co s) = ∅ ∧ jobs (sys_wf s) = ∅.
Proof.
  intros (Hw & _ & Htok) (E1 & E2 & E3 & E4 & E5 & E6 & E7 & E8).
  assert (Hjobs : jobs (sys_wf s) = ∅).
  { apply map_eq. intros k. rewrite lookup_empty. destruct (Htok k) as (_ & Hs & Hp).
    unfold snooze_traffic, publish_traffic, engine_count in Hs, Hp.
    rewrite E3, E4 in Hs. rewrite E5, E6, E7, E8 in Hp. cbn in Hs, Hp.
    destruct (jobs (sys_wf s) !! k) as [t|] eqn:Hk; [|done].
    destruct (Hw k t Hk) as [_ [Ht|Ht]]; cbn in Hs, Hp; rewrite Ht in *; cbn in *; lia. }
  split; [|done]. apply map_eq. intros k. rewrite lookup_empty. destruct (Htok k) as (Hb & _).
  unfold jobs_queued, jobs_tracked, jobs_returning in Hb. rewrite E1, E2, Hjobs, lookup_empty in Hb.
  cbn in Hb. by destruct (speculative_state (sys_co s) !! k).
Qed.

Lemma at_rest_empty s :
  sys_reachable s → quiescent s → speculative_state (sys_co s) = ∅ ∧ jobs (sys_wf s) = ∅.
Proof. intros Hr%sys_reachable_ok. by apply quiescent_empty. Qed.

(** At rest every intent is settled: in a reachable state with nothing queued and
    nothing in flight, the coordinator has no speculative state and the workflow
    handler no job, so the latest known status of every alarm is the confirmed one. *)
Theorem quiescent_settled s :
  sys_reachable s → quiescent s →
  speculative_state (sys_co s) = ∅ ∧ jobs (sys_wf s) = ∅ ∧
  ∀ k, get_latest_status (sys_co s) k = fst <$> confirmed_state (sys_co s) !! k.
Proof.
  intros Hr Hq. destruct (at_rest_empty s Hr Hq) as [Hspec Hjobs].
  split; [done|]. split; [done|]. intros k. unfold get_latest_status. rewrite Hspec, lookup_empty.
  by destruct (confirmed_state (sys_co s) !! k) as [[]|].
Qed.
End theorems.

(** ** Samples *)

#[local] Existing Instance ascii_only_tables.
#[local] Existing Instance sample_enums.
#[local] Existing Instance sample_json.
#[local] Existing Instance sample_json_laws.

Definition SampleSystem : Type := System (gmap nat (Key * Z)) nat.

Definition sy_status (st : State.t) (src : Source.t) (sev : Severity.t) : Status :=
  {| device := "G:DEV"; severity_raw := severity_to_i32 sev; state_raw := state_to_i32 st;
     source_raw := source_to_i32 src; acknowledgeable := false; time := None;
     epics_type := ""; user := ""; wake := None |}.

Definition sy_key (src : Source.t) : Key := {| key_device := "G:DEV"; key_source := src |}.

(** One job from the queue to its outcome: no timer is touched, the first attempt
    succeeds. *)
Definition deliver (automated : bool) : list SysEvent :=
  [SyJob; SySnooze 0 0; SySnoozeOutcome; SyPublish; SyAttempt (PeStart 0);
   SyAttempt (PeComplete 0 true 1)] ++
  (if automated then [SyAttempt PeTick] else []) ++ [SyPublishOutcome; SyJobOutcome 9].

Definition state_after (es : list SysEvent) (s : SampleSystem) : SampleSystem :=
  match sys_run es s with Ret (_, s', _) => s' | Panic _ => s end.

(** An alarm reported while nothing else happens, up to its publish request. *)
Definition one_alarm : list SysEvent :=
  [SyAutomated 1 (AutomatedUpdate (sy_status State.Alarmed Source.Epics Severity.Low));
   SyJob; SySnooze 0 0; SySnoozeOutcome].

Lemma state_after_run es (s : SampleSystem) :
  system_ok s → ∃ outs, sys_run es s = Ret (tt, state_after es s, outs).
Proof.
  intros Hok. destruct (sys_run_ok es s Hok) as (s' & outs & Hrun & _). exists outs.
  unfold state_after. by rewrite Hrun.
Qed.

Lemma service_never_stops_witness :
  ∃ s outs, sys_run one_alarm (system_new (DQ := gmap nat (Key * Z)) (DK := nat) ∅) =
    Ret (tt, s, outs).
Proof. apply service_never_stops. Defined.

Lemma one_alarm_reachable : sys_reachable (state_after one_alarm (system_new ∅)).
Proof.
  eapply (sys_run_reachable one_alarm (system_new ∅)); [apply reach_new|]. vm_compute. reflexivity.
Qed.

Lemma single_flight_witness :
  let s := state_after one_alarm (system_new ∅) in
  publish_traffic s (sy_key Source.Epics) = 1 ∧
  jobs_queued s (sy_key Source.Epics) + jobs_tracked s (sy_key Source.Epics) +
    jobs_returning s (sy_key Source.Epics) =
    present (speculative_state (sys_co s) !! sy_key Source.Epics) ∧
  snooze_traffic s (sy_key Source.Epics) = in_step 1 (jobs (sys_wf s) !! sy_key Source.Epics) ∧
  publish_traffic s (sy_key Source.Epics) = in_step 2 (jobs (sys_wf s) !! sy_key Source.Epics).
Proof.
  intros s. split; [vm_compute; reflexivity|]. apply single_flight, one_alarm_reachable.
Defined.


(** The same alarm delivered. *)
Definition one_delivered : list SysEvent :=
  SyAutomated 1 (AutomatedUpdate (sy_status State.Alarmed Source.Epics Severity.Low)) ::
  deliver true.

Lemma quiescent_settled_witness :
  let s := state_after one_delivered (system_new ∅) in
  state <$> (get_latest_status (sys_co s) (sy_key Source.Epics)) = Some State.Alarmed ∧
  speculative_state (sys_co s) = ∅ ∧ jobs (sys_wf s) = ∅ ∧
  ∀ k, get_latest_status (sys_co s) k = fst <$> confirmed_state (sys_co s) !! k.
Proof.
  intros s. split; [vm_compute; reflexivity|]. apply quiescent_settled.
  - eapply (sys_run_reachable one_delivered (system_new ∅)); [apply reach_new|].
    vm_compute. reflexivity.
  - by repeat split.
Defined.
