(* ===== verification/Service.v ===== *)
(** * The service with its bounded channels ([runtime.rs])

    The channels that [runtime::start] creates have the capacities of
    [QueueCapacityConfig].  A task that sends waits for room, and handles no other
    message meanwhile; the outputs of the handler it is in are kept in its outbox and
    leave it one at a time, in order.  A task with an empty outbox takes its next
    message as its [select!] does.  In front of the coordinator are the ingress of the
    automated updates, whose channel is one of its inputs, and the queue of the
    operator commands.

    [service_system] forgets where the messages of a channel are, in the channel or in
    the outbox of its sender: every step of the service is then a step of [System] or
    none, so that the theorems about [System] hold of the service. *)

From S2P Require Export SystemProps Ingress.
From stdpp Require Import list.

(** ** Channels and ports *)

(** [mpsc::channel(buffer)] panics on a capacity that the semaphore cannot hold. *)
Definition MAX_PERMITS : Z := u64_max / 8.

Definition mpsc_channel (buffer : Z) : outcome nat :=
  if (buffer =? 0)%Z then Panic "mpsc bounded channel requires buffer > 0"
  else if (buffer <=? MAX_PERMITS)%Z then Ret (Z.to_nat buffer)
  else Panic "a semaphore may not have more than MAX_PERMITS permits".

(** [Sender::send(..).await] while the receiver is alive: the channel with the message
    in it, or [None] while there is no room. *)
Definition send_wait {A} (cap : nat) (a : A) (q : list A) : option (list A) :=
  if (length q <? cap)%nat then Some (q ++ [a]) else None.

(** The capacities of the channels between the tasks, and the two in front. *)
Record Capacities := mkCapacities {
  job_capacity : nat;
  publish_capacity : nat;
  snooze_capacity : nat;
}.

Inductive Task := TCoordinator | TWorkflow | TSnooze | TPublish.

#[export] Instance task_eq_dec : EqDecision Task.
Proof. solve_decision. Defined.

Record Service (M DQ DK : Type) `{Countable DK} := mkService {
  sv_caps : Capacities;
  sv_core : System DQ DK;           (** the tasks, and what is in their channels *)
  sv_ingress : Ingress M;           (** the automated handles, and their channel *)
  sv_user : bchan DomainInput;      (** the channel of the operator commands *)
  out_co : list CoOut;              (** what each task has still to send *)
  out_wf : list WfOut;
  out_sz : list SzOut;
  out_pe : list PeOut;
}.
Arguments mkService {M DQ DK _ _}.
Arguments sv_caps {M DQ DK _ _} s.
Arguments sv_core {M DQ DK _ _} s.
Arguments sv_ingress {M DQ DK _ _} s.
Arguments sv_user {M DQ DK _ _} s.
Arguments out_co {M DQ DK _ _} s.
Arguments out_wf {M DQ DK _ _} s.
Arguments out_sz {M DQ DK _ _} s.
Arguments out_pe {M DQ DK _ _} s.

(** What the outside sees of a step. *)
Inductive SvOut :=
| SvTask (o : SysOut)
| SvIngress (o : InOut)
| SvUser (r : result unit ChannelSendError).

(** One step of the service: a step of a handle or of the drain task, an operator's
    [try_send], a task that takes its next message, a timer, a step of an attempt, or
    the next send of a task. *)
Inductive SvEvent :=
| EvIngress (e : IngressEvent)
| EvUser (m : DomainInput)
| EvCoordinator (now : Z)
| EvWorkflow
| EvSnooze (utc_now inst_now : Z)
| EvTimer (utc_now inst_now : Z)
| EvPublish
| EvAttempt (e : PeEvent)
| EvSend (t : Task).

Section service.
Context `{UnicodeTables} `{ProtoEnums} `{StatusJson} `{Chrono} {M : Type} `{!RingMap M}.
Context {DQ DK : Type} `{Countable DK} `{!DelayQueue DQ DK}.
Implicit Types v : Service M DQ DK.
Implicit Types s : System DQ DK.

(** [runtime::start]. *)
Definition service_start (queue_config : QueueCapacityConfig)
    (hydrated_statuses : gmap Key Status) : outcome (Service M DQ DK) :=
  match mpsc_channel (cfg_automated queue_config), mpsc_channel (cfg_user queue_config),
        mpsc_channel (cfg_job queue_config), mpsc_channel (cfg_publish queue_config),
        mpsc_channel (cfg_snooze queue_config) with
  | Ret automated, Ret user, Ret job, Ret publish, Ret snooze =>
      Ret (mkService (mkCapacities job publish snooze) (system_new hydrated_statuses)
             (ingress_new (mkBchan [] automated true)) (mkBchan [] user true) [] [] [] [])
  | Panic msg, _, _, _, _ | _, Panic msg, _, _, _ | _, _, Panic msg, _, _
  | _, _, _, Panic msg, _ | _, _, _, _, Panic msg => Panic msg
  end.

(** *** The sending halves of the ports *)

(** [JobPort::send]. *)
Definition job_port_send (caps : Capacities) (job : Job) s : option (System DQ DK) :=
  (λ q, set_q_job q s) <$> send_wait (job_capacity caps) job (q_job s).

(** [CoordinatorWorkflowPort::send]. *)
Definition coordinator_port_send (caps : Capacities) (outgoing : JobOutcome) s :
    option (System DQ DK) :=
  (λ q, set_q_job_outcome q s) <$> send_wait (job_capacity caps) outgoing (q_job_outcome s).

(** [PublishWorkflowPort::send]. *)
Definition publish_port_send (caps : Capacities) (outgoing : Publish) s :
    option (System DQ DK) :=
  (λ q, set_q_publish q s) <$> send_wait (publish_capacity caps) outgoing (q_publish s).

(** [SnoozeWorkflowPort::send]. *)
Definition snooze_port_send (caps : Capacities) (outgoing : SnoozeInput) s :
    option (System DQ DK) :=
  (λ q, set_q_snooze q s) <$> send_wait (snooze_capacity caps) outgoing (q_snooze s).

(** [SnoozeEffectPort::send]. *)
Definition snooze_effect_send (caps : Capacities) (outgoing : SnoozeOutcome) s :
    option (System DQ DK) :=
  (λ q, set_q_snooze_outcome q s) <$>
  send_wait (snooze_capacity caps) outgoing (q_snooze_outcome s).

(** [PublishEffectPort::send]. *)
Definition publish_effect_send (caps : Capacities) (outgoing : PublishOutcome) s :
    option (System DQ DK) :=
  (λ q, set_q_publish_outcome q s) <$>
  send_wait (publish_capacity caps) outgoing (q_publish_outcome s).

(** An output leaves its task; answers and metrics do not wait. *)
Definition co_send (caps : Capacities) (o : CoOut) s : option (System DQ DK) :=
  match o with CoJob job => job_port_send caps job s | _ => Some s end.
Definition wf_send (caps : Capacities) (o : WfOut) s : option (System DQ DK) :=
  match o with
  | WfOutcome o => coordinator_port_send caps o s
  | WfPublish p => publish_port_send caps p s
  | WfSnooze i => snooze_port_send caps i s
  | WfMetric _ => Some s
  end.
Definition sz_send (caps : Capacities) (o : SzOut) s : option (System DQ DK) :=
  match o with SzOutcome o => snooze_effect_send caps o s | _ => Some s end.
Definition pe_send (caps : Capacities) (o : PeOut) s : option (System DQ DK) :=
  match o with PeOutcome o => publish_effect_send caps o s | _ => Some s end.

(** *** The receiving halves, which [recv] polls *)

(** [JobPort], [CoordinatorWorkflowPort], [PublishWorkflowPort], [SnoozeWorkflowPort],
    [SnoozeEffectPort] and [PublishEffectPort]. *)
Definition job_port_rx s : chan JobOutcome := mkChan (q_job_outcome s) true.
Definition coordinator_port_rx s : chan Job := mkChan (q_job s) true.
Definition publish_port_rx s : chan PublishOutcome := mkChan (q_publish_outcome s) true.
Definition snooze_port_rx s : chan SnoozeOutcome := mkChan (q_snooze_outcome s) true.
Definition snooze_effect_rx s : chan SnoozeInput := mkChan (q_snooze s) true.
Definition publish_effect_rx s : chan Publish := mkChan (q_publish s) true.

Definition co_inbox v : CoInbox :=
  mkCoInbox (job_port_rx (sv_core v)) (mkChan (queued (sv_user v)) true)
    (mkChan (queued (coordinator_tx (sv_ingress v))) true).

Definition wf_inbox v : WfInbox :=
  mkWfInbox (publish_port_rx (sv_core v)) (snooze_port_rx (sv_core v))
    (coordinator_port_rx (sv_core v)).

(** *** Updates of the state *)

Definition set_core (s : System DQ DK) v : Service M DQ DK :=
  mkService (sv_caps v) s (sv_ingress v) (sv_user v) (out_co v) (out_wf v) (out_sz v) (out_pe v).
Definition set_ingress (i : Ingress M) v : Service M DQ DK :=
  mkService (sv_caps v) (sv_core v) i (sv_user v) (out_co v) (out_wf v) (out_sz v) (out_pe v).
Definition set_user (q : bchan DomainInput) v : Service M DQ DK :=
  mkService (sv_caps v) (sv_core v) (sv_ingress v) q (out_co v) (out_wf v) (out_sz v) (out_pe v).
Definition set_out_co (l : list CoOut) v : Service M DQ DK :=
  mkService (sv_caps v) (sv_core v) (sv_ingress v) (sv_user v) l (out_wf v) (out_sz v) (out_pe v).
Definition set_out_wf (l : list WfOut) v : Service M DQ DK :=
  mkService (sv_caps v) (sv_core v) (sv_ingress v) (sv_user v) (out_co v) l (out_sz v) (out_pe v).
Definition set_out_sz (l : list SzOut) v : Service M DQ DK :=
  mkService (sv_caps v) (sv_core v) (sv_ingress v) (sv_user v) (out_co v) (out_wf v) l (out_pe v).
Definition set_out_pe (l : list PeOut) v : Service M DQ DK :=
  mkService (sv_caps v) (sv_core v) (sv_ingress v) (sv_user v) (out_co v) (out_wf v) (out_sz v) l.

(** The tasks of a [System], its queues unchanged. *)
Definition set_co (c : AlarmStateCoordinator) s : System DQ DK :=
  mkSystem c (sys_wf s) (sys_sz s) (sys_pe s) (q_job s) (q_job_outcome s) (q_snooze s)
    (q_snooze_outcome s) (q_publish s) (q_publish_outcome s).
Definition set_wf (w : WorkflowHandler) s : System DQ DK :=
  mkSystem (sys_co s) w (sys_sz s) (sys_pe s) (q_job s) (q_job_outcome s) (q_snooze s)
    (q_snooze_outcome s) (q_publish s) (q_publish_outcome s).
Definition set_sz (z : Scheduler DQ DK) s : System DQ DK :=
  mkSystem (sys_co s) (sys_wf s) z (sys_pe s) (q_job s) (q_job_outcome s) (q_snooze s)
    (q_snooze_outcome s) (q_publish s) (q_publish_outcome s).
Definition set_pe (e : PublishEngine) s : System DQ DK :=
  mkSystem (sys_co s) (sys_wf s) (sys_sz s) e (q_job s) (q_job_outcome s) (q_snooze s)
    (q_snooze_outcome s) (q_publish s) (q_publish_outcome s).

Definition put_co_inbox (i : CoInbox) v : Service M DQ DK :=
  let g := sv_ingress v in
  let tx := coordinator_tx g in
  set_core (set_q_job_outcome (buffer (job_outcome_rx i)) (sv_core v))
    (set_ingress
       (mkIngress (overload_state g) (notify_permit g)
          (mkBchan (buffer (automated_rx i)) (capacity tx) (receiver_alive tx))
          (senders g) (drain g))
       (set_user (mkBchan (buffer (user_rx i)) (capacity (sv_user v)) (receiver_alive (sv_user v)))
          v)).

Definition put_wf_inbox (i : WfInbox) v : Service M DQ DK :=
  set_core
    (set_q_publish_outcome (buffer (publish_outcome_rx i))
       (set_q_snooze_outcome (buffer (snooze_outcome_rx i))
          (set_q_job (buffer (job_rx i)) (sv_core v)))) v.

(** *** The steps *)

Definition SvM : Type := outcome (unit * Service M DQ DK * list SvOut).

Definition idle v : SvM := Ret (tt, v, []).

(** An iteration of a task: its new state, and what it is going to send. *)
Definition start_co (m : Eff AlarmStateCoordinator CoOut (result unit string)) v : SvM :=
  match m (sys_co (sv_core v)) with
  | Ret (Ok _, c, outs) => Ret (tt, set_out_co outs (set_core (set_co c (sv_core v)) v), [])
  | Ret (Err msg, _, _) => Panic msg
  | Panic msg => Panic msg
  end.
Definition start_wf (m : Eff WorkflowHandler WfOut unit) v : SvM :=
  match m (sys_wf (sv_core v)) with
  | Ret (_, w, outs) => Ret (tt, set_out_wf outs (set_core (set_wf w (sv_core v)) v), [])
  | Panic msg => Panic msg
  end.
Definition start_sz (m : Eff (Scheduler DQ DK) SzOut bool) v : SvM :=
  match m (sys_sz (sv_core v)) with
  | Ret (_, z, outs) => Ret (tt, set_out_sz outs (set_core (set_sz z (sv_core v)) v), [])
  | Panic msg => Panic msg
  end.
Definition start_pe (m : Eff PublishEngine PeOut bool) v : SvM :=
  match m (sys_pe (sv_core v)) with
  | Ret (_, e, outs) => Ret (tt, set_out_pe outs (set_core (set_pe e (sv_core v)) v), [])
  | Panic msg => Panic msg
  end.

(** The next send of a task, when there is room. *)
Definition send_step (t : Task) v : SvM :=
  let caps := sv_caps v in
  let s := sv_core v in
  let sent (o : SysOut) (r : option (System DQ DK)) (v' : Service M DQ DK) : SvM :=
    match r with Some s' => Ret (tt, set_core s' v', [SvTask o]) | None => idle v end in
  match t with
  | TCoordinator =>
      match out_co v with
      | o :: rest => sent (SoCo o) (co_send caps o s) (set_out_co rest v)
      | [] => idle v
      end
  | TWorkflow =>
      match out_wf v with
      | o :: rest => sent (SoWf o) (wf_send caps o s) (set_out_wf rest v)
      | [] => idle v
      end
  | TSnooze =>
      match out_sz v with
      | o :: rest => sent (SoSz o) (sz_send caps o s) (set_out_sz rest v)
      | [] => idle v
      end
  | TPublish =>
      match out_pe v with
      | o :: rest => sent (SoPe o) (pe_send caps o s) (set_out_pe rest v)
      | [] => idle v
      end
  end.

(** One step.  A step that cannot happen changes nothing; the coordinator's queue is
    emptied by the coordinator only. *)
Definition service_step (e : SvEvent) v : SvM :=
  let s := sv_core v in
  match e with
  | EvIngress InReceive => idle v
  | EvIngress e =>
      match ingress_step e (sv_ingress v) with
      | Ret (_, g, outs) => Ret (tt, set_ingress g v, SvIngress <$> outs)
      | Panic msg => Panic msg
      end
  | EvUser m =>
      match user_try_send m (sv_user v) with
      | Ret (r, q, outs) => Ret (tt, set_user q v, (SvIngress <$> outs) ++ [SvUser r])
      | Panic msg => Panic msg
      end
  | EvCoordinator now =>
      match out_co v, coordinator_select (co_inbox v) with
      | [], Ready (e, i) => start_co (coordinator_handle true now e) (put_co_inbox i v)
      | _, _ => idle v
      end
  | EvWorkflow =>
      match out_wf v, workflow_select (wf_inbox v) with
      | [], Ready (e, i) => start_wf (workflow_dispatch all_alive e) (put_wf_inbox i v)
      | _, _ => idle v
      end
  | EvSnooze utc_now inst_now =>
      match out_sz v, poll_recv (snooze_effect_rx s) with
      | [], Ready (i, rx) =>
          start_sz (scheduler_iteration true utc_now inst_now (SzInput i))
            (set_core (set_q_snooze (buffer rx) s) v)
      | _, _ => idle v
      end
  | EvTimer utc_now inst_now =>
      match out_sz v with
      | [] => start_sz (scheduler_iteration true utc_now inst_now SzTimer) v
      | _ => idle v
      end
  | EvPublish =>
      match out_pe v, poll_recv (publish_effect_rx s) with
      | [], Ready (p, rx) =>
          start_pe (engine_iteration true (PeRecv p)) (set_core (set_q_publish (buffer rx) s) v)
      | _, _ => idle v
      end
  | EvAttempt e =>
      match out_pe v, e with
      | _ :: _, _ | _, PeRecv _ | _, PeElse => idle v
      | [], _ => if engine_ready (sys_pe s) e then start_pe (engine_iteration true e) v else idle v
      end
  | EvSend t => send_step t v
  end.

Fixpoint service_run (es : list SvEvent) v : SvM :=
  match es with
  | [] => idle v
  | e :: es' =>
      match service_step e v with
      | Ret (_, v1, o1) =>
          match service_run es' v1 with
          | Ret (_, v2, o2) => Ret (tt, v2, o1 ++ o2)
          | Panic msg => Panic msg
          end
      | Panic msg => Panic msg
      end
  end.

(** ** The service as a [System] *)

Definition service_system v : System DQ DK :=
  let s := sv_core v in
  mkSystem (sys_co s) (sys_wf s) (sys_sz s) (sys_pe s)
    (q_job s ++ jobs_in (out_co v)) (q_job_outcome s ++ omap wf_outcome (out_wf v))
    (q_snooze s ++ omap wf_snooze (out_wf v)) (q_snooze_outcome s ++ omap sz_outcome (out_sz v))
    (q_publish s ++ omap wf_publish (out_wf v)) (q_publish_outcome s ++ omap pe_outcome (out_pe v)).

(** The step of [System] that a step of the service is, if any. *)
Definition sys_event_of (e : SvEvent) v : list SysEvent :=
  match e with
  | EvCoordinator now =>
      match out_co v, coordinator_select (co_inbox v) with
      | [], Ready (CeOutcome _, _) => [SyJobOutcome now]
      | [], Ready (CeUser m, _) => [SyUser now m]
      | [], Ready (CeAutomated m, _) => [SyAutomated now m]
      | _, _ => []
      end
  | EvWorkflow =>
      match out_wf v, workflow_select (wf_inbox v) with
      | [], Ready (WePublishOutcome _, _) => [SyPublishOutcome]
      | [], Ready (WeSnoozeOutcome _, _) => [SySnoozeOutcome]
      | [], Ready (WeNewJob _, _) => [SyJob]
      | _, _ => []
      end
  | EvSnooze utc_now inst_now =>
      match out_sz v, q_snooze (sv_core v) with [], _ :: _ => [SySnooze utc_now inst_now] | _, _ => [] end
  | EvTimer utc_now inst_now =>
      match out_sz v with [] => [SyTimer utc_now inst_now] | _ => [] end
  | EvPublish => match out_pe v, q_publish (sv_core v) with [], _ :: _ => [SyPublish] | _, _ => [] end
  | EvAttempt e =>
      match out_pe v, e with
      | _ :: _, _ | _, PeRecv _ | _, PeElse => []
      | [], _ => if engine_ready (sys_pe (sv_core v)) e then [SyAttempt e] else []
      end
  | EvIngress _ | EvUser _ | EvSend _ => []
  end.

Fixpoint sys_events (es : list SvEvent) v : list SysEvent :=
  match es with
  | [] => []
  | e :: es' =>
      sys_event_of e v ++
      match service_step e v with Ret (_, v', _) => sys_events es' v' | Panic _ => [] end
  end.

(** What a task has still to send, and what it has sent. *)
Definition outbox (t : Task) v : list SysOut :=
  match t with
  | TCoordinator => SoCo <$> out_co v
  | TWorkflow => SoWf <$> out_wf v
  | TSnooze => SoSz <$> out_sz v
  | TPublish => SoPe <$> out_pe v
  end.
End service.

Definition task_of (o : SysOut) : Task :=
  match o with SoCo _ => TCoordinator | SoWf _ => TWorkflow | SoSz _ => TSnooze | SoPe _ => TPublish end.

Definition outs_of (t : Task) (outs : list SysOut) : list SysOut :=
  filter (λ o, task_of o = t) outs.

Definition task_outs (outs : list SvOut) : list SysOut :=
  omap (λ o, match o with SvTask o => Some o | _ => None end) outs.

(** ** Every step is a step of [System] or none *)

Section refinement.
Context `{UnicodeTables} `{ProtoEnums} `{StatusJsonLaws} {M : Type} `{!RingMap M}.
Context {DQ DK : Type} `{Countable DK} `{!DelayQueue DQ DK} `{!DelayQueueLaws DQ DK} `{ChronoLaws}.
Implicit Types v : Service M DQ DK.
Implicit Types s : System DQ DK.

(** A step of the service [v] to [v'] with these outputs, against a run of at most one
    step of the [System]: what a task had to send and what the [System] sends for it is
    what the task has sent and what it has to send now. *)
Definition simulates v v' (outs : list SvOut) (es : list SysEvent) (souts : list SysOut) : Prop :=
  sys_run es (service_system v) = Ret (tt, service_system v', souts) ∧
  ∀ t, outbox t v ++ outs_of t souts = outs_of t (task_outs outs) ++ outbox t v'.

Definition simulated_step v (es : list SysEvent) (r : SvM (M:=M) (DQ:=DQ) (DK:=DK)) : Prop :=
  ∃ v' outs souts, r = Ret (tt, v', outs) ∧ simulates v v' outs es souts.

Lemma outs_of_same {A} t (f : A → SysOut) (l : list A) :
  (∀ a, task_of (f a) = t) → outs_of t (f <$> l) = f <$> l.
Proof.
  intros Hf. unfold outs_of. induction l as [|a l IH]; [done|].
  by rewrite fmap_cons, filter_cons, decide_True, IH by done.
Qed.

Lemma outs_of_other {A} t (f : A → SysOut) (l : list A) :
  (∀ a, task_of (f a) ≠ t) → outs_of t (f <$> l) = [].
Proof.
  intros Hf. unfold outs_of. induction l as [|a l IH]; [done|].
  by rewrite fmap_cons, filter_cons, decide_False.
Qed.

Lemma simulated_idle v : simulated_step v [] (idle v).
Proof.
  exists v, [], []. split; [done|]. split; [done|].
  intros t. by rewrite app_nil_r.
Qed.

(** An event of the [System] that the service takes as a whole iteration. *)
Lemma simulated_sys_step e v r :
  system_ok (service_system v) →
  (∀ s' souts, sys_step e (service_system v) = Ret (tt, s', souts) →
     ∃ v', r = Ret (tt, v', []) ∧ service_system v' = s' ∧
       ∀ t, outbox t v' = outbox t v ++ outs_of t souts) →
  simulated_step v [e] r.
Proof.
  intros Hok Hr. destruct (sys_step_ok e _ Hok) as (s' & souts & Hstep & _).
  destruct (Hr s' souts Hstep) as (v' & -> & <- & Hout).
  exists v', [], souts. split; [done|]. split; [cbn; by rewrite Hstep, app_nil_r|].
  intros t. by rewrite Hout.
Qed.

Ltac outboxes Hout :=
  intros []; cbn; rewrite ?Hout, ?outs_of_same, ?outs_of_other by done; by rewrite ?app_nil_r.

Lemma start_co_simulates m v1 v s' souts :
  run_co m (service_system v1) = Ret (tt, s', souts) → out_co v1 = [] →
  (∀ t, outbox t v1 = outbox t v) →
  ∃ v', start_co m v1 = Ret (tt, v', []) ∧ service_system v' = s' ∧
    ∀ t, outbox t v' = outbox t v ++ outs_of t souts.
Proof.
  unfold run_co, start_co. cbn [service_system sys_co]. intros Hrun Hout Hsame.
  destruct (m _) as [[[[[]|] c] outs]|]; simplify_eq. eexists. split; [done|].
  split; [by rewrite Hout; cbn; rewrite app_nil_r|].
  intros t. rewrite <- Hsame. revert t. outboxes Hout.
Qed.

Lemma start_wf_simulates m v1 v s' souts :
  run_wf m (service_system v1) = Ret (tt, s', souts) → out_wf v1 = [] →
  (∀ t, outbox t v1 = outbox t v) →
  ∃ v', start_wf m v1 = Ret (tt, v', []) ∧ service_system v' = s' ∧
    ∀ t, outbox t v' = outbox t v ++ outs_of t souts.
Proof.
  unfold run_wf, start_wf. cbn [service_system sys_wf]. intros Hrun Hout Hsame.
  destruct (m _) as [[[[] w] outs]|]; simplify_eq. eexists. split; [done|].
  split; [by rewrite Hout; cbn; rewrite !app_nil_r|].
  intros t. rewrite <- Hsame. revert t. outboxes Hout.
Qed.

Lemma start_sz_simulates m v1 v s' souts :
  run_sz m (service_system v1) = Ret (tt, s', souts) → out_sz v1 = [] →
  (∀ t, outbox t v1 = outbox t v) →
  ∃ v', start_sz m v1 = Ret (tt, v', []) ∧ service_system v' = s' ∧
    ∀ t, outbox t v' = outbox t v ++ outs_of t souts.
Proof.
  unfold run_sz, start_sz. cbn [service_system sys_sz]. intros Hrun Hout Hsame.
  destruct (m _) as [[[b z] outs]|]; simplify_eq. eexists. split; [done|].
  split; [by rewrite Hout; cbn; rewrite app_nil_r|].
  intros t. rewrite <- Hsame. revert t. outboxes Hout.
Qed.

Lemma start_pe_simulates m v1 v s' souts :
  run_pe m (service_system v1) = Ret (tt, s', souts) → out_pe v1 = [] →
  (∀ t, outbox t v1 = outbox t v) →
  ∃ v', start_pe m v1 = Ret (tt, v', []) ∧ service_system v' = s' ∧
    ∀ t, outbox t v' = outbox t v ++ outs_of t souts.
Proof.
  unfold run_pe, start_pe. cbn [service_system sys_pe]. intros Hrun Hout Hsame.
  destruct (m _) as [[[b e] outs]|]; simplify_eq. eexists. split; [done|].
  split; [by rewrite Hout; cbn; rewrite app_nil_r|].
  intros t. rewrite <- Hsame. revert t. outboxes Hout.
Qed.

Lemma user_try_send_total m tx : ∃ r q outs, user_try_send m tx = Ret (r, q, outs).
Proof. rewrite user_try_send_spec. repeat case_match; eauto. Qed.

Lemma task_outs_ingress outs : task_outs (SvIngress <$> outs) = [].
Proof. by induction outs. Qed.

(** A send moves a message from an outbox to its channel. *)
Lemma send_wait_Some {A} cap (a : A) q q' :
  send_wait cap a q = Some q' ↔ length q < cap ∧ q' = q ++ [a].
Proof. unfold send_wait. destruct (Nat.ltb_spec (length q) cap); naive_solver lia. Qed.

Ltac sent_message Hs :=
  first [ by injection Hs as <-
        | apply fmap_Some in Hs as (q & [_ ->]%send_wait_Some & ->); cbn; by rewrite <- app_assoc ].

Lemma send_step_simulates t v : simulated_step v [] (send_step t v).
Proof.
  assert (Hmove : ∀ v' o, service_system v' = service_system v →
    (∀ t, outbox t v = outs_of t [o] ++ outbox t v') →
    simulated_step v [] (Ret (tt, v', [SvTask o]))).
  { intros v' o Hsys Hout. exists v', [SvTask o], []. split; [done|].
    split; [by rewrite Hsys|]. intros t'. cbn. by rewrite app_nil_r, Hout. }
  destruct t; cbn [send_step].
  - destruct (out_co v) as [|o rest] eqn:Ho; [apply simulated_idle|].
    destruct (co_send _ _ _) as [s'|] eqn:Hs; [|apply simulated_idle].
    apply Hmove; [|intros []; cbn; by rewrite ?Ho].
    unfold service_system. cbn. rewrite Ho. destruct o; cbn in Hs; sent_message Hs.
  - destruct (out_wf v) as [|o rest] eqn:Ho; [apply simulated_idle|].
    destruct (wf_send _ _ _) as [s'|] eqn:Hs; [|apply simulated_idle].
    apply Hmove; [|intros []; cbn; by rewrite ?Ho].
    unfold service_system. cbn. rewrite Ho. destruct o; cbn in Hs; sent_message Hs.
  - destruct (out_sz v) as [|o rest] eqn:Ho; [apply simulated_idle|].
    destruct (sz_send _ _ _) as [s'|] eqn:Hs; [|apply simulated_idle].
    apply Hmove; [|intros []; cbn; by rewrite ?Ho].
    unfold service_system. cbn. rewrite Ho. destruct o; cbn in Hs; sent_message Hs.
  - destruct (out_pe v) as [|o rest] eqn:Ho; [apply simulated_idle|].
    destruct (pe_send _ _ _) as [s'|] eqn:Hs; [|apply simulated_idle].
    apply Hmove; [|intros []; cbn; by rewrite ?Ho].
    unfold service_system. cbn. rewrite Ho. destruct o; cbn in Hs; sent_message Hs.
Qed.

(** An iteration of a task, by the event of the [System] it stands for. *)
Lemma service_step_simulates e v :
  system_ok (service_system v) → simulated_step v (sys_event_of e v) (service_step e v).
Proof.
  intros Hok. destruct e as [e|m|now| |u i|u i| |e|t]; cbn [service_step sys_event_of].
  - destruct (ingress_step_total e (sv_ingress v)) as (g & outs & Hrun & _).
    assert (Hin : simulated_step v [] (Ret (tt, set_ingress g v, SvIngress <$> outs))).
    { exists (set_ingress g v), (SvIngress <$> outs), [].
      split; [done|]. split; [done|]. intros t.
      rewrite task_outs_ingress, app_nil_r. by destruct t. }
    destruct e; try apply simulated_idle; by rewrite Hrun.
  - destruct (user_try_send_total m (sv_user v)) as (r & q & outs & Hrun). rewrite Hrun.
    exists (set_user q v), ((SvIngress <$> outs) ++ [SvUser r]), [].
    split; [done|]. split; [done|]. intros t. unfold task_outs.
    rewrite app_nil_r, omap_app. fold (task_outs (SvIngress <$> outs)).
    rewrite task_outs_ingress. by destruct t.
  - destruct (out_co v) eqn:Hout; [|apply simulated_idle].
    destruct (coordinator_select (co_inbox v)) as [[e i]| |] eqn:Hsel; try apply simulated_idle.
    unfold coordinator_select, co_inbox, job_port_rx, poll_recv in Hsel. cbn in Hsel.
    destruct (q_job_outcome (sv_core v)) as [|o rest] eqn:Hq; cbn in Hsel;
      [destruct (queued (sv_user v)) as [|m rest] eqn:Hu; cbn in Hsel;
       [destruct (queued (coordinator_tx (sv_ingress v))) as [|m rest] eqn:Ha; cbn in Hsel|]|];
      simplify_eq.
    + apply (simulated_sys_step (SyAutomated now m)); [done|]. intros s' souts Hs.
      eapply start_co_simulates; [|done|done]. rewrite <- Hs. unfold service_system. cbn. by rewrite ?Hq.
    + apply (simulated_sys_step (SyUser now m)); [done|]. intros s' souts Hs.
      eapply start_co_simulates; [|done|done]. rewrite <- Hs. unfold service_system. cbn. by rewrite ?Hq.
    + apply (simulated_sys_step (SyJobOutcome now)); [done|]. intros s' souts Hs.
      eapply start_co_simulates; [|done|done]. rewrite <- Hs. unfold service_system. cbn. by rewrite ?Hq.
  - destruct (out_wf v) eqn:Hout; [|apply simulated_idle].
    destruct (workflow_select (wf_inbox v)) as [[e i]| |] eqn:Hsel; try apply simulated_idle.
    unfold workflow_select, wf_inbox, publish_port_rx, snooze_port_rx, coordinator_port_rx, poll_recv in Hsel. cbn in Hsel.
    destruct (q_publish_outcome (sv_core v)) as [|o rest] eqn:Hp; cbn in Hsel;
      [destruct (q_snooze_outcome (sv_core v)) as [|r rest] eqn:Hr; cbn in Hsel;
       [destruct (q_job (sv_core v)) as [|j rest] eqn:Hj; cbn in Hsel|]|];
      simplify_eq.
    + apply (simulated_sys_step SyJob); [done|]. intros s' souts Hs.
      eapply start_wf_simulates; [|done|done]. rewrite <- Hs. unfold service_system. cbn. by rewrite Hj, Hp, Hr.
    + apply (simulated_sys_step SySnoozeOutcome); [done|]. intros s' souts Hs.
      eapply start_wf_simulates; [|done|done]. rewrite <- Hs. unfold service_system. cbn. by rewrite Hp, Hr.
    + apply (simulated_sys_step SyPublishOutcome); [done|]. intros s' souts Hs.
      eapply start_wf_simulates; [|done|done]. rewrite <- Hs. unfold service_system. cbn. by rewrite Hp.
  - unfold poll_recv. cbn [buffer snooze_effect_rx sender_alive].
    destruct (out_sz v) eqn:Hout, (q_snooze (sv_core v)) as [|inp rest] eqn:Hq;
      try apply simulated_idle.
    apply (simulated_sys_step (SySnooze u i)); [done|]. intros s' souts Hs.
    eapply start_sz_simulates; [|done|done]. rewrite <- Hs. unfold service_system. cbn. by rewrite Hq.
  - destruct (out_sz v) eqn:Hout; [|apply simulated_idle].
    apply (simulated_sys_step (SyTimer u i)); [done|]. intros s' souts Hs.
    by eapply start_sz_simulates.
  - unfold poll_recv. cbn [buffer publish_effect_rx sender_alive].
    destruct (out_pe v) eqn:Hout, (q_publish (sv_core v)) as [|req rest] eqn:Hq;
      try apply simulated_idle.
    apply (simulated_sys_step SyPublish); [done|]. intros s' souts Hs.
    eapply start_pe_simulates; [|done|done]. rewrite <- Hs. unfold service_system. cbn. by rewrite Hq.
  - destruct (out_pe v) eqn:Hout; [|apply simulated_idle].
    destruct e; try apply simulated_idle;
      (destruct (engine_ready _ _) eqn:Hready; [|apply simulated_idle]);
      (eapply (simulated_sys_step (SyAttempt _)); [done|]; intros s' souts Hs;
       eapply start_pe_simulates; [|done|done]; rewrite <- Hs; cbn [sys_step];
       cbn [service_system sys_pe]; by rewrite Hready).
  - apply send_step_simulates.
Qed.

Lemma task_outs_app o1 o2 : task_outs (o1 ++ o2) = task_outs o1 ++ task_outs o2.
Proof. apply omap_app. Qed.

Lemma outs_of_app t o1 o2 : outs_of t (o1 ++ o2) = outs_of t o1 ++ outs_of t o2.
Proof. apply filter_app. Qed.

Lemma service_run_simulates es v :
  system_ok (service_system v) →
  ∃ v' outs souts, service_run es v = Ret (tt, v', outs) ∧ simulates v v' outs (sys_events es v) souts.
Proof.
  revert v. induction es as [|e es IH]; intros v Hok.
  { exists v, [], []. split; [done|]. split; [done|]. intros t. by rewrite app_nil_r. }
  destruct (service_step_simulates e v Hok) as (v1 & o1 & so1 & Hstep & Hsim1 & Ht1).
  destruct (sys_run_ok (sys_event_of e v) _ Hok) as (s1 & so1' & Hsim1' & Hok1).
  rewrite Hsim1 in Hsim1'. injection Hsim1' as <- <-.
  destruct (IH v1 Hok1) as (v2 & o2 & so2 & Hrun & Hsim2 & Ht2).
  exists v2, (o1 ++ o2), (so1 ++ so2). split; [cbn; by rewrite Hstep, Hrun|].
  cbn [sys_events]. rewrite Hstep. split; [by eapply sys_run_app|].
  intros t. by rewrite task_outs_app, !outs_of_app, app_assoc, Ht1, <- !app_assoc, Ht2.
Qed.

Lemma sys_events_length es v : length (sys_events es v) ≤ length es.
Proof.
  revert v. induction es as [|e es IH]; intros v; cbn [sys_events]; [done|].
  assert (Hone : length (sys_event_of e v) ≤ 1).
  { destruct e; cbn [sys_event_of]; repeat case_match; cbn; lia. }
  rewrite length_app. destruct (service_step e v) as [[[[] v1] o1]|]; cbn; [specialize (IH v1)|]; lia.
Qed.

Lemma mpsc_channel_Ret buffer cap :
  mpsc_channel buffer = Ret cap → (0 ≤ buffer)%Z → cap = Z.to_nat buffer ∧ 0 < cap.
Proof.
  unfold mpsc_channel. destruct (Z.eqb_spec buffer 0); [done|]. destruct (_ <=? _)%Z; [|done].
  intros [= <-] ?. split; [done|lia].
Qed.

Lemma service_start_Ret queue_config hydrated v :
  service_start queue_config hydrated = Ret v →
  ∃ a u j p z, mpsc_channel (cfg_automated queue_config) = Ret a ∧
    mpsc_channel (cfg_user queue_config) = Ret u ∧ mpsc_channel (cfg_job queue_config) = Ret j ∧
    mpsc_channel (cfg_publish queue_config) = Ret p ∧
    mpsc_channel (cfg_snooze queue_config) = Ret z ∧
    v = mkService (mkCapacities j p z) (system_new hydrated) (ingress_new (mkBchan [] a true))
          (mkBchan [] u true) [] [] [] [].
Proof. unfold service_start. repeat case_match; intros [= <-]. by eexists _, _, _, _, _. Qed.
End refinement.

(** ** Theorems about the bounded service *)

Section theorems.
Context `{UnicodeTables} `{ProtoEnums} `{StatusJsonLaws} {M : Type} `{!RingMap M}.
Context {DQ DK : Type} `{Countable DK} `{!DelayQueue DQ DK} `{!DelayQueueLaws DQ DK} `{ChronoLaws}.
Implicit Types v : Service M DQ DK.

(** C7 The bounded service refines the service with unbounded queues: whatever the
    capacities it is started with, whatever the handles, the operators, the timers and
    the broker do, and in whatever order the tasks run, no task panics, and the run of
    [System] that its iterations are ends with the same task states, with the messages of
    every channel and of its sender's outbox in one queue, and with the same outputs of
    every task in the same order, up to those still in its outbox. *)
Theorem service_refines_system queue_config hydrated v0 es :
  service_start queue_config hydrated = Ret v0 →
  ∃ v outs souts,
    service_run es v0 = Ret (tt, v, outs) ∧ length (sys_events es v0) ≤ length es ∧
    sys_run (sys_events es v0) (system_new hydrated) = Ret (tt, service_system v, souts) ∧
    ∀ t, outs_of t souts = outs_of t (task_outs outs) ++ outbox t v.
Proof.
  intros (a & u & j & p & z & _ & _ & _ & _ & _ & ->)%service_start_Ret.
  destruct (service_run_simulates es (mkService (mkCapacities j p z) (system_new hydrated)
    (ingress_new (mkBchan [] a true)) (mkBchan [] u true) [] [] [] []))
    as (v & outs & souts & Hrun & Hsim & Ht); [apply system_new_ok|].
  exists v, outs, souts. split; [done|]. split; [apply sys_events_length|]. split; [exact Hsim|].
  intros t. rewrite <- Ht. by destruct t.
Qed.
End theorems.

(** ** A sample: every channel holds one message *)

#[local] Existing Instance ascii_only_tables.
#[local] Existing Instance sample_enums.
#[local] Existing Instance sample_json.
#[local] Existing Instance sample_json_laws.

Definition SampleService : Type := Service ListMap (gmap nat (Key * Z)) nat.

Definition one_each : QueueCapacityConfig := mkQueueCapacityConfig 1 1 1 1 1.

Definition one_each_service : SampleService :=
  mkService (mkCapacities 1 1 1) (system_new ∅) (ingress_new (mkBchan [] 1 true))
    (mkBchan [] 1 true) [] [] [] [].

Lemma one_each_start : service_start one_each ∅ = Ret one_each_service.
Proof. reflexivity. Qed.

(** The state after a list of steps. *)
Definition service_after (es : list SvEvent) (v : SampleService) : SampleService :=
  match service_run es v with Ret (_, v', _) => v' | Panic _ => v end.

(** The next step of a task and the sends it causes. *)
Definition turn (t : Task) (e : SvEvent) (sends : nat) : list SvEvent := e :: replicate sends (EvSend t).

(** An alarm is reported, and its job sent. *)
Definition one_reported : list SvEvent :=
  [EvIngress (InCheck 0 (sy_status State.Alarmed Source.Epics Severity.Low)); EvIngress (InTry 0)] ++
  turn TCoordinator (EvCoordinator 1) 1.

Lemma service_refines_system_witness :
  let v := service_after one_reported one_each_service in
  length (q_job (sv_core v)) = 1 ∧
  ∃ v outs souts,
    service_run one_reported one_each_service = Ret (tt, v, outs) ∧
    length (sys_events one_reported one_each_service) ≤ length one_reported ∧
    sys_run (sys_events one_reported one_each_service) (system_new ∅) = Ret (tt, service_system v, souts) ∧
    ∀ t, outs_of t souts = outs_of t (task_outs outs) ++ outbox t v.
Proof.
  split; [vm_compute; reflexivity|].
  apply (service_refines_system one_each ∅ one_each_service one_reported one_each_start).
Defined.
