(* ===== verification/ServiceProps.v ===== *)
(** * Capacities and waiting

    With room for one message per alarm that has an intent, the service never comes to
    a state in which tasks wait for each other; with less it can, and then stays there. *)

From S2P Require Export Service.
From stdpp Require Import list.

(** ** Waiting *)

(** What the tasks do by themselves: take the next message, or send. *)
Definition internal_event (e : SvEvent) : bool :=
  match e with
  | EvCoordinator _ | EvWorkflow | EvSnooze _ _ | EvPublish | EvSend _ => true
  | EvIngress _ | EvUser _ | EvTimer _ _ | EvAttempt _ => false
  end.

Section waiting.
Context `{UnicodeTables} `{ProtoEnums} `{StatusJsonLaws} {M : Type} `{!RingMap M}.
Context {DQ DK : Type} `{Countable DK} `{!DelayQueue DQ DK} `{!DelayQueueLaws DQ DK} `{ChronoLaws}.
Implicit Types v : Service M DQ DK.

(** No task can take a message or send one. *)
Definition stuck v : Prop :=
  ∀ e v' outs, internal_event e = true → service_step e v = Ret (tt, v', outs) → v' = v.

(** Nothing is left to be taken or sent. *)
Definition drained v : Prop :=
  (∀ t, outbox t v = []) ∧
  q_job (sv_core v) = [] ∧ q_job_outcome (sv_core v) = [] ∧ q_snooze (sv_core v) = [] ∧
  q_snooze_outcome (sv_core v) = [] ∧ q_publish (sv_core v) = [] ∧
  q_publish_outcome (sv_core v) = [] ∧ queued (sv_user v) = [] ∧
  queued (coordinator_tx (sv_ingress v)) = [].

(** *** A task that can send or receive is not stuck *)

Lemma send_wait_room {A} cap (a : A) q :
  length q < cap → send_wait cap a q = Some (q ++ [a]).
Proof. intros Hlt. unfold send_wait. by destruct (Nat.ltb_spec (length q) cap); [|lia]. Qed.

(** A send that has room shortens an outbox. *)
Lemma stuck_step v e :
  stuck v → internal_event e = true → system_ok (service_system v) →
  ∃ outs, service_step e v = Ret (tt, v, outs).
Proof.
  intros Hstuck He Hok.
  destruct (service_step_simulates e v Hok) as (v' & outs & _ & Hrun & _).
  exists outs. by rewrite <- (Hstuck e v' outs He Hrun) at 2.
Qed.

Lemma cons_not_tail {A} (x : A) l : l ≠ x :: l.
Proof. intros E. apply (f_equal length) in E. cbn in E. lia. Qed.

(** An iteration leaves the channels as the [select!] left them. *)
Lemma start_co_Ret m v v' outs :
  start_co m v = Ret (tt, v', outs) → ∃ c l, v' = set_out_co l (set_core (set_co c (sv_core v)) v).
Proof. unfold start_co. repeat case_match; intros [= <- _]; eauto. Qed.
Lemma start_wf_Ret m v v' outs :
  start_wf m v = Ret (tt, v', outs) → ∃ w l, v' = set_out_wf l (set_core (set_wf w (sv_core v)) v).
Proof. unfold start_wf. repeat case_match; intros [= <- _]; eauto. Qed.
Lemma start_sz_Ret m v v' outs :
  start_sz m v = Ret (tt, v', outs) → ∃ z l, v' = set_out_sz l (set_core (set_sz z (sv_core v)) v).
Proof. unfold start_sz. repeat case_match; intros [= <- _]; eauto. Qed.
Lemma start_pe_Ret m v v' outs :
  start_pe m v = Ret (tt, v', outs) → ∃ e l, v' = set_out_pe l (set_core (set_pe e (sv_core v)) v).
Proof. unfold start_pe. repeat case_match; intros [= <- _]; eauto. Qed.

Lemma send_wait_None {A B} (f : list A → B) cap a q :
  f <$> send_wait cap a q = None → cap ≤ length q.
Proof.
  unfold send_wait. destruct (Nat.ltb_spec (length q) cap); [done|lia].
Qed.

(** What a stuck task waits for. *)
Lemma stuck_coordinator v :
  stuck v → system_ok (service_system v) →
  match out_co v with
  | [] => q_job_outcome (sv_core v) = [] ∧ queued (sv_user v) = [] ∧
          queued (coordinator_tx (sv_ingress v)) = []
  | CoJob _ :: _ => job_capacity (sv_caps v) ≤ length (q_job (sv_core v))
  | _ => False
  end.
Proof.
  intros Hstuck Hok. destruct (out_co v) as [|o rest] eqn:Hout.
  - destruct (stuck_step v (EvCoordinator 0) Hstuck eq_refl Hok) as [outs Hrun].
    cbn [service_step] in Hrun. rewrite Hout in Hrun.
    unfold coordinator_select, co_inbox, job_port_rx, poll_recv in Hrun. cbn in Hrun.
    destruct (q_job_outcome (sv_core v)) as [|o rest] eqn:Hq; cbn in Hrun;
      [destruct (queued (sv_user v)) as [|m rest] eqn:Hu; cbn in Hrun;
       [destruct (queued (coordinator_tx (sv_ingress v))) as [|m rest] eqn:Ha; cbn in Hrun|]|];
      [done|..]; apply start_co_Ret in Hrun as (c & l & E); exfalso.
    + apply (f_equal (λ v, queued (coordinator_tx (sv_ingress v)))) in E. cbn in E.
      rewrite Ha in E. by eapply cons_not_tail.
    + apply (f_equal (λ v, queued (sv_user v))) in E. cbn in E.
      rewrite Hu in E. by eapply cons_not_tail.
    + apply (f_equal (λ v, q_job_outcome (sv_core v))) in E. cbn in E.
      rewrite Hq in E. by eapply cons_not_tail.
  - destruct (stuck_step v (EvSend TCoordinator) Hstuck eq_refl Hok) as [outs Hrun].
    cbn [service_step send_step] in Hrun. rewrite Hout in Hrun.
    destruct (co_send _ _ _) as [s'|] eqn:Hs.
    + injection Hrun as E _. rewrite <- E in Hout. by destruct (cons_not_tail o rest).
    + destruct o; try done. by apply send_wait_None in Hs.
Qed.

Lemma stuck_workflow v :
  stuck v → system_ok (service_system v) →
  match out_wf v with
  | [] => q_publish_outcome (sv_core v) = [] ∧ q_snooze_outcome (sv_core v) = [] ∧
          q_job (sv_core v) = []
  | WfOutcome _ :: _ => job_capacity (sv_caps v) ≤ length (q_job_outcome (sv_core v))
  | WfPublish _ :: _ => publish_capacity (sv_caps v) ≤ length (q_publish (sv_core v))
  | WfSnooze _ :: _ => snooze_capacity (sv_caps v) ≤ length (q_snooze (sv_core v))
  | WfMetric _ :: _ => False
  end.
Proof.
  intros Hstuck Hok. destruct (out_wf v) as [|o rest] eqn:Hout.
  - destruct (stuck_step v EvWorkflow Hstuck eq_refl Hok) as [outs Hrun].
    cbn [service_step] in Hrun. rewrite Hout in Hrun.
    unfold workflow_select, wf_inbox, publish_port_rx, snooze_port_rx, coordinator_port_rx, poll_recv in Hrun. cbn in Hrun.
    destruct (q_publish_outcome (sv_core v)) as [|o rest] eqn:Hp; cbn in Hrun;
      [destruct (q_snooze_outcome (sv_core v)) as [|r rest] eqn:Hr; cbn in Hrun;
       [destruct (q_job (sv_core v)) as [|j rest] eqn:Hj; cbn in Hrun|]|];
      [done|..]; apply start_wf_Ret in Hrun as (w & l & E); exfalso.
    + apply (f_equal (λ v, q_job (sv_core v))) in E. cbn in E.
      rewrite Hj in E. by eapply cons_not_tail.
    + apply (f_equal (λ v, q_snooze_outcome (sv_core v))) in E. cbn in E.
      rewrite Hr in E. by eapply cons_not_tail.
    + apply (f_equal (λ v, q_publish_outcome (sv_core v))) in E. cbn in E.
      rewrite Hp in E. by eapply cons_not_tail.
  - destruct (stuck_step v (EvSend TWorkflow) Hstuck eq_refl Hok) as [outs Hrun].
    cbn [service_step send_step] in Hrun. rewrite Hout in Hrun.
    destruct (wf_send _ _ _) as [s'|] eqn:Hs.
    + injection Hrun as E _. rewrite <- E in Hout. by destruct (cons_not_tail o rest).
    + destruct o; try done; by apply send_wait_None in Hs.
Qed.

Lemma stuck_snooze v :
  stuck v → system_ok (service_system v) →
  match out_sz v with
  | [] => q_snooze (sv_core v) = []
  | SzOutcome _ :: _ => snooze_capacity (sv_caps v) ≤ length (q_snooze_outcome (sv_core v))
  | SzMetric _ :: _ => False
  end.
Proof.
  intros Hstuck Hok. destruct (out_sz v) as [|o rest] eqn:Hout.
  - destruct (stuck_step v (EvSnooze 0 0) Hstuck eq_refl Hok) as [outs Hrun].
    cbn [service_step] in Hrun. rewrite Hout in Hrun. unfold poll_recv, snooze_effect_rx in Hrun.
    cbn in Hrun. destruct (q_snooze (sv_core v)) as [|i rest] eqn:Hq; [done|].
    apply start_sz_Ret in Hrun as (z & l & E).
    apply (f_equal (λ v, q_snooze (sv_core v))) in E. cbn in E. rewrite Hq in E.
    by destruct (cons_not_tail i rest).
  - destruct (stuck_step v (EvSend TSnooze) Hstuck eq_refl Hok) as [outs Hrun].
    cbn [service_step send_step] in Hrun. rewrite Hout in Hrun.
    destruct (sz_send _ _ _) as [s'|] eqn:Hs.
    + injection Hrun as E _. rewrite <- E in Hout. by destruct (cons_not_tail o rest).
    + destruct o; try done; by apply send_wait_None in Hs.
Qed.

Lemma stuck_publish v :
  stuck v → system_ok (service_system v) →
  match out_pe v with
  | [] => q_publish (sv_core v) = []
  | PeOutcome _ :: _ => publish_capacity (sv_caps v) ≤ length (q_publish_outcome (sv_core v))
  | _ => False
  end.
Proof.
  intros Hstuck Hok. destruct (out_pe v) as [|o rest] eqn:Hout.
  - destruct (stuck_step v EvPublish Hstuck eq_refl Hok) as [outs Hrun].
    cbn [service_step] in Hrun. rewrite Hout in Hrun. unfold poll_recv, publish_effect_rx in Hrun.
    cbn in Hrun. destruct (q_publish (sv_core v)) as [|i rest] eqn:Hq; [done|].
    apply start_pe_Ret in Hrun as (z & l & E).
    apply (f_equal (λ v, q_publish (sv_core v))) in E. cbn in E. rewrite Hq in E.
    by destruct (cons_not_tail i rest).
  - destruct (stuck_step v (EvSend TPublish) Hstuck eq_refl Hok) as [outs Hrun].
    cbn [service_step send_step] in Hrun. rewrite Hout in Hrun.
    destruct (pe_send _ _ _) as [s'|] eqn:Hs.
    + injection Hrun as E _. rewrite <- E in Hout. by destruct (cons_not_tail o rest).
    + destruct o; try done; by apply send_wait_None in Hs.
Qed.

(** ** Capacities *)

Lemma service_step_caps e v v' outs :
  service_step e v = Ret (tt, v', outs) → sv_caps v' = sv_caps v.
Proof.
  destruct e as [e|m|now| |u i|u i| |e|t]; cbn [service_step].
  - destruct e; [..|by intros [= <- _]]; repeat case_match; by intros [= <- _].
  - repeat case_match; by intros [= <- _].
  - repeat case_match; first [by intros [= <- _] | by intros (? & ? & ->)%start_co_Ret].
  - repeat case_match; first [by intros [= <- _] | by intros (? & ? & ->)%start_wf_Ret].
  - repeat case_match; first [by intros [= <- _] | by intros (? & ? & ->)%start_sz_Ret].
  - repeat case_match; first [by intros [= <- _] | by intros (? & ? & ->)%start_sz_Ret].
  - repeat case_match; first [by intros [= <- _] | by intros (? & ? & ->)%start_pe_Ret].
  - destruct (out_pe v); [|by intros [= <- _]]. destruct e; try (by intros [= <- _]);
      (destruct (engine_ready _ _); [|by intros [= <- _]]); by intros (? & ? & ->)%start_pe_Ret.
  - destruct t; cbn [send_step]; repeat case_match; by intros [= <- _].
Qed.

Lemma service_run_caps es v v' outs :
  service_run es v = Ret (tt, v', outs) → sv_caps v' = sv_caps v.
Proof.
  revert v outs. induction es as [|e es IH]; intros v outs; cbn; [by intros [= <- _]|].
  destruct (service_step e v) as [[[[] v1] o1]|] eqn:Hstep; [|done].
  destruct (service_run es v1) as [[[[] v2] o2]|] eqn:Hrun; [|done]. intros [= <- _].
  rewrite (IH _ _ Hrun). by eapply service_step_caps.
Qed.

(** Capacities are [usize]s. *)
Definition usize_config (queue_config : QueueCapacityConfig) : Prop :=
  (0 ≤ cfg_automated queue_config ≤ u64_max)%Z ∧ (0 ≤ cfg_user queue_config ≤ u64_max)%Z ∧
  (0 ≤ cfg_job queue_config ≤ u64_max)%Z ∧ (0 ≤ cfg_publish queue_config ≤ u64_max)%Z ∧
  (0 ≤ cfg_snooze queue_config ≤ u64_max)%Z.

Lemma stuck_drained v :
  system_ok (service_system v) → stuck v →
  0 < job_capacity (sv_caps v) → 0 < publish_capacity (sv_caps v) →
  0 < snooze_capacity (sv_caps v) →
  size (speculative_state (sys_co (sv_core v))) ≤ job_capacity (sv_caps v) →
  size (speculative_state (sys_co (sv_core v))) ≤ publish_capacity (sv_caps v) →
  size (speculative_state (sys_co (sv_core v))) ≤ snooze_capacity (sv_caps v) →
  drained v.
Proof.
  intros Hok Hstuck Hj0 Hp0 Hz0 Hj Hp Hz.
  pose proof (stuck_coordinator v Hstuck Hok) as Hco. pose proof (stuck_workflow v Hstuck Hok) as Hwf.
  pose proof (stuck_snooze v Hstuck Hok) as Hsz. pose proof (stuck_publish v Hstuck Hok) as Hpe.
  destruct (system_counts _ Hok) as [H1' H2'].
  unfold service_system in H1', H2'.
  cbn -[jobs_in outcome_key reply_key results] in H1', H2'. rewrite !length_app in H1', H2'.
  assert (Eco : out_co v = []).
  { destruct (out_co v) as [|[j| |] rest]; [done| |done..]. exfalso. revert H1' Hco. cbn. lia. }
  rewrite Eco in Hco. destruct Hco as (Ejo & Eu & Ea).
  assert (Ewf : out_wf v = []).
  { destruct (out_wf v) as [|[p|i|o|m] rest]; [done|..|done]; exfalso;
      revert H1' H2' Hwf; cbn; rewrite ?Ejo, ?length_app; cbn; lia. }
  rewrite Ewf in Hwf. destruct Hwf as (Epo & Eso & Ej).
  assert (Esz : out_sz v = []).
  { destruct (out_sz v) as [|[o|m] rest]; [done| |done]. rewrite Eso in Hsz. cbn in Hsz. lia. }
  assert (Epe : out_pe v = []).
  { destruct (out_pe v) as [|[o| |m] rest]; [done| |done..]. rewrite Epo in Hpe. cbn in Hpe. lia. }
  rewrite Esz in Hsz. rewrite Epe in Hpe.
  split; [intros []; cbn; by rewrite ?Eco, ?Ewf, ?Esz, ?Epe|]. by split_and!.
Qed.

Lemma coordinator_has_room v :
  system_ok (service_system v) →
  size (speculative_state (sys_co (sv_core v))) ≤ job_capacity (sv_caps v) →
  ∀ j rest, out_co v = CoJob j :: rest → length (q_job (sv_core v)) < job_capacity (sv_caps v).
Proof.
  intros Hok Hj j rest Hout. destruct (system_counts _ Hok) as [Hcount _].
  unfold service_system in Hcount. cbn -[jobs_in] in Hcount. rewrite Hout, length_app in Hcount.
  cbn in Hcount. lia.
Qed.

Lemma service_start_caps queue_config hydrated v :
  usize_config queue_config → service_start queue_config hydrated = Ret v →
  sv_caps v = mkCapacities (Z.to_nat (cfg_job queue_config)) (Z.to_nat (cfg_publish queue_config))
                (Z.to_nat (cfg_snooze queue_config)) ∧
  0 < job_capacity (sv_caps v) ∧ 0 < publish_capacity (sv_caps v) ∧ 0 < snooze_capacity (sv_caps v).
Proof.
  intros (_ & _ & Hj & Hp & Hz) (a & u & j & p & z & _ & _ & Ej & Ep & Ez & ->)%service_start_Ret.
  apply mpsc_channel_Ret in Ej as [-> ?], Ep as [-> ?], Ez as [-> ?]; [by split_and!|lia..].
Qed.

Lemma service_run_ok queue_config hydrated v0 es v outs :
  service_start queue_config hydrated = Ret v0 → service_run es v0 = Ret (tt, v, outs) →
  system_ok (service_system v).
Proof.
  intros (a & u & j & p & z & _ & _ & _ & _ & _ & ->)%service_start_Ret Hrun.
  match type of Hrun with service_run _ ?v0 = _ => set (v0' := v0) in * end.
  destruct (service_run_simulates es v0') as (v' & outs' & souts & Hrun' & Hsim & _);
    [apply system_new_ok|].
  rewrite Hrun in Hrun'. injection Hrun' as <- <-.
  destruct (sys_run_ok (sys_events es v0') _ (system_new_ok hydrated)) as (s' & so & Hs & Hok).
  assert (E : sys_run (sys_events es v0') (system_new hydrated) = Ret (tt, service_system v, souts)) by exact Hsim.
  rewrite E in Hs. by injection Hs as -> _.
Qed.

(** C8 Enough capacity excludes a deadlock: when the channels between the tasks have room
    for one message per alarm that has an intent, the coordinator finds room for its next
    job at once, and the service can only be without a step of its tasks when nothing
    is left to do: no task has anything to send and every channel is empty. *)
Theorem no_deadlock queue_config hydrated v0 es v outs :
  usize_config queue_config →
  service_start queue_config hydrated = Ret v0 → service_run es v0 = Ret (tt, v, outs) →
  let intents := Z.of_nat (size (speculative_state (sys_co (sv_core v)))) in
  (intents ≤ cfg_job queue_config)%Z → (intents ≤ cfg_publish queue_config)%Z →
  (intents ≤ cfg_snooze queue_config)%Z →
  (∀ job rest, out_co v = CoJob job :: rest →
     is_Some (job_port_send (sv_caps v) job (sv_core v))) ∧
  (stuck v → drained v).
Proof.
  intros Hcfg Hstart Hrun intents Hj Hp Hz.
  pose proof (service_run_ok _ _ _ _ _ _ Hstart Hrun) as Hok.
  destruct (service_start_caps _ _ _ Hcfg Hstart) as (Ecaps & Hj0 & Hp0 & Hz0).
  rewrite <- (service_run_caps _ _ _ _ Hrun) in Ecaps, Hj0, Hp0, Hz0.
  assert (size (speculative_state (sys_co (sv_core v))) ≤ job_capacity (sv_caps v)) by
    (rewrite Ecaps; cbn; lia).
  split.
  - intros j rest Hout. unfold job_port_send. rewrite send_wait_room by by eapply coordinator_has_room.
    by eexists.
  - intros Hstuck. apply stuck_drained; try done; rewrite Ecaps; cbn; lia.
Qed.
End waiting.

(** ** Tasks that wait for each other *)

Section deadlock.
Context `{UnicodeTables} `{ProtoEnums} `{StatusJson} `{Chrono} {M : Type} `{!RingMap M}.
Context {DQ DK : Type} `{Countable DK} `{!DelayQueue DQ DK}.
Implicit Types v : Service M DQ DK.

(** The coordinator waits for room in the channel of jobs, which the workflow handler
    does not empty because it waits for room in the channel of outcomes, which the
    coordinator does not empty. *)
Definition deadlocked v : Prop :=
  (∃ job rest, out_co v = CoJob job :: rest) ∧
  job_capacity (sv_caps v) ≤ length (q_job (sv_core v)) ∧
  (∃ o rest, out_wf v = WfOutcome o :: rest) ∧
  job_capacity (sv_caps v) ≤ length (q_job_outcome (sv_core v)).

Definition deadlocked_b v : bool :=
  match out_co v, out_wf v with
  | CoJob _ :: _, WfOutcome _ :: _ =>
      (job_capacity (sv_caps v) <=? length (q_job (sv_core v)))%nat &&
      (job_capacity (sv_caps v) <=? length (q_job_outcome (sv_core v)))%nat
  | _, _ => false
  end.

Lemma deadlocked_b_true v : deadlocked_b v = true → deadlocked v.
Proof.
  unfold deadlocked_b, deadlocked. repeat case_match; try done.
  intros [?%Nat.leb_le ?%Nat.leb_le]%andb_true_iff. split_and!; eauto.
Qed.

(** Nothing about the two tasks and their channels differs, and neither did anything. *)
Definition frozen v v' (outs : list SvOut) : Prop :=
  sys_co (sv_core v') = sys_co (sv_core v) ∧ out_co v' = out_co v ∧
  sys_wf (sv_core v') = sys_wf (sv_core v) ∧ out_wf v' = out_wf v ∧
  q_job (sv_core v') = q_job (sv_core v) ∧ q_job_outcome (sv_core v') = q_job_outcome (sv_core v) ∧
  sv_caps v' = sv_caps v ∧
  outs_of TCoordinator (task_outs outs) = [] ∧ outs_of TWorkflow (task_outs outs) = [].

Lemma frozen_deadlocked v v' outs : frozen v v' outs → deadlocked v → deadlocked v'.
Proof.
  intros (_ & E1 & _ & E2 & E3 & E4 & E5 & _). unfold deadlocked. by rewrite E1, E2, E3, E4, E5.
Qed.

Lemma send_wait_full {A} cap (a : A) q : cap ≤ length q → send_wait cap a q = None.
Proof. intros Hle. unfold send_wait. by destruct (Nat.ltb_spec (length q) cap); [lia|]. Qed.

Lemma frozen_idle v : frozen v v [].
Proof. by split_and!. Qed.

Lemma frozen_ingress v g outs : frozen v (set_ingress g v) (SvIngress <$> outs).
Proof. unfold frozen. rewrite task_outs_ingress. by split_and!. Qed.

(** The other tasks send and receive on other channels. *)
Lemma sz_send_frozen v o s rest :
  sz_send (sv_caps v) o (sv_core v) = Some s →
  frozen v (set_core s (set_out_sz rest v)) [SvTask (SoSz o)].
Proof. destruct o; cbn; [|by intros [= <-]]. intros (q & _ & ->)%fmap_Some. by split_and!. Qed.
Lemma pe_send_frozen v o s rest :
  pe_send (sv_caps v) o (sv_core v) = Some s →
  frozen v (set_core s (set_out_pe rest v)) [SvTask (SoPe o)].
Proof. destruct o; cbn; try by intros [= <-]. intros (q & _ & ->)%fmap_Some. by split_and!. Qed.

Lemma deadlocked_step e v v' outs :
  deadlocked v → service_step e v = Ret (tt, v', outs) → frozen v v' outs.
Proof.
  intros ((job & rest & Hco) & Hj & (o & rest' & Hwf) & Ho).
  assert (Hidle : idle v = Ret (tt, v', outs) → frozen v v' outs).
  { intros [= <- <-]. apply frozen_idle. }
  destruct e as [e|m|now| |u i|u i| |e|t]; cbn [service_step]; rewrite ?Hco, ?Hwf; try done.
  - destruct (ingress_step e (sv_ingress v)) as [[[[] g] o']|] eqn:Hg;
      destruct e; try done; intros [= <- <-]; apply frozen_ingress.
  - destruct (user_try_send m (sv_user v)) as [[[r q] o']|]; [|done]. intros [= <- <-].
    unfold frozen, task_outs. rewrite omap_app. fold (task_outs (SvIngress <$> o')).
    rewrite task_outs_ingress. by split_and!.
  - destruct (out_sz v); [|done]. unfold poll_recv. cbn [buffer snooze_effect_rx sender_alive].
    destruct (q_snooze (sv_core v)); [done|].
    unfold start_sz. destruct (scheduler_iteration _ _ _ _ _) as [[[b z] l0]|]; [|done].
    intros [= <- <-]. by split_and!.
  - destruct (out_sz v); [|done].
    unfold start_sz. destruct (scheduler_iteration _ _ _ _ _) as [[[b z] l0]|]; [|done].
    intros [= <- <-]. by split_and!.
  - destruct (out_pe v); [|done]. unfold poll_recv. cbn [buffer publish_effect_rx sender_alive].
    destruct (q_publish (sv_core v)); [done|].
    unfold start_pe. destruct (engine_iteration _ _ _) as [[[b z] l0]|]; [|done].
    intros [= <- <-]. by split_and!.
  - assert (Hpe : start_pe (engine_iteration true e) v = Ret (tt, v', outs) → frozen v v' outs).
    { unfold start_pe. destruct (engine_iteration _ _ _) as [[[b z] l0]|]; [|done].
      intros [= <- <-]. by split_and!. }
    destruct (out_pe v); [|done]. destruct e; try done; (destruct (engine_ready _ _); [|done]); done.
  - destruct t; cbn [send_step]; rewrite ?Hco, ?Hwf; cbn [co_send wf_send].
    + unfold job_port_send. by rewrite send_wait_full.
    + unfold coordinator_port_send. by rewrite send_wait_full.
    + destruct (out_sz v) as [|o' l]; [done|]. destruct (sz_send _ _ _) as [s|] eqn:Hs; [|done].
      intros [= <- <-]. by apply sz_send_frozen.
    + destruct (out_pe v) as [|o' l]; [done|]. destruct (pe_send _ _ _) as [s|] eqn:Hs; [|done].
      intros [= <- <-]. by apply pe_send_frozen.
Qed.

Lemma frozen_trans v1 v2 v3 o1 o2 :
  frozen v1 v2 o1 → frozen v2 v3 o2 → frozen v1 v3 (o1 ++ o2).
Proof.
  intros (A1 & A2 & A3 & A4 & A5 & A6 & A7 & A8 & A9) (B1 & B2 & B3 & B4 & B5 & B6 & B7 & B8 & B9).
  unfold frozen. rewrite task_outs_app, !outs_of_app, A8, A9, B8, B9. split_and!; first [done|congruence].
Qed.

Lemma deadlocked_run es v v' outs :
  deadlocked v → service_run es v = Ret (tt, v', outs) → frozen v v' outs.
Proof.
  revert v outs. induction es as [|e es IH]; intros v outs Hdead; cbn.
  { intros [= <- <-]. apply frozen_idle. }
  destruct (service_step e v) as [[[[] v1] o1]|] eqn:Hstep; [|done].
  destruct (service_run es v1) as [[[[] v2] o2]|] eqn:Hrun; [|done]. intros [= <- <-].
  pose proof (deadlocked_step _ _ _ _ Hdead Hstep) as Hfrozen.
  eapply frozen_trans; [done|]. eapply IH; [|done]. by eapply frozen_deadlocked.
Qed.
End deadlock.

#[local] Existing Instance ascii_only_tables.
#[local] Existing Instance sample_enums.
#[local] Existing Instance sample_json.
#[local] Existing Instance sample_json_laws.

(** An alarm reaches the coordinator, and its job the channel. *)
Definition report_alarm (src : Source.t) (sends : nat) : list SvEvent :=
  [EvIngress (InCheck 0 (sy_status State.Alarmed src Severity.Low)); EvIngress (InTry 0)] ++
  turn TCoordinator (EvCoordinator 1) sends.

(** The job of an alarm up to its attempt, which the broker takes. *)
Definition publish_alarm (n : nat) : list SvEvent :=
  turn TWorkflow EvWorkflow 2 ++ turn TSnooze (EvSnooze 0 0) 1 ++ turn TWorkflow EvWorkflow 1 ++
  [EvPublish] ++ turn TPublish (EvAttempt (PeStart n)) 2.

Definition complete_alarm : list SvEvent := turn TPublish (EvAttempt (PeComplete 0 true 1)) 1.

(** Two alarms are published and come back in one batch while two others are
    reported. *)
Definition deadlock_run : list SvEvent :=
  report_alarm Source.Unknown 1 ++ publish_alarm 0 ++
  report_alarm Source.Analog 1 ++ publish_alarm 1 ++ complete_alarm ++ complete_alarm ++
  turn TPublish (EvAttempt PeTick) 1 ++
  report_alarm Source.Digital 1 ++ report_alarm Source.Epics 0 ++
  turn TWorkflow EvWorkflow 3.

Lemma deadlock_reached :
  match service_run deadlock_run one_each_service with
  | Ret (_, v, _) => deadlocked_b v
  | Panic _ => false
  end = true.
Proof. vm_compute. reflexivity. Qed.

(** C36 Too little capacity allows a deadlock: with a capacity of one, two alarms that are
    reported while two others come back in one batch bring the coordinator and the
    workflow handler to wait for room in each other's channel; whatever happens
    afterwards, neither of them does anything any more, an operator's command in the
    queue included. *)
Theorem small_capacity_deadlock :
  ∃ v outs,
    service_run deadlock_run one_each_service = Ret (tt, v, outs) ∧
    ∀ es v' outs',
      service_run es v = Ret (tt, v', outs') →
      sys_co (sv_core v') = sys_co (sv_core v) ∧ sys_wf (sv_core v') = sys_wf (sv_core v) ∧
      outbox TCoordinator v' ≠ [] ∧ outbox TWorkflow v' ≠ [] ∧
      outs_of TCoordinator (task_outs outs') = [] ∧ outs_of TWorkflow (task_outs outs') = [].
Proof.
  pose proof deadlock_reached as Hdead.
  destruct (service_run deadlock_run one_each_service) as [[[[] v] outs]|]; [|done].
  apply deadlocked_b_true in Hdead. exists v, outs. split; [done|]. intros es v' outs' Hrun.
  pose proof (deadlocked_run _ _ _ _ Hdead Hrun) as (E1 & E2 & E3 & E4 & _ & _ & _ & E5 & E6).
  destruct Hdead as ((job & rest & Hco) & _ & (o & rest' & Hwf) & _).
  cbn [outbox]. rewrite E2, E4, Hco, Hwf. by split_and!.
Qed.

(** One alarm against channels of one message. *)
Lemma no_deadlock_witness :
  let v := service_after one_reported one_each_service in
  size (speculative_state (sys_co (sv_core v))) = 1 ∧
  (∀ job rest, out_co v = CoJob job :: rest →
     is_Some (job_port_send (sv_caps v) job (sv_core v))) ∧
  (stuck v → drained v).
Proof.
  intros v. split; [vm_compute; reflexivity|].
  assert (Hrun : ∃ outs, service_run one_reported one_each_service = Ret (tt, v, outs)).
  { eexists. vm_compute. reflexivity. }
  destruct Hrun as [outs Hrun].
  apply (no_deadlock one_each ∅ one_each_service one_reported v outs);
    [by repeat split|exact one_each_start|exact Hrun|vm_compute; discriminate..].
Defined.
