(* ===== verification/Convergence.v ===== *)
(** * The service comes to rest

    Left to themselves, the tasks have a bounded amount of work: from any state that
    the service can reach, without new updates or commands, the number of steps that
    change anything is bounded by [settle_work] of the state and the number of jobs
    that fail meanwhile, and when no such step is left nothing is under way.  Timers
    fire and are counted in. *)

From S2P Require Export SystemProps.
From stdpp Require Import list.

(** ** The work that is left *)

(** A job can set a timer, which expires and wakes the alarm, which makes a job that
    sets none. *)
Definition wake_cost (w : option Timestamp) : nat := match w with Some _ => 15 | None => 0 end.
Definition status_cost (st : Status) : nat := 12 + wake_cost (wake st).
Definition job_cost (j : Job) : nat := status_cost (job_status j).
Definition input_cost (i : SnoozeInput) : nat := 11 + wake_cost (si_wake i).
Definition reply_cost (r : SnoozeOutcome) : nat := match r with Expired _ => 14 | _ => 10 end.
Definition delivery_cost (d : Delivery) : nat := 4 + delivery_work d.
Definition report_cost (o : PublishOutcome) : nat := 1 + 2 * length (results o).
Definition outcome_cost (o : JobOutcome) : nat :=
  match o with Committed _ => 1 | Failed _ => 28 | Wake _ => 13 end.

#[local] Arguments status_cost : simpl never.
#[local] Arguments wake_cost : simpl never.

(** A job that is overtaken by newer intent makes one more job. *)
Definition stale_cost (spec : gmap Key (Status * Z)) (j : Job) : nat :=
  match spec !! job_key j with
  | Some (st, id) => if bool_decide (id = job_id j) then 0 else status_cost st
  | None => 0
  end.

Definition outcome_job (o : JobOutcome) : option Job :=
  match o with Committed j | Failed j => Some j | Wake _ => None end.

Definition is_failed (o : SysOut) : bool :=
  match o with SoWf (WfOutcome (Failed _)) => true | _ => false end.

Definition failures (outs : list SysOut) : nat := count_by is_failed outs.

Lemma status_cost_bound st : 12 ≤ status_cost st ≤ 27.
Proof. unfold status_cost, wake_cost. destruct (wake st); lia. Qed.

Section stale.
Context `{UnicodeTables} `{ProtoEnums}.
Implicit Types (spec : gmap Key (Status * Z)) (js : list Job).

Lemma stale_insert_other spec k e j :
  job_key j ≠ k → stale_cost (<[k := e]> spec) j = stale_cost spec j.
Proof. intros Hne. unfold stale_cost. by rewrite lookup_insert_ne. Qed.

Lemma stale_insert spec k st id js :
  sum_by (stale_cost (<[k := (st, id)]> spec)) js ≤
  sum_by (stale_cost spec) js + count_by (job_about k) js * status_cost st.
Proof.
  induction js as [|j js IH]; cbn; [lia|]. unfold job_about at 1, is_key, bool_decide.
  case_decide as E.
  - unfold stale_cost at 1. rewrite E, lookup_insert_eq. case_bool_decide; cbn; lia.
  - rewrite stale_insert_other by done. cbn. lia.
Qed.

Lemma stale_delete spec k js :
  sum_by (stale_cost (delete k spec)) js ≤ sum_by (stale_cost spec) js.
Proof.
  induction js as [|j js IH]; cbn; [lia|]. unfold stale_cost at 1 3. rewrite lookup_delete.
  case_decide; [|lia]. destruct (spec !! job_key j) as [[st id]|]; [case_bool_decide|]; lia.
Qed.

Lemma stale_job_of spec pending k st id :
  spec !! k = Some (st, id) → stale_cost spec (job_of pending k (st, id)) = 0.
Proof. intros Hk. unfold stale_cost. cbn. by rewrite Hk, bool_decide_eq_true_2. Qed.

(** The coordinator works off an outcome. *)
Lemma coordinator_work now o c c' outs js :
  (∀ k, count_by (job_about k) js + settled (CeOutcome o) k ≤ present (speculative_state c !! k)) →
  coordinator_handle true now (CeOutcome o) c = Ret (Ok tt, c', outs) →
  sum_by job_cost (jobs_in outs) + sum_by (stale_cost (speculative_state c')) (jobs_in outs ++ js) + 1 ≤
  outcome_cost o + sum_by (stale_cost (speculative_state c)) (option_list (outcome_job o) ++ js).
Proof.
  intros Hjs Hrun. rewrite !sum_by_app.
  destruct o as [j|j|k]; cbn [coordinator_handle reconcile_job_outcome] in Hrun.
  - rewrite reconcile_success_run in Hrun. cbn zeta in Hrun.
    destruct (speculative_state c !! job_key j) as [[st id]|] eqn:Hk; [case_bool_decide|];
      simplify_eq; autorewrite with outs; cbn [jobs_in omap list_omap sum_by out_job app].
    + pose proof (stale_delete (speculative_state c) (job_key j) js). cbn. lia.
    + cbn [set_confirmed set_pending speculative_state]. rewrite stale_job_of by done.
      cbn. unfold stale_cost at 2. rewrite Hk, bool_decide_eq_false_2 by done.
      unfold job_cost. cbn. lia.
    + cbn. lia.
  - rewrite reconcile_failure_run in Hrun. cbn zeta in Hrun.
    destruct (speculative_state c !! job_key j) as [[st id]|] eqn:Hk; [|done].
    specialize (Hjs (job_key j)). rewrite Hk in Hjs. cbn in Hjs. rewrite is_key_eq in Hjs. cbn in Hjs.
    destruct (_ && _); unfold job_sent in Hrun; simplify_eq; autorewrite with outs;
      cbn [jobs_in omap list_omap sum_by out_job app].
    + destruct (rollback_entry c (job_key j)) as [st' id'] eqn:E.
      cbn [set_speculative set_pending speculative_state].
      rewrite stale_job_of by apply lookup_insert_eq.
      pose proof (stale_insert (speculative_state c) (job_key j) st' id' js) as Hins.
      assert (Hz : count_by (job_about (job_key j)) js = 0) by lia. rewrite Hz in Hins.
      pose proof (status_cost_bound st'). unfold job_cost. cbn. lia.
    + cbn [set_pending speculative_state]. rewrite stale_job_of by done.
      pose proof (status_cost_bound st). unfold job_cost. cbn. lia.
  - unfold dispatch_automated_wake in Hrun. rewrite handle_automated_update_run in Hrun.
    cbn zeta in Hrun. set (k' := key_from_status (wake_status now k)) in *.
    specialize (Hjs k'). cbn in Hjs.
    pose proof (stale_insert (speculative_state c) k' (wake_status now k) (id_counter c) js) as Hins.
    assert (Hc : status_cost (wake_status now k) = 12) by done. rewrite Hc in Hins.
    destruct (should_publish _ _ _); [|simplify_eq; cbn; lia].
    destruct (speculative_state c !! k') as [e|] eqn:Hk; unfold job_sent in Hrun; simplify_eq;
      cbn [jobs_in omap list_omap sum_by out_job recorded speculative_state app present] in *.
    + cbn. lia.
    + rewrite stale_job_of by apply lookup_insert_eq. unfold job_cost. cbn. rewrite Hc. lia.
Qed.
End stale.

(** ** The workflow handler *)

Definition tracked_jobs (w : WorkflowHandler) : list Job := tracked <$> (map_to_list (jobs w)).*2.

Section tracked.
Implicit Types w : WorkflowHandler.

Lemma tracked_jobs_delete w k t :
  jobs w !! k = Some t → tracked_jobs w ≡ₚ tracked t :: tracked_jobs {| jobs := delete k (jobs w) |}.
Proof.
  intros Hk. unfold tracked_jobs. cbn [jobs]. by rewrite <- (map_to_list_delete (jobs w) k t Hk).
Qed.

Lemma tracked_jobs_insert w k t (f : Job → nat) :
  sum_by f (tracked_jobs {| jobs := <[k := t]> (jobs w) |}) ≤ f (tracked t) + sum_by f (tracked_jobs w).
Proof.
  rewrite (tracked_jobs_delete {| jobs := <[k := t]> (jobs w) |} k t) by apply lookup_insert_eq.
  cbn. rewrite delete_insert_eq.
  destruct (jobs w !! k) as [t'|] eqn:Hk.
  - rewrite (tracked_jobs_delete w k t') by done. cbn. lia.
  - rewrite delete_id by done. by destruct w.
Qed.

Lemma tracked_jobs_advance w k t n :
  jobs w !! k = Some t →
  tracked_jobs {| jobs := <[k := {| tracked := tracked t; step := n |}]> (jobs w) |} ≡ₚ tracked_jobs w.
Proof.
  intros Hk. rewrite (tracked_jobs_delete w k t) by done.
  rewrite (tracked_jobs_delete _ k {| tracked := tracked t; step := n |}) by apply lookup_insert_eq.
  cbn. by rewrite delete_insert_eq.
Qed.

Definition wf_failures (outs : list WfOut) : nat := count_by (λ o, is_failed (SoWf o)) outs.

(** What is left of the outputs of the handler, for any intents. *)
Definition wf_outs_cost (spec : gmap Key (Status * Z)) (outs : list WfOut) : nat :=
  sum_by input_cost (omap wf_snooze outs) + 9 * length (omap wf_publish outs) +
  sum_by outcome_cost (omap wf_outcome outs) +
  sum_by (stale_cost spec) (omap outcome_job (omap wf_outcome outs)).

Definition wf_cost (spec : gmap Key (Status * Z)) w : nat := sum_by (stale_cost spec) (tracked_jobs w).

Lemma wf_outs_cost_app spec o1 o2 :
  wf_outs_cost spec (o1 ++ o2) = wf_outs_cost spec o1 + wf_outs_cost spec o2.
Proof. unfold wf_outs_cost. rewrite !omap_app, !sum_by_app, length_app. lia. Qed.

Lemma wf_failures_app o1 o2 : wf_failures (o1 ++ o2) = wf_failures o1 + wf_failures o2.
Proof. apply count_by_app. Qed.

(** A job leaves as failed. *)
Lemma failed_cost spec w k t :
  jobs w !! k = Some t →
  let outs := WfMetric RecJobFailed :: outcome_out all_alive (Failed (tracked t)) in
  wf_outs_cost spec outs + wf_cost spec {| jobs := delete k (jobs w) |} =
  1 + 27 * wf_failures outs + wf_cost spec w.
Proof.
  intros Hk. unfold wf_cost. rewrite (tracked_jobs_delete w k t) by done. unfold wf_outs_cost. cbn. lia.
Qed.

Lemma result_cost spec w r w' outs :
  dispatch_publish_result all_alive r w = Ret (tt, w', outs) →
  wf_outs_cost spec outs + wf_cost spec w' ≤ 1 + 27 * wf_failures outs + wf_cost spec w.
Proof.
  destruct (jobs w !! into_inner r) as [t|] eqn:Hk;
    [erewrite dispatch_publish_result_run by done|by rewrite dispatch_publish_result_panic].
  intros [= <- <-]. unfold wf_cost. rewrite (tracked_jobs_delete w _ t) by done.
  unfold wf_outs_cost, result_outs. destruct (is_ok r); cbn; lia.
Qed.

Lemma batch_cost spec b w w' outs :
  for_each (dispatch_publish_result all_alive) b w = Ret (tt, w', outs) →
  wf_outs_cost spec outs + wf_cost spec w' ≤ length b + 27 * wf_failures outs + wf_cost spec w.
Proof.
  revert w outs. induction b as [|r b IH]; intros w outs; cbn [for_each].
  { intros [= <- <-]. unfold wf_outs_cost. cbn. lia. }
  eff_unfold. destruct (dispatch_publish_result all_alive r w) as [[[[] w1] o1]|] eqn:Hr; [|done].
  destruct (for_each _ b w1) as [[[[] w2] o2]|] eqn:Hb; [|done]. intros [= <- <-].
  rewrite wf_outs_cost_app, wf_failures_app.
  apply (result_cost spec) in Hr. apply IH in Hb. cbn [length]. lia.
Qed.

Definition wf_event_cost (e : WfEvent) : nat :=
  match e with
  | WeNewJob j => job_cost j
  | WeSnoozeOutcome r => reply_cost r
  | WePublishOutcome o => report_cost o
  end.

(** The handler works off a message. *)
Lemma workflow_work spec e w w' outs :
  workflow_ok w → workflow_dispatch all_alive e w = Ret (tt, w', outs) →
  wf_outs_cost spec outs + wf_cost spec w' + 1 ≤
  wf_event_cost e + 27 * wf_failures outs + wf_cost spec w +
  match e with WeNewJob j => stale_cost spec j | _ => 0 end.
Proof.
  intros Hw. destruct e as [o|r|j].
  - intros Hrun. assert (Hb : for_each (dispatch_publish_result all_alive) (results o) w = Ret (tt, w', outs)).
    { destruct o as [b|r]; [done|]. cbn in Hrun |- *. eff_unfold. rewrite Hrun. by rewrite app_nil_r. }
    apply (batch_cost spec) in Hb. cbn. unfold report_cost. lia.
  - destruct r as [k|k|k]; cbn [workflow_dispatch handle_snooze_result].
    + intros Hrun. cbn in Hrun. injection Hrun as <- <-. unfold wf_outs_cost. cbn. lia.
    + destruct (jobs w !! k) as [t|] eqn:Hk; [|by rewrite send_failed_panic].
      erewrite send_failed_run by done. intros [= <- <-].
      pose proof (failed_cost spec w k t Hk). cbn [wf_event_cost reply_cost] in *. lia.
    + destruct (jobs w !! k) as [[j n]|] eqn:Hk; [|by rewrite advance_panic].
      destruct (Hw k _ Hk) as [_ [Hn|Hn]]; cbn in Hn; subst n.
      * erewrite advance_second_run by done. cbn [all_alive publish_alive]. intros [= <- <-].
        unfold wf_cost. rewrite (tracked_jobs_advance w k {| tracked := j; step := 1 |} 2) by done.
        unfold wf_outs_cost. cbn. lia.
      * erewrite advance_overrun_run by done. intros [= <- <-].
        pose proof (failed_cost spec w k _ Hk). cbn [wf_event_cost reply_cost tracked] in *. lia.
  - cbn [workflow_dispatch]. rewrite handle_new_job_run. cbn zeta. cbn [all_alive snooze_alive].
    intros [= <- <-]. pose proof (tracked_jobs_insert w (job_key j) {| tracked := j; step := 1 |} (stale_cost spec)).
    unfold wf_outs_cost, wf_cost in *. cbn -[tracked_jobs] in *. unfold job_cost, status_cost, input_cost. cbn. lia.
Qed.
End tracked.

(** ** The workers *)

Section workers.
Context `{StatusJsonLaws} {DQ DK : Type} `{Countable DK} `{!DelayQueue DQ DK}.
Context `{!DelayQueueLaws DQ DK} `{ChronoLaws}.

Definition timers (z : Scheduler DQ DK) : nat := 15 * size (registry z).

Lemma snooze_work u i inp (z z' : Scheduler DQ DK) go outs :
  scheduler_ok z → scheduler_iteration true u i (SzInput inp) z = Ret (go, z', outs) →
  sum_by reply_cost (omap sz_outcome outs) + timers z' + 1 ≤ input_cost inp + timers z.
Proof.
  intros Hz. destruct (handle_snooze_input_run true u i inp z Hz) as (z1 & calls & o & Hrun & _ & Hcase).
  cbn -[handle_snooze_input]. eff_unfold. rewrite Hrun. intros [= <- <- <-].
  rewrite app_nil_r, omap_app, sum_by_app. unfold timers, input_cost.
  destruct (si_wake inp) as [w|]; [destruct (timestamp_secs_to_instant u i w) as [t|]|];
    repeat case_match; destruct_and?; subst; cbn; unfold wake_cost; lia.
Qed.

Lemma timer_work u i (z z' : Scheduler DQ DK) go outs :
  scheduler_ok z → scheduler_iteration true u i SzTimer z = Ret (go, z', outs) →
  (z' = z ∧ outs = []) ∨
  sum_by reply_cost (omap sz_outcome outs) + timers z' + 1 ≤ timers z.
Proof.
  intros Hz. destruct (timer_iteration_run true u i z Hz)
    as [(k & t & z1 & _ & _ & Hrun & _ & _ & Hsize)|[_ Hrun]]; rewrite Hrun; intros [= <- <- <-].
  - right. unfold timers. cbn. lia.
  - by left.
Qed.

Definition engine_cost (s : PublishEngine) : nat :=
  sum_by delivery_cost (in_flight s) + 4 * length (completed_batch s).

Lemma engine_work e s s' outs :
  engine_bounded s → engine_step true s e s' outs →
  (e = PeTick ∧ s' = s ∧ outs = []) ∨
  engine_cost s' + sum_by report_cost (omap pe_outcome outs) + 1 ≤
  engine_cost s + 9 * length (received_by e).
Proof.
  intros [Hcount _] Hstep. unfold engine_cost.
  destruct Hstep as [i a body Hi _|i a latency Hi Hlt|i a d latency Hi _ Hu
    |i a d latency Hi _ Hu Hlen|i a d latency Hi _ Hu Hlen|Hb|Hb|p]; [..|by left|right|right];
    try right;
    try (pose proof (Forall_lookup_1 _ _ _ _ Hcount Hi) as [Ha _];
         pose proof (sum_by_delete delivery_cost _ _ _ Hi) as Hsum;
         pose proof (delivery_work_pos (mkDelivery a true)) as Hpos;
         unfold delivery_cost at 2 in Hsum);
    cbn -[insert delivery_work]; rewrite ?length_app; cbn -[insert delivery_work]; try lia.
  - pose proof (sum_by_insert delivery_cost _ _ _ (mkDelivery a true) Hi) as Hins.
    pose proof (delivery_work_start a). unfold delivery_cost in Hins |- *. lia.
  - rewrite sum_by_app. cbn -[delivery_work]. pose proof (delivery_work_retry a Ha Hlt).
    unfold delivery_cost in *. lia.
  - destruct (completed_batch s); [done|]. unfold report_cost. cbn. lia.
  - assert (Hnew : delivery_cost (mkDelivery (publish_attempt_new p) false) = 8) by done.
    rewrite sum_by_app. cbn -[delivery_cost]. rewrite Hnew. lia.
Qed.
End workers.

(** ** The service *)

Section service.
Context `{UnicodeTables} `{ProtoEnums} `{StatusJsonLaws} {DQ DK : Type} `{Countable DK}.
Context `{!DelayQueue DQ DK} `{!DelayQueueLaws DQ DK} `{ChronoLaws}.
Implicit Types s : System DQ DK.

(** The jobs between the coordinator's decision and its reconciliation. *)
Definition tokens s : list Job :=
  q_job s ++ tracked_jobs (sys_wf s) ++ omap outcome_job (q_job_outcome s).

Definition settle_work s : nat :=
  sum_by job_cost (q_job s) + sum_by input_cost (q_snooze s) +
  sum_by reply_cost (q_snooze_outcome s) + timers (sys_sz s) + 9 * length (q_publish s) +
  engine_cost (sys_pe s) + sum_by report_cost (q_publish_outcome s) +
  sum_by outcome_cost (q_job_outcome s) +
  sum_by (stale_cost (speculative_state (sys_co s))) (tokens s).

(** What happens without new updates and commands. *)
Definition own_event (e : SysEvent) : bool :=
  match e with SyUser _ _ | SyAutomated _ _ => false | _ => true end.

Lemma failures_wf outs : failures (SoWf <$> outs) = wf_failures outs.
Proof. unfold failures, fmap. by rewrite count_by_map. Qed.

Lemma tracked_about w k :
  workflow_ok w → count_by (job_about k) (tracked_jobs w) = present (jobs w !! k).
Proof.
  intros Hw. rewrite <- count_map_keys. unfold tracked_jobs, fmap. rewrite !count_by_map.
  apply count_by_ext. intros [k' t] Hin%elem_of_map_to_list. cbn. unfold job_about.
  by destruct (Hw _ _ Hin) as [-> _].
Qed.

Lemma outcomes_about k os :
  count_by (job_about k) (omap outcome_job os) = count_by (outcome_about k) os.
Proof. rewrite count_by_omap. apply count_by_ext. by intros [] _. Qed.

Ltac settle_simpl :=
  unfold settle_work, tokens in *; cbn -[jobs_in tracked_jobs failures Nat.mul] in *;
  rewrite ?omap_app, ?sum_by_app, ?length_app in *; cbn -[jobs_in tracked_jobs failures Nat.mul] in *.

Lemma sum_by_option (f : Job → nat) (o : option Job) (l : list Job) :
  sum_by f (option_list o ++ l) = match o with Some j => f j | None => 0 end + sum_by f l.
Proof. rewrite sum_by_app. destruct o; cbn; lia. Qed.

(** Every step of a task works something off, or does nothing. *)
Lemma settle_step e s s' outs :
  system_ok s → engine_bounded (sys_pe s) → own_event e = true →
  sys_step e s = Ret (tt, s', outs) →
  (s' = s ∧ outs = []) ∨ settle_work s' + 1 ≤ settle_work s + 27 * failures outs.
Proof.
  intros Hok Hpe He Hrun. pose proof Hok as (Hw & Hz & Htok).
  destruct e as [now m|now m|now| | | |u i|u i| |e]; try done; cbn [sys_step] in Hrun.
  - destruct (q_job_outcome s) as [|o rest] eqn:Hq; [by left; simplify_eq|]. right.
    unfold run_co in Hrun. cbn [sys_co set_q_job_outcome] in Hrun.
    destruct (coordinator_handle _ _ _ _) as [[[[[]|] c] os]|] eqn:Hco; simplify_eq.
    eapply (coordinator_work now o _ _ _ (q_job s ++ tracked_jobs (sys_wf s) ++ omap outcome_job rest)) in Hco.
    + rewrite sum_by_option in Hco. settle_simpl. rewrite Hq. cbn -[Nat.mul].
      destruct (outcome_job o); cbn -[Nat.mul]; lia.
    + intros k. destruct (Htok k) as [-> _]. unfold jobs_queued, jobs_tracked, jobs_returning.
      rewrite !count_by_app, tracked_about, outcomes_about, Hq by done. cbn. lia.
  - destruct (q_job s) as [|j rest] eqn:Hq; [by left; simplify_eq|]. right.
    unfold run_wf in Hrun. cbn [sys_wf set_q_job] in Hrun.
    destruct (workflow_dispatch _ _ _) as [[[[] w] os]|] eqn:Hwf; simplify_eq.
    apply (workflow_work (speculative_state (sys_co s))) in Hwf; [|done].
    rewrite failures_wf. unfold wf_outs_cost, wf_cost in Hwf. settle_simpl. rewrite Hq.
    cbn -[Nat.mul]. lia.
  - destruct (q_snooze_outcome s) as [|r rest] eqn:Hq; [by left; simplify_eq|]. right.
    unfold run_wf in Hrun. cbn [sys_wf set_q_snooze_outcome] in Hrun.
    destruct (workflow_dispatch _ _ _) as [[[[] w] os]|] eqn:Hwf; simplify_eq.
    apply (workflow_work (speculative_state (sys_co s))) in Hwf; [|done].
    rewrite failures_wf. unfold wf_outs_cost, wf_cost in Hwf. settle_simpl. rewrite Hq.
    cbn -[Nat.mul]. lia.
  - destruct (q_publish_outcome s) as [|r rest] eqn:Hq; [by left; simplify_eq|]. right.
    unfold run_wf in Hrun. cbn [sys_wf set_q_publish_outcome] in Hrun.
    destruct (workflow_dispatch _ _ _) as [[[[] w] os]|] eqn:Hwf; simplify_eq.
    apply (workflow_work (speculative_state (sys_co s))) in Hwf; [|done].
    rewrite failures_wf. unfold wf_outs_cost, wf_cost in Hwf. settle_simpl. rewrite Hq.
    cbn -[Nat.mul]. lia.
  - destruct (q_snooze s) as [|inp rest] eqn:Hq; [by left; simplify_eq|]. right.
    unfold run_sz in Hrun. cbn [sys_sz set_q_snooze] in Hrun.
    destruct (scheduler_iteration _ _ _ _ _) as [[[b z] os]|] eqn:Hsz; simplify_eq.
    apply snooze_work in Hsz; [|done]. settle_simpl. rewrite Hq. cbn -[Nat.mul]. lia.
  - unfold run_sz in Hrun.
    destruct (scheduler_iteration _ _ _ _ _) as [[[b z] os]|] eqn:Hsz; simplify_eq.
    apply timer_work in Hsz as [[-> ->]|Hsz]; [left|right|done].
    + split; [|done]. cbn. rewrite app_nil_r. by destruct s.
    + settle_simpl. lia.
  - destruct (q_publish s) as [|req rest] eqn:Hq; [by left; simplify_eq|]. right.
    unfold run_pe in Hrun. cbn [sys_pe set_q_publish] in Hrun.
    destruct (engine_iteration _ _ _) as [[[b z] os]|] eqn:Hit; simplify_eq.
    apply engine_history_step_inv, engine_work in Hit as [(? & _)|Hit]; [done| |done|done].
    settle_simpl. rewrite Hq. cbn -[Nat.mul]. lia.
  - assert (Hpe' : engine_ready (sys_pe s) e = true → received_by e = [] →
              run_pe (engine_iteration true e) s = Ret (tt, s', outs) →
              (s' = s ∧ outs = []) ∨ settle_work s' + 1 ≤ settle_work s + 27 * failures outs).
    { intros Hready Hrecv Hpe'. unfold run_pe in Hpe'.
      destruct (engine_iteration _ _ _) as [[[b z] os]|] eqn:Hit; simplify_eq.
      apply engine_history_step_inv, engine_work in Hit as [(-> & -> & ->)|Hit];
        [left|right|done|done].
      - split; [|done]. cbn. rewrite app_nil_r. by destruct s.
      - rewrite Hrecv in Hit. settle_simpl. lia. }
    destruct e; try (left; by simplify_eq);
      (destruct (engine_ready (sys_pe s) _) eqn:Hready; [by apply Hpe'|left; by simplify_eq]).
Qed.

(** *** Runs *)

Lemma sys_step_bounded e s s' outs :
  engine_bounded (sys_pe s) → sys_step e s = Ret (tt, s', outs) → engine_bounded (sys_pe s').
Proof.
  intros Hpe Hrun.
  assert (Hco : ∀ m s1, run_co m s1 = Ret (tt, s', outs) → sys_pe s' = sys_pe s1).
  { intros m s1. unfold run_co. destruct (m _) as [[[[[]|] c] os]|]; intros; by simplify_eq. }
  assert (Hwf : ∀ m s1, run_wf m s1 = Ret (tt, s', outs) → sys_pe s' = sys_pe s1).
  { intros m s1. unfold run_wf. destruct (m _) as [[[[] c] os]|]; intros; by simplify_eq. }
  assert (Hsz : ∀ m s1, run_sz m s1 = Ret (tt, s', outs) → sys_pe s' = sys_pe s1).
  { intros m s1. unfold run_sz. destruct (m _) as [[[b c] os]|]; intros; by simplify_eq. }
  assert (He : ∀ e s1, engine_bounded (sys_pe s1) → engine_ready (sys_pe s1) e = true →
            run_pe (engine_iteration true e) s1 = Ret (tt, s', outs) → engine_bounded (sys_pe s')).
  { intros e' s1 Hb Hready. unfold run_pe.
    destruct (engine_iteration _ _ _) as [[[b c] os]|] eqn:Hit; intros; simplify_eq.
    apply engine_history_step_inv in Hit; [|done].
    by apply (engine_step_bounded _ _ _ _ Hb) in Hit as [? _]. }
  destruct e as [now m|now m|now| | | |u i|u i| |e]; cbn [sys_step] in Hrun;
    try (by rewrite (Hco _ _ Hrun));
    try (by rewrite (Hsz _ _ Hrun)).
  - destruct (q_job_outcome s); [by simplify_eq|by rewrite (Hco _ _ Hrun)].
  - destruct (q_job s); [by simplify_eq|by rewrite (Hwf _ _ Hrun)].
  - destruct (q_snooze_outcome s); [by simplify_eq|by rewrite (Hwf _ _ Hrun)].
  - destruct (q_publish_outcome s); [by simplify_eq|by rewrite (Hwf _ _ Hrun)].
  - destruct (q_snooze s); [by simplify_eq|by rewrite (Hsz _ _ Hrun)].
  - destruct (q_publish s); [by simplify_eq|by eapply He; [..|exact Hrun]].
  - destruct e; try (by simplify_eq);
      (destruct (engine_ready (sys_pe s) _) eqn:Hready; [by eapply He; [..|exact Hrun]|by simplify_eq]).
Qed.

Lemma sys_reachable_bounded s : sys_reachable s → engine_bounded (sys_pe s).
Proof.
  induction 1 as [hydrated|s e s' outs Hr IH Hstep]; [|by eapply sys_step_bounded].
  split; [constructor|cbn; unfold BATCH_SIZE; lia].
Qed.

(** [n] steps that change something, without updates and commands. *)
Inductive own_run : nat → System DQ DK → System DQ DK → list SysOut → Prop :=
| own_done s : own_run 0 s s []
| own_more n s s1 s2 e o1 o2 :
    own_event e = true → sys_step e s = Ret (tt, s1, o1) → s1 ≠ s →
    own_run n s1 s2 o2 → own_run (S n) s s2 (o1 ++ o2).

(** No step changes anything. *)
Definition resting s : Prop :=
  ∀ e s' outs, own_event e = true → sys_step e s = Ret (tt, s', outs) → s' = s.

Lemma resting_step s e :
  system_ok s → resting s → own_event e = true → ∃ outs, sys_step e s = Ret (tt, s, outs).
Proof.
  intros Hok Hrest He. destruct (sys_step_ok e s Hok) as (s' & outs & Hrun & _).
  exists outs. by rewrite (Hrest e s' outs He Hrun) in Hrun.
Qed.

(** A queue whose next message can be taken is empty. *)
Ltac emptied field ev Hstep :=
  match goal with
  | |- field ?s = [] =>
      let Hq := fresh "Hq" in let outs := fresh "outs" in let Hrun := fresh "Hrun" in
      let E := fresh "E" in let x := fresh "x" in let rest := fresh "rest" in
      destruct (field s) as [|x rest] eqn:Hq; [done|];
      destruct (Hstep ev eq_refl) as [outs Hrun]; cbn [sys_step] in Hrun; rewrite Hq in Hrun;
      unfold run_co, run_wf, run_sz, run_pe in Hrun; repeat case_match; try done;
      injection Hrun as E _; apply (f_equal field), (f_equal length) in E;
      rewrite Hq in E; cbn in E; lia
  end.

Lemma resting_engine s :
  system_ok s → engine_bounded (sys_pe s) → resting s →
  in_flight (sys_pe s) = [] ∧ completed_batch (sys_pe s) = [].
Proof.
  intros Hok Hb Hrest.
  assert (Hpe : ∀ e, engine_ready (sys_pe s) e = true → received_by e = [] →
            ∃ go os, engine_iteration true e (sys_pe s) = Ret (go, sys_pe s, os)).
  { intros e Hready Hrecv. destruct (resting_step s (SyAttempt e)) as [outs Hrun]; [done..|].
    assert (Hrun' : run_pe (engine_iteration true e) s = Ret (tt, s, outs)).
    { cbn [sys_step] in Hrun. rewrite Hready in Hrun. by destruct e. }
    unfold run_pe in Hrun'. destruct (engine_iteration _ _ _) as [[[b z] os]|]; [|done].
    injection Hrun' as E _. apply (f_equal sys_pe) in E. cbn in E. subst. by eexists _, _. }
  split.
  - destruct (decide (in_flight (sys_pe s) = [])) as [|Hne]; [done|].
    destruct (attempt_step_enabled _ Hne) as (s1 & Hstep).
    pose proof (attempt_step_bounded _ _ Hb Hstep) as [_ Hlt].
    destruct Hstep as (e & outs & He & Hready & Hrun).
    destruct (Hpe e Hready) as (go & os & Hrun'); [by destruct e|].
    rewrite Hrun in Hrun'. simplify_eq. lia.
  - destruct (Hpe PeTick) as (go & os & Hrun); [done..|].
    destruct (completed_batch (sys_pe s)) as [|r b] eqn:E; [done|].
    rewrite tick_run, E in Hrun. cbn in Hrun. injection Hrun as _ E' _.
    apply (f_equal completed_batch) in E'. by rewrite E in E'.
Qed.

Lemma resting_quiescent s : system_ok s → engine_bounded (sys_pe s) → resting s → quiescent s.
Proof.
  intros Hok Hb Hrest. pose proof (λ e, resting_step s e Hok Hrest) as Hstep.
  destruct (resting_engine s Hok Hb Hrest) as [Hf Hc]. unfold quiescent. split_and!; try done.
  - emptied (q_job (DQ:=DQ) (DK:=DK)) SyJob Hstep.
  - emptied (q_job_outcome (DQ:=DQ) (DK:=DK)) (SyJobOutcome 0) Hstep.
  - emptied (q_snooze (DQ:=DQ) (DK:=DK)) (SySnooze 0 0) Hstep.
  - emptied (q_snooze_outcome (DQ:=DQ) (DK:=DK)) SySnoozeOutcome Hstep.
  - emptied (q_publish (DQ:=DQ) (DK:=DK)) SyPublish Hstep.
  - emptied (q_publish_outcome (DQ:=DQ) (DK:=DK)) SyPublishOutcome Hstep.
Qed.

Lemma own_run_work n s s' outs :
  system_ok s → engine_bounded (sys_pe s) → own_run n s s' outs →
  n + settle_work s' ≤ settle_work s + 27 * failures outs ∧
  system_ok s' ∧ engine_bounded (sys_pe s').
Proof.
  intros Hok Hb Hrun. induction Hrun as [s|n s s1 s2 e o1 o2 He Hstep Hne Hrun IH]; [by split; [cbn; lia|]|].
  destruct (settle_step e s s1 o1 Hok Hb He Hstep) as [[-> _]|Hwork]; [done|].
  destruct (sys_step_ok e s Hok) as (s1' & o1' & Hstep' & Hok').
  rewrite Hstep in Hstep'. simplify_eq.
  destruct IH as (Hn & Hok2 & Hb2); [done|by eapply sys_step_bounded|]. split; [|done].
  unfold failures in *. rewrite count_by_app. lia.
Qed.

(** C9 The service comes to rest: without new updates and commands, whatever the order
    of the tasks, the answers of the broker, the clocks and the timers that fire, only
    [settle_work] steps can change anything, and 27 more for each job that fails
    meanwhile; and when no step changes anything any more, nothing is queued, in flight
    or batched and every intent is settled.  Only failures that never end can keep the
    service busy. *)
Theorem service_settles s n s' outs :
  sys_reachable s → own_run n s s' outs →
  n + settle_work s' ≤ settle_work s + 27 * failures outs ∧
  (resting s' → quiescent s' ∧ speculative_state (sys_co s') = ∅).
Proof.
  intros Hr Hrun. pose proof (sys_reachable_bounded s Hr) as Hb.
  destruct (own_run_work n s s' outs (sys_reachable_ok s Hr) Hb Hrun) as (Hn & Hok & Hb').
  split; [done|]. intros Hrest. pose proof (resting_quiescent s' Hok Hb' Hrest) as Hq.
  split; [done|]. by destruct (quiescent_empty s' Hok Hq).
Qed.

(** *** Concrete runs *)

(** Every step of a list changes something. *)
Fixpoint works (es : list SysEvent) s : bool :=
  match es with
  | [] => true
  | e :: es' =>
      own_event e &&
      match sys_step e s with
      | Ret (_, s1, _) => negb (settle_work s1 =? settle_work s)%nat && works es' s1
      | Panic _ => false
      end
  end.

Lemma own_run_works es s s' outs :
  works es s = true → sys_run es s = Ret (tt, s', outs) → own_run (length es) s s' outs.
Proof.
  revert s outs. induction es as [|e es IH]; intros s outs; cbn.
  { intros _ [= <- <-]. constructor. }
  intros [He Hw]%andb_true_iff. destruct (sys_step e s) as [[[[] s1] o1]|] eqn:Hstep; [|done].
  apply andb_true_iff in Hw as [Hne%negb_true_iff%Nat.eqb_neq Hw].
  destruct (sys_run es s1) as [[[[] s2] o2]|] eqn:Hrun; [|done]. intros [= <- <-].
  eapply own_more; [done|done| |by apply IH]. by intros ->.
Qed.

Lemma quiescent_resting s :
  system_ok s → quiescent s → registry (sys_sz s) = ∅ → resting s.
Proof.
  intros (_ & Hz & _) (E1 & E2 & E3 & E4 & E5 & E6 & E7 & E8) Hreg e s' outs He Hrun.
  destruct e as [now m|now m|now| | | |u i|u i| |e]; try done; cbn [sys_step] in Hrun.
  - rewrite E2 in Hrun. by simplify_eq.
  - rewrite E1 in Hrun. by simplify_eq.
  - rewrite E4 in Hrun. by simplify_eq.
  - rewrite E6 in Hrun. by simplify_eq.
  - rewrite E3 in Hrun. by simplify_eq.
  - unfold run_sz in Hrun. destruct (timer_iteration_run true u i (sys_sz s) Hz)
      as [(k & t & z & Hk & _)|[_ Hr]].
    + unfold timer in Hk. by rewrite Hreg, lookup_empty in Hk.
    + rewrite Hr in Hrun. cbn in Hrun. rewrite app_nil_r in Hrun. simplify_eq. by destruct s.
  - rewrite E5 in Hrun. by simplify_eq.
  - destruct e as [n|n d l| |p|]; cbn [engine_ready] in Hrun;
      rewrite ?E7, ?lookup_nil in Hrun; try by simplify_eq.
    unfold run_pe in Hrun. rewrite tick_run, E8 in Hrun. cbn in Hrun.
    rewrite app_nil_r in Hrun. simplify_eq. by destruct s.
Qed.
End service.


(** ** A sample *)

#[local] Existing Instance ascii_only_tables.
#[local] Existing Instance sample_enums.
#[local] Existing Instance sample_json.
#[local] Existing Instance sample_json_laws.

(** The alarm under way is published and confirmed. *)
Definition rest_of_alarm : list SysEvent :=
  [SyPublish; SyAttempt (PeStart 0); SyAttempt (PeComplete 0 true 1); SyAttempt PeTick;
   SyPublishOutcome; SyJobOutcome 9].

Lemma rest_of_alarm_run :
  let s := state_after one_alarm (system_new ∅) in
  let s' := state_after rest_of_alarm s in
  ∃ outs, own_run 6 s s' outs ∧ failures outs = 0 ∧ resting s'.
Proof.
  intros s s'.
  assert (Hrun : ∃ outs, sys_run rest_of_alarm s = Ret (tt, s', outs) ∧ failures outs = 0).
  { eexists. split; vm_compute; reflexivity. }
  destruct Hrun as (outs & Hrun & Hf). exists outs. split; [|split; [done|]].
  - apply (own_run_works rest_of_alarm); [vm_compute; reflexivity|exact Hrun].
  - apply quiescent_resting; [|by repeat split|vm_compute; reflexivity].
    apply sys_reachable_ok. by apply (sys_run_reachable rest_of_alarm s s' outs one_alarm_reachable).
Qed.

Lemma service_settles_witness :
  let s := state_after one_alarm (system_new ∅) in
  let s' := state_after rest_of_alarm s in
  settle_work s = 9 ∧
  ∃ outs, 6 + settle_work s' ≤ settle_work s + 27 * failures outs ∧
    quiescent s' ∧ speculative_state (sys_co s') = ∅.
Proof.
  intros s s'. split; [vm_compute; reflexivity|].
  destruct rest_of_alarm_run as (outs & Hrun & _ & Hrest). exists outs.
  destruct (service_settles s 6 s' outs one_alarm_reachable Hrun) as [Hn Hq].
  split; [exact Hn|exact (Hq Hrest)].
Defined.
