(* ===== verification/Intents.v ===== *)
(** * What is intended is confirmed

    The latest intent for an alarm survives everything the tasks do with it, retries
    and overtaken jobs included, until it is confirmed: only a new update or command, a
    wake-up, or the rollback of a failed operator request replaces it. *)

From S2P Require Export Convergence.
From stdpp Require Import list.

(** ** Jobs agree with the intents they were made for *)

(** A job that carries the identifier of the intent of its key carries its status. *)
Definition agrees (c : AlarmStateCoordinator) (j : Job) : Prop :=
  ∀ st id, speculative_state c !! job_key j = Some (st, id) → id = job_id j → st = job_status j.

Definition token_ok (c : AlarmStateCoordinator) (j : Job) : Prop :=
  (0 ≤ job_id j < id_counter c)%Z ∧ agrees c j.

Definition event_job (e : CoEvent) : option Job :=
  match e with CeOutcome o => outcome_job o | _ => None end.

Section coordinator.
Context `{UnicodeTables} `{ProtoEnums}.
Implicit Types c : AlarmStateCoordinator.

Lemma token_ok_recorded k st c j :
  coordinator_ok c → (id_counter c < u64_max)%Z → token_ok c j → token_ok (recorded k st c) j.
Proof.
  intros Hok Hlt [Hid Hag]. split; [rewrite recorded_counter by done; lia|].
  intros st' id. cbn. rewrite lookup_insert. case_decide; [|by apply Hag].
  intros [= <- <-] E. lia.
Qed.

Lemma token_ok_new k st c :
  coordinator_ok c → (id_counter c < u64_max)%Z →
  token_ok (recorded k st c)
    {| job_id := id_counter c; job_key := k; job_status := st; user_initiated := true |} ∧
  token_ok (recorded k st c) (job_of (pending_confirmations c) k (st, id_counter c)).
Proof.
  intros Hok Hlt. pose proof (ok_counter c Hok).
  split; (split; [rewrite recorded_counter by done; cbn; lia|]);
    intros st' id; cbn; rewrite lookup_insert_eq; by intros [= -> <-].
Qed.

Lemma token_ok_delete k c j : token_ok c j → token_ok (set_speculative (delete k) c) j.
Proof.
  intros [Hid Hag]. split; [done|]. intros st id. cbn. rewrite lookup_delete.
  case_decide; [done|apply Hag].
Qed.

Lemma token_ok_insert k e c j : job_key j ≠ k → token_ok c j → token_ok (set_speculative (insert k e) c) j.
Proof.
  intros Hne [Hid Hag]. split; [done|]. intros st id. cbn. rewrite lookup_insert_ne by done. apply Hag.
Qed.

Lemma token_ok_job_of pending k st id c :
  coordinator_ok c → speculative_state c !! k = Some (st, id) → token_ok c (job_of pending k (st, id)).
Proof.
  intros Hok Hk. split; [by eapply ok_speculative|]. intros st' id' Hk' _. cbn in Hk'. by simplify_eq.
Qed.

Lemma no_other_token k js : count_by (job_about k) js = 0 → ∀ j, j ∈ js → job_key j ≠ k.
Proof.
  intros Hz j Hj E. pose proof (count_by_zero _ _ _ Hz Hj) as Hf. unfold job_about in Hf.
  by rewrite E, is_key_eq in Hf.
Qed.

(** The coordinator's handlers keep the agreement. *)
Lemma coordinator_tokens_ok now e c c' outs js :
  coordinator_ok c → (id_counter c < u64_max)%Z →
  (∀ k, count_by (job_about k) js + settled e k ≤ present (speculative_state c !! k)) →
  (∀ j, j ∈ option_list (event_job e) ++ js → token_ok c j) →
  coordinator_handle true now e c = Ret (Ok tt, c', outs) →
  coordinator_ok c' ∧ (id_counter c' ≤ id_counter c + 1)%Z ∧ ∀ j, j ∈ jobs_in outs ++ js → token_ok c' j.
Proof.
  intros Hok Hlt Hcount Hjs Hrun.
  assert (Hids : event_ids_ok c e).
  { destruct e as [[j|j|k]|m|m|]; try done; by destruct (Hjs j (list_elem_of_here _ _)). }
  split; [by eapply coordinator_handle_ok|].
  assert (Hother : ∀ j, j ∈ js → token_ok c j) by (intros j Hj; apply Hjs, elem_of_app; by right).
  assert (Hnext : u64_wrapping_add (id_counter c) 1 = (id_counter c + 1)%Z).
  { pose proof (ok_counter c Hok). apply u64_wrapping_add_small. unfold u64_max, u64_modulus in *. lia. }
  assert (Hmid : (id_counter c ≤ id_counter c + 1)%Z) by lia.
  destruct e as [[j|j|k]|[sn|st|k a u cf]|[sn|st|k a u cf]|]; co_cases; autorewrite with outs;
    (split; [cbn; rewrite ?Hnext; lia|]);
    intros j' Hj'; cbn in Hj'; rewrite ?elem_of_cons in Hj';
    try (by apply Hother); try (by apply (token_ok_recorded _ _ c), Hother);
    try (destruct Hj' as [->|Hj'];
         [by apply (token_ok_new _ _ c Hok Hlt)|by apply (token_ok_recorded _ _ c), Hother]).
  - by apply (token_ok_delete _ c), Hother.
  - destruct Hj' as [->|Hj']; [by apply (token_ok_job_of _ _ _ _ c)|by apply Hother].
  - specialize (Hcount (job_key j)). cbn in Hcount. rewrite is_key_eq in Hcount.
    pose proof (present_le (speculative_state c !! job_key j)). cbn in Hcount.
    destruct Hj' as [->|Hj'].
    + pose proof (rollback_entry_id c (job_key j) Hok). split; [done|].
      intros st' id'. cbn. rewrite lookup_insert_eq. by intros [= ->].
    + apply (token_ok_insert _ _ c); [|by apply Hother]. apply (no_other_token _ js); [lia|done].
  - destruct Hj' as [->|Hj']; [by apply (token_ok_job_of _ _ _ _ c)|by apply Hother].
Qed.
End coordinator.

(** ** The latest intent *)

(** The outcomes that replace the intent of a key: its wake-up, and the failure of an
    operator's request for it. *)
Definition replaces `{UnicodeTables} `{ProtoEnums} (k : Key) (o : JobOutcome) : bool :=
  match o with
  | Committed _ => false
  | Failed j => is_key k (job_key j) && user_initiated j
  | Wake k' => is_key k (key_from_status (wake_status 0 k'))
  end.

Section latest.
Context `{UnicodeTables} `{ProtoEnums}.
Implicit Types c : AlarmStateCoordinator.

Lemma wake_status_key now k : key_from_status (wake_status now k) = key_from_status (wake_status 0 k).
Proof. done. Qed.

Lemma coordinator_keeps_latest now o c c' outs k :
  (∀ j, outcome_job o = Some j → is_Some (speculative_state c !! job_key j) ∧ token_ok c j) →
  coordinator_handle true now (CeOutcome o) c = Ret (Ok tt, c', outs) →
  replaces k o = false → get_latest_status c' k = get_latest_status c k.
Proof.
  intros Hj Hrun Hrep. unfold get_latest_status. destruct o as [j|j|k'].
  - destruct (Hj j eq_refl) as [[[st id] Hspec] [_ Hag]].
    cbn [coordinator_handle reconcile_job_outcome] in Hrun. rewrite reconcile_success_run, Hspec in Hrun.
    cbn zeta in Hrun. specialize (Hag st id Hspec).
    case_bool_decide; simplify_eq; cbn.
    + rewrite lookup_delete, lookup_insert. case_decide; [|done]. subst k. rewrite Hspec. by rewrite Hag.
    + rewrite lookup_insert. destruct (decide (job_key j = k)) as [<-|]; [by rewrite Hspec|done].
  - destruct (Hj j eq_refl) as [[[st id] Hspec] _].
    cbn [coordinator_handle reconcile_job_outcome] in Hrun. rewrite reconcile_failure_run, Hspec in Hrun.
    cbn zeta in Hrun. destruct (bool_decide (id = job_id j) && user_initiated j) eqn:E;
      unfold job_sent in Hrun; simplify_eq; [|done].
    apply andb_true_iff in E as [_ E]. cbn in Hrep. rewrite E, andb_true_r in Hrep. cbn.
    rewrite lookup_insert_ne; [done|]. intros <-. by rewrite is_key_eq in Hrep.
  - cbn [coordinator_handle reconcile_job_outcome] in Hrun. unfold dispatch_automated_wake in Hrun.
    rewrite handle_automated_update_run, wake_status_key in Hrun. cbn zeta in Hrun. cbn [replaces] in Hrep.
    set (k0 := key_from_status (wake_status 0 k')) in *.
    assert (Hne : k0 ≠ k) by (intros <-; by rewrite is_key_eq in Hrep).
    destruct (should_publish _ _ _); [|by simplify_eq].
    destruct (speculative_state c !! k0); unfold job_sent in Hrun; simplify_eq; cbn;
      by rewrite lookup_insert_ne.
Qed.
End latest.

(** ** Jobs keep their identity in the workflow handler *)

Section workflow.
Implicit Types w : WorkflowHandler.

Lemma elem_of_tracked_jobs j w : j ∈ tracked_jobs w ↔ ∃ k t, jobs w !! k = Some t ∧ tracked t = j.
Proof.
  unfold tracked_jobs. rewrite list_elem_of_fmap. split.
  - intros (t & -> & Ht). apply list_elem_of_fmap in Ht as ([k t'] & -> & Hk%elem_of_map_to_list). eauto.
  - intros (k & t & Hk%elem_of_map_to_list & <-). exists t. split; [done|].
    by apply (list_elem_of_fmap_2 snd) in Hk.
Qed.

Definition jobs_left (w' : WorkflowHandler) (outs : list WfOut) : list Job :=
  tracked_jobs w' ++ omap outcome_job (omap wf_outcome outs).

Lemma deleted_jobs w k t outs j :
  jobs w !! k = Some t → omap outcome_job (omap wf_outcome outs) = [tracked t] →
  j ∈ jobs_left {| jobs := delete k (jobs w) |} outs → j ∈ tracked_jobs w.
Proof.
  intros Hk Ho. unfold jobs_left. rewrite Ho, elem_of_app, list_elem_of_singleton, !elem_of_tracked_jobs.
  intros [(k' & t' & Hk' & <-)| ->]; [|by eauto]. cbn in Hk'.
  apply lookup_delete_Some in Hk' as [_ Hk']. eauto.
Qed.

Lemma batch_jobs b w w' outs j :
  for_each (dispatch_publish_result all_alive) b w = Ret (tt, w', outs) →
  j ∈ jobs_left w' outs → j ∈ tracked_jobs w.
Proof.
  revert w outs. induction b as [|r b IH]; intros w outs; cbn [for_each].
  { intros [= <- <-]. unfold jobs_left. cbn. by rewrite app_nil_r. }
  eff_unfold. destruct (jobs w !! into_inner r) as [t|] eqn:Hk;
    [erewrite dispatch_publish_result_run by done|by rewrite dispatch_publish_result_panic].
  destruct (for_each _ b _) as [[[[] w2] o2]|] eqn:Hb; [|done]. intros [= <- <-].
  assert (Hout : omap outcome_job (omap wf_outcome (result_outs all_alive r (tracked t))) = [tracked t])
    by (unfold result_outs; by destruct (is_ok r)).
  intros Hj. eapply deleted_jobs; [done|exact Hout|]. specialize (IH _ _ Hb).
  unfold jobs_left in *. rewrite !omap_app, !elem_of_app in *. naive_solver.
Qed.

Lemma workflow_jobs e w w' outs j :
  workflow_ok w → workflow_dispatch all_alive e w = Ret (tt, w', outs) →
  j ∈ jobs_left w' outs → j ∈ tracked_jobs w ∨ e = WeNewJob j.
Proof.
  intros Hw. destruct e as [o|r|j0].
  - intros Hrun Hj. left. eapply (batch_jobs (results o)); [|exact Hj].
    destruct o as [b|r]; [done|]. cbn in Hrun |- *. eff_unfold. rewrite Hrun. by rewrite app_nil_r.
  - intros Hrun Hj. left. destruct r as [k|k|k]; cbn [workflow_dispatch handle_snooze_result] in Hrun.
    + cbn in Hrun. injection Hrun as <- <-. unfold jobs_left in Hj. cbn in Hj. by rewrite app_nil_r in Hj.
    + destruct (jobs w !! k) as [t|] eqn:Hk; [|by rewrite send_failed_panic in Hrun].
      erewrite send_failed_run in Hrun by done. injection Hrun as <- <-. by apply (deleted_jobs w k t) in Hj.
    + destruct (jobs w !! k) as [[j' n]|] eqn:Hk; [|by rewrite advance_panic in Hrun].
      destruct (Hw k _ Hk) as [_ [Hn|Hn]]; cbn in Hn; subst n.
      * erewrite advance_second_run in Hrun by done. injection Hrun as <- <-.
        unfold jobs_left in Hj. cbn -[tracked_jobs] in Hj. rewrite app_nil_r in Hj.
        by rewrite (tracked_jobs_advance w k {| tracked := j'; step := 1 |} 2) in Hj.
      * erewrite advance_overrun_run in Hrun by done. injection Hrun as <- <-.
        by apply (deleted_jobs w k {| tracked := j'; step := 2 |}) in Hj.
  - cbn [workflow_dispatch]. rewrite handle_new_job_run. intros [= <- <-] Hj.
    unfold jobs_left in Hj. cbn -[tracked_jobs] in Hj. rewrite app_nil_r, elem_of_tracked_jobs in Hj.
    destruct Hj as (k & t & Hk & <-). cbn in Hk.
    apply lookup_insert_Some in Hk as [[_ <-]|[_ Hk]]; [by right|left]. apply elem_of_tracked_jobs. eauto.
Qed.
End workflow.

(** ** The service *)

Section service.
Context `{UnicodeTables} `{ProtoEnums} `{StatusJsonLaws} {DQ DK : Type} `{Countable DK}.
Context `{!DelayQueue DQ DK} `{!DelayQueueLaws DQ DK} `{ChronoLaws}.
Implicit Types s : System DQ DK.

(** An event of the workflow handler makes no jobs: what is about afterwards was about
    before, or is the job that arrived. *)
Lemma run_wf_tokens e s s' outs j :
  workflow_ok (sys_wf s) → run_wf (workflow_dispatch all_alive e) s = Ret (tt, s', outs) →
  j ∈ tokens s' → j ∈ tokens s ∨ e = WeNewJob j.
Proof.
  intros Hw Hrun. unfold run_wf in Hrun.
  destruct (workflow_dispatch _ _ _) as [[[[] w'] o]|] eqn:Hh; simplify_eq.
  pose proof (workflow_jobs _ _ _ _ j Hw Hh) as Hleft. unfold jobs_left in Hleft.
  unfold tokens. cbn. rewrite omap_app, !elem_of_app in *. tauto.
Qed.

Definition intents_ok s : Prop :=
  coordinator_ok (sys_co s) ∧ ∀ j, j ∈ tokens s → token_ok (sys_co s) j.

Lemma intents_ok_new hydrated : intents_ok (system_new hydrated).
Proof. split; [apply coordinator_new_ok|]. by intros j ?%elem_of_nil. Qed.

Lemma co_intents now e s0 s s' outs :
  system_ok s0 → intents_ok s0 → (id_counter (sys_co s0) < u64_max)%Z →
  sys_co s = sys_co s0 → tokens s0 ≡ₚ option_list (event_job e) ++ tokens s →
  sys_wf s = sys_wf s0 → (∀ k, settled e k = count_by (job_about k) (option_list (event_job e))) →
  q_job s = q_job s0 →
  run_co (coordinator_handle true now e) s = Ret (tt, s', outs) →
  intents_ok s' ∧ (id_counter (sys_co s') ≤ id_counter (sys_co s0) + 1)%Z.
Proof.
  intros (Hw & _ & Htok) [Hok Hj] Hlt Eco Etok Ewf Hset Eq Hrun. unfold run_co in Hrun. rewrite Eco in Hrun.
  destruct (coordinator_handle true now e (sys_co s0)) as [[[[[]|] c'] o]|] eqn:Hh; simplify_eq.
  destruct (coordinator_tokens_ok now e (sys_co s0) c' o (tokens s) Hok Hlt) as (Hok' & Hc & Hj'); [..|done|].
  - intros k. destruct (Htok k) as [-> _]. unfold jobs_queued, jobs_tracked, jobs_returning.
    rewrite <- (tracked_about (sys_wf s0)), <- outcomes_about, <- !count_by_app by done.
    rewrite Hset, (Nat.add_comm (count_by _ (tokens s))), <- count_by_app, <- Etok.
    unfold tokens. by rewrite app_assoc.
  - intros j Hin. apply Hj. by rewrite Etok.
  - split; [|done]. split; [done|]. intros j Hin. apply Hj'. unfold tokens in *. cbn in Hin.
    set_solver.
Qed.

Lemma wf_intents e s0 s s' outs :
  intents_ok s0 → workflow_ok (sys_wf s0) → sys_co s = sys_co s0 → sys_wf s = sys_wf s0 →
  tokens s ⊆ tokens s0 → (∀ j, e = WeNewJob j → j ∈ tokens s0) →
  run_wf (workflow_dispatch all_alive e) s = Ret (tt, s', outs) →
  intents_ok s' ∧ sys_co s' = sys_co s0.
Proof.
  intros [Hok Hj] Hw Eco Ewf Ht Hnew Hrun.
  assert (E : sys_co s' = sys_co s0).
  { unfold run_wf in Hrun. destruct (workflow_dispatch _ _ _) as [[[[] w'] o]|]; by simplify_eq. }
  split; [|done]. unfold intents_ok. rewrite E. split; [done|]. intros j Hin. apply Hj.
  rewrite <- Ewf in Hw. destruct (run_wf_tokens _ _ _ _ j Hw Hrun Hin); auto.
Qed.

Lemma sys_step_intents e s s' outs :
  system_ok s → intents_ok s → (id_counter (sys_co s) < u64_max)%Z →
  sys_step e s = Ret (tt, s', outs) →
  intents_ok s' ∧ (id_counter (sys_co s') ≤ id_counter (sys_co s) + 1)%Z.
Proof.
  intros Hsys Hok Hlt Hrun. pose proof Hsys as (Hw & _).
  assert (Hidle : Ret (tt, s, []) = Ret (tt, s', outs) →
    intents_ok s' ∧ (id_counter (sys_co s') ≤ id_counter (sys_co s) + 1)%Z).
  { intros [= <- _]. split; [done|lia]. }
  assert (Hwf : ∀ (r : intents_ok s' ∧ sys_co s' = sys_co s),
    intents_ok s' ∧ (id_counter (sys_co s') ≤ id_counter (sys_co s) + 1)%Z).
  { intros [? ->]. split; [done|lia]. }
  assert (Hsame : sys_co s' = sys_co s → tokens s' = tokens s →
    intents_ok s' ∧ (id_counter (sys_co s') ≤ id_counter (sys_co s) + 1)%Z).
  { intros Eco Etok. unfold intents_ok. rewrite Eco, Etok. split; [done|lia]. }
  destruct e as [now m|now m|now| | | |u i|u i| |e]; cbn [sys_step] in Hrun.
  - by eapply (co_intents now (CeUser m) s s).
  - by eapply (co_intents now (CeAutomated m) s s).
  - destruct (q_job_outcome s) as [|o rest] eqn:Hq; [by apply Hidle|].
    apply (co_intents now (CeOutcome o) s (set_q_job_outcome rest s) _ outs); try done.
    + unfold tokens. rewrite Hq. cbn. destruct (outcome_job o); cbn; [|done]. solve_Permutation.
    + intros k. cbn. destruct o as [j|j|j]; cbn; unfold job_about; by rewrite ?Nat.add_0_r.
  - destruct (q_job s) as [|j rest] eqn:Hq; [by apply Hidle|]. apply Hwf.
    apply (wf_intents (WeNewJob j) s (set_q_job rest s) _ outs); try done; unfold tokens;
      rewrite Hq; set_solver.
  - destruct (q_snooze_outcome s) as [|r rest] eqn:Hq; [by apply Hidle|]. apply Hwf.
    by apply (wf_intents (WeSnoozeOutcome r) s (set_q_snooze_outcome rest s) _ outs).
  - destruct (q_publish_outcome s) as [|r rest] eqn:Hq; [by apply Hidle|]. apply Hwf.
    by apply (wf_intents (WePublishOutcome r) s (set_q_publish_outcome rest s) _ outs).
  - destruct (q_snooze s) as [|inp rest] eqn:Hq; [by apply Hidle|]. unfold run_sz in Hrun.
    destruct (scheduler_iteration _ _ _ _ _) as [[[b z] o]|]; simplify_eq. by apply Hsame.
  - unfold run_sz in Hrun.
    destruct (scheduler_iteration _ _ _ _ _) as [[[b z] o]|]; simplify_eq. by apply Hsame.
  - destruct (q_publish s) as [|p rest] eqn:Hq; [by apply Hidle|]. unfold run_pe in Hrun.
    destruct (engine_iteration _ _ _) as [[[b z] o]|]; simplify_eq. by apply Hsame.
  - assert (Hpe : run_pe (engine_iteration true e) s = Ret (tt, s', outs) →
      intents_ok s' ∧ (id_counter (sys_co s') ≤ id_counter (sys_co s) + 1)%Z).
    { intros Hpe. unfold run_pe in Hpe.
      destruct (engine_iteration _ _ _) as [[[b z] o]|]; simplify_eq. by apply Hsame. }
    destruct e; try (by apply Hidle); (destruct (engine_ready _ _); [by apply Hpe|by apply Hidle]).
Qed.

Lemma sys_run_intents es s s' outs :
  system_ok s → intents_ok s → (id_counter (sys_co s) + Z.of_nat (length es) ≤ u64_max)%Z →
  sys_run es s = Ret (tt, s', outs) →
  system_ok s' ∧ intents_ok s' ∧
  (id_counter (sys_co s') ≤ id_counter (sys_co s) + Z.of_nat (length es))%Z.
Proof.
  revert s outs. induction es as [|e es IH]; intros s outs Hsys Hok Hlen; cbn.
  { intros [= <- _]. split; [done|]. split; [done|lia]. }
  destruct (sys_step_ok e s Hsys) as (s1 & o1 & Hstep & Hsys1). rewrite Hstep.
  destruct (sys_run es s1) as [[[[] s2] o2]|] eqn:Hrun; [|done]. intros [= <- _].
  cbn in Hlen. destruct (sys_step_intents e s s1 o1 Hsys Hok) as [Hok1 Hc]; [lia|done|].
  destruct (IH s1 o2 Hsys1 Hok1) as (? & ? & ?); [lia|done|]. split; [done|]. split; [done|lia].
Qed.

(** *** Runs *)

(** No outcome replaces the intent of a key, of those on their way and those to come. *)
Definition undisturbed (k : Key) s (outs : list SysOut) : Prop :=
  (∀ o, o ∈ q_job_outcome s → replaces k o = false) ∧
  (∀ o, SoWf (WfOutcome o) ∈ outs → replaces k o = false).

Lemma elem_of_wf_outcomes o (outs : list WfOut) :
  o ∈ omap wf_outcome outs ↔ SoWf (WfOutcome o) ∈ SoWf <$> outs.
Proof.
  rewrite list_elem_of_omap, list_elem_of_fmap. split.
  - intros (x & Hx & E). destruct x; simplify_eq/=. by eexists.
  - intros (x & E & Hx). simplify_eq. by eexists.
Qed.

Lemma latest_step k e s s' outs :
  system_ok s → intents_ok s → own_event e = true → sys_step e s = Ret (tt, s', outs) →
  undisturbed k s outs →
  get_latest_status (sys_co s') k = get_latest_status (sys_co s) k ∧
  (∀ o, o ∈ q_job_outcome s' → replaces k o = false).
Proof.
  intros Hsys [_ Hok] He Hrun [Hq Ho].
  assert (Hwf : ∀ ev s1, sys_co s1 = sys_co s → q_job_outcome s1 = q_job_outcome s →
    run_wf (workflow_dispatch all_alive ev) s1 = Ret (tt, s', outs) →
    get_latest_status (sys_co s') k = get_latest_status (sys_co s) k ∧
    (∀ o, o ∈ q_job_outcome s' → replaces k o = false)).
  { intros ev s1 Eco Eq Hwf. unfold run_wf in Hwf.
    destruct (workflow_dispatch _ _ _) as [[[[] w] os]|]; simplify_eq. cbn. rewrite Eco, Eq.
    split; [done|]. intros o [|Hin%elem_of_wf_outcomes]%elem_of_app; auto. }
  assert (Hsame : sys_co s' = sys_co s → q_job_outcome s' = q_job_outcome s →
    get_latest_status (sys_co s') k = get_latest_status (sys_co s) k ∧
    (∀ o, o ∈ q_job_outcome s' → replaces k o = false)) by by intros -> ->.
  destruct e as [now m|now m|now| | | |u i|u i| |e]; try done; cbn [sys_step] in Hrun.
  - destruct (q_job_outcome s) as [|o rest] eqn:Eq; [simplify_eq; rewrite Eq; by auto|].
    unfold run_co in Hrun. cbn [sys_co set_q_job_outcome] in Hrun.
    destruct (coordinator_handle _ _ _ _) as [[[[[]|] c] os]|] eqn:Hco; simplify_eq. cbn. split.
    + eapply coordinator_keeps_latest; [|exact Hco|apply Hq; by left]. intros j Hj. split.
      * eapply (next_outcome s o rest); [done..|]. destruct o; simplify_eq/=; apply is_key_eq.
      * apply Hok. unfold tokens. rewrite Eq. cbn. rewrite Hj. set_solver.
    + intros o' Ho'. apply Hq. by right.
  - destruct (q_job s); [by simplify_eq; apply Hsame|by eapply Hwf; [..|exact Hrun]].
  - destruct (q_snooze_outcome s); [by simplify_eq; apply Hsame|by eapply Hwf; [..|exact Hrun]].
  - destruct (q_publish_outcome s); [by simplify_eq; apply Hsame|by eapply Hwf; [..|exact Hrun]].
  - destruct (q_snooze s); [by simplify_eq; apply Hsame|]. unfold run_sz in Hrun.
    destruct (scheduler_iteration _ _ _ _ _) as [[[b z] o]|]; simplify_eq. by apply Hsame.
  - unfold run_sz in Hrun.
    destruct (scheduler_iteration _ _ _ _ _) as [[[b z] o]|]; simplify_eq. by apply Hsame.
  - destruct (q_publish s); [by simplify_eq; apply Hsame|]. unfold run_pe in Hrun.
    destruct (engine_iteration _ _ _) as [[[b z] o]|]; simplify_eq. by apply Hsame.
  - assert (Hpe : run_pe (engine_iteration true e) s = Ret (tt, s', outs) →
      get_latest_status (sys_co s') k = get_latest_status (sys_co s) k ∧
      (∀ o, o ∈ q_job_outcome s' → replaces k o = false)).
    { intros Hpe. unfold run_pe in Hpe.
      destruct (engine_iteration _ _ _) as [[[b z] o]|]; simplify_eq. by apply Hsame. }
    destruct e; try (by simplify_eq; apply Hsame);
      (destruct (engine_ready _ _); [by apply Hpe|by simplify_eq; apply Hsame]).
Qed.

Lemma latest_run k n s s' outs :
  system_ok s → intents_ok s → (id_counter (sys_co s) + Z.of_nat n ≤ u64_max)%Z →
  own_run n s s' outs → undisturbed k s outs →
  get_latest_status (sys_co s') k = get_latest_status (sys_co s) k.
Proof.
  intros Hsys Hok Hlen Hrun. induction Hrun as [s|n s s1 s2 e o1 o2 He Hstep Hne Hrun IH]; [done|].
  intros [Hq Ho]. destruct (sys_step_ok e s Hsys) as (s1' & o1' & Hstep' & Hsys1).
  rewrite Hstep in Hstep'. simplify_eq.
  destruct (sys_step_intents e s s1' o1' Hsys Hok) as [Hok1 Hc]; [lia|done|].
  destruct (latest_step k e s s1' o1' Hsys Hok He Hstep) as [<- Hq1].
  { split; [done|]. intros o Hin. apply Ho, elem_of_app. by left. }
  apply IH; [done|done|lia|]. split; [done|]. intros o Hin. apply Ho, elem_of_app. by right.
Qed.

(** At rest, the confirmed status of a key is the latest one. *)
Lemma confirmed_at_rest hydrated es s o n s' outs k :
  sys_run es (system_new hydrated) = Ret (tt, s, o) → own_run n s s' outs → resting s' →
  fst <$> confirmed_state (sys_co s') !! k = get_latest_status (sys_co s') k.
Proof.
  intros Hrun0 Hrun Hrest.
  assert (Hreach : sys_reachable s) by (eapply (sys_run_reachable es (system_new hydrated) s o); [apply reach_new|done]).
  destruct (own_run_work n s s' outs (sys_reachable_ok s Hreach)) as (_ & Hsys' & Hb');
    [by apply sys_reachable_bounded|done|].
  destruct (quiescent_empty s' Hsys' (resting_quiescent s' Hsys' Hb' Hrest)) as [Hspec _].
  unfold get_latest_status. rewrite Hspec, lookup_empty. by destruct (confirmed_state (sys_co s') !! k) as [[]|].
Qed.

(** C10 What is intended is confirmed: after any run with fewer than 2^64 events, when no
    updates or commands come any more and the service comes to rest, the confirmed
    status of an alarm is its latest status of before, in spite of failed attempts,
    failed automated jobs and jobs that were overtaken, unless the alarm was woken or
    an operator's request for it failed. *)
Theorem intent_confirmed hydrated es s o n s' outs k :
  (Z.of_nat (length es + n) < u64_max)%Z →
  sys_run es (system_new hydrated) = Ret (tt, s, o) →
  own_run n s s' outs → resting s' → undisturbed k s outs →
  fst <$> confirmed_state (sys_co s') !! k = get_latest_status (sys_co s) k.
Proof.
  intros Hlen Hrun0 Hrun Hrest Hund.
  destruct (sys_run_intents es (system_new hydrated) s o) as (Hsys & Hok & Hc);
    [apply system_new_ok|apply intents_ok_new|cbn; unfold INITIAL_PUBLISH_ID; lia|done|].
  cbn in Hc. unfold INITIAL_PUBLISH_ID in Hc.
  rewrite <- (latest_run k n s s' outs) by (done || lia). by eapply confirmed_at_rest.
Qed.

Definition undisturbed_b (k : Key) s (outs : list SysOut) : bool :=
  forallb (λ o, negb (replaces k o))
    (q_job_outcome s ++ omap (λ o, match o with SoWf (WfOutcome o) => Some o | _ => None end) outs).

Lemma undisturbed_b_true k s outs : undisturbed_b k s outs = true → undisturbed k s outs.
Proof.
  unfold undisturbed_b. rewrite forallb_forall. intros Hall.
  split; intros o Ho; apply negb_true_iff, Hall, list_elem_of_In, elem_of_app; [by left|right].
  apply list_elem_of_omap. by exists (SoWf (WfOutcome o)).
Qed.
End service.

(** ** A sample *)

#[local] Existing Instance ascii_only_tables.
#[local] Existing Instance sample_enums.
#[local] Existing Instance sample_json.
#[local] Existing Instance sample_json_laws.

Lemma rest_of_alarm_undisturbed :
  let s := state_after one_alarm (system_new ∅) in
  match sys_run rest_of_alarm s with
  | Ret (_, _, outs) => undisturbed_b (sy_key Source.Epics) s outs
  | Panic _ => false
  end = true.
Proof. vm_compute. reflexivity. Qed.

(** The reported alarm is confirmed as it was reported. *)
Lemma intent_confirmed_witness :
  let s := state_after one_alarm (system_new ∅) in
  let s' := state_after rest_of_alarm s in
  state <$> get_latest_status (sys_co s) (sy_key Source.Epics) = Some State.Alarmed ∧
  confirmed_state (sys_co s) = ∅ ∧
  fst <$> confirmed_state (sys_co s') !! sy_key Source.Epics =
    get_latest_status (sys_co s) (sy_key Source.Epics).
Proof.
  intros s s'. split; [vm_compute; reflexivity|]. split; [vm_compute; reflexivity|].
  pose proof (sys_reachable_ok s one_alarm_reachable) as Hok.
  destruct (state_after_run one_alarm (system_new ∅) (system_new_ok ∅)) as [o Hrun].
  destruct (state_after_run rest_of_alarm s Hok) as [outs Hrest].
  assert (Hund : undisturbed_b (sy_key Source.Epics) s outs = true).
  { pose proof rest_of_alarm_undisturbed as Hund. cbv zeta in Hund. fold s in Hund. by rewrite Hrest in Hund. }
  apply (intent_confirmed ∅ one_alarm s o 6 s' outs).
  - vm_compute. reflexivity.
  - exact Hrun.
  - apply (own_run_works rest_of_alarm); [vm_compute; reflexivity|exact Hrest].
  - apply quiescent_resting; [|by repeat split|vm_compute; reflexivity].
    apply sys_reachable_ok. exact (sys_run_reachable rest_of_alarm s s' outs one_alarm_reachable Hrest).
  - by apply undisturbed_b_true.
Defined.
