(* ===== verification/Quiet.v ===== *)
(** * Alarms that no operator commands

    No wake-up and no rollback ever concerns an alarm that no operator commands and
    whose reports carry no wake time: its jobs are not operator requests, its snooze
    commands only cancel, and no timer is ever set for it. *)

From S2P Require Export Intents.
From stdpp Require Import list.

(** The keys under which a command or a wake-up reaches an alarm. *)
Definition names `{UnicodeTables} `{ProtoEnums} (k k' : Key) : bool :=
  is_key k k' || is_key k (key_from_status (wake_status 0 k')).

(** A job that is no operator request and that sets no timer, if it is about the alarm. *)
Definition plain_job `{UnicodeTables} `{ProtoEnums} (k : Key) (j : Job) : Prop :=
  names k (job_key j) = true → wake (job_status j) = None ∧ user_initiated j = false.

(** A report that sets no timer. *)
Definition plain_message `{UnicodeTables} `{ProtoEnums} (k : Key) (m : DomainInput) : Prop :=
  match m with
  | UserUpdate k' _ _ _ => names k k' = false
  | AutomatedUpdate st => names k (key_from_status st) = true → wake st = None
  | SnapshotRequest _ => True
  end.

(** ** The coordinator *)

Section coordinator.
Context `{UnicodeTables} `{ProtoEnums}.
Implicit Types c : AlarmStateCoordinator.

Definition plain_co (k : Key) c : Prop :=
  ∀ k' st id, names k k' = true → speculative_state c !! k' = Some (st, id) →
    wake st = None ∧ pending_confirmations c !! id = None.

Definition plain_event (k : Key) (e : CoEvent) : Prop :=
  match e with
  | CeOutcome o => ∀ j, outcome_job o = Some j → plain_job k j
  | CeUser m | CeAutomated m => plain_message k m
  | _ => True
  end.

Lemma pending_fresh c : coordinator_ok c → pending_confirmations c !! id_counter c = None.
Proof. intros Hok. apply eq_None_not_Some. intros [cf Hp]. apply ok_pending in Hp; [lia|done]. Qed.

Lemma plain_resent k c id0 k' st id :
  plain_co k c → speculative_state c !! k' = Some (st, id) →
  plain_job k (job_of (delete id0 (pending_confirmations c)) k' (st, id)).
Proof.
  intros Hc Hk Hn. destruct (Hc k' st id Hn Hk) as [Hw Hp]. split; [done|].
  cbn. rewrite lookup_delete, Hp. by case_decide.
Qed.

Lemma plain_recorded k k' st c :
  coordinator_ok c → (names k k' = true → wake st = None) → plain_co k c → plain_co k (recorded k' st c).
Proof.
  intros Hok Hst Hc k2 st' id Hn. cbn. rewrite lookup_insert. case_decide; [|by apply Hc].
  subst k2. intros [= <- <-]. split; [by apply Hst|by apply pending_fresh].
Qed.

Lemma plain_pending_delete k id c : plain_co k c → plain_co k (set_pending (delete id) c).
Proof.
  intros Hc k' st id' Hn Hk. destruct (Hc k' st id' Hn Hk) as [Hw Hp]. split; [done|].
  cbn. rewrite lookup_delete. by case_decide.
Qed.

Lemma plain_spec_delete k k' c : plain_co k c → plain_co k (set_speculative (delete k') c).
Proof. intros Hc k2 st id Hn. cbn. rewrite lookup_delete. case_decide; [done|by apply Hc]. Qed.

Lemma plain_spec_insert k k' e c :
  names k k' = false → plain_co k c → plain_co k (set_speculative (insert k' e) c).
Proof.
  intros Hk' Hc k2 st id Hn. cbn. rewrite lookup_insert_ne; [by apply Hc|]. congruence.
Qed.

Lemma plain_confirmed k f c : plain_co k c → plain_co k (set_confirmed f c).
Proof. done. Qed.

(** An operator's command for another alarm. *)
Lemma plain_commanded k k' st conf c :
  coordinator_ok c → names k k' = false → plain_co k c →
  plain_co k (set_pending (insert (id_counter c) conf) (recorded k' st c)).
Proof.
  intros Hok Hk' Hc k2 st' id Hn. cbn. rewrite lookup_insert_ne by congruence. intros Hk.
  destruct (Hc k2 st' id Hn Hk) as [Hw Hp]. split; [done|].
  rewrite lookup_insert_ne; [done|]. apply ok_speculative in Hk; [lia|done].
Qed.

#[local] Hint Resolve plain_pending_delete plain_spec_delete plain_confirmed plain_spec_insert : alarms.

Lemma automated_plain k now st c c' outs :
  coordinator_ok c → plain_co k c → (names k (key_from_status st) = true → wake st = None) →
  coordinator_handle true now (CeAutomated (AutomatedUpdate st)) c = Ret (Ok tt, c', outs) →
  plain_co k c' ∧ ∀ j, j ∈ jobs_in outs → plain_job k j.
Proof.
  intros Hok Hc Hst. cbn [coordinator_handle handle_message].
  rewrite handle_automated_update_run. cbn zeta.
  pose proof (plain_recorded k _ st c Hok Hst Hc) as Hrec.
  destruct (should_publish _ _ _); [|by intros [= <- <-]; split; [|intros j ?%elem_of_nil]].
  destruct (speculative_state c !! _) eqn:Hspec; [by intros [= <- <-]; split; [|intros j ?%elem_of_nil]|].
  unfold job_sent. intros [= <- <-]. split; [done|]. intros j ->%list_elem_of_singleton Hn.
  split; [by apply Hst|]. cbn. by rewrite pending_fresh.
Qed.

Lemma coordinator_plain k now e c c' outs :
  coordinator_ok c → plain_co k c → plain_event k e →
  coordinator_handle true now e c = Ret (Ok tt, c', outs) →
  plain_co k c' ∧ ∀ j, j ∈ jobs_in outs → plain_job k j.
Proof.
  intros Hok Hc He Hrun.
  assert (Hauto : ∀ st m, m = AutomatedUpdate st → (names k (key_from_status st) = true → wake st = None) →
    handle_message true now m c = Ret (Ok tt, c', outs) →
    plain_co k c' ∧ ∀ j, j ∈ jobs_in outs → plain_job k j).
  { intros st m -> Hst Hm. by apply (automated_plain k now st c). }
  assert (Huser : ∀ k' a u cf, names k k' = false →
    handle_message true now (UserUpdate k' a u cf) c = Ret (Ok tt, c', outs) →
    plain_co k c' ∧ ∀ j, j ∈ jobs_in outs → plain_job k j).
  { intros k' a u cf Hk'. cbn [handle_message]. rewrite handle_user_update_run. cbn zeta.
    destruct (user_action_allowed _ _ _); [|intros [= <- <-]; by split; [|intros j ?%elem_of_nil]].
    destruct (speculative_state c !! k'); unfold job_sent; intros [= <- <-];
      (split; [by apply plain_commanded|]); [by intros j ?%elem_of_nil|].
    intros j ->%list_elem_of_singleton Hn. cbn in Hn. congruence. }
  destruct e as [[j|j|k']|[sn|st|k' a u cf]|[sn|st|k' a u cf]|]; cbn [coordinator_handle] in Hrun;
    try (by apply (Hauto st (AutomatedUpdate st))); try (by apply (Huser k' a u cf));
    try (by injection Hrun as <- <-; split; [|intros j ?%elem_of_nil]).
  - cbn [reconcile_job_outcome] in Hrun. rewrite reconcile_success_run in Hrun. cbn zeta in Hrun.
    destruct (speculative_state c !! job_key j) as [[st id]|] eqn:Hspec; [case_bool_decide|];
      simplify_eq; autorewrite with outs; (split; [eauto 6 with alarms|]); try by intros ? ?%elem_of_nil.
    intros j' ->%list_elem_of_singleton.
    by apply plain_resent.
  - cbn [reconcile_job_outcome] in Hrun. rewrite reconcile_failure_run in Hrun. cbn zeta in Hrun.
    destruct (speculative_state c !! job_key j) as [[st id]|] eqn:Hspec; [|done].
    destruct (bool_decide (id = job_id j) && user_initiated j) eqn:E; unfold job_sent in Hrun;
      simplify_eq; autorewrite with outs.
    + assert (Hk : names k (job_key j) = false).
      { apply not_true_iff_false. intros Hn. destruct (He j eq_refl Hn) as [_ Hu].
        by rewrite Hu, andb_false_r in E. }
      split; [eauto with alarms|]. intros j' ->%list_elem_of_singleton Hn. cbn in Hn. congruence.
    + split; [eauto with alarms|]. intros j' ->%list_elem_of_singleton.
      by apply plain_resent.
  - cbn [reconcile_job_outcome] in Hrun. by apply (automated_plain k now (wake_status now k') c).
  - done.
Qed.
End coordinator.

(** ** The workflow handler *)

(** Where its snooze commands and wake-ups come from. *)
Definition handler_output (e : WfEvent) (o : WfOut) : Prop :=
  match o with
  | WfSnooze i => ∃ j, e = WeNewJob j ∧ i = {| si_key := job_key j; si_wake := wake (job_status j) |}
  | WfOutcome (Wake k) => e = WeSnoozeOutcome (Expired k)
  | _ => True
  end.

Lemma finished_output e r t : Forall (handler_output e) (result_outs all_alive r t).
Proof. unfold result_outs. destruct (is_ok r); by repeat constructor. Qed.

Lemma batch_output e b w w' outs :
  for_each (dispatch_publish_result all_alive) b w = Ret (tt, w', outs) → Forall (handler_output e) outs.
Proof.
  revert w outs. induction b as [|r b IH]; intros w outs; cbn [for_each].
  { intros [= <- <-]. constructor. }
  eff_unfold. destruct (jobs w !! into_inner r) as [t|] eqn:Hk;
    [erewrite dispatch_publish_result_run by done|by rewrite dispatch_publish_result_panic].
  destruct (for_each _ b _) as [[[[] w2] o2]|] eqn:Hb; [|done]. intros [= <- <-].
  apply Forall_app. split; [apply finished_output|by eapply IH].
Qed.

Lemma workflow_output e w w' outs :
  workflow_ok w → workflow_dispatch all_alive e w = Ret (tt, w', outs) → Forall (handler_output e) outs.
Proof.
  intros Hw. destruct e as [[b|r]|[k|k|k]|j]; cbn [workflow_dispatch handle_publish_outcome handle_snooze_result].
  - by apply batch_output.
  - destruct (jobs w !! into_inner r) as [t|] eqn:Hk;
      [erewrite dispatch_publish_result_run by done|by rewrite dispatch_publish_result_panic].
    intros [= _ <-]. apply finished_output.
  - cbn. intros [= _ <-]. by repeat constructor.
  - destruct (jobs w !! k) as [t|] eqn:Hk; [|by rewrite send_failed_panic].
    erewrite send_failed_run by done. intros [= _ <-]. by repeat constructor.
  - destruct (jobs w !! k) as [[j' n]|] eqn:Hk; [|by rewrite advance_panic].
    destruct (Hw k _ Hk) as [_ [Hn|Hn]]; cbn in Hn; subst n.
    + erewrite advance_second_run by done. intros [= _ <-]. by repeat constructor.
    + erewrite advance_overrun_run by done. intros [= _ <-]. by repeat constructor.
  - rewrite handle_new_job_run. intros [= _ <-]. repeat constructor. by exists j.
Qed.

(** ** The service *)

Section service.
Context `{UnicodeTables} `{ProtoEnums} `{StatusJsonLaws} {DQ DK : Type} `{Countable DK}.
Context `{!DelayQueue DQ DK} `{!DelayQueueLaws DQ DK} `{ChronoLaws}.
Implicit Types s : System DQ DK.

Definition cancels (k : Key) (i : SnoozeInput) : Prop := names k (si_key i) = true → si_wake i = None.
Definition no_expiry (k : Key) (o : SnoozeOutcome) : Prop := ∀ k', o = Expired k' → names k k' = false.
Definition no_wake (k : Key) (o : JobOutcome) : Prop := ∀ k', o = Wake k' → names k k' = false.

Record quiet (k : Key) s : Prop := {
  quiet_co : plain_co k (sys_co s);
  quiet_jobs j : j ∈ tokens s → plain_job k j;
  quiet_snooze : Forall (cancels k) (q_snooze s);
  quiet_timers k' : names k k' = true → registry (sys_sz s) !! k' = None;
  quiet_expiry : Forall (no_expiry k) (q_snooze_outcome s);
  quiet_wake : Forall (no_wake k) (q_job_outcome s);
}.

Lemma quiet_new k hydrated : quiet k (system_new hydrated).
Proof.
  split; cbn; try apply Forall_nil_2.
  - intros k' st id _. cbn. by rewrite lookup_empty.
  - by intros j ?%elem_of_nil.
  - intros k' _. apply lookup_empty.
Qed.

(** What is on its way replaces no intent of the alarm. *)
Lemma quiet_undisturbed k s o : quiet k s → o ∈ q_job_outcome s → replaces k o = false.
Proof.
  intros Hq Hin. destruct o as [j|j|k']; cbn [replaces]; [done| |].
  - destruct (is_key k (job_key j)) eqn:E; [|done]. apply (quiet_jobs k s Hq j).
    + unfold tokens. rewrite !elem_of_app. right; right. apply list_elem_of_omap. by eexists.
    + unfold names. by rewrite E.
  - pose proof (quiet_wake k s Hq) as Hw. rewrite Forall_forall in Hw.
    specialize (Hw _ Hin k' eq_refl). unfold names in Hw. by apply orb_false_iff in Hw as [_ ?].
Qed.

Lemma pe_quiet k m s0 s s' outs :
  quiet k s0 → sys_co s = sys_co s0 → tokens s = tokens s0 → sys_sz s = sys_sz s0 →
  q_job_outcome s = q_job_outcome s0 → q_snooze s = q_snooze s0 → q_snooze_outcome s = q_snooze_outcome s0 →
  run_pe m s = Ret (tt, s', outs) → quiet k s'.
Proof.
  intros [Hc Hj Hs Ht Hx Hw] Eco Et Esz Eo Es Ex Hrun. unfold run_pe in Hrun.
  destruct (m (sys_pe s)) as [[[b e] o]|]; simplify_eq. unfold tokens in Et.
  split; cbn; rewrite ?Eco, ?Esz, ?Eo, ?Es, ?Ex; try done.
  by rewrite <- Eo, Et.
Qed.

(** A step that no operator's command for the alarm causes. *)
Definition plain_step (k : Key) (e : SysEvent) : Prop :=
  match e with SyUser _ m | SyAutomated _ m => plain_message k m | _ => True end.

Lemma co_quiet k now e s0 s s' outs :
  coordinator_ok (sys_co s0) → quiet k s0 → plain_event k e →
  sys_co s = sys_co s0 → sys_wf s = sys_wf s0 → sys_sz s = sys_sz s0 → q_job s = q_job s0 →
  q_job_outcome s ⊆ q_job_outcome s0 → q_snooze s = q_snooze s0 →
  q_snooze_outcome s = q_snooze_outcome s0 →
  run_co (coordinator_handle true now e) s = Ret (tt, s', outs) → quiet k s'.
Proof.
  intros Hok [Hc Hj Hs Ht Hx Hw] He Eco Ewf Esz Ej Eo Es Ex Hrun. unfold run_co in Hrun. rewrite Eco in Hrun.
  destruct (coordinator_handle true now e (sys_co s0)) as [[[[[]|] c'] o]|] eqn:Hh; simplify_eq.
  destruct (coordinator_plain k now e _ _ _ Hok Hc He Hh) as [Hc' Hj'].
  split; cbn; rewrite ?Es, ?Ex, ?Esz; try done.
  - intros j Hin. unfold tokens in Hin, Hj. cbn in Hin.
    rewrite Ewf, Ej, !elem_of_app in Hin. destruct Hin as [[Hin|Hin]|[Hin|Hin]];
      [apply Hj; rewrite !elem_of_app; by left|by apply Hj'|apply Hj; rewrite !elem_of_app; auto|].
    apply Hj. rewrite !elem_of_app. right; right. apply list_elem_of_omap in Hin as (x & Hx' & Hin).
    apply list_elem_of_omap. exists x. split; [by apply Eo|done].
  - rewrite Forall_forall in Hw |- *. intros x Hin. by apply Hw, Eo.
Qed.

Lemma wf_quiet k e s0 s s' outs :
  workflow_ok (sys_wf s0) → quiet k s0 → (∀ j, e = WeNewJob j → plain_job k j) →
  (∀ r, e = WeSnoozeOutcome r → no_expiry k r) →
  sys_co s = sys_co s0 → sys_wf s = sys_wf s0 → sys_sz s = sys_sz s0 → tokens s ⊆ tokens s0 →
  q_job_outcome s = q_job_outcome s0 → q_snooze s = q_snooze s0 →
  q_snooze_outcome s ⊆ q_snooze_outcome s0 →
  run_wf (workflow_dispatch all_alive e) s = Ret (tt, s', outs) → quiet k s'.
Proof.
  intros Hwf [Hc Hj Hs Ht Hx Hw] Hnew Hexp Eco Ewf Esz Etok Eo Es Ex Hrun. rewrite <- Ewf in Hwf.
  assert (Hjobs : ∀ j, j ∈ tokens s' → plain_job k j).
  { intros j Hin. destruct (run_wf_tokens _ _ _ _ j Hwf Hrun Hin); auto. }
  unfold run_wf in Hrun.
  destruct (workflow_dispatch _ _ _) as [[[[] w'] o]|] eqn:Hh; simplify_eq.
  pose proof (workflow_output e _ _ _ Hwf Hh) as Hout. rewrite Forall_forall in Hout.
  split; [| exact Hjobs|..]; cbn; rewrite ?Eco, ?Eo, ?Es, ?Esz; try done.
  - apply Forall_app. split; [done|]. apply Forall_forall. intros i Hin.
    apply list_elem_of_omap in Hin as (x & Hx' & E). destruct x; simplify_eq/=.
    specialize (Hout _ Hx') as (j & -> & ->). intros Hn. by apply (Hnew j).
  - rewrite Forall_forall in Hx |- *. intros x Hin. by apply Hx, Ex.
  - apply Forall_app. split; [done|]. apply Forall_forall. intros i Hin k' ->.
    apply list_elem_of_omap in Hin as (x & Hx' & E). destruct x; simplify_eq/=.
    specialize (Hout _ Hx'). cbn in Hout. by apply (Hexp _ Hout).
Qed.

Lemma timer_absent k z : scheduler_ok z → timer z k = None ↔ registry z !! k = None.
Proof.
  intros Hz. pose proof (timer_registry z k Hz) as Ht. rewrite !eq_None_not_Some. tauto.
Qed.

(** A command that only cancels sets no timer. *)
Lemma sets_timer_quiet k z z' k0 t :
  scheduler_ok z → scheduler_ok z' → (∀ k', names k k' = true → registry z !! k' = None) →
  sets_timer z z' k0 t → (names k k0 = true → t = None) →
  ∀ k', names k k' = true → registry z' !! k' = None.
Proof.
  intros Hz Hz' Ht Hset Hk k' Hn. apply timer_absent; [done|]. rewrite Hset.
  case_decide; [subst k0; by apply Hk|]. apply timer_absent; [done|by apply Ht].
Qed.

Lemma scheduler_quiet k utc_now inst_now e z b z' o :
  scheduler_ok z → (∀ k', names k k' = true → registry z !! k' = None) →
  (∀ i, e = SzInput i → cancels k i) →
  scheduler_iteration true utc_now inst_now e z = Ret (b, z', o) →
  (∀ k', names k k' = true → registry z' !! k' = None) ∧ Forall (no_expiry k) (omap sz_outcome o).
Proof.
  intros Hz Ht He. destruct e as [i| |].
  - destruct (handle_snooze_input_run true utc_now inst_now i z Hz) as (z2 & calls & oc & Hr & Hz2 & Hspec).
    specialize (He i eq_refl). cbn [scheduler_iteration]. eff_unfold. rewrite Hr. intros [= _ <- <-].
    destruct (si_wake i) as [w|] eqn:Hwake; [destruct (timestamp_secs_to_instant _ _ _)|].
    + destruct Hspec as (-> & Hset & Hcalls). split.
      { apply (sets_timer_quiet k z z2 (si_key i) _ Hz Hz2 Ht Hset). intros Hn. specialize (He Hn). congruence. }
      destruct (timer z (si_key i)); destruct Hcalls as [-> _]; by repeat constructor.
    + destruct Hspec as (-> & -> & ->). split; [done|]. by repeat constructor.
    + destruct Hspec as (-> & Hset & Hcalls). split.
      { by apply (sets_timer_quiet k z z2 (si_key i) None Hz Hz2 Ht Hset). }
      destruct (timer z (si_key i)); destruct Hcalls as [-> _]; by repeat constructor.
  - destruct (timer_iteration_run true utc_now inst_now z Hz)
      as [(k0 & t & z2 & Hk0 & _ & Hr & Hz2 & Hset & _)|[_ Hr]]; rewrite Hr; intros [= _ <- <-]; [|done].
    split; [by apply (sets_timer_quiet k z z2 k0 None Hz Hz2 Ht Hset)|]. cbn. constructor; [|constructor].
    intros k' [= <-]. apply not_true_iff_false. intros Hn%Ht%timer_absent; [|done]. congruence.
  - cbn. intros [= _ <- <-]. split; [done|constructor].
Qed.

Lemma sz_quiet k utc_now inst_now e s0 s s' outs :
  scheduler_ok (sys_sz s0) → quiet k s0 → (∀ i, e = SzInput i → cancels k i) →
  sys_co s = sys_co s0 → sys_wf s = sys_wf s0 → sys_sz s = sys_sz s0 → q_job s = q_job s0 →
  q_job_outcome s = q_job_outcome s0 → q_snooze s ⊆ q_snooze s0 →
  q_snooze_outcome s = q_snooze_outcome s0 →
  run_sz (scheduler_iteration true utc_now inst_now e) s = Ret (tt, s', outs) → quiet k s'.
Proof.
  intros Hz [Hc Hj Hs Ht Hx Hw] He Eco Ewf Esz Ej Eo Es Ex Hrun. unfold run_sz in Hrun. rewrite Esz in Hrun.
  destruct (scheduler_iteration _ _ _ _ _) as [[[b z] o]|] eqn:Hiter; simplify_eq.
  destruct (scheduler_quiet k utc_now inst_now e _ b z o Hz Ht He Hiter) as [Ht' Hx'].
  split; cbn; rewrite ?Eco, ?Ewf, ?Ej, ?Eo; try done.
  - rewrite Forall_forall in Hs |- *. intros x Hin. by apply Hs, Es.
  - apply Forall_app. by rewrite Ex.
Qed.

Lemma sys_step_quiet k e s s' outs :
  system_ok s → coordinator_ok (sys_co s) → quiet k s → plain_step k e →
  sys_step e s = Ret (tt, s', outs) → quiet k s'.
Proof.
  intros (Hw & Hz & _) Hok Hq He. destruct e as [now m|now m|now| | | |u i|u i| |e]; cbn [sys_step].
  - by apply (co_quiet k now (CeUser m) s s).
  - by apply (co_quiet k now (CeAutomated m) s s).
  - destruct (q_job_outcome s) as [|o rest] eqn:Ho; [by intros [= <- _]|].
    apply (co_quiet k now (CeOutcome o) s (set_q_job_outcome rest s)); try done; [|rewrite Ho; set_solver].
    intros j Hj. apply (quiet_jobs k s Hq). unfold tokens. rewrite Ho, !elem_of_app. cbn. rewrite Hj. set_solver.
  - destruct (q_job s) as [|j rest] eqn:Hj; [by intros [= <- _]|].
    apply (wf_quiet k (WeNewJob j) s (set_q_job rest s)); try done; [|unfold tokens; rewrite Hj; set_solver].
    intros j' [= <-]. apply (quiet_jobs k s Hq). unfold tokens. rewrite Hj. set_solver.
  - destruct (q_snooze_outcome s) as [|r rest] eqn:Hr; [by intros [= <- _]|].
    apply (wf_quiet k (WeSnoozeOutcome r) s (set_q_snooze_outcome rest s)); try done; [|rewrite Hr; set_solver].
    intros r' [= <-]. pose proof (quiet_expiry k s Hq) as Hx. rewrite Hr in Hx. by apply Forall_cons in Hx as [? _].
  - destruct (q_publish_outcome s) as [|r rest]; [by intros [= <- _]|].
    by apply (wf_quiet k (WePublishOutcome r) s (set_q_publish_outcome rest s)).
  - destruct (q_snooze s) as [|i0 rest] eqn:Hi; [by intros [= <- _]|].
    apply (sz_quiet k u i (SzInput i0) s (set_q_snooze rest s)); try done; [|rewrite Hi; set_solver].
    intros i' [= <-]. pose proof (quiet_snooze k s Hq) as Hx. rewrite Hi in Hx. by apply Forall_cons in Hx as [? _].
  - by apply (sz_quiet k u i SzTimer s s).
  - destruct (q_publish s) as [|p rest]; [by intros [= <- _]|]. by apply (pe_quiet k _ s).
  - destruct e; try (by intros [= <- _]);
      (destruct (engine_ready _ _); [by apply (pe_quiet k _ s)|by intros [= <- _]]).
Qed.

(** An outcome that a step sends is in the queue after it. *)
Lemma sent_outcomes_queued e s s' outs o :
  sys_step e s = Ret (tt, s', outs) → SoWf (WfOutcome o) ∈ outs → o ∈ q_job_outcome s'.
Proof.
  assert (Hnone : Ret (tt, s, []) = Ret (tt, s', outs) → SoWf (WfOutcome o) ∈ outs → o ∈ q_job_outcome s')
    by by intros [= _ <-] ?%not_elem_of_nil.
  assert (Hwf : ∀ m s1, run_wf m s1 = Ret (tt, s', outs) → SoWf (WfOutcome o) ∈ outs → o ∈ q_job_outcome s').
  { intros m s1. unfold run_wf. destruct (m _) as [[[[] w] os]|]; [|done]. intros [= <- <-] Hin.
    cbn. apply elem_of_app. right. by apply elem_of_wf_outcomes. }
  assert (Hco : ∀ m s1, run_co m s1 = Ret (tt, s', outs) → SoWf (WfOutcome o) ∈ outs → o ∈ q_job_outcome s').
  { intros m s1. unfold run_co. destruct (m _) as [[[[r|] w] os]|]; [|done..].
    intros [= _ <-] Hin. by apply list_elem_of_fmap in Hin as (? & ? & _). }
  assert (Hsz : ∀ m s1, run_sz m s1 = Ret (tt, s', outs) → SoWf (WfOutcome o) ∈ outs → o ∈ q_job_outcome s').
  { intros m s1. unfold run_sz. destruct (m _) as [[[r w] os]|]; [|done].
    intros [= _ <-] Hin. by apply list_elem_of_fmap in Hin as (? & ? & _). }
  assert (Hpe : ∀ m s1, run_pe m s1 = Ret (tt, s', outs) → SoWf (WfOutcome o) ∈ outs → o ∈ q_job_outcome s').
  { intros m s1. unfold run_pe. destruct (m _) as [[[r w] os]|]; [|done].
    intros [= _ <-] Hin. by apply list_elem_of_fmap in Hin as (? & ? & _). }
  destruct e; cbn [sys_step]; repeat case_match; eauto.
Qed.

(** The intent of an alarm that no operator commands is never replaced. *)
Lemma sys_run_quiet k es s s' outs :
  system_ok s → intents_ok s → (id_counter (sys_co s) + Z.of_nat (length es) ≤ u64_max)%Z →
  quiet k s → Forall (plain_step k) es → sys_run es s = Ret (tt, s', outs) →
  undisturbed k s outs.
Proof.
  revert s outs. induction es as [|e es IH]; intros s outs Hsys Hok Hlen Hq Hes Hrun.
  { cbn in Hrun. injection Hrun as _ <-.
    split; [intros o; by apply quiet_undisturbed|by intros o ?%not_elem_of_nil]. }
  apply Forall_cons in Hes as [He Hes]. cbn in Hrun, Hlen.
  destruct (sys_step_ok e s Hsys) as (s1 & o1 & Hstep & Hsys1). rewrite Hstep in Hrun.
  destruct (sys_run es s1) as [[[[] s2] o2]|] eqn:Hrest; [|done]. injection Hrun as <- <-.
  destruct (sys_step_intents e s s1 o1 Hsys Hok) as [Hok1 Hc]; [lia|done|].
  pose proof (sys_step_quiet k e s s1 o1 Hsys (proj1 Hok) Hq He Hstep) as Hq1.
  destruct (IH s1 o2 Hsys1 Hok1) as [_ Ho]; [lia|done..|].
  split; [intros o; by apply quiet_undisturbed|]. intros o [Hin|Hin]%elem_of_app; [|by apply Ho].
  apply (quiet_undisturbed k s1 o Hq1). by apply (sent_outcomes_queued e s s1 o1).
Qed.
End service.
