(* ===== verification/Reports.v ===== *)
(** * The last report of an alarm is confirmed

    From [send_automated_update], through overload and the bounded queue, the
    coordinator's policy, the jobs and their retries, to the confirmed state: when the
    service is at rest, the severity of an alarm that no operator and no timer touched
    is that of the last report sent for it. *)

From S2P Require Export ServiceProps Quiet.
From stdpp Require Import list.

(** ** Reports on their way to the coordinator *)

(** The reports a run of the service makes, and those a run of [System] handles. *)
Definition reported_by (e : SvEvent) : list Status :=
  match e with EvIngress ie => sent_by ie | _ => [] end.

Definition auto_status (m : DomainInput) : option Status :=
  match m with AutomatedUpdate st => Some st | _ => None end.

Definition handled_message (e : SysEvent) : option DomainInput :=
  match e with SyAutomated _ m => Some m | _ => None end.

Definition queued_message (o : InOut) : option DomainInput :=
  match o with InQueued m => Some m | _ => None end.

Section ingress.
Context `{UnicodeTables} `{ProtoEnums} {M : Type} `{!RingMap M}.
Implicit Types s : Ingress M.

(** The channel of the coordinator is first in, first out. *)
Lemma ingress_fifo e s s' outs :
  IngressStep s e s' outs → e ≠ InReceive →
  queued (coordinator_tx s') = queued (coordinator_tx s) ++ omap queued_message outs.
Proof.
  destruct 1 as [i st m Hi Hm ->|i st Hi Hm|i k st Hi [Ha Hroom]|i k st Hi Ha
    |i k st Hi Ha Hfull|i k st now m Hi ->|Hd Hp|now k st m Hd Hpop|now Hd Hpop
    |st Hd [Ha Hroom]|st Hd Ha| |e]; cbn; rewrite ?app_nil_r; try done.
  destruct (entered_at _); cbn; by rewrite app_nil_r.
Qed.

Lemma ingress_receive s m rest :
  queued (coordinator_tx s) = m :: rest →
  ingress_step InReceive s =
  Ret (tt, mkIngress (overload_state s) (notify_permit s)
             (mkBchan rest (capacity (coordinator_tx s)) (receiver_alive (coordinator_tx s)))
             (senders s) (drain s), []).
Proof. intros Hq. unfold ingress_step, queue_receive, set_tx. eff_unfold. by rewrite Hq. Qed.

Lemma delivered_queued outs : delivered outs = omap auto_status (omap queued_message outs).
Proof.
  unfold delivered. induction outs as [|o outs IH]; [done|]. destruct o as [[]| |]; cbn; by rewrite ?IH.
Qed.
End ingress.

(** ** Runs of the service *)

Section service.
Context `{UnicodeTables} `{ProtoEnums} `{StatusJsonLaws} {M : Type} `{!RingMap M}.
Context {DQ DK : Type} `{Countable DK} `{!DelayQueue DQ DK} `{!DelayQueueLaws DQ DK} `{ChronoLaws}.
Implicit Types v : Service M DQ DK.

(** What a step means for the ingress: a step of its own, the coordinator taking the
    oldest message, or nothing. *)
Lemma service_step_ingress e v v' outs :
  service_step e v = Ret (tt, v', outs) →
  (∃ ie io, e = EvIngress ie ∧ ie ≠ InReceive ∧ sys_event_of e v = [] ∧
     ingress_step ie (sv_ingress v) = Ret (tt, sv_ingress v', io)) ∨
  (∃ now m rest, sys_event_of e v = [SyAutomated now m] ∧ reported_by e = [] ∧
     queued (coordinator_tx (sv_ingress v)) = m :: rest ∧
     queued (coordinator_tx (sv_ingress v')) = rest ∧
     ingress_step InReceive (sv_ingress v) = Ret (tt, sv_ingress v', [])) ∨
  (omap handled_message (sys_event_of e v) = [] ∧ reported_by e = [] ∧ sv_ingress v' = sv_ingress v).
Proof.
  destruct e as [e|m|now| |u i|u i| |e|t]; cbn [service_step sys_event_of reported_by]; intros Hrun.
  - destruct (ingress_step e (sv_ingress v)) as [[[[] g] io]|] eqn:Hg;
      destruct e; simplify_eq; try (left; by eexists _, _);
      right; right; by injection Hrun as <- _.
  - right; right. repeat case_match; by simplify_eq.
  - right. destruct (out_co v); [|right; by injection Hrun as <- _].
    unfold coordinator_select, co_inbox, job_port_rx, poll_recv in *. cbn in *.
    destruct (q_job_outcome (sv_core v)) as [|o rest] eqn:Hq; cbn in *;
      [destruct (queued (sv_user v)) as [|m rest] eqn:Hu; cbn in *;
       [destruct (queued (coordinator_tx (sv_ingress v))) as [|m rest] eqn:Ha; cbn in *|]|];
      try (apply start_co_Ret in Hrun as (c & l' & ->)).
    + right. by injection Hrun as <- _.
    + left. exists now, m, rest. cbn. by rewrite (ingress_receive _ m rest).
    + right. cbn. split; [done|]. split; [done|]. by destruct (sv_ingress v) as [? ? [] ? ?].
    + right. cbn. split; [done|]. split; [done|]. by destruct (sv_ingress v) as [? ? [] ? ?].
  - right; right. split; [by repeat case_match|]. split; [done|].
    repeat case_match; first [by injection Hrun as <- _ | by apply start_wf_Ret in Hrun as (? & ? & ->)].
  - right; right. split; [by repeat case_match|]. split; [done|].
    destruct (out_sz v); [|by injection Hrun as <- _].
    destruct (poll_recv _) as [[inp rx]| |]; try (by injection Hrun as <- _).
    by apply start_sz_Ret in Hrun as (? & ? & ->).
  - right; right. split; [by repeat case_match|]. split; [done|].
    destruct (out_sz v); [|by injection Hrun as <- _]. by apply start_sz_Ret in Hrun as (? & ? & ->).
  - right; right. split; [by repeat case_match|]. split; [done|].
    destruct (out_pe v); [|by injection Hrun as <- _].
    destruct (poll_recv _) as [[inp rx]| |]; by injection Hrun as <- _.
  - right; right. split; [by repeat case_match|]. split; [done|].
    destruct (out_pe v); [|by injection Hrun as <- _].
    destruct e; try (by injection Hrun as <- _);
      (destruct (engine_ready _ _); [by apply start_pe_Ret in Hrun as (? & ? & ->)|by injection Hrun as <- _]).
  - right; right. split; [done|]. split; [done|].
    destruct t; cbn [send_step] in Hrun; repeat case_match; by injection Hrun as <- _.
Qed.

(** Every key is reported by one task, which makes one call at a time. *)
Fixpoint well_reported (owner : Key → nat) (es : list SvEvent) v : Prop :=
  match es with
  | [] => True
  | e :: es' =>
      (∀ i st, e = EvIngress (InCheck i st) →
         senders (sv_ingress v) i = SendIdle ∧ owner (key_from_status st) = i) ∧
      match service_step e v with Ret (_, v', _) => well_reported owner es' v' | Panic _ => True end
  end.

(** The reports the coordinator handles in a run. *)
Definition handled (ses : list SysEvent) : list Status := omap auto_status (omap handled_message ses).

Lemma handled_app l1 l2 : handled (l1 ++ l2) = handled l1 ++ handled l2.
Proof. unfold handled. by rewrite !omap_app. Qed.

Lemma history_receive owner cap sent s s' io :
  ingress_history (M:=M) owner cap sent s io → ingress_step InReceive s = Ret (tt, s', []) →
  ingress_history owner cap sent s' io.
Proof.
  intros Hh Hr. rewrite <- (app_nil_r sent), <- (app_nil_r io).
  by eapply (ingress_history_step _ _ _ _ _ InReceive).
Qed.

(** The ingress of a run of the service has a history of its own, and what it has put
    into the channel of the coordinator has been handled or is still there. *)
Lemma service_ingress_history owner cap es v v' outs sent io past :
  ingress_history owner cap sent (sv_ingress v) io →
  past ++ omap auto_status (queued (coordinator_tx (sv_ingress v))) = delivered io →
  well_reported owner es v → service_run es v = Ret (tt, v', outs) →
  ∃ io', ingress_history owner cap (sent ++ (es ≫= reported_by)) (sv_ingress v') io' ∧
    past ++ handled (sys_events es v) ++ omap auto_status (queued (coordinator_tx (sv_ingress v'))) =
    delivered io'.
Proof.
  revert v outs sent io past. induction es as [|e es IH]; intros v outs sent io past Hh Hq Hwell Hrun.
  { cbn in Hrun. injection Hrun as <- _. exists io. by rewrite app_nil_r. }
  cbn [well_reported service_run sys_events] in *. destruct Hwell as [He Hwell].
  destruct (service_step e v) as [[[[] v1] o1]|] eqn:Hstep; [|done].
  destruct (service_run es v1) as [[[[] v2] o2]|] eqn:Hrest; [|done]. injection Hrun as <- _.
  rewrite bind_cons, handled_app.
  destruct (service_step_ingress e v v1 o1 Hstep)
    as [(ie & io1 & -> & Hne & Hev & Hin)|[(now & m & rest & Hev & Hrep & Hm & Hm' & Hin)|(Hev & Hrep & Hin)]].
  - rewrite Hev. cbn [reported_by]. rewrite app_assoc.
    destruct (IH v1 o2 (sent ++ sent_by ie) (io ++ io1) past) as (io' & Hh' & Hd'); try done.
    + eapply ingress_history_step; [done| |done]. intros i st ->. by apply He.
    + rewrite delivered_app, (delivered_queued io1), <- Hq, <- app_assoc. f_equal.
      apply ingress_step_inv, ingress_fifo in Hin; [|done]. by rewrite Hin, omap_app.
    + by exists io'.
  - rewrite Hev, Hrep. cbn [app].
    destruct (IH v1 o2 sent io (past ++ option_list (auto_status m))) as (io' & Hh' & Hd'); try done.
    + by eapply history_receive.
    + rewrite <- Hq, Hm, Hm', <- app_assoc. f_equal. cbn. by destruct (auto_status m).
    + exists io'. split; [done|]. rewrite <- Hd', <- !app_assoc. do 2 f_equal.
  - rewrite Hrep. cbn [app]. unfold handled at 1. rewrite Hev. cbn [omap list_omap app].
    apply (IH v1 o2 sent io); try done; by rewrite Hin.
Qed.
End service.

(** ** The policy keeps track of the severity *)

(** Operator messages about other alarms. *)
Definition other_command `{UnicodeTables} `{ProtoEnums} (k : Key) (m : DomainInput) : Prop :=
  match m with
  | UserUpdate k' _ _ _ => k' ≠ k
  | AutomatedUpdate st => key_from_status st ≠ k
  | SnapshotRequest _ => True
  end.

(** A step without a command for an alarm, and without a report that says that it is
    bypassed. *)
Definition quiet_for `{UnicodeTables} `{ProtoEnums} (k : Key) (e : SysEvent) : Prop :=
  match e with
  | SyUser _ m => other_command k m
  | SyAutomated _ m =>
      ∃ st, m = AutomatedUpdate st ∧ (key_from_status st = k → state st ≠ State.Bypassed)
  | _ => True
  end.

Section severity.
Context `{UnicodeTables} `{ProtoEnums}.
Implicit Types c : AlarmStateCoordinator.

Definition not_bypassed (o : option Status) : Prop := ∀ st, o = Some st → state st ≠ State.Bypassed.

Lemma refused_severity prev k st :
  not_bypassed (Some prev) → should_publish (Some prev) k st = false → severity prev = severity st.
Proof.
  intros Hprev. rewrite should_publish_Some, (bool_decide_eq_false_2 (state prev = _)) by by apply Hprev.
  cbn. intros [_ Hs]%orb_false_iff. by apply bool_decide_eq_false, dec_stable in Hs.
Qed.

Lemma latest_recorded k st c k' :
  get_latest_status (recorded k st c) k' = if decide (k = k') then Some st else get_latest_status c k'.
Proof. unfold get_latest_status. cbn. rewrite lookup_insert. by case_decide. Qed.

(** A message about another alarm. *)
Lemma coordinator_other now m c c' outs k :
  other_command k m → coordinator_handle true now (CeUser m) c = Ret (Ok tt, c', outs) →
  get_latest_status c' k = get_latest_status c k.
Proof.
  intros Hm Hrun. destruct m as [sn|st|k' a u cf]; cbn in Hm; co_cases; try done;
    try (by rewrite latest_recorded, decide_False);
    exact (eq_trans (latest_recorded k' _ c k) (decide_False _ _ Hm)).
Qed.

(** A report. *)
Lemma coordinator_report now st c c' outs :
  not_bypassed (get_latest_status c (key_from_status st)) → state st ≠ State.Bypassed →
  coordinator_handle true now (CeAutomated (AutomatedUpdate st)) c = Ret (Ok tt, c', outs) →
  not_bypassed (get_latest_status c' (key_from_status st)) ∧
  severity <$> get_latest_status c' (key_from_status st) = Some (severity st).
Proof.
  intros Hprev Hst Hrun. cbn [coordinator_handle handle_message] in Hrun.
  rewrite handle_automated_update_run in Hrun. cbn zeta in Hrun.
  destruct (should_publish _ _ _) eqn:Hpub.
  - assert (E : get_latest_status c' (key_from_status st) = Some st).
    { destruct (speculative_state c !! _); unfold job_sent in Hrun; simplify_eq;
        by rewrite latest_recorded, decide_True. }
    rewrite E. split; [by intros st' [= <-]|done].
  - simplify_eq. destruct (get_latest_status c' _) as [prev|]; [|done].
    split; [done|]. cbn. f_equal. by eapply refused_severity.
Qed.
End severity.

Section tracking.
Context `{UnicodeTables} `{ProtoEnums} `{StatusJsonLaws} {DQ DK : Type} `{Countable DK}.
Context `{!DelayQueue DQ DK} `{!DelayQueueLaws DQ DK} `{ChronoLaws}.
Implicit Types s : System DQ DK.

(** The latest status of an alarm has the severity of the last report handled. *)
Definition tracks (k : Key) s (reports : list Status) : Prop :=
  not_bypassed (get_latest_status (sys_co s) k) ∧
  ∀ st, last (on_key k reports) = Some st →
    severity <$> get_latest_status (sys_co s) k = Some (severity st).

Lemma tracking_step k e s s' outs reports :
  system_ok s → intents_ok s → quiet_for k e → undisturbed k s outs → tracks k s reports →
  sys_step e s = Ret (tt, s', outs) →
  tracks k s' (reports ++ handled [e]) ∧ (∀ o, o ∈ q_job_outcome s' → replaces k o = false).
Proof.
  intros Hsys Hok Hquiet [Hq Ho] Htr Hrun.
  assert (Hown : own_event e = true → handled [e] = [] →
    tracks k s' (reports ++ handled [e]) ∧ (∀ o, o ∈ q_job_outcome s' → replaces k o = false)).
  { intros He ->. destruct (latest_step k e s s' outs Hsys Hok He Hrun) as [E Hq']; [done|].
    rewrite app_nil_r. unfold tracks. by rewrite E. }
  assert (Hco : ∀ ev now, run_co (coordinator_handle true now ev) s = Ret (tt, s', outs) →
    ∃ os, coordinator_handle true now ev (sys_co s) = Ret (Ok tt, sys_co s', os) ∧
          q_job_outcome s' = q_job_outcome s).
  { intros ev now. unfold run_co.
    destruct (coordinator_handle true now ev (sys_co s)) as [[[[[]|] c] os]|]; [|done..].
    intros [= <- _]. by exists os. }
  destruct e as [now m|now m|now| | | |u i|u i| |e]; try (by apply Hown); cbn [sys_step] in Hrun.
  - destruct (Hco _ _ Hrun) as (os & Hh & Eq). split; [|by rewrite Eq].
    rewrite app_nil_r. unfold tracks. by rewrite (coordinator_other now m _ _ _ k Hquiet Hh).
  - destruct (Hco _ _ Hrun) as (os & Hh & Eq). split; [|by rewrite Eq].
    destruct Hquiet as (st & -> & Hst). cbn [handled handled_message auto_status omap list_omap].
    unfold tracks, on_key. rewrite filter_app, filter_cons, filter_nil.
    destruct (decide (key_from_status st = k)) as [Hk|Hk].
    + subst k. destruct Htr as [Hnb _].
      destruct (coordinator_report now st _ _ _ Hnb (Hst eq_refl) Hh) as [Hnb' Hsev].
      split; [done|]. intros st'. rewrite last_snoc. by intros [= <-].
    + rewrite app_nil_r. by rewrite (coordinator_other now (AutomatedUpdate st) _ _ _ k Hk Hh).
Qed.

Lemma tracking_run k es s s' outs reports :
  system_ok s → intents_ok s → (id_counter (sys_co s) + Z.of_nat (length es) ≤ u64_max)%Z →
  Forall (quiet_for k) es → undisturbed k s outs → tracks k s reports →
  sys_run es s = Ret (tt, s', outs) → tracks k s' (reports ++ handled es).
Proof.
  revert s outs reports. induction es as [|e es IH]; intros s outs reports Hsys Hok Hlen Hquiet Hund Htr Hrun.
  { cbn in Hrun. injection Hrun as <- _. by rewrite app_nil_r. }
  apply Forall_cons in Hquiet as [He Hquiet]. cbn in Hrun, Hlen.
  destruct (sys_step_ok e s Hsys) as (s1 & o1 & Hstep & Hsys1). rewrite Hstep in Hrun.
  destruct (sys_run es s1) as [[[[] s2] o2]|] eqn:Hrest; [|done]. injection Hrun as <- <-.
  destruct (sys_step_intents e s s1 o1 Hsys Hok) as [Hok1 Hc]; [lia|done|].
  destruct Hund as [Hq Ho].
  destruct (tracking_step k e s s1 o1 reports Hsys Hok He) as [Htr1 Hq1]; [|done|done|].
  { split; [done|]. intros o Hin. apply Ho, elem_of_app. by left. }
  change (e :: es) with ([e] ++ es). rewrite handled_app, app_assoc.
  apply (IH s1 o2); try done; [lia|]. split; [done|]. intros o Hin. apply Ho, elem_of_app. by right.
Qed.
End tracking.

(** ** From the first report to the confirmed state *)

Section reports.
Context `{UnicodeTables} `{ProtoEnums} `{StatusJsonLaws} {M : Type} `{!RingMap M, !RingMapLaws M}.
Context {DQ DK : Type} `{Countable DK} `{!DelayQueue DQ DK} `{!DelayQueueLaws DQ DK} `{ChronoLaws}.
Implicit Types v : Service M DQ DK.

(** A message of an operator that is not about an alarm. *)
Definition elsewhere (k : Key) (m : DomainInput) : Prop :=
  match m with
  | UserUpdate k' _ _ _ => names k k' = false
  | AutomatedUpdate _ => False
  | SnapshotRequest _ => True
  end.

(** A report that leaves the bypass to the operators: it neither says that the alarm is
    bypassed nor asks for a wake-up. *)
Definition plain_report (k : Key) (st : Status) : Prop :=
  names k (key_from_status st) = true → state st ≠ State.Bypassed ∧ wake st = None.

(** The commands of the operators are about other alarms, and every report is plain. *)
Definition untouched (k : Key) (e : SvEvent) : Prop :=
  match e with
  | EvUser m => elsewhere k m
  | EvIngress (InCheck _ st) => plain_report k st
  | _ => True
  end.

(** Messages of the operators with a property, and what the coordinator handles then. *)
Definition sends (P : DomainInput → Prop) (e : SvEvent) : Prop :=
  match e with EvUser m => P m | _ => True end.

Definition expected_message (P : DomainInput → Prop) (e : SysEvent) : Prop :=
  match e with
  | SyUser _ m => P m
  | SyAutomated _ m => is_Some (auto_status m)
  | _ => True
  end.

Definition inboxes_ok (P : DomainInput → Prop) v : Prop :=
  Forall P (queued (sv_user v)) ∧
  Forall (λ m, is_Some (auto_status m)) (queued (coordinator_tx (sv_ingress v))).

Lemma names_self k : names k k = true.
Proof. unfold names. by rewrite is_key_eq. Qed.

Lemma elsewhere_other k m : elsewhere k m → other_command k m.
Proof. destruct m as [|st|k' a u cf]; cbn; [done..|]. intros Hn ->. by rewrite names_self in Hn. Qed.

Lemma elsewhere_plain k m : elsewhere k m → plain_message k m.
Proof. by destruct m. Qed.

Lemma ingress_only_automated e (s s' : Ingress M) outs :
  IngressStep s e s' outs → Forall (λ m, is_Some (auto_status m)) (omap queued_message outs).
Proof.
  destruct 1 as [i st m Hi Hm ->|i st Hi Hm|i k st Hi [Ha Hroom]|i k st Hi Ha
    |i k st Hi Ha Hfull|i k st now m Hi ->|Hd Hp|now k st m Hd Hpop|now Hd Hpop
    |st Hd [Ha Hroom]|st Hd Ha| |e]; cbn; repeat constructor; try by eexists.
  destruct (entered_at _); cbn; constructor.
Qed.

(** The queue of the commands, in a step. *)
Lemma service_step_user e v v' outs :
  service_step e v = Ret (tt, v', outs) →
  (∃ m, e = EvUser m ∧ queued (sv_user v') ⊆ queued (sv_user v) ++ [m] ∧ sys_event_of e v = []) ∨
  (queued (sv_user v') ⊆ queued (sv_user v) ∧
   ∀ now m, SyUser now m ∈ sys_event_of e v → m ∈ queued (sv_user v)).
Proof.
  intros Hrun.
  assert (Hsame : sv_user v' = sv_user v → (∀ now m, SyUser now m ∉ sys_event_of e v) →
    queued (sv_user v') ⊆ queued (sv_user v) ∧
    ∀ now m, SyUser now m ∈ sys_event_of e v → m ∈ queued (sv_user v)).
  { intros -> Hno. split; [done|]. intros now m Hin. by destruct (Hno now m). }
  destruct e as [e|m|now| |u i|u i| |e|t]; cbn [service_step] in Hrun;
    [right; apply Hsame|left|right|right; apply Hsame..];
    try (intros now' m'; cbn [sys_event_of]; repeat case_match; set_solver).
  - destruct (ingress_step e (sv_ingress v)) as [[[[] g] io]|]; destruct e; try done; by injection Hrun as <- _.
  - exists m. split; [done|]. split; [|done]. rewrite user_try_send_spec in Hrun.
    repeat case_match; simplify_eq; cbn; set_solver.
  - clear Hsame. cbn [sys_event_of]. destruct (out_co v); [|injection Hrun as <- _; set_solver].
    unfold coordinator_select, co_inbox, job_port_rx, poll_recv in *. cbn in *.
    destruct (q_job_outcome (sv_core v)) as [|o rest]; cbn in *;
      [destruct (queued (sv_user v)) as [|m rest] eqn:Hu; cbn in *;
       [destruct (queued (coordinator_tx (sv_ingress v))) as [|m rest]; cbn in *|]|];
      [injection Hrun as <- _; rewrite ?Hu; set_solver|..];
      apply start_co_Ret in Hrun as (c & l' & ->); cbn;
      (split; [first [apply list_subseteq_nil|by apply list_subseteq_cons|done]|]);
      intros now' m' Hin%list_elem_of_singleton; simplify_eq; by left.
  - repeat case_match; first [by injection Hrun as <- _ | by apply start_wf_Ret in Hrun as (? & ? & ->)].
  - destruct (out_sz v); [|by injection Hrun as <- _].
    destruct (poll_recv _) as [[inp rx]| |]; try (by injection Hrun as <- _).
    by apply start_sz_Ret in Hrun as (? & ? & ->).
  - destruct (out_sz v); [|by injection Hrun as <- _]. by apply start_sz_Ret in Hrun as (? & ? & ->).
  - destruct (out_pe v); [|by injection Hrun as <- _].
    destruct (poll_recv _) as [[inp rx]| |]; by injection Hrun as <- _.
  - destruct (out_pe v); [|by injection Hrun as <- _].
    destruct e; try (by injection Hrun as <- _);
      (destruct (engine_ready _ _); [by apply start_pe_Ret in Hrun as (? & ? & ->)|by injection Hrun as <- _]).
  - destruct t; cbn [send_step] in Hrun; repeat case_match; by injection Hrun as <- _.
Qed.

Lemma service_step_messages P e v v' outs :
  inboxes_ok P v → sends P e → service_step e v = Ret (tt, v', outs) →
  inboxes_ok P v' ∧ Forall (expected_message P) (sys_event_of e v).
Proof.
  intros [Hu Ha] He Hstep. pose proof (service_step_user e v v' outs Hstep) as Huser.
  pose proof (service_step_ingress e v v' outs Hstep) as Hin. rewrite !Forall_forall in Hu. split; [split|].
  - apply Forall_forall. intros m Hm. destruct Huser as [(m' & -> & Hsub & _)|[Hsub _]].
    + apply Hsub, elem_of_app in Hm as [Hm| ->%list_elem_of_singleton]; [by apply Hu|exact He].
    + by apply Hu, Hsub.
  - destruct Hin as [(ie & io & -> & Hne & _ & Hin)|[(now & m & rest & _ & _ & Hm & Hm' & _)|(_ & _ & Hin)]].
    + apply ingress_step_inv in Hin. rewrite (ingress_fifo _ _ _ _ Hin Hne). apply Forall_app.
      split; [done|by eapply ingress_only_automated].
    + rewrite Hm'. rewrite Hm in Ha. by apply Forall_cons in Ha as [_ Ha].
    + by rewrite Hin.
  - apply Forall_forall. intros se Hse. destruct se as [now m|now m|now| | | |u i|u i| |pe]; try done; cbn.
    + destruct Huser as [(m' & _ & _ & Hev)|[_ Huser]]; [rewrite Hev in Hse; set_solver|].
      by apply Hu, (Huser now).
    + destruct Hin as [(ie & io & _ & _ & Hev & _)|[(now' & m' & rest & Hev & _ & Hm & _)|(Hev & _)]].
      * rewrite Hev in Hse. by apply not_elem_of_nil in Hse.
      * rewrite Hev in Hse. apply list_elem_of_singleton in Hse as [= _ <-].
        rewrite Hm in Ha. by apply Forall_cons in Ha as [Ha _].
      * assert (Hm : m ∈ omap handled_message (sys_event_of e v))
          by (apply list_elem_of_omap; by eexists). rewrite Hev in Hm. by apply not_elem_of_nil in Hm.
Qed.

Lemma service_run_messages P es v v' outs :
  inboxes_ok P v → Forall (sends P) es → service_run es v = Ret (tt, v', outs) →
  Forall (expected_message P) (sys_events es v).
Proof.
  revert v outs. induction es as [|e es IH]; intros v outs Hv Hes Hrun; cbn; [constructor|].
  apply Forall_cons in Hes as [He Hes]. cbn in Hrun.
  destruct (service_step e v) as [[[[] v1] o1]|] eqn:Hstep; [|done].
  destruct (service_run es v1) as [[[[] v2] o2]|] eqn:Hrest; [|done]. injection Hrun as <- _.
  destruct (service_step_messages P e v v1 o1 Hv He Hstep) as [Hv1 Hev].
  apply Forall_app. split; [done|]. by eapply IH.
Qed.

Lemma inboxes_ok_start P queue_config hydrated v0 :
  service_start queue_config hydrated = Ret v0 → inboxes_ok P v0.
Proof. intros (a & u & j & p & z & _ & _ & _ & _ & _ & ->)%service_start_Ret. by split. Qed.

Lemma reported_plain es k st :
  Forall (untouched k) es → st ∈ es ≫= reported_by → plain_report k st.
Proof.
  intros Hun Hin. apply list_elem_of_bind in Hin as (e & Hin & He).
  rewrite Forall_forall in Hun. specialize (Hun e He). destruct e as [[]| | | | | | | |];
    try by apply not_elem_of_nil in Hin. by apply list_elem_of_singleton in Hin as ->.
Qed.

Lemma drained_quiescent v :
  drained v → in_flight (sys_pe (sv_core v)) = [] → completed_batch (sys_pe (sv_core v)) = [] →
  quiescent (service_system v).
Proof.
  intros (Ho & E1 & E2 & E3 & E4 & E5 & E6 & _) E7 E8.
  pose proof (Ho TCoordinator) as O1. pose proof (Ho TWorkflow) as O2.
  pose proof (Ho TSnooze) as O3. pose proof (Ho TPublish) as O4. cbn in O1, O2, O3, O4.
  apply fmap_nil_inv in O1, O2, O3, O4. unfold quiescent, service_system. cbn.
  by rewrite O1, O2, O3, O4, E1, E2, E3, E4, E5, E6.
Qed.

(** Nothing is left to do: no message is waiting anywhere, no attempt and no batch is
    under way, nothing is retained in overload, and the task that reports is idle. *)
Definition at_rest (i : nat) v : Prop :=
  drained v ∧ in_flight (sys_pe (sv_core v)) = [] ∧ completed_batch (sys_pe (sv_core v)) = [] ∧
  backlog (sv_ingress v) = [] ∧ sending (sv_ingress v) = [] ∧ senders (sv_ingress v) i = SendIdle.

(** The reports handled in a run: of each alarm, some of those made in the same order,
    and at rest the last of them. *)
Lemma handled_history owner queue_config hydrated v0 es v outs k :
  service_start queue_config hydrated = Ret v0 → service_run es v0 = Ret (tt, v, outs) →
  well_reported owner es v0 →
  follows (on_key k (handled (sys_events es v0) ++
                     omap auto_status (queued (coordinator_tx (sv_ingress v)))) ++
           on_key k (parked (sv_ingress v)) ++
           on_key k (progress (senders (sv_ingress v) (owner k))))
    (on_key k (es ≫= reported_by)).
Proof.
  intros (a & u & j & p & z & _ & _ & _ & _ & _ & ->)%service_start_Ret Hrun Hwell.
  set (v0 := mkService _ _ _ _ _ _ _ _) in *.
  assert (Hnew : ingress_history owner a [] (sv_ingress v0) []) by apply ingress_history_new.
  destruct (service_ingress_history owner a es v0 v outs [] [] [] Hnew
    eq_refl Hwell Hrun) as (io & Hh & Hd).
  destruct (history_invariants _ _ _ _ _ Hh) as (_ & _ & _ & Hf). specialize (Hf k).
  unfold trail in Hf. by rewrite <- Hd in Hf.
Qed.

Lemma handled_reported owner queue_config hydrated v0 es v outs st :
  service_start queue_config hydrated = Ret v0 → service_run es v0 = Ret (tt, v, outs) →
  well_reported owner es v0 → st ∈ handled (sys_events es v0) → st ∈ es ≫= reported_by.
Proof.
  intros Hstart Hrun Hwell Hin.
  pose proof (handled_history _ _ _ _ _ _ _ (key_from_status st) Hstart Hrun Hwell) as [Hsub _].
  apply sublist_subseteq in Hsub.
  assert (Hin' : st ∈ on_key (key_from_status st) (es ≫= reported_by)).
  { apply Hsub. rewrite elem_of_app. left. apply list_elem_of_filter. split; [done|].
    rewrite elem_of_app. by left. }
  by apply list_elem_of_filter in Hin' as [_ ?].
Qed.

Lemma handled_follows owner queue_config hydrated v0 es v outs k :
  service_start queue_config hydrated = Ret v0 → service_run es v0 = Ret (tt, v, outs) →
  well_reported owner es v0 → at_rest (owner k) v →
  follows (on_key k (handled (sys_events es v0))) (on_key k (es ≫= reported_by)).
Proof.
  intros Hstart Hrun Hwell ((_ & _ & _ & _ & _ & _ & _ & _ & Hq) & _ & _ & Hb & Hs & Hi).
  pose proof (handled_history _ _ _ _ _ _ _ k Hstart Hrun Hwell) as Hf.
  unfold parked in Hf. rewrite Hb, Hs, Hi, Hq in Hf. cbn in Hf. by rewrite !app_nil_r in Hf.
Qed.

(** What an untouched alarm asks of the events that the coordinator handles. *)
Lemma handled_events owner queue_config hydrated v0 es v outs k :
  service_start queue_config hydrated = Ret v0 → service_run es v0 = Ret (tt, v, outs) →
  well_reported owner es v0 → Forall (untouched k) es →
  Forall (quiet_for k) (sys_events es v0) ∧ Forall (plain_step k) (sys_events es v0).
Proof.
  intros Hstart Hrun Hwell Hun.
  pose proof (λ st, handled_reported _ _ _ _ _ _ _ st Hstart Hrun Hwell) as Hrep.
  assert (Hsends : Forall (sends (elsewhere k)) es) by (eapply Forall_impl; [exact Hun|by intros []]).
  pose proof (service_run_messages _ es v0 v outs (inboxes_ok_start _ _ _ _ Hstart) Hsends Hrun) as Hmsgs.
  rewrite Forall_forall in Hmsgs. rewrite !Forall_forall.
  assert (Hplain : ∀ now st, SyAutomated now (AutomatedUpdate st) ∈ sys_events es v0 → plain_report k st).
  { intros now st He. apply (reported_plain es k st Hun), Hrep. unfold handled.
    apply list_elem_of_omap. exists (AutomatedUpdate st). split; [|done].
    apply list_elem_of_omap. by eexists. }
  split; intros e He; specialize (Hmsgs e He); destruct e as [now m|now m| | | | | | | |]; try done;
    cbn in Hmsgs |- *.
  - by apply elsewhere_other.
  - destruct Hmsgs as [st Hst]. destruct m; simplify_eq/=. eexists. split; [done|]. intros Hk.
    apply (Hplain now _ He). rewrite Hk. apply names_self.
  - by apply elsewhere_plain.
  - destruct Hmsgs as [st Hst]. destruct m; simplify_eq/=. intros Hn. by apply (Hplain now _ He).
Qed.

(** What [last_report_confirmed] and the theorem about the stream reader rest on. *)
Lemma last_report owner queue_config hydrated v0 es v outs k st :
  (Z.of_nat (length es) < u64_max)%Z →
  service_start queue_config hydrated = Ret v0 → service_run es v0 = Ret (tt, v, outs) →
  well_reported owner es v0 → Forall (untouched k) es →
  not_bypassed (hydrated !! k) →
  at_rest (owner k) v →
  last (on_key k (es ≫= reported_by)) = Some st →
  ∃ st' id, confirmed_state (sys_co (sv_core v)) !! k = Some (st', id) ∧ severity st' = severity st.
Proof.
  intros Hlen Hstart Hrun Hwell Hun Hhyd Hrest Hlast.
  pose proof (handled_follows _ _ _ _ _ _ _ k Hstart Hrun Hwell Hrest) as [_ Hlasts].
  destruct (handled_events _ _ _ _ _ _ _ k Hstart Hrun Hwell Hun) as [Hquiet Hplain].
  pose proof (service_run_ok _ _ _ _ _ _ Hstart Hrun) as Hok.
  apply service_start_Ret in Hstart as (a & u & j & p & z & _ & _ & _ & _ & _ & ->).
  set (v0 := mkService _ _ _ _ _ _ _ _) in *.
  destruct (service_run_simulates es v0 (system_new_ok hydrated)) as (v' & outs' & souts & Hrun' & Hsim & _).
  rewrite Hrun in Hrun'. injection Hrun' as <- <-.
  assert (Hsys : sys_run (sys_events es v0) (system_new hydrated) = Ret (tt, service_system v, souts))
    by exact Hsim.
  assert (Hbound : (id_counter (sys_co (system_new (DQ:=DQ) (DK:=DK) hydrated)) +
                    Z.of_nat (length (sys_events es v0)) ≤ u64_max)%Z).
  { cbn. unfold INITIAL_PUBLISH_ID. pose proof (sys_events_length es v0). lia. }
  pose proof (sys_run_quiet k _ _ _ _ (system_new_ok hydrated) (intents_ok_new hydrated) Hbound
    (quiet_new k hydrated) Hplain Hsys) as Hund.
  destruct (tracking_run k (sys_events es v0) (system_new hydrated) (service_system v) souts []
    (system_new_ok hydrated) (intents_ok_new hydrated) Hbound Hquiet Hund) as [_ Htr]; [|exact Hsys|].
  - split; [|done]. unfold get_latest_status. cbn. rewrite lookup_empty, lookup_fmap.
    destruct (hydrated !! k); [|done]. cbn. by intros st' [= <-]; apply Hhyd.
  - rewrite Hlast in Hlasts. specialize (Htr st Hlasts). destruct Hrest as (Hdr & Hf & Hc & _).
    destruct (quiescent_empty _ Hok (drained_quiescent v Hdr Hf Hc)) as [Hspec _].
    unfold get_latest_status in Htr. rewrite Hspec, lookup_empty in Htr.
    destruct (confirmed_state (sys_co (service_system v)) !! k) as [[st' id]|] eqn:E; [|done].
    exists st', id. split; [exact E|]. by injection Htr.
Qed.
(** C25 The last report of an alarm is confirmed: in every run of the bounded service with
    fewer than 2^64 events, in which every key is reported by one task and the broker,
    the timers and the order of all tasks are arbitrary, if no operator commands the
    alarm, its reports leave the bypass to the operators and it does not start as
    bypassed, then once the service is at rest (nothing retained, queued, in flight or
    batched) its confirmed severity is that of the last report sent for it; reports that
    were coalesced in overload, refused by the policy, overtaken or retried make no
    difference, and no timer ever concerns the alarm. *)
Theorem last_report_confirmed owner queue_config hydrated v0 es v outs k st :
  (Z.of_nat (length es) < u64_max)%Z →
  service_start queue_config hydrated = Ret v0 → service_run es v0 = Ret (tt, v, outs) →
  well_reported owner es v0 → Forall (untouched k) es →
  not_bypassed (hydrated !! k) →
  at_rest (owner k) v →
  last (on_key k (es ≫= reported_by)) = Some st →
  ∃ st' id, confirmed_state (sys_co (sv_core v)) !! k = Some (st', id) ∧ severity st' = severity st.
Proof. exact (last_report owner queue_config hydrated v0 es v outs k st). Qed.
End reports.

(** ** A sample *)

#[local] Existing Instance ascii_only_tables.
#[local] Existing Instance sample_enums.
#[local] Existing Instance sample_json.
#[local] Existing Instance sample_json_laws.

(** A job from the channel of the jobs to the confirmed state. *)
Definition carried (now : Z) : list SvEvent :=
  publish_alarm 0 ++ complete_alarm ++ turn TPublish (EvAttempt PeTick) 1 ++
  turn TWorkflow EvWorkflow 2 ++ turn TCoordinator (EvCoordinator now) 1.

Definition epics_alarm (sev : Severity.t) : Status := sy_status State.Alarmed Source.Epics sev.

(** A report that reaches the coordinator. *)
Definition reported (st : Status) (now : Z) : list SvEvent :=
  [EvIngress (InCheck 0 st); EvIngress (InTry 0)] ++ turn TCoordinator (EvCoordinator now) 1.

(** A second report arrives while the job of the first one is in flight. *)
Definition both_reported (st1 st2 : Status) : list SvEvent :=
  reported st1 1 ++ reported st2 2 ++ carried 9 ++ carried 19.

Definition two_reports : list SvEvent :=
  both_reported (epics_alarm Severity.Low) (epics_alarm Severity.High).

Definition two_reports_v : SampleService := service_after two_reports one_each_service.

Fixpoint well_reported_b (owner : Key → nat) (es : list SvEvent) (v : SampleService) : bool :=
  match es with
  | [] => true
  | e :: es' =>
      match e with
      | EvIngress (InCheck i st) =>
          match senders (sv_ingress v) i with SendIdle => owner (key_from_status st) =? i | _ => false end
      | _ => true
      end && match service_step e v with Ret (_, v', _) => well_reported_b owner es' v' | Panic _ => true end
  end.

Lemma well_reported_b_true owner es v : well_reported_b owner es v = true → well_reported owner es v.
Proof.
  revert v. induction es as [|e es IH]; intros v; cbn [well_reported_b well_reported]; [done|].
  intros [He Hes]%andb_true_iff. split.
  - intros i st ->. destruct (senders _ i); try done. by apply Nat.eqb_eq in He.
  - destruct (service_step e v) as [[[[] v'] o]|]; [by apply IH|done].
Qed.

Lemma two_reports_run : ∃ outs, service_run two_reports one_each_service = Ret (tt, two_reports_v, outs).
Proof.
  assert (Hb : match service_run two_reports one_each_service with Ret _ => true | Panic _ => false end = true)
    by (vm_compute; reflexivity).
  unfold two_reports_v, service_after.
  destruct (service_run two_reports one_each_service) as [[[[] v] outs]|]; [by exists outs|done].
Qed.

Lemma two_reports_rest : at_rest 0 two_reports_v.
Proof. repeat split; try (intros []); vm_compute; reflexivity. Qed.

(** Both reports go through channels of one message; the second is confirmed. *)
Lemma last_report_confirmed_witness :
  severity (epics_alarm Severity.High) ≠ severity (epics_alarm Severity.Low) ∧
  ∃ st' id, confirmed_state (sys_co (sv_core two_reports_v)) !! sy_key Source.Epics = Some (st', id) ∧
    severity st' = severity (epics_alarm Severity.High).
Proof.
  split; [vm_compute; discriminate|]. destruct two_reports_run as [outs Hrun].
  apply (last_report_confirmed (λ _, 0) one_each ∅ one_each_service two_reports two_reports_v outs
    (sy_key Source.Epics) (epics_alarm Severity.High)).
  - vm_compute. reflexivity.
  - exact one_each_start.
  - exact Hrun.
  - apply well_reported_b_true. vm_compute. reflexivity.
  - repeat (apply Forall_cons; split; [first [exact I|intros _; split; [vm_compute; discriminate|reflexivity]]|]). apply Forall_nil_2.
  - by rewrite lookup_empty.
  - exact two_reports_rest.
  - vm_compute. reflexivity.
Defined.
