(* ===== verification/Startup.v ===== *)
(** * Start-up and the stream reader ([main.rs], [adapters/redis.rs])

    The configuration that the environment gives, what [main] does up to the point where
    the service is running, and the task that reads the Redis stream.  The variables are
    read through [rust-env-var-lib], whose typed access is a parameter; the proxy, the
    Kafka snapshot and the streams are functions of the addresses that the code passes. *)

From S2P Require Export Reports.
From S2P Require Import Hydration Redis Grpc.
From stdpp Require Import list.

Local Open Scope string_scope.

(** ** Environment variables *)

(** The process environment. *)
Definition Env : Type := gmap string string.

(** [env_var::get(name).or(default)] at the types the code uses, and [or_else]. *)
Class EnvVar := {
  env_or_usize : Env → string → Z → Z;
  env_or_u64 : Env → string → Z → Z;
  env_or_else : Env → string → string → string;
}.

(** A default is used for a variable that is not set; the numbers are unsigned and have
    64 bits. *)
Class EnvVarLaws `{EnvVar} := {
  env_or_usize_absent env name d : env !! name = None → env_or_usize env name d = d;
  env_or_u64_absent env name d : env !! name = None → env_or_u64 env name d = d;
  env_or_else_absent env name d : env !! name = None → env_or_else env name d = d;
  env_or_usize_range env name d :
    (0 ≤ d ≤ u64_max)%Z → (0 ≤ env_or_usize env name d ≤ u64_max)%Z;
  env_or_u64_range env name d :
    (0 ≤ d ≤ u64_max)%Z → (0 ≤ env_or_u64 env name d ≤ u64_max)%Z;
}.

Section config.
Context `{EnvVar}.
Implicit Types env : Env.

Definition CONTROLS_KAFKA_HOST : string := "CONTROLS_KAFKA_HOST".
Definition DEFAULT_CONTROLS_HOST : string :=
  "kafka-cluster-kafka-bootstrap.kafka.svc.adkube.fnal.gov:9092".
Definition CONTROLS_ALARMS_TOPIC : string := "CONTROLS_ALARMS_TOPIC".
Definition DEFAULT_CONTROLS_TOPIC : string := "alarms".
Definition AEOLUS_PROXY_HOST : string := "AEOLUS_PROXY_HOST".
Definition DEFAULT_AEOLUS_PROXY : string :=
  "https://alarms-bridge-acnet.controls-appdev.svc.adkube.fnal.gov:6802".
Definition ALARMS_AUTOMATED_QUEUE_CAPACITY : string := "ALARMS_AUTOMATED_QUEUE_CAPACITY".
Definition AUTOMATED_CAP_DEFAULT : Z := 4096.
Definition ALARMS_JOB_QUEUE_CAPACITY : string := "ALARMS_JOB_QUEUE_CAPACITY".
Definition JOB_CAP_DEFAULT : Z := 4096.
Definition ALARMS_USER_QUEUE_CAPACITY : string := "ALARMS_USER_QUEUE_CAPACITY".
Definition USER_CAP_DEFAULT : Z := 128.
Definition ALARMS_PUBLISH_QUEUE_CAPACITY : string := "ALARMS_PUBLISH_QUEUE_CAPACITY".
Definition PUBLISH_CAP_DEFAULT : Z := 4096.
Definition ALARMS_SNOOZE_QUEUE_CAPACITY : string := "ALARMS_SNOOZE_QUEUE_CAPACITY".
Definition SNOOZE_CAP_DEFAULT : Z := 128.
Definition ALARMS_METRICS_LOG_INTERVAL_SECS : string := "ALARMS_METRICS_LOG_INTERVAL_SECS".
Definition METRICS_LOG_INTERVAL_DEFAULT_SECS : Z := 30.

Definition get_aeolus_proxy_host env : string :=
  env_or_else env AEOLUS_PROXY_HOST DEFAULT_AEOLUS_PROXY.

Definition get_kafka_host env : string :=
  env_or_else env CONTROLS_KAFKA_HOST DEFAULT_CONTROLS_HOST.

Definition get_kafka_topic env : string :=
  env_or_else env CONTROLS_ALARMS_TOPIC DEFAULT_CONTROLS_TOPIC.

(** In seconds. *)
Definition get_metrics_log_interval env : Z :=
  env_or_u64 env ALARMS_METRICS_LOG_INTERVAL_SECS METRICS_LOG_INTERVAL_DEFAULT_SECS.

Definition get_queue_sizes env : QueueCapacityConfig :=
  {| cfg_automated := env_or_usize env ALARMS_AUTOMATED_QUEUE_CAPACITY AUTOMATED_CAP_DEFAULT;
     cfg_user := env_or_usize env ALARMS_USER_QUEUE_CAPACITY USER_CAP_DEFAULT;
     cfg_job := env_or_usize env ALARMS_JOB_QUEUE_CAPACITY JOB_CAP_DEFAULT;
     cfg_publish := env_or_usize env ALARMS_PUBLISH_QUEUE_CAPACITY PUBLISH_CAP_DEFAULT;
     cfg_snooze := env_or_usize env ALARMS_SNOOZE_QUEUE_CAPACITY SNOOZE_CAP_DEFAULT |}.

Lemma queue_sizes_usize `{!EnvVarLaws} env : usize_config (get_queue_sizes env).
Proof. repeat split; apply env_or_usize_range; done. Qed.
End config.

(** ** The stream reader *)

Section reader.
Context `{UnicodeTables} `{ProtoEnums} `{EnvVar}.
Implicit Types env : Env.

Definition ALARM_REDIS_HOST : string := "EPICS_ALARM_REDIS_HOST".
Definition ALARM_REDIS_PORT : string := "EPICS_ALARM_REDIS_PORT".
Definition ALARM_REDIS_STREAM_KEY : string := "EPICS_ALARM_REDIS_KEY".
Definition DEFAULT_REDIS_HOST : string := "127.0.0.1".
Definition DEFAULT_REDIS_PORT : string := "6379".
Definition DEFAULT_STREAM_KEY : string := "acorn:alarms".

(** What a connection yields until it ends: the entries, each with the second at which
    it is handled, for the URL and the stream that are asked for. *)
Definition Connection : Type := string → string → list (Z * gmap string string).

(** [start_redis_reader]: the statuses it passes to [send_automated_update]. *)
Definition start_redis_reader env (connect : Connection) : list Status :=
  let host := env_or_else env ALARM_REDIS_HOST DEFAULT_REDIS_HOST in
  let port := env_or_else env ALARM_REDIS_PORT DEFAULT_REDIS_PORT in
  let stream_key := env_or_else env ALARM_REDIS_STREAM_KEY DEFAULT_STREAM_KEY in
  let url := "redis://" +:+ host +:+ ":" +:+ port +:+ "/" in
  run_alarm_stream (connect url stream_key).

(** The task of [main] that reads the stream and connects again whenever it ends. *)
Definition reader_loop env (connections : list Connection) : list Status :=
  connections ≫= start_redis_reader env.
End reader.

(** ** [main] *)

(** What runs when [main] waits for the signal to stop. *)
Record Started (M DQ DK : Type) `{Countable DK} := mkStarted {
  service : Service M DQ DK;
  publisher : string * string;       (** the Kafka host and topic it publishes to *)
  grpc_service : GrpcState;
  metrics : MetricsInner;
  metrics_log_interval : Z;
}.
Arguments mkStarted {M DQ DK _ _}.
Arguments service {M DQ DK _ _} s.
Arguments publisher {M DQ DK _ _} s.
Arguments grpc_service {M DQ DK _ _} s.
Arguments metrics {M DQ DK _ _} s.
Arguments metrics_log_interval {M DQ DK _ _} s.

(** What the outside answers during start-up: the proxy at its address, the snapshot of a
    topic, which of the two fails first, and the order in which a map is iterated. *)
Record World := mkWorld {
  acnet_proxy : string → result (result (list Status) string) string;
  kafka_snapshot : string → string → result (list SnapshotRecord) string;
  acnet_first : bool;
  map_order : gmap Key Status → list (Key * Status);
}.

Section main.
Context `{UnicodeTables} `{ProtoEnums} `{StatusJson} `{EnvVar} {M : Type} `{!RingMap M}.
Context {DQ DK : Type} `{Countable DK} `{!DelayQueue DQ DK}.
Implicit Types env : Env.

(** What [main] loads before anything is started. *)
Definition main_hydration env (w : World) : result (gmap Key Status) HydrationError :=
  load_startup_hydration
    (load_acnet_hydration (acnet_proxy w (get_aeolus_proxy_host env)))
    (load_epics_hydration (kafka_snapshot w (get_kafka_host env) (get_kafka_topic env)))
    (acnet_first w) (map_order w).

(** [main] up to its [ctrl_c]: the error it returns, or what is running. *)
Definition main env (w : World) : outcome (result (Started M DQ DK) HydrationError) :=
  match main_hydration env w with
  | Err e => Ret (Err e)
  | Ok hydrated_statuses =>
      let queue_config := get_queue_sizes env in
      match service_start queue_config hydrated_statuses with
      | Panic msg => Panic msg
      | Ret v =>
          Ret (Ok {| service := v;
                     publisher := (get_kafka_host env, get_kafka_topic env);
                     grpc_service := {| user_channel := sv_user v; next_oneshot := 0 |};
                     metrics := metrics_new queue_config;
                     metrics_log_interval := get_metrics_log_interval env |})
      end
  end.

(** [log_metrics_periodically], up to some tick: [ticks] are the metrics at the times the
    interval fires, and the result is the snapshots that are logged.  [time::interval]
    panics on an interval of zero, which stops this task only. *)
Fixpoint log_ticks (ticks : list MetricsInner) : list MetricsSnapshot :=
  match ticks with
  | [] => []
  | metrics :: ticks' => metrics_snapshot metrics :: log_ticks ticks'
  end.

Definition log_metrics_periodically (ticks : list MetricsInner) (interval : Z) :
    outcome (list MetricsSnapshot) :=
  if (interval =? 0)%Z then Panic "`period` must be non-zero." else Ret (log_ticks ticks).
End main.

(** ** What start-up does *)

(** The five capacities. *)
Definition capacities (queue_config : QueueCapacityConfig) : list Z :=
  [cfg_automated queue_config; cfg_user queue_config; cfg_job queue_config;
   cfg_publish queue_config; cfg_snooze queue_config].

Definition unusable (cap : Z) : Prop := (cap = 0 ∨ MAX_PERMITS < cap)%Z.

Section startup.
Context `{UnicodeTables} `{ProtoEnums} `{StatusJson} `{EnvVarLaws} {M : Type} `{!RingMap M}.
Context {DQ DK : Type} `{Countable DK} `{!DelayQueue DQ DK}.
Implicit Types env : Env.
Implicit Types st : Started M DQ DK.

Lemma mpsc_channel_usable cap :
  (0 ≤ cap)%Z → (unusable cap ∧ ∃ msg, mpsc_channel cap = Panic msg) ∨
                (¬ unusable cap ∧ mpsc_channel cap = Ret (Z.to_nat cap)).
Proof.
  intros Hpos. unfold unusable, mpsc_channel. destruct (Z.eqb_spec cap 0); [left; eauto|].
  destruct (Z.leb_spec cap MAX_PERMITS); [right|left; eauto]. split; [lia|done].
Qed.

(** [runtime::start] panics on an unusable capacity and otherwise gives every channel
    the capacity that is configured. *)
Lemma service_start_spec queue_config hydrated :
  usize_config queue_config →
  (Exists unusable (capacities queue_config) ∧
   ∃ msg, service_start (M:=M) (DQ:=DQ) (DK:=DK) queue_config hydrated = Panic msg) ∨
  (¬ Exists unusable (capacities queue_config) ∧
   service_start (M:=M) (DQ:=DQ) (DK:=DK) queue_config hydrated =
   Ret (mkService (mkCapacities (Z.to_nat (cfg_job queue_config))
                     (Z.to_nat (cfg_publish queue_config)) (Z.to_nat (cfg_snooze queue_config)))
          (system_new hydrated)
          (ingress_new (mkBchan [] (Z.to_nat (cfg_automated queue_config)) true))
          (mkBchan [] (Z.to_nat (cfg_user queue_config)) true) [] [] [] [])).
Proof.
  intros (Ha & Hu & Hj & Hp & Hz). unfold capacities, service_start.
  rewrite !Exists_cons, Exists_nil.
  destruct (mpsc_channel_usable _ (proj1 Ha)) as [(? & ? & ->)|[? ->]];
    [left; split; [tauto|eauto]|];
  destruct (mpsc_channel_usable _ (proj1 Hu)) as [(? & ? & ->)|[? ->]];
    [left; split; [tauto|eauto]|];
  destruct (mpsc_channel_usable _ (proj1 Hj)) as [(? & ? & ->)|[? ->]];
    [left; split; [tauto|eauto]|];
  destruct (mpsc_channel_usable _ (proj1 Hp)) as [(? & ? & ->)|[? ->]];
    [left; split; [tauto|eauto]|];
  destruct (mpsc_channel_usable _ (proj1 Hz)) as [(? & ? & ->)|[? ->]];
    [left; split; [tauto|eauto]|].
  right. split; [tauto|done].
Qed.

(** The capacities in use are those that the metrics report. *)
Definition reported_capacities st : Prop :=
  let reported := queue_configured_capacity (metrics st) in
  Z.of_nat (capacity (coordinator_tx (sv_ingress (service st)))) = cap_automated reported ∧
  Z.of_nat (capacity (sv_user (service st))) = cap_user reported ∧
  Z.of_nat (job_capacity (sv_caps (service st))) = cap_job reported ∧
  Z.of_nat (publish_capacity (sv_caps (service st))) = cap_publish reported ∧
  Z.of_nat (snooze_capacity (sv_caps (service st))) = cap_snooze reported.

(** Without any of the variables set, the capacities are the documented defaults, and the
    service starts whenever the hydration succeeds. *)
Lemma default_capacities_start env w hydrated :
  Forall (λ name, env !! name = None)
    [ALARMS_AUTOMATED_QUEUE_CAPACITY; ALARMS_USER_QUEUE_CAPACITY; ALARMS_JOB_QUEUE_CAPACITY;
     ALARMS_PUBLISH_QUEUE_CAPACITY; ALARMS_SNOOZE_QUEUE_CAPACITY] →
  main_hydration env w = Ok hydrated →
  get_queue_sizes env = mkQueueCapacityConfig 4096 128 4096 4096 128 ∧
  ∃ st, main (M:=M) (DQ:=DQ) (DK:=DK) env w = Ret (Ok st).
Proof.
  rewrite !Forall_cons. intros (Ha & Hu & Hj & Hp & Hz & _) Hh.
  assert (E : get_queue_sizes env = mkQueueCapacityConfig 4096 128 4096 4096 128).
  { unfold get_queue_sizes. by rewrite !env_or_usize_absent. }
  split; [done|]. unfold main. rewrite Hh.
  destruct (service_start_spec (get_queue_sizes env) hydrated (queue_sizes_usize env))
    as [(Hbad & _)|[_ ->]]; [|by eexists].
  exfalso. rewrite E in Hbad. unfold capacities in Hbad. cbn in Hbad.
  rewrite !Exists_cons, Exists_nil in Hbad. unfold unusable in Hbad.
  assert (4096 < MAX_PERMITS)%Z by done. lia.
Qed.

(** C15 What [main] does with any environment and any answers of the outside: it returns
    the error of the hydration exactly when the hydration fails, and starts nothing then;
    it panics exactly when a configured capacity is 0 or more than a channel can hold;
    otherwise the service runs, quiescent, with the union of the two hydrated maps, which
    are disjoint, as its confirmed state and the baseline id, with channels of the
    capacities that the metrics report, and it publishes to the host and topic that its
    own bypasses were restored from. *)
Theorem startup_spec env w :
  (∀ m, map_order w m ≡ₚ map_to_list m) →
  match main (M:=M) (DQ:=DQ) (DK:=DK) env w with
  | Ret (Err e) => main_hydration env w = Err e
  | Panic _ =>
      (∃ hydrated, main_hydration env w = Ok hydrated) ∧
      Exists unusable (capacities (get_queue_sizes env))
  | Ret (Ok st) =>
      Forall (λ cap, ¬ unusable cap) (capacities (get_queue_sizes env)) ∧
      ∃ acnet epics,
        load_acnet_hydration (acnet_proxy w (get_aeolus_proxy_host env)) = Ok acnet ∧
        load_epics_hydration (kafka_snapshot w (publisher st).1 (publisher st).2) = Ok epics ∧
        acnet ##ₘ epics ∧
        confirmed_state (sys_co (sv_core (service st))) =
          (λ status, (status, DEFAULT_HYDRATED_ID)) <$> (acnet ∪ epics) ∧
        quiescent (service_system (service st)) ∧ reported_capacities st
  end.
Proof.
  intros Horder. unfold main.
  destruct (main_hydration env w) as [hydrated|e] eqn:Hh; [|done].
  unfold main_hydration in Hh.
  pose proof (startup_hydration_spec
    (load_acnet_hydration (acnet_proxy w (get_aeolus_proxy_host env)))
    (load_epics_hydration (kafka_snapshot w (get_kafka_host env) (get_kafka_topic env)))
    (acnet_first w) (map_order w) Horder) as Hspec.
  rewrite Hh in Hspec.
  pose proof (queue_sizes_usize env) as Husize.
  destruct (service_start_spec (get_queue_sizes env) hydrated Husize)
    as [(Hbad & msg & ->)|[Hgood ->]]; [by split; [eauto|]|].
  split; [by apply List.Forall_Exists_neg|].
  destruct (load_acnet_hydration _) as [acnet|], (load_epics_hydration _) as [epics|]; try done.
  destruct Hspec as [Hdisj ->]. exists acnet, epics. destruct Husize as (Ha & Hu & Hj & Hp & Hz).
  unfold reported_capacities. cbn [metrics service metrics_new queue_configured_capacity].
  cbn in Ha, Hu, Hj, Hp, Hz. split_and!; try done; cbn; lia.
Qed.
End startup.

(** ** From an entry of the stream to the confirmed state *)

(** An operator's message in a run, if there is one, is not about the alarm. *)
Definition commands_elsewhere `{UnicodeTables} `{ProtoEnums} (k : Key) (e : SvEvent) : Prop :=
  match e with EvUser m => elsewhere k m | _ => True end.

Section stream.
Context `{UnicodeTables} `{ProtoLaws} `{StatusJsonLaws} `{EnvVar}.
Context {M : Type} `{!RingMap M, !RingMapLaws M}.
Context {DQ DK : Type} `{Countable DK} `{!DelayQueue DQ DK} `{!DelayQueueLaws DQ DK} `{ChronoLaws}.
Implicit Types env : Env.
Implicit Types st : Started M DQ DK.

(** No entry of the stream touches the bypass of an alarm. *)
Lemma stream_status_plain utc_now entries :
  state (build_status_from_redis utc_now entries) ≠ State.Bypassed ∧
  wake (build_status_from_redis utc_now entries) = None.
Proof.
  split.
  - destruct (build_status_fields utc_now entries) as (_ & Hsev & _).
    destruct (parse_severity _) as [sv s] eqn:Hp. injection Hsev as _ Hst.
    unfold state. rewrite Hst, state_roundtrip. unfold parse_severity in Hp.
    repeat case_match; by simplify_eq.
  - unfold build_status_from_redis. by repeat case_match.
Qed.

Lemma reader_status env connections status :
  status ∈ reader_loop env connections →
  ∃ utc_now entries, status = build_status_from_redis utc_now entries.
Proof.
  intros Hin. apply list_elem_of_bind in Hin as (connect & Hin & _).
  unfold start_redis_reader in Hin. revert Hin.
  match goal with |- _ ∈ run_alarm_stream ?l → _ => generalize l end.
  intros l. induction l as [|[now e] l IH]; cbn [run_alarm_stream]; [by intros ?%not_elem_of_nil|].
  destruct (string_is_empty _); [done|]. intros [->|Hin]%elem_of_cons; eauto.
Qed.

Lemma reader_untouched env connections k es :
  es ≫= reported_by = reader_loop env connections → Forall (commands_elsewhere k) es →
  Forall (untouched k) es.
Proof.
  intros Hes. rewrite !Forall_forall. intros Hc e He. specialize (Hc e He).
  destruct e as [[i status| | | | | |]| | | | | | | |]; try done.
  assert (Hin : status ∈ reader_loop env connections).
  { rewrite <- Hes. apply list_elem_of_bind. exists (EvIngress (InCheck i status)).
    split; [by apply list_elem_of_singleton|done]. }
  apply reader_status in Hin as (now & entries & ->). intros _. apply stream_status_plain.
Qed.

(** C2 From the stream to the confirmed state, with everything the service consists of:
    after [main] has started it with any environment, let the reader task pass on the
    entries of any sequence of connections, and let the broker, the timers, the
    operators' commands for other alarms and the order of the tasks be arbitrary, over
    fewer than 2^64 events; once nothing is left to do, the confirmed severity of an
    alarm that did not start as bypassed is that of the last entry of the stream that
    names it. *)
Theorem stream_reaches_confirmed env w st connections es v outs k status :
  (Z.of_nat (length es) < u64_max)%Z →
  main env w = Ret (Ok st) → service_run es (service st) = Ret (tt, v, outs) →
  es ≫= reported_by = reader_loop env connections → well_reported (λ _, 0%nat) es (service st) →
  Forall (commands_elsewhere k) es →
  not_bypassed (fst <$> confirmed_state (sys_co (sv_core (service st))) !! k) →
  at_rest 0 v →
  last (on_key k (reader_loop env connections)) = Some status →
  ∃ confirmed id, confirmed_state (sys_co (sv_core v)) !! k = Some (confirmed, id) ∧
    severity confirmed = severity status.
Proof.
  intros Hlen Hmain Hrun Hes Hwell Hcmd Hnb Hrest Hlast. unfold main in Hmain.
  destruct (main_hydration env w) as [hydrated|]; [|done].
  destruct (service_start _ hydrated) as [v0|] eqn:Hstart; simplify_eq. cbn in Hrun, Hwell, Hnb.
  apply (last_report (λ _, 0%nat) (get_queue_sizes env) hydrated v0 es v outs k); try done.
  - by eapply reader_untouched.
  - apply service_start_Ret in Hstart as (a & u & j & p & z & _ & _ & _ & _ & _ & ->).
    cbn in Hnb. rewrite lookup_fmap in Hnb. by destruct (hydrated !! k).
  - by rewrite Hes.
Qed.
End stream.

(** ** Samples *)

#[local] Existing Instance ascii_only_tables.
#[local] Existing Instance sample_enums.
#[local] Existing Instance sample_laws.
#[local] Existing Instance sample_json.
#[local] Existing Instance sample_json_laws.

(** Decimal numbers, and the default for anything else. *)
Definition sample_number (env : Env) (name : string) (d : Z) : Z :=
  match env !! name ≫= parse_i64 with
  | Some n => if ((0 <=? n) && (n <=? u64_max))%Z then n else d
  | None => d
  end.

Lemma sample_number_absent env name d : env !! name = None → sample_number env name d = d.
Proof. unfold sample_number. by intros ->. Qed.

Lemma sample_number_range env name d :
  (0 ≤ d ≤ u64_max)%Z → (0 ≤ sample_number env name d ≤ u64_max)%Z.
Proof.
  intros Hd. unfold sample_number. destruct (_ ≫= _) as [n|]; [|done].
  destruct ((0 <=? n) && _)%Z eqn:E; [|done]. apply andb_true_iff in E as [??]. lia.
Qed.

#[local] Instance sample_env_var : EnvVar := {
  env_or_usize := sample_number;
  env_or_u64 := sample_number;
  env_or_else env name d := default d (env !! name);
}.

#[local] Instance sample_env_var_laws : EnvVarLaws.
Proof.
  split; [exact sample_number_absent|exact sample_number_absent| |
    exact sample_number_range|exact sample_number_range].
  intros env name d E. cbn. by rewrite E.
Qed.

(** Channels of one message. *)
Definition one_each_env : Env :=
  {[ ALARMS_AUTOMATED_QUEUE_CAPACITY := "1"; ALARMS_USER_QUEUE_CAPACITY := "1";
     ALARMS_JOB_QUEUE_CAPACITY := "1"; ALARMS_PUBLISH_QUEUE_CAPACITY := "1";
     ALARMS_SNOOZE_QUEUE_CAPACITY := "1" ]}.

(** Nothing to hydrate. *)
Definition empty_world : World :=
  {| acnet_proxy := λ _, Ok (Ok []); kafka_snapshot := λ _ _, Ok []; acnet_first := true;
     map_order := map_to_list |}.

Definition SampleStarted : Type := Started ListMap (gmap nat (Key * Z)) nat.

Definition one_each_started : SampleStarted :=
  {| service := one_each_service;
     publisher := (DEFAULT_CONTROLS_HOST, DEFAULT_CONTROLS_TOPIC);
     grpc_service := {| user_channel := sv_user one_each_service; next_oneshot := 0 |};
     metrics := metrics_new one_each;
     metrics_log_interval := METRICS_LOG_INTERVAL_DEFAULT_SECS |}.

Lemma one_each_main : main one_each_env empty_world = Ret (Ok one_each_started).
Proof. reflexivity. Qed.

Lemma startup_spec_witness :
  reported_capacities one_each_started ∧
  confirmed_state (sys_co (sv_core (service one_each_started))) = ∅.
Proof.
  pose proof (startup_spec (M:=ListMap) (DQ:=gmap nat (Key * Z)) (DK:=nat) one_each_env empty_world
    (λ m, reflexivity _)) as Hspec.
  rewrite one_each_main in Hspec. destruct Hspec as (_ & acnet & epics & _ & _ & _ & _ & _ & Hcap).
  split; [exact Hcap|reflexivity].
Defined.

(** Two entries of the stream for one alarm. *)
Definition stream_entry (sev : string) : gmap string string :=
  {[ "device" := "g:dev"; "source" := "epics"; "severity" := sev; "timestamp" := "1700000000" ]}.

Definition one_connection : Connection :=
  λ url key, if bool_decide (url = "redis://127.0.0.1:6379/" ∧ key = "acorn:alarms")
             then [(5%Z, stream_entry "minor"); (6%Z, stream_entry "major")] else [].

Definition streamed (sev : string) : Status := build_status_from_redis 5 (stream_entry sev).

Definition stream_run : list SvEvent := both_reported (streamed "minor") (streamed "major").

Definition stream_v : SampleService := service_after stream_run one_each_service.

Lemma stream_runs : ∃ outs, service_run stream_run one_each_service = Ret (tt, stream_v, outs).
Proof.
  assert (Hb : match service_run stream_run one_each_service with Ret _ => true | Panic _ => false end = true)
    by (vm_compute; reflexivity).
  unfold stream_v, service_after.
  destruct (service_run stream_run one_each_service) as [[[[] v] outs]|]; [by exists outs|done].
Qed.

Lemma stream_rest : at_rest 0 stream_v.
Proof. repeat split; try (intros []); vm_compute; reflexivity. Qed.

(** The second entry overtakes the first one's job, and is confirmed. *)
Lemma stream_reaches_confirmed_witness :
  ∃ confirmed id, confirmed_state (sys_co (sv_core stream_v)) !! sy_key Source.Epics = Some (confirmed, id) ∧
    severity confirmed = severity (streamed "major").
Proof.
  destruct stream_runs as [outs Hrun].
  apply (stream_reaches_confirmed one_each_env empty_world one_each_started [one_connection]
    stream_run stream_v outs (sy_key Source.Epics) (streamed "major")).
  - vm_compute. reflexivity.
  - exact one_each_main.
  - exact Hrun.
  - vm_compute. reflexivity.
  - apply well_reported_b_true. vm_compute. reflexivity.
  - repeat (apply Forall_cons; split; [exact I|]). apply Forall_nil_2.
  - done.
  - exact stream_rest.
  - vm_compute. reflexivity.
Defined.
