(* ===== verification/Topic.v ===== *)
(** * The published topic and the state of the service

    The topic that the publish engine writes is the durable form of the confirmed
    state.  A history of the service carries the messages the broker has stored; its
    invariant follows the status of each job through the tasks.  It shows that a
    settled alarm's confirmed status is its last message on the topic, and that a
    restart from the topic restores the EPICS bypasses. *)

From S2P Require Export CoordinatorProps SystemProps Hydration.
From stdpp Require Import list.

(** ** The topic *)

(** The messages stored by the broker, oldest first, as they were handed over. *)
Abbreviation Topic := (list (Key * Status)).

(** The last status published for a key. *)
Definition last_for (k : Key) (t : Topic) : option Status :=
  snd <$> last (filter (λ p, p.1 = k) t).

Lemma last_for_snoc k t p :
  last_for k (t ++ [p]) = if decide (p.1 = k) then Some p.2 else last_for k t.
Proof.
  unfold last_for. rewrite filter_app, filter_cons, filter_nil.
  case_decide; [by rewrite last_snoc|by rewrite app_nil_r].
Qed.

Definition attempt_message (a : PublishAttempt) : Key * Status :=
  (request_key (request a), pd_status (details_ref (request a))).

(** What can be required of the key under which a status is recorded: it holds of
    reports, of the commands for well-formed keys, and of what a rollback makes up. *)
Class Filing `{UnicodeTables} `{ProtoEnums} (P : Key → Status → Prop) : Prop := {
  filing_wf k st : P k st → key_wf k;
  filing_reported st : P (key_from_status st) st;
  filing_commanded now k a u : key_wf k → P k (build_user_status now k a u);
  filing_unconfirmed k : key_wf k → P k (unconfirmed_status k);
}.

Definition filed_entries `{UnicodeTables} `{ProtoEnums} (P : Key → Status → Prop)
    (c : AlarmStateCoordinator) : Prop :=
  ∀ k st id, speculative_state c !! k = Some (st, id) ∨ confirmed_state c !! k = Some (st, id) → P k st.

(** What a status, recorded under a key, must satisfy for a replay to understand it. *)
Definition entry_ok `{UnicodeTables} `{ProtoEnums} (k : Key) (st : Status) : Prop :=
  key_wf k ∧ key_source k = source_of st.

Abbreviation entries_ok := (filed_entries entry_ok).

(** Commands name keys that were parsed from text. *)
Definition message_ok `{UnicodeTables} (m : DomainInput) : Prop :=
  match m with UserUpdate k _ _ _ => key_wf k | _ => True end.

Definition sys_event_ok `{UnicodeTables} (e : SysEvent) : Prop :=
  match e with SyUser _ m | SyAutomated _ m => message_ok m | _ => True end.

Section entry.
Context `{UnicodeLaws} `{ProtoLaws}.

#[export] Instance entry_ok_filing : Filing entry_ok.
Proof.
  split.
  - by intros k st [].
  - intros st. split; [apply key_from_status_wf|done].
  - intros now k a u Hk. split; [done|]. unfold source_of. cbn. by rewrite source_roundtrip.
  - intros k Hk. split; [done|]. unfold source_of. cbn. by rewrite source_roundtrip.
Qed.
End entry.

(** ** The coordinator *)

Section coordinator.
Context `{UnicodeLaws} `{ProtoLaws} {P : Key → Status → Prop} `{!Filing P}.
Implicit Types c : AlarmStateCoordinator.

Definition co_event_ok (P : Key → Status → Prop) (e : CoEvent) : Prop :=
  match e with
  | CeUser m | CeAutomated m => message_ok m
  | CeOutcome (Committed j) => P (job_key j) (job_status j)
  | _ => True
  end.

Lemma filed_rollback c k : filed_entries P c → key_wf k → P k (fst (rollback_entry c k)).
Proof.
  intros Hc Hk. unfold rollback_entry. destruct (confirmed_state c !! k) as [[st id]|] eqn:E; cbn.
  - apply (Hc k st id). by right.
  - by apply filing_unconfirmed.
Qed.

Lemma filed_recorded k st c : filed_entries P c → P k st → filed_entries P (recorded k st c).
Proof.
  intros Hc Hk k' st' id'. cbn. rewrite lookup_insert. case_decide; [|by apply Hc].
  subst. intros [[= <- <-]|]; [done|]. by apply (Hc k' st' id'); right.
Qed.

Lemma filed_set_pending f c : filed_entries P c → filed_entries P (set_pending f c).
Proof. done. Qed.

Lemma filed_delete k c : filed_entries P c → filed_entries P (set_speculative (delete k) c).
Proof.
  intros Hc k' st' id'. cbn. rewrite lookup_delete. case_decide; [|by apply Hc].
  intros [|]; [done|]. by apply (Hc k' st' id'); right.
Qed.

Lemma filed_insert k e c :
  filed_entries P c → P k (fst e) → filed_entries P (set_speculative (insert k e) c).
Proof.
  intros Hc Hk k' st' id'. cbn. rewrite lookup_insert. case_decide; [|by apply Hc].
  intros [[= ->]|]; [by subst|]. by apply (Hc k' st' id'); right.
Qed.

Lemma filed_commit k e c :
  filed_entries P c → P k (fst e) → filed_entries P (set_confirmed (insert k e) c).
Proof.
  intros Hc Hk k' st' id'. cbn. rewrite lookup_insert. case_decide; [|by apply Hc].
  intros [|[= ->]]; [|by subst]. by apply (Hc k' st' id'); left.
Qed.

Lemma filed_wf c k st id : filed_entries P c → speculative_state c !! k = Some (st, id) → key_wf k.
Proof. intros Hc Hk. apply (filing_wf k st), (Hc k st id). by left. Qed.

Lemma filed_reported st : P (key_from_status st) st.
Proof. apply filing_reported. Qed.

Lemma filed_commanded now k a u : key_wf k → P k (build_user_status now k a u).
Proof. apply filing_commanded. Qed.

#[local] Hint Resolve filed_reported filed_commanded filed_rollback filed_recorded
  filed_set_pending filed_delete filed_insert filed_commit : core.

(** Statuses and keys stay consistent through every handler. *)
Lemma coordinator_entries now e c r c' outs :
  filed_entries P c → co_event_ok P e → coordinator_handle true now e c = Ret (r, c', outs) →
  filed_entries P c'.
Proof.
  intros Hc He Hrun.
  destruct e as [[j|j|k]|[s|st|k a us cf]|[s|st|k a us cf]|]; cbn in He; co_cases; try by eauto 6.
  apply filed_insert; [done|]. apply filed_rollback; [done|].
  by eapply filed_wf.
Qed.

(** So does every job that is sent. *)
Lemma coordinator_job_entries now e c r c' outs j :
  filed_entries P c → co_event_ok P e → coordinator_handle true now e c = Ret (r, c', outs) →
  j ∈ jobs_in outs → P (job_key j) (job_status j).
Proof.
  intros Hc He Hrun Hj.
  assert (Hspec : ∀ k st id, speculative_state c !! k = Some (st, id) → P k st).
  { intros k st id Hk. apply (Hc k st id). by left. }
  destruct e as [[j'|j'|k]|[s|st|k a us cf]|[s|st|k a us cf]|]; co_cases;
    autorewrite with outs in Hj; first [by apply not_elem_of_nil in Hj|apply list_elem_of_singleton in Hj as ->];
    cbn in *; eauto using filed_wf.
Qed.

End coordinator.

Section settles.
Context `{UnicodeLaws} `{ProtoLaws}.
Implicit Types c : AlarmStateCoordinator.

(** A key becomes settled only by the commit of its job, and stays as it is while it
    is settled. *)
Lemma coordinator_settles now e c r c' outs k :
  coordinator_handle true now e c = Ret (r, c', outs) → speculative_state c' !! k = None →
  speculative_state c !! k = None ∧ confirmed_state c' !! k = confirmed_state c !! k ∨
  ∃ j, e = CeOutcome (Committed j) ∧ job_key j = k ∧
       confirmed_state c' !! k = Some (job_status j, job_id j).
Proof.
  intros Hrun Hk.
  destruct e as [[j|j|k']|[s|st|k' a us cf]|[s|st|k' a us cf]|]; co_cases; try (by left);
    cbn in Hk |- *; rewrite ?lookup_insert, ?lookup_delete in *;
    repeat case_decide; subst; try done; try (by left); right; by exists j.
Qed.
End settles.

(** ** The workflow handler *)

Section workflow.
Implicit Types w : WorkflowHandler.

(** Jobs keep their status from their arrival to their outcome: what is tracked after
    an event was tracked before or just arrived, a request carries the status of the
    tracked job, and a job is committed only for a success reported for its key. *)
Definition wf_flow w (e : WfEvent) w' (outs : list WfOut) : Prop :=
  (∀ k t', jobs w' !! k = Some t' →
     (∃ t, jobs w !! k = Some t ∧ tracked t = tracked t') ∨ e = WeNewJob (tracked t')) ∧
  (∀ p, p ∈ omap wf_publish outs →
     ∃ t, jobs w !! request_key p = Some t ∧ pd_status (details_ref p) = job_status (tracked t)) ∧
  (∀ j, Committed j ∈ omap wf_outcome outs →
     ∃ o t, e = WePublishOutcome o ∧ SymOk (job_key j) ∈ results o ∧
            jobs w !! job_key j = Some t ∧ tracked t = j).

Lemma publish_of_status j : pd_status (details_ref (publish_of j)) = job_status j.
Proof. unfold publish_of. by destruct (user_initiated j). Qed.

(** One result, and a list of them. *)
Lemma result_flow r j j' :
  Committed j ∈ omap wf_outcome (result_outs all_alive r j') → j = j' ∧ r = SymOk (into_inner r).
Proof.
  unfold result_outs. destruct r as [k|k]; cbn; intros Hj%list_elem_of_singleton; [|done].
  by simplify_eq.
Qed.

Lemma batch_flow b w w' outs :
  workflow_ok w → for_each (dispatch_publish_result all_alive) b w = Ret (tt, w', outs) →
  jobs w' ⊆ jobs w ∧ omap wf_publish outs = [] ∧
  ∀ j, Committed j ∈ omap wf_outcome outs →
    SymOk (job_key j) ∈ b ∧ ∃ t, jobs w !! job_key j = Some t ∧ tracked t = j.
Proof.
  revert w outs. induction b as [|r b IH]; intros w outs Hw Hrun.
  { injection Hrun as <- <-. split; [done|]. split; [done|]. by intros j ?%elem_of_nil. }
  cbn [for_each] in Hrun. unfold mbind, eff_bind in Hrun.
  destruct (jobs w !! into_inner r) as [t|] eqn:Ht;
    [|by rewrite dispatch_publish_result_panic in Hrun].
  erewrite dispatch_publish_result_run in Hrun by done.
  destruct (for_each _ b _) as [[[[] w2] o2]|] eqn:Hb; [|done]. simplify_eq.
  destruct (IH _ _ (workflow_ok_delete _ _ Hw) Hb) as (Hsub & Hpub & Hcom).
  destruct (result_outs_rest r (tracked t)) as [_ Hp]. split_and!.
  - etrans; [exact Hsub|]. apply delete_subseteq.
  - by rewrite omap_app, Hp, Hpub.
  - intros j. rewrite omap_app. intros [[-> Hr]%result_flow|Hj]%elem_of_app.
    + destruct (Hw _ _ Ht) as [Hkey _]. rewrite Hkey, Hr. split; [by left|]. exists t. by rewrite <- Hr.
    + destruct (Hcom j Hj) as (Hin & t' & Ht' & <-). split; [by right|].
      exists t'. split; [|done]. cbn in Ht'. apply lookup_delete_Some in Ht'. by destruct Ht'.
Qed.

(** A job that leaves without a commit. *)
Lemma delete_flow e w k outs :
  omap wf_publish outs = [] → (∀ j, Committed j ∉ omap wf_outcome outs) →
  wf_flow w e {| jobs := delete k (jobs w) |} outs.
Proof.
  intros Hp Hc. split_and!.
  - intros k' t'. cbn. intros [_ Hk]%lookup_delete_Some. left. by exists t'.
  - rewrite Hp. by intros p ?%elem_of_nil.
  - intros j Hj. by destruct (Hc j).
Qed.

Lemma snooze_flow r w w' outs :
  workflow_ok w → workflow_dispatch all_alive (WeSnoozeOutcome r) w = Ret (tt, w', outs) →
  wf_flow w (WeSnoozeOutcome r) w' outs.
Proof.
  intros Hw Hrun. destruct r as [k|k|k]; cbn [workflow_dispatch handle_snooze_result] in Hrun.
  - injection Hrun as <- <-. split_and!; [left; by exists t'| |]; intros ? Hin; cbn in Hin.
    + by apply elem_of_nil in Hin.
    + by apply list_elem_of_singleton in Hin.
  - destruct (jobs w !! k) as [t|] eqn:Ht; [|by rewrite send_failed_panic in Hrun].
    erewrite send_failed_run in Hrun by done. injection Hrun as <- <-.
    apply delete_flow; [done|]. intros j Hj. by apply list_elem_of_singleton in Hj.
  - destruct (jobs w !! k) as [[j n]|] eqn:Ht; [|by rewrite advance_panic in Hrun].
    destruct (Hw _ _ Ht) as [Hkey [Hn|Hn]]; cbn in Hkey, Hn; subst n.
    + erewrite advance_second_run in Hrun by done. injection Hrun as <- <-. split_and!.
      * intros k' t'. cbn. intros [[<- <-]|[_ Hk]]%lookup_insert_Some; left; eauto.
      * intros p Hp%list_elem_of_singleton. subst p. rewrite request_key_publish_of, Hkey.
        eexists. split; [done|]. apply publish_of_status.
      * by intros ? ?%elem_of_nil.
    + erewrite advance_overrun_run in Hrun by done. injection Hrun as <- <-.
      apply delete_flow; [done|]. intros j' Hj. by apply list_elem_of_singleton in Hj.
Qed.

Lemma workflow_flow e w w' outs :
  workflow_ok w → workflow_dispatch all_alive e w = Ret (tt, w', outs) → wf_flow w e w' outs.
Proof.
  intros Hw Hrun. destruct e as [o|r|j].
  - assert (Hb : for_each (dispatch_publish_result all_alive) (results o) w = Ret (tt, w', outs)).
    { destruct o as [b|r]; cbn in Hrun |- *; [done|]. eff_unfold. rewrite Hrun. by rewrite app_nil_r. }
    destruct (batch_flow _ _ _ _ Hw Hb) as (Hsub & Hpub & Hcom). split_and!.
    + intros k t' Hk. left. exists t'. split; [|done]. by eapply lookup_weaken.
    + rewrite Hpub. by intros p ?%elem_of_nil.
    + intros j Hj. destruct (Hcom j Hj) as (Hin & t & Ht & Hj'). by exists o, t.
  - by apply snooze_flow.
  - cbn [workflow_dispatch] in Hrun. rewrite handle_new_job_run in Hrun.
    injection Hrun as <- <-. split_and!.
    + intros k t'. cbn. intros [[_ <-]|[_ Hk]]%lookup_insert_Some; [by right|left]. by exists t'.
    + by intros p ?%elem_of_nil.
    + by intros j' ?%elem_of_nil.
Qed.
End workflow.

(** ** The publish engine *)

Lemma elem_of_insert_inv {A} (l : list A) i x y : y ∈ <[i := x]> l → y = x ∨ y ∈ l.
Proof.
  intros [j Hj]%list_elem_of_lookup. apply list_lookup_insert_Some in Hj as [(_ & -> & _)|[_ Hj]];
    [by left|right]. by eapply list_elem_of_lookup_2.
Qed.

(** Attempts keep their request, and the only new result is that of a final attempt. *)
Lemma engine_flow `{StatusJson} e s s' outs :
  engine_step true s e s' outs →
  (∀ d', d' ∈ in_flight s' →
     (∃ d, d ∈ in_flight s ∧ request (attempt d') = request (attempt d)) ∨
     e = PeRecv (request (attempt d'))) ∧
  (∀ r, r ∈ completed_batch s' ++ (omap pe_outcome outs ≫= results) →
     r ∈ completed_batch s ∨
     ∃ i a delivered latency, e = PeComplete i delivered latency ∧
       in_flight s !! i = Some (mkDelivery a true) ∧ r = final_result delivered a).
Proof.
  assert (Hdel : ∀ i d', d' ∈ delete i (in_flight s) →
    ∃ d, d ∈ in_flight s ∧ request (attempt d') = request (attempt d)).
  { intros i d' Hin. exists d'. split; [|done]. revert Hin. apply sublist_subseteq, sublist_delete. }
  intros Hstep. destruct Hstep as [i a body Hi _|i a latency Hi Hlt|i a d latency Hi _ Hu
    |i a d latency Hi _ Hu _|i a d latency Hi _ Hu _|Hb|Hb|p]; cbn -[insert];
    (split; [intros d' Hd'|intros r Hr]); rewrite ?app_nil_r in *; eauto 10.
  - left. apply elem_of_insert_inv in Hd' as [->|Hd']; [|by exists d'].
    exists (mkDelivery a false). split; [by eapply list_elem_of_lookup_2|done].
  - apply elem_of_app in Hd' as [Hd'|Hd'%list_elem_of_singleton]; [by eauto|]. subst d'. left.
    eexists. split; [by eapply list_elem_of_lookup_2|done].
  - apply elem_of_app in Hr as [Hr|Hr%list_elem_of_singleton]; [by left|]. right. by eauto 10.
  - apply elem_of_app in Hr as [Hr|Hr%list_elem_of_singleton]; [by left|]. right. by eauto 10.
  - apply elem_of_app in Hr as [Hr|Hr%list_elem_of_singleton]; [by left|]. right. by eauto 10.
  - apply elem_of_app in Hd' as [Hd'|Hd'%list_elem_of_singleton]; [by eauto|]. subst d'. by right.
Qed.

(** ** Histories with the topic *)

Section history.
Context `{UnicodeLaws} `{ProtoLaws} `{StatusJsonLaws} {DQ DK : Type} `{Countable DK}.
Context `{!DelayQueue DQ DK} `{!DelayQueueLaws DQ DK} `{ChronoLaws}.
Implicit Types s : System DQ DK.

(** What the broker stores in a step: the message of an attempt that it reports as
    delivered, and, if [kept], of one that it reports as failed. *)
Definition stored (kept : bool) (e : SysEvent) s : Topic :=
  match e with
  | SyAttempt (PeComplete i delivered _) =>
      match in_flight (sys_pe s) !! i with
      | Some d =>
          if started d && (delivered || kept) then [attempt_message (attempt d)] else []
      | None => []
      end
  | _ => []
  end.

Inductive sys_history (hydrated : gmap Key Status) : System DQ DK → Topic → Prop :=
| history_new : sys_history hydrated (system_new hydrated) []
| history_step s topic e kept s' outs :
    sys_history hydrated s topic → sys_event_ok e → sys_step e s = Ret (tt, s', outs) →
    sys_history hydrated s' (topic ++ stored kept e s).

(** The requests and the results on their way. *)
Definition requests s : list Publish := q_publish s ++ (request ∘ attempt <$> in_flight (sys_pe s)).
Definition results_pending s : list PublishResult :=
  completed_batch (sys_pe s) ++ (q_publish_outcome s ≫= results).

(** A request carries the status of the job it is for. *)
Definition carries s (p : Publish) : Prop :=
  ∀ t, jobs (sys_wf s) !! request_key p = Some t → pd_status (details_ref p) = job_status (tracked t).

(** The status of the job of a key was stored last. *)
Definition stored_last s (topic : Topic) (k : Key) : Prop :=
  ∀ t, jobs (sys_wf s) !! k = Some t → last_for k topic = Some (job_status (tracked t)).

(** The confirmed status of a settled key is its last message, or the one it was
    hydrated with. *)
Definition settled_as (hydrated : gmap Key Status) (c : AlarmStateCoordinator) (topic : Topic)
    (k : Key) : Prop :=
  match last_for k topic with
  | Some st => ∃ id, confirmed_state c !! k = Some (st, id)
  | None => fst <$> confirmed_state c !! k = hydrated !! k
  end.

Record topic_ok hydrated s (topic : Topic) : Prop := {
  to_entries : entries_ok (sys_co s);
  to_queued j : j ∈ q_job s → entry_ok (job_key j) (job_status j);
  to_tracked k t : jobs (sys_wf s) !! k = Some t → entry_ok k (job_status (tracked t));
  to_committed j : Committed j ∈ q_job_outcome s →
    entry_ok (job_key j) (job_status j) ∧ last_for (job_key j) topic = Some (job_status j);
  to_request p : p ∈ requests s → carries s p;
  to_result k : SymOk k ∈ results_pending s → stored_last s topic k;
  to_settled k : speculative_state (sys_co s) !! k = None →
    settled_as hydrated (sys_co s) topic k;
  to_topic : Forall (λ p, key_wf p.1 ∧ key_source p.1 = source_of p.2) topic;
}.

Lemma topic_ok_new hydrated :
  (∀ k st, hydrated !! k = Some st → entry_ok k st) → topic_ok hydrated (system_new hydrated) [].
Proof.
  intros Hh. split; cbn.
  - intros k st id. cbn. rewrite lookup_empty, lookup_fmap.
    destruct (hydrated !! k) eqn:E; cbn; intros [|]; simplify_eq. by apply Hh.
  - by intros j ?%elem_of_nil.
  - intros k t. by rewrite lookup_empty.
  - by intros j ?%elem_of_nil.
  - by intros j ?%elem_of_nil.
  - by intros k ?%elem_of_nil.
  - intros k _. unfold settled_as. cbn. rewrite lookup_fmap. by destruct (hydrated !! k).
  - done.
Qed.

(** Taking a message out of a queue, or moving a timer, loses nothing. *)
Lemma topic_ok_mono hydrated topic s s' :
  topic_ok hydrated s topic → sys_co s' = sys_co s → sys_wf s' = sys_wf s →
  q_job s' ⊆ q_job s → q_job_outcome s' ⊆ q_job_outcome s → requests s' ⊆ requests s →
  results_pending s' ⊆ results_pending s → topic_ok hydrated s' topic.
Proof.
  intros [] Eco Ewf Hj Ho Hreq Hres. split; unfold carries, stored_last in *; rewrite ?Eco, ?Ewf; auto.
Qed.

Lemma publish_traffic_alt s k :
  publish_traffic s k =
  count_by (request_about k) (requests s) + count_by (result_about k) (results_pending s).
Proof.
  unfold publish_traffic, engine_count, requests, results_pending.
  rewrite !count_by_app, count_by_bind. unfold fmap. rewrite count_by_map.
  unfold delivery_about, results_about. cbn. lia.
Qed.

Lemma request_traffic s p : p ∈ requests s → 0 < count_by (request_about (request_key p)) (requests s).
Proof. intros Hp. apply (count_by_pos _ _ p Hp), is_key_eq. Qed.

Lemma result_traffic s r :
  r ∈ results_pending s → 0 < count_by (result_about (into_inner r)) (results_pending s).
Proof. intros Hr. apply (count_by_pos _ _ r Hr), is_key_eq. Qed.

(** While an attempt is in flight, its job is the only thing under way for its key. *)
Definition alone s (k : Key) : Prop :=
  is_Some (jobs (sys_wf s) !! k) ∧ is_Some (speculative_state (sys_co s) !! k) ∧
  (∀ j, Committed j ∈ q_job_outcome s → job_key j ≠ k) ∧
  (∀ r, r ∈ results_pending s → into_inner r ≠ k).

Lemma flight_alone s d :
  system_ok s → d ∈ in_flight (sys_pe s) → alone s (request_key (request (attempt d))).
Proof.
  intros (_ & _ & Htok) Hd. unfold alone. set (k := request_key _). destruct (Htok k) as (Hjob & _ & Hpub).
  assert (Hreq : 0 < count_by (request_about k) (requests s)).
  { apply request_traffic, elem_of_app. right. by apply (list_elem_of_fmap_2 (request ∘ attempt)). }
  rewrite publish_traffic_alt in Hpub. pose proof (in_step_le 2 (jobs (sys_wf s) !! k)) as Hle.
  unfold jobs_tracked in Hjob. destruct (jobs (sys_wf s) !! k) as [t|]; [|cbn in Hpub; lia].
  pose proof (present_le (speculative_state (sys_co s) !! k)). cbn in Hjob.
  split; [by eexists|]. split; [apply present_is_Some; lia|]. split.
  - intros j Hj <-. apply (count_by_pos (outcome_about (job_key j))) in Hj; [|apply is_key_eq].
    unfold jobs_returning in Hjob. lia.
  - intros r Hr <-. apply result_traffic in Hr. lia.
Qed.

(** *** The steps of the tasks *)

Lemma co_topic hydrated topic now e s s' outs :
  topic_ok hydrated s topic → co_event_ok entry_ok e →
  (∀ j, e = CeOutcome (Committed j) → last_for (job_key j) topic = Some (job_status j)) →
  run_co (coordinator_handle true now e) s = Ret (tt, s', outs) → topic_ok hydrated s' topic.
Proof.
  intros Hok He Hcom Hrun. unfold run_co in Hrun.
  destruct (coordinator_handle true now e (sys_co s)) as [[[[[]|] c'] o]|] eqn:Hh; simplify_eq.
  pose proof (coordinator_entries _ _ _ _ _ _ (to_entries _ _ _ Hok) He Hh) as Hc'.
  destruct Hok as [Hent Hqueued Htracked Hcommitted Hrequest Hresult Hsettled Htopic].
  split; cbn; try done.
  - intros j [Hj|Hj]%elem_of_app; [by apply Hqueued|]. exact (coordinator_job_entries _ _ _ _ _ _ _ Hent He Hh Hj).
  - intros k Hk. destruct (coordinator_settles _ _ _ _ _ _ _ Hh Hk) as [[Hk0 Heq]|(j & Ej & <- & Heq)];
      unfold settled_as; rewrite Heq; [by apply Hsettled|].
    rewrite (Hcom _ Ej). by eexists.
Qed.

Lemma wf_topic hydrated topic e s s' outs :
  topic_ok hydrated s topic → workflow_ok (sys_wf s) → wf_expects (sys_wf s) e →
  (∀ j, e = WeNewJob j → entry_ok (job_key j) (job_status j) ∧ publish_traffic s (job_key j) = 0) →
  (∀ o k, e = WePublishOutcome o → SymOk k ∈ results o → stored_last s topic k) →
  run_wf (workflow_dispatch all_alive e) s = Ret (tt, s', outs) → topic_ok hydrated s' topic.
Proof.
  intros Hok Hw Hexp Hnew Hres Hrun. unfold run_wf in Hrun.
  destruct (workflow_dispatch all_alive e (sys_wf s)) as [[[[] w'] o]|] eqn:Hh; simplify_eq.
  destruct (workflow_tokens e (sys_wf s) Hw Hexp) as (w1 & o1 & Hrun & Hw' & _).
  rewrite Hh in Hrun. simplify_eq.
  destruct (workflow_flow _ _ _ _ Hw Hh) as (Hjobs & Hpub & Hcom).
  assert (Hnewkey : ∀ k t, jobs w1 !! k = Some t → e = WeNewJob (tracked t) →
    entry_ok k (job_status (tracked t)) ∧ jobs (sys_wf s) !! k = None ∧ publish_traffic s k = 0).
  { intros k t Hk Et. destruct (Hw' _ _ Hk) as [<- _]. rewrite Et in Hexp.
    destruct (Hnew _ Et). by split_and!. }
  destruct Hok as [Hent Hqueued Htracked Hcommitted Hrequest Hresult Hsettled Htopic].
  split; cbn; try done.
  - intros k t Hk. destruct (Hjobs _ _ Hk) as [(t0 & Hk0 & <-)|Et]; [by apply Htracked|].
    by destruct (Hnewkey _ _ Hk Et).
  - intros j [Hj|Hj]%elem_of_app; [by apply Hcommitted|].
    destruct (Hcom j Hj) as (o0 & t & Eo & Hin & Hk & <-).
    split; [by apply Htracked|]. by apply (Hres o0 _ Eo).
  - intros p Hp t Hk. cbn in Hk.
    assert (Hold : p ∈ requests s ∨ p ∈ omap wf_publish o1).
    { unfold requests in *. cbn in Hp. set_solver. }
    destruct (Hjobs _ _ Hk) as [(t0 & Hk0 & <-)|Et].
    + destruct Hold as [Hold|Hold]; [by apply (Hrequest p Hold)|].
      destruct (Hpub p Hold) as (t1 & Hk1 & ->). by simplify_eq.
    + destruct (Hnewkey _ _ Hk Et) as (_ & Hnone & Hz). destruct Hold as [Hold|Hold].
      * apply request_traffic in Hold. rewrite publish_traffic_alt in Hz. lia.
      * destruct (Hpub p Hold) as (t1 & Hk1 & _). congruence.
  - intros k Hk t Hkt. cbn in Hkt. destruct (Hjobs _ _ Hkt) as [(t0 & Hk0 & <-)|Et].
    + by apply (Hresult k).
    + destruct (Hnewkey _ _ Hkt Et) as (_ & _ & Hz). apply result_traffic in Hk.
      rewrite publish_traffic_alt in Hz. cbn in Hk. unfold results_pending in *. cbn in Hk. lia.
Qed.

(** Storing the message of an attempt in flight. *)
Lemma topic_ok_store hydrated s topic d :
  topic_ok hydrated s topic → alone s (request_key (request (attempt d))) →
  d ∈ in_flight (sys_pe s) →
  topic_ok hydrated s (topic ++ [attempt_message (attempt d)]) ∧
  stored_last s (topic ++ [attempt_message (attempt d)]) (request_key (request (attempt d))).
Proof.
  intros Hok ([t Ht] & [en Hen] & Hcom & Hres) Hd.
  destruct Hok as [Hent Hqueued Htracked Hcommitted Hrequest Hresult Hsettled Htopic].
  set (k := request_key (request (attempt d))) in *.
  assert (Hst : pd_status (details_ref (request (attempt d))) = job_status (tracked t)).
  { refine (Hrequest (request (attempt d)) _ t Ht). apply elem_of_app. right.
    by apply (list_elem_of_fmap_2 (request ∘ attempt)). }
  assert (Hother : ∀ k', k' ≠ k →
    last_for k' (topic ++ [attempt_message (attempt d)]) = last_for k' topic).
  { intros k' Hk'. rewrite last_for_snoc, decide_False; [done|]. intros E. by apply Hk'. }
  split.
  - split; try done.
    + intros j Hj. destruct (Hcommitted j Hj). rewrite Hother; [done|by apply Hcom].
    + intros k' Hk' t' Ht'. rewrite Hother; [by apply Hresult|]. by apply Hres in Hk'.
    + intros k' Hk'. unfold settled_as. rewrite Hother; [by apply Hsettled|]. congruence.
    + apply Forall_app. split; [done|]. apply Forall_singleton. cbn. rewrite Hst.
      by apply Htracked.
  - intros t' Ht'. rewrite last_for_snoc, decide_True by done. cbn. congruence.
Qed.

Lemma pe_topic hydrated topic e kept s s' outs :
  topic_ok hydrated s topic → engine_ready (sys_pe s) e = true →
  (∀ d, d ∈ in_flight (sys_pe s) → alone s (request_key (request (attempt d)))) →
  (∀ p, e = PeRecv p → carries s p) →
  run_pe (engine_iteration true e) s = Ret (tt, s', outs) →
  topic_ok hydrated s' (topic ++ stored kept (SyAttempt e) s).
Proof.
  intros Hok Hready Halone Hrecv Hrun. unfold run_pe in Hrun.
  destruct (engine_step_total true e (sys_pe s) Hready) as (pe' & o & Hr & Hstep).
  rewrite Hr in Hrun. simplify_eq. destruct (engine_flow _ _ _ _ Hstep) as [Hflight Hresults].
  assert (Hstored : topic_ok hydrated s (topic ++ stored kept (SyAttempt e) s) ∧
    ∀ i a latency, e = PeComplete i true latency → in_flight (sys_pe s) !! i = Some (mkDelivery a true) →
      stored_last s (topic ++ stored kept (SyAttempt e) s) (request_key (request a))).
  { destruct e as [i|i delivered latency| | |]; cbn -[attempt_message]; rewrite ?app_nil_r; try done.
    destruct (in_flight (sys_pe s) !! i) as [d|] eqn:Hi; [|rewrite app_nil_r; split; [done|intros; simplify_eq]].
    destruct (started d && (delivered || kept)) eqn:Hs.
    - pose proof (list_elem_of_lookup_2 _ _ _ Hi) as Hd.
      destruct (topic_ok_store hydrated s topic d Hok (Halone d Hd) Hd) as [? Hlast]. split; [done|].
      intros i' a lat [= <- -> <-] Ha. simplify_eq. exact Hlast.
    - rewrite app_nil_r. split; [done|]. intros i' a lat [= <- -> <-] Ha. simplify_eq. }
  destruct Hstored as [Hok' Hlast]. clear Hok.
  destruct Hok' as [Hent Hqueued Htracked Hcommitted Hrequest Hresult Hsettled Htopic].
  split; cbn -[stored]; try done.
  - intros p [Hp|Hp]%elem_of_app; [by apply Hrequest, elem_of_app; left|].
    apply list_elem_of_fmap in Hp as (d' & -> & [(d & Hd & Heq)|He]%Hflight); cbn.
    + rewrite Heq. apply Hrequest, elem_of_app. right. by apply (list_elem_of_fmap_2 (request ∘ attempt)).
    + exact (Hrecv _ He).
  - intros k Hk. cbn in Hk. unfold results_pending in Hk. cbn in Hk. rewrite bind_app in Hk.
    assert (Hcases : SymOk k ∈ q_publish_outcome s ≫= results ∨
                     SymOk k ∈ completed_batch pe' ++ (omap pe_outcome o ≫= results)) by set_solver.
    destruct Hcases as [Hq|[Hb|(i & a & delivered & latency & He & Hi & Ha)]%Hresults].
    + apply (Hresult k), elem_of_app. by right.
    + apply (Hresult k), elem_of_app. by left.
    + destruct delivered; [|done]. injection Ha as ->. by apply (Hlast i a latency).
Qed.

Lemma sz_topic hydrated topic e utc_now inst_now s s' outs :
  topic_ok hydrated s topic →
  run_sz (scheduler_iteration true utc_now inst_now e) s = Ret (tt, s', outs) →
  topic_ok hydrated s' topic.
Proof.
  intros Hok Hrun. unfold run_sz in Hrun.
  destruct (scheduler_iteration _ _ _ _ _) as [[[go z] o]|]; [|done]. simplify_eq.
  by apply (topic_ok_mono hydrated topic s).
Qed.

Lemma stored_idle kept e s : engine_ready (sys_pe s) e = false → stored kept (SyAttempt e) s = [].
Proof.
  destruct e as [|i delivered latency| | |]; cbn; try done.
  destruct (in_flight _ !! i) as [d|]; [|done]. by intros ->.
Qed.

Lemma attempt_topic hydrated topic e kept s s' outs :
  topic_ok hydrated s topic → system_ok s →
  sys_step (SyAttempt e) s = Ret (tt, s', outs) →
  topic_ok hydrated s' (topic ++ stored kept (SyAttempt e) s).
Proof.
  intros Hok Hsys Hstep. cbn [sys_step] in Hstep.
  assert (Hcase : (∃ p, e = PeRecv p) ∨ ¬ ∃ p, e = PeRecv p) by (destruct e; naive_solver).
  destruct Hcase as [[p ->]|Hne]; [simplify_eq; by rewrite app_nil_r|].
  destruct (engine_ready (sys_pe s) e) eqn:Hr.
  - eapply (pe_topic _ _ e kept s); [done|done|exact (λ d, flight_alone s d Hsys)| |].
    + intros p ->. destruct Hne. by exists p.
    + destruct e as [| | |p|]; [exact Hstep..| |done]. destruct Hne. by exists p.
  - rewrite stored_idle, app_nil_r by done. destruct e; by simplify_eq.
Qed.

(** Taking the oldest message of a queue. *)
Ltac pop Hq :=
  eapply topic_ok_mono; [eassumption|done|done|..]; unfold requests, results_pending; cbn;
  rewrite ?Hq; set_solver.

Lemma sys_step_topic hydrated topic e kept s s' outs :
  topic_ok hydrated s topic → system_ok s → sys_event_ok e →
  sys_step e s = Ret (tt, s', outs) → topic_ok hydrated s' (topic ++ stored kept e s).
Proof.
  intros Hok Hsys He Hstep. pose proof Hsys as (Hw & _).
  destruct e as [now m|now m|now| | | |u i|u i| |e]; 
    try (change (stored kept _ s) with (@nil (Key * Status)); rewrite app_nil_r; cbn [sys_step] in Hstep).
  - by apply (co_topic _ _ now (CeUser m) s _ outs).
  - by apply (co_topic _ _ now (CeAutomated m) s _ outs).
  - destruct (q_job_outcome s) as [|o rest] eqn:Hq; [by simplify_eq|].
    assert (Hc : ∀ j, o = Committed j → entry_ok (job_key j) (job_status j) ∧
                   last_for (job_key j) topic = Some (job_status j)).
    { intros j ->. apply (to_committed _ _ _ Hok). rewrite Hq. by left. }
    eapply (co_topic _ _ now (CeOutcome o)); [| | |exact Hstep].
    + pop Hq.
    + destruct o as [j|j|k]; [by apply Hc|done..].
    + intros j [= ->]. by apply Hc.
  - destruct (q_job s) as [|j rest] eqn:Hq; [by simplify_eq|].
    pose proof (next_job s j rest Hsys Hq) as Hnone.
    eapply (wf_topic _ _ (WeNewJob j) (set_q_job rest s)); [|exact Hw|exact Hnone| |done|exact Hstep].
    + pop Hq.
    + intros j' [= <-]. split; [apply (to_queued _ _ _ Hok); rewrite Hq; by left|].
      destruct Hsys as (_ & _ & Htok). destruct (Htok (job_key j)) as (_ & _ & Hp).
      by rewrite Hnone in Hp.
  - destruct (q_snooze_outcome s) as [|r rest] eqn:Hq; [by simplify_eq|].
    eapply (wf_topic _ _ (WeSnoozeOutcome r) (set_q_snooze_outcome rest s)); [|exact Hw| |done|done|exact Hstep].
    + pop Hq.
    + destruct r as [k|k|k]; cbn; [done|..]; (eapply next_reply; [done|done|cbn; apply is_key_eq]).
  - destruct (q_publish_outcome s) as [|o rest] eqn:Hq; [by simplify_eq|].
    eapply (wf_topic _ _ (WePublishOutcome o) (set_q_publish_outcome rest s)); [|exact Hw| |done| |exact Hstep].
    + pop Hq.
    + intros k. exact (next_result s o rest k Hsys Hq).
    + intros o' k [= <-] Hk. apply (to_result _ _ _ Hok). unfold results_pending. rewrite Hq. set_solver.
  - destruct (q_snooze s) as [|inp rest] eqn:Hq; [by simplify_eq|].
    eapply sz_topic; [|exact Hstep]. pop Hq.
  - by eapply sz_topic.
  - destruct (q_publish s) as [|p rest] eqn:Hq; [by simplify_eq|].
    change [] with (stored kept (SyAttempt (PeRecv p)) s). rewrite <- (app_nil_r topic).
    eapply (pe_topic _ _ (PeRecv p) kept (set_q_publish rest s)); [|done| | |exact Hstep].
    + pop Hq.
    + exact (λ d, flight_alone s d Hsys).
    + intros p' [= <-]. apply (to_request _ _ _ Hok). unfold requests. rewrite Hq. by left.
  - by apply (attempt_topic _ _ _ _ s s' outs).
Qed.


(** What a start-up hydration must provide: statuses under keys that fit them. *)
Definition hydrated_ok (hydrated : gmap Key Status) : Prop :=
  ∀ k st, hydrated !! k = Some st → entry_ok k st.

Lemma sys_history_ok hydrated s topic :
  hydrated_ok hydrated → sys_history hydrated s topic →
  system_ok s ∧ topic_ok hydrated s topic.
Proof.
  intros Hh. induction 1 as [|s topic e kept s' outs _ [Hsys Hok] He Hstep].
  - split; [apply system_new_ok|by apply topic_ok_new].
  - split; [|by eapply sys_step_topic].
    destruct (sys_step_ok e s Hsys) as (s1 & o1 & Hrun & Hok1). rewrite Hstep in Hrun. by simplify_eq.
Qed.

(** C4 Confirmed state is durable: in every history, whatever the broker accepts and
    refuses, the confirmed status of a key with nothing under way is exactly the last
    message the topic holds for it, or, when there is none, the status the service
    started with. *)
Theorem confirmed_is_published hydrated s topic k :
  hydrated_ok hydrated → sys_history hydrated s topic →
  speculative_state (sys_co s) !! k = None →
  match last_for k topic with
  | Some st => ∃ id, confirmed_state (sys_co s) !! k = Some (st, id)
  | None => fst <$> confirmed_state (sys_co s) !! k = hydrated !! k
  end.
Proof. intros Hh [_ Hok]%sys_history_ok Hk; [|done]. by apply (to_settled _ _ _ Hok). Qed.

Lemma reduce_snapshot_app old new k :
  reduce_snapshot (old ++ new) !! k =
  match last (omap (effect_on k) new) with Some v => v | None => reduce_snapshot old !! k end.
Proof. rewrite !reduce_snapshot_lookup, omap_app, last_app. by destruct (last (omap _ new)). Qed.

Lemma reduce_snapshot_key records k st :
  reduce_snapshot records !! k = Some st → nameable k ∧ key_source k = Source.Epics ∧ state st = State.Bypassed.
Proof.
  rewrite reduce_snapshot_lookup. destruct (last _) as [[st'|]|] eqn:E; [|done..]. intros [= ->].
  apply last_omap_Some in E as (r & _ & (? & ? & ? & t & _ & Ht%key_try_from_Ok)%effect_on_Some).
  by split_and!.
Qed.

(** What the theorems about a restart rest on. *)
Lemma restored_bypass hydrated s topic old records k :
  hydrated_ok hydrated →
  (∀ k, key_source k = Source.Epics → hydrated !! k = reduce_snapshot old !! k) →
  sys_history hydrated s topic → Forall2 published topic records →
  speculative_state (sys_co s) !! k = None →
  reduce_snapshot (old ++ records) !! k =
  match fst <$> confirmed_state (sys_co s) !! k with
  | Some st =>
      if decide (nameable k ∧ key_source k = Source.Epics ∧ state st = State.Bypassed)
      then Some st else None
  | None => None
  end.
Proof.
  intros Hh Hold Hhist Hpub Hk.
  destruct (sys_history_ok _ _ _ Hh Hhist) as [_ Hok].
  pose proof (to_settled _ _ _ Hok k Hk) as Hset. unfold settled_as, last_for in Hset.
  rewrite reduce_snapshot_app, (effects_published topic) by (done || apply (to_topic _ _ _ Hok)).
  destruct (decide (nameable k ∧ key_source k = Source.Epics)) as [[Hn He]|Hne].
  - rewrite fmap_last. destruct (last (filter _ topic)) as [[k' st]|]; cbn in *.
    + destruct Hset as [id ->]. cbn. unfold kept.
      destruct (decide (state st = State.Bypassed));
        [by rewrite decide_True|by rewrite decide_False by tauto].
    + rewrite Hset, Hold by done. destruct (reduce_snapshot old !! k) as [st|] eqn:E; [|done].
      apply reduce_snapshot_key in E. by rewrite decide_True.
  - cbn. destruct (reduce_snapshot old !! k) as [st|] eqn:E; [apply reduce_snapshot_key in E; tauto|].
    destruct (fst <$> _) as [st|]; [|done]. by rewrite decide_False by tauto.
Qed.

(** A restart restores the bypasses: when a key is settled and the service starts
    again from the topic it started with followed by what was stored since, the
    hydrated status of the key is its confirmed one if that is the bypass of an EPICS
    alarm, and there is none otherwise. *)
Theorem restart_restores_bypasses hydrated s topic old records k :
  hydrated_ok hydrated →
  (∀ k, key_source k = Source.Epics → hydrated !! k = reduce_snapshot old !! k) →
  sys_history hydrated s topic → Forall2 published topic records →
  speculative_state (sys_co s) !! k = None →
  reduce_snapshot (old ++ records) !! k =
  match fst <$> confirmed_state (sys_co s) !! k with
  | Some st =>
      if decide (nameable k ∧ key_source k = Source.Epics ∧ state st = State.Bypassed)
      then Some st else None
  | None => None
  end.
Proof. exact (restored_bypass hydrated s topic old records k). Qed.

(** *** Histories of runs *)

(** What a run stores, when the broker keeps only what it reports as delivered. *)
Fixpoint topic_of (es : list SysEvent) s : Topic :=
  match es with
  | [] => []
  | e :: es' =>
      stored false e s ++
      match sys_step e s with Ret (_, s', _) => topic_of es' s' | Panic _ => [] end
  end.

Lemma sys_history_run hydrated es s topic s' outs :
  sys_history hydrated s topic → Forall sys_event_ok es → sys_run es s = Ret (tt, s', outs) →
  sys_history hydrated s' (topic ++ topic_of es s).
Proof.
  revert s topic outs. induction es as [|e es IH]; intros s topic outs Hh Hes Hrun; cbn in Hrun |- *.
  { simplify_eq. by rewrite app_nil_r. }
  apply Forall_cons in Hes as [He Hes].
  destruct (sys_step e s) as [[[[] s1] o1]|] eqn:Hstep; [|done].
  destruct (sys_run es s1) as [[[[] s2] o2]|] eqn:Hrest; [|done]. simplify_eq.
  rewrite app_assoc. eapply IH; [|done..]. by eapply history_step.
Qed.

(** The records of a topic. *)
Definition topic_records (t : Topic) : list SnapshotRecord :=
  (λ p, (Some (key_display p.1), default "" (json_to_string p.2))) <$> t.

Lemma topic_records_published t : Forall2 published t (topic_records t).
Proof.
  induction t as [|[k st] t IH]; [constructor|]. constructor; [|exact IH].
  destruct (json_to_string_total st) as [body Hb]. split; [|by eexists]. cbn.
  unfold alarm_to_message. eff_unfold. by rewrite Hb.
Qed.
End history.

(** ** Witnesses *)

#[local] Existing Instance ascii_only_tables.
#[local] Existing Instance ascii_only_laws.
#[local] Existing Instance sample_enums.
#[local] Existing Instance sample_laws.
#[local] Existing Instance sample_json.
#[local] Existing Instance sample_json_laws.

(** An operator bypasses an alarm. *)
Definition bypass_run : list SysEvent :=
  SyUser 1 (UserUpdate (sy_key Source.Epics) (Bypass None) "ops" 77) :: deliver false.

Definition bypass_start : SampleSystem := system_new ∅.

Lemma bypass_history :
  sys_history ∅ (state_after bypass_run bypass_start) (topic_of bypass_run bypass_start).
Proof.
  rewrite <- (app_nil_l (topic_of _ _)). eapply sys_history_run.
  - apply history_new.
  - repeat (apply Forall_cons; split); [vm_compute; reflexivity|exact I..|apply Forall_nil_2].
  - vm_compute. reflexivity.
Qed.

Lemma no_hydration_ok : hydrated_ok ∅.
Proof. intros k st. by rewrite lookup_empty. Qed.

Lemma confirmed_is_published_witness :
  let s := state_after bypass_run bypass_start in
  let topic := topic_of bypass_run bypass_start in
  state <$> last_for (sy_key Source.Epics) topic = Some State.Bypassed ∧
  match last_for (sy_key Source.Epics) topic with
  | Some st => ∃ id, confirmed_state (sys_co s) !! sy_key Source.Epics = Some (st, id)
  | None =>
      fst <$> confirmed_state (sys_co s) !! sy_key Source.Epics = (∅ : gmap Key Status) !! sy_key Source.Epics
  end.
Proof.
  intros s topic. split; [vm_compute; reflexivity|].
  exact (confirmed_is_published ∅ s topic (sy_key Source.Epics) no_hydration_ok bypass_history
           ltac:(vm_compute; reflexivity)).
Defined.

Lemma restart_restores_bypasses_witness :
  let s := state_after bypass_run bypass_start in
  let topic := topic_of bypass_run bypass_start in
  state <$> reduce_snapshot ([] ++ topic_records topic) !! sy_key Source.Epics = Some State.Bypassed ∧
  reduce_snapshot ([] ++ topic_records topic) !! sy_key Source.Epics =
  match fst <$> confirmed_state (sys_co s) !! sy_key Source.Epics with
  | Some st =>
      if decide (nameable (sy_key Source.Epics) ∧ key_source (sy_key Source.Epics) = Source.Epics ∧
                 state st = State.Bypassed)
      then Some st else None
  | None => None
  end.
Proof.
  intros s topic. split; [vm_compute; reflexivity|].
  apply (restart_restores_bypasses ∅ s topic [] (topic_records topic)).
  - apply no_hydration_ok.
  - done.
  - apply bypass_history.
  - apply topic_records_published.
  - vm_compute. reflexivity.
Defined.
