(* ===== verification/Restart.v ===== *)
(** * A restart of the whole program

    [main] restores from the Kafka topic what the previous life of the service left
    there: the hydration provides what the histories of [Topic] ask for, and the
    bypasses of the EPICS alarms come back as the confirmed state of the new service. *)

From S2P Require Export Startup Topic.
From S2P Require Import Hydration.
From stdpp Require Import list.

Section restart.
Context `{UnicodeLaws} `{ProtoLaws} `{StatusJsonLaws} `{EnvVarLaws} {M : Type} `{!RingMap M}.
Context {DQ DK : Type} `{Countable DK} `{!DelayQueue DQ DK} `{!DelayQueueLaws DQ DK} `{ChronoLaws}.
Implicit Types env : Env.
Implicit Types s : System DQ DK.

(** The outside answers as documented: a map is iterated completely, and the proxy knows
    no EPICS alarms. *)
Definition proper_world env (w : World) : Prop :=
  (∀ m, map_order w m ≡ₚ map_to_list m) ∧
  ∀ acnet k, load_acnet_hydration (acnet_proxy w (get_aeolus_proxy_host env)) = Ok acnet →
    key_source k = Source.Epics → acnet !! k = None.

(** What is on the topic that the service is configured with. *)
Definition topic_holds env (w : World) (records : list SnapshotRecord) : Prop :=
  kafka_snapshot w (get_kafka_host env) (get_kafka_topic env) = Ok records.

Lemma acnet_entry proxy acnet k st :
  load_acnet_hydration proxy = Ok acnet → acnet !! k = Some st → entry_ok k st.
Proof.
  destruct proxy as [[snapshot|]|]; [|done..]. intros Hload Hk.
  destruct (acnet_hydration_spec snapshot k) as (m & Hm & Hlast). rewrite Hload in Hm.
  injection Hm as <-. rewrite Hk in Hlast. symmetry in Hlast.
  apply last_Some_elem_of, list_elem_of_filter in Hlast as [<- _]. apply filing_reported.
Qed.

Lemma epics_entry records k st : reduce_snapshot records !! k = Some st → entry_ok k st.
Proof.
  rewrite reduce_snapshot_lookup. destruct (last _) as [[st'|]|] eqn:E; [|done..]. intros [= ->].
  apply last_omap_Some in E as (r & _ & (Hk & Hst & _ & t & _ & Ht%key_try_from_Ok)%effect_on_Some).
  split; [apply Ht|congruence].
Qed.

(** What [main] hydrates from a topic. *)
Lemma main_hydration_spec env w hydrated records :
  proper_world env w → topic_holds env w records → main_hydration env w = Ok hydrated →
  hydrated_ok hydrated ∧
  ∀ k, key_source k = Source.Epics → hydrated !! k = reduce_snapshot records !! k.
Proof.
  intros [Horder Hacnet] Htopic Hh. unfold main_hydration in Hh. rewrite Htopic in Hh.
  pose proof (startup_hydration_spec
    (load_acnet_hydration (acnet_proxy w (get_aeolus_proxy_host env)))
    (load_epics_hydration (Ok records)) (acnet_first w) (map_order w) Horder) as Hspec.
  rewrite Hh in Hspec. cbn in Hspec.
  destruct (load_acnet_hydration _) as [acnet|] eqn:Ha; [|done]. destruct Hspec as [Hdisj ->].
  split.
  - intros k st [Hk|[_ Hk]]%lookup_union_Some_raw; [by eapply acnet_entry|by eapply epics_entry].
  - intros k Hk. by rewrite lookup_union_r by by apply Hacnet.
Qed.

(** C1 A restart of the program restores the bypasses: let the service run from any
    hydration, with any history of the broker, and be stopped at any moment; when [main]
    then starts again and finds on its topic what was there at the first start followed
    by what was stored since, the confirmed state of the new service has, of every EPICS
    alarm that was settled, exactly the bypass that was confirmed, under the baseline
    identifier, and nothing if its confirmed status was not a bypass. *)
Theorem restart_through_main env w w' old records hydrated s topic
    (started : Started M DQ DK) k :
  proper_world env w → topic_holds env w old → main_hydration env w = Ok hydrated →
  sys_history hydrated s topic → Forall2 published topic records →
  proper_world env w' → topic_holds env w' (old ++ records) → main env w' = Ret (Ok started) →
  speculative_state (sys_co s) !! k = None → key_source k = Source.Epics →
  confirmed_state (sys_co (sv_core (service started))) !! k =
  match fst <$> confirmed_state (sys_co s) !! k with
  | Some st =>
      if decide (nameable k ∧ state st = State.Bypassed) then Some (st, DEFAULT_HYDRATED_ID) else None
  | None => None
  end.
Proof.
  intros Hw Hold Hh Hhist Hpub Hw' Htopic Hmain Hk Hsrc.
  destruct (main_hydration_spec env w hydrated old Hw Hold Hh) as [Hok Hep].
  unfold main in Hmain. destruct (main_hydration env w') as [hydrated'|] eqn:Hh'; [|done].
  destruct (main_hydration_spec env w' hydrated' (old ++ records) Hw' Htopic Hh') as [_ Hep'].
  destruct (service_start _ hydrated') as [v|] eqn:Hstart; simplify_eq. cbn.
  apply service_start_Ret in Hstart as (a & u & j & p & z & _ & _ & _ & _ & _ & ->). cbn.
  rewrite lookup_fmap, Hep' by done.
  rewrite (restored_bypass hydrated s topic old records k Hok Hep Hhist Hpub Hk).
  destruct (fst <$> _) as [st|]; [|done]. repeat case_decide; naive_solver.
Qed.
End restart.

(** ** Witness *)

#[local] Existing Instance ascii_only_tables.
#[local] Existing Instance ascii_only_laws.
#[local] Existing Instance sample_enums.
#[local] Existing Instance sample_laws.
#[local] Existing Instance sample_json.
#[local] Existing Instance sample_json_laws.
#[local] Existing Instance sample_env_var.
#[local] Existing Instance sample_env_var_laws.

(** The topic that a bypass has left, and an ACNET proxy without alarms. *)
Definition bypass_records : list SnapshotRecord := topic_records (topic_of bypass_run bypass_start).

Definition restart_world : World :=
  {| acnet_proxy := λ _, Ok (Ok []);
     kafka_snapshot := λ host topic,
       if bool_decide (host = DEFAULT_CONTROLS_HOST ∧ topic = DEFAULT_CONTROLS_TOPIC)
       then Ok bypass_records else Err "unknown topic";
     acnet_first := true;
     map_order := map_to_list |}.

Definition restarted : SampleStarted :=
  match main one_each_env restart_world with Ret (Ok st) => st | _ => one_each_started end.

Lemma restart_main : main one_each_env restart_world = Ret (Ok restarted).
Proof.
  assert (Hb : match main (M:=ListMap) (DQ:=gmap nat (Key * Z)) (DK:=nat) one_each_env restart_world with
               | Ret (Ok _) => true | _ => false end = true) by (vm_compute; reflexivity).
  unfold restarted. by destruct (main one_each_env restart_world) as [[st|]|].
Qed.

(** An operator bypasses an alarm, the service stops, and the bypass is back. *)
Lemma restart_through_main_witness :
  state <$> (fst <$> confirmed_state (sys_co (sv_core (service restarted))) !! sy_key Source.Epics) =
    Some State.Bypassed ∧
  confirmed_state (sys_co (sv_core (service restarted))) !! sy_key Source.Epics =
  match fst <$> confirmed_state (sys_co (state_after bypass_run bypass_start)) !! sy_key Source.Epics with
  | Some st =>
      if decide (nameable (sy_key Source.Epics) ∧ state st = State.Bypassed)
      then Some (st, DEFAULT_HYDRATED_ID) else None
  | None => None
  end.
Proof.
  split; [vm_compute; reflexivity|].
  apply (restart_through_main one_each_env empty_world restart_world [] bypass_records ∅
    (state_after bypass_run bypass_start) (topic_of bypass_run bypass_start) restarted).
  - split; [done|]. intros acnet k [= <-] _. apply lookup_empty.
  - reflexivity.
  - reflexivity.
  - apply bypass_history.
  - apply topic_records_published.
  - split; [done|]. intros acnet k [= <-] _. apply lookup_empty.
  - reflexivity.
  - apply restart_main.
  - vm_compute. reflexivity.
  - reflexivity.
Defined.
