(* ===== verification/Filing.v ===== *)
(** * Statuses under their own keys

    The type invariant of the service's data: wherever a status is recorded, sent,
    published or stored under a key, in the coordinator's maps, in a job, in a request
    or on the topic, that key is the key of the status itself. *)

From S2P Require Export Topic Intents.
From stdpp Require Import list.

Definition filed `{UnicodeTables} `{ProtoEnums} (k : Key) (st : Status) : Prop :=
  key_from_status st = k.

Section filing.
Context `{UnicodeLaws} `{ProtoLaws}.

(** The statuses that the service makes up name the key they are made up for. *)
Lemma filed_made_up k st :
  key_wf k → device st = key_device k → source_raw st = source_to_i32 (key_source k) → filed k st.
Proof.
  intros Hk Hd Hs. unfold filed, key_from_status, source_of. rewrite Hd, Hs, source_roundtrip, Hk.
  by destruct k.
Qed.

#[export] Instance filed_filing : Filing filed.
Proof.
  split; [intros k st <-; apply key_from_status_wf|done| |]; intros; by apply filed_made_up.
Qed.
End filing.

Section service.
Context `{UnicodeLaws} `{ProtoLaws} `{StatusJsonLaws} {DQ DK : Type} `{Countable DK}.
Context `{!DelayQueue DQ DK} `{!DelayQueueLaws DQ DK} `{ChronoLaws}.
Implicit Types s : System DQ DK.

Definition filed_request (p : Publish) : Prop := filed (request_key p) (pd_status (details_ref p)).
Definition filed_job (j : Job) : Prop := filed (job_key j) (job_status j).

Record all_filed s : Prop := {
  fi_entries : filed_entries filed (sys_co s);
  fi_jobs j : j ∈ tokens s → filed_job j;
  fi_requests p : p ∈ requests s → filed_request p;
}.

Lemma all_filed_new hydrated :
  (∀ k st, hydrated !! k = Some st → filed k st) → all_filed (system_new hydrated).
Proof.
  intros Hh. split; cbn; [|by intros j ?%elem_of_nil..].
  intros k st id. cbn. rewrite lookup_empty, lookup_fmap.
  destruct (hydrated !! k) eqn:E; cbn; intros [|]; simplify_eq. by apply Hh.
Qed.

(** Taking a message out of a queue keeps everything filed. *)
Lemma all_filed_mono s s' :
  all_filed s → sys_co s' = sys_co s → tokens s' ⊆ tokens s → requests s' ⊆ requests s → all_filed s'.
Proof. intros [] Eco Ht Hr. split; rewrite ?Eco; auto. Qed.

Lemma co_filed now e s s' outs :
  all_filed s → co_event_ok filed e →
  run_co (coordinator_handle true now e) s = Ret (tt, s', outs) → all_filed s'.
Proof.
  intros [Hent Hjobs Hreq] He Hrun. unfold run_co in Hrun.
  destruct (coordinator_handle true now e (sys_co s)) as [[[[[]|] c'] o]|] eqn:Hh; simplify_eq.
  split; cbn; [by eapply coordinator_entries| |exact Hreq].
  intros j Hin. unfold tokens in Hin, Hjobs. cbn in Hin. rewrite !elem_of_app in Hin.
  destruct Hin as [[Hin|Hin]|Hin]; [apply Hjobs; set_solver| |apply Hjobs; rewrite !elem_of_app; auto].
  by apply (coordinator_job_entries (P:=filed) now e (sys_co s) (Ok tt) c' o).
Qed.

Lemma wf_filed e s s' outs :
  all_filed s → workflow_ok (sys_wf s) → (∀ j, e = WeNewJob j → filed_job j) →
  run_wf (workflow_dispatch all_alive e) s = Ret (tt, s', outs) → all_filed s'.
Proof.
  intros [Hent Hjobs Hreq] Hw Hnew Hrun.
  assert (Hjobs' : ∀ j, j ∈ tokens s' → filed_job j).
  { intros j Hin. destruct (run_wf_tokens _ _ _ _ j Hw Hrun Hin); auto. }
  unfold run_wf in Hrun.
  destruct (workflow_dispatch all_alive e (sys_wf s)) as [[[[] w'] o]|] eqn:Hh; simplify_eq.
  destruct (workflow_flow _ _ _ _ Hw Hh) as (_ & Hpub & _).
  split; [exact Hent|exact Hjobs'|].
  intros p Hp. unfold requests in *. cbn in Hp. setoid_rewrite elem_of_app in Hreq.
  rewrite !elem_of_app in Hp. destruct Hp as [[Hp|Hp]|Hp]; [by auto| |by auto].
  destruct (Hpub p Hp) as (t & Hk & Est). destruct (Hw _ _ Hk) as [Ekey _].
  unfold filed_request. rewrite Est, <- Ekey. apply Hjobs. unfold tokens.
  rewrite !elem_of_app, elem_of_tracked_jobs. right; left. by exists (request_key p), t.
Qed.

Lemma pe_filed e s s' outs :
  all_filed s → engine_ready (sys_pe s) e = true → (∀ p, e = PeRecv p → filed_request p) →
  run_pe (engine_iteration true e) s = Ret (tt, s', outs) → all_filed s'.
Proof.
  intros [Hent Hjobs Hreq] Hready Hrecv Hrun. unfold run_pe in Hrun.
  destruct (engine_step_total true e (sys_pe s) Hready) as (pe' & o & Hr & Hstep).
  rewrite Hr in Hrun. simplify_eq. destruct (engine_flow _ _ _ _ Hstep) as [Hflight _].
  split; cbn; [done|exact Hjobs|]. intros p [Hp|Hp]%elem_of_app; [by apply Hreq, elem_of_app; left|].
  apply list_elem_of_fmap in Hp as (d' & -> & [(d & Hd & Heq)|He]%Hflight); cbn; [|by apply Hrecv].
  rewrite Heq. apply Hreq, elem_of_app. right. by apply (list_elem_of_fmap_2 (request ∘ attempt)).
Qed.

Lemma sz_filed m s s' outs :
  all_filed s → run_sz m s = Ret (tt, s', outs) → all_filed s'.
Proof.
  intros Hok Hrun. unfold run_sz in Hrun. destruct (m (sys_sz s)) as [[[go z] o]|]; [|done].
  simplify_eq. by apply (all_filed_mono s).
Qed.

Ltac popped Hq :=
  eapply all_filed_mono; [eassumption|done|..]; unfold tokens, requests; cbn; rewrite ?Hq; set_solver.

Lemma sys_step_filed e s s' outs :
  system_ok s → all_filed s → sys_event_ok e → sys_step e s = Ret (tt, s', outs) → all_filed s'.
Proof.
  intros (Hw & _) Hok He Hstep.
  destruct e as [now m|now m|now| | | |u i|u i| |e]; cbn [sys_step] in Hstep.
  - by apply (co_filed now (CeUser m) s _ outs).
  - by apply (co_filed now (CeAutomated m) s _ outs).
  - destruct (q_job_outcome s) as [|o rest] eqn:Hq; [by simplify_eq|].
    apply (co_filed now (CeOutcome o) (set_q_job_outcome rest s) _ outs); [|destruct o as [j| |]; try done|done].
    + apply (all_filed_mono s); try done. unfold tokens. rewrite Hq. intros j. rewrite !elem_of_app.
      cbn [q_job sys_wf q_job_outcome set_q_job_outcome omap list_omap].
      destruct (outcome_job o); rewrite ?elem_of_cons; tauto.
    + apply (fi_jobs s Hok). unfold tokens. rewrite Hq. set_solver.
  - destruct (q_job s) as [|j rest] eqn:Hq; [by simplify_eq|].
    eapply (wf_filed (WeNewJob j) (set_q_job rest s)); [|exact Hw| |exact Hstep].
    + popped Hq.
    + intros j' [= <-]. apply (fi_jobs s Hok). unfold tokens. rewrite Hq. set_solver.
  - destruct (q_snooze_outcome s) as [|r rest] eqn:Hq; [by simplify_eq|].
    eapply (wf_filed (WeSnoozeOutcome r) (set_q_snooze_outcome rest s)); [|exact Hw|done|exact Hstep].
    popped Hq.
  - destruct (q_publish_outcome s) as [|o rest] eqn:Hq; [by simplify_eq|].
    eapply (wf_filed (WePublishOutcome o) (set_q_publish_outcome rest s)); [|exact Hw|done|exact Hstep].
    popped Hq.
  - destruct (q_snooze s) as [|inp rest] eqn:Hq; [by simplify_eq|].
    eapply sz_filed; [|exact Hstep]. popped Hq.
  - by eapply sz_filed.
  - destruct (q_publish s) as [|p rest] eqn:Hq; [by simplify_eq|].
    eapply (pe_filed (PeRecv p) (set_q_publish rest s)); [|done| |exact Hstep].
    + popped Hq.
    + intros p' [= <-]. apply (fi_requests s Hok). unfold requests. rewrite Hq. by left.
  - destruct e as [| | |p|]; try (by simplify_eq);
      (destruct (engine_ready _ _) eqn:Hr; [|by simplify_eq]);
      (eapply pe_filed; [exact Hok|exact Hr|done|exact Hstep]).
Qed.

(** C13 Statuses are filed under their own keys: in every history, whatever the broker
    accepts and refuses, when the hydrated statuses are under their own keys and the
    operators name well-formed keys, every status that the coordinator holds as
    confirmed or intended, every job, every request to publish and every message on the
    topic is under the key that its own device and source make, so that the key text of
    a message always agrees with its body. *)
Theorem filed_under_own_key hydrated s topic :
  (∀ k st, hydrated !! k = Some st → key_from_status st = k) → sys_history hydrated s topic →
  (∀ k st id, speculative_state (sys_co s) !! k = Some (st, id) ∨
              confirmed_state (sys_co s) !! k = Some (st, id) → key_from_status st = k) ∧
  (∀ j, j ∈ tokens s → key_from_status (job_status j) = job_key j) ∧
  (∀ p, p ∈ requests s → key_from_status (pd_status (details_ref p)) = request_key p) ∧
  (∀ k st, (k, st) ∈ topic → key_from_status st = k).
Proof.
  intros Hh Hhist.
  enough (system_ok s ∧ all_filed s ∧ ∀ k st, (k, st) ∈ topic → filed k st) as (_ & [He Hj Hr] & Ht)
    by by split_and!.
  induction Hhist as [|s topic e kept s' outs _ (Hsys & Hok & Ht) He Hstep].
  - split; [apply system_new_ok|]. split; [by apply all_filed_new|]. by intros k st ?%elem_of_nil.
  - destruct (sys_step_ok e s Hsys) as (s1 & o1 & Hrun & Hsys1). rewrite Hstep in Hrun. simplify_eq.
    split; [done|]. split; [exact (sys_step_filed e s s1 o1 Hsys Hok He Hstep)|].
    intros k st [Hin|Hin]%elem_of_app; [by apply Ht|].
    destruct e as [| | | | | | | | |[|i delivered lat| | |]]; try by apply not_elem_of_nil in Hin.
    cbn -[attempt_message] in Hin. destruct (in_flight (sys_pe s) !! i) as [d|] eqn:Hi; [|by apply not_elem_of_nil in Hin].
    destruct (started d && _); [|by apply not_elem_of_nil in Hin].
    apply list_elem_of_singleton in Hin as [= -> ->].
    apply (fi_requests s Hok). apply elem_of_app. right.
    apply (list_elem_of_fmap_2 (request ∘ attempt)). by eapply list_elem_of_lookup_2.
Qed.
End service.

(** ** Witness *)

#[local] Existing Instance ascii_only_tables.
#[local] Existing Instance ascii_only_laws.
#[local] Existing Instance sample_enums.
#[local] Existing Instance sample_laws.
#[local] Existing Instance sample_json.
#[local] Existing Instance sample_json_laws.

Lemma bypass_topic_run :
  (sy_key Source.Epics, build_user_status 1 (sy_key Source.Epics) (Bypass None) "ops")
    ∈ topic_of bypass_run bypass_start.
Proof. apply list_elem_of_In. vm_compute. auto. Qed.

(** The message of a bypass that an operator asked for. *)
Lemma filed_under_own_key_witness :
  (sy_key Source.Epics, build_user_status 1 (sy_key Source.Epics) (Bypass None) "ops")
    ∈ topic_of bypass_run bypass_start ∧
  key_from_status (build_user_status 1 (sy_key Source.Epics) (Bypass None) "ops") = sy_key Source.Epics.
Proof.
  split; [exact bypass_topic_run|].
  destruct (filed_under_own_key ∅ (state_after bypass_run bypass_start) (topic_of bypass_run bypass_start))
    as (_ & _ & _ & Htopic).
  - intros k st. by rewrite lookup_empty.
  - exact bypass_history.
  - apply Htopic. exact bypass_topic_run.
Defined.
