(* ===== verification/Answers.v ===== *)
(** * What an answer to an operator means

    A command is answered with success only after its job was committed, and a job is
    committed only after the broker stored its message: an operator who is told that a
    command succeeded finds it on the topic. *)

From S2P Require Export Reports Topic.
From S2P Require Import Grpc.
From stdpp Require Import list.

(** ** The coordinator *)

Section coordinator.
Context `{UnicodeTables} `{ProtoEnums}.
Context (C : Key → Status → Confirmation → Prop).
Implicit Types c : AlarmStateCoordinator.

(** The command that a pending confirmation is for, in whatever carries its identifier:
    an intent or a job.  Confirmed statuses have no confirmation left. *)
Record owed_ok c (js : list Job) : Prop := {
  ow_intent k st id cf :
    speculative_state c !! k = Some (st, id) → pending_confirmations c !! id = Some cf → C k st cf;
  ow_job j cf :
    j ∈ js → pending_confirmations c !! job_id j = Some cf → C (job_key j) (job_status j) cf;
  ow_confirmed k st id : confirmed_state c !! k = Some (st, id) → pending_confirmations c !! id = None;
}.

(** What a message of an operator asks for. *)
Definition asks_for (now : Z) (m : DomainInput) : Prop :=
  match m with UserUpdate k a u cf => C k (build_user_status now k a u) cf | _ => True end.

Definition owed_event (now : Z) (e : CoEvent) : Prop :=
  match e with CeUser m | CeAutomated m => asks_for now m | _ => True end.

Lemma owed_subset c js js' : (∀ j, j ∈ js' → j ∈ js) → owed_ok c js → owed_ok c js'.
Proof. intros Hsub []. split; eauto. Qed.

(** An update under a fresh identifier that no confirmation waits for. *)
Lemma owed_ok_recorded k st c js :
  coordinator_ok c → owed_ok c js → owed_ok (recorded k st c) js.
Proof.
  intros Hok [Hi Hj Hc]. split; [|done..].
  intros k' st' id cf. cbn. rewrite lookup_insert. case_decide; [|by apply Hi].
  intros [= <- <-] Hp. by rewrite pending_fresh in Hp.
Qed.

Lemma owed_sent k st id c js :
  owed_ok c js → speculative_state c !! k = Some (st, id) →
  owed_ok c (job_of (pending_confirmations c) k (st, id) :: js).
Proof. intros [Hi Hj Hc] Hk. split; [done| |done]. intros j cf [->|]%elem_of_cons; [|by auto]. by apply Hi. Qed.

(** The command of an operator, under a fresh identifier of its own. *)
Lemma owed_commanded k st conf c js :
  coordinator_ok c → (∀ j, j ∈ js → (job_id j < id_counter c)%Z) → C k st conf → owed_ok c js →
  owed_ok (set_pending (insert (id_counter c) conf) (recorded k st c))
    ({| job_id := id_counter c; job_key := k; job_status := st; user_initiated := true |} :: js).
Proof.
  intros Hok Hids Hcmd [Hi Hj Hc]. split; cbn.
  - intros k' st' id cf. rewrite lookup_insert. case_decide.
    + intros [= <- <-]. rewrite lookup_insert_eq. intros [= <-]. by subst.
    + intros Hk. rewrite lookup_insert_ne; [by apply Hi|]. apply ok_speculative in Hk; [lia|done].
  - intros j cf [->|Hin]%elem_of_cons; cbn.
    + rewrite lookup_insert_eq. by intros [= <-].
    + rewrite lookup_insert_ne; [by apply Hj|]. specialize (Hids j Hin). lia.
  - intros k' st' id Hk. rewrite lookup_insert_ne; [by eapply Hc|].
    apply ok_confirmed in Hk; [lia|done].
Qed.

Lemma owed_resolved id c js : owed_ok c js → owed_ok (set_pending (delete id) c) js.
Proof.
  intros [Hi Hj Hc]. split; cbn.
  - intros k st id' cf Hk. rewrite lookup_delete. case_decide; [done|]. by apply Hi.
  - intros j cf Hin. rewrite lookup_delete. case_decide; [done|]. by apply Hj.
  - intros k st id' Hk. rewrite lookup_delete. case_decide; [done|]. by eapply Hc.
Qed.

Lemma owed_committed k st id c js :
  pending_confirmations c !! id = None → owed_ok c js → owed_ok (set_confirmed (insert k (st, id)) c) js.
Proof.
  intros Hp [Hi Hj Hc]. split; cbn; [done..|]. intros k' st' id'. rewrite lookup_insert.
  case_decide; [by intros [= _ <-]|by apply Hc].
Qed.

Lemma owed_ok_delete k c js : owed_ok c js → owed_ok (set_speculative (delete k) c) js.
Proof.
  intros [Hi Hj Hc]. split; cbn; [|done..]. intros k' st id cf. rewrite lookup_delete.
  case_decide; [done|]. by apply Hi.
Qed.

(** A rollback brings back a status without a confirmation. *)
Lemma rollback_unowed c k js :
  coordinator_ok c → owed_ok c js → pending_confirmations c !! (rollback_entry c k).2 = None.
Proof.
  intros Hok Hc. unfold rollback_entry. destruct (confirmed_state c !! k) as [[st id]|] eqn:E; cbn.
  - by eapply ow_confirmed.
  - apply eq_None_not_Some. intros [cf Hp]. apply ok_pending in Hp; [|done].
    unfold DEFAULT_HYDRATED_ID in Hp. lia.
Qed.

Lemma owed_rolled_back k e c js :
  pending_confirmations c !! e.2 = None → owed_ok c js →
  owed_ok (set_speculative (insert k e) c) (job_of (pending_confirmations c) k e :: js).
Proof.
  destruct e as [st id]. cbn. intros Hp [Hi Hj Hc]. split; cbn; [| |done].
  - intros k' st' id' cf. rewrite lookup_insert. case_decide; [|by apply Hi].
    intros [= <- <-]. by rewrite Hp.
  - intros j cf [->|Hin]%elem_of_cons; cbn; [by rewrite Hp|by apply Hj].
Qed.

Lemma confirmed_ok pending id cf r :
  CoConfirm cf (Ok tt) ∈ confirm_outs pending id r → r = Ok tt ∧ pending !! id = Some cf.
Proof.
  unfold confirm_outs. destruct (pending !! id) as [cf'|]; [|by intros ?%not_elem_of_nil].
  by intros [= -> <-]%list_elem_of_singleton.
Qed.

Lemma confirm_ok_app pending id r cf o :
  (∀ cf' r', o ≠ CoConfirm cf' r') → CoConfirm cf (Ok tt) ∈ confirm_outs pending id r ++ [o] →
  r = Ok tt ∧ pending !! id = Some cf.
Proof.
  intros Ho [?%confirmed_ok|Hin%list_elem_of_singleton]%elem_of_app; [done|]. by destruct (Ho cf (Ok tt)).
Qed.

Lemma automated_owed now st c c' outs js :
  coordinator_ok c → owed_ok c js → 
  coordinator_handle true now (CeAutomated (AutomatedUpdate st)) c = Ret (Ok tt, c', outs) →
  owed_ok c' (jobs_in outs ++ js) ∧ ∀ cf, CoConfirm cf (Ok tt) ∉ outs.
Proof.
  intros Hok Hc. cbn [coordinator_handle handle_message]. rewrite handle_automated_update_run. cbn zeta.
  pose proof (owed_ok_recorded (key_from_status st) st c js Hok Hc) as Hrec.
  destruct (should_publish _ _ _); [|intros [= <- <-]; by split; [|intros cf ?%not_elem_of_nil]].
  destruct (speculative_state c !! _); [intros [= <- <-]; by split; [|intros cf ?%not_elem_of_nil]|].
  unfold job_sent. intros [= <- <-]. split; [|by intros cf ?%list_elem_of_singleton].
  apply (owed_sent _ _ _ (recorded _ _ _)); [done|]. cbn. apply lookup_insert_eq.
Qed.

Lemma commanded_owed now k a u conf c c' outs js :
  coordinator_ok c → (∀ j, j ∈ js → (job_id j < id_counter c)%Z) → owed_ok c js →
  C k (build_user_status now k a u) conf →
  coordinator_handle true now (CeUser (UserUpdate k a u conf)) c = Ret (Ok tt, c', outs) →
  owed_ok c' (jobs_in outs ++ js) ∧ ∀ cf, CoConfirm cf (Ok tt) ∉ outs.
Proof.
  intros Hok Hids Hc Hcmd. cbn [coordinator_handle handle_message]. rewrite handle_user_update_run. cbn zeta.
  destruct (user_action_allowed _ _ _).
  - pose proof (owed_commanded k _ conf c js Hok Hids Hcmd Hc) as Hcom.
    destruct (speculative_state c !! k); unfold job_sent; intros [= <- <-].
    + split; [|by intros cf ?%not_elem_of_nil]. eapply owed_subset; [|exact Hcom]. cbn. set_solver.
    + split; [exact Hcom|by intros cf ?%list_elem_of_singleton].
  - intros [= <- <-]. split; [done|]. by intros cf ?%list_elem_of_singleton.
Qed.

(** The handlers keep the confirmations with their commands, and only a commit answers
    one with success. *)
Lemma coordinator_owed now e c c' outs js :
  coordinator_ok c → (∀ j, j ∈ js → (job_id j < id_counter c)%Z) →
  owed_ok c (option_list (event_job e) ++ js) → owed_event now e →
  coordinator_handle true now e c = Ret (Ok tt, c', outs) →
  owed_ok c' (jobs_in outs ++ js) ∧
  ∀ cf, CoConfirm cf (Ok tt) ∈ outs →
    ∃ j, e = CeOutcome (Committed j) ∧ C (job_key j) (job_status j) cf.
Proof.
  intros Hok Hids Hc He Hrun.
  assert (Hsilent : owed_ok c' (jobs_in outs ++ js) ∧ (∀ cf, CoConfirm cf (Ok tt) ∉ outs) →
    owed_ok c' (jobs_in outs ++ js) ∧ ∀ cf, CoConfirm cf (Ok tt) ∈ outs →
      ∃ j, e = CeOutcome (Committed j) ∧ C (job_key j) (job_status j) cf).
  { intros [? Hno]. split; [done|]. intros cf Hin. by apply Hno in Hin. }
  destruct e as [[j|j|k]|[sn|st|k a u cf]|[sn|st|k a u cf]|]; cbn [option_list event_job outcome_job app] in Hc;
    try (apply Hsilent; first [by apply (automated_owed now st c)|by apply (commanded_owed now k a u cf c)
      |by apply (automated_owed now (wake_status now k) c)]);
    try (apply Hsilent; cbn in Hrun; injection Hrun as <- <-; split; [done|];
         by intros cf ?%list_elem_of_singleton); [| |done].
  - cbn [coordinator_handle reconcile_job_outcome] in Hrun. rewrite reconcile_success_run in Hrun.
    cbn zeta in Hrun. pose proof (owed_resolved (job_id j) c _ Hc) as Hres.
    assert (Hjs : owed_ok (set_pending (delete (job_id j)) c) js) by (eapply owed_subset; [|exact Hres]; set_solver).
    assert (Hnone : ∀ f, pending_confirmations (set_speculative f (set_pending (delete (job_id j)) c)) !! job_id j = None)
      by (intros f; apply lookup_delete_eq).
    assert (Hcom : ∀ cf, pending_confirmations c !! job_id j = Some cf →
      ∃ j', CeOutcome (Committed j) = CeOutcome (Committed j') ∧ C (job_key j') (job_status j') cf).
    { intros cf Hp. exists j. split; [done|]. by apply (ow_job _ _ Hc); [left|]. }
    destruct (speculative_state c !! job_key j) as [[st id]|] eqn:Hspec; [case_bool_decide|];
      simplify_eq; autorewrite with outs.
    + split; [by apply owed_committed, owed_ok_delete|]. intros cf [_ ?]%confirmed_ok. eauto.
    + split; [|intros cf [_ ?]%confirm_ok_app; eauto].
      apply owed_committed; [apply (Hnone (λ m, m))|]. exact (owed_sent _ _ _ (set_pending (delete (job_id j)) c) js Hjs Hspec).
    + split; [by apply owed_committed; [apply (Hnone (λ m, m))|]|]. intros cf [_ ?]%confirmed_ok. eauto.
  - cbn [coordinator_handle reconcile_job_outcome] in Hrun. rewrite reconcile_failure_run in Hrun.
    cbn zeta in Hrun. pose proof (owed_resolved (job_id j) c _ Hc) as Hres.
    assert (Hjs : owed_ok (set_pending (delete (job_id j)) c) js) by (eapply owed_subset; [|exact Hres]; set_solver).
    destruct (speculative_state c !! job_key j) as [[st id]|] eqn:Hspec; [|done].
    apply Hsilent. destruct (bool_decide (id = job_id j) && user_initiated j); unfold job_sent in Hrun;
      simplify_eq; autorewrite with outs; (split; [|by intros cf [? _]%confirm_ok_app]).
    + assert (Hroll : pending_confirmations (set_pending (delete (job_id j)) c)
                        !! (rollback_entry c (job_key j)).2 = None).
      { cbn. rewrite lookup_delete. case_decide; [done|]. by apply (rollback_unowed c _ (j :: js)). }
      exact (owed_rolled_back (job_key j) _ (set_pending (delete (job_id j)) c) js Hroll Hjs).
    + exact (owed_sent _ _ _ (set_pending (delete (job_id j)) c) js Hjs Hspec).
Qed.
End coordinator.

(** ** The service *)

(** The commands among some events: what they ask for, and whom to answer. *)
Definition commanded `{UnicodeTables} `{ProtoEnums} (es : list SysEvent) (k : Key) (st : Status) (cf : Confirmation) : Prop :=
  ∃ now a u, SyUser now (UserUpdate k a u cf) ∈ es ∧ st = build_user_status now k a u.

Section service.
Context `{UnicodeLaws} `{ProtoLaws} `{StatusJsonLaws} {DQ DK : Type} `{Countable DK}.
Context `{!DelayQueue DQ DK} `{!DelayQueueLaws DQ DK} `{ChronoLaws}.
Implicit Types s : System DQ DK.

(** What the coordinator handles in a step. *)
Definition handled_by (e : SysEvent) s : option (Z * CoEvent) :=
  match e with
  | SyUser now m => Some (now, CeUser m)
  | SyAutomated now m => Some (now, CeAutomated m)
  | SyJobOutcome now =>
      match q_job_outcome s with o :: _ => Some (now, CeOutcome o) | [] => None end
  | _ => None
  end.

Lemma wf_tokens e s0 s s' outs :
  workflow_ok (sys_wf s0) → sys_wf s = sys_wf s0 → tokens s ⊆ tokens s0 →
  (∀ j, e = WeNewJob j → j ∈ tokens s0) → sys_co s = sys_co s0 →
  run_wf (workflow_dispatch all_alive e) s = Ret (tt, s', outs) →
  sys_co s' = sys_co s0 ∧ tokens s' ⊆ tokens s0 ∧ ∀ o, SoCo o ∉ outs.
Proof.
  intros Hw Ewf Et Hnew Eco Hrun. rewrite <- Ewf in Hw.
  assert (Htok : tokens s' ⊆ tokens s0).
  { intros j Hin. destruct (run_wf_tokens _ _ _ _ j Hw Hrun Hin); auto. }
  unfold run_wf in Hrun. destruct (workflow_dispatch _ _ _) as [[[[] w'] o]|]; simplify_eq.
  split; [done|]. split; [done|]. by intros x (? & ? & _)%list_elem_of_fmap.
Qed.

(** A step is one of the coordinator, or it neither touches the coordinator nor makes
    any jobs. *)
Lemma sys_step_coordinator e s s' outs :
  system_ok s → sys_step e s = Ret (tt, s', outs) →
  match handled_by e s with
  | Some (now, ev) =>
      ∃ os js, coordinator_handle true now ev (sys_co s) = Ret (Ok tt, sys_co s', os) ∧
        outs = SoCo <$> os ∧ tokens s ≡ₚ option_list (event_job ev) ++ js ∧
        tokens s' ≡ₚ jobs_in os ++ js
  | None => sys_co s' = sys_co s ∧ tokens s' ⊆ tokens s ∧ ∀ o, SoCo o ∉ outs
  end.
Proof.
  intros (Hw & _) Hrun.
  assert (Hco : ∀ now ev s1, sys_co s1 = sys_co s → tokens s ≡ₚ option_list (event_job ev) ++ tokens s1 →
    run_co (coordinator_handle true now ev) s1 = Ret (tt, s', outs) →
    ∃ os js, coordinator_handle true now ev (sys_co s) = Ret (Ok tt, sys_co s', os) ∧
        outs = SoCo <$> os ∧ tokens s ≡ₚ option_list (event_job ev) ++ js ∧
        tokens s' ≡ₚ jobs_in os ++ js).
  { intros now ev s1 Eco Et Hr. unfold run_co in Hr. rewrite Eco in Hr.
    destruct (coordinator_handle true now ev (sys_co s)) as [[[[[]|] c'] o]|]; simplify_eq.
    exists o, (tokens s1). split_and!; try done. unfold tokens. cbn. solve_Permutation. }
  assert (Hidle : Ret (tt, s, []) = Ret (tt, s', outs) →
    sys_co s' = sys_co s ∧ tokens s' ⊆ tokens s ∧ ∀ o, SoCo o ∉ outs).
  { intros [= <- <-]. split_and!; [done..|]. by intros o ?%not_elem_of_nil. }
  assert (Hsz : ∀ m s1, sys_co s1 = sys_co s → tokens s1 = tokens s → run_sz m s1 = Ret (tt, s', outs) →
    sys_co s' = sys_co s ∧ tokens s' ⊆ tokens s ∧ ∀ o, SoCo o ∉ outs).
  { intros m s1 Eco Et Hr. unfold run_sz in Hr. destruct (m _) as [[[b z] o]|]; simplify_eq.
    split_and!; [done|by rewrite <- Et|by intros x (? & ? & _)%list_elem_of_fmap]. }
  assert (Hpe : ∀ m s1, sys_co s1 = sys_co s → tokens s1 = tokens s → run_pe m s1 = Ret (tt, s', outs) →
    sys_co s' = sys_co s ∧ tokens s' ⊆ tokens s ∧ ∀ o, SoCo o ∉ outs).
  { intros m s1 Eco Et Hr. unfold run_pe in Hr. destruct (m _) as [[[b z] o]|]; simplify_eq.
    split_and!; [done|by rewrite <- Et|by intros x (? & ? & _)%list_elem_of_fmap]. }
  destruct e as [now m|now m|now| | | |u i|u i| |e]; cbn [sys_step handled_by] in *.
  - by apply (Hco now (CeUser m) s).
  - by apply (Hco now (CeAutomated m) s).
  - destruct (q_job_outcome s) as [|o rest] eqn:Hq; [by apply Hidle|].
    apply (Hco now (CeOutcome o) (set_q_job_outcome rest s)); [done| |done].
    unfold tokens. rewrite Hq. cbn. destruct (outcome_job o); cbn; [|done]. solve_Permutation.
  - destruct (q_job s) as [|j rest] eqn:Hq; [by apply Hidle|].
    apply (wf_tokens (WeNewJob j) s (set_q_job rest s)); try done; unfold tokens; rewrite Hq; set_solver.
  - destruct (q_snooze_outcome s) as [|r rest] eqn:Hq; [by apply Hidle|].
    by apply (wf_tokens (WeSnoozeOutcome r) s (set_q_snooze_outcome rest s)).
  - destruct (q_publish_outcome s) as [|r rest] eqn:Hq; [by apply Hidle|].
    by apply (wf_tokens (WePublishOutcome r) s (set_q_publish_outcome rest s)).
  - destruct (q_snooze s) as [|inp rest] eqn:Hq; [by apply Hidle|]. by eapply Hsz; [..|exact Hrun].
  - by eapply Hsz; [..|exact Hrun].
  - destruct (q_publish s) as [|p rest] eqn:Hq; [by apply Hidle|]. by eapply Hpe; [..|exact Hrun].
  - destruct e; try (by apply Hidle);
      (destruct (engine_ready _ _); [by eapply Hpe; [..|exact Hrun]|by apply Hidle]).
Qed.

Lemma owed_mono (C C' : Key → Status → Confirmation → Prop) c js :
  (∀ k st cf, C k st cf → C' k st cf) → owed_ok C c js → owed_ok C' c js.
Proof. intros Himp []. split; eauto. Qed.

Lemma commanded_app l1 l2 k st cf : commanded l1 k st cf ∨ commanded l2 k st cf → commanded (l1 ++ l2) k st cf.
Proof.
  intros [(now & a & u & Hin & ->)|(now & a & u & Hin & ->)]; exists now, a, u;
    rewrite elem_of_app; auto.
Qed.

Lemma last_for_elem k (t : Topic) st : last_for k t = Some st → (k, st) ∈ t.
Proof.
  unfold last_for. destruct (last _) as [[k' st']|] eqn:E; [|done]. intros [= <-].
  by apply last_Some_elem_of, list_elem_of_filter in E as [<- ?].
Qed.

(** Only reports come through the queue of the automated updates. *)
Definition reports_only (e : SysEvent) : Prop :=
  match e with SyAutomated _ m => is_Some (auto_status m) | _ => True end.

Lemma handled_owed pre e s now ev :
  reports_only e → handled_by e s = Some (now, ev) → owed_event (commanded (pre ++ [e])) now ev.
Proof.
  intros He Hh. destruct e as [now' m|now' m|now'| | | | | | |]; simplify_eq/=.
  - destruct m as [| |k a u cf]; try done. apply commanded_app. right.
    exists now, a, u. split; [by left|done].
  - destruct He as [st Hst]. by destruct m.
  - by destruct (q_job_outcome s); simplify_eq.
Qed.

Lemma step_acknowledged hydrated pre e s topic s' outs :
  system_ok s → topic_ok hydrated s topic → intents_ok s → reports_only e →
  owed_ok (commanded pre) (sys_co s) (tokens s) → sys_step e s = Ret (tt, s', outs) →
  owed_ok (commanded (pre ++ [e])) (sys_co s') (tokens s') ∧
  ∀ cf, SoCo (CoConfirm cf (Ok tt)) ∈ outs →
    ∃ k st, commanded (pre ++ [e]) k st cf ∧ (k, st) ∈ topic.
Proof.
  intros Hsys Htop [Hco Htok] Hrep Howed Hstep.
  apply (owed_mono _ (commanded (pre ++ [e]))) in Howed; [|intros; apply commanded_app; by left].
  pose proof (sys_step_coordinator e s s' outs Hsys Hstep) as Hcase.
  destruct (handled_by e s) as [[now ev]|] eqn:Hh.
  - destruct Hcase as (os & js & Hrun & -> & Hs & Hs').
    destruct (coordinator_owed (commanded (pre ++ [e])) now ev (sys_co s) (sys_co s') os js) as [Howed' Hans];
      [done| | |by eapply handled_owed|done|].
    + intros j Hj. apply Htok. rewrite Hs. apply elem_of_app. by right.
    + eapply owed_subset; [|exact Howed]. intros j. by rewrite Hs.
    + split; [eapply owed_subset; [|exact Howed']; intros j; by rewrite Hs'|].
      intros cf (x & [= <-] & Hx)%list_elem_of_fmap. destruct (Hans cf Hx) as (j & -> & Hcmd).
      exists (job_key j), (job_status j). split; [done|]. apply last_for_elem, (to_committed _ _ _ Htop).
      destruct e as [| |now'| | | | | | |]; try done. cbn in Hh.
      destruct (q_job_outcome s); simplify_eq. by left.
  - destruct Hcase as (-> & Hsub & Hno). split; [by eapply owed_subset|].
    intros cf Hin. by apply Hno in Hin.
Qed.

Lemma run_acknowledged hydrated pre es s topic s' outs cf :
  hydrated_ok hydrated → sys_history hydrated s topic → intents_ok s →
  (id_counter (sys_co s) + Z.of_nat (length es) ≤ u64_max)%Z →
  owed_ok (commanded pre) (sys_co s) (tokens s) →
  Forall sys_event_ok es → Forall reports_only es → sys_run es s = Ret (tt, s', outs) →
  SoCo (CoConfirm cf (Ok tt)) ∈ outs →
  ∃ k st, commanded (pre ++ es) k st cf ∧ (k, st) ∈ topic ++ topic_of es s.
Proof.
  intros Hh. revert pre s topic outs.
  induction es as [|e es IH]; intros pre s topic outs Hhist Hok Hlen Howed Hes Hrep Hrun Hin.
  { cbn in Hrun. injection Hrun as _ <-. by apply not_elem_of_nil in Hin. }
  apply Forall_cons in Hes as [He Hes]. apply Forall_cons in Hrep as [Hre Hrep].
  destruct (sys_history_ok hydrated s topic Hh Hhist) as [Hsys Htop]. cbn in Hrun, Hlen.
  destruct (sys_step e s) as [[[[] s1] o1]|] eqn:Hstep; [|done].
  destruct (sys_run es s1) as [[[[] s2] o2]|] eqn:Hrest; [|done]. injection Hrun as <- <-.
  destruct (step_acknowledged hydrated pre e s topic s1 o1) as [Howed1 Hans]; try done.
  destruct (sys_step_intents e s s1 o1 Hsys Hok) as [Hok1 Hc]; [lia|done|].
  cbn [topic_of]. rewrite Hstep, (app_assoc topic).
  change (e :: es) with ([e] ++ es). rewrite (app_assoc pre).
  apply elem_of_app in Hin as [Hin|Hin].
  - destruct (Hans cf Hin) as (k & st & Hcmd & Ht). exists k, st.
    split; [apply commanded_app; by left|]. rewrite !elem_of_app. auto.
  - apply (IH (pre ++ [e]) s1 _ o2); try done; [|lia]. by eapply history_step.
Qed.
End service.

(** ** The bounded service *)

(** Operators name alarms by keys that were parsed from text. *)
Definition operator_ok `{UnicodeTables} (e : SvEvent) : Prop :=
  match e with EvUser m => message_ok m | _ => True end.

(** *** The handlers of gRPC *)

Section replies.
Context `{UnicodeTables} `{ProtoEnums}.

(** A handler that answers OK has queued a command for every device, and each was
    answered with success. *)
Lemma ok_reply_commands answers latency devices action user gs gs' gouts :
  receiver_alive (user_channel gs) = true →
  submit_and_confirm_user_update answers latency devices action user gs = Ret (Ok tt, gs', gouts) →
  ∃ keys, Forall2 (λ device k, key_try_from device = Ok k) devices keys ∧
    ∀ k, k ∈ keys → ∃ cf, InQueued (UserUpdate k action user cf) ∈ gouts ∧ answers cf = Some (Ok tt).
Proof.
  intros Ha Hrun. pose proof (build_keys_run devices) as Hkeys.
  destruct (build_keys devices) as [keys|] eqn:Hk;
    [|unfold submit_and_confirm_user_update in Hrun; by rewrite Hk in Hrun].
  destruct (devices ≫= parse_error) eqn:Herr; [|done]. injection Hkeys as Hkeys.
  exists keys. split; [rewrite Hkeys; by apply no_parse_errors|]. clear Hkeys Herr.
  destruct (decide (length keys ≤ room (user_channel gs))) as [Hroom|Hroom].
  - rewrite (submit_and_confirm_run _ _ _ _ _ _ _ Hk Ha Hroom) in Hrun. injection Hrun as Hres _ <-.
    apply ok_reply_answers in Hres; [|by rewrite length_fmap, length_seq].
    rewrite Forall_forall in Hres. intros k [i Hi]%list_elem_of_lookup.
    assert (Hlt : i < length keys) by by eapply lookup_lt_Some.
    assert (Hseq : seq (next_oneshot gs) (length keys) !! i = Some (next_oneshot gs + i)%nat)
      by by apply lookup_seq.
    exists (next_oneshot gs + i)%nat. split.
    + apply elem_of_app. left. apply (list_elem_of_fmap_2 InQueued).
      apply (list_elem_of_lookup_2 _ i). unfold commands. rewrite lookup_zip_with, Hi. cbn [mbind option_bind].
      exact (f_equal (λ o, o ≫= λ y, Some (UserUpdate k action user y)) Hseq).
    + apply Hres. apply (list_elem_of_fmap_2 answers). by apply list_elem_of_lookup_2 in Hseq.
  - unfold submit_and_confirm_user_update in Hrun. rewrite Hk in Hrun. revert Hrun. eff_unfold.
    rewrite submit_updates_run by done. destruct (Nat.leb_spec (length keys) (room (user_channel gs))); [lia|].
    done.
Qed.

End replies.

Section answers.
Context `{UnicodeLaws} `{ProtoLaws} `{StatusJsonLaws} {M : Type} `{!RingMap M, !RingMapLaws M}.
Context {DQ DK : Type} `{Countable DK} `{!DelayQueue DQ DK} `{!DelayQueueLaws DQ DK} `{ChronoLaws}.
Implicit Types v : Service M DQ DK.

(** The events that the coordinator handles come from those of the service. *)
Lemma service_sys_events queue_config hydrated v0 es v outs :
  service_start queue_config hydrated = Ret v0 → service_run es v0 = Ret (tt, v, outs) →
  Forall operator_ok es →
  Forall sys_event_ok (sys_events es v0) ∧ Forall reports_only (sys_events es v0) ∧
  ∀ now m, SyUser now m ∈ sys_events es v0 → EvUser m ∈ es.
Proof.
  intros Hstart Hrun Hops.
  assert (Hsends : Forall (sends (λ m, EvUser m ∈ es ∧ message_ok m)) es).
  { rewrite Forall_forall in Hops. apply Forall_forall. intros e He. specialize (Hops e He).
    by destruct e. }
  pose proof (service_run_messages _ es v0 v outs (inboxes_ok_start _ _ _ _ Hstart) Hsends Hrun) as Hmsgs.
  split_and!.
  - eapply Forall_impl; [exact Hmsgs|]. intros [] He; cbn in *; try done; [by destruct He|].
    destruct He as [st Hst]. by destruct m.
  - eapply Forall_impl; [exact Hmsgs|]. by intros [].
  - rewrite Forall_forall in Hmsgs. intros now m Hin. by apply (Hmsgs _ Hin).
Qed.

(** What the theorems about answers rest on. *)
Lemma ok_answer queue_config hydrated v0 es v outs cf :
  (Z.of_nat (length es) < u64_max)%Z → hydrated_ok hydrated →
  service_start queue_config hydrated = Ret v0 → service_run es v0 = Ret (tt, v, outs) →
  Forall operator_ok es →
  SvTask (SoCo (CoConfirm cf (Ok tt))) ∈ outs →
  ∃ now k a u, EvUser (UserUpdate k a u cf) ∈ es ∧
    (k, build_user_status now k a u) ∈ topic_of (sys_events es v0) (system_new (DQ:=DQ) (DK:=DK) hydrated).
Proof.
  intros Hlen Hh Hstart Hrun Hops Hin.
  destruct (service_sys_events _ _ _ _ _ _ Hstart Hrun Hops) as (Hok & Hrep & Hsent).
  apply service_start_Ret in Hstart as (a & u & j & p & z & _ & _ & _ & _ & _ & ->).
  set (v0 := mkService _ _ _ _ _ _ _ _) in *.
  destruct (service_run_simulates es v0 (system_new_ok hydrated)) as (v' & outs' & souts & Hrun' & Hsim & Ht).
  rewrite Hrun in Hrun'. injection Hrun' as <- <-.
  assert (Hsys : sys_run (sys_events es v0) (system_new hydrated) = Ret (tt, service_system v, souts))
    by exact Hsim.
  assert (Hans : SoCo (CoConfirm cf (Ok tt)) ∈ souts).
  { assert (Hco : SoCo (CoConfirm cf (Ok tt)) ∈ outs_of TCoordinator souts).
    { specialize (Ht TCoordinator). cbn in Ht. rewrite Ht. apply elem_of_app. left.
      apply list_elem_of_filter. split; [done|]. apply list_elem_of_omap. by eexists. }
    by apply list_elem_of_filter in Hco as [_ ?]. }
  destruct (run_acknowledged hydrated [] (sys_events es v0) (system_new hydrated) []
    (service_system v) souts cf)
    as (k & st & (now & act & us & Hcmd & ->) & Htopic); try done.
  - apply history_new.
  - apply intents_ok_new.
  - cbn. unfold INITIAL_PUBLISH_ID. pose proof (sys_events_length es v0). lia.
  - exists now, k, act, us. split; [by eapply Hsent|done].
Qed.

(** C6 A command that is answered with success is on the topic: in every run of the
    bounded service with fewer than 2^64 events, whatever the broker, the timers, the
    reports and the order of the tasks are, when the coordinator answers a confirmation
    with success, an operator sent a command with that confirmation, and the broker has
    reported the message with its key and its status, as the coordinator built it, as
    stored. *)
Theorem ok_answer_is_published queue_config hydrated v0 es v outs cf :
  (Z.of_nat (length es) < u64_max)%Z → hydrated_ok hydrated →
  service_start queue_config hydrated = Ret v0 → service_run es v0 = Ret (tt, v, outs) →
  Forall operator_ok es →
  SvTask (SoCo (CoConfirm cf (Ok tt))) ∈ outs →
  ∃ now k a u, EvUser (UserUpdate k a u cf) ∈ es ∧
    (k, build_user_status now k a u) ∈ topic_of (sys_events es v0) (system_new (DQ:=DQ) (DK:=DK) hydrated).
Proof. exact (ok_answer queue_config hydrated v0 es v outs cf). Qed.

(** C3 What the reply OK of a gRPC command means: let the handler of a command for some
    devices run on the queue of the operators and answer OK, where the answers it
    awaited are those of a run of the service, and its confirmation channels are used
    by no other command; then every device name was parsed, and for each of the alarms
    the broker has reported the message with the command's status as stored. *)
Theorem grpc_ok_is_published queue_config hydrated v0 es v outs
    answers latency devices action user gs gs' gouts :
  (Z.of_nat (length es) < u64_max)%Z → hydrated_ok hydrated →
  service_start queue_config hydrated = Ret v0 → service_run es v0 = Ret (tt, v, outs) →
  Forall operator_ok es → receiver_alive (user_channel gs) = true →
  submit_and_confirm_user_update answers latency devices action user gs = Ret (Ok tt, gs', gouts) →
  (∀ cf, answers cf = Some (Ok tt) → SvTask (SoCo (CoConfirm cf (Ok tt))) ∈ outs) →
  (∀ k cf m, InQueued (UserUpdate k action user cf) ∈ gouts → EvUser m ∈ es →
     message_confirmation m = [cf] → m = UserUpdate k action user cf) →
  ∃ keys, Forall2 (λ device k, key_try_from device = Ok k) devices keys ∧
    ∀ k, k ∈ keys → ∃ now, (k, build_user_status now k action user) ∈
      topic_of (sys_events es v0) (system_new (DQ:=DQ) (DK:=DK) hydrated).
Proof.
  intros Hlen Hh Hstart Hrun Hops Halive Hreply Hans Hfresh.
  destruct (ok_reply_commands _ _ _ _ _ _ _ _ Halive Hreply) as (keys & Hkeys & Hcmds).
  exists keys. split; [done|]. intros k Hk. destruct (Hcmds k Hk) as (cf & Hcmd & Hok).
  destruct (ok_answer queue_config hydrated v0 es v outs cf) as (now & k' & a' & u' & Hev & Ht);
    try done; [by apply Hans|].
  assert (E : UserUpdate k' a' u' cf = UserUpdate k action user cf) by by apply Hfresh.
  injection E as -> -> ->. by exists now.
Qed.
End answers.

(** ** Witness *)

#[local] Existing Instance ascii_only_tables.
#[local] Existing Instance ascii_only_laws.
#[local] Existing Instance sample_enums.
#[local] Existing Instance sample_laws.
#[local] Existing Instance sample_json.
#[local] Existing Instance sample_json_laws.

(** An operator bypasses an alarm, and each task has its turns. *)
Definition bypass_command : DomainInput := UserUpdate (sy_key Source.Epics) (Bypass None) "ops" 77.

Definition answered_run : list SvEvent :=
  EvUser bypass_command :: turn TCoordinator (EvCoordinator 1) 1 ++ turn TWorkflow EvWorkflow 2 ++
  turn TSnooze (EvSnooze 0 0) 1 ++ turn TWorkflow EvWorkflow 1 ++ [EvPublish] ++
  turn TPublish (EvAttempt (PeStart 0)) 2 ++ turn TPublish (EvAttempt (PeComplete 0 true 1)) 2 ++
  turn TWorkflow EvWorkflow 2 ++ turn TCoordinator (EvCoordinator 9) 1.

Definition answered_b (cf : Confirmation) (outs : list SvOut) : bool :=
  existsb (λ o, match o with SvTask (SoCo (CoConfirm cf' (Ok _))) => cf' =? cf | _ => false end) outs.

Lemma answered_b_true cf outs : answered_b cf outs = true → SvTask (SoCo (CoConfirm cf (Ok tt))) ∈ outs.
Proof.
  intros (o & Hin & Ho)%existsb_exists. destruct o as [[[j|cf' [[]|]|]| | |]| |]; try done.
  apply Nat.eqb_eq in Ho as ->. by apply list_elem_of_In.
Qed.

Lemma answered_runs :
  ∃ v outs, service_run answered_run one_each_service = Ret (tt, v, outs) ∧ answered_b 77 outs = true.
Proof.
  assert (Hb : match service_run answered_run one_each_service with
               | Ret (_, _, outs) => answered_b 77 outs
               | Panic _ => false
               end = true) by (vm_compute; reflexivity).
  destruct (service_run answered_run one_each_service) as [[[[] v] outs]|]; [|done]. by exists v, outs.
Qed.

Lemma ok_answer_is_published_witness :
  ∃ now k a u, EvUser (UserUpdate k a u 77) ∈ answered_run ∧
    (k, build_user_status now k a u) ∈ topic_of (sys_events answered_run one_each_service) (system_new ∅).
Proof.
  destruct answered_runs as (v & outs & Hrun & Hb).
  apply (ok_answer_is_published one_each ∅ one_each_service answered_run v outs 77).
  - vm_compute. reflexivity.
  - apply no_hydration_ok.
  - exact one_each_start.
  - exact Hrun.
  - repeat (apply Forall_cons; split; [first [exact I|vm_compute; reflexivity]|]). apply Forall_nil_2.
  - by apply answered_b_true.
Defined.

(** The same command through the handler of gRPC. *)
Definition bypass_handler : GrpcState := mkGrpcState (mkBchan [] 1 true) 77.

Definition bypass_answers (cf : Confirmation) : Answer := if cf =? 77 then Some (Ok tt) else None.

Lemma only_command m : EvUser m ∈ answered_run → m = bypass_command.
Proof.
  intros [E|Hin]%elem_of_cons; [by injection E|exfalso].
  repeat (apply elem_of_cons in Hin as [E|Hin]; [discriminate E|]). by apply not_elem_of_nil in Hin.
Qed.

Lemma grpc_ok_is_published_witness :
  ∃ keys, Forall2 (λ device k, key_try_from device = Ok k) ["g:dev#epics"] keys ∧
    ∀ k, k ∈ keys → ∃ now, (k, build_user_status now k (Bypass None) "ops") ∈
      topic_of (sys_events answered_run one_each_service) (system_new ∅).
Proof.
  destruct answered_runs as (v & outs & Hrun & Hb).
  apply (grpc_ok_is_published one_each ∅ one_each_service answered_run v outs bypass_answers 5
    ["g:dev#epics"] (Bypass None) "ops" bypass_handler
    (mkGrpcState (mkBchan [bypass_command] 1 true) 78)
    [InQueued bypass_command; InMetric (RecConfirmationLatency 5)]).
  - vm_compute. reflexivity.
  - apply no_hydration_ok.
  - exact one_each_start.
  - exact Hrun.
  - repeat (apply Forall_cons; split; [first [exact I|vm_compute; reflexivity]|]). apply Forall_nil_2.
  - reflexivity.
  - vm_compute. reflexivity.
  - intros cf. unfold bypass_answers. destruct (Nat.eqb_spec cf 77) as [->|]; [|discriminate].
    intros _. by apply answered_b_true.
  - intros k cf m Hin ->%only_command Hcf. injection Hcf as <-.
    apply elem_of_cons in Hin as [[= ->]|[[=]|Hin%not_elem_of_nil]%elem_of_cons]; [done|destruct Hin].
Defined.
