(* ===== verification/Superseded.v ===== *)
(** * Confirmations that nothing can answer any more

    A confirmation is answered when the outcome of the job with its identifier arrives.
    Once a newer intent has taken the place of that identifier before a job was made for
    it, no job and no intent carries it, and none ever will. *)

From S2P Require Export Answers.
From stdpp Require Import list.

(** ** The coordinator *)

Section coordinator.
Context `{UnicodeTables} `{ProtoEnums}.
Context (P : Key → Prop) (id : Z) (cf : Confirmation).
Implicit Types c : AlarmStateCoordinator.

(** The confirmation [cf] waits under [id] only, and nothing carries [id] but possibly the
    intents of the keys [P]. *)
Record orphaned c (js : list Job) : Prop := {
  or_pending : pending_confirmations c !! id = Some cf;
  or_only id' : pending_confirmations c !! id' = Some cf → id' = id;
  or_intent k st i : speculative_state c !! k = Some (st, i) → i = id → P k;
  or_confirmed k st i : confirmed_state c !! k = Some (st, i) → i ≠ id;
  or_job j : j ∈ js → job_id j ≠ id;
}.

(** The keys [P] have a job under way. *)
Definition under_way c : Prop := ∀ k, P k → is_Some (speculative_state c !! k).

Lemma orphaned_fresh c js : coordinator_ok c → orphaned c js → id_counter c ≠ id.
Proof. intros Hok Ho. pose proof (ok_pending c Hok _ _ (or_pending c js Ho)). lia. Qed.

Lemma orphaned_subset c js js' : (∀ j, j ∈ js' → j ∈ js) → orphaned c js → orphaned c js'.
Proof. intros Hsub []. split; eauto. Qed.

Lemma orphaned_job c j js : job_id j ≠ id → orphaned c js → orphaned c (j :: js).
Proof. intros Hj []. split; [done..|]. intros j' [->|]%elem_of_cons; auto. Qed.

Lemma orphaned_recorded k st c js :
  coordinator_ok c → orphaned c js → orphaned (recorded k st c) js.
Proof.
  intros Hok Ho. pose proof (orphaned_fresh c js Hok Ho). destruct Ho. split; try done.
  intros k' st' i. cbn. rewrite lookup_insert. case_decide; [by intros [= <- <-]|eauto].
Qed.

Lemma orphaned_commanded k st conf c js :
  coordinator_ok c → conf ≠ cf → orphaned c js →
  orphaned (set_pending (insert (id_counter c) conf) (recorded k st c)) js.
Proof.
  intros Hok Hne Ho. pose proof (orphaned_fresh c js Hok Ho).
  destruct (orphaned_recorded k st c js Hok Ho) as [Hp Honly Hi Hc Hj]. split; try done; cbn.
  - by rewrite lookup_insert_ne.
  - intros id'. rewrite lookup_insert. case_decide; [congruence|apply Honly].
Qed.

Lemma orphaned_resolved i c js :
  i ≠ id → orphaned c js → orphaned (set_pending (delete i) c) js.
Proof.
  intros Hne [Hp Honly Hi Hc Hj]. split; try done; cbn.
  - by rewrite lookup_delete_ne.
  - intros id'. rewrite lookup_delete. case_decide; [done|apply Honly].
Qed.

Lemma orphaned_committed k st i c js :
  i ≠ id → orphaned c js → orphaned (set_confirmed (insert k (st, i)) c) js.
Proof.
  intros Hne []. split; try done; cbn. intros k' st' i'. rewrite lookup_insert.
  case_decide; [by intros [= _ <-]|eauto].
Qed.

Lemma orphaned_deleted k c js : orphaned c js → orphaned (set_speculative (delete k) c) js.
Proof.
  intros []. split; try done; cbn. intros k' st i. rewrite lookup_delete. case_decide; [done|eauto].
Qed.

Lemma orphaned_inserted k e c js :
  e.2 ≠ id → orphaned c js → orphaned (set_speculative (insert k e) c) js.
Proof.
  intros Hne []. split; try done; cbn. intros k' st i. rewrite lookup_insert.
  case_decide; [intros [= ->]; by cbn in Hne|eauto].
Qed.

Lemma orphaned_rollback k c js :
  coordinator_ok c → orphaned c js → (rollback_entry c k).2 ≠ id.
Proof.
  intros Hok Ho. unfold rollback_entry. destruct (confirmed_state c !! k) as [[st i]|] eqn:E; cbn.
  - by eapply or_confirmed.
  - pose proof (ok_pending c Hok _ _ (or_pending c js Ho)). unfold DEFAULT_HYDRATED_ID. lia.
Qed.

Lemma orphaned_silent pending i r :
  (∀ id', pending !! id' = Some cf → id' = id) → i ≠ id → ∀ r', CoConfirm cf r' ∉ confirm_outs pending i r.
Proof.
  intros Honly Hne r'. unfold confirm_outs. destruct (pending !! i) as [cf'|] eqn:E; [|apply not_elem_of_nil].
  rewrite list_elem_of_singleton. intros [= ->]. by apply Hne, Honly.
Qed.

Definition event_names (e : CoEvent) : Prop := cf ∈ event_confirmation e.

(** An update keeps all this. *)
Lemma automated_orphaned now st c c' outs js :
  coordinator_ok c → orphaned c js → under_way c →
  coordinator_handle true now (CeAutomated (AutomatedUpdate st)) c = Ret (Ok tt, c', outs) →
  orphaned c' (jobs_in outs ++ js) ∧ under_way c' ∧ ∀ r, CoConfirm cf r ∉ outs.
Proof.
  intros Hok Ho Hway. cbn [coordinator_handle handle_message]. rewrite handle_automated_update_run. cbn zeta.
  pose proof (orphaned_recorded (key_from_status st) st c js Hok Ho) as Hrec.
  pose proof (orphaned_fresh c js Hok Ho) as Hfresh.
  assert (Hway' : under_way (recorded (key_from_status st) st c)).
  { intros k Hk. cbn. rewrite lookup_insert. case_decide; eauto. }
  destruct (should_publish _ _ _);
    [destruct (speculative_state c !! _)|]; unfold job_sent; intros [= <- <-]; cbn;
    (split_and!; [try done|done|]); try (intros r; set_solver).
  by apply orphaned_job.
Qed.

Lemma commanded_orphaned now k a u conf c c' outs js :
  coordinator_ok c → orphaned c js → under_way c → conf ≠ cf →
  coordinator_handle true now (CeUser (UserUpdate k a u conf)) c = Ret (Ok tt, c', outs) →
  orphaned c' (jobs_in outs ++ js) ∧ under_way c' ∧ ∀ r, CoConfirm cf r ∉ outs.
Proof.
  intros Hok Ho Hway Hne. cbn [coordinator_handle handle_message]. rewrite handle_user_update_run. cbn zeta.
  set (st := build_user_status now k a u).
  pose proof (orphaned_commanded k st conf c js Hok Hne Ho) as Hcom.
  pose proof (orphaned_fresh c js Hok Ho) as Hfresh.
  assert (Hway' : under_way (set_pending (insert (id_counter c) conf) (recorded k st c))).
  { intros k' Hk. cbn. rewrite lookup_insert. case_decide; eauto. }
  destruct (user_action_allowed _ _ _);
    [destruct (speculative_state c !! _)|]; unfold job_sent; intros [= <- <-]; cbn;
    (split_and!; [try done|done|]); try (intros r; set_solver).
  by apply orphaned_job.
Qed.

(** The outcome of a job does as well, when no intent carries the identifier. *)
Lemma outcome_orphaned now o c c' outs js :
  coordinator_ok c → (∀ k, ¬ P k) → orphaned c (option_list (outcome_job o) ++ js) →
  coordinator_handle true now (CeOutcome o) c = Ret (Ok tt, c', outs) →
  orphaned c' (jobs_in outs ++ js) ∧ ∀ r, CoConfirm cf r ∉ outs.
Proof.
  intros Hok Hnone Ho Hrun.
  assert (Hway : under_way c) by (intros k []%Hnone).
  assert (Hjs : orphaned c js) by (eapply orphaned_subset; [|exact Ho]; set_solver).
  destruct o as [j|j|k].
  3: { destruct (automated_orphaned now (wake_status now k) c c' outs js Hok Hjs Hway Hrun)
         as (? & _ & ?). done. }
  all: assert (Hj : job_id j ≠ id) by (apply (or_job c _ Ho); by left).
  all: pose proof (orphaned_resolved (job_id j) c js Hj Hjs) as Hres.
  all: pose proof (λ r, orphaned_silent (pending_confirmations c) (job_id j) r (or_only c js Hjs) Hj) as Hsil.
  all: assert (Hint : ∀ k st i, speculative_state c !! k = Some (st, i) → i ≠ id)
    by (intros k st i Hk Hi; by eapply Hnone, or_intent).
  all: cbn [coordinator_handle reconcile_job_outcome] in Hrun;
    rewrite ?reconcile_success_run, ?reconcile_failure_run in Hrun; cbn zeta in Hrun.
  all: destruct (speculative_state c !! job_key j) as [[st i]|] eqn:Hspec; [|try done].
  all: unfold job_sent in Hrun; repeat case_match; simplify_eq; autorewrite with outs.
  all: split; [|intros r; rewrite ?elem_of_app, ?list_elem_of_singleton;
    first [apply Hsil|intros [Hin|?]; [by apply Hsil in Hin|done]]].
  - by apply orphaned_committed, orphaned_deleted.
  - apply (orphaned_committed (job_key j)), orphaned_job; [done|by eapply Hint|done].
  - by apply orphaned_committed.
  - pose proof (orphaned_rollback (job_key j) c js Hok Hjs) as Hroll.
    apply orphaned_job; [done|by apply orphaned_inserted].
  - apply orphaned_job; [by eapply Hint|done].
Qed.
End coordinator.

(** ** The service *)

(** Whether an event brings in a command that is to be answered on [cf]. *)
Definition names (cf : Confirmation) (e : SysEvent) : Prop :=
  match e with SyUser _ m | SyAutomated _ m => cf ∈ message_confirmation m | _ => False end.

(** Whether an event lets the coordinator handle the outcome of a job. *)
Definition settles (e : SysEvent) : Prop := match e with SyJobOutcome _ => True | _ => False end.

Section service.
Context `{UnicodeLaws} `{ProtoLaws} `{StatusJsonLaws} {DQ DK : Type} `{Countable DK}.
Context `{!DelayQueue DQ DK} `{!DelayQueueLaws DQ DK} `{ChronoLaws}.
Implicit Types (s : System DQ DK) (P : Key → Prop).

Lemma event_orphaned P id cf now e c c' outs js :
  coordinator_ok c → cf ∉ event_confirmation e → under_way P c →
  (∀ o k, e = CeOutcome o → ¬ P k) → orphaned P id cf c (option_list (event_job e) ++ js) →
  coordinator_handle true now e c = Ret (Ok tt, c', outs) →
  orphaned P id cf c' (jobs_in outs ++ js) ∧ under_way P c' ∧ ∀ r, CoConfirm cf r ∉ outs.
Proof.
  intros Hok Hname Hway Hout Ho Hrun.
  destruct e as [o|[sn|st|k a u cf']|[sn|st|k a u cf']|]; cbn [option_list event_job app] in Ho; [| | | | | | |done].
  1: { assert (Hnone : ∀ k, ¬ P k) by (intros k; by eapply Hout).
       destruct (outcome_orphaned P id cf now o c c' outs js Hok Hnone Ho Hrun) as [? ?].
       split; [done|]. split; [by intros k []%Hnone|done]. }
  1,4: cbn in Hrun; injection Hrun as <- <-; split; [done|]; split; [done|];
       by intros r ?%list_elem_of_singleton.
  1,3: by apply (automated_orphaned P id cf now st c).
  all: apply (commanded_orphaned P id cf now k a u cf' c); try done;
    intros ->; apply Hname, list_elem_of_singleton; done.
Qed.

Definition sys_orphaned P id cf s : Prop :=
  orphaned P id cf (sys_co s) (tokens s) ∧ under_way P (sys_co s).

Lemma step_orphaned P id cf e s s' outs :
  system_ok s → coordinator_ok (sys_co s) → ¬ names cf e → (settles e → ∀ k, ¬ P k) →
  sys_orphaned P id cf s → sys_step e s = Ret (tt, s', outs) →
  sys_orphaned P id cf s' ∧ ∀ r, SoCo (CoConfirm cf r) ∉ outs.
Proof.
  intros Hsys Hok Hname Hset [Ho Hway] Hstep.
  pose proof (sys_step_coordinator e s s' outs Hsys Hstep) as Hcase.
  destruct (handled_by e s) as [[now ev]|] eqn:Hh.
  - destruct Hcase as (os & js & Hrun & -> & Hs & Hs').
    destruct (event_orphaned P id cf now ev (sys_co s) (sys_co s') os js) as (Ho' & Hway' & Hsil);
      [done| |done| | |done|].
    + destruct e; simplify_eq/=; try done. destruct (q_job_outcome s); simplify_eq/=. apply not_elem_of_nil.
    + intros o k ->. apply Hset. by destruct e; simplify_eq/=.
    + eapply orphaned_subset; [|exact Ho]. intros j. by rewrite Hs.
    + split; [split; [|done]|].
      * eapply orphaned_subset; [|exact Ho']. intros j. by rewrite Hs'.
      * intros r (o & [= <-] & Hin)%list_elem_of_fmap. by apply (Hsil r).
  - destruct Hcase as (Eco & Htok & Hsil). split; [|intros r; apply Hsil].
    unfold sys_orphaned. rewrite Eco. split; [|done]. by eapply orphaned_subset.
Qed.

Lemma run_orphaned P id cf es s s' outs :
  system_ok s → intents_ok s → (id_counter (sys_co s) + Z.of_nat (length es) ≤ u64_max)%Z →
  Forall (λ e, ¬ names cf e) es → ((∀ k, ¬ P k) ∨ Forall (λ e, ¬ settles e) es) →
  sys_orphaned P id cf s → sys_run es s = Ret (tt, s', outs) →
  sys_orphaned P id cf s' ∧ ∀ r, SoCo (CoConfirm cf r) ∉ outs.
Proof.
  revert s outs. induction es as [|e es IH]; intros s outs Hsys Hok Hlen Hname Hset Ho; cbn.
  { intros [= <- <-]. split; [done|]. intros r. apply not_elem_of_nil. }
  destruct (sys_step_ok e s Hsys) as (s1 & o1 & Hstep & Hsys1). rewrite Hstep.
  destruct (sys_run es s1) as [[[[] s2] o2]|] eqn:Hrun; [|done]. intros [= <- <-].
  cbn in Hlen. destruct (sys_step_intents e s s1 o1 Hsys Hok) as [Hok1 Hc]; [lia|done|].
  apply Forall_cons in Hname as [He Hes].
  destruct (step_orphaned P id cf e s s1 o1) as [Ho1 Hs1]; try done; [apply Hok| |].
  { destruct Hset as [|[? _]%Forall_cons]; done. }
  destruct (IH s1 o2) as [Ho2 Hs2]; try done; [lia| |].
  { destruct Hset as [|[_ ?]%Forall_cons]; auto. }
  split; [done|]. intros r. rewrite elem_of_app. intros [?|?]; [by eapply Hs1|by eapply Hs2].
Qed.

(** The state right after a command was accepted for a key with a job under way. *)
Lemma command_orphaned now k a u cf s s' outs :
  system_ok s → intents_ok s → (id_counter (sys_co s) < u64_max)%Z →
  is_Some (speculative_state (sys_co s) !! k) → cf ∉ owed (sys_co s) →
  user_action_allowed (latest_state_of (sys_co s) k) (latest_wake_of (sys_co s) k) a = true →
  sys_step (SyUser now (UserUpdate k a u cf)) s = Ret (tt, s', outs) →
  sys_orphaned (λ k', k' = k) (id_counter (sys_co s)) cf s' ∧ outs = [].
Proof.
  intros Hsys [Hok Htok] Hlt [[st i] Hk] Hfresh Hall.
  cbn [sys_step]. unfold run_co. cbn [coordinator_handle handle_message].
  rewrite handle_user_update_run, Hall, Hk. cbn zeta. intros [= <- <-]. split; [|done].
  assert (Hno : ∀ id, pending_confirmations (sys_co s) !! id ≠ Some cf).
  { intros id Hid. apply Hfresh. unfold owed. apply list_elem_of_fmap.
    exists (id, cf). split; [done|]. by apply elem_of_map_to_list. }
  split; [split|]; cbn.
  - apply lookup_insert_eq.
  - intros id'. rewrite lookup_insert. case_decide; [done|]. by intros ?%Hno.
  - intros k' st' i'. rewrite lookup_insert. case_decide; [done|]. intros Hk' ->.
    apply ok_speculative in Hk'; [lia|done].
  - intros k' st' i' Hk'. apply ok_confirmed in Hk'; [lia|done].
  - intros j Hin. unfold tokens in Hin. cbn in Hin. rewrite app_nil_r in Hin.
    destruct (Htok j Hin) as [? _]. lia.
  - intros k' ->. cbn. rewrite lookup_insert_eq. by eexists.
Qed.

(** A newer intent for the only key that carried the identifier. *)
Lemma overtaken_orphaned now st id cf s s' outs :
  let k := key_from_status st in
  system_ok s → coordinator_ok (sys_co s) → sys_orphaned (λ k', k' = k) id cf s →
  should_publish (get_latest_status (sys_co s) k) k st = true →
  sys_step (SyAutomated now (AutomatedUpdate st)) s = Ret (tt, s', outs) →
  sys_orphaned (λ _, False) id cf s' ∧ outs = [].
Proof.
  intros k Hsys Hok [Ho Hway] Hpub.
  destruct (Hway k eq_refl) as [e Hk]. pose proof (orphaned_fresh _ _ _ _ _ Hok Ho) as Hfresh.
  cbn [sys_step]. unfold run_co. cbn [coordinator_handle handle_message].
  rewrite handle_automated_update_run. cbn zeta. fold k. rewrite Hpub, Hk. intros [= <- <-].
  split; [|done]. split; [|by intros ? []].
  destruct (orphaned_recorded _ _ _ k st _ _ Hok Ho) as [Hp Honly Hi Hc Hj]. split; try done; cbn.
  - intros k' st' i' Hk'. pose proof (Hi k' st' i' Hk') as Hkey. intros E. specialize (Hkey E). subst k'.
    cbn in Hk'. rewrite lookup_insert_eq in Hk'. congruence.
  - intros j Hin. apply Hj. unfold tokens in *. cbn in Hin. by rewrite app_nil_r in Hin.
Qed.

(** The first step of a run. *)
Lemma sys_run_first e es s s' outs :
  system_ok s → intents_ok s → (id_counter (sys_co s) < u64_max)%Z →
  sys_run (e :: es) s = Ret (tt, s', outs) →
  ∃ s1 o1 o2, sys_step e s = Ret (tt, s1, o1) ∧ sys_run es s1 = Ret (tt, s', o2) ∧ outs = o1 ++ o2 ∧
    system_ok s1 ∧ intents_ok s1 ∧ (id_counter (sys_co s1) ≤ id_counter (sys_co s) + 1)%Z.
Proof.
  intros Hs Hi Hl. cbn [sys_run]. destruct (sys_step_ok e s Hs) as (s1 & o1 & Ha & Hs1).
  rewrite Ha. destruct (sys_run es s1) as [[[[] s2] o2]|] eqn:Hb; [|done]. intros [= <- <-].
  destruct (sys_step_intents e s s1 o1 Hs Hi Hl Ha). by exists s1, o1, o2.
Qed.

(** C37 A superseded command is never answered: when an operator's command for an alarm
    with a job under way is accepted, and an update of the alarm is accepted before any
    outcome reached the coordinator, then however the service goes on, for fewer than
    2^64 events in all, the command's confirmation is neither answered with success nor
    with a failure and stays pending. *)
Theorem superseded_confirmation_lost hydrated es0 s0 o0 k now a u cf mid s1 o1 now' st rest s2 o2 :
  (Z.of_nat (length es0 + length mid + length rest + 2) < u64_max)%Z →
  sys_run es0 (system_new hydrated) = Ret (tt, s0, o0) →
  cf ∉ owed (sys_co s0) → Forall (λ e, ¬ names cf e) (mid ++ rest) →
  is_Some (speculative_state (sys_co s0) !! k) →
  user_action_allowed (latest_state_of (sys_co s0) k) (latest_wake_of (sys_co s0) k) a = true →
  Forall (λ e, ¬ settles e) mid →
  sys_run (SyUser now (UserUpdate k a u cf) :: mid) s0 = Ret (tt, s1, o1) →
  key_from_status st = k → should_publish (get_latest_status (sys_co s1) k) k st = true →
  sys_run (SyAutomated now' (AutomatedUpdate st) :: rest) s1 = Ret (tt, s2, o2) →
  cf ∈ owed (sys_co s2) ∧ ∀ r, SoCo (CoConfirm cf r) ∉ o1 ++ o2.
Proof.
  intros Hlen Hrun0 Hfresh [Hmid Hrest]%Forall_app Hflight Hall Hset Hrun1 Hst Hpub Hrun2. subst k.
  destruct (sys_run_intents es0 (system_new hydrated) s0 o0) as (Hsys0 & Hok0 & Hc0);
    [apply system_new_ok|apply intents_ok_new|cbn; unfold INITIAL_PUBLISH_ID; lia|done|].
  cbn in Hc0. unfold INITIAL_PUBLISH_ID in Hc0.
  destruct (sys_run_first _ mid s0 s1 o1 Hsys0 Hok0 ltac:(lia) Hrun1) as (sa & oa & ob & Ha & Hb & -> & Hsysa & Hoka & Hca).
  destruct (command_orphaned now (key_from_status st) a u cf s0 sa oa Hsys0 Hok0) as [Horph ->]; [lia|done..|].
  destruct (sys_run_intents mid sa s1 ob Hsysa Hoka) as (Hsys1 & Hok1 & Hc1); [lia|done|].
  destruct (run_orphaned (λ k', k' = key_from_status st) (id_counter (sys_co s0)) cf mid sa s1 ob)
    as [Horph1 Hsil1]; try done; [lia|by right|].
  destruct (sys_run_first _ rest s1 s2 o2 Hsys1 Hok1 ltac:(lia) Hrun2) as (sc & oc & od & Hc & Hd & -> & Hsysc & Hokc & Hcc).
  destruct (overtaken_orphaned now' st (id_counter (sys_co s0)) cf s1 sc oc Hsys1) as [Horph2 ->];
    [apply Hok1|done..|].
  destruct (run_orphaned (λ _, False) (id_counter (sys_co s0)) cf rest sc s2 od)
    as [[Hend _] Hsil2]; try done; [lia|left; by intros ? []|].
  split.
  - apply list_elem_of_fmap. exists (id_counter (sys_co s0), cf). split; [done|].
    apply elem_of_map_to_list. apply Hend.
  - intros r. cbn. rewrite elem_of_app. intros [?|?]; [by eapply Hsil1|by eapply Hsil2].
Qed.
End service.

(** ** A sample *)

#[local] Existing Instance ascii_only_tables.
#[local] Existing Instance ascii_only_laws.
#[local] Existing Instance sample_enums.
#[local] Existing Instance sample_laws.
#[local] Existing Instance sample_json.
#[local] Existing Instance sample_json_laws.

(** An operator acknowledges an alarm while its job is in flight, and the severity
    changes before that job is done; then everything comes to rest. *)
Definition first_report : list SysEvent :=
  [SyAutomated 1 (AutomatedUpdate (sy_status State.Alarmed Source.Epics Severity.Low))].

Definition acknowledgement : SysEvent := SyUser 2 (UserUpdate (sy_key Source.Epics) Acknowledge "ops" 77).

Definition second_report : Status := sy_status State.Alarmed Source.Epics Severity.High.

Definition superseded_rest : list SysEvent := deliver true ++ deliver true.

Definition superseded : SampleSystem :=
  state_after (first_report ++ [acknowledgement; SyAutomated 3 (AutomatedUpdate second_report)] ++ superseded_rest)
    (system_new ∅).

Lemma superseded_confirmation_lost_witness :
  quiescent superseded ∧ speculative_state (sys_co superseded) = ∅ ∧ 77 ∈ owed (sys_co superseded).
Proof.
  split; [by vm_compute|]. split; [by vm_compute|].
  set (s0 := state_after first_report (system_new ∅)).
  set (s1 := state_after [acknowledgement] s0).
  refine (proj1 (superseded_confirmation_lost ∅ first_report s0 _ (sy_key Source.Epics) 2 Acknowledge "ops" 77
    [] s1 _ 3 second_report superseded_rest superseded _ _ _ _ _ _ _ _ _ _ _ _)).
  - vm_compute. reflexivity.
  - vm_compute. reflexivity.
  - apply not_elem_of_nil.
  - repeat constructor; intros [].
  - vm_compute. by eexists.
  - vm_compute. reflexivity.
  - constructor.
  - vm_compute. reflexivity.
  - vm_compute. reflexivity.
  - vm_compute. reflexivity.
  - vm_compute. reflexivity.
Defined.
