(* ===== verification/EndToEnd.v ===== *)
(** * The course of a command through the service

    From rest, a command that is allowed is carried out: the messages it causes, task
    by task, up to the answer to the operator. *)

From S2P Require Export CoordinatorProps SystemProps.
From stdpp Require Import list.

Section delivery.
Context `{UnicodeTables} `{ProtoEnums} `{StatusJsonLaws} {DQ DK : Type} `{Countable DK}.
Context `{!DelayQueue DQ DK} `{!DelayQueueLaws DQ DK} `{ChronoLaws}.
Implicit Types s : System DQ DK.

Lemma sys_run_cons e es s s1 s2 o1 o2 :
  sys_step e s = Ret (tt, s1, o1) → sys_run es s1 = Ret (tt, s2, o2) →
  sys_run (e :: es) s = Ret (tt, s2, o1 ++ o2).
Proof. intros H1' H2'. cbn. by rewrite H1', H2'. Qed.

(** The service with nothing under way. *)
Definition at_rest (c : AlarmStateCoordinator) (z : Scheduler DQ DK) : System DQ DK :=
  mkSystem c workflow_new z engine_new [] [] [] [] [] [].

Lemma quiescent_at_rest s :
  sys_reachable s → quiescent s →
  ∃ c z, s = at_rest c z ∧ speculative_state c = ∅ ∧ scheduler_ok z.
Proof.
  intros Hr Hq. destruct (at_rest_empty s Hr Hq) as (Hspec & Hjobs).
  pose proof (sys_reachable_ok s Hr) as (_ & Hz & _).
  exists (sys_co s), (sys_sz s). split; [|done].
  destruct Hq as (E1 & E2 & E3 & E4 & E5 & E6 & E7 & E8).
  destruct s as [c [w] z [f b] q1 q2 q3 q4 q5 q6]; cbn in *; by subst.
Qed.

(** A job on its way: from the coordinator's queue to its publish request. *)
Definition snooze_leg (u i : Z) : list SysEvent := [SyJob; SySnooze u i; SySnoozeOutcome; SyPublish].

Definition wake_valid (u i : Z) (w : option Timestamp) : Prop :=
  match w with Some w => is_Some (timestamp_secs_to_instant u i w) | None => True end.

(** The deadline a wake time stands for. *)
Definition deadline (u i : Z) (w : option Timestamp) : option Z :=
  w ≫= timestamp_secs_to_instant u i.

Lemma snooze_leg_run c z j u i :
  scheduler_ok z → wake_valid u i (wake (job_status j)) →
  ∃ z' outs,
    sys_run (snooze_leg u i) (mkSystem c workflow_new z engine_new [j] [] [] [] [] []) =
      Ret (tt, mkSystem c {| jobs := {[job_key j := {| tracked := j; step := 2 |}]} |} z'
                 (mkPublishEngine [mkDelivery (publish_attempt_new (publish_of j)) false] [])
                 [] [] [] [] [] [], outs) ∧
    sets_timer z z' (job_key j) (deadline u i (wake (job_status j))) ∧ scheduler_ok z'.
Proof.
  intros Hz Hw.
  destruct (handle_snooze_input_run true u i {| si_key := job_key j; si_wake := wake (job_status j) |} z Hz)
    as (z' & calls & o & Hrun & Hz' & Hcase).
  assert (Ho : o = Accepted (job_key j) ∧
               sets_timer z z' (job_key j) (deadline u i (wake (job_status j))) ∧
               omap sz_outcome calls = []).
  { cbn in Hcase, Hw. unfold deadline. destruct (wake (job_status j)) as [w|]; cbn in *.
    - destruct Hw as [t Ht]. rewrite Ht in *. repeat case_match; destruct_and?; by subst.
    - repeat case_match; destruct_and?; by subst. }
  destruct Ho as (-> & Hset & Hcalls). exists z'. eexists. split; [|by split].
  eapply sys_run_cons.
  { cbn [sys_step q_job]. unfold run_wf. cbn [workflow_dispatch]. by rewrite handle_new_job_run. }
  eapply sys_run_cons.
  { cbn -[scheduler_iteration]. unfold run_sz. cbn -[handle_snooze_input]. eff_unfold.
    cbn [sys_sz set_q_snooze]. by rewrite Hrun. }
  cbn [sys_co sys_wf sys_sz sys_pe q_job q_job_outcome q_snooze q_snooze_outcome q_publish
    q_publish_outcome set_q_snooze app]. rewrite app_nil_r, omap_app, Hcalls. cbn.
  unfold run_wf. cbn -[advance_workflow]. erewrite advance_second_run by (cbn; apply lookup_insert_eq).
  cbn. rewrite insert_insert_eq. reflexivity.
Qed.

(** The first attempt is delivered, reported and committed. *)
Definition publish_leg (latency : Z) : list SysEvent :=
  [SyAttempt (PeStart 0); SyAttempt (PeComplete 0 true latency); SyPublishOutcome].

Lemma publish_leg_run c z j latency :
  user_initiated j = true →
  ∃ outs,
    sys_run (publish_leg latency)
      (mkSystem c {| jobs := {[job_key j := {| tracked := j; step := 2 |}]} |} z
         (mkPublishEngine [mkDelivery (publish_attempt_new (publish_of j)) false] [])
         [] [] [] [] [] []) =
      Ret (tt, mkSystem c workflow_new z engine_new [] [Committed j] [] [] [] [], outs).
Proof.
  intros Hu. set (a := publish_attempt_new (PubUser (publish_details_from j))).
  destruct (start_run true 0 a (mkPublishEngine [mkDelivery a false] [])) as (body & _ & Hstart); [done|].
  eexists. unfold publish_leg, publish_of. rewrite Hu. fold a.
  eapply sys_run_cons.
  { cbn -[engine_iteration]. unfold run_pe. cbn -[engine_iteration]. by rewrite Hstart. }
  eapply sys_run_cons.
  { cbn -[engine_iteration]. unfold run_pe. cbn -[engine_iteration].
    rewrite (final_run true 0 a true latency);
      [reflexivity|done|by left]. }
  cbn -[dispatch_publish_result]. unfold run_wf. cbn -[dispatch_publish_result].
  erewrite dispatch_publish_result_run by (cbn; apply lookup_insert_eq). cbn.
  rewrite delete_singleton_eq. reflexivity.
Qed.

(** The events by which a command is carried out. *)
Definition command_course (now : Z) (k : Key) (a : UserAction) (user : string)
    (conf : Confirmation) (u i latency later : Z) : list SysEvent :=
  SyUser now (UserUpdate k a user conf) ::
  snooze_leg u i ++ publish_leg latency ++ [SyJobOutcome later].

(** C5 A command is carried out: from any reachable state at rest, an allowed command
    whose wake time, if it has one, is valid, goes through the four tasks in nine steps
    back to rest when the broker takes the message.  The requested status is then the
    confirmed one, under the identifier it was given, no other alarm is affected, the
    alarm's timer is the one its wake time asks for and no other timer is touched, and
    the operator has been answered. *)
Theorem command_carried_out s now k a user conf u i latency later :
  sys_reachable s → quiescent s →
  user_action_allowed (latest_state_of (sys_co s) k) (latest_wake_of (sys_co s) k) a = true →
  wake_valid u i (get_wake a) →
  ∃ s' outs,
    sys_run (command_course now k a user conf u i latency later) s = Ret (tt, s', outs) ∧
    quiescent s' ∧
    confirmed_state (sys_co s') =
      <[k := (build_user_status now k a user, id_counter (sys_co s))]> (confirmed_state (sys_co s)) ∧
    sets_timer (sys_sz s) (sys_sz s') k (deadline u i (get_wake a)) ∧
    SoCo (CoConfirm conf (Ok tt)) ∈ outs.
Proof.
  intros Hr Hq Hallowed Hwake.
  destruct (quiescent_at_rest s Hr Hq) as (c & z & -> & Hspec & Hz).
  cbn [at_rest sys_co sys_sz] in *.
  set (st := build_user_status now k a user).
  set (j := {| job_id := id_counter c; job_key := k; job_status := st; user_initiated := true |}).
  set (c1 := set_pending (insert (id_counter c) conf) (recorded k st c)).
  destruct (snooze_leg_run c1 z j u i Hz Hwake) as (z' & o2 & Hsnooze & Hset & _).
  destruct (publish_leg_run c1 z' j latency eq_refl) as (o3 & Hpublish).
  eexists _, _. split.
  { eapply sys_run_cons.
    { cbn [sys_step]. unfold run_co. cbn -[handle_user_update].
      rewrite handle_user_update_run, Hallowed, Hspec, lookup_empty. reflexivity. }
    eapply sys_run_app; [exact Hsnooze|]. eapply sys_run_app; [exact Hpublish|].
    cbn -[reconcile_success]. unfold run_co. cbn -[reconcile_success].
    rewrite reconcile_success_run. cbn. rewrite lookup_insert_eq, bool_decide_eq_true_2 by done.
    rewrite jobs_in_confirm_outs. reflexivity. }
  split; [by split_and!|]. split; [done|]. split; [exact Hset|].
  cbn. unfold confirm_outs. cbn. rewrite lookup_insert_eq. set_solver.
Qed.
End delivery.

(** ** Witnesses *)

#[local] Existing Instance ascii_only_tables.
#[local] Existing Instance sample_enums.
#[local] Existing Instance sample_json.
#[local] Existing Instance sample_json_laws.

(** An active alarm is snoozed for an hour. *)
Lemma command_carried_out_witness :
  let s := state_after one_delivered (system_new ∅) in
  let k := sy_key Source.Epics in
  let a := Bypass (Some {| seconds := 3600; nanos := 0 |}) in
  ∃ s' outs,
    sys_run (command_course 0 k a "ops" 77 0 0 1 9) s = Ret (tt, s', outs) ∧
    quiescent s' ∧
    confirmed_state (sys_co s') =
      <[k := (build_user_status 0 k a "ops", id_counter (sys_co s))]> (confirmed_state (sys_co s)) ∧
    sets_timer (sys_sz s) (sys_sz s') k (deadline 0 0 (get_wake a)) ∧
    SoCo (CoConfirm 77 (Ok tt)) ∈ outs.
Proof.
  intros s k a. apply command_carried_out.
  - eapply (sys_run_reachable one_delivered (system_new ∅)); [apply reach_new|].
    vm_compute. reflexivity.
  - by repeat split.
  - vm_compute. reflexivity.
  - cbn. vm_compute. by eexists.
Defined.
