(* ===== verification/Scenarios.v ===== *)
(** * Behaviours of the whole service that its documentation does not intend

    What the four tasks do together, step by step as they are written, where this is not
    what the documentation of the service says: a wake that hides an alarm, a rollback
    that never ends, a hydrated bypass that never ends. *)

From S2P Require Export CoordinatorProps Intents.
From stdpp Require Import list.

(** ** A wake that hides an alarm *)

Section wake.
Context `{UnicodeLaws} `{ProtoLaws} `{StatusJsonLaws} {DQ DK : Type} `{Countable DK}.
Context `{!DelayQueue DQ DK} `{!DelayQueueLaws DQ DK} `{ChronoLaws}.
Implicit Types s : System DQ DK.

(** The wake of an active alarm is published: it changes the severity. *)
Lemma wake_recorded now k L c :
  key_wf k → get_latest_status c k = Some L → state L = State.Alarmed →
  severity L ≠ severity (wake_status now k) →
  ∃ c' outs, coordinator_handle true now (CeOutcome (Wake k)) c = Ret (Ok tt, c', outs) ∧
    get_latest_status c' k = Some (wake_status now k).
Proof.
  intros Hk HL Halarmed Hsev. co_run. rewrite (key_from_wake_status _ _ Hk), HL.
  assert (Hpub : should_publish (Some L) k (wake_status now k) = true).
  { rewrite should_publish_Some, Halarmed. cbn.
    by rewrite (bool_decide_eq_true_2 (severity L ≠ _)), orb_true_r. }
  rewrite Hpub. unfold job_sent.
  destruct (speculative_state c !! k); eexists _, _; (split; [reflexivity|]);
    unfold get_latest_status; cbn; by rewrite lookup_insert_eq.
Qed.

End wake.

(** ** Samples of the service *)

#[local] Existing Instance ascii_only_tables.
#[local] Existing Instance ascii_only_laws.
#[local] Existing Instance sample_enums.
#[local] Existing Instance sample_laws.
#[local] Existing Instance sample_json.
#[local] Existing Instance sample_json_laws.

(** ** A rollback that never ends *)

(** An operator activates an alarm that was hydrated as bypassed until a time that
    has passed, and the broker refuses all the attempts. *)
Definition past_bypass : Status :=
  {| device := "G:DEV"; severity_raw := 0; state_raw := state_to_i32 State.Bypassed;
     source_raw := source_to_i32 Source.Epics; acknowledgeable := false; time := None;
     epics_type := ""; user := "ops"; wake := Some {| seconds := 5; nanos := 0 |} |}.

Definition failed_activation : list SysEvent :=
  [SyUser 100 (UserUpdate (sy_key Source.Epics) Activate "ops" 77);
   SyJob; SySnooze 0 0; SySnoozeOutcome; SyPublish] ++
  flat_map (λ _, [SyAttempt (PeStart 0); SyAttempt (PeComplete 0 false 1)])
    (seq 0 (Z.to_nat MAX_DELIVERY_ATTEMPTS)) ++
  [SyPublishOutcome; SyJobOutcome 101].

Definition rolled_back : SampleSystem :=
  state_after failed_activation (system_new {[sy_key Source.Epics := past_bypass]}).

(** The job of the rollback, from the coordinator to its outcome. *)
Definition rollback_round (t : Z * Z) : list SysEvent :=
  [SyJob; SySnooze (fst t) (snd t); SySnoozeOutcome; SyJobOutcome 0].

Definition past_wake (w : Timestamp) (t : Z * Z) : Prop :=
  (seconds w * 1000000000 < fst t)%Z.

(** A wake time that has passed is refused, whatever the state of the scheduler. *)
Lemma past_wake_step w t k rest (s : SampleSystem) :
  past_wake w t → q_snooze s = {| si_key := k; si_wake := Some w |} :: rest →
  sys_step (SySnooze (fst t) (snd t)) s =
    Ret (tt, set_q_snooze_outcome (q_snooze_outcome s ++ [InvalidWake k]) (set_q_snooze rest s),
         [SoSz (SzMetric RecSnoozeInvalidWake); SoSz (SzOutcome (InvalidWake k))]).
Proof.
  intros Ht Hq.
  assert (Hw : timestamp_secs_to_instant (fst t) (snd t) w = None).
  { unfold timestamp_secs_to_instant. destruct (datetime_from_secs _) as [d|] eqn:Hd; [|done].
    apply datetime_from_secs_value in Hd as ->. rewrite timedelta_to_std_spec.
    unfold past_wake in Ht. by rewrite (proj2 (Z.ltb_lt _ _)) by lia. }
  cbn [sys_step]. rewrite Hq. unfold run_sz, scheduler_iteration, handle_snooze_input. eff_unfold. cbn -[timestamp_secs_to_instant].
  rewrite Hw. reflexivity.
Qed.

Lemma rollback_round_cycles t :
  past_wake {| seconds := 5; nanos := 0 |} t →
  ∃ outs, sys_run (rollback_round t) rolled_back = Ret (tt, rolled_back, outs).
Proof.
  intros Ht. eexists.
  apply (sys_run_app [SyJob] [SySnooze (fst t) (snd t); SySnoozeOutcome; SyJobOutcome 0]
           _ (state_after [SyJob] rolled_back)); [vm_compute; reflexivity|].
  change (SySnooze (fst t) (snd t) :: ?l) with ([SySnooze (fst t) (snd t)] ++ l).
  eapply sys_run_app.
  - cbn [sys_run]. rewrite (past_wake_step _ _ (sy_key Source.Epics) [] _ Ht); [reflexivity|].
    vm_compute. reflexivity.
  - vm_compute. reflexivity.
Qed.

(** C38 A rollback that never ends: when the activation of an alarm whose confirmed
    bypass lies in the past fails, the coordinator re-sends that bypass, the snooze
    scheduler refuses its wake time, and the failure re-sends it again.  Whatever the
    clocks show afterwards, any number of rounds leads back to the same state, with
    the key's intent unsettled and without a single publish attempt. *)
Theorem rollback_livelock ts :
  Forall (past_wake {| seconds := 5; nanos := 0 |}) ts →
  ∃ outs, sys_run (flat_map rollback_round ts) rolled_back = Ret (tt, rolled_back, outs) ∧
    sys_reachable rolled_back ∧
    is_Some (speculative_state (sys_co rolled_back) !! sy_key Source.Epics).
Proof.
  intros Hts.
  assert (Hcycle : ∃ outs, sys_run (flat_map rollback_round ts) rolled_back =
                     Ret (tt, rolled_back, outs)).
  { induction Hts as [|t ts Ht _ [o2 IH]]; [by exists []|].
    destruct (rollback_round_cycles t Ht) as [o1 H1]. exists (o1 ++ o2).
    by apply (sys_run_app _ _ _ rolled_back). }
  destruct Hcycle as [outs Hcycle]. exists outs. split; [done|]. split.
  - eapply (sys_run_reachable failed_activation (system_new {[sy_key Source.Epics := past_bypass]}));
      [apply reach_new|]. vm_compute. reflexivity.
  - vm_compute. by eexists.
Qed.

Lemma rollback_livelock_witness :
  ∃ outs, sys_run (flat_map rollback_round [(6000000000%Z, 0%Z); (7000000000%Z, 10%Z)]) rolled_back =
      Ret (tt, rolled_back, outs) ∧
    sys_reachable rolled_back ∧
    is_Some (speculative_state (sys_co rolled_back) !! sy_key Source.Epics).
Proof. apply rollback_livelock. repeat constructor. Defined.

(** ** A bypass that never ends *)

(** C39 A hydrated bypass never expires: from its start the service only reacts to
    clients and to alarm sources.  Whatever wake times the hydrated statuses carry
    and however far the clocks advance, no timer fires, no job is sent and the
    state stays the one it started with. *)
Theorem hydrated_bypass_never_wakes {DQ DK} `{DelayQueueLaws DQ DK} hydrated es :
  Forall (λ e, match e with SyUser _ _ | SyAutomated _ _ => False | _ => True end) es →
  sys_run es (system_new (DQ := DQ) (DK := DK) hydrated) =
    Ret (tt, system_new hydrated, []).
Proof.
  assert (Hempty : dq_is_empty dq_new = true) by (apply dq_is_empty_entries, dq_new_entries).
  induction 1 as [|e es He _ IH]; [done|]. cbn [sys_run].
  assert (Hstep : sys_step e (system_new (DQ := DQ) (DK := DK) hydrated) =
                  Ret (tt, system_new hydrated, [])).
  { destruct e as [| | | | | | | | |[]]; try done.
    cbn [sys_step]. unfold run_sz, scheduler_iteration. eff_unfold. cbn. by rewrite Hempty. }
  by rewrite Hstep, IH.
Qed.

Lemma hydrated_bypass_never_wakes_witness :
  sys_run [SyTimer 9000000000 9000000000; SyAttempt PeTick; SyJobOutcome 9]
    (system_new (DQ := gmap nat (Key * Z)) (DK := nat) {[sy_key Source.Epics := past_bypass]}) =
  Ret (tt, system_new {[sy_key Source.Epics := past_bypass]}, []).
Proof. apply hydrated_bypass_never_wakes. repeat constructor. Defined.

(** *** The wake of an alarm that is active again *)

(** A digital alarm is bypassed until second 10; its timer fires, and before the wake
    reaches the coordinator the source reports the alarm. *)
Definition until_wake : list SysEvent :=
  [SyUser 1 (UserUpdate (sy_key Source.Digital) (Bypass (Some {| seconds := 10; nanos := 0 |}))
               "ops" 77)] ++
  deliver false ++
  [SyTimer 10000000000 10000000000;
   SyAutomated 10 (AutomatedUpdate (sy_status State.Alarmed Source.Digital Severity.High));
   SySnoozeOutcome].

Definition awaiting_wake : SampleSystem := state_after until_wake (system_new ∅).
Definition woken : SampleSystem := state_after [SyJobOutcome 10] awaiting_wake.
Definition after_wake : SampleSystem := state_after (deliver true ++ deliver true) woken.

Lemma after_wake_undisturbed :
  match sys_run (deliver true ++ deliver true) woken with
  | Ret (_, _, outs) => undisturbed_b (sy_key Source.Digital) woken outs
  | Panic _ => false
  end = true.
Proof. vm_compute. reflexivity. Qed.

Lemma state_after_ok es (s : SampleSystem) : system_ok s → system_ok (state_after es s).
Proof.
  intros Hok. destruct (sys_run_ok es s Hok) as (s' & outs & Hrun & Hok'). unfold state_after. by rewrite Hrun.
Qed.

